(* ===== verification/_CoqProject ===== *)
-Q . S2P
Prelude.v
Identity.v
Lifecycle.v
Lease.v
FairQueue.v
GuestProfile.v
Journal.v
LineCodec.v
Replay.v
Ledger.v
Volume.v
Network.v
Topology.v
Compiler.v
Specification.v
Snapshot.v
Envelope.v
Artifact.v
ArtifactProofs.v
ArtifactTheorems.v
Attestation.v
VolumeArchive.v
DirectoryVolume.v
DirectoryVolumeProofs.v
DirectoryVolumeExample.v
DirectoryVolumeTheorems.v
WorkOrder.v
Autoscale.v
Protocol.v
Placement.v
PlacementProofs.v
PlacementInvariant.v
PlacementProgress.v
PlacementExample.v
PlacementTheorems.v
Controller.v
Verifier.v
Signer.v
Http.v
GatewayAuth.v
Gateway.v
GatewayProofs.v
GatewayExample.v
GatewayTheorems.v
Broker.v
BrokerProofs.v
Registration.v
WorkerSlot.v
Admission.v
Service.v
ServiceLedger.v
ServiceProofs.v
Connection.v
