(* ===== verification/Prelude.v ===== *)
(** * A verification of sandboxd and its control plane

    The program runs untrusted multi-container workloads.  A client submits a
    request to the _gateway_ ([bins/sandbox-gateway]), which records it in the
    _placement store_ ([crates/sandbox-placement], PostgreSQL).  The gateway's
    dispatcher takes the next request for a clean worker, signs a _work order_
    for it and sends it to the _broker_ beside that worker
    ([bins/sandbox-broker]).  The broker passes it over a Unix socket to the
    worker daemon _sandboxd_ ([bins/sandboxd]), which verifies the order,
    spends its nonce in a durable replay cache, leases its single slot, records
    the assignment in a durable ledger, admits the locked topology
    ([crates/sandbox-oci]) and starts it.  HTTP requests to a running sandbox
    go through gateway and broker to a loopback endpoint of the guest.  An
    _autoscaler_ ([bins/sandbox-autoscaler]) scales the worker pools through
    Kubernetes.  [crates/sandbox-core] has the domain types and the pure
    decisions; [crates/sandbox-protocol] the messages.  Checkpoints are kept as
    encrypted, content-addressed objects by [crates/sandbox-artifact], named
    volumes in directories by [crates/sandbox-volume].

    ** What models what

    Each file has one module named like the file, with the definitions under
    the names of the source, and then the lemmas and theorems on it.

    - Domain: [Identity] (identity.rs, assignment.rs, context.rs), [Lifecycle],
      [Lease] and [FairQueue] (placement.rs of sandbox-core), [GuestProfile],
      [Volume], [Specification], [Snapshot], [WorkOrder] (work_order.rs,
      worker.rs, capability.rs), [Autoscale].
    - Topologies: [Network] and [Topology] (model.rs of sandbox-oci),
      [Compiler] (compiler.rs).
    - Durable state of a worker: [Journal] (journal/), [Replay]
      (authorization/replay.rs), [Ledger] (assignment.rs of sandboxd); the
      last two use the journal through the interface [Journal.DurableLog].
      [LineCodec] is a concrete line encoder that instantiates their JSON
      parameter.
    - A worker: [Protocol] (sandbox-protocol), [Verifier]
      (authorization/verifier.rs, peer.rs), [WorkerSlot] (worker.rs),
      [Admission] (service/admission.rs), [Service] (service/handler.rs and
      the daemon's state), [Connection] (server/connection.rs, limit.rs,
      transport.rs, audit.rs).  [ServiceLedger] states what the handlers need
      of a ledger and shows that [Ledger] gives it; [ServiceProofs] has the
      theorems on the handlers for every such ledger.
    - Placement: [Placement] has the tables of postgres.rs, their constraints
      and every transaction; [PlacementProofs], [PlacementInvariant] and
      [PlacementProgress] the lemmas on histories of calls,
      [PlacementTheorems] what follows, [PlacementExample] a store that
      evaluates.  [Controller] is the autoscaler's reconciliation on it.
    - Gateway and broker: [Signer] (signer.rs), [Http] (the framing that both
      share), [GatewayAuth] (auth.rs, worker_auth.rs), [Gateway] (api.rs,
      dispatcher.rs, ingress.rs), [GatewayProofs] and [GatewayTheorems];
      [Broker] (broker.rs, ingress.rs, registration.rs) and [BrokerProofs];
      [Registration] composes the broker's client with the gateway's handler.
      [GatewayExample] is a gateway that evaluates.
    - Snapshots: [Envelope] (crypto.rs of sandbox-artifact), [Artifact]
      (repository.rs, transfer.rs, model.rs, backend/local.rs),
      [ArtifactProofs] and [ArtifactTheorems].
    - Volumes: [VolumeArchive] has the archives of directory.rs of
      sandbox-volume (the walk, the export, the validation), [DirectoryVolume]
      its provider call by call on a file system whose calls fail and stop
      ([World], with one event for each call), [DirectoryVolumeProofs] the
      triples of its operations, [DirectoryVolumeTheorems] the theorems and
      [DirectoryVolumeExample] a worker that evaluates.
    - Images: [Attestation] (attestation.rs and preparation.rs of
      sandbox-core, image_attestation.rs of sandboxd).
    - This file: results, the state and error monad, Hoare triples on it,
      machine integers, texts, ordered maps, and the tactics and hints that
      the other files share.

    ** How the code is represented

    A fallible function returns [result]; a method on a mutable state is
    [M S E A], which also says what state an error leaves behind.  [expect],
    indexing and checked arithmetic that panic are values ([Panicked]), so
    that absence of panics is a theorem.  Machine integers are [Z] with the
    checked or wrapping operation of the source.  Byte strings are [string].
    Code outside the repository (JSON, SHA-256, HMAC, AES-GCM, Ed25519, tar, base64, the http crate,
    sockets, the clock, Kubernetes, the container runtime) is a parameter or a
    class of operations; what a theorem needs of it is a class of laws, and
    every such class has an instance that evaluates, on which the witnesses
    run.  Threads, the journal's writer, crashes and other clients of the
    store are explicit steps: operations on durable state are split at the
    point where they wait, a crash keeps what was synced and any prefix of the
    rest, and any list of calls of other clients runs before each call of
    ours.

    ** What the theorems show

    - Isolation and authorization: a request changes nothing of another tenant
      ([ServiceProofs.tenant_isolation]); every effect on a workload
      connection is that of a valid, live work order for exactly that request
      ([Connection.workload_effects_are_authorized], [Verifier]); an order is
      spent once, across crashes ([Verifier.work_order_is_spent]); what the
      gateway sends was signed for a row of the store and an authenticated
      owner ([GatewayTheorems]); a routed request reaches one loopback
      endpoint with the guest's own token only ([BrokerProofs]).
    - Fencing: epochs are never handed out twice ([Ledger],
      [PlacementTheorems.grants_are_exclusive]), superseded assignments have
      no effect, finished requests stay finished, recoveries wait for their
      fence, expired leases are taken back.
    - Durability: the journal recovers every acknowledged change and group
      commit is sequential ([Journal]).
    - Snapshots: a published snapshot is materialized exactly, whatever is
      published, transferred and collected afterwards, until its reference is
      removed; what is materialized has the digests of a valid manifest,
      whatever the store holds; a transfer is claimed for one destination; an
      envelope opens to what was sealed ([ArtifactTheorems]).  Digests of the
      contents in use are assumed to be distinct, and other clients not to
      delete the blobs of the snapshot.
    - Volumes: a persistent volume survives any history of operations, failed
      calls, stops and restarts, and an interrupted restore leaves the old data
      or the whole archive; opening the provider recovers every consistent
      directory; an operation changes no other volume, whatever handle it
      presents; a snapshot restores on another worker
      ([DirectoryVolumeTheorems]); an accepted archive stays below the
      directory into which it is unpacked ([VolumeArchive]).  Destinations of
      attachments are assumed to need no escapes in JSON, since a record with
      long escaped destinations exceeds the limit of its reader.
    - Images: a worker with a configured attestation starts only when a
      trusted key signed exactly its image, root and artifact, recently and
      within the policy, and what such a key signs is admitted
      ([Attestation]).
    - A worker serves one assignment and retires after it or after a failure
      ([WorkerSlot], [ServiceProofs]).
    - Scheduling: the fair queue refines one FIFO per tenant, is fair and
      starves no one ([FairQueue]); the store grants the first request of its
      order; autoscaling keeps its limits and converges ([Autoscale],
      [Controller]).
    - Agreement across components: what the gateway signs the worker
      verifies ([Signer]), what it routes the broker reads ([BrokerProofs]),
      what the compiler locks verifies ([Compiler]), what is admitted fits
      ([Admission]).
    - Where the code departs from what it says, a theorem exhibits it (the
      theorems whose comments say so in [Lifecycle], [Ledger], [Volume],
      [Network], [Snapshot], [Specification], [WorkerSlot], [ServiceProofs],
      [PlacementTheorems], [Registration], [ArtifactTheorems],
      [VolumeArchive] and [DirectoryVolumeTheorems]).

    ** Bounds and fuel

    Loops that are not structural have fuel that is proved enough: the
    startup order uses the number of services, the chunk decoder the length
    of its input.  The fair queue's loop has the bound of the source, which is
    proved to find work when there is some.  No theorem assumes that fuel
    suffices.

    ** Not modelled

    Process set-up, command lines, configuration and key files, TLS, database
    migrations, metrics and logging: I/O without decisions of its own.  The
    endless loops around a round of the dispatcher, the controller and the
    registration client: the theorems are on any number of rounds.  The
    executor of [crates/sandbox-gvisor], the image provider and writable
    layers of [crates/sandbox-oci], the provider for artifacts and secrets of
    [crates/sandbox-volume] (local.rs), [bins/sandbox-net-agent] and
    [bins/sandboxctl]: they act on the host
    through external commands, mounts and files, and are used here through
    the interfaces of [Service], [Admission], [Compiler] and
    [DirectoryVolume.Auxiliary].  Of the directory provider, the modes and
    owners of files and the probes for capabilities.  The S3 backend
    of [crates/sandbox-artifact], whose requests, retries and listings
    implement the interface that the local backend is modelled for, and the
    permits that bound the operations of the repository. *)

From Stdlib Require Export ZArith Lia ZifyBool String Ascii.
From Stdlib Require Import DecimalString DecimalPos DecimalN.
From stdpp Require Export base option strings list sorting gmap.

#[global] Open Scope Z_scope.

(** ** Results and stateful fallible code

    A Rust [Result<A, E>] is [result E A].  A method on [&mut self] that may
    return early is [M S E A]: the state it leaves behind is returned together
    with the result, on the error path too. *)

Inductive result (E A : Type) : Type :=
| Ok (a : A)
| Err (e : E).
Arguments Ok {E A} a.
Arguments Err {E A} e.

#[global] Instance result_ret {E} : MRet (result E) := λ A a, Ok a.
#[global] Instance result_bind {E} : MBind (result E) :=
  λ A B f r, match r with Ok a => f a | Err e => Err e end.

Definition is_ok {E A} (r : result E A) : bool :=
  match r with Ok _ => true | Err _ => false end.

Definition map_err {E F A} (f : E → F) (r : result E A) : result F A :=
  match r with Ok a => Ok a | Err e => Err (f e) end.

(** [Option::ok_or]. *)
Definition ok_or {E A} (e : E) (o : option A) : result E A :=
  match o with Some a => Ok a | None => Err e end.

Definition M (S E A : Type) : Type := S → S * result E A.

#[global] Instance M_ret {S E} : MRet (M S E) := λ A a s, (s, Ok a).
#[global] Instance M_bind {S E} : MBind (M S E) :=
  λ A B f c s,
    match c s with
    | (s', Ok a) => f a s'
    | (s', Err e) => (s', Err e)
    end.

Definition M_fail {S E A} (e : E) : M S E A := λ s, (s, Err e).
Definition M_get {S E} : M S E S := λ s, (s, Ok s).
Definition M_put {S E} (s : S) : M S E () := λ _, (s, Ok tt).
Definition M_modify {S E} (f : S → S) : M S E () := λ s, (f s, Ok tt).
Definition M_lift {S E A} (r : result E A) : M S E A := λ s, (s, r).

(** A state change that cannot fail. *)
Definition M_state {S E A} (f : S → S * A) : M S E A := λ s, let '(s', a) := f s in (s', Ok a).

(** [if guard { return Err(e) }]. *)
Definition M_reject_if {S E} (guard : bool) (e : E) : M S E () :=
  λ s, (s, if guard then Err e else Ok tt).

Definition reject_if {E} (guard : bool) (e : E) : result E () :=
  if guard then Err e else Ok tt.

(** Failure of an operation that may reject its input or hit an [expect]. *)
Inductive failure (E : Type) : Type :=
| Rejected (e : E)
| Panicked (message : string).
Arguments Rejected {E} e.
Arguments Panicked {E} message.

(** [Option::expect]. *)
Definition expect {E A} (message : string) (o : option A) : result (failure E) A :=
  ok_or (Panicked message) o.

(** A loop that returns early on the first error. *)
Fixpoint for_each {E A} (f : A → result E ()) (l : list A) : result E () :=
  match l with
  | [] => Ok tt
  | x :: l' => f x;; for_each f l'
  end.

(** ** Machine integers

    [u16], [u32], [u64] and the 64-bit [usize] are values of [Z]; the checked
    and saturating operations of the source are written out. *)

Definition u16_max : Z := 65535.
Definition u32_max : Z := 4294967295.
Definition u64_max : Z := 18446744073709551615.
Definition i32_max : Z := 2147483647.
Definition i64_max : Z := 9223372036854775807.

Definition in_u32 (x : Z) : Prop := 0 ≤ x ≤ u32_max.
Definition in_u64 (x : Z) : Prop := 0 ≤ x ≤ u64_max.

Definition checked_add (max a b : Z) : option Z :=
  if a + b <=? max then Some (a + b) else None.
Definition checked_mul (max a b : Z) : option Z :=
  if a * b <=? max then Some (a * b) else None.
Definition saturating_add (max a b : Z) : Z := Z.min max (a + b).
Definition saturating_sub (a b : Z) : Z := Z.max 0 (a - b).

Abbreviation u64_checked_add := (checked_add u64_max).
Abbreviation u64_checked_mul := (checked_mul u64_max).
Abbreviation u64_saturating_add := (saturating_add u64_max).
Abbreviation u32_checked_add := (checked_add u32_max).
Abbreviation u32_saturating_add := (saturating_add u32_max).

Abbreviation length_z l := (Z.of_nat (length l)).

(** ** Byte strings

    A Rust [String] is the string of its UTF-8 bytes; [len] is in bytes. *)

#[global] Arguments String.append !s1 s2 /.

Definition bytes (s : string) : list ascii := list_ascii_of_string s.
Definition len (s : string) : Z := Z.of_nat (String.length s).
Definition code (c : ascii) : Z := Z.of_N (N_of_ascii c).
Definition in_range (lo hi : Z) (c : ascii) : bool := (lo <=? code c) && (code c <=? hi).

Definition is_ascii_lowercase : ascii → bool := in_range 97 122.
Definition is_ascii_uppercase : ascii → bool := in_range 65 90.
Definition is_ascii_digit : ascii → bool := in_range 48 57.
Definition is_ascii_alphanumeric (c : ascii) : bool :=
  is_ascii_lowercase c || is_ascii_uppercase c || is_ascii_digit c.
Definition is_ascii_hexdigit (c : ascii) : bool :=
  is_ascii_digit c || in_range 97 102 c || in_range 65 70 c.
(** [byte.is_ascii_digit() || matches!(byte, b'a'..=b'f')]. *)
Definition is_lowercase_hex (c : ascii) : bool := is_ascii_digit c || in_range 97 102 c.
Definition is_byte (b c : ascii) : bool := Ascii.eqb b c.

Definition all_bytes (p : ascii → bool) (s : string) : bool := forallb p (bytes s).

Fixpoint strip_prefix (p s : string) : option string :=
  match p, s with
  | EmptyString, _ => Some s
  | String a p', String b s' => if Ascii.eqb a b then strip_prefix p' s' else None
  | String _ _, EmptyString => None
  end.
Definition starts_with (p s : string) : bool := bool_decide (is_Some (strip_prefix p s)).

(** [str::contains] for a string pattern. *)
Fixpoint contains (p s : string) : bool :=
  starts_with p s || match s with EmptyString => false | String _ s' => contains p s' end.

Definition first_byte (s : string) : option ascii := head (bytes s).
Definition last_byte (s : string) : option ascii := last (bytes s).

(** [str::rsplit_once] for a pattern that is not empty: splits at the last
    occurrence. *)
Fixpoint rsplit_once (p s : string) : option (string * string) :=
  match s with
  | EmptyString => None
  | String c s' =>
      match rsplit_once p s' with
      | Some (a, b) => Some (String c a, b)
      | None => match strip_prefix p s with Some b => Some (EmptyString, b) | None => None end
      end
  end.

(** [str::split] for one byte: always at least one part. *)
Fixpoint split_byte (c : ascii) (s : string) : list string :=
  match s with
  | EmptyString => [EmptyString]
  | String b s' =>
      if Ascii.eqb b c then EmptyString :: split_byte c s'
      else match split_byte c s' with
           | [] => [String b EmptyString]
           | part :: parts => String b part :: parts
           end
  end.

(** [str::split_once] for one byte. *)
Fixpoint split_once (c : ascii) (s : string) : option (string * string) :=
  match s with
  | EmptyString => None
  | String b s' =>
      if Ascii.eqb b c then Some (EmptyString, s')
      else match split_once c s' with
           | Some (x, y) => Some (String b x, y)
           | None => None
           end
  end.

(** [str::strip_suffix] and [str::ends_with]. *)
Fixpoint strip_suffix (p s : string) : option string :=
  if bool_decide (s = p) then Some EmptyString
  else match s with
       | EmptyString => None
       | String b s' => match strip_suffix p s' with Some t => Some (String b t) | None => None end
       end.
Definition ends_with (p s : string) : bool := bool_decide (is_Some (strip_suffix p s)).

(** [u32::to_string] and the like. *)
Definition to_string (n : Z) : string := NilEmpty.string_of_uint (N.to_uint (Z.to_N n)).

(** [str::parse] for unsigned integers: an optional [+], at least one digit,
    no overflow. *)
Definition parse_unsigned (max : Z) (s : string) : option Z :=
  let digits := match strip_prefix "+" s with Some d => d | None => s end in
  if bool_decide (digits = EmptyString) then None
  else match NilEmpty.uint_of_string digits with
       | Some d => let n := Z.of_N (N.of_uint d) in if n <=? max then Some n else None
       | None => None
       end.

(** ** Ordered maps

    A [BTreeMap] is a [gmap]; where the source iterates, the entries are
    visited in key order.  A key's [Ord] is the lexicographic order of its
    fields, given by [btree_repr]. *)

Class BTreeOrd (K : Type) : Type := btree_repr : K → list string.

Fixpoint lex_leb (xs ys : list string) : bool :=
  match xs, ys with
  | [], _ => true
  | _ :: _, [] => false
  | x :: xs', y :: ys' =>
      match String.compare x y with
      | Lt => true
      | Gt => false
      | Eq => lex_leb xs' ys'
      end
  end.

Definition key_le {K} `{BTreeOrd K} (a b : K) : Prop :=
  Is_true (lex_leb (btree_repr a) (btree_repr b)).

#[global] Instance key_le_dec {K} `{BTreeOrd K} (a b : K) : Decision (key_le a b).
Proof. unfold key_le. apply _. Defined.

#[global] Instance string_btree : BTreeOrd string := λ s, [s].

Definition btree_iter {K V} `{Countable K, BTreeOrd K} (m : gmap K V) : list (K * V) :=
  merge_sort (λ p q, key_le p.1 q.1) (map_to_list m).
Definition btree_keys {K V} `{Countable K, BTreeOrd K} (m : gmap K V) : list K :=
  (btree_iter m).*1.
Definition btree_values {K V} `{Countable K, BTreeOrd K} (m : gmap K V) : list V :=
  (btree_iter m).*2.

(** ** Lemmas shared by the components *)

Create HintDb sandbox.
#[global] Hint Constants Opaque : sandbox.

Lemma Ok_inj {E A} (a b : A) : Ok (E := E) a = Ok b → a = b.
Proof. congruence. Qed.

Section results.
Context {S E A B : Type}.

Lemma bind_Ok_inv (r : result E A) (f : A → result E B) (b : B) :
  r ≫= f = Ok b → ∃ a, r = Ok a ∧ f a = Ok b.
Proof. destruct r as [a|e]; simpl; [eauto | discriminate]. Qed.

Lemma M_bind_Ok_inv (c : M S E A) (f : A → M S E B) (s t : S) (b : B) :
  (c ≫= f) s = (t, Ok b) → ∃ a s', c s = (s', Ok a) ∧ f a s' = (t, Ok b).
Proof. unfold mbind, M_bind. destruct (c s) as [s' [a|e]]; [eauto | discriminate]. Qed.

(** The same whatever the result is. *)
Lemma M_bind_inv (c : M S E A) (f : A → M S E B) s t r :
  (c ≫= f) s = (t, r) → ∃ s' x, c s = (s', x) ∧ match x with Ok a => f a s' = (t, r) | Err e => t = s' ∧ r = Err e end.
Proof. unfold mbind, M_bind. destruct (c s) as [s' [a|e]]; intros Hrun; do 2 eexists; (split; [done|]); [exact Hrun|by injection Hrun]. Qed.

Lemma M_lift_bind_inv (x : result E A) (f : A → M S E B) s t r :
  (M_lift x ≫= f) s = (t, r) → (∃ e, x = Err e ∧ t = s) ∨ ∃ a, x = Ok a ∧ f a s = (t, r).
Proof. unfold mbind, M_bind, M_lift. destruct x as [a|e]; [eauto|]. intros [= <- _]. eauto. Qed.

Lemma M_lift_Ok_inv (r : result E A) (s t : S) a : M_lift r s = (t, Ok a) → t = s ∧ r = Ok a.
Proof. unfold M_lift. by intros [= -> ->]. Qed.
Lemma M_reject_Ok_inv b (e : E) (s t : S) u : M_reject_if b e s = (t, Ok u) → t = s ∧ b = false.
Proof. unfold M_reject_if. destruct b; [done|]. by intros [= ->]. Qed.

(** A run whose result is known, for an operation evaluated on a concrete state. *)
Lemma M_run (c : M S E A) (s : S) (r : result E A) : (c s).2 = r → c s = ((c s).1, r).
Proof. intros <-. by destruct (c s). Qed.

Lemma M_bind_eq (c : M S E A) (f : A → M S E B) (s s' : S) (r : result E A) :
  c s = (s', r) →
  (c ≫= f) s = match r with Ok a => f a s' | Err e => (s', Err e) end.
Proof. intros Hc. unfold mbind, M_bind. by rewrite Hc. Qed.
Lemma bind_run (c : M S E A) (f : A → M S E B) s s' a : c s = (s', Ok a) → (c ≫= f) s = f a s'.
Proof. intros Hc. by rewrite (M_bind_eq _ _ _ _ _ Hc). Qed.

Lemma ok_or_Ok (e : E) (o : option A) (a : A) : ok_or e o = Ok a ↔ o = Some a.
Proof. destruct o; simpl; naive_solver. Qed.

Lemma ok_or_Err (e x : E) (o : option A) : ok_or e o = Err x ↔ o = None ∧ x = e.
Proof. destruct o; simpl; naive_solver. Qed.

Lemma map_err_Ok (f : E → B) (r : result E A) (a : A) : map_err f r = Ok a ↔ r = Ok a.
Proof. destruct r; simpl; naive_solver. Qed.

Lemma reject_if_Err (guard : bool) (e x : E) : reject_if guard e = Err x ↔ guard = true ∧ x = e.
Proof. destruct guard; simpl; naive_solver. Qed.

Lemma seq_Ok (r r' : result E ()) : (r;; r') = Ok tt ↔ r = Ok tt ∧ r' = Ok tt.
Proof. destruct r as [[]|]; simpl; naive_solver. Qed.

Lemma guarded_Ok (b : bool) (r : result E ()) : (if b then r else Ok tt) = Ok tt ↔ (b = true → r = Ok tt).
Proof. destruct b; naive_solver. Qed.

Lemma for_each_Ok (f : A → result E ()) (l : list A) u : for_each f l = Ok u ↔ Forall (λ x, f x = Ok tt) l.
Proof.
  induction l as [|x l IH]; simpl; [split; [constructor|by destruct u]|].
  rewrite Forall_cons, <- IH. unfold mbind, result_bind.
  destruct (f x) as [[]|e]; split; [done|by intros [_ ?]|done|by intros [? _]].
Qed.

Lemma reject_if_Ok (guard : bool) (e : E) (u : ()) : reject_if guard e = Ok u ↔ guard = false.
Proof. destruct guard, u; simpl; naive_solver. Qed.
End results.

(** The [expect]s of an operation are never reached. *)
Definition total {E A} (r : result (failure E) A) : Prop := ∀ m, r ≠ Err (Panicked m).

Create HintDb total.

Section totality.
Context {E F A B : Type}.

Lemma total_ret (a : A) : total (E := E) (mret a).
Proof. done. Qed.
Lemma total_bind (r : result (failure E) A) (f : A → result (failure E) B) :
  total r → (∀ a, r = Ok a → total (f a)) → total (r ≫= f).
Proof.
  unfold total, mbind, result_bind. intros Hr Hf. destruct r as [a|[e|m']]; [by apply Hf|done|]. by destruct (Hr m').
Qed.
Lemma total_reject (guard : bool) (e : E) : total (reject_if guard (Rejected e)).
Proof. by destruct guard. Qed.
Lemma total_map_err (f : F → E) (r : result F A) : total (map_err (λ e, Rejected (f e)) r).
Proof. by destruct r. Qed.
Lemma total_map_err_id (r : result E A) : total (map_err Rejected r).
Proof. by destruct r. Qed.
Lemma total_ok_or (e : E) (o : option A) : total (ok_or (Rejected e) o).
Proof. by destruct o. Qed.
End totality.

Lemma total_for_each {E A} (f : A → result (failure E) ()) l : (∀ x, x ∈ l → total (f x)) → total (for_each f l).
Proof.
  induction l as [|x l IH]; intros Hf; [done|]. cbn [for_each].
  apply total_bind; [|intros _ _; apply IH]; intros; apply Hf; set_solver.
Qed.

#[global] Hint Resolve total_ret total_reject total_map_err total_map_err_id total_ok_or : total.

(** *** State that an operation only moves along a preorder

    [keeps R c]: whatever the result of [c], error or not, the state it leaves
    is related to the one it started in. *)
Definition keeps {S E A} (R : relation S) (c : M S E A) : Prop := ∀ s, R s (c s).1.

Create HintDb keeps.

Section keeping.
Context {S E : Type} (R : relation S) `{!PreOrder R}.

Lemma keeps_ret {A} (a : A) : keeps (E := E) R (mret a).
Proof. intros s. reflexivity. Qed.
Lemma keeps_fail {A} (e : E) : keeps (A := A) R (M_fail e).
Proof. intros s. reflexivity. Qed.
Lemma keeps_get : keeps (E := E) R M_get.
Proof. intros s. reflexivity. Qed.
Lemma keeps_lift {A} (r : result E A) : keeps R (M_lift r).
Proof. intros s. reflexivity. Qed.
Lemma keeps_reject (guard : bool) (e : E) : keeps R (M_reject_if guard e).
Proof. intros s. reflexivity. Qed.
Lemma keeps_modify (f : S → S) : (∀ s, R s (f s)) → keeps (E := E) R (M_modify f).
Proof. intros Hf s. apply Hf. Qed.
Lemma keeps_bind {A B} (c : M S E A) (f : A → M S E B) :
  keeps R c → (∀ a, keeps R (f a)) → keeps R (c ≫= f).
Proof.
  intros Hc Hf s. unfold mbind, M_bind. specialize (Hc s).
  destruct (c s) as [s' [a|e]]; simpl in *; [etrans; [exact Hc|apply Hf]|done].
Qed.
Lemma keeps_bind_Ok {A B} (c : M S E A) (f : A → M S E B) :
  keeps R c → (∀ s s' a, c s = (s', Ok a) → R s' (f a s').1) → keeps R (c ≫= f).
Proof.
  intros Hc Hf s. specialize (Hc s). unfold mbind, M_bind. destruct (c s) as [s' [a|e]] eqn:Hrun; [|done].
  simpl in Hc. etrans; [exact Hc|]. by eapply Hf.
Qed.
End keeping.

Lemma foldl_keeps {A B} (P : A → Prop) (Q : B → Prop) (f : A → B → A) l x :
  (∀ x y, Q y → P x → P (f x y)) → Forall Q l → P x → P (foldl f x l).
Proof. intros Hf Hl. revert x. induction Hl as [|y l Hy _ IH]; intros x Hx; [done|]. simpl. apply IH. by apply Hf. Qed.

#[global] Hint Resolve keeps_ret keeps_fail keeps_get keeps_lift keeps_reject keeps_bind : keeps.
#[global] Hint Extern 2 (keeps _ (M_modify _)) => apply keeps_modify : keeps.

(** [advances R c]: the same for the states that [c] leaves when it succeeds,
    for code whose errors are rolled back. *)
Definition advances {S E A} (R : relation S) (c : M S E A) : Prop := ∀ s s' a, c s = (s', Ok a) → R s s'.

Create HintDb advances.

Section advancing.
Context {S E : Type} (R : relation S) `{!PreOrder R}.

Lemma advances_ret {A} (a : A) : advances (E := E) R (mret a).
Proof. intros s s' b [= <- _]. reflexivity. Qed.
Lemma advances_fail {A} (e : E) : advances (A := A) R (M_fail e).
Proof. by intros s s' b. Qed.
Lemma advances_lift {A} (r : result E A) : advances R (M_lift r).
Proof. intros s s' b [= <- _]. reflexivity. Qed.
Lemma advances_reject (guard : bool) (e : E) : advances R (M_reject_if guard e).
Proof. intros s s' b [= <- _]. reflexivity. Qed.
Lemma advances_modify (f : S → S) : (∀ s, R s (f s)) → advances (E := E) R (M_modify f).
Proof. intros Hf s s' b [= <- _]. apply Hf. Qed.
Lemma advances_bind {A B} (c : M S E A) (f : A → M S E B) :
  advances R c → (∀ a, advances R (f a)) → advances R (c ≫= f).
Proof.
  intros Hc Hf s s' b Hrun. apply M_bind_Ok_inv in Hrun as (a & s1 & H1 & H2). etrans; [by eapply Hc|by eapply Hf].
Qed.
Lemma keeps_advances {A} (c : M S E A) : keeps R c → advances R c.
Proof. intros Hc s s' a Hrun. specialize (Hc s). by rewrite Hrun in Hc. Qed.
End advancing.

#[global] Hint Resolve advances_ret advances_fail advances_lift advances_reject advances_bind : advances.
#[global] Hint Extern 2 (advances _ (M_modify _)) => apply advances_modify : advances.

(** *** Outcomes

    [triple P c Q F]: from a state with [P], [c] ends with [Q] of its result
    and state, or with [F] of its error and state. *)
Definition triple {S E A} (P : S → Prop) (c : M S E A) (Q : A → S → Prop) (F : E → S → Prop) : Prop :=
  ∀ s, P s → match c s with (s', Ok a) => Q a s' | (s', Err e) => F e s' end.

Section triples.
Context {S E : Type}.
Implicit Types P : S → Prop.

Lemma triple_bind {A B} P (c : M S E A) (f : A → M S E B) Q R F :
  triple P c Q F → (∀ a, triple (Q a) (f a) R F) → triple P (c ≫= f) R F.
Proof.
  intros Hc Hf s Hs. unfold mbind, M_bind. specialize (Hc s Hs).
  destruct (c s) as [s' [a|e]]; [by apply Hf|done].
Qed.
Lemma triple_ret {A} P (a : A) Q F : (∀ s, P s → Q a s) → triple (E := E) P (mret a) Q F.
Proof. intros HQ s. apply HQ. Qed.
Lemma triple_fail {A} P (e : E) Q F : (∀ s, P s → F e s) → triple (A := A) P (M_fail e) Q F.
Proof. intros HF s. apply HF. Qed.
Lemma triple_modify P (f : S → S) Q F : (∀ s, P s → Q tt (f s)) → triple (E := E) P (M_modify f) Q F.
Proof. intros HQ s. apply HQ. Qed.
Lemma triple_keeps {A} (R : relation S) P (c : M S E A) (F : E → S → Prop) :
  keeps R c → (∀ s s', P s → R s s' → P s') → (∀ s s' e, P s → R s s' → F e s') →
  triple P c (λ _, P) F.
Proof. intros Hc HP HF s Hs. specialize (Hc s). destruct (c s) as [s' [a|e]]; simpl in Hc; eauto. Qed.
End triples.

Section integers.
Implicit Types a b max : Z.

Lemma checked_add_Some max a b c : checked_add max a b = Some c ↔ c = a + b ∧ a + b ≤ max.
Proof. unfold checked_add. destruct (Z.leb_spec (a + b) max); naive_solver lia. Qed.
Lemma checked_add_None max a b : checked_add max a b = None ↔ max < a + b.
Proof. unfold checked_add. destruct (Z.leb_spec (a + b) max); naive_solver lia. Qed.
Lemma checked_mul_Some max a b c : checked_mul max a b = Some c ↔ c = a * b ∧ a * b ≤ max.
Proof. unfold checked_mul. destruct (Z.leb_spec (a * b) max); naive_solver lia. Qed.
End integers.

Section strings.
Implicit Types p s t : string.

Lemma strip_prefix_Some p s t : strip_prefix p s = Some t ↔ s = (p +:+ t).
Proof.
  revert s. induction p as [|a p IH]; intros s; simpl; [split; congruence|].
  destruct s as [|b s]; simpl; [done|].
  destruct (Ascii.eqb_spec a b) as [->|Hne]; [rewrite IH|]; split; congruence.
Qed.

Lemma strip_prefix_app p t : strip_prefix p (p +:+ t) = Some t.
Proof. by apply strip_prefix_Some. Qed.

Lemma starts_with_true p s : starts_with p s = true ↔ ∃ t, s = (p +:+ t).
Proof.
  unfold starts_with. rewrite bool_decide_eq_true.
  split; intros [t Ht]; exists t; by apply strip_prefix_Some.
Qed.

Lemma bytes_app s t : bytes (s +:+ t) = bytes s ++ bytes t.
Proof. induction s as [|a s IH]; simpl; [done | by f_equal]. Qed.

Lemma bytes_inj s t : bytes s = bytes t → s = t.
Proof.
  revert t. induction s as [|a s IH]; intros [|b t]; simpl; try done.
  intros [= -> Ht]. f_equal. by apply IH.
Qed.

Lemma len_bytes s : len s = Z.of_nat (length (bytes s)).
Proof. unfold len. f_equal. induction s as [|a s IH]; simpl; [done | by f_equal]. Qed.

Lemma len_app s t : len (s +:+ t) = len s + len t.
Proof. rewrite !len_bytes, bytes_app, length_app. lia. Qed.

Lemma len_nonneg s : 0 ≤ len s.
Proof. unfold len. lia. Qed.

Lemma all_bytes_app q s t : all_bytes q (s +:+ t) = all_bytes q s && all_bytes q t.
Proof. unfold all_bytes. by rewrite bytes_app, forallb_app. Qed.

Lemma all_bytes_elem q s c : all_bytes q s = true → c ∈ bytes s → q c = true.
Proof.
  unfold all_bytes. rewrite forallb_forall. intros Hq Hc.
  apply Hq. by apply list_elem_of_In.
Qed.

Lemma all_bytes_mono q r s :
  (∀ c, q c = true → r c = true) → all_bytes q s = true → all_bytes r s = true.
Proof. unfold all_bytes. rewrite !forallb_forall. eauto. Qed.
End strings.

(** The order of strings. *)
Lemma string_compare_trans (a b c : string) :
  String.compare a b = Lt → String.compare b c = Lt → String.compare a c = Lt.
Proof.
  revert b c. induction a as [|x a IH]; intros [|y b] [|z c]; simpl; try done.
  unfold Ascii.compare. intros H1 H2.
  destruct (N.compare_spec (N_of_ascii x) (N_of_ascii y)) as [Hxy|Hxy|Hxy]; [| |done];
    destruct (N.compare_spec (N_of_ascii y) (N_of_ascii z)) as [Hyz|Hyz|Hyz]; try done;
    destruct (N.compare_spec (N_of_ascii x) (N_of_ascii z)) as [Hxz|Hxz|Hxz]; try lia; eauto.
Qed.

Definition string_leb (a b : string) : bool := match String.compare a b with Gt => false | _ => true end.

Lemma string_leb_total a b : string_leb a b = true ∨ string_leb b a = true.
Proof. unfold string_leb. rewrite (String.compare_antisym b a). destruct (String.compare a b); auto. Qed.

Lemma string_leb_trans a b c : string_leb a b = true → string_leb b c = true → string_leb a c = true.
Proof.
  unfold string_leb. destruct (String.compare a b) eqn:Hab; [|intros _|done].
  - apply String.compare_eq_iff in Hab as ->. done.
  - destruct (String.compare b c) eqn:Hbc; [| |done].
    + apply String.compare_eq_iff in Hbc as ->. by rewrite Hab.
    + by rewrite (string_compare_trans _ _ _ Hab Hbc).
Qed.

(** The first of a sorted list. *)
Lemma head_sorted {A} (leb : A → A → bool) (l : list A) x :
  (∀ a b, leb a b = true ∨ leb b a = true) → (∀ a b c, leb a b = true → leb b c = true → leb a c = true) →
  head (merge_sort (λ a b, Is_true (leb a b)) l) = Some x → x ∈ l ∧ ∀ y, y ∈ l → leb x y = true.
Proof.
  intros Htot Htrans Hx. set (R := λ a b, Is_true (leb a b)) in *.
  assert (Total R) as HT by (intros a b; destruct (Htot a b) as [H|H]; [left|right]; unfold R; by rewrite H).
  assert (Transitive R) as HTr.
  { intros a b c. unfold R. rewrite !Is_true_true. apply Htrans. }
  pose proof (merge_sort_Permutation R l) as Hp. pose proof (StronglySorted_merge_sort R l) as Hs.
  destruct (merge_sort R l) as [|y l']; [done|]. simplify_eq/=. apply StronglySorted_inv in Hs as [_ Hall].
  split; [rewrite <-Hp; set_solver|]. intros y Hy. rewrite <-Hp in Hy. apply elem_of_cons in Hy as [->|Hy].
  - by destruct (Htot x x).
  - rewrite Forall_forall in Hall. specialize (Hall _ Hy). by apply Is_true_true.
Qed.

Section splitting.
Implicit Types s t p : string.

Lemma app_empty_r s : s +:+ EmptyString = s.
Proof. induction s as [|c s IH]; simpl; [done|by f_equal]. Qed.

Lemma app_assoc_string s t p : (s +:+ t) +:+ p = s +:+ (t +:+ p).
Proof. induction s as [|c s IH]; simpl; [done|by f_equal]. Qed.

Lemma strip_suffix_Some p s t : strip_suffix p s = Some t ↔ s = t +:+ p.
Proof.
  revert t. induction s as [|b s IH]; intros t; cbn [strip_suffix]; case_bool_decide as Heq.
  - subst p. split; [by intros [= <-]|]. destruct t; [done|]. intros [=].
  - split; [done|]. destruct t; simpl; [congruence|]. intros [=].
  - subst p. split; [by intros [= <-]|]. intros Ht. destruct t as [|c t]; [done|]. exfalso.
    apply (f_equal len) in Ht. rewrite len_app in Ht. unfold len in Ht. cbn [String.length] in Ht. lia.
  - destruct (strip_suffix p s) as [t'|] eqn:Hs.
    + split; [intros [= <-]; simpl; f_equal; by apply IH|].
      destruct t as [|c t]; simpl; [congruence|]. intros [= -> Ht].
      by apply IH in Ht as [= ->].
    + split; [done|]. destruct t as [|c t]; simpl; [congruence|]. intros [= -> Ht].
      by apply IH in Ht.
Qed.

Lemma ends_with_true p s : ends_with p s = true ↔ ∃ t, s = t +:+ p.
Proof.
  unfold ends_with. rewrite bool_decide_eq_true.
  split; intros [t Ht]; exists t; by apply strip_suffix_Some.
Qed.

Lemma split_once_Some c s x y :
  split_once c s = Some (x, y) ↔ s = x +:+ String c y ∧ c ∉ bytes x.
Proof.
  revert x. induction s as [|b s IH]; intros x; cbn [split_once].
  - split; [done|]. intros [Hs _]. by destruct x.
  - destruct (Ascii.eqb_spec b c) as [->|Hne].
    + split; [intros [= <- <-]; split; [done|simpl; set_solver]|].
      intros [Hs Hc]. destruct x as [|d x]; simpl in *; [by simplify_eq|]. simplify_eq. set_solver.
    + destruct (split_once c s) as [[x' y']|] eqn:Hs.
      * split.
        -- intros [= <- <-]. destruct (proj1 (IH x') eq_refl) as [-> Hc]. split; [done|]. simpl. set_solver.
        -- intros [Heq Hc]. destruct x as [|d x]; simpl in *; [congruence|]. injection Heq as -> Hs'.
           assert (Some (x', y') = Some (x, y)) as [= -> ->]; [|done]. apply IH. set_solver.
      * split; [done|]. intros [Heq Hc]. destruct x as [|d x]; simpl in *; [congruence|].
        injection Heq as -> Hs'. enough (@None (string * string) = Some (x, y)) by done.
        apply IH. set_solver.
Qed.
End splitting.

Section decimals.
Lemma to_string_digits n : all_bytes is_ascii_digit (to_string n) = true.
Proof.
  unfold to_string. generalize (N.to_uint (Z.to_N n)). clear n.
  intros d. induction d as [|d IH|d IH|d IH|d IH|d IH|d IH|d IH|d IH|d IH|d IH]; simpl; exact IH || done.
Qed.

Lemma to_string_nonempty n : to_string n ≠ EmptyString.
Proof.
  intros Hs. assert (NilEmpty.uint_of_string (to_string n) = Some Decimal.Nil) as Hn by (by rewrite Hs).
  unfold to_string in Hn. rewrite NilEmpty.usu in Hn. injection Hn as Hn.
  destruct (Z.to_N n) as [|x]; [done|]. by apply DecimalPos.Unsigned.to_uint_nonnil in Hn.
Qed.

Lemma parse_unsigned_to_string max n : 0 ≤ n ≤ max → parse_unsigned max (to_string n) = Some n.
Proof.
  intros Hn. unfold parse_unsigned.
  pose proof (to_string_digits n) as Hd. pose proof (to_string_nonempty n) as Hne.
  assert (strip_prefix "+" (to_string n) = None) as ->.
  { destruct (to_string n) as [|c s]; [done|]. cbn [strip_prefix].
    destruct (Ascii.eqb_spec "+" c) as [<-|]; [discriminate Hd | done]. }
  rewrite bool_decide_false by done. unfold to_string. rewrite NilEmpty.usu.
  rewrite DecimalN.Unsigned.of_to, Z2N.id by lia. by rewrite (proj2 (Z.leb_le _ _)) by lia.
Qed.

Lemma parse_unsigned_range max s n : parse_unsigned max s = Some n → 0 ≤ n ≤ max.
Proof. unfold parse_unsigned. repeat case_match; intros [= <-]; lia. Qed.

Lemma rsplit_once_Some p s a b : rsplit_once p s = Some (a, b) → s = a +:+ p +:+ b.
Proof.
  revert a b. induction s as [|c s IH]; intros a b; simpl; [done|].
  destruct (rsplit_once p s) as [[a' b']|] eqn:Hr.
  - intros [= <- <-]. simpl. f_equal. by apply IH.
  - destruct (strip_prefix p (String c s)) as [b'|] eqn:Hs; [|done]. intros [= <- <-].
    by apply strip_prefix_Some in Hs.
Qed.

(** No occurrence starts in [s] when its bytes avoid the first byte of the pattern. *)
Lemma rsplit_once_None x p s : x ∉ bytes s → rsplit_once (String x p) s = None.
Proof.
  induction s as [|c s IH]; simpl; [done|]. intros [Hx Hs]%not_elem_of_cons.
  rewrite IH by done. destruct (Ascii.eqb_spec x c); congruence.
Qed.

Lemma rsplit_once_app p s t a b :
  rsplit_once p t = Some (a, b) → rsplit_once p (s +:+ t) = Some (s +:+ a, b).
Proof. intros Ht. induction s as [|c s IH]; simpl; [done|]. by rewrite IH. Qed.
End decimals.

Section lists.
Context {A : Type} (P P' : A → Prop) `{!∀ x, Decision (P x), !∀ x, Decision (P' x)}.

Lemma filter_ext_elem (l : list A) :
  (∀ x, x ∈ l → P x ↔ P' x) → filter P l = filter P' l.
Proof.
  induction l as [|x l IH]; intros Hext; [done|]. rewrite !filter_cons, IH by set_solver.
  assert (P x ↔ P' x) by set_solver. by destruct (decide (P x)), (decide (P' x)); try tauto.
Qed.

Lemma filter_all (l : list A) : (∀ x, x ∈ l → P x) → filter P l = l.
Proof.
  induction l as [|x l IH]; intros Hall; [done|].
  rewrite filter_cons_True by set_solver. f_equal. set_solver.
Qed.
End lists.

Section ordered_maps.
Context {K V : Type} `{Countable K, BTreeOrd K}.

Lemma btree_iter_perm (m : gmap K V) : btree_iter m ≡ₚ map_to_list m.
Proof. apply merge_sort_Permutation. Qed.

Lemma elem_of_btree_iter (m : gmap K V) k v : (k, v) ∈ btree_iter m ↔ m !! k = Some v.
Proof. rewrite btree_iter_perm. apply elem_of_map_to_list. Qed.

Lemma NoDup_btree_keys (m : gmap K V) : NoDup (btree_keys m).
Proof. unfold btree_keys. rewrite btree_iter_perm. apply NoDup_fst_map_to_list. Qed.

Lemma elem_of_btree_keys (m : gmap K V) k : k ∈ btree_keys m ↔ is_Some (m !! k).
Proof.
  unfold btree_keys. rewrite list_elem_of_fmap. split.
  - intros [[k' v] [-> Hv]]. apply elem_of_btree_iter in Hv. eauto.
  - intros [v Hv]. exists (k, v). by rewrite elem_of_btree_iter.
Qed.

Lemma elem_of_btree_values (m : gmap K V) v : v ∈ btree_values m ↔ ∃ k, m !! k = Some v.
Proof.
  unfold btree_values. rewrite list_elem_of_fmap. split.
  - intros [[k v'] [-> Hv]]. apply elem_of_btree_iter in Hv. eauto.
  - intros [k Hv]. exists (k, v). by rewrite elem_of_btree_iter.
Qed.

Lemma btree_iter_list_to_map (m : gmap K V) : list_to_map (btree_iter m) = m.
Proof.
  rewrite <- (list_to_map_to_list (M := gmap K) m) at 2.
  apply list_to_map_proper; [|apply btree_iter_perm].
  rewrite btree_iter_perm. apply NoDup_fst_map_to_list.
Qed.
End ordered_maps.

(** Facts that a granted operation yields about its guards and lookups. *)
Create Rewrite HintDb results.
#[global] Hint Rewrite @ok_or_Ok @ok_or_Err @map_err_Ok @reject_if_Ok @reject_if_Err @checked_add_Some @checked_add_None
  @checked_mul_Some orb_false_iff orb_true_iff andb_true_iff negb_false_iff negb_true_iff
  @bool_decide_eq_true @bool_decide_eq_false : results.

#[global] Hint Resolve len_nonneg NoDup_btree_keys btree_iter_perm : sandbox.

(** ** Tactics of the development *)

(** *** Sums *)

Definition sum_Z (l : list Z) : Z := foldr Z.add 0 l.

Lemma sum_Z_perm l l' : l ≡ₚ l' → sum_Z l = sum_Z l'.
Proof. induction 1; simpl; lia. Qed.

Lemma sum_Z_same {A} (f g : A → Z) l : (∀ x, x ∈ l → g x = f x) → sum_Z (g <$> l) = sum_Z (f <$> l).
Proof. induction l as [|x l IH]; intros Hl; [done|]. rewrite !fmap_cons. cbn. fold (sum_Z (g <$> l)) (sum_Z (f <$> l)). rewrite IH, Hl by set_solver. done. Qed.

Lemma sum_Z_nonneg l : Forall (λ n, 0 ≤ n) l → 0 ≤ sum_Z l.
Proof. induction 1; simpl; lia. Qed.

Lemma sum_Z_elem n l : Forall (λ n, 0 ≤ n) l → n ∈ l → n ≤ sum_Z l.
Proof.
  induction 1 as [|m l Hm Hl IH]; intros Hn; [by apply not_elem_of_nil in Hn|].
  apply sum_Z_nonneg in Hl. apply elem_of_cons in Hn as [->|Hn]; simpl in *; [lia|]. specialize (IH Hn). lia.
Qed.

Lemma sum_Z_update {A} (f g : A → Z) l x :
  NoDup l → x ∈ l → (∀ y, y ≠ x → g y = f y) → sum_Z (g <$> l) = sum_Z (f <$> l) - f x + g x.
Proof.
  induction 1 as [|y l Hy Hnd IH]; intros Hx Hother; [by apply not_elem_of_nil in Hx|].
  apply elem_of_cons in Hx as [->|Hx]; rewrite !fmap_cons; cbn; fold (sum_Z (g <$> l)) (sum_Z (f <$> l)).
  - rewrite (sum_Z_same f g l); [lia|]. intros z Hz. apply Hother. by intros ->.
  - rewrite IH, Hother by (done || by intros ->). lia.
Qed.

(** Splits a hypothesis [M ... s = (t, Ok b)] built from binds. *)
Ltac inv_ok H :=
  repeat match type of H with
  | (_ ≫= _) _ = (_, Ok _) =>
      let a := fresh "a" in let s := fresh "s" in let H1 := fresh "Hstep" in
      apply M_bind_Ok_inv in H; destruct H as (a & s & H1 & H)
  | _ ≫= _ = Ok _ =>
      let a := fresh "a" in let H1 := fresh "Hstep" in
      apply bind_Ok_inv in H; destruct H as (a & H1 & H)
  end;
  lazymatch type of H with
  | mret _ = _ => cbv [mret result_ret] in H
  | mret _ _ = _ => cbv [mret M_ret] in H
  | _ => idtac
  end.

(** Unfolds the monad of a stateful operation. *)
Ltac unfold_M :=
  cbv [mbind M_bind M_get M_put M_reject_if M_lift M_state mret M_ret M_fail M_modify
       result_bind result_ret reject_if] in *; simpl in *.

(** Turns boolean guards and option lookups of the context into propositions. *)
Ltac simpl_guards := autorewrite with results in *; destruct_and?; simplify_eq/=.

(** Case analysis on every test of the goal, closing the absurd branches. *)
Ltac case_tests := repeat (case_match; simplify_eq/=); try done.
