(* ===== verification/Identity.v ===== *)
(** * Identifiers, assignment epochs and sandbox keys

    Models [crates/sandbox-core/src/error.rs], [identity.rs], [assignment.rs]
    and the scope and key types of
    [bins/sandboxd/src/authorization/context.rs].  An identifier is a newtype
    with a private field, built by [parse] only, so the model carries the
    check of [parse] in the type. *)
From S2P Require Import Prelude.

Inductive CoreError : Type :=
| InvalidIdentifier (kind value : string)
| InvalidLifecycleTransition (from to : string)
| InvalidSpecification (message : string)
| InvalidSnapshot (message : string)
| InvalidWorkOrder (message : string).

#[global] Instance CoreError_eq_dec : EqDecision CoreError.
Proof. solve_decision. Defined.

(** The [Display] that [thiserror] derives. *)
Definition core_error_to_string (e : CoreError) : string :=
  match e with
  | InvalidIdentifier kind value => "invalid " +:+ kind +:+ " identifier `" +:+ value +:+ "`"
  | InvalidLifecycleTransition from to =>
      "invalid lifecycle transition from " +:+ from +:+ " to " +:+ to
  | InvalidSpecification message => "invalid sandbox specification: " +:+ message
  | InvalidSnapshot message => "invalid snapshot manifest: " +:+ message
  | InvalidWorkOrder message => "invalid work order: " +:+ message
  end.

(** [crates/sandbox-oci/src/error.rs]; the source of an I/O failure is its text. *)
Inductive SandboxError : Type :=
| Io (path source : string)
| Compose (message : string)
| Lock (message : string)
| Docker (message : string)
| ImageProvider (message : string)
| Timeout (message : string)
| Runtime (message : string)
| Unsupported (message : string).

#[global] Instance SandboxError_eq_dec : EqDecision SandboxError.
Proof. solve_decision. Defined.

Definition sandbox_error_to_string (e : SandboxError) : string :=
  match e with
  | Io path source => "I/O failed for `" +:+ path +:+ "`: " +:+ source
  | Compose message => "invalid restricted Compose input: " +:+ message
  | Lock message => "invalid topology lock: " +:+ message
  | Docker message => "local Docker operation failed: " +:+ message
  | ImageProvider message => "OCI image provider failed: " +:+ message
  | Timeout message => "sandbox timed out: " +:+ message
  | Runtime message => "sandbox runtime failed: " +:+ message
  | Unsupported message => "unsupported sandbox feature: " +:+ message
  end.

(** ** The [identifier!] macro *)

Definition identifier_byte (byte : ascii) : bool :=
  is_ascii_lowercase byte || is_ascii_digit byte || is_byte "-" byte || is_byte "_" byte.

(** The rejection test of [parse]; [as_bytes()[0]] is reached only when the
    string is not empty. *)
Definition identifier_rejected (maximum : Z) (value : string) : bool :=
  bool_decide (value = EmptyString)
  || (maximum <? len value)
  || negb (match first_byte value with Some b => is_ascii_lowercase b | None => false end)
  || negb (all_bytes identifier_byte value).

Record identifier (kind : string) (maximum : Z) : Type := Identifier {
  as_str : string;
  as_str_accepted : identifier_rejected maximum as_str = false
}.
Arguments Identifier {kind maximum} & as_str as_str_accepted.
Arguments as_str {kind maximum} i.
Arguments as_str_accepted {kind maximum} i.

Definition parse {kind maximum} (value : string) : result CoreError (identifier kind maximum) :=
  match decide (identifier_rejected maximum value = false) with
  | left accepted => Ok (Identifier value accepted)
  | right _ => Err (InvalidIdentifier kind value)
  end.

Definition SandboxId := identifier "sandbox" 64.
Definition ContainerId := identifier "container" 64.
Definition NetworkId := identifier "network" 64.
Definition SnapshotId := identifier "snapshot" 64.
Definition VolumeId := identifier "volume" 64.
Definition WorkerId := identifier "worker" 64.
Definition TenantId := identifier "tenant" 64.
Definition WorkspaceId := identifier "workspace" 64.
Definition SubjectId := identifier "subject" 128.

(** An identifier literal of a witness. *)
Abbreviation id_lit s := (Identifier s eq_refl).

#[global] Instance as_str_inj {kind maximum} : Inj (=) (=) (@as_str kind maximum).
Proof. intros [s Hs] [t Ht]; simpl. intros ->. f_equal. apply proof_irrel. Qed.

#[global] Instance identifier_eq_dec {kind maximum} : EqDecision (identifier kind maximum).
Proof. refine (λ a b, cast_if (decide (as_str a = as_str b))); [by apply (inj as_str) | congruence]. Defined.

Definition parse_opt {kind maximum} (value : string) : option (identifier kind maximum) :=
  match parse value with Ok i => Some i | Err _ => None end.

Lemma parse_as_str {kind maximum} (i : identifier kind maximum) : parse (as_str i) = Ok i.
Proof.
  unfold parse. destruct (decide _) as [Hs|Hs].
  - f_equal. by apply (inj as_str).
  - destruct Hs. apply as_str_accepted.
Qed.

Lemma parse_Ok {kind maximum} x (i : identifier kind maximum) : parse x = Ok i → as_str i = x.
Proof. unfold parse. case_match; [|done]. by intros [= <-]. Qed.

Lemma parse_opt_as_str {kind maximum} (i : identifier kind maximum) : parse_opt (as_str i) = Some i.
Proof. unfold parse_opt. by rewrite parse_as_str. Qed.

#[global] Instance identifier_countable {kind maximum} : Countable (identifier kind maximum) :=
  inj_countable as_str parse_opt parse_opt_as_str.
#[global] Instance identifier_btree {kind maximum} : BTreeOrd (identifier kind maximum) :=
  λ i, [as_str i].

(** ** [AssignmentEpoch]: a non-zero [u64] *)

Definition epoch_accepted (value : Z) : bool := (1 <=? value) && (value <=? u64_max).

Record AssignmentEpoch : Type := Epoch {
  epoch_get : Z;
  epoch_get_accepted : epoch_accepted epoch_get = true
}.

(** [AssignmentEpoch::new]; the argument is a [u64], so only zero is refused. *)
Definition epoch_new (value : Z) : result CoreError AssignmentEpoch :=
  match decide (epoch_accepted value = true) with
  | left accepted => Ok (Epoch value accepted)
  | right _ => Err (InvalidWorkOrder "assignment epoch must be greater than zero")
  end.

Abbreviation epoch_lit n := (Epoch n eq_refl).

#[global] Instance epoch_get_inj : Inj (=) (=) epoch_get.
Proof. intros [s Hs] [t Ht]; simpl. intros ->. f_equal. apply proof_irrel. Qed.
#[global] Instance AssignmentEpoch_eq_dec : EqDecision AssignmentEpoch.
Proof.
  refine (λ a b, cast_if (decide (epoch_get a = epoch_get b))); [by apply (inj epoch_get) | congruence].
Defined.

Lemma epoch_new_get e : epoch_new (epoch_get e) = Ok e.
Proof.
  unfold epoch_new. destruct (decide _) as [He|He].
  - f_equal. by apply (inj epoch_get).
  - destruct He. apply epoch_get_accepted.
Qed.

Definition epoch_opt (value : Z) : option AssignmentEpoch :=
  match epoch_new value with Ok e => Some e | Err _ => None end.

Lemma epoch_opt_get e : epoch_opt (epoch_get e) = Some e.
Proof. unfold epoch_opt. by rewrite epoch_new_get. Qed.

#[global] Instance AssignmentEpoch_countable : Countable AssignmentEpoch :=
  inj_countable epoch_get epoch_opt epoch_opt_get.

Lemma epoch_range e : 1 ≤ epoch_get e ≤ u64_max.
Proof. destruct e as [z Hz]; simpl. unfold epoch_accepted in Hz. lia. Qed.

Lemma epoch_new_Ok z e : epoch_new z = Ok e → epoch_get e = z.
Proof. unfold epoch_new. destruct (decide _); [intros [= <-]; done | done]. Qed.

Lemma epoch_new_in_range z : 1 ≤ z ≤ u64_max → ∃ e, epoch_new z = Ok e ∧ epoch_get e = z.
Proof.
  intros Hz. unfold epoch_new. destruct (decide _) as [He|He]; [by eexists|].
  destruct He. unfold epoch_accepted. lia.
Qed.

#[global] Hint Resolve epoch_range : sandbox.

(** ** Scopes and sandbox keys *)

Record TenantScope : Type := Scope { tenant_id : TenantId; workspace_id : WorkspaceId }.
Record SandboxKey : Type := Key { scope : TenantScope; sandbox_id : SandboxId }.

#[global] Instance TenantScope_eq_dec : EqDecision TenantScope.
Proof. solve_decision. Defined.
#[global] Instance TenantScope_countable : Countable TenantScope.
Proof.
  refine (inj_countable' (λ s, (tenant_id s, workspace_id s)) (λ p, Scope p.1 p.2) _).
  by intros [].
Defined.
#[global] Instance TenantScope_btree : BTreeOrd TenantScope :=
  λ s, [as_str (tenant_id s); as_str (workspace_id s)].

#[global] Instance SandboxKey_eq_dec : EqDecision SandboxKey.
Proof. solve_decision. Defined.
#[global] Instance SandboxKey_countable : Countable SandboxKey.
Proof.
  refine (inj_countable' (λ k, (scope k, sandbox_id k)) (λ p, Key p.1 p.2) _).
  by intros [].
Defined.
#[global] Instance SandboxKey_btree : BTreeOrd SandboxKey :=
  λ k, btree_repr (scope k) ++ [as_str (sandbox_id k)].

(** ** [SandboxKey::runtime_project]

    The digest functions are third-party code: [sha256_hex] stands for
    [hex::encode(Sha256::digest(..))]. *)

(** [u64::to_le_bytes], for [n] bytes. *)
Fixpoint to_le_bytes (n : nat) (z : Z) : list ascii :=
  match n with
  | O => []
  | S n' => ascii_of_N (Z.to_N (z mod 256)) :: to_le_bytes n' (z / 256)
  end.

Definition NUL : ascii := Ascii false false false false false false false false.

(** The byte sequence fed to the digest by the seven [update] calls. *)
Definition runtime_project_preimage (key : SandboxKey) (epoch : AssignmentEpoch) : list ascii :=
  bytes (as_str (tenant_id (scope key))) ++ [NUL]
  ++ bytes (as_str (workspace_id (scope key))) ++ [NUL]
  ++ bytes (as_str (sandbox_id key)) ++ [NUL]
  ++ to_le_bytes 8 (epoch_get epoch).

Definition runtime_project (sha256_hex : list ascii → string)
    (key : SandboxKey) (epoch : AssignmentEpoch) : string :=
  "s" +:+ substring 0 23 (sha256_hex (runtime_project_preimage key epoch)).

(** *** Facts on identifiers *)

Section identifiers.
Context {kind : string} {maximum : Z}.
Implicit Types i : identifier kind maximum.

Lemma identifier_bytes i : all_bytes identifier_byte (as_str i) = true.
Proof.
  destruct i as [s Hs]; simpl. unfold identifier_rejected in Hs.
  destruct (all_bytes identifier_byte s); [done|]. by rewrite !orb_true_r in Hs.
Qed.

Lemma identifier_len i : 1 ≤ len (as_str i) ≤ maximum.
Proof.
  destruct i as [s Hs]; simpl. unfold identifier_rejected in Hs.
  destruct (bool_decide_reflect (s = "")) as [|Hne]; [done|].
  destruct s as [|c s]; [done|]. rewrite !orb_false_iff in Hs.
  destruct Hs as [[[_ Hlen] _] _]. unfold len in *. cbn [String.length] in *. lia.
Qed.

Lemma identifier_byte_not_NUL i : NUL ∉ bytes (as_str i).
Proof. intros Hin. by apply (all_bytes_elem identifier_byte) in Hin; [|apply identifier_bytes]. Qed.
End identifiers.

Lemma app_NUL_inj (xs ys xs' ys' : list ascii) :
  NUL ∉ xs → NUL ∉ ys → xs ++ [NUL] ++ xs' = ys ++ [NUL] ++ ys' → xs = ys ∧ xs' = ys'.
Proof.
  revert ys. induction xs as [|x xs IH]; intros [|y ys] Hx Hy; simpl; intros [= Heq].
  - done.
  - subst. set_solver.
  - subst. set_solver.
  - subst. destruct (IH ys) as [-> ->]; [set_solver..|]. done.
Qed.

Lemma to_le_bytes_inj n z w :
  0 ≤ z < 256 ^ Z.of_nat n → 0 ≤ w < 256 ^ Z.of_nat n →
  to_le_bytes n z = to_le_bytes n w → z = w.
Proof.
  revert z w. induction n as [|n IH]; intros z w Hz Hw; [simpl in *; lia|].
  rewrite Nat2Z.inj_succ, Z.pow_succ_r in Hz, Hw by lia.
  simpl. intros [= Hhd Htl].
  assert (z mod 256 = w mod 256) as Hmod.
  { assert (0 ≤ z mod 256 < 256) by (apply Z.mod_pos_bound; lia).
    assert (0 ≤ w mod 256 < 256) by (apply Z.mod_pos_bound; lia).
    apply (f_equal N_of_ascii) in Hhd. rewrite !N_ascii_embedding in Hhd by lia. lia. }
  assert (z / 256 = w / 256) as Hdiv.
  { apply IH; [split; [apply Z.div_pos; lia | apply Z.div_lt_upper_bound; lia] ..| done]. }
  rewrite (Z.div_mod z 256), (Z.div_mod w 256) by lia. congruence.
Qed.

(** Two assignments with the same digest preimage are the same assignment:
    no two tenants, workspaces, sandboxes or epochs are confused by the
    concatenation. *)
Lemma runtime_project_preimage_inj k1 e1 k2 e2 :
  runtime_project_preimage k1 e1 = runtime_project_preimage k2 e2 → k1 = k2 ∧ e1 = e2.
Proof.
  destruct k1 as [[t1 w1] s1], k2 as [[t2 w2] s2].
  unfold runtime_project_preimage; simpl scope; simpl sandbox_id; simpl tenant_id; simpl workspace_id.
  intros Heq.
  apply app_NUL_inj in Heq as [Ht Heq]; [|apply identifier_byte_not_NUL..].
  apply app_NUL_inj in Heq as [Hw Heq]; [|apply identifier_byte_not_NUL..].
  apply app_NUL_inj in Heq as [Hs Heq]; [|apply identifier_byte_not_NUL..].
  apply bytes_inj, (inj as_str) in Ht as ->.
  apply bytes_inj, (inj as_str) in Hw as ->.
  apply bytes_inj, (inj as_str) in Hs as ->.
  split; [done|]. apply (inj epoch_get).
  pose proof (epoch_range e1). pose proof (epoch_range e2). unfold u64_max in *.
  eapply to_le_bytes_inj; [| |exact Heq]; simpl; lia.
Qed.

(** ** Digest and token checks

    [placement.rs] and [attestation.rs] test the total length and the prefix,
    [preparation.rs] strips the prefix, [specification.rs] also accepts
    upper-case hexadecimal, [work_order.rs] bounds its tokens. *)

Definition valid_digest (value : string) : bool :=
  (len value =? 71)
  && match strip_prefix "sha256:" value with
     | Some hex => all_bytes is_lowercase_hex hex
     | None => false
     end.

Definition prepared_valid_digest (value : string) : bool :=
  match strip_prefix "sha256:" value with
  | Some hex => (len hex =? 64) && all_bytes is_lowercase_hex hex
  | None => false
  end.

Definition validate_digest (kind digest : string) : result CoreError () :=
  match strip_prefix "sha256:" digest with
  | None => Err (InvalidSpecification (kind +:+ " digest is not sha256"))
  | Some value =>
      reject_if (negb (len value =? 64) || negb (all_bytes is_ascii_hexdigit value))
        (InvalidSpecification (kind +:+ " digest is malformed"))
  end.

Definition token_byte (c : ascii) : bool :=
  is_ascii_alphanumeric c || is_byte "-" c || is_byte "_" c.

Definition bounded_token (value : string) (maximum : Z) : bool :=
  negb (bool_decide (value = EmptyString)) && (len value <=? maximum) && all_bytes token_byte value.

Lemma prepared_valid_digest_eq value : prepared_valid_digest value = valid_digest value.
Proof.
  unfold prepared_valid_digest, valid_digest.
  destruct (strip_prefix "sha256:" value) as [hex|] eqn:Hs; [|by rewrite andb_false_r].
  apply strip_prefix_Some in Hs as ->. rewrite len_app. f_equal.
  change (len "sha256:") with 7. lia.
Qed.

Lemma lowercase_hex_hexdigit c : is_lowercase_hex c = true → is_ascii_hexdigit c = true.
Proof. unfold is_lowercase_hex, is_ascii_hexdigit. by intros ->. Qed.

(** A digest the strict checks accept is accepted by [validate_digest] too. *)
Lemma valid_digest_validate kind value : valid_digest value = true → validate_digest kind value = Ok tt.
Proof.
  unfold valid_digest, validate_digest. rewrite andb_true_iff. intros [Hlen Hhex].
  destruct (strip_prefix "sha256:" value) as [hex|] eqn:Hs; [|done].
  apply strip_prefix_Some in Hs as ->. rewrite len_app in Hlen.
  change (len "sha256:") with 7 in Hlen. apply reject_if_Ok.
  rewrite (all_bytes_mono is_lowercase_hex is_ascii_hexdigit hex lowercase_hex_hexdigit Hhex). lia.
Qed.
