(* ===== verification/Lifecycle.v ===== *)
(** * The sandbox lifecycle state machine

    Models [crates/sandbox-core/src/lifecycle.rs]. *)
From S2P Require Import Prelude Identity.

Module Lifecycle.

Inductive LifecycleState : Type :=
| Pending | Provisioning | Restoring | Running | Pausing | Paused
| Resuming | Snapshotting | Stopping | Stopped | Failed.

#[global] Instance LifecycleState_eq_dec : EqDecision LifecycleState.
Proof. solve_decision. Defined.

(** [Display]: the lower-cased variant name. *)
Definition display (s : LifecycleState) : string :=
  match s with
  | Pending => "pending" | Provisioning => "provisioning" | Restoring => "restoring"
  | Running => "running" | Pausing => "pausing" | Paused => "paused"
  | Resuming => "resuming" | Snapshotting => "snapshotting" | Stopping => "stopping"
  | Stopped => "stopped" | Failed => "failed"
  end.

Record Lifecycle : Type := MkLifecycle { state : LifecycleState; generation : Z }.

Definition default : Lifecycle := MkLifecycle Pending 0.

Definition allowed (from to : LifecycleState) : bool :=
  match from, to with
  | Pending, (Provisioning | Restoring | Stopping | Failed) => true
  | (Provisioning | Restoring | Resuming), (Running | Stopping | Failed) => true
  | Running, (Pausing | Snapshotting | Stopping | Failed) => true
  | Pausing, (Paused | Running | Stopping | Failed) => true
  | Paused, (Resuming | Snapshotting | Stopping | Failed) => true
  | Snapshotting, (Running | Paused | Stopping | Failed) => true
  | (Stopping | Failed), Stopped => true
  | _, _ => false
  end.

(** The state is assigned before the generation is advanced, so the overflow
    error leaves the new state behind. *)
Definition transition (next : LifecycleState) : M Lifecycle CoreError () :=
  self ← M_get;
  M_reject_if (negb (allowed (state self) next))
    (InvalidLifecycleTransition (display (state self)) (display next));;
  M_put (MkLifecycle next (generation self));;
  g ← M_lift (ok_or (InvalidSpecification "lifecycle generation overflow")
                (u64_checked_add (generation self) 1));
  M_put (MkLifecycle next g).

(** A caller that requests each state of the list in turn. *)
Fixpoint request_all (targets : list LifecycleState) (l : Lifecycle) : Lifecycle :=
  match targets with
  | [] => l
  | t :: ts => request_all ts (transition t l).1
  end.

(** The number of requests of the list that are granted. *)
Fixpoint granted (targets : list LifecycleState) (from : LifecycleState) : Z :=
  match targets with
  | [] => 0
  | t :: ts => if allowed from t then 1 + granted ts t else granted ts from
  end.

(** [step s t]: some request moves the machine from [s] to [t]. *)
Inductive step : LifecycleState → LifecycleState → Prop :=
| step_allowed s t : allowed s t = true → step s t.

(** ** Lemmas *)

Lemma transition_denied next l :
  allowed (state l) next = false →
  transition next l = (l, Err (InvalidLifecycleTransition (display (state l)) (display next))).
Proof. intros H. unfold transition. cbv [mbind M_bind M_get M_reject_if]. by rewrite H. Qed.

Lemma transition_granted next l :
  allowed (state l) next = true → generation l < u64_max →
  transition next l = (MkLifecycle next (generation l + 1), Ok tt).
Proof.
  intros H Hg. unfold transition, M_lift.
  cbv [mbind M_bind M_get M_reject_if M_put]. rewrite H. simpl.
  destruct (u64_checked_add (generation l) 1) as [g|] eqn:Hadd.
  - apply checked_add_Some in Hadd as [-> _]. done.
  - apply checked_add_None in Hadd. lia.
Qed.

Lemma transition_overflow next l :
  allowed (state l) next = true → u64_max ≤ generation l →
  transition next l =
    (MkLifecycle next (generation l), Err (InvalidSpecification "lifecycle generation overflow")).
Proof.
  intros H Hg. unfold transition, M_lift.
  cbv [mbind M_bind M_get M_reject_if M_put]. rewrite H. simpl.
  destruct (u64_checked_add (generation l) 1) as [g|] eqn:Hadd; [|done].
  apply checked_add_Some in Hadd. lia.
Qed.

Lemma granted_bounds targets from : 0 ≤ granted targets from ≤ Z.of_nat (length targets).
Proof.
  revert from. induction targets as [|t ts IH]; intros from; simpl; [lia|].
  case_match; [specialize (IH t) | specialize (IH from)]; lia.
Qed.

Lemma request_all_spec targets l :
  generation l + Z.of_nat (length targets) ≤ u64_max →
  generation (request_all targets l) = generation l + granted targets (state l) ∧
  rtc step (state l) (state (request_all targets l)).
Proof.
  revert l. induction targets as [|t ts IH]; intros l Hg; cbn [request_all granted length] in *;
    [split; [lia | done]|].
  destruct (allowed (state l) t) eqn:Ha.
  - rewrite transition_granted by (done || lia). cbn [fst].
    destruct (IH (MkLifecycle t (generation l + 1))) as [Hgen Hrtc]; simpl in *; [lia|].
    split; [lia|]. eapply rtc_l; [by constructor | done].
  - rewrite transition_denied by done. apply IH. simpl. lia.
Qed.

Lemma stopped_is_final t : allowed Stopped t = false.
Proof. by destruct t. Qed.

Lemma rtc_stopped t : rtc step Stopped t → t = Stopped.
Proof. intros H. inversion H as [|? u ? Hs]; [done|]. inversion Hs as [? ? Ha]. by rewrite stopped_is_final in Ha. Qed.

Lemma stoppable s : s ≠ Stopped →
  allowed s Stopped = true ∨ (allowed s Stopping = true ∧ allowed Stopping Stopped = true).
Proof. destruct s; naive_solver. Qed.

End Lifecycle.
Import Lifecycle.

(** The lifecycle, over any sequence of requests to a fresh sandbox: the
    generation counts exactly the granted transitions, the state follows the
    transition table, a stopped sandbox stays stopped whatever is requested
    next, and one that is not stopped can be stopped in at most two more
    requests. *)
Theorem lifecycle_requests (targets more : list LifecycleState) :
  Z.of_nat (length (targets ++ more)) + 2 ≤ u64_max →
  let l := request_all targets default in
  generation l = granted targets Pending ∧
  rtc step Pending (state l) ∧
  (state l = Stopped → request_all more l = l) ∧
  (state l ≠ Stopped → state (request_all [Stopping; Stopped] l) = Stopped).
Proof.
  intros Hlen l. rewrite length_app in Hlen.
  destruct (request_all_spec targets default) as [Hgen Hrtc]; [simpl; lia|].
  fold l in Hgen, Hrtc. pose proof (granted_bounds targets Pending). simpl in Hgen, Hrtc.
  split; [done|]. split; [done|]. split.
  - intros Hs. clear Hlen. induction more as [|t ts IH]; [done|]. cbn [request_all].
    by rewrite transition_denied by (rewrite Hs; apply stopped_is_final).
  - intros Hs. cbn [request_all].
    destruct (allowed (state l) Stopping) eqn:Ha.
    + rewrite (transition_granted Stopping) by (done || lia). cbn [fst].
      by rewrite transition_granted by (simpl; done || lia).
    + rewrite (transition_denied Stopping) by done. cbn [fst].
      destruct (stoppable (state l)) as [Hd|[Hd _]]; [done| |congruence].
      by rewrite transition_granted by (done || lia).
Qed.

Lemma lifecycle_requests_witness :
  Z.of_nat (length ([Provisioning; Running; Resuming; Pausing; Paused] ++ [Running])) + 2 ≤ u64_max ∧
  request_all [Provisioning; Running; Resuming; Pausing; Paused] default = MkLifecycle Paused 4 ∧
  generation (request_all [Provisioning; Running; Resuming; Pausing; Paused] default)
    = granted [Provisioning; Running; Resuming; Pausing; Paused] Pending.
Proof.
  split; [vm_compute; discriminate|]. split; [reflexivity|].
  apply (lifecycle_requests [Provisioning; Running; Resuming; Pausing; Paused] [Running]).
  vm_compute. discriminate.
Defined.

(** A transition that fails because the generation counter is exhausted has
    nevertheless changed the state: the caller sees an error and the sandbox
    has moved. *)
Theorem lifecycle_overflow_moves_state :
  transition Running (MkLifecycle Provisioning u64_max)
    = (MkLifecycle Running u64_max, Err (InvalidSpecification "lifecycle generation overflow")).
Proof. reflexivity. Qed.
