(* ===== verification/Lease.v ===== *)
(** * Placement leases

    Models the lease half of [crates/sandbox-core/src/placement.rs]: the
    [LeaseBook] that hands out one lease per sandbox identity, numbered by
    assignment epochs, and fences expired or superseded holders. *)
From S2P Require Import Prelude Identity.

Module Lease.

Definition MAXIMUM_LEASE_MILLIS : Z := 5 * 60 * 1000.

Record PlacementIdentity : Type := MkIdentity {
  pi_tenant_id : TenantId;
  pi_workspace_id : WorkspaceId;
  pi_sandbox_id : SandboxId
}.

#[global] Instance PlacementIdentity_eq_dec : EqDecision PlacementIdentity.
Proof. solve_decision. Defined.
#[global] Instance PlacementIdentity_countable : Countable PlacementIdentity.
Proof.
  refine (inj_countable' (λ i, (pi_tenant_id i, pi_workspace_id i, pi_sandbox_id i))
            (λ p, MkIdentity p.1.1 p.1.2 p.2) _).
  by intros [].
Defined.
#[global] Instance PlacementIdentity_btree : BTreeOrd PlacementIdentity :=
  λ i, [as_str (pi_tenant_id i); as_str (pi_workspace_id i); as_str (pi_sandbox_id i)].

Inductive LeaseState : Type := Active | Fenced | Completed | Quarantined.
#[global] Instance LeaseState_eq_dec : EqDecision LeaseState.
Proof. solve_decision. Defined.

Record PlacementLease : Type := MkLease {
  identity : PlacementIdentity;
  worker_id : WorkerId;
  epoch : AssignmentEpoch;
  expires_unix_ms : Z;
  state : LeaseState;
  result_digest : option string
}.

Inductive LeaseRejection : Type :=
| InvalidLifetime | ActiveConflict | StaleFence | Expired | InvalidResult | EpochOverflow.

Abbreviation LeaseBook := (gmap PlacementIdentity PlacementLease).

Definition set_state (s : LeaseState) (l : PlacementLease) : PlacementLease :=
  MkLease (identity l) (worker_id l) (epoch l) (expires_unix_ms l) s (result_digest l).
Definition set_expiry (t : Z) (l : PlacementLease) : PlacementLease :=
  MkLease (identity l) (worker_id l) (epoch l) t (state l) (result_digest l).
Definition set_result (d : string) (l : PlacementLease) : PlacementLease :=
  MkLease (identity l) (worker_id l) (epoch l) (expires_unix_ms l) Completed (Some d).

Definition get (leases : LeaseBook) (i : PlacementIdentity) : option PlacementLease := leases !! i.

Definition assign (i : PlacementIdentity) (w : WorkerId) (now_unix_ms lifetime_ms : Z) :
    M LeaseBook LeaseRejection PlacementLease :=
  M_reject_if ((lifetime_ms =? 0) || (MAXIMUM_LEASE_MILLIS <? lifetime_ms)) InvalidLifetime;;
  expires ← M_lift (ok_or InvalidLifetime (u64_checked_add now_unix_ms lifetime_ms));
  leases ← M_get;
  next_epoch ← M_lift
    match leases !! i with
    | Some current =>
        if bool_decide (state current = Active) && (now_unix_ms <? expires_unix_ms current)
        then Err ActiveConflict
        else ok_or EpochOverflow (u64_checked_add (epoch_get (epoch current)) 1)
    | None => Ok 1
    end;
  e ← M_lift (map_err (λ _, EpochOverflow) (epoch_new next_epoch));
  let lease := MkLease i w e expires Active None in
  M_put (<[i := lease]> leases);;
  mret lease.

(** [current_mut]: the lease that the caller may change, if it is the active
    lease of this worker and epoch. *)
Definition current_mut (i : PlacementIdentity) (w : WorkerId) (e : AssignmentEpoch) :
    M LeaseBook LeaseRejection PlacementLease :=
  leases ← M_get;
  lease ← M_lift (ok_or StaleFence (leases !! i));
  M_reject_if (negb (bool_decide (worker_id lease = w))
               || negb (bool_decide (epoch lease = e))
               || negb (bool_decide (state lease = Active))) StaleFence;;
  mret lease.

(** An assignment through the [&mut PlacementLease] of identity [i]. *)
Definition write (i : PlacementIdentity) (l : PlacementLease) : M LeaseBook LeaseRejection () :=
  M_modify <[i := l]>.

Definition renew (i : PlacementIdentity) (w : WorkerId) (e : AssignmentEpoch)
    (now_unix_ms lifetime_ms : Z) : M LeaseBook LeaseRejection Z :=
  M_reject_if ((lifetime_ms =? 0) || (MAXIMUM_LEASE_MILLIS <? lifetime_ms)) InvalidLifetime;;
  lease ← current_mut i w e;
  if expires_unix_ms lease <=? now_unix_ms then
    write i (set_state Fenced lease);; M_fail Expired
  else
    expires ← M_lift (ok_or InvalidLifetime (u64_checked_add now_unix_ms lifetime_ms));
    write i (set_expiry expires lease);;
    mret expires.

Definition complete (i : PlacementIdentity) (w : WorkerId) (e : AssignmentEpoch)
    (now_unix_ms : Z) (digest : string) : M LeaseBook LeaseRejection () :=
  M_reject_if (negb (valid_digest digest)) InvalidResult;;
  leases ← M_get;
  lease ← M_lift (ok_or StaleFence (leases !! i));
  M_reject_if (negb (bool_decide (worker_id lease = w)) || negb (bool_decide (epoch lease = e)))
    StaleFence;;
  if bool_decide (state lease = Completed) then
    M_reject_if (negb (bool_decide (result_digest lease = Some digest))) InvalidResult
  else
    M_reject_if (negb (bool_decide (state lease = Active))) StaleFence;;
    if expires_unix_ms lease <=? now_unix_ms then
      write i (set_state Fenced lease);; M_fail Expired
    else write i (set_result digest lease).

Definition quarantine (i : PlacementIdentity) (w : WorkerId) (e : AssignmentEpoch) :
    M LeaseBook LeaseRejection () :=
  lease ← current_mut i w e;
  write i (set_state Quarantined lease).

Definition expired_active (now_unix_ms : Z) (l : PlacementLease) : bool :=
  bool_decide (state l = Active) && (expires_unix_ms l <=? now_unix_ms).

(** The loop visits the leases in key order and collects the fenced copies. *)
Definition fence_expired (now_unix_ms : Z) (leases : LeaseBook) : LeaseBook * list PlacementLease :=
  ((λ l, if expired_active now_unix_ms l then set_state Fenced l else l) <$> leases,
   set_state Fenced <$> filter (λ l, expired_active now_unix_ms l = true) (btree_values leases)).

(** ** Histories of the book *)

Inductive op : Type :=
| OpAssign (i : PlacementIdentity) (w : WorkerId) (now_unix_ms lifetime_ms : Z)
| OpRenew (i : PlacementIdentity) (w : WorkerId) (e : AssignmentEpoch) (now_unix_ms lifetime_ms : Z)
| OpComplete (i : PlacementIdentity) (w : WorkerId) (e : AssignmentEpoch) (now_unix_ms : Z) (digest : string)
| OpQuarantine (i : PlacementIdentity) (w : WorkerId) (e : AssignmentEpoch)
| OpFenceExpired (now_unix_ms : Z).

Definition exec (o : op) (leases : LeaseBook) : LeaseBook :=
  match o with
  | OpAssign i w now life => (assign i w now life leases).1
  | OpRenew i w e now life => (renew i w e now life leases).1
  | OpComplete i w e now d => (complete i w e now d leases).1
  | OpQuarantine i w e => (quarantine i w e leases).1
  | OpFenceExpired now => (fence_expired now leases).1
  end.

Definition exec_all (os : list op) (leases : LeaseBook) : LeaseBook := foldl (λ b o, exec o b) leases os.

(** Well-formed leases: stored under their own identity, and a result exactly
    when completed. *)
Definition lease_wf (i : PlacementIdentity) (l : PlacementLease) : Prop :=
  identity l = i ∧
  match state l, result_digest l with
  | Completed, Some d => valid_digest d = true
  | Completed, None => False
  | _, Some _ => False
  | _, None => True
  end.
Definition book_wf (leases : LeaseBook) : Prop := map_Forall lease_wf leases.

(** [lease_evolves l l']: what may become of the lease [l] of an identity.  A
    later epoch supersedes it; within an epoch the holder is fixed, and a lease
    that is not active any more is frozen. *)
Definition lease_evolves (l l' : PlacementLease) : Prop :=
  epoch_get (epoch l) < epoch_get (epoch l') ∨
  (epoch l = epoch l' ∧ worker_id l = worker_id l' ∧ (state l ≠ Active → l' = l)).

Definition book_evolves (b b' : LeaseBook) : Prop :=
  ∀ i l, b !! i = Some l → ∃ l', b' !! i = Some l' ∧ lease_evolves l l'.

(** ** Behaviour of each operation *)

Lemma assign_spec i w now life b b' r :
  assign i w now life b = (b', r) →
  match r with
  | Ok l =>
      life ≠ 0 ∧ life ≤ MAXIMUM_LEASE_MILLIS ∧ now + life ≤ u64_max ∧
      b' = <[i := l]> b ∧
      l = MkLease i w (epoch l) (now + life) Active None ∧
      match b !! i with
      | Some cur => epoch_get (epoch l) = epoch_get (epoch cur) + 1 ∧
                    (state cur = Active → expires_unix_ms cur ≤ now)
      | None => epoch_get (epoch l) = 1
      end
  | Err _ => b' = b
  end.
Proof.
  unfold assign. unfold_M. intros H. case_tests; simpl_guards.
  - match goal with He : epoch_new _ = Ok _ |- _ => apply epoch_new_Ok in He end.
    repeat split; try lia. intros Hactive. rewrite Hactive in *.
    rewrite bool_decide_eq_true_2 in * by done. simpl in *. lia.
  - repeat split; lia.
Qed.

Lemma current_mut_spec i w e b b' r :
  current_mut i w e b = (b', r) →
  b' = b ∧
  match r with
  | Ok l => b !! i = Some l ∧ worker_id l = w ∧ epoch l = e ∧ state l = Active
  | Err x => x = StaleFence
  end.
Proof. unfold current_mut. unfold_M. intros H. case_tests; simpl_guards; done. Qed.

Lemma renew_spec i w e now life b b' r :
  renew i w e now life b = (b', r) →
  match r with
  | Ok t => ∃ l, b !! i = Some l ∧ worker_id l = w ∧ epoch l = e ∧ state l = Active ∧
              now < expires_unix_ms l ∧ t = now + life ∧ t ≤ u64_max ∧
              b' = <[i := set_expiry t l]> b
  | Err Expired => ∃ l, b !! i = Some l ∧ worker_id l = w ∧ epoch l = e ∧ state l = Active ∧
              expires_unix_ms l ≤ now ∧ b' = <[i := set_state Fenced l]> b
  | Err _ => b' = b
  end.
Proof.
  unfold renew. intros H.
  destruct (current_mut i w e b) as [b1 rc] eqn:Hc.
  pose proof (current_mut_spec _ _ _ _ _ _ Hc) as [-> Hr]. unfold write in H. unfold_M.
  destruct ((life =? 0) || (MAXIMUM_LEASE_MILLIS <? life)) eqn:Hlife; [by simplify_eq|].
  rewrite Hc in H. destruct rc as [l|x]; [|by simplify_eq].
  destruct Hr as (Hi & Hw & He & Ha).
  destruct (Z.leb_spec (expires_unix_ms l) now); [simplify_eq; eauto 10|].
  destruct (u64_checked_add now life) as [t|] eqn:Ht; simplify_eq/=; [|done].
  apply checked_add_Some in Ht as [-> ?]. eauto 12.
Qed.

Lemma complete_spec i w e now d b b' r :
  complete i w e now d b = (b', r) →
  match r with
  | Ok _ => ∃ l, b !! i = Some l ∧ worker_id l = w ∧ epoch l = e ∧ valid_digest d = true ∧
              ((state l = Completed ∧ result_digest l = Some d ∧ b' = b) ∨
               (state l = Active ∧ now < expires_unix_ms l ∧ b' = <[i := set_result d l]> b))
  | Err Expired => ∃ l, b !! i = Some l ∧ worker_id l = w ∧ epoch l = e ∧ state l = Active ∧
              expires_unix_ms l ≤ now ∧ b' = <[i := set_state Fenced l]> b
  | Err _ => b' = b
  end.
Proof.
  unfold complete, write. unfold_M. intros H.
  destruct (valid_digest d) eqn:Hd; [|by simplify_eq/=]. simpl in H.
  destruct (b !! i) as [l|] eqn:Hi; simpl in H; [|by simplify_eq].
  destruct (bool_decide_reflect (worker_id l = w)) as [Hw|]; simpl in H; [|by simplify_eq].
  destruct (bool_decide_reflect (epoch l = e)) as [He|]; simpl in H; [|by simplify_eq].
  destruct (bool_decide_reflect (state l = Completed)) as [Hs|].
  - destruct (bool_decide_reflect (result_digest l = Some d)); simplify_eq/=; [|done]. eauto 10.
  - destruct (bool_decide_reflect (state l = Active)) as [Ha|]; simpl in H; [|by simplify_eq].
    destruct (Z.leb_spec (expires_unix_ms l) now); simplify_eq/=; eauto 12.
Qed.

Lemma quarantine_spec i w e b b' r :
  quarantine i w e b = (b', r) →
  match r with
  | Ok _ => ∃ l, b !! i = Some l ∧ worker_id l = w ∧ epoch l = e ∧ state l = Active ∧
              b' = <[i := set_state Quarantined l]> b
  | Err _ => b' = b
  end.
Proof.
  unfold quarantine, write. intros H.
  destruct (current_mut i w e b) as [b1 rc] eqn:Hc.
  pose proof (current_mut_spec _ _ _ _ _ _ Hc) as [-> Hr]. unfold_M.
  rewrite Hc in H. destruct rc as [l|x]; simplify_eq; [|done].
  destruct Hr as (Hi & Hw & He & Ha). eauto 10.
Qed.

Lemma fence_expired_lookup now b i :
  (fence_expired now b).1 !! i =
    (λ l, if expired_active now l then set_state Fenced l else l) <$> b !! i.
Proof. apply lookup_fmap. Qed.

(** *** Every operation only moves leases forward *)

Lemma lease_evolves_refl l : lease_evolves l l.
Proof. right. auto. Qed.

Lemma lease_evolves_trans l1 l2 l3 : lease_evolves l1 l2 → lease_evolves l2 l3 → lease_evolves l1 l3.
Proof.
  intros [H1|(He1 & Hw1 & Hf1)] [H2|(He2 & Hw2 & Hf2)].
  - left. lia.
  - left. by rewrite <- He2.
  - left. by rewrite He1.
  - right. split; [congruence|]. split; [congruence|]. intros Hs.
    specialize (Hf1 Hs). subst l2. auto.
Qed.

Lemma book_evolves_refl b : book_evolves b b.
Proof. intros i l Hl. eauto using lease_evolves_refl. Qed.

Lemma book_evolves_trans b1 b2 b3 : book_evolves b1 b2 → book_evolves b2 b3 → book_evolves b1 b3.
Proof.
  intros H12 H23 i l Hl. destruct (H12 i l Hl) as (l2 & Hl2 & He2).
  destruct (H23 i l2 Hl2) as (l3 & Hl3 & He3). eauto using lease_evolves_trans.
Qed.

(** An operation on identity [i] rewrites at most the lease of [i]. *)
Definition touches (i : PlacementIdentity) (b b' : LeaseBook) : Prop :=
  b' = b ∨ ∃ l', b' = <[i := l']> b ∧ lease_wf i l' ∧ ∀ l, b !! i = Some l → lease_evolves l l'.

Lemma touches_evolves i b b' : touches i b b' → book_evolves b b'.
Proof.
  intros [->|(l' & -> & _ & Hl')]; [apply book_evolves_refl|]. intros j l Hl.
  destruct (decide (i = j)) as [<-|Hne].
  - exists l'. split; [by simplify_map_eq | auto].
  - exists l. split; [by simplify_map_eq | apply lease_evolves_refl].
Qed.

Lemma touches_wf i b b' : book_wf b → touches i b b' → book_wf b'.
Proof. intros Hb [->|(l' & -> & Hwf & _)]; [done|]. by apply map_Forall_insert_2. Qed.

Lemma rewrite_active_touches i b l l' :
  book_wf b → b !! i = Some l → state l = Active →
  identity l' = identity l → worker_id l' = worker_id l → epoch l' = epoch l →
  match state l', result_digest l' with
  | Completed, Some d => valid_digest d = true
  | Completed, None => False
  | _, Some _ => False
  | _, None => True
  end →
  touches i b (<[i := l']> b).
Proof.
  intros Hb Hi Ha Hid Hw He Hres. right. exists l'. split; [done|].
  destruct (Hb i l Hi) as [Hl _]. split; [split; [congruence | done]|].
  intros l0 Hl0. simplify_eq. right. split; [done|]. split; [done|]. congruence.
Qed.

Lemma wf_active_no_result b i l : book_wf b → b !! i = Some l → state l = Active → result_digest l = None.
Proof. intros Hb Hi Ha. destruct (Hb i l Hi) as [_ Hr]. rewrite Ha in Hr. by destruct (result_digest l). Qed.

Lemma assign_touches i w now life b : book_wf b → touches i b (assign i w now life b).1.
Proof.
  intros Hb. destruct (assign i w now life b) as [b' r] eqn:H. apply assign_spec in H; simpl.
  destruct r as [l|]; [|by left]. destruct H as (_ & _ & _ & -> & -> & Hcur). right.
  eexists. split; [done|]. split; [by split|]. intros cur Hc. rewrite Hc in Hcur. left. simpl in *. lia.
Qed.

Lemma renew_touches i w e now life b : book_wf b → touches i b (renew i w e now life b).1.
Proof.
  intros Hb. destruct (renew i w e now life b) as [b' r] eqn:H. apply renew_spec in H; simpl.
  destruct r as [t|[]]; try (by left).
  - destruct H as (l & Hi & Hw & He & Ha & _ & _ & _ & ->).
    eapply rewrite_active_touches; [done..|]. simpl.
    by rewrite Ha, (wf_active_no_result b i l).
  - destruct H as (l & Hi & Hw & He & Ha & _ & ->).
    eapply rewrite_active_touches; [done..|]. simpl. by rewrite (wf_active_no_result b i l).
Qed.

Lemma complete_touches i w e now d b : book_wf b → touches i b (complete i w e now d b).1.
Proof.
  intros Hb. destruct (complete i w e now d b) as [b' r] eqn:H. apply complete_spec in H; simpl.
  destruct r as [[]|[]]; try (by left).
  - destruct H as (l & Hi & Hw & He & Hd & [(_ & _ & ->)|(Ha & _ & ->)]); [by left|].
    eapply rewrite_active_touches; done.
  - destruct H as (l & Hi & Hw & He & Ha & _ & ->).
    eapply rewrite_active_touches; [done..|]. simpl. by rewrite (wf_active_no_result b i l).
Qed.

Lemma quarantine_touches i w e b : book_wf b → touches i b (quarantine i w e b).1.
Proof.
  intros Hb. destruct (quarantine i w e b) as [b' r] eqn:H. apply quarantine_spec in H; simpl.
  destruct r as [[]|]; [|by left]. destruct H as (l & Hi & Hw & He & Ha & ->).
  eapply rewrite_active_touches; [done..|]. simpl. by rewrite (wf_active_no_result b i l).
Qed.

Lemma fence_expired_evolves now b : book_evolves b (fence_expired now b).1.
Proof.
  intros i l Hl. rewrite fence_expired_lookup, Hl. simpl. eexists; split; [done|].
  destruct (expired_active now l) eqn:He; [|apply lease_evolves_refl]. right.
  unfold expired_active in He. simpl_guards. done.
Qed.

Lemma fence_expired_wf now b : book_wf b → book_wf (fence_expired now b).1.
Proof.
  intros Hb i l. rewrite fence_expired_lookup. intros (l0 & Hl0 & ->)%fmap_Some.
  pose proof (Hb i l0 Hl0) as Hwf. destruct (expired_active now l0) eqn:He; [|done].
  unfold expired_active in He. simpl_guards. destruct Hwf as [Hid Hr]. split; [done|].
  simpl. by rewrite (wf_active_no_result b i l0).
Qed.

Lemma exec_evolves o b : book_wf b → book_evolves b (exec o b).
Proof.
  intros Hb. destruct o; cbn [exec];
    eauto using touches_evolves, assign_touches, renew_touches, complete_touches,
      quarantine_touches, fence_expired_evolves.
Qed.

Lemma exec_wf o b : book_wf b → book_wf (exec o b).
Proof.
  intros Hb. destruct o; cbn [exec];
    eauto using touches_wf, assign_touches, renew_touches, complete_touches,
      quarantine_touches, fence_expired_wf.
Qed.

Lemma exec_all_wf os b : book_wf b → book_wf (exec_all os b).
Proof. revert b. induction os as [|o os IH]; intros b Hb; simpl; auto using exec_wf. Qed.

Lemma exec_all_evolves os b : book_wf b → book_evolves b (exec_all os b).
Proof.
  revert b. induction os as [|o os IH]; intros b Hb; simpl; [apply book_evolves_refl|].
  eapply book_evolves_trans; [by apply exec_evolves | apply IH, exec_wf, Hb].
Qed.

Lemma book_wf_empty : book_wf ∅.
Proof. apply map_Forall_empty. Qed.

End Lease.
Import Lease.

Section stale.
Context (b : LeaseBook) (i : PlacementIdentity) (e : AssignmentEpoch).
Context (Hstale : ∀ cur, b !! i = Some cur → epoch cur ≠ e).

Lemma current_mut_stale w : current_mut i w e b = (b, Err StaleFence).
Proof.
  destruct (current_mut i w e b) as [b' [l|x]] eqn:H; apply current_mut_spec in H as [-> H].
  - naive_solver.
  - by subst.
Qed.

Lemma renew_stale w now life : ∃ x, renew i w e now life b = (b, Err x).
Proof.
  destruct (renew i w e now life b) as [b' [t|x]] eqn:H; apply renew_spec in H; [naive_solver|].
  destruct x; try (subst; eauto). naive_solver.
Qed.

Lemma complete_stale w now d : ∃ x, complete i w e now d b = (b, Err x).
Proof.
  destruct (complete i w e now d b) as [b' [t|x]] eqn:H; apply complete_spec in H; [naive_solver|].
  destruct x; try (subst; eauto). naive_solver.
Qed.

Lemma quarantine_stale w : quarantine i w e b = (b, Err StaleFence).
Proof. unfold quarantine. by rewrite (M_bind_eq _ _ _ _ _ (current_mut_stale w)). Qed.
End stale.

(** What remains of a lease after further operations. *)
Lemma assign_then os b i w now life b' l :
  book_wf b → assign i w now life b = (b', Ok l) →
  book_wf b' ∧ ∃ cur, exec_all os b' !! i = Some cur ∧ lease_evolves l cur.
Proof.
  intros Hwf Ha. pose proof (assign_spec _ _ _ _ _ _ _ Ha) as (_ & _ & _ & Hb' & _ & _).
  assert (book_wf b') as Hwf'.
  { replace b' with (exec (OpAssign i w now life) b) by (cbn [exec]; by rewrite Ha).
    by apply exec_wf. }
  split; [done|]. apply (exec_all_evolves os b' Hwf'). subst. by simplify_map_eq.
Qed.

(** A holder whose sandbox was assigned again is fenced for ever: whatever
    operations run before, between and after the two assignments, the second
    lease has a larger epoch, and no renewal, completion or quarantine that
    presents the first epoch, from any worker at any time, succeeds or changes
    the book. *)
Theorem superseded_holder_is_fenced os1 os2 os3 i w now life b2 l w2 now2 life2 b3 l2 :
  assign i w now life (exec_all os1 ∅) = (b2, Ok l) →
  assign i w2 now2 life2 (exec_all os2 b2) = (b3, Ok l2) →
  let b := exec_all os3 b3 in
  epoch_get (epoch l) < epoch_get (epoch l2) ∧
  (∀ w' t life', ∃ x, renew i w' (epoch l) t life' b = (b, Err x)) ∧
  (∀ w' t d, ∃ x, complete i w' (epoch l) t d b = (b, Err x)) ∧
  (∀ w', quarantine i w' (epoch l) b = (b, Err StaleFence)).
Proof.
  intros Ha1 Ha2 b.
  destruct (assign_then os2 _ _ _ _ _ _ _ (exec_all_wf os1 _ book_wf_empty) Ha1)
    as (Hwf2 & lm & Hlm & Hev2).
  destruct (assign_then os3 _ _ _ _ _ _ _ (exec_all_wf os2 _ Hwf2) Ha2) as (_ & cur & Hcur & Hev3).
  pose proof (assign_spec _ _ _ _ _ _ _ Ha2) as (_ & _ & _ & _ & _ & Hnext).
  rewrite Hlm in Hnext.
  assert (epoch_get (epoch l) < epoch_get (epoch l2)) as Hlt
    by (destruct Hev2 as [?|(-> & _)]; lia).
  assert (∀ c, b !! i = Some c → epoch c ≠ epoch l) as Hstale.
  { intros c Hc Heq. subst b. simplify_eq.
    destruct Hev3 as [?|(He & _)]; rewrite ?Heq, ?He in *; lia. }
  split; [done|]. split; [|split]; intros.
  - by apply renew_stale.
  - by apply complete_stale.
  - by apply quarantine_stale.
Qed.

Definition w_identity : PlacementIdentity :=
  MkIdentity (id_lit "tenant-a") (id_lit "team-a") (id_lit "sandbox-a").

Lemma superseded_holder_is_fenced_witness :
  let b2 := exec (OpAssign w_identity (id_lit "worker-a") 100 10) ∅ in
  let b3 := exec (OpAssign w_identity (id_lit "worker-b") 110 10) (exec_all [OpFenceExpired 110] b2) in
  quarantine w_identity (id_lit "worker-a") (epoch_lit 1) b3 = (b3, Err StaleFence).
Proof.
  intros b2 b3.
  refine (proj2 (proj2 (proj2 (superseded_holder_is_fenced [] [OpFenceExpired 110] [] w_identity
    (id_lit "worker-a") 100 10 b2 (MkLease w_identity (id_lit "worker-a") (epoch_lit 1) 110 Active None)
    (id_lit "worker-b") 110 10 b3 (MkLease w_identity (id_lit "worker-b") (epoch_lit 2) 120 Active None)
    _ _))) _); apply M_run; vm_compute; reflexivity.
Defined.

(** One result wins an assignment: two successful completions of the same
    identity and epoch, at any two points of a history, come from the same
    worker and carry the same digest. *)
Theorem one_result_per_epoch os1 os2 i e w t d b2 w' t' d' b3 :
  complete i w e t d (exec_all os1 ∅) = (b2, Ok tt) →
  complete i w' e t' d' (exec_all os2 b2) = (b3, Ok tt) →
  d' = d ∧ w' = w.
Proof.
  intros H1 H2.
  pose proof (exec_all_wf os1 _ book_wf_empty) as Hwf.
  assert (book_wf b2) as Hwf2.
  { replace b2 with (exec (OpComplete i w e t d) (exec_all os1 ∅)) by (cbn [exec]; by rewrite H1).
    by apply exec_wf. }
  apply complete_spec in H1 as (l & Hl & Hw & He & _ & Hcase).
  assert (∃ l1, b2 !! i = Some l1 ∧ worker_id l1 = w ∧ epoch l1 = e ∧
            state l1 = Completed ∧ result_digest l1 = Some d) as (l1 & Hl1 & Hw1 & He1 & Hs1 & Hd1).
  { destruct Hcase as [(Hs & Hd & ->)|(Ha & _ & ->)]; [eauto 10|].
    exists (set_result d l). split; [by simplify_map_eq | done]. }
  destruct (exec_all_evolves os2 b2 Hwf2 i l1 Hl1) as (l2 & Hl2 & Hev).
  apply complete_spec in H2 as (l2' & Hl2' & Hw2 & He2 & _ & Hcase2).
  assert (l2' = l2) as -> by congruence.
  destruct Hev as [Hlt|(_ & Hww & Hfrozen)]; [rewrite He1, He2 in Hlt; lia|].
  rewrite (Hfrozen ltac:(by rewrite Hs1)) in *.
  destruct Hcase2 as [(_ & Hd2 & _)|(Ha & _)]; [split; congruence | congruence].
Qed.

Definition w_digest : string :=
  "sha256:aaaaaaaaaaaaaaaaaaaaaaaaaaaaaaaaaaaaaaaaaaaaaaaaaaaaaaaaaaaaaaaa".

Lemma one_result_per_epoch_witness :
  let b1 := [OpAssign w_identity (id_lit "worker-a") 100 10] in
  let b2 := exec (OpComplete w_identity (id_lit "worker-a") (epoch_lit 1) 105 w_digest) (exec_all b1 ∅) in
  (complete w_identity (id_lit "worker-a") (epoch_lit 1) 500 w_digest b2).2 = Ok tt ∧
  w_digest = w_digest ∧ (id_lit "worker-a" : WorkerId) = id_lit "worker-a".
Proof.
  intros b1 b2. split; [vm_compute; reflexivity|].
  refine (one_result_per_epoch b1 [] w_identity (epoch_lit 1) (id_lit "worker-a") 105 w_digest b2
    (id_lit "worker-a") 500 w_digest _ _ _); apply M_run; vm_compute; reflexivity.
Defined.

(** [assign] grants a lease exactly when the lifetime is acceptable, the expiry
    fits in 64 bits, the epoch counter is not exhausted and no unexpired active
    lease holds the sandbox; the granted lease starts the next epoch. *)
Theorem assign_granted_iff i w now life b :
  (∃ b' l, assign i w now life b = (b', Ok l) ∧ b' = <[i := l]> b ∧ worker_id l = w ∧
     state l = Active ∧ expires_unix_ms l = now + life ∧
     epoch_get (epoch l) = 1 + match b !! i with Some cur => epoch_get (epoch cur) | None => 0 end) ↔
  life ≠ 0 ∧ life ≤ MAXIMUM_LEASE_MILLIS ∧ now + life ≤ u64_max ∧
  match b !! i with
  | Some cur => ¬ (state cur = Active ∧ now < expires_unix_ms cur) ∧ epoch_get (epoch cur) < u64_max
  | None => True
  end.
Proof.
  split.
  - intros (b' & l & H & _ & _ & _ & _ & He). pose proof (assign_spec _ _ _ _ _ _ _ H) as Hs.
    destruct Hs as (? & ? & ? & _ & _ & Hcur). split_and!; [done..|].
    pose proof (epoch_range (epoch l)). destruct (b !! i) as [cur|]; [|done]. split; [|lia].
    intros [Ha Hn]. destruct Hcur as [_ Hx]. specialize (Hx Ha). lia.
  - intros (Hl1 & Hl2 & Hexp & Hcur). destruct (assign i w now life b) as [b' r] eqn:H.
    destruct r as [l|x].
    + pose proof (assign_spec _ _ _ _ _ _ _ H) as (_ & _ & _ & Hb & Hl & He).
      exists b', l. rewrite Hl; simpl. split_and!; try done; [congruence|].
      destruct (b !! i); lia.
    + exfalso. revert H. unfold assign. unfold_M.
      destruct ((life =? 0) || (MAXIMUM_LEASE_MILLIS <? life)) eqn:Hlife; [lia|].
      destruct (u64_checked_add now life) as [t|] eqn:Ht; simpl; [|apply checked_add_None in Ht; lia].
      destruct (b !! i) as [cur|] eqn:Hi; [|done].
      destruct Hcur as [Hfree He]. rewrite <- (bool_decide_eq_true (state cur = Active)) in Hfree.
      destruct (bool_decide (state cur = Active) && (now <? expires_unix_ms cur)) eqn:Hc; [lia|].
      destruct (u64_checked_add (epoch_get (epoch cur)) 1) as [n|] eqn:Hn; simpl;
        [|apply checked_add_None in Hn; lia].
      apply checked_add_Some in Hn as [-> Hn]. pose proof (epoch_range (epoch cur)).
      destruct (epoch_new_in_range (epoch_get (epoch cur) + 1)) as (e & He' & _); [lia|].
      by rewrite He'.
Qed.

Lemma values_identity b : book_wf b → identity <$> btree_values b = btree_keys b.
Proof.
  intros Hwf. unfold btree_values, btree_keys. rewrite <- list_fmap_compose.
  apply list_fmap_ext. intros n [i l] Hn. simpl.
  apply list_elem_of_lookup_2, elem_of_btree_iter in Hn. by destruct (Hwf i l Hn).
Qed.

Lemma elem_of_values b l : book_wf b → l ∈ btree_values b ↔ b !! identity l = Some l.
Proof.
  intros Hwf. unfold btree_values. rewrite list_elem_of_fmap. split.
  - intros [[i l0] [-> Hi]]. apply elem_of_btree_iter in Hi. simpl.
    by destruct (Hwf i l0 Hi) as [-> _].
  - intros Hi. exists (identity l, l). by rewrite elem_of_btree_iter.
Qed.

Lemma expired_active_true now l :
  expired_active now l = true ↔ state l = Active ∧ expires_unix_ms l ≤ now.
Proof. unfold expired_active. rewrite andb_true_iff, bool_decide_eq_true, Z.leb_le. done. Qed.

Lemma fenced_NoDup now b : book_wf b → NoDup (fence_expired now b).2.
Proof.
  intros Hwf. apply (NoDup_fmap_1 identity). simpl. rewrite <- list_fmap_compose.
  change (identity ∘ set_state Fenced) with identity.
  assert (NoDup (identity <$> btree_values b)) as Hnd by (rewrite values_identity; auto with sandbox).
  revert Hnd. induction (btree_values b) as [|l ls IH]; simpl; [done|].
  intros [Hl Hnd]%NoDup_cons. rewrite filter_cons. case_decide; simpl; [|auto].
  constructor; [|auto]. contradict Hl. apply list_elem_of_fmap in Hl as (l' & -> & Hl').
  apply list_elem_of_filter in Hl' as [_ Hl']. by apply list_elem_of_fmap_2.
Qed.

(** [fence_expired] fences every active lease whose time is over and nothing
    else, and reports exactly the leases it fenced, each once. *)
Theorem fence_expired_exact now b :
  book_wf b →
  let '(b', fenced) := fence_expired now b in
  NoDup fenced ∧
  (∀ l', l' ∈ fenced ↔ ∃ l, b !! identity l' = Some l ∧ state l = Active ∧
                        expires_unix_ms l ≤ now ∧ l' = set_state Fenced l ∧
                        b' !! identity l' = Some l') ∧
  (∀ i l', b' !! i = Some l' → state l' = Active → b !! i = Some l' ∧ now < expires_unix_ms l') ∧
  (∀ i l, b !! i = Some l → state l ≠ Active → b' !! i = Some l).
Proof.
  intros Hwf. destruct (fence_expired now b) as [b' fenced] eqn:H.
  assert (b' = (fence_expired now b).1) as -> by by rewrite H.
  assert (fenced = (fence_expired now b).2) as -> by by rewrite H. clear H.
  split_and!.
  - by apply fenced_NoDup.
  - intros l'. simpl. rewrite list_elem_of_fmap. split.
    + intros (l & -> & [He Hl]%list_elem_of_filter). apply elem_of_values in Hl; [|done].
      apply expired_active_true in He as He'. exists l. rewrite lookup_fmap. simpl.
      rewrite Hl. simpl. rewrite He. naive_solver.
    + intros (l & Hl & Ha & Hx & -> & _). exists l. split; [done|].
      apply list_elem_of_filter. rewrite elem_of_values, expired_active_true by done. done.
  - intros i l'. rewrite fence_expired_lookup. intros (l & Hl & ->)%fmap_Some.
    destruct (expired_active now l) eqn:He; [done|]. intros Ha. split; [done|].
    rewrite <- not_true_iff_false, expired_active_true in He. 
    destruct (Z.le_gt_cases (expires_unix_ms l) now); [by destruct He | lia].
  - intros i l Hl Hs. rewrite fence_expired_lookup, Hl. simpl.
    destruct (expired_active now l) eqn:He; [|done]. apply expired_active_true in He. naive_solver.
Qed.

Lemma fence_expired_exact_witness :
  let b := exec (OpAssign w_identity (id_lit "worker-a") 100 10) ∅ in
  book_wf b ∧ length (fence_expired 110 b).2 = 1%nat ∧ NoDup (fence_expired 110 b).2.
Proof.
  intros b. assert (book_wf b) as Hwf by apply exec_wf, book_wf_empty.
  split; [done|]. split; [vm_compute; reflexivity|].
  pose proof (fence_expired_exact 110 b Hwf) as H.
  destruct (fence_expired 110 b) as [b' fenced]. exact (proj1 H).
Defined.
