(* ===== verification/FairQueue.v ===== *)
(** * The bounded fair queue

    Models the queue half of [crates/sandbox-core/src/placement.rs]: a bounded
    multi-tenant queue served by weighted deficit round robin.  [expect] calls
    and the subtraction [total -= 1] are modelled as possible panics. *)
From S2P Require Import Prelude Identity.

Module FairQueue.

Definition FAIRNESS_QUANTUM : Z := 100.

Record QueueLimits : Type := MkLimits {
  global : Z;
  per_tenant : Z;
  maximum_tenants : Z
}.

Definition limits_is_valid (l : QueueLimits) : bool :=
  (0 <? global l) && (global l <=? 1000000)
  && (0 <? per_tenant l) && (per_tenant l <=? global l)
  && (0 <? maximum_tenants l) && (maximum_tenants l <=? global l).

Record QueuedWork : Type := MkWork {
  idempotency_key : string;
  work_tenant_id : TenantId;
  work_workspace_id : WorkspaceId;
  work_sandbox_id : SandboxId;
  deadline_unix_ms : Z
}.

Definition work_is_valid (w : QueuedWork) (now_unix_ms : Z) : bool :=
  negb (bool_decide (idempotency_key w = EmptyString))
  && (len (idempotency_key w) <=? 128)
  && all_bytes token_byte (idempotency_key w)
  && (now_unix_ms <? deadline_unix_ms w).

Inductive QueueRejection : Type :=
| InvalidConfiguration | InvalidRequest | Duplicate | GlobalCapacity
| TenantCapacity | TenantCardinality | InvalidWeight.

Record TenantQueue : Type := MkTenantQueue {
  weight : Z;
  deficit : Z;
  work : list QueuedWork
}.

Record BoundedFairQueue : Type := MkQueue {
  limits : QueueLimits;
  total : Z;
  queued_keys : gset string;
  tenants : gmap TenantId TenantQueue;
  schedule : list TenantId
}.

Abbreviation Q := (M BoundedFairQueue (failure QueueRejection)).

Definition set_weight (w : Z) (t : TenantQueue) : TenantQueue :=
  MkTenantQueue w (deficit t) (work t).
Definition set_deficit (d : Z) (t : TenantQueue) : TenantQueue :=
  MkTenantQueue (weight t) d (work t).
Definition set_work (ws : list QueuedWork) (t : TenantQueue) : TenantQueue :=
  MkTenantQueue (weight t) (deficit t) ws.
Definition with_tenants (m : gmap TenantId TenantQueue) (q : BoundedFairQueue) : BoundedFairQueue :=
  MkQueue (limits q) (total q) (queued_keys q) m (schedule q).
Definition with_schedule (s : list TenantId) (q : BoundedFairQueue) : BoundedFairQueue :=
  MkQueue (limits q) (total q) (queued_keys q) (tenants q) s.
Definition with_accounts (n : Z) (ks : gset string) (q : BoundedFairQueue) : BoundedFairQueue :=
  MkQueue (limits q) n ks (tenants q) (schedule q).

(** [Option::expect]. *)
Definition expect {A} (message : string) (o : option A) : Q A :=
  M_lift (ok_or (Panicked message) o).

Definition new (l : QueueLimits) : result QueueRejection BoundedFairQueue :=
  if limits_is_valid l then Ok (MkQueue l 0 ∅ ∅ []) else Err InvalidConfiguration.

Definition queue_len (q : BoundedFairQueue) : Z := total q.
Definition is_empty (q : BoundedFairQueue) : bool := total q =? 0.

Definition set_tenant_weight (tenant : TenantId) (w : Z) : Q () :=
  M_reject_if (negb ((1 <=? w) && (w <=? 100))) (Rejected InvalidWeight);;
  self ← M_get;
  match tenants self !! tenant with
  | Some queue => M_put (with_tenants (<[tenant := set_weight w queue]> (tenants self)) self)
  | None =>
      M_reject_if (maximum_tenants (limits self) <=? Z.of_nat (size (tenants self)))
        (Rejected TenantCardinality);;
      M_put (with_tenants (<[tenant := MkTenantQueue w 0 []]> (tenants self)) self)
  end.

(** The last step of [enqueue], once the tenant has a queue. *)
Definition push (w : QueuedWork) : Q () :=
  self ← M_get;
  queue ← expect "tenant queue exists" (tenants self !! work_tenant_id w);
  M_reject_if (per_tenant (limits self) <=? Z.of_nat (length (work queue)))
    (Rejected TenantCapacity);;
  M_put (MkQueue (limits self) (total self + 1)
           ({[idempotency_key w]} ∪ queued_keys self)
           (<[work_tenant_id w := set_work (work queue ++ [w]) queue]> (tenants self))
           (if bool_decide (work queue = []) then schedule self ++ [work_tenant_id w]
            else schedule self)).

Definition enqueue (w : QueuedWork) (now_unix_ms : Z) : Q () :=
  M_reject_if (negb (work_is_valid w now_unix_ms)) (Rejected InvalidRequest);;
  self ← M_get;
  M_reject_if (bool_decide (idempotency_key w ∈ queued_keys self)) (Rejected Duplicate);;
  M_reject_if (global (limits self) <=? total self) (Rejected GlobalCapacity);;
  (if bool_decide (is_Some (tenants self !! work_tenant_id w)) then mret tt
   else set_tenant_weight (work_tenant_id w) 1);;
  push w.

(** [self.queued_keys.remove(key); self.total -= 1]. *)
Definition forget (key : string) : Q () :=
  self ← M_get;
  M_reject_if (total self <? 1) (Panicked "attempt to subtract with overflow");;
  M_put (with_accounts (total self - 1) (queued_keys self ∖ {[key]}) self).

Definition remove_empty_tenant (tenant : TenantId) : Q () :=
  self ← M_get;
  match tenants self !! tenant with
  | Some queue =>
      if bool_decide (work queue = []) then
        M_put (with_schedule (filter (λ s, s ≠ tenant) (schedule self))
                 (with_tenants (delete tenant (tenants self)) self))
      else mret tt
  | None => mret tt
  end.

Definition has_key (key : string) (w : QueuedWork) : bool := bool_decide (idempotency_key w = key).

(** [position] of the first element with the key. *)
Definition position (key : string) (ws : list QueuedWork) : option nat :=
  fst <$> list_find (λ w, idempotency_key w = key) ws.

Definition cancel (key : string) : Q (option QueuedWork) :=
  self ← M_get;
  if negb (bool_decide (key ∈ queued_keys self)) then mret None else
  match find (λ p, existsb (has_key key) (work p.2)) (btree_iter (tenants self)) with
  | None => mret None
  | Some (tenant, _) =>
      match tenants self !! tenant with
      | None => mret None
      | Some queue =>
          match position key (work queue) with
          | None => mret None
          | Some n =>
              match work queue !! n with
              | None => mret None
              | Some removed =>
                  M_put (with_tenants
                           (<[tenant := set_work (delete n (work queue)) queue]> (tenants self)) self);;
                  forget key;;
                  remove_empty_tenant tenant;;
                  mret (Some removed)
              end
          end
      end
  end.

(** The inner loop of [expire]: drains [ws] and returns the expired and the
    retained work, in order. *)
Fixpoint drain (now_unix_ms : Z) (ws : list QueuedWork) : Q (list QueuedWork * list QueuedWork) :=
  match ws with
  | [] => mret ([], [])
  | w :: ws' =>
      if deadline_unix_ms w <=? now_unix_ms then
        forget (idempotency_key w);;
        r ← drain now_unix_ms ws';
        mret (w :: r.1, r.2)
      else
        r ← drain now_unix_ms ws';
        mret (r.1, w :: r.2)
  end.

Definition expire_tenant (now_unix_ms : Z) (tenant : TenantId) : Q (list QueuedWork) :=
  self ← M_get;
  queue ← expect "tenant exists" (tenants self !! tenant);
  r ← drain now_unix_ms (work queue);
  self ← M_get;
  M_put (with_tenants (<[tenant := set_work r.2 queue]> (tenants self)) self);;
  remove_empty_tenant tenant;;
  mret r.1.

Fixpoint expire_tenants (now_unix_ms : Z) (ids : list TenantId) : Q (list QueuedWork) :=
  match ids with
  | [] => mret []
  | t :: ts =>
      e ← expire_tenant now_unix_ms t;
      es ← expire_tenants now_unix_ms ts;
      mret (e ++ es)
  end.

Definition expire (now_unix_ms : Z) : Q (list QueuedWork) :=
  self ← M_get;
  expire_tenants now_unix_ms (btree_keys (tenants self)).

(** One iteration of the loop of [dequeue] for the tenant taken from the front
    of the schedule: [None] when its deficit is still below the quantum. *)
Definition visit (tenant : TenantId) (rest : list TenantId) : Q (option QueuedWork) :=
  self ← M_get;
  queue ← expect "scheduled tenant exists" (tenants self !! tenant);
  let d := Z.min (u32_saturating_add (deficit queue) (weight queue)) (FAIRNESS_QUANTUM * 2) in
  if d <? FAIRNESS_QUANTUM then
    M_put (with_schedule (rest ++ [tenant])
             (with_tenants (<[tenant := set_deficit d queue]> (tenants self)) self));;
    mret None
  else
    let d' := d - FAIRNESS_QUANTUM in
    match work queue with
    | [] => M_fail (Panicked "scheduled queue is nonempty")
    | w :: ws =>
        forget (idempotency_key w);;
        self ← M_get;
        (if bool_decide (ws = []) then
           M_put (with_schedule rest (with_tenants (delete tenant (tenants self)) self))
         else
           M_put (with_schedule
                    (if FAIRNESS_QUANTUM <=? d' then tenant :: rest else rest ++ [tenant])
                    (with_tenants (<[tenant := MkTenantQueue (weight queue) d' ws]> (tenants self)) self)));;
        mret (Some w)
    end.

(** The [for] loop of [dequeue]; the first argument counts its iterations. *)
Fixpoint dequeue_loop (attempts : nat) : Q (option QueuedWork) :=
  match attempts with
  | O => mret None
  | S n =>
      self ← M_get;
      match schedule self with
      | [] => mret None
      | tenant :: rest =>
          r ← visit tenant rest;
          match r with
          | Some w => mret (Some w)
          | None => dequeue_loop n
          end
      end
  end.

Definition dequeue (now_unix_ms : Z) : Q (option QueuedWork) :=
  _ ← expire now_unix_ms;
  self ← M_get;
  dequeue_loop (Z.to_nat (Z.min u64_max (Z.of_nat (length (schedule self)) * FAIRNESS_QUANTUM))).

End FairQueue.
Import FairQueue.

(** ** The invariant

    The queue keeps its work three times: in the tenants' queues, as a set of
    keys and as a counter.  [accounts q ws] says the keys and the counter
    describe exactly the work [ws]; [wf] says that [ws] is the work of the
    tenants, that the schedule lists each tenant with work once, and that the
    configured bounds hold. *)

#[global] Instance queued_work_eq_dec : EqDecision QueuedWork.
Proof. solve_decision. Defined.

Definition all_work (m : gmap TenantId TenantQueue) : list QueuedWork :=
  map_to_list m ≫= (λ p, work p.2).

Record accounts (n : Z) (ks : gset string) (ws : list QueuedWork) : Prop := Accounts {
  accounts_total : n = Z.of_nat (length ws);
  accounts_keys : ks = list_to_set (idempotency_key <$> ws);
  accounts_nodup : NoDup (idempotency_key <$> ws)
}.

Record tenant_wf (l : QueueLimits) (t : TenantId) (tq : TenantQueue) : Prop := TenantWf {
  tenant_weight : 1 ≤ weight tq ≤ 100;
  tenant_deficit : 0 ≤ deficit tq < FAIRNESS_QUANTUM;
  tenant_bound : Z.of_nat (length (work tq)) ≤ per_tenant l;
  tenant_own : Forall (λ w, work_tenant_id w = t) (work tq)
}.

Definition has_work (m : gmap TenantId TenantQueue) (t : TenantId) : Prop :=
  ∃ tq, m !! t = Some tq ∧ work tq ≠ [].

Record wf (q : BoundedFairQueue) : Prop := Wf {
  wf_limits : limits_is_valid (limits q) = true;
  wf_accounts : accounts (total q) (queued_keys q) (all_work (tenants q));
  wf_tenants : map_Forall (tenant_wf (limits q)) (tenants q);
  wf_schedule_nodup : NoDup (schedule q);
  wf_schedule : ∀ t, t ∈ schedule q ↔ has_work (tenants q) t;
  wf_global : total q ≤ global (limits q);
  wf_cardinality : Z.of_nat (size (tenants q)) ≤ maximum_tenants (limits q)
}.

(** *** The accounts *)

#[global] Instance accounts_proper n ks : Proper ((≡ₚ) ==> iff) (accounts n ks).
Proof.
  assert (∀ ws ws', ws ≡ₚ ws' → accounts n ks ws → accounts n ks ws') as Hone.
  { intros ws ws' Hp [-> -> Hnd]. split.
    - by rewrite Hp.
    - apply list_to_set_perm_L. by rewrite Hp.
    - by rewrite <- Hp. }
  intros ws ws' Hp. split; apply Hone; done.
Qed.

Lemma accounts_cons n ks w ws :
  idempotency_key w ∉ ks → accounts n ks ws →
  accounts (n + 1) ({[idempotency_key w]} ∪ ks) (w :: ws).
Proof.
  intros Hk [-> -> Hnd]. split; simpl; [lia|done|].
  apply NoDup_cons. split; [|done]. set_solver.
Qed.

Lemma accounts_uncons n ks w ws :
  accounts n ks (w :: ws) →
  0 < n ∧ accounts (n - 1) (ks ∖ {[idempotency_key w]}) ws.
Proof.
  intros [-> -> Hnd]. simpl in *. apply NoDup_cons in Hnd as [Hk Hnd].
  split; [lia|]. split; [lia| |done].
  rewrite difference_union_distr_l_L, difference_diag_L, union_empty_l_L.
  apply difference_disjoint_L. set_solver.
Qed.

Lemma accounts_elem n ks ws w : accounts n ks ws → w ∈ ws → idempotency_key w ∈ ks.
Proof. intros [_ -> _] Hw. apply elem_of_list_to_set, list_elem_of_fmap. eauto. Qed.

Lemma accounts_key n ks ws k :
  accounts n ks ws → k ∈ ks ↔ ∃ w, w ∈ ws ∧ idempotency_key w = k.
Proof. intros [_ -> _]. rewrite elem_of_list_to_set, list_elem_of_fmap. naive_solver. Qed.

Lemma accounts_inj n ks ws w w' :
  accounts n ks ws → w ∈ ws → w' ∈ ws → idempotency_key w = idempotency_key w' → w = w'.
Proof.
  intros [_ _ Hnd] (i & Hi)%list_elem_of_lookup (j & Hj)%list_elem_of_lookup Heq.
  assert (i = j) as ->; [|congruence].
  eapply NoDup_lookup; [exact Hnd| |]; rewrite list_lookup_fmap.
  - by rewrite Hi.
  - rewrite Hj. simpl. by rewrite Heq.
Qed.

Lemma run_forget q w ws :
  accounts (total q) (queued_keys q) (w :: ws) →
  forget (idempotency_key w) q =
    (with_accounts (total q - 1) (queued_keys q ∖ {[idempotency_key w]}) q, Ok tt).
Proof.
  intros [Hpos _]%accounts_uncons. unfold forget. unfold_M.
  by rewrite (proj2 (Z.ltb_ge _ _)) by lia.
Qed.

(** *** The work of the tenants *)

Lemma all_work_insert_fresh m t tq :
  m !! t = None → all_work (<[t := tq]> m) ≡ₚ work tq ++ all_work m.
Proof. intros Hm. unfold all_work. by rewrite map_to_list_insert. Qed.

Lemma all_work_insert m t tq : all_work (<[t := tq]> m) ≡ₚ work tq ++ all_work (delete t m).
Proof.
  rewrite <- insert_delete_eq. apply all_work_insert_fresh, lookup_delete_eq.
Qed.

Lemma all_work_lookup m t tq :
  m !! t = Some tq → all_work m ≡ₚ work tq ++ all_work (delete t m).
Proof. intros Hm. rewrite <- (insert_id m t tq) at 1 by done. apply all_work_insert. Qed.

Lemma elem_of_all_work m w : w ∈ all_work m ↔ ∃ t tq, m !! t = Some tq ∧ w ∈ work tq.
Proof.
  unfold all_work. rewrite list_elem_of_bind. split.
  - intros ([t tq] & Hw & Hm%elem_of_map_to_list). eauto.
  - intros (t & tq & Hm & Hw). exists (t, tq). by rewrite elem_of_map_to_list.
Qed.

Lemma has_work_insert m t tq s :
  has_work (<[t := tq]> m) s ↔ (s = t ∧ work tq ≠ []) ∨ (s ≠ t ∧ has_work m s).
Proof.
  unfold has_work. destruct (decide (s = t)) as [->|Hne].
  - rewrite lookup_insert_eq. naive_solver.
  - rewrite lookup_insert_ne by done. naive_solver.
Qed.

Lemma has_work_delete m t s : has_work (delete t m) s ↔ s ≠ t ∧ has_work m s.
Proof.
  unfold has_work. destruct (decide (s = t)) as [->|Hne].
  - rewrite lookup_delete_eq. naive_solver.
  - rewrite lookup_delete_ne by done. naive_solver.
Qed.

Lemma size_insert_le (m : gmap TenantId TenantQueue) t tq tq' :
  m !! t = Some tq → size (<[t := tq']> m) = size m.
Proof. intros Hm. by rewrite map_size_insert_Some. Qed.

Lemma size_delete_le (m : gmap TenantId TenantQueue) t : (size (delete t m) ≤ size m)%nat.
Proof. rewrite map_size_delete. destruct (m !! t); simpl; lia. Qed.

(** ** The operations on well-formed queues

    The abstract view of a queue is the list of work of each tenant, in
    arrival order. *)

Definition tenant_work (q : BoundedFairQueue) (t : TenantId) : list QueuedWork :=
  match tenants q !! t with Some tq => work tq | None => [] end.

(** What is left of a tenant that keeps the work [ws]: nothing when it is empty. *)
Definition settle (ws : list QueuedWork) (tq : TenantQueue) : option TenantQueue :=
  if bool_decide (ws = []) then None else Some (set_work ws tq).

Definition unexpired (now : Z) (w : QueuedWork) : Prop := now < deadline_unix_ms w.
#[global] Instance unexpired_dec now w : Decision (unexpired now w).
Proof. unfold unexpired. apply _. Defined.

Lemma work_settle ws tq : match settle ws tq with Some x => work x | None => [] end = ws.
Proof. unfold settle. by case_bool_decide. Qed.

Lemma elem_of_tenant_work q t w :
  w ∈ tenant_work q t ↔ ∃ tq, tenants q !! t = Some tq ∧ w ∈ work tq.
Proof.
  unfold tenant_work. case_match; [naive_solver|]. split; [set_solver|naive_solver].
Qed.

Lemma elem_of_schedule q t : wf q → t ∈ schedule q ↔ tenant_work q t ≠ [].
Proof.
  intros Hq. rewrite (wf_schedule _ Hq). unfold has_work, tenant_work. case_match; naive_solver.
Qed.

Lemma partial_alter_settle (m : gmap TenantId TenantQueue) t ws tq :
  partial_alter (λ _, settle ws tq) t m =
    if bool_decide (ws = []) then delete t m else <[t := set_work ws tq]> m.
Proof. unfold settle. by case_bool_decide. Qed.

(** Replacing the work of [t] by a part [ws] of it, and dropping the tenant
    when nothing is left. *)
Section resettle.
Context (q : BoundedFairQueue) (t : TenantId) (tq tq' : TenantQueue).
Context (ws : list QueuedWork) (n : Z) (ks : gset string).
Hypotheses (Hq : wf q) (Ht : tenants q !! t = Some tq).
Hypotheses (Hws : ws `sublist_of` work tq).
Hypotheses (Hweight : 1 ≤ weight tq' ≤ 100) (Hdeficit : 0 ≤ deficit tq' < FAIRNESS_QUANTUM).
Hypothesis (Hacc : accounts n ks (ws ++ all_work (delete t (tenants q)))).

Lemma resettle_tenant_wf : tenant_wf (limits q) t (set_work ws tq').
Proof.
  destruct (wf_tenants _ Hq t tq Ht) as [_ _ Hbound Hown]. split; simpl; try done.
  - apply sublist_length in Hws. lia.
  - rewrite Forall_forall in Hown |- *. intros w Hw. apply Hown.
    by apply (sublist_subseteq _ _ Hws).
Qed.

Lemma resettle_total : n ≤ total q.
Proof.
  destruct (wf_accounts _ Hq) as [Htot _ _], Hacc as [-> _ _].
  rewrite Htot, (all_work_lookup _ _ _ Ht), !length_app. apply sublist_length in Hws. lia.
Qed.

Lemma resettle_wf (s : list TenantId) :
  NoDup s →
  (∀ x, x ∈ s ↔ (x = t ∧ ws ≠ []) ∨ (x ≠ t ∧ x ∈ schedule q)) →
  wf (MkQueue (limits q) n ks (partial_alter (λ _, settle ws tq') t (tenants q)) s).
Proof.
  intros Hnd Hs. pose proof resettle_total as Htotal.
  rewrite partial_alter_settle. case_bool_decide as Hempty.
  - subst ws. split; simpl.
    + apply Hq.
    + exact Hacc.
    + apply map_Forall_delete, Hq.
    + exact Hnd.
    + intros x. rewrite Hs, has_work_delete, <- (wf_schedule _ Hq). naive_solver.
    + pose proof (wf_global _ Hq). lia.
    + pose proof (wf_cardinality _ Hq). pose proof (size_delete_le (tenants q) t). lia.
  - split; simpl.
    + apply Hq.
    + by rewrite all_work_insert.
    + apply map_Forall_insert_2; [apply resettle_tenant_wf | apply Hq].
    + exact Hnd.
    + intros x. rewrite Hs, has_work_insert, <- (wf_schedule _ Hq). done.
    + pose proof (wf_global _ Hq). lia.
    + rewrite (size_insert_le _ _ _ _ Ht). apply Hq.
Qed.

(** [remove_empty_tenant] after the work of [t] was replaced by [ws]. *)
Lemma run_remove_empty_tenant :
  let q1 := with_tenants (<[t := set_work ws tq']> (tenants q)) (with_accounts n ks q) in
  let q2 := MkQueue (limits q) n ks (partial_alter (λ _, settle ws tq') t (tenants q))
              (if bool_decide (ws = []) then filter (λ s, s ≠ t) (schedule q) else schedule q) in
  remove_empty_tenant t q1 = (q2, Ok tt) ∧ wf q2.
Proof.
  intros q1 q2. split.
  - unfold remove_empty_tenant, q1, q2. rewrite partial_alter_settle. unfold_M. rewrite lookup_insert_eq. simpl.
    case_bool_decide; simpl; [|done].
    unfold with_schedule. simpl. by rewrite delete_insert_eq.
  - apply resettle_wf.
    + case_bool_decide; [apply NoDup_filter|]; apply Hq.
    + intros x. case_bool_decide as Hempty.
      * rewrite list_elem_of_filter. naive_solver.
      * destruct (decide (x = t)) as [->|]; [|naive_solver].
        rewrite (wf_schedule _ Hq). unfold has_work. split; [by left|]. intros _.
        exists tq. split; [done|]. intros Hnil. rewrite Hnil in Hws.
        by apply sublist_nil_r in Hws.
Qed.
End resettle.

(** *** Expiry *)

Definition live (now : Z) (tq : TenantQueue) : option TenantQueue :=
  settle (filter (unexpired now) (work tq)) tq.

Lemma drain_spec now ws : ∀ q rest,
  accounts (total q) (queued_keys q) (ws ++ rest) →
  ∃ n ks,
    drain now ws q =
      (with_accounts n ks q,
       Ok (filter (λ w, ¬ unexpired now w) ws, filter (unexpired now) ws)) ∧
    accounts n ks (filter (unexpired now) ws ++ rest).
Proof.
  induction ws as [|w ws IH]; intros q rest Hacc.
  { exists (total q), (queued_keys q). split; [by destruct q | done]. }
  rewrite !filter_cons. simpl drain.
  destruct (Z.leb_spec (deadline_unix_ms w) now) as [Hexp|Hlive].
  - rewrite decide_True by (unfold unexpired; lia).
    rewrite (decide_False (P := unexpired now w)) by (unfold unexpired; lia).
    pose proof (accounts_uncons _ _ _ _ Hacc) as [_ Hacc'].
    rewrite (M_bind_eq _ _ _ _ _ (run_forget _ _ _ Hacc)).
    destruct (IH (with_accounts _ _ q) rest Hacc') as (n & ks & Hdrain & Hks).
    exists n, ks. by rewrite (M_bind_eq _ _ _ _ _ Hdrain).
  - rewrite decide_False by (unfold unexpired; lia).
    rewrite (decide_True (P := unexpired now w)) by (unfold unexpired; lia).
    destruct (IH q (w :: rest)) as (n & ks & Hdrain & Hks).
    { by rewrite <- Permutation_middle. }
    exists n, ks. rewrite (M_bind_eq _ _ _ _ _ Hdrain). split; [done|].
    simpl. by rewrite Permutation_middle.
Qed.

Lemma expire_tenant_spec now t q tq :
  wf q → tenants q !! t = Some tq →
  ∃ n ks,
    let q' := MkQueue (limits q) n ks (partial_alter (λ _, live now tq) t (tenants q))
                (if bool_decide (filter (unexpired now) (work tq) = [])
                 then filter (λ s, s ≠ t) (schedule q) else schedule q) in
    expire_tenant now t q = (q', Ok (filter (λ w, ¬ unexpired now w) (work tq))) ∧ wf q'.
Proof.
  intros Hq Ht. destruct (drain_spec now (work tq) q (all_work (delete t (tenants q))))
    as (n & ks & Hdrain & Hacc).
  { rewrite <- (all_work_lookup _ _ _ Ht). apply Hq. }
  destruct (wf_tenants _ Hq t tq Ht) as [Hw Hd _ _].
  destruct (run_remove_empty_tenant q t tq tq _ n ks Hq Ht
              (sublist_filter (unexpired now) (work tq)) Hw Hd Hacc) as [Hrun Hwf].
  exists n, ks. split; [|exact Hwf].
  unfold expire_tenant, expect, mbind, M_bind, M_get, M_lift, M_put. rewrite Ht. simpl.
  rewrite Hdrain. simpl. by rewrite Hrun.
Qed.

Definition expired_work (now : Z) (q : BoundedFairQueue) (ids : list TenantId) : list QueuedWork :=
  ids ≫= (λ t, filter (λ w, ¬ unexpired now w) (tenant_work q t)).

Lemma expire_tenants_spec now ids : ∀ q,
  wf q → NoDup ids → (∀ t, t ∈ ids → is_Some (tenants q !! t)) →
  ∃ q', expire_tenants now ids q = (q', Ok (expired_work now q ids)) ∧ wf q' ∧
    limits q' = limits q ∧
    (∀ t, tenants q' !! t =
            if decide (t ∈ ids) then tenants q !! t ≫= live now else tenants q !! t) ∧
    schedule q' = filter (λ t, is_Some (tenants q' !! t)) (schedule q).
Proof.
  induction ids as [|t ids IH]; intros q Hq Hnd Hids.
  { exists q. split_and!; [done|done|done|done|]. symmetry. apply filter_all.
    intros t (tq & Ht & _)%(wf_schedule _ Hq). eauto. }
  apply NoDup_cons in Hnd as [Hfresh Hnd].
  destruct (Hids t) as [tq Ht]; [by left|].
  destruct (expire_tenant_spec now t q tq Hq Ht) as (n & ks & Hrun & Hwf).
  set (q1 := MkQueue _ _ _ _ _) in Hrun, Hwf.
  assert (∀ s, s ≠ t → tenants q1 !! s = tenants q !! s) as Hother.
  { intros s Hs. by apply lookup_partial_alter_ne. }
  destruct (IH q1 Hwf Hnd) as (q' & Hrest & Hwf' & Hlim & Hlook & Hsched).
  { intros s Hs. rewrite Hother by set_solver. apply Hids. by right. }
  assert (tenants q' !! t = live now tq) as Ht'.
  { rewrite Hlook, decide_False by done. apply lookup_partial_alter_eq. }
  exists q'. split_and!; [|done|done| |].
  - cbn [expire_tenants]. unfold mbind, M_bind, mret, M_ret. rewrite Hrun, Hrest.
    simpl. do 2 f_equal. unfold expired_work. simpl. f_equal.
    + unfold tenant_work. by rewrite Ht.
    + apply Forall_bind_ext, Forall_forall. intros s Hs. unfold tenant_work.
      rewrite Hother; [done | congruence].
  - intros s. rewrite Hlook. destruct (decide (s = t)) as [->|Hne].
    + rewrite decide_False by done. rewrite (decide_True (P := t ∈ t :: ids)) by set_solver.
      rewrite Ht. apply lookup_partial_alter_eq.
    + rewrite Hother by done. apply decide_ext. set_solver.
  - rewrite Hsched. unfold q1; simpl. case_bool_decide as Hnil; [|done].
    rewrite list_filter_filter. apply filter_ext_elem. intros s Hs.
    split; [tauto|]. intros Hsome. split; [done|]. intros ->.
    rewrite Ht' in Hsome. unfold live, settle in Hsome. rewrite Hnil in Hsome.
    by destruct Hsome.
Qed.

(** The effect of [expire]: every tenant keeps its unexpired work, in order,
    and tenants left without work disappear from the map and the schedule. *)
Lemma expire_spec now q :
  wf q →
  ∃ q', expire now q = (q', Ok (expired_work now q (btree_keys (tenants q)))) ∧ wf q' ∧
    limits q' = limits q ∧
    tenants q' = omap (live now) (tenants q) ∧
    schedule q' = filter (λ t, is_Some (tenants q' !! t)) (schedule q).
Proof.
  intros Hq. destruct (expire_tenants_spec now (btree_keys (tenants q)) q)
    as (q' & Hrun & Hwf & Hlim & Hlook & Hsched); [done|apply NoDup_btree_keys| |].
  { intros t. apply elem_of_btree_keys. }
  exists q'. split_and!; [exact Hrun|done|done| |done].
  apply map_eq. intros t. rewrite Hlook, lookup_omap.
  destruct (decide _) as [_|Hno]; [done|].
  rewrite elem_of_btree_keys, <- eq_None_not_Some in Hno. by rewrite Hno.
Qed.

Lemma tenant_work_omap now q q' t :
  tenants q' = omap (live now) (tenants q) →
  tenant_work q' t = filter (unexpired now) (tenant_work q t).
Proof.
  intros Hm. unfold tenant_work. rewrite Hm, lookup_omap.
  destruct (tenants q !! t) as [tq|]; simpl; [apply work_settle | done].
Qed.

(** *** Weights, admission and cancellation *)

Lemma set_tenant_weight_spec t w q q' r :
  wf q → set_tenant_weight t w q = (q', r) →
  match r with
  | Ok _ =>
      1 ≤ w ≤ 100 ∧ wf q' ∧ limits q' = limits q ∧
      total q' = total q ∧ queued_keys q' = queued_keys q ∧ schedule q' = schedule q ∧
      tenants q' = <[t := match tenants q !! t with
                         | Some tq => set_weight w tq
                         | None => MkTenantQueue w 0 []
                         end]> (tenants q)
  | Err (Rejected e) =>
      q' = q ∧
      ((e = InvalidWeight ∧ ¬ 1 ≤ w ≤ 100) ∨
       (e = TenantCardinality ∧ tenants q !! t = None ∧
        maximum_tenants (limits q) = Z.of_nat (size (tenants q))))
  | Err (Panicked _) => False
  end.
Proof.
  intros Hq. unfold set_tenant_weight. unfold_M.
  destruct ((1 <=? w) && (w <=? 100)) eqn:Hw; simpl; [|intros [= <- <-]; split; [done|left; split; [done|lia]]].
  assert (1 ≤ w ≤ 100) as Hrange by lia. clear Hw.
  destruct (tenants q !! t) as [tq|] eqn:Ht.
  - intros [= <- <-]. split_and!; try done; try lia.
    destruct (wf_tenants _ Hq t tq Ht) as [_ Hd Hb Ho]. split; simpl; try apply Hq.
    + rewrite all_work_insert. simpl. rewrite <- (all_work_lookup _ _ _ Ht). apply Hq.
    + apply map_Forall_insert_2; [by split | apply Hq].
    + intros s. rewrite has_work_insert, (wf_schedule _ Hq). unfold has_work.
      destruct (decide (s = t)) as [->|]; [|naive_solver]. simpl. rewrite Ht. naive_solver.
    + rewrite (size_insert_le _ _ _ _ Ht). apply Hq.
  - destruct (Z.leb_spec (maximum_tenants (limits q)) (Z.of_nat (size (tenants q)))) as [Hm|Hm];
      simpl; intros [= <- <-].
    + split; [done|]. right. split_and!; try done. pose proof (wf_cardinality _ Hq). lia.
    + split_and!; try done; try lia. split; simpl; try apply Hq.
      * rewrite all_work_insert. simpl. rewrite delete_id by done. apply Hq.
      * apply map_Forall_insert_2; [split; simpl; [lia|done| |done] | apply Hq].
        pose proof (wf_limits _ Hq) as Hl. unfold limits_is_valid in Hl. lia.
      * intros s. rewrite has_work_insert, (wf_schedule _ Hq). unfold has_work.
        destruct (decide (s = t)) as [->|]; [|naive_solver]. simpl. rewrite Ht. naive_solver.
      * rewrite map_size_insert_None by done. lia.
Qed.

(** The append of [enqueue] to an existing tenant queue. *)
Lemma push_wf q w tq :
  wf q → tenants q !! work_tenant_id w = Some tq →
  idempotency_key w ∉ queued_keys q → total q < global (limits q) →
  Z.of_nat (length (work tq)) < per_tenant (limits q) →
  wf (MkQueue (limits q) (total q + 1) ({[idempotency_key w]} ∪ queued_keys q)
        (<[work_tenant_id w := set_work (work tq ++ [w]) tq]> (tenants q))
        (if bool_decide (work tq = []) then schedule q ++ [work_tenant_id w] else schedule q)).
Proof.
  intros Hq Ht Hkey Hglobal Hbound. set (t := work_tenant_id w) in *.
  destruct (wf_tenants _ Hq t tq Ht) as [Hw Hd _ Ho].
  assert (t ∈ schedule q ↔ work tq ≠ []) as Hsched.
  { rewrite (elem_of_schedule _ _ Hq). unfold tenant_work. by rewrite Ht. }
  split; simpl; try apply Hq; [| | | |lia|].
  - rewrite all_work_insert. simpl. rewrite <- app_assoc. simpl.
    rewrite <- Permutation_middle. apply accounts_cons; [done|].
    rewrite <- (all_work_lookup _ _ _ Ht). apply Hq.
  - apply map_Forall_insert_2; [|apply Hq]. split; simpl; [done|done| |].
    + rewrite length_app. simpl. lia.
    + apply Forall_app. split; [done|]. by constructor.
  - case_bool_decide as Hnil; [|apply Hq]. apply NoDup_app. split_and!; [apply Hq| |].
    + intros s Hs ->%list_elem_of_singleton. by apply Hsched in Hs.
    + apply NoDup_singleton.
  - intros s. rewrite has_work_insert, <- (wf_schedule _ Hq). simpl.
    assert (work tq ++ [w] ≠ []) by (by destruct (work tq)).
    destruct (decide (s = t)) as [->|]; case_bool_decide; set_solver.
  - rewrite (size_insert_le _ _ _ _ Ht). apply Hq.
Qed.

(** Why [enqueue] may refuse [w] in a queue [q]. *)
Definition refuses (q : BoundedFairQueue) (w : QueuedWork) (now : Z) (e : QueueRejection) : Prop :=
  match e with
  | InvalidRequest => work_is_valid w now = false
  | Duplicate => ∃ w', w' ∈ all_work (tenants q) ∧ idempotency_key w' = idempotency_key w
  | GlobalCapacity => Z.of_nat (length (all_work (tenants q))) = global (limits q)
  | TenantCapacity =>
      Z.of_nat (length (tenant_work q (work_tenant_id w))) = per_tenant (limits q)
  | TenantCardinality =>
      tenants q !! work_tenant_id w = None ∧
      Z.of_nat (size (tenants q)) = maximum_tenants (limits q)
  | InvalidConfiguration | InvalidWeight => False
  end.

Lemma run_push q w tq :
  wf q → tenants q !! work_tenant_id w = Some tq →
  idempotency_key w ∉ queued_keys q → total q < global (limits q) →
  if per_tenant (limits q) <=? Z.of_nat (length (work tq))
  then push w q = (q, Err (Rejected TenantCapacity))
  else ∃ q', push w q = (q', Ok tt) ∧ wf q' ∧
         ∀ s, tenant_work q' s =
              if decide (s = work_tenant_id w) then work tq ++ [w] else tenant_work q s.
Proof.
  intros Hq Ht Hkey Hglobal. unfold push, expect. unfold_M. rewrite Ht. simpl.
  case_match eqn:Hfull; [done|]. eexists. split; [reflexivity|]. split.
  - apply push_wf; [done..|lia].
  - intros s. unfold tenant_work. simpl. destruct (decide _) as [->|].
    + by rewrite lookup_insert_eq.
    + by rewrite lookup_insert_ne by done.
Qed.

Lemma not_refused q w now :
  wf q → work_is_valid w now = true → idempotency_key w ∉ queued_keys q →
  total q < global (limits q) →
  Z.of_nat (length (tenant_work q (work_tenant_id w))) < per_tenant (limits q) →
  (tenants q !! work_tenant_id w = None →
     Z.of_nat (size (tenants q)) < maximum_tenants (limits q)) →
  ∀ e, ¬ refuses q w now e.
Proof.
  intros Hq Hvalid Hkey Hglobal Htenant Hcard e. pose proof (wf_accounts _ Hq) as Hacc.
  destruct e; simpl; try tauto.
  - congruence.
  - intros Hdup. by apply (accounts_key _ _ _ _ Hacc) in Hdup.
  - destruct Hacc as [Htotal _ _]. lia.
  - lia.
  - intros [Hnone Hsize]. specialize (Hcard Hnone). lia.
Qed.

Lemma enqueue_cases w now q q' r :
  wf q → enqueue w now q = (q', r) →
  match r with
  | Ok _ =>
      wf q' ∧ (∀ e, ¬ refuses q w now e) ∧
      ∀ s, tenant_work q' s =
           if decide (s = work_tenant_id w) then tenant_work q s ++ [w] else tenant_work q s
  | Err (Rejected e) => q' = q ∧ refuses q w now e
  | Err (Panicked _) => False
  end.
Proof.
  intros Hq. unfold enqueue.
  destruct (wf_accounts _ Hq) as [Htotal _ _].
  unfold M_reject_if, M_get; unfold mbind at 1, M_bind at 1.
  destruct (work_is_valid w now) eqn:Hvalid; simpl; [|by intros [= <- <-]].
  unfold mbind at 1 2, M_bind at 1 2. case_bool_decide as Hdup.
  { intros [= <- <-]. split; [done|]. by apply (accounts_key _ _ _ _ (wf_accounts _ Hq)). }
  unfold mbind at 1, M_bind at 1.
  destruct (Z.leb_spec (global (limits q)) (total q)) as [Hg|Hg].
  { intros [= <- <-]. split; [done|]. simpl. pose proof (wf_global _ Hq). lia. }
  unfold mbind at 1, M_bind at 1. case_bool_decide as Hsome; simpl.
  - destruct Hsome as [tq Ht]. pose proof (run_push q w tq Hq Ht Hdup Hg) as Hpush.
    assert (tenant_work q (work_tenant_id w) = work tq) as Htw
      by (unfold tenant_work; by rewrite Ht).
    case_match eqn:Hfull.
    + rewrite Hpush. intros [= <- <-]. split; [done|]. simpl. rewrite Htw.
      destruct (wf_tenants _ Hq _ _ Ht). lia.
    + destruct Hpush as (q1 & -> & Hwf & Hview). intros [= <- <-]. split_and!; [done| |].
      { apply not_refused; [done..|rewrite Htw; lia|by rewrite Ht]. }
      intros s. rewrite Hview. case_decide; [|done]. subst s. by rewrite Htw.
  - destruct (set_tenant_weight _ 1 q) as [q1 [u|e]] eqn:Hset;
      apply (set_tenant_weight_spec _ _ _ _ _ Hq) in Hset.
    + destruct Hset as (_ & Hq1 & Hl & Htot & Hks & _ & Hm).
      rewrite <- eq_None_not_Some in Hsome. rewrite Hsome in Hm.
      assert (tenants q1 !! work_tenant_id w = Some (MkTenantQueue 1 0 [])) as Ht
        by (rewrite Hm; apply lookup_insert_eq).
      assert (0 < per_tenant (limits q1)) as Hpos.
      { pose proof (wf_limits _ Hq1) as Hv. unfold limits_is_valid in Hv. lia. }
      pose proof (run_push q1 w _ Hq1 Ht) as Hpush. rewrite Hks, Hl, Htot in Hpush.
      specialize (Hpush Hdup Hg). simpl in Hpush. rewrite (proj2 (Z.leb_gt _ _)) in Hpush by (rewrite <- Hl; lia).
      destruct Hpush as (q2 & -> & Hwf & Hview). intros [= <- <-]. split_and!; [done| |].
      { pose proof (wf_cardinality _ Hq1) as Hcard.
        rewrite Hm, Hl, map_size_insert_None in Hcard by done.
        apply not_refused; [done..| |intros _; lia].
        unfold tenant_work. rewrite Hsome, <- Hl. simpl. lia. }
      intros s. rewrite Hview. unfold tenant_work. rewrite Hm.
      case_decide; [subst s; by rewrite Hsome | by rewrite lookup_insert_ne].
    + intros [= <- <-]. destruct e as [e|]; [|done]. destruct Hset as [-> [[-> Hbad]|(-> & ? & ?)]];
        [lia | done].
Qed.

Lemma find_tenant q key w :
  wf q → w ∈ all_work (tenants q) → idempotency_key w = key →
  ∃ tq, find (λ p, existsb (has_key key) (work p.2)) (btree_iter (tenants q)) =
          Some (work_tenant_id w, tq) ∧
        tenants q !! work_tenant_id w = Some tq ∧ w ∈ work tq.
Proof.
  intros Hq Hw Hkey. pose proof (wf_accounts _ Hq) as Hacc.
  apply elem_of_all_work in Hw as Hw'. destruct Hw' as (t & tq & Ht & Hin).
  assert (existsb (has_key key) (work tq) = true) as Hex.
  { apply existsb_exists. exists w. split; [by apply list_elem_of_In|].
    unfold has_key. by apply bool_decide_eq_true. }
  destruct (find _ _) as [[t' tq']|] eqn:Hfind.
  - apply find_some in Hfind as [Hin' Hex']. simpl in Hex'.
    apply list_elem_of_In, elem_of_btree_iter in Hin'.
    apply existsb_exists in Hex' as (w' & Hw'%list_elem_of_In & Hk).
    unfold has_key in Hk. apply bool_decide_eq_true in Hk.
    assert (w' = w) as ->.
    { eapply accounts_inj; [exact Hacc| |exact Hw|congruence]. apply elem_of_all_work. eauto. }
    destruct (wf_tenants _ Hq _ _ Hin') as [_ _ _ Hown].
    rewrite Forall_forall in Hown. rewrite (Hown w Hw'). eauto.
  - pose proof (find_none _ _ Hfind (t, tq)) as Hno. simpl in Hno.
    rewrite Hno in Hex; [done|]. by apply list_elem_of_In, elem_of_btree_iter.
Qed.

Lemma position_of key ws w :
  w ∈ ws → idempotency_key w = key →
  ∃ n w', position key ws = Some n ∧ ws !! n = Some w' ∧ idempotency_key w' = key.
Proof.
  intros Hw Hk. unfold position.
  destruct (list_find_elem_of (λ w, idempotency_key w = key) ws w Hw Hk) as [[n w'] Hfind].
  rewrite Hfind. apply list_find_Some in Hfind as (Hn & Hk' & _). simpl. eauto.
Qed.

Lemma delete_middle {A} (l : list A) n x :
  l !! n = Some x → ∃ l1 l2, l = l1 ++ x :: l2 ∧ delete n l = l1 ++ l2.
Proof.
  intros Hn. exists (take n l), (drop (S n) l). split.
  - by rewrite take_drop_middle.
  - apply delete_take_drop.
Qed.

Lemma cancel_cases key q q' r :
  wf q → cancel key q = (q', r) →
  ∃ o, r = Ok o ∧ wf q' ∧
    match o with
    | None => q' = q ∧ ∀ w, w ∈ all_work (tenants q) → idempotency_key w ≠ key
    | Some w =>
        idempotency_key w = key ∧
        ∃ l1 l2, tenant_work q (work_tenant_id w) = l1 ++ w :: l2 ∧
          ∀ s, tenant_work q' s =
               if decide (s = work_tenant_id w) then l1 ++ l2 else tenant_work q s
    end.
Proof.
  intros Hq. pose proof (wf_accounts _ Hq) as Hacc. unfold cancel.
  unfold mbind at 1, M_bind at 1. simpl. case_bool_decide as Hkey; simpl.
  2: { intros [= <- <-]. exists None. split_and!; try done. intros w Hw <-.
       destruct Hkey. by apply (accounts_elem _ _ _ _ Hacc). }
  apply (accounts_key _ _ _ _ Hacc) in Hkey as (w & Hw & Hk).
  destruct (find_tenant q key w Hq Hw Hk) as (tq & -> & Ht & Hin). rewrite Ht.
  destruct (position_of key (work tq) w Hin Hk) as (n & w' & -> & Hn & Hk'). rewrite Hn.
  assert (w' = w) as ->.
  { eapply accounts_inj; [exact Hacc| |exact Hw|congruence].
    apply elem_of_all_work. eexists _, tq. split; [exact Ht|].
    by apply list_elem_of_lookup_2 with n. }
  set (t := work_tenant_id w) in *.
  destruct (delete_middle _ _ _ Hn) as (l1 & l2 & Hwork & Hdel). rewrite Hdel.
  assert (accounts (total q) (queued_keys q) (w :: (l1 ++ l2) ++ all_work (delete t (tenants q))))
    as Hacc1.
  { rewrite (all_work_lookup _ _ _ Ht), Hwork, <- app_assoc in Hacc. simpl in Hacc.
    rewrite <- Permutation_middle in Hacc. by rewrite <- app_assoc. }
  destruct (wf_tenants _ Hq t tq Ht) as [Hwt Hd _ _].
  destruct (run_remove_empty_tenant q t tq tq (l1 ++ l2) (total q - 1)
              (queued_keys q ∖ {[idempotency_key w]})) as [Hrun Hwf]; try done.
  { rewrite <- Hdel. apply sublist_delete. }
  { by apply accounts_uncons. }
  set (q1 := with_tenants _ q).
  pose proof (run_forget q1 w _ Hacc1) as Hforget. rewrite Hk in Hforget, Hrun, Hwf.
  unfold mbind, M_bind, M_put, mret, M_ret. rewrite Hforget.
  change (with_accounts _ _ q1) with
    (with_tenants (<[t := set_work (l1 ++ l2) tq]> (tenants q))
       (with_accounts (total q - 1) (queued_keys q ∖ {[key]}) q)).
  rewrite Hrun. intros [= <- <-]. eexists. split; [done|]. split; [exact Hwf|].
  split; [done|]. exists l1, l2. fold t. unfold tenant_work. rewrite Ht. split; [done|].
  intros s. simpl. destruct (decide (s = t)) as [->|].
  - by rewrite lookup_partial_alter_eq, work_settle.
  - by rewrite lookup_partial_alter_ne.
Qed.

(** *** Deficit round robin *)

(** The queue after the front tenant [t] was passed over, and after its oldest
    work was served. *)
Definition skipped (q : BoundedFairQueue) t tq (rest : list TenantId) : BoundedFairQueue :=
  MkQueue (limits q) (total q) (queued_keys q)
    (<[t := set_deficit (deficit tq + weight tq) tq]> (tenants q)) (rest ++ [t]).

Definition after_service (q : BoundedFairQueue) t tq w ws (rest : list TenantId) : BoundedFairQueue :=
  MkQueue (limits q) (total q - 1) (queued_keys q ∖ {[idempotency_key w]})
    (partial_alter (λ _, settle ws (set_deficit (deficit tq + weight tq - FAIRNESS_QUANTUM) tq)) t
       (tenants q))
    (if bool_decide (ws = []) then rest else rest ++ [t]).

Lemma schedule_front q t rest :
  wf q → schedule q = t :: rest →
  (t ∉ rest) ∧ NoDup rest ∧
  ∃ tq w ws, tenants q !! t = Some tq ∧ work tq = w :: ws ∧ work_tenant_id w = t ∧
    1 ≤ weight tq ≤ 100 ∧ 0 ≤ deficit tq < FAIRNESS_QUANTUM.
Proof.
  intros Hq Hs. pose proof (wf_schedule_nodup _ Hq) as Hnd. rewrite Hs in Hnd.
  apply NoDup_cons in Hnd as [Hfresh Hnd]. split_and!; [done..|].
  destruct (proj1 (wf_schedule _ Hq t)) as (tq & Ht & Hne); [rewrite Hs; by left|].
  destruct (wf_tenants _ Hq t tq Ht) as [Hw Hd _ Ho].
  destruct (work tq) as [|w ws] eqn:Hwork; [done|]. exists tq, w, ws.
  apply Forall_cons in Ho as [Ho _]. done.
Qed.

Section visits.
Context (q : BoundedFairQueue) (t : TenantId) (rest : list TenantId).
Context (tq : TenantQueue) (w : QueuedWork) (ws : list QueuedWork).
Hypotheses (Hq : wf q) (Hs : schedule q = t :: rest).
Hypotheses (Ht : tenants q !! t = Some tq) (Hwork : work tq = w :: ws).
Hypotheses (Hweight : 1 ≤ weight tq ≤ 100) (Hdeficit : 0 ≤ deficit tq < FAIRNESS_QUANTUM).

Lemma front_accounts :
  accounts (total q) (queued_keys q) (w :: ws ++ all_work (delete t (tenants q))).
Proof.
  pose proof (wf_accounts _ Hq) as Hacc. rewrite (all_work_lookup _ _ _ Ht), Hwork in Hacc.
  exact Hacc.
Qed.

Lemma schedule_rotated x : x ∈ rest ++ [t] ↔ x ∈ schedule q.
Proof using Hs. clear -Hs. rewrite Hs. set_solver. Qed.

Lemma rotated_nodup : NoDup (rest ++ [t]).
Proof using Hq Hs.
  destruct (schedule_front q t rest Hq Hs) as (Hfresh & Hnd & _).
  clear -Hfresh Hnd. apply NoDup_app. split_and!; [done|set_solver|apply NoDup_singleton].
Qed.

Lemma run_visit :
  visit t rest q =
    if deficit tq + weight tq <? FAIRNESS_QUANTUM then (skipped q t tq rest, Ok None)
    else (after_service q t tq w ws rest, Ok (Some w)).
Proof.
  unfold visit, expect, mbind, M_bind, M_get, M_lift, M_put, mret, M_ret. rewrite Ht. simpl.
  unfold FAIRNESS_QUANTUM, u32_saturating_add, saturating_add, u32_max in *.
  rewrite (Z.min_r _ (deficit tq + weight tq)), (Z.min_l _ (100 * 2)) by lia.
  destruct (Z.ltb_spec (deficit tq + weight tq) 100) as [Hlow|Hhigh]; [done|].
  rewrite Hwork. rewrite (run_forget _ _ _ front_accounts). unfold after_service.
  rewrite partial_alter_settle. case_bool_decide; [done|].
  by rewrite (proj2 (Z.leb_gt _ _)) by lia.
Qed.

Lemma skipped_wf : deficit tq + weight tq < FAIRNESS_QUANTUM → wf (skipped q t tq rest).
Proof.
  intros Hlow. destruct (wf_tenants _ Hq t tq Ht) as [_ _ Hb Ho]. split; simpl.
  - apply Hq.
  - rewrite all_work_insert. simpl. rewrite <- (all_work_lookup _ _ _ Ht). apply Hq.
  - apply map_Forall_insert_2; [split; simpl; lia || done | apply Hq].
  - apply rotated_nodup.
  - intros x. rewrite schedule_rotated, has_work_insert, (wf_schedule _ Hq). simpl.
    unfold has_work. rewrite Hwork. destruct (decide (x = t)) as [->|]; [|tauto].
    split; [by left|]. intros _. exists tq. by rewrite Hwork.
  - apply Hq.
  - rewrite (size_insert_le _ _ _ _ Ht). apply Hq.
Qed.

Lemma after_service_wf :
  FAIRNESS_QUANTUM ≤ deficit tq + weight tq → wf (after_service q t tq w ws rest).
Proof.
  intros Hhigh. unfold FAIRNESS_QUANTUM in *.
  apply resettle_wf with tq; simpl; try done; unfold FAIRNESS_QUANTUM.
  - rewrite Hwork. apply sublist_cons. done.
  - lia.
  - apply accounts_uncons, front_accounts.
  - pose proof rotated_nodup as Hnd. case_bool_decide; [|done].
    by apply NoDup_app in Hnd as [? _].
  - destruct (schedule_front q t rest Hq Hs) as (Hfresh & _ & _).
    intros x. rewrite Hs. clear -Hfresh. case_bool_decide; set_solver.
Qed.

Lemma skipped_view s : tenant_work (skipped q t tq rest) s = tenant_work q s.
Proof.
  unfold tenant_work, skipped. simpl. destruct (decide (s = t)) as [->|].
  - by rewrite lookup_insert_eq, Ht.
  - by rewrite lookup_insert_ne.
Qed.

Lemma after_service_view s :
  tenant_work (after_service q t tq w ws rest) s =
    if decide (s = t) then ws else tenant_work q s.
Proof.
  unfold tenant_work, after_service. simpl. destruct (decide (s = t)) as [->|].
  - by rewrite lookup_partial_alter_eq, work_settle.
  - by rewrite lookup_partial_alter_ne.
Qed.
End visits.

(** *** Progress of the loop

    A tenant passed over gains at least one unit of deficit, so the loop serves
    within [slack] iterations; [rank] bounds the iterations before a given
    tenant is served. *)

Definition deficit_of (q : BoundedFairQueue) (t : TenantId) : Z :=
  match tenants q !! t with Some tq => deficit tq | None => 0 end.

Definition missing (q : BoundedFairQueue) (t : TenantId) : nat :=
  Z.to_nat (FAIRNESS_QUANTUM - 1 - deficit_of q t).

Definition slack (q : BoundedFairQueue) : nat := sum_list_with (missing q) (schedule q).

Fixpoint index (t : TenantId) (l : list TenantId) : nat :=
  match l with
  | [] => 0
  | x :: l' => if decide (x = t) then 0 else S (index t l')
  end.

Definition rank (n : nat) (q : BoundedFairQueue) (t : TenantId) : nat :=
  (missing q t * n + index t (schedule q))%nat.

Definition served (q q' : BoundedFairQueue) (w : QueuedWork) : Prop :=
  ∃ ws, tenant_work q (work_tenant_id w) = w :: ws ∧
    ∀ s, tenant_work q' s = if decide (s = work_tenant_id w) then ws else tenant_work q s.

Lemma index_app_l t l k : t ∈ l → index t (l ++ k) = index t l.
Proof.
  induction l as [|x l IH]; simpl; [set_solver|]. intros Hin.
  case_decide; [done|]. f_equal. apply IH. set_solver.
Qed.

Lemma index_app_r t l : t ∉ l → index t (l ++ [t]) = length l.
Proof.
  induction l as [|x l IH]; simpl; intros Hin; [by rewrite decide_True|].
  rewrite decide_False by set_solver. f_equal. apply IH. set_solver.
Qed.

Lemma index_lt t l : t ∈ l → (index t l < length l)%nat.
Proof.
  induction l as [|x l IH]; simpl; intros Hin; [set_solver|].
  case_decide; [lia|]. assert (t ∈ l) as Hl by set_solver. specialize (IH Hl). lia.
Qed.

Lemma index_filter (P : TenantId → Prop) `{!∀ x, Decision (P x)} t l :
  P t → (index t (filter P l) ≤ index t l)%nat.
Proof.
  intros Ht. induction l as [|x l IH]; [done|]. rewrite filter_cons. simpl.
  destruct (decide (P x)); simpl; repeat case_decide; subst; simpl; try done; lia.
Qed.

Lemma missing_le q t : wf q → (missing q t ≤ 99)%nat.
Proof.
  intros Hq. unfold missing, deficit_of, FAIRNESS_QUANTUM.
  destruct (tenants q !! t) as [tq|] eqn:Ht; [|lia].
  destruct (wf_tenants _ Hq t tq Ht) as [_ Hd _ _]. lia.
Qed.

Lemma slack_le q : wf q → (slack q ≤ 99 * length (schedule q))%nat.
Proof.
  intros Hq. unfold slack. induction (schedule q) as [|t l IH]; simpl; [lia|].
  pose proof (missing_le q t Hq). lia.
Qed.

Lemma sum_list_with_ext {A} (f g : A → nat) l :
  (∀ x, x ∈ l → f x = g x) → sum_list_with f l = sum_list_with g l.
Proof.
  induction l as [|x l IH]; simpl; intros Hext; [done|].
  rewrite IH by set_solver. rewrite (Hext x) by set_solver. done.
Qed.

Lemma missing_skipped q t tq rest s :
  missing (skipped q t tq rest) s =
    if decide (s = t) then Z.to_nat (FAIRNESS_QUANTUM - 1 - (deficit tq + weight tq))
    else missing q s.
Proof.
  unfold missing, deficit_of, skipped. simpl. destruct (decide (s = t)) as [->|].
  - by rewrite lookup_insert_eq.
  - by rewrite lookup_insert_ne.
Qed.

Lemma missing_after_service q t tq w ws rest s :
  s ≠ t → missing (after_service q t tq w ws rest) s = missing q s.
Proof.
  intros Hs. unfold missing, deficit_of, after_service. simpl.
  by rewrite lookup_partial_alter_ne.
Qed.

Lemma skipped_slack q t tq rest :
  t ∉ rest → schedule q = t :: rest → tenants q !! t = Some tq →
  1 ≤ weight tq → 0 ≤ deficit tq → deficit tq + weight tq < FAIRNESS_QUANTUM →
  (slack (skipped q t tq rest) < slack q)%nat.
Proof.
  intros Hfresh Hs Ht Hw Hd Hlow. unfold slack. rewrite Hs. simpl.
  rewrite sum_list_with_app. simpl. rewrite missing_skipped, decide_True by done.
  rewrite (sum_list_with_ext (missing (skipped q t tq rest)) (missing q) rest).
  - unfold missing at 2, deficit_of. rewrite Ht. lia.
  - intros s Hin. rewrite missing_skipped, decide_False; [done|congruence].
Qed.

Lemma skipped_rank n q t tq rest s :
  t ∉ rest → schedule q = t :: rest → tenants q !! t = Some tq →
  1 ≤ weight tq → 0 ≤ deficit tq → deficit tq + weight tq < FAIRNESS_QUANTUM →
  s ∈ schedule q → (length (schedule q) ≤ n)%nat →
  (rank n (skipped q t tq rest) s < rank n q s)%nat.
Proof.
  intros Hfresh Hs Ht Hw Hd Hlow Hin Hlen. unfold rank. rewrite missing_skipped, Hs in *.
  simpl in *. destruct (decide (s = t)) as [->|Hne].
  - rewrite decide_True, index_app_r by done.
    unfold missing, deficit_of. rewrite Ht.
    replace (Z.to_nat (FAIRNESS_QUANTUM - 1 - deficit tq)) with
      (Z.to_nat (FAIRNESS_QUANTUM - 1 - (deficit tq + weight tq)) + Z.to_nat (weight tq))%nat
      by (unfold FAIRNESS_QUANTUM in *; lia).
    destruct (Z.to_nat (weight tq)) eqn:?; lia.
  - rewrite (decide_False (P := t = s)) by congruence.
    rewrite index_app_l by set_solver. lia.
Qed.

Lemma after_service_rank n q t tq w ws rest s :
  t ∉ rest → schedule q = t :: rest → s ∈ schedule q → s ≠ t →
  (rank n (after_service q t tq w ws rest) s < rank n q s)%nat.
Proof.
  intros Hfresh Hs Hin Hne. unfold rank. rewrite missing_after_service by done.
  rewrite Hs in *. simpl. rewrite (decide_False (P := t = s)) by congruence.
  case_bool_decide; [lia|]. rewrite index_app_l by set_solver. lia.
Qed.

Lemma dequeue_loop_spec n : ∀ q,
  wf q → schedule q ≠ [] → (slack q < n)%nat →
  ∃ q' w, dequeue_loop n q = (q', Ok (Some w)) ∧ wf q' ∧ served q q' w ∧
    (length (schedule q') ≤ length (schedule q))%nat ∧
    ∀ m s, s ∈ schedule q → (length (schedule q) ≤ m)%nat →
      s ≠ work_tenant_id w → (rank m q' s < rank m q s)%nat.
Proof.
  induction n as [|n IH]; intros q Hq Hne Hslack; [lia|].
  destruct (schedule q) as [|t rest] eqn:Hs; [done|]. clear Hne.
  destruct (schedule_front q t rest Hq Hs) as (Hfresh & Hnd & tq & w & ws & Ht & Hwork & Hown & Hw & Hd).
  cbn [dequeue_loop]. unfold mbind, M_bind, M_get. rewrite Hs.
  rewrite (run_visit q t rest tq w ws Hq Ht Hwork Hw Hd).
  destruct (Z.ltb_spec (deficit tq + weight tq) FAIRNESS_QUANTUM) as [Hlow|Hhigh].
  - destruct (IH (skipped q t tq rest)) as (q' & w' & Hrun & Hwf & Hserved & Hlen & Hrank).
    + eapply skipped_wf; eauto.
    + simpl. by destruct rest.
    + assert (slack (skipped q t tq rest) < slack q)%nat by (apply skipped_slack; done || lia). lia.
    + assert (length (rest ++ [t]) = S (length rest)) as Hrot by (rewrite length_app; simpl; lia).
      exists q', w'. split; [exact Hrun|]. split_and!; [done| | |].
      * destruct Hserved as (ws' & Hhead & Hrest). exists ws'.
        rewrite (skipped_view q t rest tq Ht) in Hhead. split; [done|].
        intros s. rewrite Hrest. by rewrite (skipped_view q t rest tq Ht).
      * simpl in *. lia.
      * intros m s Hin Hm Hne. rewrite <- Hs in Hin. transitivity (rank m (skipped q t tq rest) s).
        -- apply Hrank; simpl; [rewrite Hs in Hin; set_solver| |done]. simpl in *. lia.
        -- apply skipped_rank; try done; [lia|lia|by rewrite Hs].
  - exists (after_service q t tq w ws rest), w. split; [done|]. split_and!.
    + eapply after_service_wf; eauto.
    + exists ws. rewrite Hown. split; [unfold tenant_work; by rewrite Ht|].
      intros s. by apply after_service_view.
    + simpl. case_bool_decide; [lia|]. rewrite length_app. simpl. lia.
    + intros m s Hin Hm Hne. apply after_service_rank; first [done | by rewrite Hs | congruence].
Qed.

(** [dequeue] as one call: the queue after expiry, and the service. *)
Lemma dequeue_run now q :
  wf q →
  ∃ q1 es, expire now q = (q1, Ok es) ∧ wf q1 ∧
    (∀ t, tenant_work q1 t = filter (unexpired now) (tenant_work q t)) ∧
    (length (schedule q1) ≤ length (schedule q))%nat ∧
    (∀ m t, tenant_work q1 t ≠ [] → (rank m q1 t ≤ rank m q t)%nat) ∧
    (schedule q1 = [] ∧ dequeue now q = (q1, Ok None) ∨
     schedule q1 ≠ [] ∧
     ∃ q' w, dequeue now q = (q', Ok (Some w)) ∧ wf q' ∧ served q1 q' w ∧
       (length (schedule q') ≤ length (schedule q1))%nat ∧
       ∀ m s, s ∈ schedule q1 → (length (schedule q1) ≤ m)%nat →
         s ≠ work_tenant_id w → (rank m q' s < rank m q1 s)%nat).
Proof.
  intros Hq. destruct (expire_spec now q Hq) as (q1 & Hrun & Hwf & Hlim & Hm & Hs).
  assert (∀ t, tenant_work q1 t = filter (unexpired now) (tenant_work q t)) as Hview.
  { intros t. by apply tenant_work_omap. }
  exists q1. eexists. split; [exact Hrun|]. split_and!; [done|done| | |].
  - rewrite Hs. apply length_filter.
  - intros m t Hne. assert (is_Some (tenants q1 !! t)) as Hsome.
    { unfold tenant_work in Hne. by destruct (tenants q1 !! t). }
    unfold rank, missing, deficit_of. rewrite Hs.
    pose proof (index_filter (λ t, is_Some (tenants q1 !! t)) t (schedule q) Hsome).
    destruct Hsome as [tq1 Hsome]. rewrite Hsome.
    rewrite Hm, lookup_omap in Hsome.
    destruct (tenants q !! t) as [tq|]; [|done]. simpl in Hsome.
    unfold live, settle in Hsome. case_bool_decide; simplify_eq/=. lia.
  - unfold dequeue, mbind, M_bind, M_get. rewrite Hrun.
    destruct (decide (schedule q1 = [])) as [Hnil|Hnil]; [left; by rewrite Hnil|].
    right. split; [done|]. apply dequeue_loop_spec; [done|done|].
    pose proof (slack_le q1 Hwf). assert (0 < length (schedule q1))%nat by (destruct (schedule q1); simpl; [done|lia]).
    assert (Z.of_nat (length (schedule q1)) ≤ 1000000).
    { pose proof (wf_cardinality _ Hwf). pose proof (wf_limits _ Hwf) as Hl.
      unfold limits_is_valid in Hl.
      assert (length (schedule q1) ≤ size (tenants q1))%nat; [|lia].
      rewrite <- size_dom.
      rewrite <- (size_list_to_set (C := gset TenantId) (schedule q1)) by apply Hwf.
      apply subseteq_size. intros t Ht%elem_of_list_to_set. apply elem_of_dom.
      apply (wf_schedule _ Hwf) in Ht as (tq & Ht & _). eauto. }
    unfold u64_max, FAIRNESS_QUANTUM. lia.
Qed.

(** ** The promise of the queue: one FIFO per tenant

    [fifo_step] is the abstract specification, on the view that maps a tenant
    to its pending work; it has no step that panics. *)

Inductive op : Type :=
| OpSetWeight (t : TenantId) (w : Z)
| OpEnqueue (w : QueuedWork) (now : Z)
| OpCancel (key : string)
| OpDequeue (now : Z)
| OpExpire (now : Z).

Inductive outcome : Type :=
| Done
| Refused (e : QueueRejection)
| Taken (w : option QueuedWork)
| Dropped (ws : list QueuedWork)
| Crashed (message : string).

Definition report {A} (f : A → outcome) (r : BoundedFairQueue * result (failure QueueRejection) A) :
    BoundedFairQueue * outcome :=
  (r.1, match r.2 with
        | Ok a => f a
        | Err (Rejected e) => Refused e
        | Err (Panicked m) => Crashed m
        end).

Definition exec (o : op) (q : BoundedFairQueue) : BoundedFairQueue * outcome :=
  match o with
  | OpSetWeight t w => report (λ _, Done) (set_tenant_weight t w q)
  | OpEnqueue w now => report (λ _, Done) (enqueue w now q)
  | OpCancel key => report Taken (cancel key q)
  | OpDequeue now => report Taken (dequeue now q)
  | OpExpire now => report Dropped (expire now q)
  end.

Fixpoint exec_all (os : list op) (q : BoundedFairQueue) : BoundedFairQueue * list outcome :=
  match os with
  | [] => (q, [])
  | o :: os' =>
      let r := exec o q in
      let rs := exec_all os' r.1 in
      (rs.1, r.2 :: rs.2)
  end.

Definition view : Type := TenantId → list QueuedWork.
Definition replaced (t : TenantId) (ws : list QueuedWork) (v v' : view) : Prop :=
  ∀ s, v' s = if decide (s = t) then ws else v s.
Definition unchanged (v v' : view) : Prop := ∀ s, v' s = v s.

Inductive fifo_step : view → op → outcome → view → Prop :=
| fifo_weight v v' t w out :
    out = Done ∨ out = Refused InvalidWeight ∨ out = Refused TenantCardinality →
    unchanged v v' → fifo_step v (OpSetWeight t w) out v'
| fifo_refused v v' w now e :
    unchanged v v' → fifo_step v (OpEnqueue w now) (Refused e) v'
| fifo_appended v v' w now :
    work_is_valid w now = true →
    (∀ s w', w' ∈ v s → idempotency_key w' ≠ idempotency_key w) →
    replaced (work_tenant_id w) (v (work_tenant_id w) ++ [w]) v v' →
    fifo_step v (OpEnqueue w now) Done v'
| fifo_not_found v v' key :
    (∀ s w, w ∈ v s → idempotency_key w ≠ key) →
    unchanged v v' → fifo_step v (OpCancel key) (Taken None) v'
| fifo_cancelled v v' w l1 l2 :
    v (work_tenant_id w) = l1 ++ w :: l2 →
    replaced (work_tenant_id w) (l1 ++ l2) v v' →
    fifo_step v (OpCancel (idempotency_key w)) (Taken (Some w)) v'
| fifo_idle v v' now :
    (∀ s, filter (unexpired now) (v s) = []) → (∀ s, v' s = []) →
    fifo_step v (OpDequeue now) (Taken None) v'
| fifo_served v v' w ws now :
    filter (unexpired now) (v (work_tenant_id w)) = w :: ws →
    replaced (work_tenant_id w) ws (λ s, filter (unexpired now) (v s)) v' →
    fifo_step v (OpDequeue now) (Taken (Some w)) v'
| fifo_expired v v' now ws :
    (∀ w, w ∈ ws ↔ ∃ s, w ∈ v s ∧ ¬ unexpired now w) → NoDup ws →
    (∀ s, v' s = filter (unexpired now) (v s)) →
    fifo_step v (OpExpire now) (Dropped ws) v'.

Inductive fifo_run : view → list op → list outcome → view → Prop :=
| fifo_run_nil v v' : unchanged v v' → fifo_run v [] [] v'
| fifo_run_cons v v1 v' o os out outs :
    fifo_step v o out v1 → fifo_run v1 os outs v' → fifo_run v (o :: os) (out :: outs) v'.

Lemma wf_own q t w : wf q → w ∈ tenant_work q t → work_tenant_id w = t.
Proof.
  intros Hq (tq & Ht & Hin)%elem_of_tenant_work.
  destruct (wf_tenants _ Hq t tq Ht) as [_ _ _ Ho]. rewrite Forall_forall in Ho. auto.
Qed.

Lemma elem_of_view q w : w ∈ all_work (tenants q) ↔ ∃ t, w ∈ tenant_work q t.
Proof.
  rewrite elem_of_all_work. setoid_rewrite elem_of_tenant_work. done.
Qed.

Lemma NoDup_all_work q : wf q → NoDup (all_work (tenants q)).
Proof. intros Hq. destruct (wf_accounts _ Hq) as [_ _ Hnd]. by apply NoDup_fmap_1 in Hnd. Qed.

Lemma NoDup_tenant_work q t : wf q → NoDup (tenant_work q t).
Proof.
  intros Hq. unfold tenant_work. destruct (tenants q !! t) as [tq|] eqn:Ht; [|constructor].
  pose proof (NoDup_all_work q Hq) as Hnd. rewrite (all_work_lookup _ _ _ Ht) in Hnd.
  by apply NoDup_app in Hnd as [? _].
Qed.

Lemma expired_work_elem now q w :
  w ∈ expired_work now q (btree_keys (tenants q)) ↔
    ∃ s, w ∈ tenant_work q s ∧ ¬ unexpired now w.
Proof.
  unfold expired_work. rewrite list_elem_of_bind. split.
  - intros (t & Hw & Ht). apply list_elem_of_filter in Hw as [Hexp Hw]. eauto.
  - intros (t & Hw & Hexp). exists t. rewrite list_elem_of_filter. split; [done|].
    apply elem_of_btree_keys. apply elem_of_tenant_work in Hw as (tq & Ht & _). eauto.
Qed.

Lemma expired_work_nodup now q : wf q → NoDup (expired_work now q (btree_keys (tenants q))).
Proof.
  intros Hq. apply NoDup_bind.
  - intros t1 t2 w _ _ [_ H1]%list_elem_of_filter [_ H2]%list_elem_of_filter.
    apply (wf_own _ _ _ Hq) in H1, H2. congruence.
  - intros t _. by apply NoDup_filter, NoDup_tenant_work.
  - apply NoDup_btree_keys.
Qed.

Lemma exec_step o q :
  wf q → wf (exec o q).1 ∧ fifo_step (tenant_work q) o (exec o q).2 (tenant_work (exec o q).1).
Proof.
  intros Hq. destruct o as [t w|w now|key|now|now]; unfold exec, report.
  - destruct (set_tenant_weight t w q) as [q' r] eqn:Hrun. simpl.
    apply (set_tenant_weight_spec _ _ _ _ _ Hq) in Hrun.
    destruct r as [u|[e|m]]; [| |done].
    + destruct Hrun as (_ & Hwf & _ & _ & _ & _ & Hm). split; [done|].
      constructor; [by left|]. intros s. unfold tenant_work. rewrite Hm.
      destruct (decide (s = t)) as [->|].
      * rewrite lookup_insert_eq. by destruct (tenants q !! t).
      * by rewrite lookup_insert_ne.
    + destruct Hrun as [-> [[-> _]|[-> _]]]; (split; [done|]); constructor; auto; done.
  - destruct (enqueue w now q) as [q' r] eqn:Hrun. simpl.
    apply (enqueue_cases _ _ _ _ _ Hq) in Hrun. destruct r as [u|[e|m]]; [| |done].
    + destruct Hrun as (Hwf & Hok & Hview). split; [done|]. apply fifo_appended.
      * destruct (work_is_valid w now) eqn:Hv; [done|]. by destruct (Hok InvalidRequest).
      * intros s w' Hw' Hkey. destruct (Hok Duplicate). exists w'.
        split; [apply elem_of_view; eauto|done].
      * intros s. rewrite Hview. case_decide; [by subst|done].
    + destruct Hrun as [-> _]. split; [done|]. by apply fifo_refused.
  - destruct (cancel key q) as [q' r] eqn:Hrun. simpl.
    apply (cancel_cases _ _ _ _ Hq) in Hrun as ([w|] & -> & Hwf & Hview); (split; [done|]).
    + destruct Hview as (<- & l1 & l2 & Hsplit & Hrest). by apply fifo_cancelled with l1 l2.
    + destruct Hview as [-> Hnone]. apply fifo_not_found; [|done].
      intros s w Hw. apply Hnone, elem_of_view. eauto.
  - destruct (dequeue_run now q Hq) as (q1 & es & _ & Hwf1 & Hview & _ & _ & Hcases).
    destruct Hcases as [[Hnil ->]|(Hnil & q' & w & -> & Hwf & Hserved & _)]; simpl.
    + assert (∀ s, tenant_work q1 s = []) as Hempty.
      { intros s. destruct (decide (tenant_work q1 s = [])) as [|Hne]; [done|].
        apply (elem_of_schedule _ _ Hwf1) in Hne. rewrite Hnil in Hne. set_solver. }
      split; [done|]. apply fifo_idle; [|done]. intros s. by rewrite <- Hview.
    + destruct Hserved as (ws & Hhead & Hrest). split; [done|]. apply fifo_served with ws.
      * by rewrite <- Hview.
      * intros s. rewrite Hrest. case_decide; [done|]. apply Hview.
  - destruct (expire_spec now q Hq) as (q' & -> & Hwf & _ & Hm & _). simpl. split; [done|].
    apply fifo_expired.
    + intros w. apply expired_work_elem.
    + by apply expired_work_nodup.
    + intros s. by apply tenant_work_omap.
Qed.

Lemma new_wf l q : new l = Ok q → wf q ∧ ∀ t, tenant_work q t = [].
Proof.
  unfold new. destruct (limits_is_valid l) eqn:Hl; [|done]. intros [= <-]. split.
  - unfold limits_is_valid in Hl. split; simpl.
    + done.
    + split; simpl; [done|done|constructor].
    + apply map_Forall_empty.
    + constructor.
    + intros t. split; [set_solver|]. intros (tq & Ht & _). by rewrite lookup_empty in Ht.
    + lia.
    + rewrite map_size_empty. lia.
  - intros t. unfold tenant_work. simpl. by rewrite lookup_empty.
Qed.

Lemma exec_all_step os : ∀ q,
  wf q →
  wf (exec_all os q).1 ∧
  fifo_run (tenant_work q) os (exec_all os q).2 (tenant_work (exec_all os q).1).
Proof.
  induction os as [|o os IH]; intros q Hq; simpl.
  - split; [done|]. by constructor.
  - destruct (exec_step o q Hq) as [Hwf Hstep]. destruct (IH _ Hwf) as [Hwf' Hrun].
    split; [done|]. by econstructor.
Qed.

(** ** Fairness

    [credit] is what one call of the loop does to a tenant [a] that still has
    work afterwards: [n] visits, each worth its weight, and [k] services, each
    worth a quantum.  [turn a b] tells whose turn comes next in the schedule. *)

Definition weight_of (q : BoundedFairQueue) (t : TenantId) : Z :=
  match tenants q !! t with Some tq => weight tq | None => 1 end.

Definition credit (q q' : BoundedFairQueue) (a : TenantId) (n k : Z) : Prop :=
  weight_of q' a = weight_of q a ∧
  FAIRNESS_QUANTUM * k = n * weight_of q a + deficit_of q a - deficit_of q' a.

Definition turn (q : BoundedFairQueue) (a b : TenantId) : Z :=
  if decide (index b (schedule q) < index a (schedule q))%nat then 1 else 0.

Definition serves (a : TenantId) (o : option QueuedWork) : Z :=
  match o with
  | Some w => if decide (work_tenant_id w = a) then 1 else 0
  | None => 0
  end.

Definition shares (q q' : BoundedFairQueue) (a b : TenantId) (ka kb : Z) : Prop :=
  ∃ na nb, credit q q' a na ka ∧ credit q q' b nb kb ∧
    na - nb = turn q' a b - turn q a b.

Lemma credit_refl q a : credit q q a 0 0.
Proof. split; [done|]. lia. Qed.

Lemma credit_trans q1 q2 q3 a n k n' k' :
  credit q1 q2 a n k → credit q2 q3 a n' k' → credit q1 q3 a (n + n') (k + k').
Proof. intros [Hw1 H1] [Hw2 H2]. rewrite Hw1 in *. split; [done|]. lia. Qed.

Lemma shares_refl q a b : shares q q a b 0 0.
Proof. exists 0, 0. split_and!; [apply credit_refl..|lia]. Qed.

Lemma shares_trans q1 q2 q3 a b ka kb ka' kb' :
  shares q1 q2 a b ka kb → shares q2 q3 a b ka' kb' → shares q1 q3 a b (ka + ka') (kb + kb').
Proof.
  intros (na & nb & Ha & Hb & Ht) (na' & nb' & Ha' & Hb' & Ht').
  exists (na + na'), (nb + nb'). split_and!; [by eapply credit_trans..|lia].
Qed.

Lemma index_inj a b l : a ∈ l → b ∈ l → index a l = index b l → a = b.
Proof.
  induction l as [|x l IH]; simpl; [set_solver|]. intros Ha Hb.
  repeat case_decide; subst; try done. intros [= Heq]. apply IH; set_solver.
Qed.

(** Moving the front tenant to the back changes the turn of the pairs it is in. *)
Lemma turn_rotate q q' a b t rest :
  schedule q = t :: rest → t ∉ rest → a ≠ b →
  (a ∈ rest ∨ a = t) → (b ∈ rest ∨ b = t) →
  schedule q' = rest ++ [t] ∨ (schedule q' = rest ∧ a ≠ t ∧ b ≠ t) →
  turn q' a b - turn q a b =
    (if decide (a = t) then 1 else 0) - (if decide (b = t) then 1 else 0).
Proof.
  intros Hs Hfresh Hne Ha Hb Hs'. unfold turn. rewrite Hs. simpl.
  assert (∀ c, c ∈ rest → index c (schedule q') = index c rest) as Hin.
  { intros c Hc. destruct Hs' as [->|[-> _]]; [by apply index_app_l|done]. }
  assert (a = t ∨ b = t → index t (schedule q') = length rest) as Hback.
  { intros Hor. destruct Hs' as [->|(_ & ? & ?)]; [by apply index_app_r|tauto]. }
  assert (∀ c, c ∈ rest → (index c rest < length rest)%nat) as Hlt by (intros; by apply index_lt).
  destruct (decide (a = t)) as [->|Hat].
  - assert (b ∈ rest) as Hbr by (destruct Hb; congruence). specialize (Hlt b Hbr).
    rewrite Hback, (Hin b Hbr), (decide_True (P := t = t)) by tauto.
    rewrite (decide_False (P := t = b)), (decide_False (P := b = t)) by congruence.
    rewrite decide_True, decide_False by lia. lia.
  - assert (a ∈ rest) as Har by tauto. rewrite (Hin a Har), (decide_False (P := t = a)) by congruence.
    destruct (decide (b = t)) as [->|Hbt].
    + rewrite Hback by tauto. specialize (Hlt a Har).
      rewrite (decide_True (P := t = t)) by done. rewrite decide_False, decide_True by lia. lia.
    + rewrite (Hin b), (decide_False (P := t = b)) by (congruence || by destruct Hb).
      repeat case_decide; lia.
Qed.

Lemma credit_skipped q t tq rest a :
  tenants q !! t = Some tq →
  credit q (skipped q t tq rest) a (if decide (a = t) then 1 else 0) 0.
Proof.
  intros Ht. unfold credit, weight_of, deficit_of, skipped. simpl.
  destruct (decide (a = t)) as [->|Hne].
  - rewrite lookup_insert_eq, Ht. simpl. lia.
  - rewrite lookup_insert_ne by done. lia.
Qed.

Lemma credit_served q t tq w ws rest a :
  tenants q !! t = Some tq → ws ≠ [] ∨ a ≠ t → work_tenant_id w = t →
  credit q (after_service q t tq w ws rest) a
    (if decide (a = t) then 1 else 0) (serves a (Some w)).
Proof.
  intros Ht Hor Hown. unfold credit, weight_of, deficit_of, after_service, serves. simpl.
  rewrite Hown. destruct (decide (a = t)) as [->|Hne].
  - rewrite lookup_partial_alter_eq, Ht, decide_True by done. unfold settle.
    rewrite bool_decide_false by tauto. simpl. lia.
  - rewrite lookup_partial_alter_ne, decide_False by congruence. lia.
Qed.

Lemma shares_skipped q t tq rest a b :
  wf q → schedule q = t :: rest → tenants q !! t = Some tq → a ≠ b →
  a ∈ schedule q → b ∈ schedule q → shares q (skipped q t tq rest) a b 0 0.
Proof.
  intros Hq Hs Ht Hne Ha Hb. destruct (schedule_front q t rest Hq Hs) as (Hfresh & _).
  rewrite Hs in Ha, Hb. apply elem_of_cons in Ha, Hb. eexists _, _. split_and!.
  - by apply credit_skipped.
  - by apply credit_skipped.
  - symmetry. apply turn_rotate with rest; tauto.
Qed.

Lemma shares_served q t tq w ws rest a b :
  wf q → schedule q = t :: rest → tenants q !! t = Some tq → work_tenant_id w = t → a ≠ b →
  a ∈ schedule (after_service q t tq w ws rest) →
  b ∈ schedule (after_service q t tq w ws rest) →
  a ∈ schedule q ∧ b ∈ schedule q ∧
  shares q (after_service q t tq w ws rest) a b (serves a (Some w)) (serves b (Some w)).
Proof.
  intros Hq Hs Ht Hown Hne. destruct (schedule_front q t rest Hq Hs) as (Hfresh & _).
  simpl. intros Ha Hb.
  assert (∀ c, c ∈ (if bool_decide (ws = []) then rest else rest ++ [t]) →
               (c ∈ rest ∨ c = t) ∧ (ws ≠ [] ∨ c ≠ t)) as Hcase.
  { intros c. case_bool_decide; [|set_solver].
    intros Hc. split; [by left|]. right. congruence. }
  destruct (Hcase a Ha) as [Ha1 Ha2], (Hcase b Hb) as [Hb1 Hb2]. clear Hcase.
  rewrite Hs. split_and!; [set_solver..|]. eexists _, _. split_and!.
  - by apply credit_served.
  - by apply credit_served.
  - symmetry. apply turn_rotate with rest; try done. simpl.
    case_bool_decide; [right; naive_solver | by left].
Qed.

Lemma dequeue_loop_shares n : ∀ q q' o a b,
  wf q → dequeue_loop n q = (q', Ok o) → a ≠ b → a ∈ schedule q' → b ∈ schedule q' →
  a ∈ schedule q ∧ b ∈ schedule q ∧ shares q q' a b (serves a o) (serves b o).
Proof.
  induction n as [|n IH]; intros q q' o a b Hq Hrun Hne Ha Hb.
  { injection Hrun as <- <-. split_and!; [done..|]. apply shares_refl. }
  cbn [dequeue_loop] in Hrun. unfold mbind, M_bind, M_get in Hrun.
  destruct (schedule q) as [|t rest] eqn:Hs.
  { injection Hrun as <- <-. rewrite Hs in Ha. set_solver. }
  destruct (schedule_front q t rest Hq Hs) as (Hfresh & Hnd & tq & w & ws & Ht & Hwork & Hown & Hw & Hd).
  rewrite (run_visit q t rest tq w ws Hq Ht Hwork Hw Hd) in Hrun.
  destruct (Z.ltb_spec (deficit tq + weight tq) FAIRNESS_QUANTUM) as [Hlow|Hhigh].
  - apply IH with (a := a) (b := b) in Hrun as (Ha' & Hb' & Hsh); try done.
    2: { eapply skipped_wf; eauto. }
    assert (∀ c, c ∈ schedule (skipped q t tq rest) → c ∈ schedule q) as Hrot.
    { intros c. rewrite Hs. simpl. set_solver. }
    rewrite <- Hs. split_and!; [by apply Hrot..|].
    rewrite <- (Z.add_0_l (serves a o)), <- (Z.add_0_l (serves b o)).
    eapply shares_trans; [|exact Hsh]. apply shares_skipped; auto.
  - injection Hrun as <- <-. rewrite <- Hs. by apply shares_served.
Qed.

Lemma index_filter_lt (P : TenantId → Prop) `{!∀ x, Decision (P x)} a b l :
  P a → P b → a ∈ l → b ∈ l →
  (index b (filter P l) < index a (filter P l))%nat ↔ (index b l < index a l)%nat.
Proof.
  intros HPa HPb. induction l as [|x l IH]; [set_solver|].
  intros Ha%elem_of_cons Hb%elem_of_cons. rewrite filter_cons.
  destruct (decide (P x)); simpl; repeat case_decide; subst; try done; try lia.
  - destruct Ha, Hb; [congruence..|]. rewrite <- !Nat.succ_lt_mono. auto.
  - destruct Ha, Hb; [congruence..|]. rewrite IH by done. lia.
Qed.

Lemma shares_expire now q q1 a b :
  wf q → wf q1 → tenants q1 = omap (live now) (tenants q) →
  schedule q1 = filter (λ t, is_Some (tenants q1 !! t)) (schedule q) →
  a ∈ schedule q1 → b ∈ schedule q1 →
  a ∈ schedule q ∧ b ∈ schedule q ∧ shares q q1 a b 0 0.
Proof.
  intros Hq Hq1 Hm Hs Ha Hb. rewrite Hs in Ha, Hb.
  apply list_elem_of_filter in Ha as [HPa Ha], Hb as [HPb Hb]. split_and!; [done..|].
  assert (∀ c, is_Some (tenants q1 !! c) → credit q q1 c 0 0) as Hcredit.
  { intros c [x Hc]. rewrite Hm, lookup_omap in Hc. unfold credit, weight_of, deficit_of.
    rewrite Hm, lookup_omap. destruct (tenants q !! c) as [tq|]; [|done]. simpl in *.
    unfold live, settle in *. case_bool_decide; simplify_eq/=. lia. }
  exists 0, 0. split_and!; [by apply Hcredit..|]. unfold turn. rewrite Hs.
  rewrite (decide_ext _ _ _ _ (index_filter_lt (λ t, is_Some (tenants q1 !! t)) a b (schedule q) HPa HPb Ha Hb)).
  lia.
Qed.

(** [n] calls of [dequeue] at the time [now]. *)
Fixpoint dequeue_times (now : Z) (n : nat) : Q (list (option QueuedWork)) :=
  match n with
  | O => mret []
  | S n' => r ← dequeue now; rs ← dequeue_times now n'; mret (r :: rs)
  end.

Fixpoint services (a : TenantId) (rs : list (option QueuedWork)) : Z :=
  match rs with [] => 0 | r :: rs' => serves a r + services a rs' end.

Lemma dequeue_shares now q q' o a b :
  wf q → dequeue now q = (q', Ok o) → a ≠ b → a ∈ schedule q' → b ∈ schedule q' →
  wf q' ∧ a ∈ schedule q ∧ b ∈ schedule q ∧ shares q q' a b (serves a o) (serves b o).
Proof.
  intros Hq Hrun Hne Ha Hb.
  assert (wf q') as Hq'.
  { pose proof (exec_step (OpDequeue now) q Hq) as [Hwf _]. simpl in Hwf. by rewrite Hrun in Hwf. }
  destruct (expire_spec now q Hq) as (q1 & He & Hq1 & _ & Hm & Hs).
  unfold dequeue, mbind, M_bind, M_get in Hrun. rewrite He in Hrun.
  apply dequeue_loop_shares with (a := a) (b := b) in Hrun as (Ha1 & Hb1 & Hsh); try done.
  destruct (shares_expire now q q1 a b Hq Hq1 Hm Hs Ha1 Hb1) as (Ha0 & Hb0 & Hsh0).
  split_and!; [done..|]. rewrite <- (Z.add_0_l (serves a o)), <- (Z.add_0_l (serves b o)).
  by eapply shares_trans.
Qed.

Lemma dequeue_times_shares now n : ∀ q q' rs a b,
  wf q → dequeue_times now n q = (q', Ok rs) → a ≠ b → a ∈ schedule q' → b ∈ schedule q' →
  wf q' ∧ a ∈ schedule q ∧ b ∈ schedule q ∧ shares q q' a b (services a rs) (services b rs).
Proof.
  induction n as [|n IH]; intros q q' rs a b Hq Hrun Hne Ha Hb; simpl in Hrun.
  { injection Hrun as <- <-. split_and!; [done..|]. apply shares_refl. }
  apply M_bind_Ok_inv in Hrun as (o & q1 & Hstep & Hrun).
  apply M_bind_Ok_inv in Hrun as (os & q2 & Hrest & Hrun). injection Hrun as -> <-.
  assert (wf q1) as Hq1.
  { pose proof (exec_step (OpDequeue now) q Hq) as [Hwf _]. simpl in Hwf. by rewrite Hstep in Hwf. }
  destruct (IH _ _ _ a b Hq1 Hrest Hne Ha Hb) as (Hq' & Ha1 & Hb1 & Hsh1).
  destruct (dequeue_shares _ _ _ _ a b Hq Hstep Hne Ha1 Hb1) as (_ & Ha0 & Hb0 & Hsh0).
  split_and!; [done..|]. by eapply shares_trans.
Qed.

Lemma deficit_of_range q t : wf q → 0 ≤ deficit_of q t < FAIRNESS_QUANTUM.
Proof.
  intros Hq. unfold deficit_of. destruct (tenants q !! t) as [tq|] eqn:Ht.
  - apply (wf_tenants _ Hq t tq Ht).
  - unfold FAIRNESS_QUANTUM. lia.
Qed.

Lemma weight_of_range q t : wf q → 1 ≤ weight_of q t ≤ 100.
Proof.
  intros Hq. unfold weight_of. destruct (tenants q !! t) as [tq|] eqn:Ht; [|lia].
  apply (wf_tenants _ Hq t tq Ht).
Qed.

Lemma turn_range q a b : 0 ≤ turn q a b ≤ 1.
Proof. unfold turn. case_decide; lia. Qed.

Lemma dequeue_rank now q t w ws n :
  wf q → filter (unexpired now) (tenant_work q t) = w :: ws →
  (length (schedule q) ≤ n)%nat →
  ∃ q' w', dequeue now q = (q', Ok (Some w')) ∧ wf q' ∧
    (w' = w ∨
     filter (unexpired now) (tenant_work q' t) = w :: ws ∧
     (length (schedule q') ≤ n)%nat ∧ (rank n q' t < rank n q t)%nat).
Proof.
  intros Hq Hhead Hn.
  destruct (dequeue_run now q Hq) as (q1 & es & _ & Hq1 & Hview & Hlen & Hrank & Hcases).
  assert (t ∈ schedule q1) as Hin.
  { apply (elem_of_schedule _ _ Hq1). by rewrite Hview, Hhead. }
  destruct Hcases as [[Hnil _]|(_ & q' & w' & Hrun & Hq' & Hserved & Hlen' & Hless)].
  { rewrite Hnil in Hin. set_solver. }
  exists q', w'. split_and!; [done..|]. destruct Hserved as (ws' & Hhead' & Hrest).
  destruct (decide (t = work_tenant_id w')) as [->|Hne].
  - left. rewrite Hview, Hhead in Hhead'. congruence.
  - right. rewrite Hrest, decide_False, Hview, Hhead by done. split_and!; [|lia|].
    + rewrite <- Hhead. rewrite list_filter_filter. apply filter_ext_elem. tauto.
    + apply Nat.lt_le_trans with (rank n q1 t); [apply Hless; [done|lia|done]|].
      apply Hrank. by rewrite Hview, Hhead.
Qed.

Lemma dequeue_times_total now n : ∀ q,
  wf q → ∃ q' rs, dequeue_times now n q = (q', Ok rs) ∧ wf q'.
Proof.
  induction n as [|n IH]; intros q Hq; [by eexists _, _|].
  assert (∃ q1 r, dequeue now q = (q1, Ok r) ∧ wf q1) as (q1 & r & Hrun & Hq1).
  { destruct (dequeue_run now q Hq) as (q1 & es & _ & Hq1 & _ & _ & _ & Hcases).
    destruct Hcases as [[_ Hrun]|(_ & q' & w & Hrun & Hq' & _)]; eauto. }
  destruct (IH q1 Hq1) as (q' & rs & Hrest & Hq'). exists q', (r :: rs). split; [|done].
  cbn [dequeue_times]. unfold mbind, M_bind, mret, M_ret. by rewrite Hrun, Hrest.
Qed.

Lemma served_within now t w ws n k : ∀ q,
  wf q → filter (unexpired now) (tenant_work q t) = w :: ws →
  (length (schedule q) ≤ n)%nat → (rank n q t < k)%nat →
  ∃ q' rs i, dequeue_times now k q = (q', Ok rs) ∧ rs !! i = Some (Some w).
Proof.
  induction k as [|k IH]; intros q Hq Hhead Hn Hk; [lia|].
  destruct (dequeue_rank now q t w ws n Hq Hhead Hn) as (q1 & w' & Hrun & Hq1 & Hcase).
  cbn [dequeue_times]. unfold mbind, M_bind, mret, M_ret. rewrite Hrun.
  destruct Hcase as [->|(Hhead' & Hn' & Hless)].
  - destruct (dequeue_times now k q1) as [q2 [rs|e]] eqn:Hrest.
    + exists q2. eexists _, 0%nat. done.
    + destruct (dequeue_times_total now k q1 Hq1) as (q2' & rs & Htotal & _). congruence.
  - destruct (IH q1 Hq1 Hhead' Hn') as (q2 & rs & i & Hrest & Hi); [lia|].
    rewrite Hrest. exists q2. eexists _, (S i). by split.
Qed.

(** ** Properties *)

(** C7: From a freshly created queue, whatever sequence of weight changes,
    enqueues, cancellations, dequeues and expiries is applied, the queue behaves
    as one FIFO per tenant (the abstract machine [fifo_run], whose dequeue only
    answers "nothing" when no unexpired work is left and otherwise hands out the
    oldest unexpired work of some tenant), its invariant holds (counter, key set
    and schedule agree with the tenants' work, bounds respected, keys unique),
    and no [expect] or subtraction of the implementation ever panics. *)
Theorem queue_refines_fifos l q0 os :
  new l = Ok q0 →
  (∀ t, tenant_work q0 t = []) ∧
  fifo_run (tenant_work q0) os (exec_all os q0).2 (tenant_work (exec_all os q0).1) ∧
  wf (exec_all os q0).1 ∧
  ∀ m, Crashed m ∉ (exec_all os q0).2.
Proof.
  intros Hnew. destruct (new_wf l q0 Hnew) as [Hwf Hempty].
  destruct (exec_all_step os q0 Hwf) as [Hwf' Hrun]. split_and!; [done..|].
  intros m. revert Hrun. clear. generalize (exec_all os q0).2. intros outs.
  induction 1 as [|? ? ? ? ? ? ? Hstep]; [set_solver|].
  apply not_elem_of_cons. split; [|done]. intros <-. inversion Hstep; naive_solver.
Qed.

Definition w_limits : QueueLimits := MkLimits 10 6 4.
Definition w_fresh : BoundedFairQueue := MkQueue w_limits 0 ∅ ∅ [].
Definition w_alpha : TenantId := id_lit "tenant-a".
Definition w_beta : TenantId := id_lit "tenant-b".
Definition w_job (t : TenantId) (key : string) (deadline : Z) : QueuedWork :=
  MkWork key t (id_lit "team-a") (id_lit "sandbox-a") deadline.
Definition w_ops : list op :=
  [OpSetWeight w_alpha 100; OpSetWeight w_beta 50;
   OpEnqueue (w_job w_beta "b1" 90) 0; OpEnqueue (w_job w_beta "b2" 90) 0;
   OpEnqueue (w_job w_beta "b3" 90) 0;
   OpEnqueue (w_job w_alpha "a1" 90) 0; OpEnqueue (w_job w_alpha "a2" 90) 0;
   OpEnqueue (w_job w_alpha "a3" 90) 0; OpEnqueue (w_job w_alpha "a3" 90) 0].

Lemma queue_refines_fifos_witness :
  new w_limits = Ok w_fresh ∧
  (exec_all (w_ops ++ [OpDequeue 10]) w_fresh).2 =
    [Done; Done; Done; Done; Done; Done; Done; Done; Refused Duplicate;
     Taken (Some (w_job w_alpha "a1" 90))] ∧
  fifo_run (tenant_work w_fresh) (w_ops ++ [OpDequeue 10])
    (exec_all (w_ops ++ [OpDequeue 10]) w_fresh).2
    (tenant_work (exec_all (w_ops ++ [OpDequeue 10]) w_fresh).1).
Proof.
  split; [reflexivity|]. split; [vm_compute; reflexivity|].
  exact (proj1 (proj2 (queue_refines_fifos w_limits w_fresh (w_ops ++ [OpDequeue 10]) eq_refl))).
Defined.

(** On a well-formed queue, [enqueue] accepts work exactly when no reason to
    refuse it exists: the key is a valid token with a deadline in the future,
    is not queued already, the queue and the tenant's share of it have room, and
    a new tenant still fits.  A refusal names such a reason and leaves the queue
    as it was. *)
Theorem enqueue_accepts_iff w now q :
  wf q →
  ((∃ q', enqueue w now q = (q', Ok tt)) ↔ ∀ e, ¬ refuses q w now e) ∧
  (∀ q' f, enqueue w now q = (q', Err f) → ∃ e, f = Rejected e ∧ q' = q ∧ refuses q w now e).
Proof.
  intros Hq. destruct (enqueue w now q) as [q1 r] eqn:Hrun.
  pose proof (enqueue_cases _ _ _ _ _ Hq Hrun) as Hcases. destruct r as [[]|[e|m]]; [| |done].
  - destruct Hcases as (_ & Hok & _). split; [|done]. split; eauto.
  - destruct Hcases as [-> He]. split; [|intros ? ? [= <- <-]; eauto].
    split; [by intros [q' ?]|]. intros Hno. by destruct (Hno e).
Qed.

Lemma w_queue_wf : wf (exec_all w_ops w_fresh).1.
Proof. apply exec_all_step. by apply (new_wf w_limits). Qed.

Lemma enqueue_accepts_iff_witness :
  wf (exec_all w_ops w_fresh).1 ∧
  ∀ e, ¬ refuses (exec_all w_ops w_fresh).1 (w_job w_alpha "a4" 90) 5 e.
Proof.
  split; [exact w_queue_wf|].
  apply (proj1 (enqueue_accepts_iff (w_job w_alpha "a4" 90) 5 _ w_queue_wf)).
  eexists. apply M_run. vm_compute. reflexivity.
Defined.

(** No tenant starves.  If the oldest unexpired work of a tenant is [w],
    then at most one hundred calls of [dequeue] per scheduled tenant hand [w]
    out, whatever the weights, deficits and backlogs of the other tenants. *)
Theorem no_starvation now q t w ws :
  wf q → filter (unexpired now) (tenant_work q t) = w :: ws →
  ∃ q' rs i, dequeue_times now (100 * length (schedule q)) q = (q', Ok rs) ∧
    rs !! i = Some (Some w).
Proof.
  intros Hq Hhead. eapply (served_within now t w ws (length (schedule q))); eauto.
  assert (t ∈ schedule q) as Hin.
  { apply (elem_of_schedule _ _ Hq). intros Hnil. by rewrite Hnil in Hhead. }
  pose proof (index_lt t _ Hin). pose proof (missing_le q t Hq). unfold rank. nia.
Qed.

Lemma no_starvation_witness :
  wf (exec_all w_ops w_fresh).1 ∧
  ∃ q' rs i, dequeue_times 10 (100 * length (schedule (exec_all w_ops w_fresh).1))
               (exec_all w_ops w_fresh).1 = (q', Ok rs) ∧
    rs !! i = Some (Some (w_job w_beta "b1" 90)).
Proof.
  split; [exact w_queue_wf|].
  apply (no_starvation 10 _ w_beta (w_job w_beta "b1" 90)
           [w_job w_beta "b2" 90; w_job w_beta "b3" 90] w_queue_wf).
  vm_compute. reflexivity.
Defined.

(** C36: Service is proportional to weight.  Over any number of consecutive
    dequeues after which two tenants [a] and [b] still have work, the numbers of
    times they were served stand in the ratio of their weights up to a bounded
    error that does not grow with the number of dequeues. *)
Theorem weighted_fairness now n q q' rs a b :
  wf q → dequeue_times now n q = (q', Ok rs) → a ≠ b →
  tenant_work q' a ≠ [] → tenant_work q' b ≠ [] →
  let wa := weight_of q a in
  let wb := weight_of q b in
  100 * Z.abs (services a rs * wb - services b rs * wa) ≤ wa * wb + 99 * (wa + wb).
Proof.
  intros Hq Hrun Hne Ha Hb wa wb.
  assert (wf q') as Hq'.
  { destruct (dequeue_times_total now n q Hq) as (q1 & rs1 & Hrun1 & Hq1). congruence. }
  rewrite <- (elem_of_schedule _ _ Hq') in Ha. rewrite <- (elem_of_schedule _ _ Hq') in Hb.
  destruct (dequeue_times_shares _ _ _ _ _ a b Hq Hrun Hne Ha Hb) as (_ & _ & _ & Hsh).
  destruct Hsh as (na & nb & [_ Hna] & [_ Hnb] & Hturn). fold wa in Hna. fold wb in Hnb.
  pose proof (deficit_of_range q a Hq). pose proof (deficit_of_range q b Hq).
  pose proof (deficit_of_range q' a Hq'). pose proof (deficit_of_range q' b Hq').
  pose proof (weight_of_range q a Hq) as Hwa. pose proof (weight_of_range q b Hq) as Hwb.
  fold wa in Hwa. fold wb in Hwb.
  pose proof (turn_range q a b). pose proof (turn_range q' a b).
  unfold FAIRNESS_QUANTUM in *.
  set (da := deficit_of q a - deficit_of q' a) in *. set (db := deficit_of q b - deficit_of q' b) in *.
  assert (100 * (services a rs * wb - services b rs * wa) =
          (na - nb) * (wa * wb) + (da * wb - db * wa)) as Heq by nia.
  assert (-1 ≤ na - nb ≤ 1) as Hd by lia.
  assert (-99 ≤ da ≤ 99 ∧ -99 ≤ db ≤ 99) as [? ?] by lia.
  assert (Z.abs ((na - nb) * (wa * wb)) ≤ wa * wb) by nia.
  assert (Z.abs (da * wb) ≤ 99 * wb) by nia. assert (Z.abs (db * wa) ≤ 99 * wa) by nia. lia.
Qed.

Lemma weighted_fairness_witness :
  let q := (exec_all w_ops w_fresh).1 in
  let rs := [Some (w_job w_alpha "a1" 90); Some (w_job w_beta "b1" 90);
             Some (w_job w_alpha "a2" 90)] in
  (dequeue_times 10 3 q).2 = Ok rs ∧
  100 * Z.abs (services w_alpha rs * weight_of q w_beta - services w_beta rs * weight_of q w_alpha)
    ≤ weight_of q w_alpha * weight_of q w_beta + 99 * (weight_of q w_alpha + weight_of q w_beta).
Proof.
  intros q rs. assert ((dequeue_times 10 3 q).2 = Ok rs) as Hrs by (vm_compute; reflexivity).
  split; [exact Hrs|].
  apply (weighted_fairness 10 3 q (dequeue_times 10 3 q).1 rs w_alpha w_beta w_queue_wf).
  - apply M_run, Hrs.
  - intros H. apply (f_equal as_str) in H. discriminate H.
  - vm_compute. discriminate.
  - vm_compute. discriminate.
Defined.
