(* ===== verification/GuestProfile.v ===== *)
(** * Guest profiles

    Models [crates/sandbox-core/src/guest_profile.rs]: profile identities
    with their textual form, and the table of reviewed profiles. *)
From S2P Require Import Prelude Identity.

Module GuestProfile.

Definition STRICT_GUEST_PROFILE : string := "strict-v1".
Definition ROOT_GUEST_PROFILE : string := "root-in-sandbox-v1".
Definition OCI_COMPAT_GUEST_PROFILE : string := "oci-compat-v1".

Definition ISOLATED_NAMESPACES : list string := ["pid"; "network"; "ipc"; "uts"; "mount"].
Definition MASKED_PATHS : list string :=
  ["/proc/acpi"; "/proc/asound"; "/proc/kcore"; "/proc/keys"; "/proc/latency_stats";
   "/proc/timer_list"; "/proc/timer_stats"; "/proc/sched_debug"; "/sys/firmware"].
Definition READONLY_PATHS : list string :=
  ["/proc/bus"; "/proc/fs"; "/proc/irq"; "/proc/sys"; "/proc/sysrq-trigger"].
Definition OCI_COMPAT_CAPABILITIES : list string :=
  ["CAP_CHOWN"; "CAP_DAC_OVERRIDE"; "CAP_FOWNER"; "CAP_FSETID"; "CAP_SETGID"; "CAP_SETUID"].

Record GuestProfileIdentity : Type := MkProfileId { name : string; version : Z }.

#[global] Instance GuestProfileIdentity_eq_dec : EqDecision GuestProfileIdentity.
Proof. solve_decision. Defined.

Definition profile_name_byte (c : ascii) : bool :=
  is_ascii_lowercase c || is_ascii_digit c || is_byte "-" c.

(** The rejection test on the name; [as_bytes()[0]] is reached only when the
    name is not empty. *)
Definition profile_name_rejected (value : string) : bool :=
  bool_decide (value = EmptyString)
  || (48 <? len value)
  || negb (all_bytes profile_name_byte value)
  || negb (match first_byte value with Some b => is_ascii_lowercase b | None => false end).

Definition profile_parse (value : string) : result CoreError GuestProfileIdentity :=
  '(name, version_text) ← ok_or
    (InvalidSpecification "guest profile identity must end in `-v<version>`")
    (rsplit_once "-v" value);
  reject_if (profile_name_rejected name) (InvalidSpecification "guest profile name is invalid");;
  version ← ok_or (InvalidSpecification "guest profile version is invalid")
    (parse_unsigned u32_max version_text);
  reject_if ((version =? 0) || negb (bool_decide (to_string version = version_text)))
    (InvalidSpecification "guest profile version must be positive and canonical");;
  mret (MkProfileId name version).

Definition canonical (p : GuestProfileIdentity) : string :=
  name p +:+ "-v" +:+ to_string (version p).

Record GuestProfileRestrictions : Type := MkRestrictions {
  uid : Z;
  gid : Z;
  bounding_capabilities : list string;
  effective_capabilities : list string;
  inheritable_capabilities : list string;
  permitted_capabilities : list string;
  ambient_capabilities : list string;
  no_new_privileges : bool;
  isolated_namespaces : list string;
  masked_paths : list string;
  readonly_paths : list string;
  directfs_enabled : bool;
  host_unix_sockets : bool;
  host_fifos : bool
}.

Record GuestProfile : Type := MkProfile {
  identity : GuestProfileIdentity;
  restrictions : GuestProfileRestrictions
}.

#[global] Instance GuestProfileRestrictions_eq_dec : EqDecision GuestProfileRestrictions.
Proof. solve_decision. Defined.
#[global] Instance GuestProfile_eq_dec : EqDecision GuestProfile.
Proof. solve_decision. Defined.

Definition reviewed (p : GuestProfileIdentity) : option GuestProfile :=
  '(uid, gid, capabilities) ←
    (if bool_decide (canonical p = STRICT_GUEST_PROFILE) then Some (65534, 65534, [])
     else if bool_decide (canonical p = ROOT_GUEST_PROFILE) then Some (0, 0, [])
     else if bool_decide (canonical p = OCI_COMPAT_GUEST_PROFILE)
     then Some (0, 0, OCI_COMPAT_CAPABILITIES)
     else None);
  Some (MkProfile p (MkRestrictions uid gid capabilities capabilities [] capabilities [] true
    ISOLATED_NAMESPACES MASKED_PATHS READONLY_PATHS false false false)).

Definition reviewed_named (value : string) : result CoreError GuestProfile :=
  p ← profile_parse value;
  ok_or (InvalidSpecification ("guest profile `" +:+ value +:+ "` is not a reviewed profile"))
    (reviewed p).

(** [GuestProfile::strict], whose [expect] is a panic. *)
Definition strict : option GuestProfile :=
  match reviewed_named STRICT_GUEST_PROFILE with Ok p => Some p | Err _ => None end.

(** ** Lemmas *)

Definition profile_id_wf (p : GuestProfileIdentity) : Prop :=
  profile_name_rejected (name p) = false ∧ 1 ≤ version p ≤ u32_max.

Lemma rsplit_canonical p : rsplit_once "-v" (canonical p) = Some (name p, to_string (version p)).
Proof.
  unfold canonical. rewrite (rsplit_once_app "-v" (name p) _ EmptyString (to_string (version p))).
  { f_equal. f_equal. generalize (name p). intros s. induction s; simpl; [done|by f_equal]. }
  simpl. rewrite rsplit_once_None; [|].
  - done.
  - intros Hin. pose proof (all_bytes_elem _ _ _ (to_string_digits (version p)) Hin) as Hd. done.
Qed.

Lemma profile_parse_canonical p : profile_id_wf p → profile_parse (canonical p) = Ok p.
Proof.
  intros [Hname Hversion]. unfold profile_parse. rewrite rsplit_canonical. simpl.
  rewrite Hname. simpl. rewrite parse_unsigned_to_string by lia. simpl.
  rewrite bool_decide_true, orb_false_r by done.
  rewrite (proj2 (Z.eqb_neq _ _)) by lia. by destruct p.
Qed.

Lemma profile_parse_Ok value p :
  profile_parse value = Ok p → value = canonical p ∧ profile_id_wf p.
Proof.
  unfold profile_parse. intros H. inv_ok H. destruct a as [n v]. inv_ok H.
  injection H as <-. simpl_guards. apply rsplit_once_Some in Hstep as ->.
  pose proof (parse_unsigned_range _ _ _ Hstep1). split.
  - unfold canonical. simpl. congruence.
  - split; simpl; [done|]. lia.
Qed.

End GuestProfile.
Import GuestProfile.

(** ** Properties *)

(** The textual form of a guest profile identity is unique.  [parse] accepts
    a string exactly when it is the canonical form of the identity it returns,
    and the accepted identities are those with a well-formed name and a version
    between 1 and the largest 32-bit number; so two accepted strings that name
    the same identity are equal (no leading zeros, no sign, no other split). *)
Theorem guest_profile_text_iff value p :
  profile_parse value = Ok p ↔ value = canonical p ∧ profile_id_wf p.
Proof.
  split; [apply profile_parse_Ok|]. intros [-> Hp]. by apply profile_parse_canonical.
Qed.

(** Only the three built-in names are reviewed, and every reviewed profile
    keeps the host boundary closed: no new privileges, no ambient or inheritable
    capabilities, bounding, effective and permitted sets equal and drawn from
    the six OCI-compatible capabilities, all five namespaces isolated, direct
    file access, host sockets and host pipes off; only the profile with
    capabilities or the root profile run as root.  [strict] does not panic. *)
Theorem reviewed_profiles_closed value g :
  reviewed_named value = Ok g →
  value ∈ [STRICT_GUEST_PROFILE; ROOT_GUEST_PROFILE; OCI_COMPAT_GUEST_PROFILE] ∧
  canonical (identity g) = value ∧
  let r := restrictions g in
  no_new_privileges r = true ∧
  ambient_capabilities r = [] ∧ inheritable_capabilities r = [] ∧
  bounding_capabilities r = effective_capabilities r ∧
  permitted_capabilities r = effective_capabilities r ∧
  effective_capabilities r ⊆ OCI_COMPAT_CAPABILITIES ∧
  isolated_namespaces r = ISOLATED_NAMESPACES ∧
  masked_paths r = MASKED_PATHS ∧ readonly_paths r = READONLY_PATHS ∧
  directfs_enabled r = false ∧ host_unix_sockets r = false ∧ host_fifos r = false ∧
  (value = STRICT_GUEST_PROFILE ↔ uid r ≠ 0) ∧
  is_Some strict.
Proof.
  unfold reviewed_named. intros H. inv_ok H. apply profile_parse_Ok in Hstep as [-> Hwf].
  simpl_guards. unfold reviewed in H.
  assert (is_Some strict) by (vm_compute; eauto).
  repeat case_bool_decide; simplify_eq/=; split_and!; try done; try set_solver; congruence.
Qed.

Lemma reviewed_profiles_closed_witness :
  match reviewed_named "oci-compat-v1" with
  | Ok g => effective_capabilities (restrictions g) ⊆ OCI_COMPAT_CAPABILITIES
  | Err _ => False
  end.
Proof.
  destruct (reviewed_named "oci-compat-v1") as [g|e] eqn:Hg; [|vm_compute in Hg; discriminate].
  apply (reviewed_profiles_closed "oci-compat-v1" g Hg).
Defined.
