(* ===== verification/Journal.v ===== *)
(** * The durable journal

    Models [bins/sandboxd/src/journal/]: the reader with its repair of a torn
    tail, the commands the clients enqueue, and the writer thread with group
    commit.  The file system is a disk with a part that is known to be stable;
    a crash keeps the stable part and any prefix of what was appended after it,
    or either version of a file whose replacement was not synced.  The number
    of commands received within the group-commit window and the outcome of each
    I/O call are inputs of the writer's step. *)
From S2P Require Import Prelude Identity.

Module Journal.

Abbreviation byte := ascii.
Definition NEWLINE : byte := "010".

Definition MAXIMUM_RECORD_BYTES : Z := 64 * 1024.
Definition MAXIMUM_REPLACEMENT_BYTES : Z := 64 * 1024 * 1024.
Definition MAXIMUM_BATCH_RECORDS : nat := 64.

Definition is_newline (b : byte) : bool := Ascii.eqb b NEWLINE.

(** ** Reading *)

(** [iter().rposition(p)]. *)
Fixpoint rposition {A} (p : A → bool) (l : list A) : option nat :=
  match l with
  | [] => None
  | x :: l' =>
      match rposition p l' with
      | Some n => Some (S n)
      | None => if p x then Some 0%nat else None
      end
  end.

(** [slice::split_inclusive] at newlines. *)
Fixpoint split_inclusive (l : list byte) : list (list byte) :=
  match l with
  | [] => []
  | b :: l' =>
      if is_newline b then [b] :: split_inclusive l'
      else match split_inclusive l' with
           | [] => [[b]]
           | r :: rs => (b :: r) :: rs
           end
  end.

(** The new contents of the file; [None] is a file that does not exist. *)
Definition repair_torn_tail (path : string) (file : option (list byte)) :
    result SandboxError (option (list byte)) :=
  match file with
  | None => Ok None
  | Some contents =>
      let length := length_z contents in
      if length =? 0 then Ok (Some contents)
      else if bool_decide (last contents = Some NEWLINE) then Ok (Some contents)
      else
        let scan_bytes := Z.min length MAXIMUM_RECORD_BYTES in
        let scan_start := length - scan_bytes in
        let tail := drop (Z.to_nat scan_start) contents in
        match rposition is_newline tail with
        | Some position =>
            Ok (Some (take (Z.to_nat (scan_start + Z.of_nat position + 1)) contents))
        | None =>
            if scan_start =? 0 then Ok (Some [])
            else Err (Runtime ("journal `" +:+ path +:+ "` has an oversized torn record"))
        end
  end.

(** The records of the file; the repaired contents are what stays on disk. *)
Definition read_records (path : string) (maximum_file_bytes maximum_records : Z)
    (file : option (list byte)) : result SandboxError (list (list byte)) :=
  match file with
  | None => Ok []
  | Some _ =>
      repaired ← repair_torn_tail path file;
      let contents := default [] repaired in
      reject_if (maximum_file_bytes <? length_z contents)
        (Runtime ("journal `" +:+ path +:+ "` exceeds its recovery bound"));;
      let records := split_inclusive contents in
      reject_if ((maximum_records <? length_z records)
                 || existsb (λ r, (MAXIMUM_RECORD_BYTES <? length_z r)
                                  || bool_decide (r = [NEWLINE])) records)
        (Runtime ("journal `" +:+ path +:+ "` has invalid recovery bounds"));;
      mret records
  end.

(** ** Commands *)

(** The completion channel of a command is its number. *)
Inductive Command : Type :=
| Append (record : list byte) (completion : nat)
| Replace (contents : list byte) (completion : nat).

Definition completion_of (c : Command) : nat :=
  match c with Append _ n | Replace _ n => n end.

(** The guards of [enqueue_append] and [enqueue_replace]. *)
Definition check_append (record : list byte) : result SandboxError () :=
  reject_if (bool_decide (record = []) || (MAXIMUM_RECORD_BYTES <? length_z record)
             || negb (bool_decide (last record = Some NEWLINE)))
    (Runtime "journal record is empty, oversized, or unterminated").

Definition check_replace (contents : list byte) : result SandboxError () :=
  reject_if ((MAXIMUM_REPLACEMENT_BYTES <? length_z contents)
             || (negb (bool_decide (contents = [])) && negb (bool_decide (last contents = Some NEWLINE))))
    (Runtime "journal replacement is oversized or unterminated").

(** ** The disk *)

(** What happened to the file since it was last synced. *)
Inductive unsynced : Type :=
| Synced
| Appended (bytes : list byte)
| Renamed (contents : list byte).

Record Disk : Type := MkDisk { stable : list byte; change : unsynced }.

Definition visible (d : Disk) : list byte :=
  match change d with
  | Synced => stable d
  | Appended bytes => stable d ++ bytes
  | Renamed contents => contents
  end.

(** What may be found after a crash. *)
Definition crash (d : Disk) (f : list byte) : Prop :=
  match change d with
  | Synced => f = stable d
  | Appended bytes => ∃ n, f = stable d ++ take n bytes
  | Renamed contents => f = stable d ∨ f = contents
  end.

(** Bytes written but not synced. *)
Definition write_unsynced (d : Disk) (bytes : list byte) : Disk :=
  MkDisk (stable d)
    match change d with
    | Synced => Appended bytes
    | Appended before => Appended (before ++ bytes)
    | Renamed contents => Renamed (contents ++ bytes)
    end.

(** The outcome of the I/O calls of one iteration: all succeed; [write_all]
    fails with some bytes written; [sync_data] fails; a replacement fails
    before or after the rename. *)
Inductive io_outcome : Type :=
| IoOk
| WriteFailed (written : nat) (error : string)
| SyncFailed (error : string)
| ReplaceFailed (renamed : bool) (error : string).

Abbreviation PendingAppend := (list byte * nat)%type.

Definition append_batch (io : io_outcome) (d : Disk) (batch : list PendingAppend) :
    Disk * result string () :=
  let bytes := concat (batch.*1) in
  match io with
  | IoOk => (MkDisk (visible d ++ bytes) Synced, Ok tt)
  | WriteFailed n e => (write_unsynced d (take n bytes), Err e)
  | SyncFailed e | ReplaceFailed _ e => (write_unsynced d bytes, Err e)
  end.

Definition replace (io : io_outcome) (d : Disk) (contents : list byte) : Disk * result string () :=
  match io with
  | IoOk => (MkDisk contents Synced, Ok tt)
  | WriteFailed _ e | SyncFailed e => (d, Err e)
  | ReplaceFailed renamed e => (if renamed then MkDisk (stable d) (Renamed contents) else d, Err e)
  end.

(** ** The writer thread *)

Record Writer : Type := MkWriter {
  receiver : list Command;
  pending : option Command;
  failure : option string;
  disk : Disk;
  completions : list (nat * result string ())
}.

(** The commands received within the group-commit window: at most [n] more
    appends; a replacement ends the batch and is kept for the next iteration. *)
Fixpoint gather (n : nat) (queue : list Command) :
    list PendingAppend * option Command * list Command :=
  match n, queue with
  | S n', Append r c :: queue' =>
      let '(batch, p, rest) := gather n' queue' in ((r, c) :: batch, p, rest)
  | S _, (Replace _ _ as command) :: queue' => ([], Some command, queue')
  | _, _ => ([], None, queue)
  end.

(** [pending.take().or_else(|| receiver.recv().ok())]. *)
Definition next_command (w : Writer) : option (Command * list Command) :=
  match pending w, receiver w with
  | Some command, queue => Some (command, queue)
  | None, command :: queue => Some (command, queue)
  | None, [] => None
  end.

(** One iteration of the loop of [run]; [None] when no command is available. *)
Definition run_iteration (path : string) (window : nat) (io : io_outcome) (w : Writer) : option Writer :=
  '(command, queue) ← next_command w;
  Some match failure w with
  | Some error =>
      MkWriter queue None (Some error) (disk w)
        (completions w ++ [(completion_of command, Err error)])
  | None =>
      match command with
      | Append record completion =>
          let '(more, p, rest) := gather (window `min` (MAXIMUM_BATCH_RECORDS - 1)) queue in
          let batch := (record, completion) :: more in
          let '(d, r) := append_batch io (disk w) batch in
          let result := map_err (λ e, "append and sync journal `" +:+ path +:+ "`: " +:+ e) r in
          MkWriter rest p (match result with Ok _ => None | Err e => Some e end) d
            (completions w ++ ((λ b : PendingAppend, (b.2, result)) <$> batch))
      | Replace contents completion =>
          let '(d, r) := replace io (disk w) contents in
          let result := map_err (λ e, "replace and sync journal `" +:+ path +:+ "`: " +:+ e) r in
          MkWriter queue None (match result with Ok _ => None | Err e => Some e end) d
            (completions w ++ [(completion, result)])
      end
  end.

(** [send] on the channel. *)
Definition send (c : Command) (w : Writer) : Writer :=
  MkWriter (receiver w ++ [c]) (pending w) (failure w) (disk w) (completions w).

(** The writer that [open] spawns on a repaired file. *)
Definition spawn (file : list byte) : Writer :=
  MkWriter [] None None (MkDisk file Synced) [].

(** The journal as its clients hold it: [DurableJournal] with the writer it
    spawned.  A receipt is the number of the completion channel. *)
Record DurableJournal : Type := MkJournal { writer : Writer; channels : nat }.

Definition open (path : string) (file : option (list byte)) : result SandboxError DurableJournal :=
  repaired ← repair_torn_tail path file;
  mret (MkJournal (spawn (default [] repaired)) 0).

Definition enqueue (command : nat → Command) (j : DurableJournal) : DurableJournal * nat :=
  (MkJournal (send (command (channels j)) (writer j)) (S (channels j)), channels j).

Definition enqueue_append (record : list byte) : M DurableJournal SandboxError nat :=
  M_lift (check_append record);;
  M_state (enqueue (Append record)).

Definition enqueue_replace (contents : list byte) : M DurableJournal SandboxError nat :=
  M_lift (check_replace contents);;
  M_state (enqueue (Replace contents)).

(** [JournalReceipt::wait]: [None] while the writer has not answered. *)
Definition wait (receipt : nat) (j : DurableJournal) : option (result SandboxError ()) :=
  match find (λ p : nat * result string (), (p.1 =? receipt)%nat) (completions (writer j)) with
  | Some (_, r) => Some (map_err Runtime r)
  | None => None
  end.

(** One iteration of the writer thread. *)
Definition write (path : string) (window : nat) (io : io_outcome) (j : DurableJournal) : DurableJournal :=
  match run_iteration path window io (writer j) with
  | Some w => MkJournal w (channels j)
  | None => j
  end.

End Journal.
Import Journal.

(** ** Records *)

(** What the clients append: one line, not empty, within the record bound. *)
Definition record_wf (r : list byte) : Prop :=
  ∃ body, r = body ++ [NEWLINE] ∧ (NEWLINE ∉ body) ∧ body ≠ [] ∧ length_z r ≤ MAXIMUM_RECORD_BYTES.

Definition command_wf (c : Command) : Prop :=
  match c with
  | Append r _ => record_wf r
  | Replace contents _ => ∃ rs, contents = concat rs ∧ Forall record_wf rs
  end.

(** The contents and the records after a sequence of commands. *)
Definition apply_bytes (f : list byte) (c : Command) : list byte :=
  match c with Append r _ => f ++ r | Replace contents _ => contents end.
Definition apply_records (rs : list (list byte)) (c : Command) : list (list byte) :=
  match c with Append r _ => rs ++ [r] | Replace contents _ => split_inclusive contents end.
Definition contents_of (f : list byte) (cs : list Command) : list byte := foldl apply_bytes f cs.
Definition records_of (rs : list (list byte)) (cs : list Command) : list (list byte) :=
  foldl apply_records rs cs.

Lemma is_newline_spec b : reflect (b = NEWLINE) (is_newline b).
Proof. apply Ascii.eqb_spec. Qed.

Lemma split_inclusive_line body l :
  NEWLINE ∉ body →
  split_inclusive ((body ++ [NEWLINE]) ++ l) = (body ++ [NEWLINE]) :: split_inclusive l.
Proof.
  induction body as [|b body IH]; intros Hb; [done|].
  apply not_elem_of_cons in Hb as [Hne Hb]. simpl.
  destruct (is_newline_spec b) as [->|_]; [done|]. by rewrite IH.
Qed.

Lemma split_inclusive_concat rs : Forall record_wf rs → split_inclusive (concat rs) = rs.
Proof.
  induction 1 as [|r rs (body & -> & Hnl & _) _ IH]; [done|].
  simpl. by rewrite split_inclusive_line, IH.
Qed.

Lemma rposition_None {A} (p : A → bool) l : (∀ x, x ∈ l → p x = false) → rposition p l = None.
Proof.
  induction l as [|x l IH]; intros Hl; [done|]. simpl. rewrite IH by set_solver.
  by rewrite Hl by set_solver.
Qed.

Lemma rposition_last {A} (p : A → bool) l1 x l2 :
  p x = true → (∀ y, y ∈ l2 → p y = false) → rposition p (l1 ++ x :: l2) = Some (length l1).
Proof.
  intros Hx Hl2. induction l1 as [|y l1 IH]; simpl.
  - by rewrite rposition_None, Hx.
  - by rewrite IH.
Qed.

Lemma no_newline (l : list byte) : NEWLINE ∉ l → ∀ x, x ∈ l → is_newline x = false.
Proof. intros Hl x Hx. destruct (is_newline_spec x) as [->|]; done. Qed.

Definition terminated (g : list byte) : Prop := g = [] ∨ last g = Some NEWLINE.

Lemma terminated_concat rs : Forall record_wf rs → terminated (concat rs).
Proof.
  intros Hrs. destruct rs as [|r rs _] using rev_ind; [by left|]. right.
  apply Forall_app in Hrs as [_ Hr]. apply Forall_cons in Hr as [(body & -> & _) _].
  rewrite concat_app. simpl. by rewrite app_nil_r, app_assoc, last_snoc.
Qed.

(** The repair keeps the complete lines and drops a torn tail. *)
Lemma repair_spec path g t :
  terminated g → NEWLINE ∉ t → length_z t < MAXIMUM_RECORD_BYTES →
  repair_torn_tail path (Some (g ++ t)) = Ok (Some g).
Proof.
  intros Hg Ht Hlen. unfold repair_torn_tail. rewrite length_app.
  destruct (decide (t = [])) as [->|Hne].
  { rewrite app_nil_r. destruct Hg as [->|Hg]; [done|].
    rewrite (bool_decide_true _ Hg). by case_match. }
  assert (0 < length t)%nat by (destruct t; simpl; [done|lia]).
  rewrite (proj2 (Z.eqb_neq _ _)) by lia.
  rewrite bool_decide_false.
  2: { destruct t as [|y t _] using rev_ind; [done|].
       rewrite app_assoc, last_snoc. intros [= ->]. apply Ht. set_solver. }
  set (s := Z.of_nat (length g + length t) - Z.min (Z.of_nat (length g + length t)) MAXIMUM_RECORD_BYTES).
  destruct Hg as [->|Hg].
  - assert (s = 0) as -> by (unfold s; simpl; lia). simpl.
    by rewrite rposition_None by (by apply no_newline).
  - destruct g as [|x g _] using rev_ind; [done|]. rewrite last_snoc in Hg. injection Hg as ->.
    assert (0 ≤ s ≤ Z.of_nat (length g)) as Hs.
    { unfold s. rewrite length_app. simpl. lia. }
    rewrite <- app_assoc. change ([NEWLINE] ++ t) with (NEWLINE :: t). rewrite drop_app_le by lia.
    rewrite (rposition_last is_newline (drop (Z.to_nat s) g) NEWLINE t); [|done|by apply no_newline].
    do 2 f_equal. rewrite length_drop.
    replace (Z.to_nat _) with (length (g ++ [NEWLINE])) by (rewrite length_app; simpl; lia).
    change (NEWLINE :: t) with ([NEWLINE] ++ t). rewrite app_assoc. by rewrite take_app_length.
Qed.

(** ** The writer's invariant *)

(** The processed commands that were acknowledged, in order. *)
Definition ok_completions (cs : list Command) : list (nat * result string ()) :=
  (λ c, (completion_of c, Ok tt)) <$> cs.

Definition queued (w : Writer) : list Command := option_list (pending w) ++ receiver w.

(** The contents [g] are those after at least [m] of the commands [cs], plus a
    part of the record that the next command appends. *)
Definition torn (f : list byte) (cs : list Command) (m : nat) (g : list byte) : Prop :=
  ∃ k part, (m ≤ k ≤ length cs)%nat ∧ g = contents_of f (take k cs) ++ part ∧
    (part = [] ∨ ∃ r c n, cs !! k = Some (Append r c) ∧ part = take n r ∧ (n < length r)%nat).

(** [cs] were submitted to a writer spawned on [f]: [acked] were acknowledged,
    [failed] were answered with an error, the rest is queued. *)
Record writer_inv (f : list byte) (cs : list Command) (w : Writer)
    (acked failed : list Command) : Prop := WriterInv {
  inv_submitted : cs = acked ++ failed ++ queued w;
  inv_completions : ∃ errors,
    completions w = ok_completions acked ++ errors ∧
    errors.*1 = completion_of <$> failed ∧ Forall (λ e, ∃ m, e.2 = Err m) errors;
  inv_live : failure w = None → failed = [] ∧ disk w = MkDisk (contents_of f acked) Synced;
  inv_crash : ∀ g, crash (disk w) g → torn f cs (length acked) g
}.

Definition appends (batch : list PendingAppend) : list Command :=
  (λ b : PendingAppend, Append b.1 b.2) <$> batch.

Lemma gather_spec n queue batch p rest :
  gather n queue = (batch, p, rest) → queue = appends batch ++ option_list p ++ rest.
Proof.
  revert queue batch p rest. induction n as [|n IH]; intros queue batch p rest; simpl.
  { by intros [= <- <- <-]. }
  destruct queue as [|[r c|contents c] queue].
  - by intros [= <- <- <-].
  - destruct (gather n queue) as [[b p'] rest'] eqn:Hg. intros [= <- <- <-].
    rewrite (IH _ _ _ _ Hg) at 1. done.
  - by intros [= <- <- <-].
Qed.

Lemma contents_of_app f cs cs' : contents_of f (cs ++ cs') = contents_of (contents_of f cs) cs'.
Proof. apply foldl_app. Qed.

Lemma contents_of_appends f batch : contents_of f (appends batch) = f ++ concat batch.*1.
Proof.
  revert f. induction batch as [|[r c] batch IH]; intros f; simpl; [by rewrite app_nil_r|].
  unfold contents_of in *. simpl. rewrite IH. by rewrite app_assoc.
Qed.

Lemma length_appends batch : length (appends batch) = length batch.
Proof. apply length_fmap. Qed.

Lemma take_appends k batch : take k (appends batch) = appends (take k batch).
Proof. unfold appends. by rewrite fmap_take. Qed.

Lemma take_concat (n : nat) (rs : list (list byte)) :
  ∃ k part, (k ≤ length rs)%nat ∧ take n (concat rs) = concat (take k rs) ++ part ∧
    (part = [] ∨ ∃ r i, rs !! k = Some r ∧ part = take i r ∧ (i < length r)%nat).
Proof.
  revert n. induction rs as [|r rs IH]; intros n.
  { exists 0%nat, []. simpl. rewrite take_nil. eauto. }
  simpl. destruct (decide (n < length r)%nat) as [Hlt|Hge].
  - exists 0%nat, (take n r). simpl. split; [lia|]. split; [by rewrite take_app_le by lia|].
    right. eauto.
  - destruct (IH (n - length r)%nat) as (k & part & Hk & Htake & Hpart).
    exists (S k), part. simpl. split; [lia|]. split; [|done].
    rewrite take_app_ge by lia. by rewrite Htake, app_assoc.
Qed.

Lemma torn_mono f cs cs' m g : torn f cs m g → torn f (cs ++ cs') m g.
Proof.
  intros (k & part & Hk & -> & Hpart). exists k, part. rewrite length_app. split; [lia|].
  split; [by rewrite take_app_le by lia|].
  destruct Hpart as [->|(r & c & n & Hcs & -> & Hn)]; [by left|right].
  exists r, c, n. split; [by apply lookup_app_l_Some|done].
Qed.

Lemma torn_exact f cs cs' : torn f (cs ++ cs') (length cs) (contents_of f cs).
Proof.
  exists (length cs), []. rewrite length_app. split; [lia|].
  by rewrite take_app_length, app_nil_r; auto.
Qed.

(** A failed batch leaves a part of its bytes. *)
Lemma torn_batch f acked batch rest n :
  torn f (acked ++ appends batch ++ rest) (length acked)
    (contents_of f acked ++ take n (concat batch.*1)).
Proof.
  destruct (take_concat n batch.*1) as (k & part & Hk & -> & Hpart).
  rewrite length_fmap in Hk. exists (length acked + k)%nat, part.
  rewrite !length_app, length_appends. split; [lia|]. split.
  - rewrite take_app_add, take_app_le by (rewrite length_appends; lia).
    rewrite take_appends, contents_of_app, contents_of_appends, fmap_take. by rewrite app_assoc.
  - destruct Hpart as [->|(r & i & Hr & -> & Hi)]; [by left|right].
    rewrite list_lookup_fmap in Hr. destruct (batch !! k) as [[r' c]|] eqn:Hb; simplify_eq/=.
    exists r, c, i. split; [|done]. rewrite lookup_app_r by lia.
    replace (length acked + k - length acked)%nat with k by lia.
    apply lookup_app_l_Some. unfold appends. by rewrite list_lookup_fmap, Hb.
Qed.

Lemma spawn_inv f : writer_inv f [] (spawn f) [] [].
Proof.
  split; [done|by exists []|done|]. intros g ->. exists 0%nat, []. simpl.
  rewrite app_nil_r. split; [lia|]. by auto.
Qed.

Lemma send_inv f cs w a fl c : writer_inv f cs w a fl → writer_inv f (cs ++ [c]) (send c w) a fl.
Proof.
  intros [Hcs Hcomp Hlive Hcrash]. split; [|done|done|].
  - rewrite Hcs. unfold queued. simpl. by rewrite !app_assoc.
  - intros g Hg. by apply torn_mono, Hcrash.
Qed.

Lemma map_err_unit (h : string → string) (r : result string ()) :
  map_err h r = Ok tt ∨ ∃ m, map_err h r = Err m.
Proof. destruct r as [[]|e]; simpl; eauto. Qed.

(** Answering the commands [cmds] with an error. *)
Lemma answer_errors f cs w a fl cmds rest p m d :
  writer_inv f cs w a fl → queued w = cmds ++ option_list p ++ rest →
  (∀ g, crash d g → torn f cs (length a) g) →
  writer_inv f cs (MkWriter rest p (Some m) d
    (completions w ++ ((λ c, (completion_of c, Err m)) <$> cmds))) a (fl ++ cmds).
Proof.
  intros [Hcs (errors & Hcomp & Hids & Herr) _ _] Hq Hcrash. split; simpl; [| |done|done].
  - rewrite Hcs, Hq. unfold queued. simpl. by rewrite !app_assoc.
  - exists (errors ++ ((λ c, (completion_of c, Err m)) <$> cmds)).
    rewrite Hcomp, fmap_app, Hids, fmap_app, app_assoc. split; [done|]. split.
    + f_equal. rewrite <- list_fmap_compose. done.
    + apply Forall_app. split; [done|]. apply Forall_fmap, Forall_true. intros c. by exists m.
Qed.

(** Answering the commands [cmds] with success, once their effect is synced. *)
Lemma answer_ok f cs w a fl cmds rest p :
  writer_inv f cs w a fl → failure w = None → queued w = cmds ++ option_list p ++ rest →
  writer_inv f cs (MkWriter rest p None
    (MkDisk (contents_of f (a ++ cmds)) Synced)
    (completions w ++ ok_completions cmds)) (a ++ cmds) [].
Proof.
  intros [Hcs (errors & Hcomp & Hids & _) Hlive _] Hf Hq.
  destruct (Hlive Hf) as (-> & _). destruct errors; [|done]. rewrite app_nil_r in Hcomp.
  assert (cs = (a ++ cmds) ++ option_list p ++ rest) as ->.
  { rewrite Hcs, Hq. simpl. by rewrite !app_assoc. }
  split; simpl; [done| |done|].
  - exists []. rewrite Hcomp, app_nil_r. unfold ok_completions. by rewrite fmap_app.
  - intros g ->. apply torn_exact.
Qed.

Lemma batch_crash f a batch rest io d m g :
  append_batch io (MkDisk (contents_of f a) Synced) batch = (d, Err m) →
  crash d g → torn f (a ++ appends batch ++ rest) (length a) g.
Proof.
  intros Happ Hg. unfold append_batch in Happ.
  destruct io; simplify_eq/=; destruct Hg as [i ->]; simpl; rewrite ?take_take; apply torn_batch.
Qed.

Lemma replace_crash f a contents c rest io d m g :
  replace io (MkDisk (contents_of f a) Synced) contents = (d, Err m) →
  crash d g → torn f (a ++ [Replace contents c] ++ rest) (length a) g.
Proof.
  intros Hrep Hg. assert (g = contents_of f a ∨ g = contents) as [->| ->]; [|apply torn_exact|].
  { unfold replace in Hrep. destruct io as [| | |[]]; simplify_eq/=; unfold crash in Hg; simpl in *; tauto. }
  exists (S (length a)), []. rewrite app_nil_r, length_app. simpl. split; [lia|].
  split; [|by left]. rewrite <- Nat.add_1_r, take_app_add. simpl. by rewrite contents_of_app.
Qed.

Lemma step_inv path window io f cs w w' a fl :
  writer_inv f cs w a fl → run_iteration path window io w = Some w' →
  ∃ a' fl', writer_inv f cs w' a' fl' ∧ a `prefix_of` a' ∧
    (length (queued w') < length (queued w))%nat ∧
    (io = IoOk → failure w = None → failure w' = None).
Proof.
  intros Hinv. unfold run_iteration.
  destruct (next_command w) as [[command queue]|] eqn:Hnext; simpl; [|done].
  assert (queued w = command :: queue) as Hq.
  { unfold next_command in Hnext. unfold queued. destruct (pending w), (receiver w); by simplify_eq/=. }
  intros [= <-]. destruct (failure w) as [error|] eqn:Hf.
  { exists a, (fl ++ [command]). split_and!; [|done|rewrite Hq; unfold queued; simpl; lia|done].
    apply (answer_errors f cs w a fl [command] queue None error (disk w)); [done|done|apply Hinv]. }
  destruct (inv_live _ _ _ _ _ Hinv Hf) as [-> Hdisk].
  pose proof (inv_submitted _ _ _ _ _ Hinv) as Hcs. simpl in Hcs. rewrite Hq in Hcs.
  destruct command as [record completion|contents completion].
  - destruct (gather _ queue) as [[more p] rest] eqn:Hg.
    apply gather_spec in Hg. set (batch := (record, completion) :: more).
    assert (queued w = appends batch ++ option_list p ++ rest) as Hbatch by (by rewrite Hq, Hg).
    destruct (append_batch io (disk w) batch) as [d r] eqn:Happ. rewrite Hdisk in Happ.
    assert (length (queued (MkWriter rest p (failure w) d [])) < length (queued w))%nat as Hless.
    { rewrite Hbatch. unfold queued. simpl. rewrite !length_app, length_appends. lia. }
    destruct r as [[]|e]; simpl.
    + exists (a ++ appends batch), []. split_and!; [|by apply prefix_app_r|exact Hless|done].
      assert (d = MkDisk (contents_of f (a ++ appends batch)) Synced) as ->.
      { unfold append_batch in Happ. destruct io; simplify_eq/=.
        by rewrite contents_of_app, (contents_of_appends _ batch). }
      pose proof (answer_ok f cs w a [] (appends batch) rest p Hinv Hf Hbatch) as Hok.
      unfold ok_completions, appends in Hok. by rewrite <- list_fmap_compose in Hok.
    + exists a, (appends batch). split_and!; [|done|exact Hless|by intros ->].
      pose proof (answer_errors f cs w a [] (appends batch) rest p
        ("append and sync journal `" +:+ path +:+ "`: " +:+ e) d Hinv Hbatch) as Herr.
      unfold appends in Herr at 1. rewrite <- list_fmap_compose in Herr. apply Herr.
      intros g Hcrash. rewrite Hcs, <- Hq, Hbatch. by eapply batch_crash.
  - destruct (replace io (disk w) contents) as [d r] eqn:Hrep. rewrite Hdisk in Hrep.
    assert (length (queued (MkWriter queue None (failure w) d [])) < length (queued w))%nat as Hless
      by (rewrite Hq; unfold queued; simpl; lia).
    destruct r as [[]|e]; simpl.
    + exists (a ++ [Replace contents completion]), [].
      split_and!; [|by apply prefix_app_r|exact Hless|done].
      assert (d = MkDisk (contents_of f (a ++ [Replace contents completion])) Synced) as ->.
      { unfold replace in Hrep. destruct io as [| | |[]]; simplify_eq/=. by rewrite contents_of_app. }
      by apply (answer_ok f cs w a [] [Replace contents completion] queue None).
    + exists a, [Replace contents completion]. split_and!; [|done|exact Hless|by intros ->].
      apply (answer_errors f cs w a [] [Replace contents completion] queue None); [done|done|].
      intros g Hcrash. rewrite Hcs. by eapply replace_crash.
Qed.

(** ** What the journal promises to its clients *)

(** The bounds of [read_records], on well-formed records. *)
Definition bounded (path : string) (maximum_file_bytes maximum_records : Z)
    (rs : list (list byte)) : result SandboxError (list (list byte)) :=
  reject_if (maximum_file_bytes <? length_z (concat rs))
    (Runtime ("journal `" +:+ path +:+ "` exceeds its recovery bound"));;
  reject_if (maximum_records <? length_z rs)
    (Runtime ("journal `" +:+ path +:+ "` has invalid recovery bounds"));;
  mret rs.

(** [log_holds rs cs j]: the journal [j] was opened on the records [rs] and then
    received the commands [cs].  [log_wait] is the answer a client has received
    for a command, [log_reads] a result that recovery may give after a crash. *)
Class DurableLog (J : Type) : Type := {
  log_enqueue_append : list byte → M J SandboxError nat;
  log_enqueue_replace : list byte → M J SandboxError nat;
  log_wait : nat → J → option (result SandboxError ());
  log_writes : J → J → Prop;
  log_reads : string → Z → Z → J → result SandboxError (list (list byte)) → Prop;
  log_holds : list (list byte) → list Command → J → Prop;
  log_append_ok rs cs r j :
    log_holds rs cs j → record_wf r →
    ∃ j', log_enqueue_append r j = (j', Ok (length cs)) ∧
      log_holds rs (cs ++ [Append r (length cs)]) j' ∧ ∀ i, log_wait i j' = log_wait i j;
  log_replace_ok rs cs rs' j :
    log_holds rs cs j → Forall record_wf rs' →
    length_z (concat rs') ≤ MAXIMUM_REPLACEMENT_BYTES →
    ∃ j', log_enqueue_replace (concat rs') j = (j', Ok (length cs)) ∧
      log_holds rs (cs ++ [Replace (concat rs') (length cs)]) j' ∧
      ∀ i, log_wait i j' = log_wait i j;
  log_replace_oversized contents j :
    MAXIMUM_REPLACEMENT_BYTES < length_z contents →
    ∃ e, log_enqueue_replace contents j = (j, Err e);
  log_writes_holds rs cs j j' : log_holds rs cs j → log_writes j j' → log_holds rs cs j';
  log_writes_wait rs cs j j' i r :
    log_holds rs cs j → log_writes j j' → log_wait i j = Some r → log_wait i j' = Some r;
  log_wait_prefix rs cs j i i' :
    log_holds rs cs j → (i' ≤ i)%nat → log_wait i j = Some (Ok tt) → log_wait i' j = Some (Ok tt);
  log_wait_submitted rs cs j i r :
    log_holds rs cs j → log_wait i j = Some r → (i < length cs)%nat;
  log_recovery path mb mr rs cs j r :
    log_holds rs cs j → log_reads path mb mr j r →
    ∃ k, (k ≤ length cs)%nat ∧
      (∀ i, log_wait i j = Some (Ok tt) → (i < k)%nat) ∧
      r = bounded path mb mr (records_of rs (take k cs))
}.

(** What clients of the log use to follow an append they wait for. *)
Section clients.
Context {J : Type} `{DurableLog J}.

Lemma bounded_Ok path mb mr rs records : bounded path mb mr rs = Ok records → records = rs.
Proof. unfold bounded. intros Hb. inv_ok Hb. congruence. Qed.

Definition answers_kept (j j' : J) : Prop := ∀ i r, log_wait i j = Some r → log_wait i j' = Some r.

(** The append [r] can no longer be acknowledged. *)
Definition doomed (j : J) (r : nat) : Prop :=
  ∃ r' error, (r' ≤ r)%nat ∧ log_wait r' j = Some (Err error).

Lemma doomed_mono j j' r : answers_kept j j' → doomed j r → doomed j' r.
Proof. intros Hkeep (r' & error & Hle & Hr'). exists r', error. split; [done|]. by apply Hkeep. Qed.

Lemma doomed_not_ok rs cs j r : log_holds rs cs j → doomed j r → log_wait r j ≠ Some (Ok tt).
Proof.
  intros Hh (r' & error & Hle & Hr') Hok.
  pose proof (log_wait_prefix rs cs j r r' Hh Hle Hok). congruence.
Qed.
End clients.

(** *** The implementation keeps the promise *)

Definition journal_holds (rs : list (list byte)) (cs : list Command) (j : DurableJournal) : Prop :=
  Forall record_wf rs ∧ Forall command_wf cs ∧ channels j = length cs ∧
  (∀ i c, cs !! i = Some c → completion_of c = i) ∧
  ∃ a fl, writer_inv (concat rs) cs (writer j) a fl.

Definition journal_reads (path : string) (mb mr : Z) (j : DurableJournal)
    (r : result SandboxError (list (list byte))) : Prop :=
  ∃ g, crash (disk (writer j)) g ∧ r = read_records path mb mr (Some g).

Lemma records_of_wf rs cs : Forall record_wf rs → Forall command_wf cs → Forall record_wf (records_of rs cs).
Proof.
  intros Hrs Hcs. revert rs Hrs. induction Hcs as [|c cs Hc _ IH]; intros rs Hrs; [done|].
  apply IH. destruct c as [r n|contents n]; simpl in *.
  - apply Forall_app. by repeat constructor.
  - destruct Hc as (rs' & -> & Hrs'). by rewrite split_inclusive_concat.
Qed.

Lemma contents_records rs cs :
  Forall record_wf rs → Forall command_wf cs →
  contents_of (concat rs) cs = concat (records_of rs cs).
Proof.
  intros Hrs Hcs. revert rs Hrs. induction Hcs as [|c cs Hc _ IH]; intros rs Hrs; [done|].
  unfold contents_of, records_of in *. simpl. destruct c as [r n|contents n]; simpl in *.
  - replace (concat rs ++ r) with (concat (rs ++ [r])) by (rewrite concat_app; simpl; by rewrite app_nil_r).
    apply IH. apply Forall_app. by repeat constructor.
  - destruct Hc as (rs' & -> & Hrs'). rewrite split_inclusive_concat by done. by apply IH.
Qed.

Lemma read_records_wf path mb mr rs part :
  Forall record_wf rs → NEWLINE ∉ part → length_z part < MAXIMUM_RECORD_BYTES →
  read_records path mb mr (Some (concat rs ++ part)) = bounded path mb mr rs.
Proof.
  intros Hrs Hpart Hlen. unfold read_records, bounded.
  rewrite (repair_spec path (concat rs) part) by (done || by apply terminated_concat).
  simpl. rewrite split_inclusive_concat by done.
  assert (existsb (λ r, (MAXIMUM_RECORD_BYTES <? length_z r) || bool_decide (r = [NEWLINE])) rs = false)
    as ->; [|by rewrite orb_false_r].
  apply not_true_iff_false. intros (r & Hr & Hbad)%existsb_exists.
  apply list_elem_of_In in Hr. rewrite Forall_forall in Hrs.
  destruct (Hrs r Hr) as (body & -> & _ & Hne & Hmax). simpl_guards.
  destruct Hbad as [Hbad|Hbad]; [lia|]. by destruct body as [|? []].
Qed.

Lemma torn_reads path mb mr rs cs m g :
  Forall record_wf rs → Forall command_wf cs → torn (concat rs) cs m g →
  ∃ k, (m ≤ k ≤ length cs)%nat ∧
    read_records path mb mr (Some g) = bounded path mb mr (records_of rs (take k cs)).
Proof.
  intros Hrs Hcs (k & part & Hk & -> & Hpart). exists k. split; [done|].
  rewrite contents_records by (try apply Forall_take; done).
  assert (0 < MAXIMUM_RECORD_BYTES) by done.
  apply read_records_wf; [by apply records_of_wf; [|apply Forall_take]| |];
    (destruct Hpart as [->|(r & c & n & Hc & -> & Hn)]; [done || set_solver|]);
    (pose proof (Forall_lookup_1 _ _ _ _ Hcs Hc) as (body & -> & Hnl & _ & Hmax));
    rewrite length_app in *; simpl in *.
  - rewrite take_app_le by lia. intros Hin. apply Hnl.
    apply (elem_of_sublist (take n body)); [done | apply sublist_take].
  - rewrite length_take, length_app. simpl. lia.
Qed.

Lemma find_seq {A} (l : list (nat * A)) m i :
  l.*1 = seq m (length l) → find (λ p, (p.1 =? m + i)%nat) l = l !! i.
Proof.
  revert m i. induction l as [|[x a] l IH]; intros m i; simpl; [done|].
  intros [= -> Hl]. destruct i as [|i]; simpl.
  - by rewrite Nat.add_0_r, Nat.eqb_refl.
  - rewrite (proj2 (Nat.eqb_neq _ _)) by lia. rewrite Nat.add_succ_r. by apply (IH (S m)).
Qed.

Lemma completion_ids cs :
  (∀ i c, cs !! i = Some c → completion_of c = i) → completion_of <$> cs = seq 0 (length cs).
Proof.
  intros Hids. apply list_eq. intros i. rewrite list_lookup_fmap.
  destruct (cs !! i) as [c|] eqn:Hc; simpl.
  - rewrite (Hids _ _ Hc). symmetry. apply lookup_seq. split; [done|]. by eapply lookup_lt_Some.
  - symmetry. apply lookup_seq_ge. by apply lookup_ge_None.
Qed.

(** The answers of the writer, by command: first the acknowledged ones. *)
Lemma answers rs cs j :
  journal_holds rs cs j →
  ∃ n errors, (n + length errors ≤ length cs)%nat ∧
    (∀ g, crash (disk (writer j)) g → torn (concat rs) cs n g) ∧
    Forall (λ e : result SandboxError (), ∃ m, e = Err m) errors ∧
    ∀ i, wait i j = (replicate n (Ok tt) ++ errors) !! i.
Proof.
  intros (Hrs & Hcs & Hch & Hids & a & fl & [Hsub (errors & Hcomp & Herr & Hall) _ Hcrash]).
  exists (length a), ((λ e : nat * result string (), map_err Runtime e.2) <$> errors).
  assert (length errors = length fl) as Hlen.
  { rewrite <- (length_fmap fst errors), Herr. apply length_fmap. }
  split_and!; [rewrite length_fmap, Hsub, !length_app; lia|done| |].
  - apply Forall_fmap. eapply Forall_impl; [exact Hall|]. intros [x r] [m Hr]. simpl in *. subst. eauto.
  - intros i. unfold wait.
    assert ((completions (writer j)).*1 = seq 0 (length (completions (writer j)))) as Hseq.
    { assert ((completions (writer j)).*1 = completion_of <$> (a ++ fl)) as Hfst.
      { rewrite Hcomp, !fmap_app, Herr. f_equal. unfold ok_completions.
        by rewrite <- list_fmap_compose. }
      assert (length (completions (writer j)) = length (a ++ fl)) as ->.
      { rewrite <- (length_fmap fst (completions (writer j))), Hfst. apply length_fmap. }
      pose proof (completion_ids cs Hids) as Hall_ids.
      rewrite Hsub, app_assoc, fmap_app, length_app, seq_app in Hall_ids.
      apply app_inj_1 in Hall_ids as [Hall_ids _]; [congruence|]. by rewrite length_fmap, length_seq. }
    pose proof (find_seq _ 0 i Hseq) as Hfind. simpl in Hfind. rewrite Hfind, Hcomp.
    unfold ok_completions. destruct (decide (i < length a)%nat) as [Hi|Hi].
    + rewrite !lookup_app_l by (rewrite ?length_fmap, ?length_replicate; lia).
      rewrite list_lookup_fmap, lookup_replicate_2 by lia.
      destruct (lookup_lt_is_Some_2 a i Hi) as [c ->]. done.
    + rewrite !lookup_app_r by (rewrite ?length_fmap, ?length_replicate; lia).
      rewrite length_fmap, length_replicate, list_lookup_fmap.
      by destruct (errors !! (i - length a)%nat) as [[]|].
Qed.

Lemma record_wf_check r : record_wf r → check_append r = Ok tt.
Proof.
  intros (body & -> & _ & Hne & Hmax). apply reject_if_Ok. rewrite last_snoc.
  rewrite bool_decide_false by (by destruct body). rewrite bool_decide_true by done. lia.
Qed.

Lemma replacement_check rs :
  Forall record_wf rs → length_z (concat rs) ≤ MAXIMUM_REPLACEMENT_BYTES →
  check_replace (concat rs) = Ok tt.
Proof.
  intros Hrs Hlen. apply reject_if_Ok. rewrite (proj2 (Z.ltb_ge _ _)) by lia. simpl.
  destruct (terminated_concat rs Hrs) as [->| ->]; [done|].
  by rewrite (bool_decide_true (Some NEWLINE = Some NEWLINE)), andb_false_r.
Qed.

Lemma enqueue_holds rs cs command j :
  journal_holds rs cs j → command_wf (command (length cs)) →
  completion_of (command (length cs)) = length cs →
  ∃ j', enqueue command j = (j', length cs) ∧ journal_holds rs (cs ++ [command (length cs)]) j' ∧
    ∀ i, wait i j' = wait i j.
Proof.
  intros (Hrs & Hcs & Hch & Hids & a & fl & Hinv) Hwf Hid. unfold enqueue. rewrite Hch.
  eexists. split; [done|]. split; [|done]. split_and!; simpl.
  - done.
  - apply Forall_app. by repeat constructor.
  - rewrite length_app. simpl. lia.
  - intros i c [Hc|[Hi Hc]]%lookup_app_Some; [by apply Hids|].
    apply list_lookup_singleton_Some in Hc as [Hz <-]. rewrite Hid. lia.
  - exists a, fl. by apply send_inv.
Qed.

Lemma enqueue_append_holds rs cs r j :
  journal_holds rs cs j → record_wf r →
  ∃ j', enqueue_append r j = (j', Ok (length cs)) ∧
    journal_holds rs (cs ++ [Append r (length cs)]) j' ∧ ∀ i, wait i j' = wait i j.
Proof.
  intros Hj Hr. destruct (enqueue_holds rs cs (Append r) j Hj Hr eq_refl) as (j' & Henq & Hrest).
  exists j'. split; [|done]. unfold enqueue_append, mbind, M_bind, M_lift, M_state.
  by rewrite record_wf_check, Henq.
Qed.

Lemma enqueue_replace_holds rs cs rs' j :
  journal_holds rs cs j → Forall record_wf rs' →
  length_z (concat rs') ≤ MAXIMUM_REPLACEMENT_BYTES →
  ∃ j', enqueue_replace (concat rs') j = (j', Ok (length cs)) ∧
    journal_holds rs (cs ++ [Replace (concat rs') (length cs)]) j' ∧ ∀ i, wait i j' = wait i j.
Proof.
  intros Hj Hrs' Hlen.
  destruct (enqueue_holds rs cs (Replace (concat rs')) j Hj) as (j' & Henq & Hrest);
    [by exists rs'|done|].
  exists j'. split; [|done]. unfold enqueue_replace, mbind, M_bind, M_lift, M_state.
  by rewrite replacement_check, Henq.
Qed.

Lemma journal_recovery path mb mr rs cs j r :
  journal_holds rs cs j → journal_reads path mb mr j r →
  ∃ k, (k ≤ length cs)%nat ∧ (∀ i, wait i j = Some (Ok tt) → (i < k)%nat) ∧
    r = bounded path mb mr (records_of rs (take k cs)).
Proof.
  intros Hj (g & Hg & ->).
  destruct (answers rs cs j Hj) as (n & errors & _ & Hcrash & Herr & Hw).
  destruct Hj as (Hrs & Hcs & _).
  destruct (torn_reads path mb mr rs cs n g Hrs Hcs (Hcrash g Hg)) as (k & Hk & Hread).
  exists k. split; [lia|]. split; [|done]. intros i Hi. rewrite Hw in Hi.
  destruct (decide (i < n)%nat) as [|Hge]; [lia|].
  rewrite lookup_app_r in Hi by (rewrite length_replicate; lia).
  pose proof (Forall_lookup_1 _ _ _ _ Herr Hi) as [m Hm]. done.
Qed.

Lemma write_holds path window io rs cs j :
  journal_holds rs cs j → journal_holds rs cs (write path window io j).
Proof.
  intros Hj. unfold write. destruct (run_iteration path window io (writer j)) as [w|] eqn:Hrun; [|done].
  destruct Hj as (Hrs & Hcs & Hch & Hids & a & fl & Hinv).
  destruct (step_inv _ _ _ _ _ _ _ _ _ Hinv Hrun) as (a' & fl' & Hinv' & _).
  split_and!; try done. by exists a', fl'.
Qed.

Lemma completions_grow path window io w w' :
  run_iteration path window io w = Some w' → completions w `prefix_of` completions w'.
Proof.
  unfold run_iteration. destruct (next_command w) as [[c q]|]; simpl; [|done]. intros [= <-].
  destruct (failure w); [by apply prefix_app_r|]. destruct c.
  - repeat case_match; simplify_eq/=; by apply prefix_app_r.
  - repeat case_match; simplify_eq/=; by apply prefix_app_r.
Qed.

Lemma find_app {A} (p : A → bool) l k :
  find p (l ++ k) = match find p l with Some x => Some x | None => find p k end.
Proof. induction l as [|y l IH]; simpl; [done|]. by destruct (p y). Qed.

Lemma write_wait path window io j i r :
  wait i j = Some r → wait i (write path window io j) = Some r.
Proof.
  unfold write. destruct (run_iteration path window io (writer j)) as [w|] eqn:Hrun; [|done].
  apply completions_grow in Hrun as [k Hk]. unfold wait. simpl. rewrite Hk.
  destruct (find _ (completions (writer j))) as [[n x]|] eqn:Hf; [|done].
  by rewrite find_app, Hf.
Qed.

#[global] Instance journal_log : DurableLog DurableJournal.
Proof.
  refine {|
    log_enqueue_append := enqueue_append;
    log_enqueue_replace := enqueue_replace;
    log_wait := wait;
    log_writes j j' := ∃ path window io, j' = write path window io j;
    log_reads := journal_reads;
    log_holds := journal_holds
  |}.
  - exact enqueue_append_holds.
  - exact enqueue_replace_holds.
  - intros contents j Hlen. eexists. unfold enqueue_replace, check_replace, mbind, M_bind, M_lift.
    unfold reject_if. by rewrite (proj2 (Z.ltb_lt _ _)) by done.
  - intros rs cs j j' Hj (path & window & io & ->). by apply write_holds.
  - intros rs cs j j' i r Hj (path & window & io & ->). apply write_wait.
  - intros rs cs j i i' Hj Hle Hi. destruct (answers rs cs j Hj) as (n & errors & _ & _ & Herr & Hw).
    rewrite Hw in Hi |- *. destruct (decide (i < n)%nat) as [Hlt|Hge].
    + rewrite lookup_app_l by (rewrite length_replicate; lia). apply lookup_replicate_2. lia.
    + rewrite lookup_app_r in Hi by (rewrite length_replicate; lia).
      pose proof (Forall_lookup_1 _ _ _ _ Herr Hi) as [m Hm]. done.
  - intros rs cs j i r Hj Hi. destruct (answers rs cs j Hj) as (n & errors & Hlen & _ & _ & Hw).
    rewrite Hw in Hi. apply lookup_lt_Some in Hi. rewrite length_app, length_replicate in Hi. lia.
  - exact journal_recovery.
Defined.

(** ** Histories *)

Inductive event : Type :=
| EvAppend (record : list byte)
| EvReplace (rs : list (list byte))
| EvWrite (window : nat) (io : io_outcome).

Definition event_wf (e : event) : Prop :=
  match e with
  | EvAppend r => record_wf r
  | EvReplace rs => Forall record_wf rs ∧ length_z (concat rs) ≤ MAXIMUM_REPLACEMENT_BYTES
  | EvWrite _ _ => True
  end.

Definition do_event (path : string) (j : DurableJournal) (e : event) : DurableJournal :=
  match e with
  | EvAppend r => (enqueue_append r j).1
  | EvReplace rs => (enqueue_replace (concat rs) j).1
  | EvWrite window io => write path window io j
  end.

(** The commands a history submits, numbered from [n]. *)
Fixpoint commands (n : nat) (es : list event) : list Command :=
  match es with
  | [] => []
  | EvAppend r :: es' => Append r n :: commands (S n) es'
  | EvReplace rs :: es' => Replace (concat rs) n :: commands (S n) es'
  | EvWrite _ _ :: es' => commands n es'
  end.

Lemma open_holds path rs part :
  Forall record_wf rs → NEWLINE ∉ part → length_z part < MAXIMUM_RECORD_BYTES →
  ∃ j, open path (Some (concat rs ++ part)) = Ok j ∧ journal_holds rs [] j ∧
    failure (writer j) = None.
Proof.
  intros Hrs Hpart Hlen. unfold open. rewrite repair_spec by (done || by apply terminated_concat).
  simpl. eexists. split; [done|]. split; [|done].
  split_and!; try done. exists [], []. apply spawn_inv.
Qed.

Lemma history_holds path es : ∀ rs cs j,
  journal_holds rs cs j → Forall event_wf es →
  journal_holds rs (cs ++ commands (length cs) es) (foldl (do_event path) j es).
Proof.
  induction es as [|e es IH]; intros rs cs j Hj Hes; [by rewrite app_nil_r|].
  apply Forall_cons in Hes as [He Hes]. destruct e as [r|rs'|window io]; simpl in *.
  - destruct (enqueue_append_holds rs cs r j Hj He) as (j' & -> & Hj' & _). simpl.
    specialize (IH _ _ _ Hj' Hes). rewrite length_app in IH. simpl in IH.
    by rewrite Nat.add_1_r, <- app_assoc in IH.
  - destruct He as [Hrs' Hlen].
    destruct (enqueue_replace_holds rs cs rs' j Hj Hrs' Hlen) as (j' & -> & Hj' & _). simpl.
    specialize (IH _ _ _ Hj' Hes). rewrite length_app in IH. simpl in IH.
    by rewrite Nat.add_1_r, <- app_assoc in IH.
  - apply IH; [by apply write_holds|done].
Qed.

(** ** Properties *)

(** C23: Nothing that was acknowledged is lost, and nothing else appears.  Open
    the journal on a file with a torn last line, submit any records and
    replacements, let the writer thread batch them as it likes with any I/O
    failures, and crash at any moment: recovery reads exactly the records left
    by some prefix of the submitted commands, and that prefix contains every
    command whose receipt reported success.  (Recovery refuses to start only
    when that many records exceed the caller's bounds.) *)
Theorem journal_recovers_acknowledged path rs part es mb mr :
  Forall record_wf rs → NEWLINE ∉ part → length_z part < MAXIMUM_RECORD_BYTES →
  Forall event_wf es →
  ∃ j0, open path (Some (concat rs ++ part)) = Ok j0 ∧
    let j := foldl (do_event path) j0 es in
    let cs := commands 0 es in
    ∀ g, crash (disk (writer j)) g →
    ∃ k, (k ≤ length cs)%nat ∧ (∀ i, wait i j = Some (Ok tt) → (i < k)%nat) ∧
      read_records path mb mr (Some g) = bounded path mb mr (records_of rs (take k cs)).
Proof.
  intros Hrs Hpart Hlen Hes. destruct (open_holds path rs part Hrs Hpart Hlen) as (j0 & Hopen & Hj0 & _).
  exists j0. split; [done|]. intros j cs g Hg.
  pose proof (history_holds path es _ _ _ Hj0 Hes) as Hj. simpl in Hj.
  destruct (journal_recovery path mb mr rs cs j (read_records path mb mr (Some g)) Hj) as (k & Hk & Hacked & Hr).
  { by exists g. }
  by exists k.
Qed.

(** A history without I/O failures. *)
Definition event_ok (e : event) : Prop :=
  match e with EvWrite _ io => io = IoOk | _ => True end.

Lemma healthy_history path es : ∀ j,
  Forall event_ok es → failure (writer j) = None →
  failure (writer (foldl (do_event path) j es)) = None.
Proof.
  induction es as [|e es IH]; intros j Hes Hj; [done|]. apply Forall_cons in Hes as [He Hes].
  apply IH; [done|]. destruct e as [r|rs|window io]; simpl in *.
  - unfold enqueue_append, mbind, M_bind, M_lift. by destruct (check_append r).
  - unfold enqueue_replace, mbind, M_bind, M_lift. by destruct (check_replace (concat rs)).
  - subst io. unfold write, run_iteration.
    destruct (next_command (writer j)) as [[c q]|]; simpl; [|done]. rewrite Hj. destruct c; simpl.
    + by destruct (gather _ q) as [[more p] rest].
    + done.
Qed.

Lemma run_iteration_Some path window io w :
  (0 < length (queued w))%nat → is_Some (run_iteration path window io w).
Proof.
  unfold queued, run_iteration, next_command. intros Hq.
  destruct (pending w), (receiver w); simpl in *; eauto; lia.
Qed.

Lemma writes_drain path windows : ∀ f cs w a,
  writer_inv f cs w a [] → failure w = None → (length (queued w) ≤ length windows)%nat →
  ∃ w', writer (foldl (do_event path) (MkJournal w (length cs)) ((λ n, EvWrite n IoOk) <$> windows)) = w' ∧
    writer_inv f cs w' cs [] ∧ failure w' = None.
Proof.
  induction windows as [|n windows IH]; intros f cs w a Hinv Hf Hlen.
  - exists w. split; [done|]. split; [|done].
    destruct (queued w) eqn:Hq; [|simpl in Hlen; lia].
    pose proof (inv_submitted _ _ _ _ _ Hinv) as Hsub. rewrite Hq, !app_nil_r in Hsub. by subst a.
  - simpl. unfold write. simpl. destruct (decide (0 < length (queued w))%nat) as [Hpos|Hzero].
    + destruct (run_iteration_Some path n IoOk w Hpos) as [w1 Hrun]. rewrite Hrun.
      destruct (step_inv _ _ _ _ _ _ _ _ _ Hinv Hrun) as (a1 & fl1 & Hinv1 & _ & Hless & Hok).
      specialize (Hok eq_refl Hf). destruct (inv_live _ _ _ _ _ Hinv1 Hok) as [-> _].
      apply (IH f cs w1 a1 Hinv1 Hok). simpl in Hlen. lia.
    + assert (run_iteration path n IoOk w = None) as ->.
      { unfold run_iteration, next_command. unfold queued in Hzero.
        destruct (pending w), (receiver w); simpl in *; done || lia. }
      apply (IH f cs w a Hinv Hf). simpl in Hlen. lia.
Qed.

(** Group commit is invisible.  However the writer thread batches appends
    and wherever it stops to replace the file, once it has run as many
    iterations as there are commands (it may need fewer), every command has been
    answered with success and the file holds, synced, exactly what executing the
    commands one after the other would have written. *)
Theorem group_commit_is_sequential path rs part es windows :
  Forall record_wf rs → NEWLINE ∉ part → length_z part < MAXIMUM_RECORD_BYTES →
  Forall event_wf es → Forall event_ok es →
  (length (commands 0 es) ≤ length windows)%nat →
  ∃ j0, open path (Some (concat rs ++ part)) = Ok j0 ∧
    let j := foldl (do_event path) j0 (es ++ ((λ n, EvWrite n IoOk) <$> windows)) in
    let cs := commands 0 es in
    disk (writer j) = MkDisk (concat (records_of rs cs)) Synced ∧
    ∀ i, (i < length cs)%nat → wait i j = Some (Ok tt).
Proof.
  intros Hrs Hpart Hlen Hes Hok Hwin.
  destruct (open_holds path rs part Hrs Hpart Hlen) as (j0 & Hopen & Hj0 & Hf0).
  exists j0. split; [done|]. intros j cs. unfold j. rewrite foldl_app.
  pose proof (history_holds path es _ _ _ Hj0 Hes) as Hj1. simpl in Hj1. fold cs in Hj1.
  pose proof (healthy_history path es j0 Hok Hf0) as Hf1.
  set (j1 := foldl (do_event path) j0 es) in *.
  destruct Hj1 as (_ & Hcs & Hch & Hids & a & fl & Hinv).
  destruct (inv_live _ _ _ _ _ Hinv Hf1) as [-> _].
  destruct (writes_drain path windows _ _ _ _ Hinv Hf1) as (w & Hw & Hinv' & Hf').
  { pose proof (f_equal length (inv_submitted _ _ _ _ _ Hinv)) as Hl.
    rewrite !length_app in Hl. simpl in Hl. fold cs in Hwin. lia. }
  assert (j1 = MkJournal (writer j1) (length cs)) as -> by (rewrite <- Hch; by destruct j1).
  set (j2 := foldl _ _ _) in *.
  destruct (inv_live _ _ _ _ _ Hinv' Hf') as [_ Hdisk].
  rewrite Hw, Hdisk, contents_records by done. split; [done|].
  intros i Hi. unfold wait. rewrite Hw.
  destruct (inv_completions _ _ _ _ _ Hinv') as (errors & Hcomp & Herr & _).
  destruct errors; [|done]. rewrite Hcomp, app_nil_r.
  pose proof (find_seq (ok_completions cs) 0 i) as Hfind. simpl in Hfind. rewrite Hfind.
  - unfold ok_completions. rewrite list_lookup_fmap.
    by destruct (lookup_lt_is_Some_2 cs i Hi) as [c ->].
  - unfold ok_completions. rewrite length_fmap, <- completion_ids by done.
    by rewrite <- list_fmap_compose.
Qed.

(** Every file splits into complete lines and a tail without a newline. *)
Lemma lines_and_tail (f : list byte) :
  ∃ g t, f = g ++ t ∧ terminated g ∧ NEWLINE ∉ t.
Proof.
  induction f as [|b f (g & t & -> & Hg & Ht)] using rev_ind.
  { exists [], []. split_and!; [done|by left|set_solver]. }
  destruct (decide (b = NEWLINE)) as [->|Hne].
  - exists ((g ++ t) ++ [NEWLINE]), []. rewrite app_nil_r.
    split_and!; [done|right; apply last_snoc|set_solver].
  - exists g, (t ++ [b]). rewrite app_assoc. split_and!; [done|done|set_solver].
Qed.

Lemma tail_unique (g t g' t' : list byte) :
  terminated g → NEWLINE ∉ t → terminated g' → NEWLINE ∉ t' → g ++ t = g' ++ t' → g = g' ∧ t = t'.
Proof.
  assert (∀ (x : list byte) u, terminated x → NEWLINE ∉ u →
            ∀ x' u', terminated x' → x ++ u = x' ++ u' → (length x' ≤ length x)%nat) as Hle.
  { intros x u Hx Hu x' u' Hx' Heq. destruct Hx' as [->|Hx']; [simpl; lia|].
    destruct (decide (length x' ≤ length x)%nat) as [|Hgt]; [done|].
    apply last_Some in Hx' as [y ->]. rewrite length_app in *. simpl in *.
    assert ((x ++ u) !! length y = Some NEWLINE) as Hin.
    { rewrite Heq, <- app_assoc, lookup_app_r by lia. by rewrite Nat.sub_diag. }
    rewrite lookup_app_r in Hin by lia. destruct Hu. by eapply list_elem_of_lookup_2. }
  intros Hg Ht Hg' Ht' Heq.
  pose proof (Hle g t Hg Ht g' t' Hg' Heq). pose proof (Hle g' t' Hg' Ht' g t Hg (eq_sym Heq)).
  apply app_inj_1 in Heq; [done|lia].
Qed.

Lemma repair_oversized path g t :
  terminated g → NEWLINE ∉ t → MAXIMUM_RECORD_BYTES ≤ length_z t →
  repair_torn_tail path (Some (g ++ t)) =
    if length_z (g ++ t) =? MAXIMUM_RECORD_BYTES then Ok (Some [])
    else Err (Runtime ("journal `" +:+ path +:+ "` has an oversized torn record")).
Proof.
  intros Hg Ht Hlen. unfold repair_torn_tail.
  assert (0 < MAXIMUM_RECORD_BYTES) by done.
  assert (length_z (g ++ t) = length_z g + length_z t) as Hsum by (rewrite length_app; lia).
  rewrite (proj2 (Z.eqb_neq _ 0)) by lia. rewrite bool_decide_false.
  2: { destruct t as [|y t _] using rev_ind; [simpl in *; lia|].
       rewrite app_assoc, last_snoc. intros [= ->]. apply Ht. set_solver. }
  rewrite (Z.min_r _ MAXIMUM_RECORD_BYTES) by lia.
  rewrite rposition_None.
  - destruct (Z.eqb_spec (length_z (g ++ t)) MAXIMUM_RECORD_BYTES) as [->|Hne].
    + by rewrite Z.sub_diag.
    + by rewrite (proj2 (Z.eqb_neq _ 0)) by lia.
  - apply no_newline. rewrite drop_app_ge by lia. intros Hin. apply Ht.
    eapply elem_of_sublist; [exact Hin|apply sublist_drop].
Qed.

(** The repair of a journal file, on every file.  Split the file into its
    complete lines [g] and a tail [t] without a newline; there is one such split.
    If the tail is shorter than the record bound the repaired file is [g]: no
    complete record is lost and no torn one is kept.  Otherwise no record the
    writer accepts could have been torn there, and the repair reports an error,
    except for a file that is one line of exactly the bound, which it empties. *)
Theorem repair_characterised path f :
  ∃ g t, f = g ++ t ∧ terminated g ∧ (NEWLINE ∉ t) ∧
    (∀ g' t', f = g' ++ t' → terminated g' → NEWLINE ∉ t' → g' = g ∧ t' = t) ∧
    repair_torn_tail path (Some f) =
      if length_z t <? MAXIMUM_RECORD_BYTES then Ok (Some g)
      else if length_z f =? MAXIMUM_RECORD_BYTES then Ok (Some [])
      else Err (Runtime ("journal `" +:+ path +:+ "` has an oversized torn record")).
Proof.
  destruct (lines_and_tail f) as (g & t & -> & Hg & Ht). exists g, t. split_and!; try done.
  - intros g' t' Heq Hg' Ht'. by apply tail_unique.
  - destruct (Z.ltb_spec (length_z t) MAXIMUM_RECORD_BYTES).
    + by apply repair_spec.
    + by apply repair_oversized.
Qed.

Lemma event_failed path j e m :
  failure (writer j) = Some m →
  failure (writer (do_event path j e)) = Some m ∧
  disk (writer (do_event path j e)) = disk (writer j) ∧
  ∀ i, wait i (do_event path j e) = Some (Ok tt) → wait i j = Some (Ok tt).
Proof.
  intros Hf. destruct e as [r|rs|window io]; simpl.
  - unfold enqueue_append, mbind, M_bind, M_lift. by destruct (check_append r).
  - unfold enqueue_replace, mbind, M_bind, M_lift. by destruct (check_replace (concat rs)).
  - unfold write, run_iteration. destruct (next_command (writer j)) as [[c q]|]; simpl; [|done].
    rewrite Hf. split_and!; [done..|]. intros i. unfold wait. simpl.
    destruct (find _ (completions (writer j))) as [[n r]|] eqn:Hfind.
    + by rewrite find_app, Hfind.
    + rewrite find_app, Hfind. simpl. by destruct (completion_of c =? i)%nat.
Qed.

(** The journal fails stop.  Once one command has been answered with an
    error, the file is never written again and no command submitted before or
    after it that was still unanswered is ever reported as durable, whatever
    happens next. *)
Theorem journal_fails_stop path rs part es more i e :
  Forall record_wf rs → NEWLINE ∉ part → length_z part < MAXIMUM_RECORD_BYTES →
  Forall event_wf es → Forall event_wf more →
  ∃ j0, open path (Some (concat rs ++ part)) = Ok j0 ∧
    let j := foldl (do_event path) j0 es in
    let j' := foldl (do_event path) j more in
    wait i j = Some (Err e) →
    disk (writer j') = disk (writer j) ∧
    ∀ i', wait i' j ≠ Some (Ok tt) → wait i' j' ≠ Some (Ok tt).
Proof.
  intros Hrs Hpart Hlen Hes Hmore.
  destruct (open_holds path rs part Hrs Hpart Hlen) as (j0 & Hopen & Hj0 & _).
  exists j0. split; [done|]. intros j j' Hi.
  pose proof (history_holds path es _ _ _ Hj0 Hes) as Hj. simpl in Hj. fold j in Hj.
  assert (∃ m, failure (writer j) = Some m) as [m Hm].
  { destruct Hj as (_ & _ & _ & Hids & a & fl & Hinv).
    destruct (failure (writer j)) as [m|] eqn:Hf; [eauto|].
    destruct (inv_live _ _ _ _ _ Hinv Hf) as [-> _].
    destruct (inv_completions _ _ _ _ _ Hinv) as (errors & Hcomp & Herr & _).
    destruct errors; [|done]. rewrite app_nil_r in Hcomp.
    unfold wait in Hi. rewrite Hcomp in Hi.
    destruct (find _ _) as [[n r]|] eqn:Hfind; [|done].
    apply find_some in Hfind as [Hin _]. apply list_elem_of_In in Hin.
    unfold ok_completions in Hin. by apply list_elem_of_fmap in Hin as (c & [= -> ->] & _). }
  clear Hi Hopen Hj0 Hes. unfold j'. clear j'. revert Hj. generalize (commands 0 es). intros cs Hj.
  generalize dependent cs. clearbody j. revert j Hm. clear -Hmore.
  induction more as [|ev more IH]; intros j Hm cs Hj; [done|]. simpl.
  apply Forall_cons in Hmore as [Hev Hmore].
  destruct (event_failed path j ev m Hm) as (Hm' & Hd & Hwait1).
  pose proof (history_holds path [ev] _ _ _ Hj) as Hj1.
  destruct (IH Hmore _ Hm' _ (Hj1 ltac:(by repeat constructor))) as [Hdisk Hwait].
  split; [congruence|]. intros i' Hi'. apply Hwait. auto.
Qed.

(** ** Witnesses *)

Definition line (s : string) : list byte := bytes s ++ [NEWLINE].

Lemma line_wf s :
  negb (existsb is_newline (bytes s)) && negb (bool_decide (bytes s = []))
    && (length_z (line s) <=? MAXIMUM_RECORD_BYTES) = true →
  record_wf (line s).
Proof.
  intros H. simpl_guards. exists (bytes s). split_and!; [done| |done|by apply Z.leb_le].
  intros Hin. apply not_true_iff_false in H. apply H, existsb_exists. exists NEWLINE.
  split; [by apply list_elem_of_In|done].
Qed.

Definition w_events : list event :=
  [EvAppend (line "b"); EvAppend (line "c"); EvWrite 9 IoOk; EvReplace [line "d"];
   EvAppend (line "e"); EvWrite 0 IoOk].

Lemma w_events_wf : Forall event_wf w_events.
Proof. repeat constructor; try (by apply line_wf); by vm_compute. Qed.

Lemma w_records_wf : Forall record_wf [line "a"].
Proof. repeat constructor. by apply line_wf. Qed.

Lemma w_torn_part : (NEWLINE ∉ bytes "to") ∧ length_z (bytes "to") < MAXIMUM_RECORD_BYTES.
Proof. split; [by apply (bool_decide_eq_true_1 _) | done]. Qed.

Lemma journal_recovers_acknowledged_witness :
  ∃ j0, open "/wal" (Some (concat [line "a"] ++ bytes "to")) = Ok j0 ∧
    let j := foldl (do_event "/wal") j0 (w_events ++ [EvAppend (line "f"); EvWrite 1 (WriteFailed 1 "full")]) in
    ∀ g, crash (disk (writer j)) g →
    ∃ k, (k ≤ 5)%nat ∧ (∀ i, wait i j = Some (Ok tt) → (i < k)%nat) ∧
      read_records "/wal" 1000 10 (Some g) =
        bounded "/wal" 1000 10 (records_of [line "a"]
          (take k (commands 0 (w_events ++ [EvAppend (line "f"); EvWrite 1 (WriteFailed 1 "full")])))).
Proof.
  apply (journal_recovers_acknowledged "/wal" [line "a"] (bytes "to")
           (w_events ++ [EvAppend (line "f"); EvWrite 1 (WriteFailed 1 "full")]) 1000 10).
  - exact w_records_wf.
  - apply w_torn_part.
  - apply w_torn_part.
  - apply Forall_app. split; [exact w_events_wf|]. repeat constructor. by apply line_wf.
Defined.

Lemma group_commit_is_sequential_witness :
  ∃ j0, open "/wal" (Some (concat [line "a"] ++ bytes "to")) = Ok j0 ∧
    let j := foldl (do_event "/wal") j0 (w_events ++ ((λ n, EvWrite n IoOk) <$> [0; 7; 1; 2]%nat)) in
    disk (writer j) = MkDisk (line "d" ++ line "e") Synced ∧
    ∀ i, (i < 4)%nat → wait i j = Some (Ok tt).
Proof.
  apply (group_commit_is_sequential "/wal" [line "a"] (bytes "to") w_events [0; 7; 1; 2]%nat).
  - exact w_records_wf.
  - apply w_torn_part.
  - apply w_torn_part.
  - exact w_events_wf.
  - by repeat constructor.
  - vm_compute. lia.
Defined.

Lemma journal_fails_stop_witness :
  ∃ j0, open "/wal" (Some (concat [line "a"] ++ bytes "to")) = Ok j0 ∧
    let j := foldl (do_event "/wal") j0 [EvAppend (line "b"); EvWrite 0 (SyncFailed "io")] in
    let j' := foldl (do_event "/wal") j [EvAppend (line "c"); EvWrite 0 IoOk] in
    wait 0 j = Some (Err (Runtime "append and sync journal `/wal`: io")) →
    disk (writer j') = disk (writer j) ∧ ∀ i', wait i' j ≠ Some (Ok tt) → wait i' j' ≠ Some (Ok tt).
Proof.
  apply (journal_fails_stop "/wal" [line "a"] (bytes "to")
           [EvAppend (line "b"); EvWrite 0 (SyncFailed "io")] [EvAppend (line "c"); EvWrite 0 IoOk]).
  - exact w_records_wf.
  - apply w_torn_part.
  - apply w_torn_part.
  - repeat constructor. by apply line_wf.
  - repeat constructor. by apply line_wf.
Defined.
