(* ===== verification/LineCodec.v ===== *)
(** * A concrete line encoder

    [serde_json] is a parameter of the components that persist records.  This
    file builds a small encoder with the behaviour they rely on (one line, no
    newline inside, decoding inverts encoding, bounded length), to instantiate
    the parameter: fields separated by commas, numbers in fixed-width
    hexadecimal. *)
From S2P Require Import Prelude Identity Journal.
Import Journal.Journal.

Definition COMMA : ascii := ",".

(** Hexadecimal digits. *)
Definition hex_char (n : Z) : ascii := ascii_of_N (Z.to_N (if n <? 10 then 48 + n else 87 + n)).
Definition hex_value (c : ascii) : Z := if code c <=? 57 then code c - 48 else code c - 87.

Lemma hex_char_spec n :
  0 ≤ n < 16 → hex_value (hex_char n) = n ∧ is_lowercase_hex (hex_char n) = true.
Proof.
  intros Hn. assert (n ∈ Z.of_nat <$> seq 0 16) as Hin.
  { apply list_elem_of_fmap. exists (Z.to_nat n). split; [lia|]. apply elem_of_seq. lia. }
  revert n Hn Hin. cut (Forall (λ n, hex_value (hex_char n) = n ∧ is_lowercase_hex (hex_char n) = true)
    (Z.of_nat <$> seq 0 16)).
  { rewrite Forall_forall. auto. }
  repeat constructor.
Qed.

(** [n] digits, least significant first. *)
Fixpoint to_hex (n : nat) (z : Z) : list ascii :=
  match n with
  | O => []
  | S n' => hex_char (z mod 16) :: to_hex n' (z / 16)
  end.
Fixpoint of_hex (l : list ascii) : Z :=
  match l with [] => 0 | c :: l' => hex_value c + 16 * of_hex l' end.

Lemma of_to_hex n z : 0 ≤ z < 16 ^ Z.of_nat n → of_hex (to_hex n z) = z.
Proof.
  revert z. induction n as [|n IH]; intros z Hz; [change (16 ^ Z.of_nat 0) with 1 in Hz; simpl; lia|].
  rewrite Nat2Z.inj_succ, Z.pow_succ_r in Hz by lia. simpl.
  rewrite (proj1 (hex_char_spec (z mod 16) (Z.mod_pos_bound z 16 ltac:(lia)))).
  rewrite IH; [rewrite (Z.div_mod z 16) at 3; lia|].
  split; [apply Z.div_pos; lia|]. apply Z.div_lt_upper_bound; lia.
Qed.

Lemma to_hex_chars n z : Forall (λ c, is_lowercase_hex c = true) (to_hex n z).
Proof.
  revert z. induction n as [|n IH]; intros z; simpl; constructor; [|apply IH].
  apply hex_char_spec, Z.mod_pos_bound. lia.
Qed.

Lemma length_to_hex n z : length (to_hex n z) = n.
Proof. revert z. induction n as [|n IH]; intros z; simpl; [done|by rewrite IH]. Qed.

(** Fields. *)
Definition join (fs : list (list ascii)) : list ascii := concat ((λ f, f ++ [COMMA]) <$> fs).

Fixpoint fields (l : list ascii) : list (list ascii) :=
  match l with
  | [] => []
  | c :: l' =>
      if Ascii.eqb c COMMA then [] :: fields l'
      else match fields l' with [] => [[c]] | f :: fs => (c :: f) :: fs end
  end.

Definition plain (f : list ascii) : Prop := (COMMA ∉ f) ∧ (NEWLINE ∉ f).

Lemma fields_field f l : COMMA ∉ f → fields (f ++ COMMA :: l) = f :: fields l.
Proof.
  induction f as [|c f IH]; simpl; intros Hf; [done|]. apply not_elem_of_cons in Hf as [Hc Hf].
  destruct (Ascii.eqb_spec c COMMA) as [->|_]; [done|]. by rewrite IH.
Qed.

Lemma fields_join fs l : Forall plain fs → fields (join fs ++ l) = fs ++ fields l.
Proof.
  unfold join. induction 1 as [|f fs [Hf _] _ IH]; [done|]. simpl.
  rewrite <- !app_assoc. simpl. rewrite fields_field by done. f_equal. exact IH.
Qed.

Lemma join_no_newline fs : Forall plain fs → NEWLINE ∉ join fs.
Proof.
  unfold join. induction 1 as [|f fs [_ Hf] _ IH]; [set_solver|]. simpl.
  rewrite !not_elem_of_app. split_and!; [done| |done]. by rewrite list_elem_of_singleton.
Qed.

Lemma hex_plain l : Forall (λ c, is_lowercase_hex c = true) l → plain l.
Proof.
  intros Hl. rewrite Forall_forall in Hl. split; intros Hin; by apply Hl in Hin.
Qed.

Lemma identifier_plain {kind maximum} (i : identifier kind maximum) : plain (bytes (as_str i)).
Proof.
  pose proof (identifier_bytes i) as Hi.
  split; intros Hin; by apply (all_bytes_elem _ _ _ Hi) in Hin.
Qed.

Definition text (l : list ascii) : string := string_of_list_ascii l.
Lemma text_bytes s : text (bytes s) = s.
Proof. apply string_of_list_ascii_of_string. Qed.
