(* ===== verification/Replay.v ===== *)
(** * The replay cache

    Models [bins/sandboxd/src/authorization/replay.rs]: the nonces of accepted
    work orders, kept in memory and in a journal.  The journal is used through
    its interface [DurableLog]; the JSON encoding and SHA-256 are parameters.
    [consume] is modelled as its locked section and its completion, so that
    the calls of several threads, the writer thread and crashes interleave. *)
From S2P Require Import Prelude Identity Journal LineCodec.
Import Journal.Journal.

Module Replay.

Definition REPLAY_SCHEMA_VERSION : Z := 1.
Definition MAXIMUM_LIVE_NONCES : Z := 100000.
Definition COMPACTION_INTERVAL : Z := 10000.
Definition MAXIMUM_RECOVERY_RECORDS : Z := MAXIMUM_LIVE_NONCES + COMPACTION_INTERVAL.
Definition MAXIMUM_WAL_BYTES : Z := 64 * 1024 * 1024.

Record ReplayKey : Type := MkKey { key_scope : TenantScope; nonce_digest : string }.

#[global] Instance ReplayKey_eq_dec : EqDecision ReplayKey.
Proof. solve_decision. Defined.
#[global] Instance ReplayKey_countable : Countable ReplayKey.
Proof.
  refine (inj_countable' (λ k, (key_scope k, nonce_digest k)) (λ p, MkKey p.1 p.2) _).
  by intros [].
Defined.
#[global] Instance ReplayKey_btree : BTreeOrd ReplayKey :=
  λ k, btree_repr (key_scope k) ++ [nonce_digest k].

Record ReplayRecord : Type := MkRecord {
  schema_version : Z;
  record_key : ReplayKey;
  expires_unix_millis : Z
}.

(** [serde_json] on replay records, and SHA-256 in hexadecimal. *)
Class ReplayCodec : Type := {
  to_vec : ReplayRecord → result string (list ascii);
  from_slice : list ascii → result string ReplayRecord;
  sha256_hex : list ascii → string
}.

Section code.
Context `{ReplayCodec} {J : Type} `{DurableLog J}.

Record ReplayCache : Type := MkCache {
  journal : option J;
  entries : gmap ReplayKey Z;
  appends_since_compaction : Z
}.

Abbreviation R := (M ReplayCache SandboxError).

Definition with_journal (j : J) (c : ReplayCache) : ReplayCache :=
  MkCache (Some j) (entries c) (appends_since_compaction c).
Definition with_entries (m : gmap ReplayKey Z) (c : ReplayCache) : ReplayCache :=
  MkCache (journal c) m (appends_since_compaction c).
Definition with_appends (n : Z) (c : ReplayCache) : ReplayCache :=
  MkCache (journal c) (entries c) n.

Definition encode_record (record : ReplayRecord) : result SandboxError (list ascii) :=
  b ← map_err (λ error, Runtime ("encode replay record: " +:+ error)) (to_vec record);
  mret (b ++ [NEWLINE]).

Fixpoint encode_list (l : list (ReplayKey * Z)) : result SandboxError (list ascii) :=
  match l with
  | [] => mret []
  | (key, expires) :: l' =>
      b ← encode_record (MkRecord REPLAY_SCHEMA_VERSION key expires);
      bs ← encode_list l';
      mret (b ++ bs)
  end.

Definition encode_entries (m : gmap ReplayKey Z) : result SandboxError (list ascii) :=
  encode_list (btree_iter m).

Definition on_journal {A} (f : M J SandboxError A) (j : J) : R A :=
  λ c, let '(j', r) := f j in (with_journal j' c, r).

(** [journal.enqueue_...(encoded?)] on the optional journal, transposed. *)
Definition enqueue_with (enqueue : list ascii → M J SandboxError nat)
    (encoded : result SandboxError (list ascii)) : R (option nat) :=
  self ← M_get;
  match journal self with
  | None => mret None
  | Some j =>
      b ← M_lift encoded;
      receipt ← on_journal (enqueue b) j;
      mret (Some receipt)
  end.

Definition enqueue_record (record : ReplayRecord) : R (option nat) :=
  enqueue_with log_enqueue_append (encode_record record).

Definition enqueue_compaction (m : gmap ReplayKey Z) : R (option nat) :=
  enqueue_with log_enqueue_replace (encode_entries m).

Definition retain (now_unix_millis : Z) (m : gmap ReplayKey Z) : gmap ReplayKey Z :=
  filter (λ p, now_unix_millis < p.2) m.

Definition replay_key (scope : TenantScope) (nonce : string) : ReplayKey :=
  MkKey scope (sha256_hex (bytes nonce)).

(** The section of [consume] that holds the lock. *)
Definition consume_locked (scope : TenantScope) (nonce : string) (expires now_unix_millis : Z) :
    R (option nat * option nat) :=
  let key := replay_key scope nonce in
  M_modify (λ c, with_entries (retain now_unix_millis (entries c)) c);;
  self ← M_get;
  M_reject_if (bool_decide (is_Some (entries self !! key)))
    (Runtime "work order has already been consumed");;
  M_reject_if (MAXIMUM_LIVE_NONCES <=? Z.of_nat (size (entries self)))
    (Runtime "work-order replay cache is full");;
  M_modify (λ c, with_entries (<[key := expires]> (entries c)) c);;
  append ← enqueue_record (MkRecord REPLAY_SCHEMA_VERSION key expires);
  M_modify (λ c, with_appends (appends_since_compaction c + 1) c);;
  self ← M_get;
  if COMPACTION_INTERVAL <=? appends_since_compaction self then
    M_modify (with_appends 0);;
    replacement ← enqueue_compaction (entries self);
    mret (append, replacement)
  else mret (append, None).

(** The answer to a receipt; there is nothing to wait for without a journal. *)
Definition answer (c : ReplayCache) (receipt : option nat) : option (result SandboxError ()) :=
  match receipt, journal c with
  | Some r, Some j => log_wait r j
  | _, _ => Some (Ok tt)
  end.

(** The rest of [consume]: [None] while a receipt is not answered. *)
Definition consume_finish (scope : TenantScope) (nonce : string) (expires : Z)
    (append replacement : option nat) (c : ReplayCache) :
    option (ReplayCache * result SandboxError ()) :=
  let key := replay_key scope nonce in
  match answer c append with
  | None => None
  | Some (Err error) =>
      Some (if bool_decide (entries c !! key = Some expires)
            then with_entries (delete key (entries c)) c else c, Err error)
  | Some (Ok _) =>
      match answer c replacement with
      | None => None
      | Some r => Some (c, r)
      end
  end.

(** [compact] up to the wait for its receipt. *)
Definition compact (now_unix_millis : Z) : R (option nat) :=
  M_modify (λ c, with_entries (retain now_unix_millis (entries c)) c);;
  M_modify (with_appends 0);;
  self ← M_get;
  enqueue_compaction (entries self).

Fixpoint load_records (now_unix_millis : Z) (records : list (list ascii)) (m : gmap ReplayKey Z) :
    result SandboxError (gmap ReplayKey Z) :=
  match records with
  | [] => mret m
  | b :: records' =>
      record ← map_err (λ error, Runtime ("decode replay record: " +:+ error)) (from_slice b);
      reject_if (negb (schema_version record =? REPLAY_SCHEMA_VERSION)
                 || (expires_unix_millis record =? 0))
        (Runtime "replay record schema or expiry is invalid");;
      if expires_unix_millis record <=? now_unix_millis
      then load_records now_unix_millis records' m
      else
        reject_if (bool_decide (is_Some (m !! record_key record)))
          (Runtime "replay journal contains a duplicate live nonce");;
        load_records now_unix_millis records'
          (<[record_key record := expires_unix_millis record]> m)
  end.

Definition load (now_unix_millis : Z) (records : result SandboxError (list (list ascii))) :
    result SandboxError (gmap ReplayKey Z) :=
  rs ← records;
  m ← load_records now_unix_millis rs ∅;
  reject_if (MAXIMUM_LIVE_NONCES <? Z.of_nat (size m))
    (Runtime "replay journal exceeds the live nonce bound");;
  mret m.

(** [open] on the records read from the file and the journal opened on it, up
    to the wait for the first compaction. *)
Definition open (now_unix_millis : Z) (records : result SandboxError (list (list ascii))) (j : J) :
    result SandboxError (ReplayCache * option nat) :=
  m ← load now_unix_millis records;
  let '(c, r) := compact now_unix_millis (MkCache (Some j) m 0) in
  receipt ← r;
  mret (c, receipt).

(** ** Interleavings

    A call of [consume] in flight, between its locked section and its
    completion; the cache shared by the threads; and the steps of a daemon: a
    thread enters [consume], the writer thread writes, a call completes, the
    daemon crashes at any point and is started again. *)

Record call : Type := MkCall {
  call_scope : TenantScope;
  call_nonce : string;
  call_expires : Z;
  call_append : option nat;
  call_replacement : option nat
}.

Record system : Type := MkSystem { sys_cache : ReplayCache; sys_calls : list call }.
End code.

Inductive label : Type :=
| Began (scope : TenantScope) (nonce : string) (expires now : Z) (r : result SandboxError ())
| Wrote
| Finished (scope : TenantScope) (nonce : string) (expires : Z) (r : result SandboxError ())
| Restarted (now : Z).

Section steps.
Context `{ReplayCodec} {J : Type} `{DurableLog J} (path : string).

Inductive step : system (J := J) → label → system (J := J) → Prop :=
| step_begin s scope nonce expires now c' append replacement :
    now < expires ≤ u64_max → 0 ≤ now →
    consume_locked scope nonce expires now (sys_cache s) = (c', Ok (append, replacement)) →
    step s (Began scope nonce expires now (Ok tt))
      (MkSystem c' (sys_calls s ++ [MkCall scope nonce expires append replacement]))
| step_reject s scope nonce expires now c' error :
    now < expires ≤ u64_max → 0 ≤ now →
    consume_locked scope nonce expires now (sys_cache s) = (c', Err error) →
    step s (Began scope nonce expires now (Err error)) (MkSystem c' (sys_calls s))
| step_write s j j' :
    journal (sys_cache s) = Some j → log_writes j j' →
    step s Wrote (MkSystem (with_journal j' (sys_cache s)) (sys_calls s))
| step_finish s before call after c' r :
    sys_calls s = before ++ call :: after →
    consume_finish (call_scope call) (call_nonce call) (call_expires call)
      (call_append call) (call_replacement call) (sys_cache s) = Some (c', r) →
    step s (Finished (call_scope call) (call_nonce call) (call_expires call) r)
      (MkSystem c' (before ++ after))
| step_restart s j records j0 now c' receipt :
    journal (sys_cache s) = Some j →
    log_reads path MAXIMUM_WAL_BYTES MAXIMUM_RECOVERY_RECORDS j (Ok records) →
    log_holds records [] j0 →
    open now (Ok records) j0 = Ok (c', receipt) →
    step s (Restarted now) (MkSystem c' []).

Inductive steps : system (J := J) → list label → system (J := J) → Prop :=
| steps_nil s : steps s [] s
| steps_cons s1 s2 s3 l tr : step s1 l s2 → steps s2 tr s3 → steps s1 (l :: tr) s3.

(** The first start, on a journal that does not exist yet. *)
Definition started (s : system (J := J)) : Prop :=
  ∃ j0 now receipt, log_holds [] [] j0 ∧
    open now (Ok []) j0 = Ok (sys_cache s, receipt) ∧ sys_calls s = [].
End steps.

(** The clock readings of a label are before [t]. *)
Definition label_before (t : Z) (l : label) : Prop :=
  match l with Began _ _ _ now _ | Restarted now => now < t | _ => True end.

End Replay.
Import Replay.

(** ** The documented behaviour of the encoders

    A valid record encodes to one line of JSON without a newline that decodes
    to the record; trailing white space is ignored.  The fields are bounded
    (identifiers of at most 64 bytes, a digest of 64 bytes, a 64-bit number), so
    a record takes at most [RECORD_LIMIT] bytes. *)

Definition RECORD_LIMIT : Z := 600.

Definition hex_digest (s : string) : Prop := len s = 64 ∧ all_bytes is_lowercase_hex s = true.

Definition entry_valid (k : ReplayKey) (e : Z) : Prop :=
  hex_digest (nonce_digest k) ∧ 1 ≤ e ≤ u64_max.

Class ReplayCodecLaws `{ReplayCodec} : Prop := {
  codec_line k e :
    entry_valid k e →
    ∃ b, to_vec (MkRecord REPLAY_SCHEMA_VERSION k e) = Ok b ∧
      from_slice (b ++ [NEWLINE]) = Ok (MkRecord REPLAY_SCHEMA_VERSION k e) ∧
      (NEWLINE ∉ b) ∧ b ≠ [] ∧ length_z b + 1 ≤ RECORD_LIMIT;
  sha256_hex_digest m : hex_digest (sha256_hex m)
}.

Section proofs.
Context `{ReplayCodecLaws} {J : Type} `{!DurableLog J}.
Implicit Types (c : ReplayCache (J := J)) (m : gmap ReplayKey Z) (k : ReplayKey).

Definition enc (k : ReplayKey) (e : Z) : list ascii :=
  match to_vec (MkRecord REPLAY_SCHEMA_VERSION k e) with Ok b => b ++ [NEWLINE] | Err _ => [] end.

Definition lines (l : list (ReplayKey * Z)) : list (list ascii) := (λ p, enc p.1 p.2) <$> l.

Lemma enc_spec k e :
  entry_valid k e →
  encode_record (MkRecord REPLAY_SCHEMA_VERSION k e) = Ok (enc k e) ∧
  record_wf (enc k e) ∧
  from_slice (enc k e) = Ok (MkRecord REPLAY_SCHEMA_VERSION k e) ∧
  length_z (enc k e) ≤ RECORD_LIMIT.
Proof.
  intros (b & Hvec & Hslice & Hnl & Hne & Hlen)%codec_line. unfold enc, encode_record. rewrite Hvec.
  assert (length_z (b ++ [NEWLINE]) ≤ RECORD_LIMIT) by (rewrite length_app; simpl; lia).
  split_and!; [done| |done|done]. exists b. split_and!; try done.
  unfold RECORD_LIMIT, MAXIMUM_RECORD_BYTES in *. lia.
Qed.

Lemma enc_inj k e k' e' :
  entry_valid k e → entry_valid k' e' → enc k e = enc k' e' → k = k' ∧ e = e'.
Proof.
  intros Hv Hv' Heq. destruct (enc_spec k e Hv) as (_ & _ & Hs & _).
  destruct (enc_spec k' e' Hv') as (_ & _ & Hs' & _). rewrite Heq, Hs' in Hs. by simplify_eq.
Qed.

Lemma lines_wf l : Forall (λ p, entry_valid p.1 p.2) l → Forall record_wf (lines l).
Proof. intros Hl. apply Forall_fmap. eapply Forall_impl; [exact Hl|]. intros [] Hp. by apply enc_spec. Qed.

Lemma encode_list_spec l :
  Forall (λ p, entry_valid p.1 p.2) l → encode_list l = Ok (concat (lines l)).
Proof.
  induction 1 as [|[k e] l Hp _ IH]; [done|]. cbn [encode_list].
  destruct (enc_spec k e Hp) as (-> & _). simpl. by rewrite IH.
Qed.

Lemma concat_lines_length l :
  Forall (λ p, entry_valid p.1 p.2) l →
  length_z (concat (lines l)) ≤ RECORD_LIMIT * Z.of_nat (length l).
Proof.
  induction 1 as [|[k e] l Hp _ IH]; [done|].
  destruct (enc_spec k e Hp) as (_ & _ & _ & Hlen). simpl. rewrite length_app. simpl in *. lia.
Qed.

Definition entries_ok m : Prop :=
  map_Forall entry_valid m ∧ Z.of_nat (size m) ≤ MAXIMUM_LIVE_NONCES.

Lemma entries_valid_iter m :
  map_Forall entry_valid m → Forall (λ p, entry_valid p.1 p.2) (btree_iter m).
Proof.
  intros Hm. apply Forall_forall. intros [k e] Hp. apply elem_of_btree_iter in Hp. by apply Hm.
Qed.

Lemma length_btree_iter m : length (btree_iter m) = size m.
Proof. rewrite btree_iter_perm. by rewrite length_map_to_list. Qed.

Lemma encode_entries_spec m :
  entries_ok m →
  encode_entries m = Ok (concat (lines (btree_iter m))) ∧
  Forall record_wf (lines (btree_iter m)) ∧
  length_z (concat (lines (btree_iter m))) ≤ MAXIMUM_REPLACEMENT_BYTES.
Proof.
  intros [Hm Hsize]. apply entries_valid_iter in Hm. split_and!.
  - by apply encode_list_spec.
  - by apply lines_wf.
  - pose proof (concat_lines_length _ Hm) as Hlen. rewrite length_btree_iter in Hlen.
    unfold RECORD_LIMIT, MAXIMUM_LIVE_NONCES, MAXIMUM_REPLACEMENT_BYTES in *. lia.
Qed.

Lemma retain_lookup now m k e : retain now m !! k = Some e ↔ m !! k = Some e ∧ now < e.
Proof. unfold retain. by rewrite map_lookup_filter_Some. Qed.

Lemma retain_size now m : (size (retain now m) ≤ size m)%nat.
Proof. apply map_subseteq_size, map_filter_subseteq. Qed.

Lemma retain_ok now m : entries_ok m → entries_ok (retain now m).
Proof.
  intros [Hm Hsize]. split.
  - intros k e He. apply retain_lookup in He as [He _]. by apply Hm.
  - pose proof (retain_size now m). lia.
Qed.

(** ** The cache and its journal *)

Record cache_inv (rs : list (list ascii)) (cs : list Command) c (j : J) : Prop := CacheInv {
  inv_journal : journal c = Some j;
  inv_holds : log_holds rs cs j;
  inv_entries : entries_ok (entries c)
}.

Lemma run_record rs cs c j k e :
  journal c = Some j → log_holds rs cs j → entry_valid k e →
  ∃ j', enqueue_record (MkRecord REPLAY_SCHEMA_VERSION k e) c = (with_journal j' c, Ok (Some (length cs))) ∧
    log_holds rs (cs ++ [Append (enc k e) (length cs)]) j' ∧ ∀ i, log_wait i j' = log_wait i j.
Proof.
  intros Hj Hh Hv. destruct (enc_spec k e Hv) as (Henc & Hwf & _).
  destruct (log_append_ok rs cs (enc k e) j Hh Hwf) as (j' & Hrun & Hh' & Hw).
  exists j'. split; [|done].
  unfold enqueue_record, enqueue_with, on_journal, mbind, M_bind, M_get, M_lift, mret, M_ret.
  by rewrite Hj, Henc, Hrun.
Qed.

Lemma run_compaction rs cs c j m :
  journal c = Some j → log_holds rs cs j → entries_ok m →
  ∃ j', enqueue_compaction m c = (with_journal j' c, Ok (Some (length cs))) ∧
    log_holds rs (cs ++ [Replace (concat (lines (btree_iter m))) (length cs)]) j' ∧
    ∀ i, log_wait i j' = log_wait i j.
Proof.
  intros Hj Hh Hm. destruct (encode_entries_spec m Hm) as (Henc & Hwf & Hlen).
  destruct (log_replace_ok rs cs _ j Hh Hwf Hlen) as (j' & Hrun & Hh' & Hw).
  exists j'. split; [|done].
  unfold enqueue_compaction, enqueue_with, on_journal, mbind, M_bind, M_get, M_lift, mret, M_ret.
  by rewrite Hj, Henc, Hrun.
Qed.

(** The commands of a granted [consume]: the record, then maybe a compaction. *)
Definition consume_commands (n : nat) k e m (compacted : bool) : list Command :=
  Append (enc k e) n ::
  if compacted then [Replace (concat (lines (btree_iter (<[k := e]> m)))) (S n)] else [].

Lemma consume_locked_spec rs cs c j scope nonce e now c' r :
  cache_inv rs cs c j → 1 ≤ e ≤ u64_max →
  consume_locked scope nonce e now c = (c', r) →
  let k := replay_key scope nonce in
  let m := retain now (entries c) in
  (∃ e0, m !! k = Some e0 ∧ r = Err (Runtime "work order has already been consumed") ∧
     c' = with_entries m c) ∨
  (m !! k = None ∧ MAXIMUM_LIVE_NONCES ≤ Z.of_nat (size m) ∧
     r = Err (Runtime "work-order replay cache is full") ∧ c' = with_entries m c) ∨
  (m !! k = None ∧ Z.of_nat (size m) < MAXIMUM_LIVE_NONCES ∧
   ∃ j' (compacted : bool),
     r = Ok (Some (length cs), if compacted then Some (S (length cs)) else None) ∧
     entries c' = <[k := e]> m ∧
     appends_since_compaction c' = (if compacted then 0 else appends_since_compaction c + 1) ∧
     compacted = (COMPACTION_INTERVAL <=? appends_since_compaction c + 1) ∧
     cache_inv rs (cs ++ consume_commands (length cs) k e m compacted) c' j' ∧
     ∀ i, log_wait i j' = log_wait i j).
Proof.
  intros [Hj Hh Hok] He Hrun k m. unfold consume_locked in Hrun. fold k in Hrun.
  pose proof (retain_ok now _ Hok) as Hm. fold m in Hm.
  assert (entry_valid k e) as Hv by (split; [apply sha256_hex_digest|done]).
  unfold mbind at 1, M_bind at 1, M_modify at 1 in Hrun.
  unfold mbind at 1, M_bind at 1, M_get at 1 in Hrun. simpl in Hrun. fold m in Hrun.
  unfold mbind at 1, M_bind at 1, M_reject_if at 1 in Hrun.
  destruct (m !! k) as [e0|] eqn:Hk.
  { rewrite bool_decide_true in Hrun by eauto. simplify_eq/=. left. eauto. }
  rewrite bool_decide_false in Hrun by (by intros []).
  unfold mbind at 1, M_bind at 1, M_reject_if at 1 in Hrun.
  destruct (Z.leb_spec MAXIMUM_LIVE_NONCES (Z.of_nat (size m))) as [Hfull|Hroom].
  { simplify_eq/=. right; left. done. }
  right; right. split; [done|]. split; [done|].
  assert (entries_ok (<[k := e]> m)) as Hm'.
  { split; [apply map_Forall_insert_2; [done|apply Hm]|]. rewrite map_size_insert_None by done. lia. }
  unfold mbind at 1, M_bind at 1, M_modify at 1 in Hrun.
  destruct (run_record rs cs (with_entries (<[k:=e]> m) (with_entries m c)) j k e Hj Hh Hv)
    as (j1 & Happ & Hh1 & Hw1).
  rewrite (M_bind_eq _ _ _ _ _ Happ) in Hrun. simpl in Hrun.
  unfold mbind at 1 2, M_bind at 1 2, M_modify at 1, M_get at 1 in Hrun. simpl in Hrun.
  destruct (COMPACTION_INTERVAL <=? appends_since_compaction c + 1) eqn:Hcomp.
  - unfold mbind at 1, M_bind at 1, M_modify at 1 in Hrun.
    set (c2 := with_appends 0 _) in Hrun.
    destruct (run_compaction rs (cs ++ [Append (enc k e) (length cs)]) c2 j1 (<[k:=e]> m))
      as (j2 & Hrep & Hh2 & Hw2); [done..|].
    rewrite (M_bind_eq _ _ _ _ _ Hrep) in Hrun. unfold mret, M_ret in Hrun. simplify_eq/=.
    exists j2, true. rewrite length_app, Nat.add_1_r in Hh2 |- *. split_and!; try done.
    + split; [done| |done]. unfold consume_commands. by rewrite <- app_assoc in Hh2.
    + intros i. by rewrite Hw2, Hw1.
  - unfold mret, M_ret in Hrun. simplify_eq/=. exists j1, false. split_and!; try done.
Qed.

(** ** Recovery *)

Definition pairs_valid (D : list (ReplayKey * Z)) : Prop := Forall (λ p, entry_valid p.1 p.2) D.
Definition records_valid (rs : list (list ascii)) : Prop := ∃ D, pairs_valid D ∧ rs = lines D.
Definition command_valid (cmd : Command) : Prop :=
  match cmd with
  | Append r _ => ∃ k e, entry_valid k e ∧ r = enc k e
  | Replace contents _ => ∃ D, pairs_valid D ∧ contents = concat (lines D)
  end.

Lemma records_of_valid rs cs :
  records_valid rs → Forall command_valid cs → records_valid (records_of rs cs).
Proof.
  intros Hrs Hcs. revert rs Hrs. induction Hcs as [|cmd cs Hcmd _ IH]; intros rs Hrs; [done|].
  apply IH. destruct cmd as [r n|contents n]; simpl in *.
  - destruct Hrs as (D & HD & ->), Hcmd as (k & e & Hv & ->). exists (D ++ [(k, e)]).
    split; [by apply Forall_app; split; [|apply Forall_singleton]|]. unfold lines. by rewrite fmap_app.
  - destruct Hcmd as (D & HD & ->). exists D. split; [done|].
    apply split_inclusive_concat. by apply lines_wf.
Qed.

Lemma elem_of_lines k e D : entry_valid k e → pairs_valid D → enc k e ∈ lines D ↔ (k, e) ∈ D.
Proof.
  intros Hv HD. unfold lines. rewrite list_elem_of_fmap. split.
  - intros ([k' e'] & Heq & Hin). unfold pairs_valid in HD. rewrite Forall_forall in HD.
    by destruct (enc_inj k e k' e' Hv (HD _ Hin) Heq) as [-> ->].
  - intros Hin. by exists (k, e).
Qed.

Lemma load_lines now D : ∀ m m',
  pairs_valid D → load_records now (lines D) m = Ok m' →
  (∀ k e, m !! k = Some e → m' !! k = Some e) ∧
  (∀ k e, (k, e) ∈ D → now < e → m' !! k = Some e) ∧
  (∀ k e, m' !! k = Some e → m !! k = Some e ∨ (k, e) ∈ D).
Proof.
  induction D as [|[k e] D IH]; intros m m' HD Hload.
  { injection Hload as <-. split_and!; [done|set_solver|by left]. }
  apply Forall_cons in HD as [Hv HD]. simpl in Hv.
  cbn [lines fmap list_fmap load_records] in Hload. simpl in Hload.
  destruct (enc_spec k e Hv) as (_ & _ & Hslice & _). rewrite Hslice in Hload. simpl in Hload.
  destruct Hv as [_ He].
  destruct (e =? 0) eqn:Hz; [lia|]. simpl in Hload.
  destruct (Z.leb_spec e now) as [Hexp|Hlive].
  - destruct (IH m m' HD Hload) as (H1 & H2 & H3). split_and!; [done| |].
    + intros k0 e0 [[= -> ->]|Hin]%elem_of_cons Hlt; [lia|eauto].
    + intros k0 e0 Hk. destruct (H3 k0 e0 Hk); [by left|right; by right].
  - case_bool_decide as Hdup; simpl in Hload; [done|].
    destruct (IH _ m' HD Hload) as (H1 & H2 & H3). split_and!.
    + intros k0 e0 Hk. apply H1. rewrite lookup_insert_ne; [done|]. intros <-. eauto.
    + intros k0 e0 [[= -> ->]|Hin]%elem_of_cons Hlt; [|eauto]. apply H1, lookup_insert_eq.
    + intros k0 e0 Hk. destruct (H3 k0 e0 Hk) as [Hi|Hi]; [|right; by right].
      apply lookup_insert_Some in Hi as [[<- <-]|[_ Hi]]; [right; by left|by left].
Qed.

Lemma open_spec now D j c receipt :
  pairs_valid D → log_holds (lines D) [] j →
  open now (Ok (lines D)) j = Ok (c, receipt) →
  (∀ k e, (k, e) ∈ D → now < e → entries c !! k = Some e) ∧
  ∃ j', cache_inv (lines D) [Replace (concat (lines (btree_iter (entries c)))) 0] c j' ∧
    appends_since_compaction c = 0 ∧ ∀ i, log_wait i j' = log_wait i j.
Proof.
  intros HD Hh Hopen. unfold open in Hopen. inv_ok Hopen. unfold load in Hstep.
  simpl in Hstep. inv_ok Hstep. simpl_guards. rename a into m.
  destruct (load_lines now D ∅ m HD Hstep0) as (_ & Hin & Hfrom).
  assert (entries_ok m) as Hm.
  { split; [|lia]. intros k e Hk. destruct (Hfrom k e Hk) as [Habs|Hp]; [by rewrite lookup_empty in Habs|].
    unfold pairs_valid in HD. rewrite Forall_forall in HD. by apply (HD (k, e)). }
  unfold compact, mbind, M_bind, M_modify, M_get in Hopen.
  set (c0 := with_appends 0 _) in Hopen.
  destruct (run_compaction (lines D) [] c0 j (retain now m)) as (j' & Hrun & Hh' & Hw);
    [done|done|by apply retain_ok|].
  simpl in Hopen. change (entries c0) with (retain now m) in Hopen. rewrite Hrun in Hopen.
  injection Hopen as <- <-. split.
  - intros k e Hp Hlt. apply retain_lookup. auto.
  - exists j'. split; [|done]. split; [done|done|]. by apply retain_ok.
Qed.

(** ** What the system remembers *)

Definition call_key (cl : call) : ReplayKey := replay_key (call_scope cl) (call_nonce cl).

(** The append receipt of a call in flight is one of the submitted commands. *)
Definition call_ok (n : nat) (cl : call) : Prop := ∃ r, call_append cl = Some r ∧ (r < n)%nat.

Record sys_inv (s : system (J := J)) (rs : list (list ascii)) (cs : list Command) (j : J) : Prop := SysInv {
  sys_cache_inv : cache_inv rs cs (sys_cache s) j;
  sys_records : records_valid rs;
  sys_commands : Forall command_valid cs;
  sys_calls_ok : Forall (call_ok (length cs)) (sys_calls s)
}.

(** The entry [(k, e)] is in memory and in every state of the log after the
    first [b] commands; no later command of the session is another call's
    attempt on [k]. *)
Record remembered (s : system (J := J)) (rs : list (list ascii)) (cs : list Command)
    (k : ReplayKey) (e : Z) (b : nat) : Prop := Remembered {
  rem_memory : entries (sys_cache s) !! k = Some e;
  rem_log : ∀ n, (b ≤ n ≤ length cs)%nat → enc k e ∈ records_of rs (take n cs);
  rem_calls : Forall (λ cl, call_key cl = k → ∃ r, call_append cl = Some r ∧ (r < b)%nat) (sys_calls s)
}.

Lemma records_of_app rs cs cs' : records_of rs (cs ++ cs') = records_of (records_of rs cs) cs'.
Proof. apply foldl_app. Qed.

(** A prefix of [cs ++ cs'] is a prefix of [cs] or contains all of it. *)
Lemma log_extend rs cs cs' b x :
  (b ≤ length cs + length cs')%nat →
  (∀ n, (b ≤ n ≤ length cs)%nat → x ∈ records_of rs (take n cs)) →
  (∀ n, (b ≤ length cs + n)%nat → (n ≤ length cs')%nat → (0 < n)%nat →
        x ∈ records_of (records_of rs cs) (take n cs')) →
  ∀ n, (b ≤ n ≤ length (cs ++ cs'))%nat → x ∈ records_of rs (take n (cs ++ cs')).
Proof.
  intros _ Hold Hnew n Hn. rewrite length_app in Hn.
  destruct (decide (n ≤ length cs)%nat) as [Hle|Hgt].
  - rewrite take_app_le by done. apply Hold. lia.
  - rewrite take_app_ge by lia. rewrite records_of_app. apply Hnew; lia.
Qed.

Lemma enc_in_entries m k e : m !! k = Some e → enc k e ∈ lines (btree_iter m).
Proof. intros Hk. apply list_elem_of_fmap. exists (k, e). by rewrite elem_of_btree_iter. Qed.

(** The commands of another call keep [(k, e)] in the log, if memory does. *)
Lemma consume_commands_keep rs n k' e' m k e compacted :
  entries_ok (<[k' := e']> m) → (<[k' := e']> m) !! k = Some e →
  (k ≠ k' → enc k e ∈ rs) →
  ∀ i, (0 < i)%nat → enc k e ∈ records_of rs (take i (consume_commands n k' e' m compacted)).
Proof.
  intros Hok Hk Hin i Hi. unfold consume_commands.
  assert (enc k e ∈ rs ++ [enc k' e']) as Hfirst.
  { destruct (decide (k = k')) as [->|Hne]; [|set_solver].
    rewrite lookup_insert_eq in Hk. simplify_eq. set_solver. }
  destruct i as [|i]; [lia|]. simpl. destruct compacted; [|by rewrite take_nil].
  destruct i as [|i]; [done|]. simpl. rewrite take_nil. simpl.
  destruct (encode_entries_spec _ Hok) as (_ & Hwf & _).
  rewrite split_inclusive_concat by done. by apply enc_in_entries.
Qed.

(** The entry that the append [r] records, while [r] may still succeed. *)
Definition tracked s rs cs (j : J) k e (r : nat) : Prop :=
  (r < length cs)%nat ∧ (doomed j r ∨ remembered s rs cs k e (S r)).

(** An acknowledged entry; [b] is zero when the session started with it. *)
Definition safe s rs cs (j : J) k e (b : nat) : Prop :=
  remembered s rs cs k e b ∧ ∀ r, b = S r → log_wait r j = Some (Ok tt).

(** The relation of a step that stays in the session. *)
Record session_step (l : label) s s' rs cs cs1 (j j' : J) : Prop := SessionStep {
  session_inv : sys_inv s' rs (cs ++ cs1) j';
  session_answers : answers_kept j j';
  session_remembered k e b :
    label_before e l → (b ≤ length cs)%nat → remembered s rs cs k e b →
    remembered s' rs (cs ++ cs1) k e b ∨ ∃ r, (r < b)%nat ∧ doomed j' r;
  session_calls cl :
    cl ∈ sys_calls s' → cl ∈ sys_calls s ∨
    ∃ r, call_append cl = Some r ∧
      tracked s' rs (cs ++ cs1) j' (call_key cl) (call_expires cl) r
}.

Lemma session_tracked l s s' rs cs cs1 j j' k e r :
  session_step l s s' rs cs cs1 j j' → label_before e l → tracked s rs cs j k e r → tracked s' rs (cs ++ cs1) j' k e r.
Proof.
  intros Hs Hl [Hr Hcase]. split; [rewrite length_app; lia|].
  destruct Hcase as [Hd|Hrem].
  - left. eapply doomed_mono; [apply Hs|done].
  - destruct (session_remembered _ _ _ _ _ _ _ _ Hs k e (S r)) as [?|(r' & Hr' & (r0 & error & Hle & Hr0))];
      [done|lia|done|by right|]. left. exists r0, error. split; [lia|done].
Qed.

Lemma session_safe l s s' rs cs cs1 j j' k e b :
  session_step l s s' rs cs cs1 j j' → label_before e l → (b ≤ length cs)%nat →
  safe s rs cs j k e b → safe s' rs (cs ++ cs1) j' k e b.
Proof.
  intros Hs Hl Hb [Hrem Hack].
  assert (∀ r, b = S r → log_wait r j' = Some (Ok tt)) as Hack'.
  { intros r Hr. apply (session_answers _ _ _ _ _ _ _ _ Hs). by apply Hack. }
  split; [|done]. destruct (session_remembered _ _ _ _ _ _ _ _ Hs k e b Hl Hb Hrem) as [|(r & Hr & Hd)]; [done|].
  destruct b as [|b']; [lia|]. exfalso.
  destruct (sys_cache_inv _ _ _ _ (session_inv _ _ _ _ _ _ _ _ Hs)) as [_ Hh _].
  apply (doomed_not_ok rs _ j' b' Hh); [|by apply Hack'].
  destruct Hd as (r0 & error & Hle & Hr0). exists r0, error. split; [lia|done].
Qed.

Lemma call_ok_mono n n' cl : (n ≤ n')%nat → call_ok n cl → call_ok n' cl.
Proof. intros Hn (r & Hr & Hlt). exists r. split; [done|lia]. Qed.

Lemma reject_session s rs cs j scope nonce e now c' error :
  sys_inv s rs cs j → 1 ≤ e ≤ u64_max →
  consume_locked scope nonce e now (sys_cache s) = (c', Err error) →
  session_step (Began scope nonce e now (Err error)) s (MkSystem c' (sys_calls s)) rs cs [] j j.
Proof.
  intros [Hc Hrs Hcs Hcalls] He Hrun.
  assert (c' = with_entries (retain now (entries (sys_cache s))) (sys_cache s)) as ->.
  { destruct (consume_locked_spec _ _ _ _ _ _ _ _ _ _ Hc He Hrun)
      as [(? & _ & _ & ->)|[(_ & _ & _ & ->)|(_ & _ & j' & ? & Habs & _)]]; done. }
  destruct Hc as [Hj Hh Hok]. split; rewrite ?app_nil_r.
  - split; [|done|done|done]. split; [done|done|]. by apply retain_ok.
  - by intros i r.
  - intros k e0 b Hl Hb [Hmem Hlog Hcl]. left. split; [|done|done].
    simpl. by apply retain_lookup.
  - by left.
Qed.

Lemma begin_session s rs cs j scope nonce e now c' append replacement :
  sys_inv s rs cs j → 1 ≤ e ≤ u64_max →
  consume_locked scope nonce e now (sys_cache s) = (c', Ok (append, replacement)) →
  ∃ cs1 j', session_step (Began scope nonce e now (Ok tt)) s
    (MkSystem c' (sys_calls s ++ [MkCall scope nonce e append replacement])) rs cs cs1 j j'.
Proof.
  intros [Hc Hrs Hcs Hcalls] He Hrun.
  destruct (consume_locked_spec _ _ _ _ _ _ _ _ _ _ Hc He Hrun)
    as [(? & _ & Habs & _)|[(_ & _ & Habs & _)|(Hnone & _ & j' & comp & Hr & Hent & _ & _ & Hc' & Hw)]];
    [done|done|]. injection Hr as -> ->.
  set (k' := replay_key scope nonce) in *. set (m := retain now (entries (sys_cache s))) in *.
  set (cmds := consume_commands (length cs) k' e m comp) in *.
  assert (entry_valid k' e) as Hv by (split; [apply sha256_hex_digest|done]).
  assert (entries_ok (<[k' := e]> m)) as Hok by (rewrite <- Hent; apply Hc').
  assert (0 < length cmds)%nat as Hpos by (unfold cmds, consume_commands; simpl; lia).
  assert (Forall command_valid cmds) as Hcmds.
  { unfold cmds, consume_commands. constructor; [by exists k', e|].
    destruct comp; [|constructor]. constructor; [|constructor].
    exists (btree_iter (<[k' := e]> m)). split; [|done]. apply entries_valid_iter, Hok. }
  assert (remembered (MkSystem c' (sys_calls s ++ [MkCall scope nonce e (Some (length cs))
            (if comp then Some (S (length cs)) else None)])) rs (cs ++ cmds) k' e (S (length cs))) as Hnew.
  { split; simpl.
    - rewrite Hent. apply lookup_insert_eq.
    - apply log_extend; [lia|intros; lia|]. intros n _ _ Hn.
      apply consume_commands_keep; [done|apply lookup_insert_eq|done|done].
    - apply Forall_app. split.
      + eapply Forall_impl; [exact Hcalls|]. intros cl (r & Hr & Hlt) _. exists r. split; [done|lia].
      + constructor; [|constructor]. intros _. exists (length cs). split; [done|lia]. }
  exists cmds, j'. split.
  - split; [exact Hc'|done|by apply Forall_app|]. rewrite length_app. simpl.
    apply Forall_app. split.
    + eapply Forall_impl; [exact Hcalls|]. intros cl. apply call_ok_mono. lia.
    + constructor; [|constructor]. exists (length cs). split; [done|lia].
  - intros i r. by rewrite Hw.
  - intros k e0 b Hl Hb [Hmem Hlog Hcl]. left. simpl in Hl.
    assert (m !! k = Some e0) as Hm by (by apply retain_lookup).
    assert (k ≠ k') as Hne by congruence. split; simpl.
    + rewrite Hent. by rewrite lookup_insert_ne by congruence.
    + apply log_extend; [lia|done|]. intros n _ _ Hn. apply consume_commands_keep; [done| | |done].
      * by rewrite lookup_insert_ne by congruence.
      * intros _. specialize (Hlog (length cs)). rewrite firstn_all in Hlog. apply Hlog. lia.
    + apply Forall_app. split; [done|]. constructor; [|constructor]. intros Heq. by destruct Hne.
  - intros cl [Hcl|Hcl]%elem_of_app; [by left|right].
    apply list_elem_of_singleton in Hcl as ->. exists (length cs). split; [done|].
    split; [rewrite length_app; lia|]. right. exact Hnew.
Qed.

Lemma write_session s rs cs j j' :
  sys_inv s rs cs j → log_writes j j' →
  session_step Wrote s (MkSystem (with_journal j' (sys_cache s)) (sys_calls s)) rs cs [] j j'.
Proof.
  intros [[Hj Hh Hok] Hrs Hcs Hcalls] Hwrites.
  split; rewrite ?app_nil_r.
  - split; [|done|done|done]. split; [done|by eapply log_writes_holds|done].
  - intros i r. by eapply log_writes_wait.
  - intros k e b _ _ [Hmem Hlog Hcl]. by left.
  - by left.
Qed.

Lemma finish_session s rs cs j before cl after c' r :
  sys_inv s rs cs j → sys_calls s = before ++ cl :: after →
  consume_finish (call_scope cl) (call_nonce cl) (call_expires cl)
    (call_append cl) (call_replacement cl) (sys_cache s) = Some (c', r) →
  session_step (Finished (call_scope cl) (call_nonce cl) (call_expires cl) r) s
    (MkSystem c' (before ++ after)) rs cs [] j j ∧
  (r = Ok tt → ∃ n, call_append cl = Some n ∧ log_wait n j = Some (Ok tt) ∧ c' = sys_cache s).
Proof.
  intros [[Hj Hh Hok] Hrs Hcs Hcalls] Hsplit Hfin.
  assert (call_ok (length cs) cl) as (n & Hn & Hlt).
  { rewrite Forall_forall in Hcalls. apply Hcalls. rewrite Hsplit. set_solver. }
  unfold consume_finish, answer in Hfin. rewrite Hn, Hj in Hfin.
  fold (call_key cl) in Hfin.
  destruct (log_wait n j) as [[[]|error]|] eqn:Hw; [| |done].
  - assert (c' = sys_cache s) as ->.
    { repeat case_match; by simplify_eq. }
    split; [|by eauto]. split; rewrite ?app_nil_r.
    + split; [done|done|done|]. simpl. rewrite Hsplit in Hcalls.
      apply Forall_app in Hcalls as [? [_ ?]%Forall_cons]. by apply Forall_app.
    + by intros i x.
    + intros k e b _ _ [Hmem Hlog Hcl]. left. split; [done|done|]. simpl.
      rewrite Hsplit in Hcl. apply Forall_app in Hcl as [? [_ ?]%Forall_cons]. by apply Forall_app.
    + intros x Hx. left. rewrite Hsplit. set_solver.
  - injection Hfin as <- <-. split; [|done].
    assert (∀ m, entries_ok m → ∀ x, entries_ok (delete x m)) as Hdel.
    { intros m [Hm Hsize] x. split; [by apply map_Forall_delete|].
      pose proof (map_subseteq_size (delete x m) m (delete_subseteq _ _)). lia. }
    split; rewrite ?app_nil_r.
    + split; [|done|done|].
      * case_bool_decide; [|done]. split; [done|done|]. by apply Hdel.
      * simpl. rewrite Hsplit in Hcalls.
        apply Forall_app in Hcalls as [? [_ ?]%Forall_cons]. by apply Forall_app.
    + by intros i x.
    + intros k e b _ Hb [Hmem Hlog Hcl]. rewrite Hsplit in Hcl.
      apply Forall_app in Hcl as [Hc1 [Hc2 Hc3]%Forall_cons].
      destruct (decide (call_key cl = k)) as [Hk|Hk].
      * right. destruct (Hc2 Hk) as (r & Hr & Hrb). exists r. split; [done|].
        exists r, error. split; [done|]. congruence.
      * left. split; [|done|by apply Forall_app]. case_bool_decide; [|done]. simpl.
        by rewrite lookup_delete_ne.
    + intros x Hx. left. rewrite Hsplit. set_solver.
Qed.

Lemma safe_bound s rs cs j k e b :
  sys_inv s rs cs j → safe s rs cs j k e b → (b ≤ length cs)%nat.
Proof.
  intros [[_ Hh _] _ _ _] [_ Hack]. destruct b as [|r]; [lia|].
  specialize (Hack r eq_refl). pose proof (log_wait_submitted rs cs j r _ Hh Hack). lia.
Qed.

Lemma restart_safe path s rs cs j records j0 now c' receipt :
  sys_inv s rs cs j →
  log_reads path MAXIMUM_WAL_BYTES MAXIMUM_RECOVERY_RECORDS j (Ok records) →
  log_holds records [] j0 → open now (Ok records) j0 = Ok (c', receipt) →
  ∃ cs' j', sys_inv (MkSystem c' []) records cs' j' ∧
    ∀ k e b, now < e → safe s rs cs j k e b → safe (MkSystem c' []) records cs' j' k e 0.
Proof.
  intros Hinv Hreads Hh0 Hopen. pose proof Hinv as [[Hj Hh Hok] Hrs Hcs _].
  destruct (log_recovery _ _ _ _ _ _ _ Hh Hreads) as (n & Hn & Hacked & Hrec).
  symmetry in Hrec. apply bounded_Ok in Hrec.
  destruct (records_of_valid rs (take n cs) Hrs (Forall_take _ _ _ Hcs)) as (D & HD & HrD).
  rewrite <- Hrec in HrD. subst records.
  rewrite HrD in Hh0, Hopen, Hreads |- *.
  destruct (open_spec now D j0 c' receipt HD Hh0 Hopen) as (Hin & j' & Hc' & _ & _).
  eexists _, j'. split.
  - split; [exact Hc'|by exists D| |constructor].
    constructor; [|constructor]. exists (btree_iter (entries c')). split; [|done].
    apply entries_valid_iter, Hc'.
  - intros k e b Hlt Hsafe. pose proof (safe_bound _ _ _ _ _ _ _ Hinv Hsafe) as Hb.
    destruct Hsafe as [[Hmem Hlog _] Hack].
    assert (entry_valid k e) as Hv by (by apply Hok).
    assert (enc k e ∈ lines D) as Hline.
    { rewrite <- HrD. apply Hlog. split; [|done]. destruct b as [|r]; [lia|].
      specialize (Hacked r (Hack r eq_refl)). lia. }
    assert (entries c' !! k = Some e) as Hmem' by (apply Hin; [by apply elem_of_lines|done]).
    split; [|done]. split; [done| |constructor].
    intros i Hi. destruct i as [|i]; [done|]. simpl. rewrite take_nil. simpl.
    destruct (encode_entries_spec _ (inv_entries _ _ _ _ Hc')) as (_ & Hwf & _).
    rewrite split_inclusive_concat by done. by apply enc_in_entries.
Qed.

(** *** Along a trace *)

Section trace.
Context (path : string) (scope : TenantScope) (nonce : string) (e : Z).
Let k : ReplayKey := replay_key scope nonce.

Definition undecided (s : system (J := J)) : Prop :=
  ∃ rs cs j, sys_inv s rs cs j ∧
    ∀ cl, cl ∈ sys_calls s → call_key cl = k → call_expires cl = e →
      ∃ r, call_append cl = Some r ∧ tracked s rs cs j k e r.

Definition consumed (s : system (J := J)) : Prop :=
  ∃ rs cs j b, sys_inv s rs cs j ∧ safe s rs cs j k e b.

Lemma session_undecided l s s' rs cs cs1 j j' :
  session_step l s s' rs cs cs1 j j' → label_before e l →
  (∀ cl, cl ∈ sys_calls s → call_key cl = k → call_expires cl = e →
     ∃ r, call_append cl = Some r ∧ tracked s rs cs j k e r) →
  undecided s'.
Proof.
  intros Hs Hl Hcalls. exists rs, (cs ++ cs1), j'. split; [apply Hs|].
  intros cl Hcl Hk He. destruct (session_calls _ _ _ _ _ _ _ _ Hs cl Hcl) as [Hold|(r & Hr & Htr)].
  - destruct (Hcalls cl Hold Hk He) as (r & Hr & Htr). exists r. split; [done|].
    by eapply session_tracked.
  - exists r. split; [done|]. by rewrite Hk, He in Htr.
Qed.

Lemma session_consumed l s s' rs cs cs1 j j' b :
  session_step l s s' rs cs cs1 j j' → label_before e l →
  sys_inv s rs cs j → safe s rs cs j k e b → consumed s'.
Proof.
  intros Hs Hl Hinv Hsafe. exists rs, (cs ++ cs1), j', b. split; [apply Hs|].
  eapply session_safe; eauto. by eapply safe_bound.
Qed.

Lemma undecided_step s l s' :
  undecided s → label_before e l → step path s l s' →
  undecided s' ∧ (l = Finished scope nonce e (Ok tt) → consumed s').
Proof.
  intros (rs & cs & j & Hinv & Hcalls) Hl Hstep.
  destruct Hstep as [s sc no ex now c' ap re Hex Hnow Hrun|s sc no ex now c' error Hex Hnow Hrun
    |s j1 j2 Hj1 Hwr|s before cl after c' r Hsplit Hfin|s j1 records j0 now c' receipt Hj1 Hreads Hh0 Hopen].
  - destruct (begin_session s rs cs j sc no ex now c' ap re Hinv) as (cs1 & j' & Hs); [lia|done|].
    split; [|done]. by eapply session_undecided.
  - pose proof (reject_session s rs cs j sc no ex now c' error Hinv ltac:(lia) Hrun) as Hs.
    split; [|done]. by eapply session_undecided.
  - assert (j1 = j) as -> by (destruct Hinv as [[Hj _ _] _ _ _]; congruence).
    split; [|done]. eapply session_undecided; [by apply write_session|done|done].
  - destruct (finish_session s rs cs j before cl after c' r Hinv Hsplit Hfin) as [Hs Hok].
    split; [by eapply session_undecided|]. intros [= Hsc Hno Hex ->].
    destruct (Hok eq_refl) as (n & Hn & Hw & ->).
    destruct (Hcalls cl) as (r & Hr & Hlt & Htr).
    { rewrite Hsplit. set_solver. }
    { unfold call_key, k. congruence. }
    { done. }
    simplify_eq. destruct Htr as [Hd|Hrem].
    { destruct Hinv as [[_ Hh _] _ _ _]. by destruct (doomed_not_ok rs cs j _ Hh Hd). }
    eapply session_consumed; [exact Hs|done|done|]. split; [exact Hrem|]. by intros x [= <-].
  - assert (j1 = j) as -> by (destruct Hinv as [[Hj _ _] _ _ _]; congruence).
    destruct (restart_safe path s rs cs j records j0 now c' receipt Hinv Hreads Hh0 Hopen)
      as (cs' & j' & Hinv' & _).
    split; [|done]. exists records, cs', j'. split; [done|]. intros cl Hcl. set_solver.
Qed.

Lemma consumed_step s l s' :
  consumed s → label_before e l → step path s l s' →
  consumed s' ∧ ∀ e' now r, l = Began scope nonce e' now r →
    r = Err (Runtime "work order has already been consumed").
Proof.
  intros (rs & cs & j & b & Hinv & Hsafe) Hl Hstep.
  destruct Hstep as [s sc no ex now c' ap re Hex Hnow Hrun|s sc no ex now c' error Hex Hnow Hrun
    |s j1 j2 Hj1 Hwr|s before cl after c' r Hsplit Hfin|s j1 records j0 now c' receipt Hj1 Hreads Hh0 Hopen].
  - destruct (begin_session s rs cs j sc no ex now c' ap re Hinv) as (cs1 & j' & Hs); [lia|done|].
    split; [by eapply session_consumed|]. intros e' now' r [= -> -> -> -> <-]. exfalso.
    assert (1 ≤ e' ≤ u64_max) as He' by lia.
    destruct (consume_locked_spec _ _ _ _ _ _ _ _ _ _ (sys_cache_inv _ _ _ _ Hinv) He' Hrun)
      as [(? & _ & Habs & _)|[(_ & _ & Habs & _)|(Hnone & _)]]; [done|done|].
    destruct Hsafe as [[Hmem _ _] _]. simpl in Hl.
    assert (retain now' (entries (sys_cache s)) !! k = Some e) as Hk by (by apply retain_lookup).
    simpl in Hnone. fold k in Hnone. congruence.
  - pose proof (reject_session s rs cs j sc no ex now c' error Hinv ltac:(lia) Hrun) as Hs.
    split; [by eapply session_consumed|]. intros e' now' r [= -> -> -> -> <-].
    assert (1 ≤ e' ≤ u64_max) as He' by lia.
    destruct (consume_locked_spec _ _ _ _ _ _ _ _ _ _ (sys_cache_inv _ _ _ _ Hinv) He' Hrun)
      as [(? & _ & Hr & _)|[(Hnone & _)|(_ & _ & ? & ? & Habs & _)]]; [congruence| |done].
    destruct Hsafe as [[Hmem _ _] _]. simpl in Hl.
    assert (retain now' (entries (sys_cache s)) !! k = Some e) as Hk by (by apply retain_lookup).
    simpl in Hnone. fold k in Hnone. congruence.
  - assert (j1 = j) as -> by (destruct Hinv as [[Hj _ _] _ _ _]; congruence).
    split; [|done]. eapply session_consumed; [by apply write_session|done|done|done].
  - destruct (finish_session s rs cs j before cl after c' r Hinv Hsplit Hfin) as [Hs _].
    split; [by eapply session_consumed|done].
  - assert (j1 = j) as -> by (destruct Hinv as [[Hj _ _] _ _ _]; congruence).
    destruct (restart_safe path s rs cs j records j0 now c' receipt Hinv Hreads Hh0 Hopen)
      as (cs' & j' & Hinv' & Hkeep).
    split; [|done]. exists records, cs', j', 0%nat. split; [done|]. by eapply Hkeep.
Qed.

Lemma consumed_trace s tr s' :
  consumed s → steps path s tr s' → Forall (label_before e) tr →
  ∀ n e' now r, tr !! n = Some (Began scope nonce e' now r) →
    r = Err (Runtime "work order has already been consumed").
Proof.
  intros Hs Hsteps. revert Hs. induction Hsteps as [|s1 s2 s3 l tr Hstep _ IH]; intros Hs Htr n e' now r Hn.
  - done.
  - apply Forall_cons in Htr as [Hl Htr]. destruct (consumed_step _ _ _ Hs Hl Hstep) as [Hs2 Hbegin].
    destruct n as [|n]; simpl in Hn.
    + simplify_eq. by eapply Hbegin.
    + by eapply IH.
Qed.

Lemma undecided_trace s tr s' :
  undecided s → steps path s tr s' → Forall (label_before e) tr →
  ∀ (m n : nat) e' now r, tr !! m = Some (Finished scope nonce e (Ok tt)) →
    tr !! n = Some (Began scope nonce e' now r) → (m < n)%nat →
    r = Err (Runtime "work order has already been consumed").
Proof.
  intros Hs Hsteps. revert Hs.
  induction Hsteps as [|s1 s2 s3 l tr Hstep Hsteps IH]; intros Hs Htr m n e' now r Hm Hn Hlt; [done|].
  apply Forall_cons in Htr as [Hl Htr]. destruct (undecided_step _ _ _ Hs Hl Hstep) as [Hs2 Hdone].
  destruct n as [|n]; [lia|]. simpl in Hn. destruct m as [|m]; simpl in Hm.
  - simplify_eq. eapply consumed_trace; eauto.
  - eapply IH; eauto. lia.
Qed.
End trace.

Lemma started_undecided scope nonce e s : started s → undecided scope nonce e s.
Proof.
  intros (j0 & now & receipt & Hh & Hopen & Hcalls).
  change [] with (lines []) in Hh at 1. change (Ok []) with (Ok (E := SandboxError) (lines [])) in Hopen.
  destruct (open_spec now [] j0 _ receipt (Forall_nil_2 _) Hh Hopen) as (_ & j' & Hc & _ & _).
  eexists _, _, j'. split; [|rewrite Hcalls; intros cl Hcl; by apply not_elem_of_nil in Hcl].
  split; [exact Hc|exists []; split; [constructor|done]| |rewrite Hcalls; constructor].
  constructor; [|constructor]. exists (btree_iter (entries (sys_cache s))). split; [|done].
  apply entries_valid_iter, Hc.
Qed.

(** A work order is accepted at most once, across threads, journal
    failures, crashes and restarts.  If some call of [consume] for a nonce
    completed with success, then every later call for the same nonce, in the same
    process or after any number of crashes and restarts, is rejected as already
    consumed, as long as the clock reads before the expiry of the accepted order. *)
Theorem consumed_nonce_is_rejected path s0 tr s scope nonce e e' now r (m n : nat) :
  started s0 → steps path s0 tr s → Forall (label_before e) tr →
  tr !! m = Some (Finished scope nonce e (Ok tt)) →
  tr !! n = Some (Began scope nonce e' now r) → (m < n)%nat →
  r = Err (Runtime "work order has already been consumed").
Proof.
  intros Hs0 Hsteps Htr. eapply undecided_trace; eauto. by apply started_undecided.
Qed.
End proofs.

(** ** A daemon on the concrete encoder *)

#[local] Instance w_codec : ReplayCodec := {
  to_vec r := Ok (join [bytes (as_str (tenant_id (key_scope (record_key r))));
                        bytes (as_str (workspace_id (key_scope (record_key r))));
                        bytes (nonce_digest (record_key r));
                        to_hex 16 (expires_unix_millis r)]);
  from_slice l :=
    match fields l with
    | [t; w; d; x; _] =>
        match parse (text t), parse (text w) with
        | Ok t', Ok w' =>
            Ok (MkRecord REPLAY_SCHEMA_VERSION (MkKey (Scope t' w') (text d)) (of_hex x))
        | _, _ => Err "identifier"%string
        end
    | _ => Err "fields"%string
    end;
  sha256_hex m := text (to_hex 64 (foldl (λ acc c, acc * 256 + code c) 0 m))
}.

Lemma bytes_text l : bytes (text l) = l.
Proof. apply list_ascii_of_string_of_list_ascii. Qed.

#[local] Instance w_codec_laws : ReplayCodecLaws.
Proof.
  split.
  - intros [[t w] d] e [[Hlen Hhex] He]. cbn [nonce_digest] in *. eexists. split; [reflexivity|].
    assert (Forall plain [bytes (as_str t); bytes (as_str w); bytes d; to_hex 16 e]) as Hplain.
    { repeat (apply Forall_cons; split); try apply identifier_plain.
      - apply hex_plain. apply Forall_forall. intros c Hc. by apply (all_bytes_elem _ _ _ Hhex).
      - apply hex_plain, to_hex_chars.
      - constructor. }
    split_and!.
    + unfold from_slice, w_codec. rewrite fields_join by done.
      change (fields [NEWLINE]) with [[NEWLINE]]. cbn [app]. rewrite !text_bytes, !parse_as_str.
      rewrite of_to_hex; [done|]. unfold u64_max in He. cbn [expires_unix_millis].
      change (16 ^ Z.of_nat 16) with 18446744073709551616. lia.
    + by apply join_no_newline.
    + unfold join. intros Hnil%(f_equal length). simpl in Hnil.
      rewrite !length_app in Hnil. simpl in Hnil. lia.
    + unfold join. cbn [fmap list_fmap concat]. rewrite !length_app, length_to_hex. simpl.
      pose proof (identifier_len t) as Ht. pose proof (identifier_len w) as Hw.
      rewrite len_bytes in Hlen, Ht, Hw. unfold RECORD_LIMIT. lia.
  - intros m. unfold sha256_hex, w_codec. split.
    + by rewrite len_bytes, bytes_text, length_to_hex.
    + unfold all_bytes. rewrite bytes_text. apply forallb_forall. intros c Hc%list_elem_of_In.
      pose proof (to_hex_chars 64 (foldl (λ acc c, acc * 256 + code c) 0 m)) as Hall.
      rewrite Forall_forall in Hall. auto.
Qed.

Definition opened {J} `{DurableLog J} (now : Z) (rs : list (list ascii)) (j : J) : ReplayCache (J := J) :=
  match open now (Ok rs) j with Ok (c, _) => c | Err _ => MkCache None ∅ 0 end.

Lemma open_opened {J} `{DurableLog J} now rs (j : J) n :
  match open now (Ok rs) j with Ok (_, r) => bool_decide (r = n) | Err _ => false end = true →
  open now (Ok rs) j = Ok (opened now rs j, n).
Proof.
  unfold opened. destruct (open now (Ok rs) j) as [[c r]|e]; [|done].
  intros ->%bool_decide_eq_true. done.
Qed.

Definition w_scope : TenantScope := Scope (id_lit "tenant-a") (id_lit "team-a").
Definition w_journal (rs : list (list ascii)) : DurableJournal := MkJournal (spawn (concat rs)) 0.

Lemma w_journal_holds D : pairs_valid D → log_holds (lines D) [] (w_journal (lines D)).
Proof.
  intros HD. change (journal_holds (lines D) [] (w_journal (lines D))).
  split_and!; [by apply lines_wf|constructor|done|done|]. exists [], []. apply spawn_inv.
Qed.

(** The daemon starts, accepts a nonce, writes it, is killed and started again. *)
Definition w_s0 : system := MkSystem (opened 5 [] (w_journal [])) [].
Definition w_s1 : system :=
  MkSystem (consume_locked w_scope "nonce" 100 10 (sys_cache w_s0)).1
    [MkCall w_scope "nonce" 100 (Some 1%nat) None].
Definition w_written (c : ReplayCache) : DurableJournal :=
  match journal c with Some j => write "/wal" 0 IoOk j | None => w_journal [] end.
Definition w_s2 : system :=
  MkSystem (with_journal (w_written (sys_cache w_s1)) (sys_cache w_s1)) (sys_calls w_s1).
Definition w_s3 : system :=
  MkSystem (with_journal (w_written (sys_cache w_s2)) (sys_cache w_s2)) (sys_calls w_s2).
Definition w_s4 : system := MkSystem (sys_cache w_s3) [].
Definition w_pairs : list (ReplayKey * Z) := [(replay_key w_scope "nonce", 100)].
Definition w_s5 : system := MkSystem (opened 20 (lines w_pairs) (w_journal (lines w_pairs))) [].
Definition w_s6 : system :=
  MkSystem (consume_locked w_scope "nonce" 200 30 (sys_cache w_s5)).1 [].

Definition w_error : SandboxError := Runtime "work order has already been consumed".
Definition w_trace : list label :=
  [Began w_scope "nonce" 100 10 (Ok tt); Wrote; Wrote; Finished w_scope "nonce" 100 (Ok tt);
   Restarted 20; Began w_scope "nonce" 200 30 (Err w_error)].

Lemma w_pairs_valid : pairs_valid w_pairs.
Proof. apply Forall_singleton. split; [apply sha256_hex_digest | done]. Qed.

Lemma w_write_step s j :
  journal (sys_cache s) = Some j →
  step "/wal" s Wrote (MkSystem (with_journal (w_written (sys_cache s)) (sys_cache s)) (sys_calls s)).
Proof.
  intros Hj. apply step_write with j; [done|]. unfold w_written. rewrite Hj. by exists "/wal", 0%nat, IoOk.
Qed.

Lemma w_steps : started w_s0 ∧ steps "/wal" w_s0 w_trace w_s6.
Proof.
  split.
  { exists (w_journal []), 5, (Some 0%nat). split_and!; [apply (w_journal_holds []); constructor| |done].
    apply open_opened. vm_compute. reflexivity. }
  apply steps_cons with w_s1.
  { apply (step_begin "/wal" w_s0 w_scope "nonce" 100 10 _ (Some 1%nat) None);
      [unfold u64_max; lia|lia|]. apply M_run. vm_compute. reflexivity. }
  apply steps_cons with w_s2.
  { eapply w_write_step. unfold w_s1. vm_compute. reflexivity. }
  apply steps_cons with w_s3.
  { eapply w_write_step. vm_compute. reflexivity. }
  apply steps_cons with w_s4.
  { apply (step_finish "/wal" w_s3 [] (MkCall w_scope "nonce" 100 (Some 1%nat) None) []); [done|].
    unfold consume_finish, answer. simpl call_append. simpl call_replacement.
    assert (∃ j, journal (sys_cache w_s3) = Some j ∧ log_wait 1 j = Some (Ok tt)) as (j & -> & ->).
    { eexists. split; [vm_compute; reflexivity|]. vm_compute. reflexivity. }
    reflexivity. }
  apply steps_cons with w_s5.
  { eapply step_restart with (j := w_written (sys_cache w_s2)) (records := lines w_pairs).
    - reflexivity.
    - eexists. split; [|]. 
      + vm_compute. reflexivity.
      + vm_compute. reflexivity.
    - apply w_journal_holds, w_pairs_valid.
    - apply open_opened with (n := Some 0%nat). vm_compute. reflexivity. }
  apply steps_cons with w_s6; [|constructor].
  apply (step_reject "/wal" w_s5 w_scope "nonce" 200 30); [unfold u64_max; lia|lia|].
  apply M_run. vm_compute. reflexivity.
Qed.

Lemma consumed_nonce_is_rejected_witness :
  w_trace !! 3%nat = Some (Finished w_scope "nonce" 100 (Ok tt)) ∧
  Err (A := ()) w_error = Err (Runtime "work order has already been consumed").
Proof.
  split; [reflexivity|].
  refine (consumed_nonce_is_rejected "/wal" w_s0 w_trace w_s6 w_scope "nonce" 100 200 30
            (Err w_error) 3 5 _ _ _ _ _ _).
  - apply w_steps.
  - apply w_steps.
  - repeat constructor.
  - reflexivity.
  - reflexivity.
  - lia.
Defined.
