(* ===== verification/Ledger.v ===== *)
(** * The assignment ledger

    Models [bins/sandboxd/src/assignment.rs]: for every sandbox key the epoch
    and state of its latest assignment, kept in memory and in a journal.  The
    journal is used through its interface [DurableLog] and the JSON encoding is
    a parameter.  An operation is modelled as its locked section and its
    completion, so that threads, the writer thread and crashes interleave. *)
From S2P Require Import Prelude Identity Journal LineCodec.
Import Journal.Journal.

Module Ledger.

Definition ASSIGNMENT_SCHEMA_VERSION : Z := 1.
Definition MAXIMUM_ASSIGNMENTS : Z := 100000.
Definition COMPACTION_INTERVAL : Z := 10000.
Definition MAXIMUM_RECOVERY_RECORDS : Z := MAXIMUM_ASSIGNMENTS + COMPACTION_INTERVAL.
Definition MAXIMUM_WAL_BYTES : Z := 64 * 1024 * 1024.

Inductive AssignmentState : Type :=
| Provisioning | Restoring | Active | Fencing | Transferable | Stopped | Failed.

#[global] Instance AssignmentState_eq_dec : EqDecision AssignmentState.
Proof. solve_decision. Defined.

(** [{:?}]. *)
Definition state_debug (s : AssignmentState) : string :=
  match s with
  | Provisioning => "Provisioning" | Restoring => "Restoring" | Active => "Active"
  | Fencing => "Fencing" | Transferable => "Transferable" | Stopped => "Stopped"
  | Failed => "Failed"
  end.

Record AssignmentRecord : Type := MkAssignment {
  schema_version : Z;
  record_key : SandboxKey;
  epoch : AssignmentEpoch;
  state : AssignmentState;
  snapshot_id : option SnapshotId
}.

#[global] Instance AssignmentRecord_eq_dec : EqDecision AssignmentRecord.
Proof. solve_decision. Defined.

(** [Provisioning | Restoring | Active | Fencing]. *)
Definition is_live (s : AssignmentState) : bool :=
  match s with
  | Provisioning | Restoring | Active | Fencing => true
  | Transferable | Stopped | Failed => false
  end.

Definition valid_transition (from to : AssignmentState) : bool :=
  match from, to with
  | Provisioning, Active
  | Provisioning, Stopped
  | Provisioning, Failed
  | Restoring, Active
  | Restoring, Failed
  | Active, Fencing
  | Active, Stopped
  | Active, Failed
  | Fencing, Active
  | Fencing, Transferable
  | Fencing, Failed => true
  | _, _ => false
  end.

(** [serde_json] on assignment records. *)
Class LedgerCodec : Type := {
  to_vec : AssignmentRecord → result string (list ascii);
  from_slice : list ascii → result string AssignmentRecord
}.

Section code.
Context `{LedgerCodec} {J : Type} `{DurableLog J}.

Record AssignmentLedger : Type := MkLedger {
  journal : J;
  entries : gmap SandboxKey AssignmentRecord;
  appends_since_compaction : Z
}.

Abbreviation L := (M AssignmentLedger SandboxError).

Definition with_journal (j : J) (l : AssignmentLedger) : AssignmentLedger :=
  MkLedger j (entries l) (appends_since_compaction l).
Definition with_entries (m : gmap SandboxKey AssignmentRecord) (l : AssignmentLedger) : AssignmentLedger :=
  MkLedger (journal l) m (appends_since_compaction l).
Definition with_appends (n : Z) (l : AssignmentLedger) : AssignmentLedger :=
  MkLedger (journal l) (entries l) n.

Definition encode_record (record : AssignmentRecord) : result SandboxError (list ascii) :=
  b ← map_err (λ error, Runtime ("encode assignment record: " +:+ error)) (to_vec record);
  mret (b ++ [NEWLINE]).

Fixpoint encode_list (records : list AssignmentRecord) : result SandboxError (list ascii) :=
  match records with
  | [] => mret []
  | record :: records' =>
      b ← encode_record record;
      bs ← encode_list records';
      mret (b ++ bs)
  end.

Definition encode_entries (m : gmap SandboxKey AssignmentRecord) : result SandboxError (list ascii) :=
  encode_list (btree_values m).

Definition on_journal {A} (f : M J SandboxError A) : L A :=
  λ l, let '(j, r) := f (journal l) in (with_journal j l, r).

(** [self.journal.enqueue_replace(encode_entries(&state.entries)?)?]. *)
Definition replace_all : L nat :=
  self ← M_get;
  b ← M_lift (encode_entries (entries self));
  on_journal (log_enqueue_replace b).

Definition maybe_enqueue_compaction : L (option nat) :=
  self ← M_get;
  if appends_since_compaction self <? COMPACTION_INTERVAL then mret None
  else
    M_modify (with_appends 0);;
    receipt ← replace_all;
    mret (Some receipt).

(** What an operation keeps across its wait: the record it wrote, what was
    there before, and its receipts. *)
Record call : Type := MkCall {
  call_record : AssignmentRecord;
  call_previous : option AssignmentRecord;
  call_append : nat;
  call_replacement : option nat
}.

(** Insert the record, enqueue its append and maybe a compaction. *)
Definition commit (record : AssignmentRecord) (previous : option AssignmentRecord) : L call :=
  M_modify (λ l, with_entries (<[record_key record := record]> (entries l)) l);;
  b ← M_lift (encode_record record);
  append ← on_journal (log_enqueue_append b);
  M_modify (λ l, with_appends (appends_since_compaction l + 1) l);;
  replacement ← maybe_enqueue_compaction;
  mret (MkCall record previous append replacement).

Definition next_epoch (current : option AssignmentRecord) : result SandboxError AssignmentEpoch :=
  value ← ok_or (Runtime "assignment epoch overflow")
    (u64_checked_add match current with Some record => epoch_get (epoch record) | None => 0 end 1);
  map_err (λ error, Runtime (core_error_to_string error)) (epoch_new value).

(** The locked section of [begin_operation]; the epoch it returns is the one
    of the record. *)
Definition begin_operation (key : SandboxKey) (requested_epoch : option AssignmentEpoch)
    (assignment_state : AssignmentState) (snapshot : option SnapshotId) : L call :=
  self ← M_get;
  let current := entries self !! key in
  M_reject_if ((MAXIMUM_ASSIGNMENTS <=? Z.of_nat (size (entries self)))
               && negb (bool_decide (is_Some current)))
    (Runtime "assignment ledger is full");;
  M_reject_if (match current with Some record => is_live (state record) | None => false end)
    (Runtime "sandbox assignment is already active");;
  e ← M_lift match requested_epoch with Some e => Ok e | None => next_epoch current end;
  M_reject_if (match current with
               | Some record => epoch_get e <=? epoch_get (epoch record)
               | None => false
               end)
    (Runtime "assignment epoch is stale or already consumed");;
  M_reject_if (match current with
               | Some record =>
                   bool_decide (state record = Transferable)
                   && (negb (bool_decide (assignment_state = Restoring))
                       || negb (bool_decide (snapshot_id record = snapshot)))
               | None => false
               end)
    (Runtime "transferable assignment must be restored from its fenced snapshot");;
  commit (MkAssignment ASSIGNMENT_SCHEMA_VERSION key e assignment_state snapshot) current.

Definition begin (key : SandboxKey) (requested_epoch : option AssignmentEpoch) : L call :=
  begin_operation key requested_epoch Provisioning None.
Definition begin_restore (key : SandboxKey) (requested_epoch : option AssignmentEpoch)
    (snapshot : SnapshotId) : L call :=
  begin_operation key requested_epoch Restoring (Some snapshot).

(** The locked section of [transition]. *)
Definition transition (key : SandboxKey) (e : AssignmentEpoch) (assignment_state : AssignmentState)
    (snapshot : option SnapshotId) : L call :=
  self ← M_get;
  previous ← M_lift (ok_or (Runtime "sandbox does not have an assignment") (entries self !! key));
  M_reject_if (negb (bool_decide (epoch previous = e)))
    (Runtime "assignment epoch changed during operation");;
  M_reject_if (negb (valid_transition (state previous) assignment_state))
    (Runtime ("invalid assignment transition from " +:+ state_debug (state previous)
              +:+ " to " +:+ state_debug assignment_state));;
  M_reject_if ((bool_decide (assignment_state = Fencing) || bool_decide (assignment_state = Transferable))
               && bool_decide (snapshot = None))
    (Runtime "snapshot fencing transition requires a snapshot identity");;
  M_reject_if (bool_decide (state previous = Fencing) && bool_decide (assignment_state = Transferable)
               && negb (bool_decide (snapshot_id previous = snapshot)))
    (Runtime "transferable snapshot does not match the fencing record");;
  let snapshot' :=
    if negb (bool_decide (snapshot = None)) then snapshot
    else if bool_decide (assignment_state = Active) || bool_decide (assignment_state = Stopped) then None
    else snapshot_id previous in
  commit (MkAssignment (schema_version previous) (record_key previous) (epoch previous)
            assignment_state snapshot') (Some previous).

Definition begin_fencing (key : SandboxKey) (e : AssignmentEpoch) (snapshot : SnapshotId) : L call :=
  transition key e Fencing (Some snapshot).
Definition mark_transferable (key : SandboxKey) (e : AssignmentEpoch) (snapshot : SnapshotId) : L call :=
  transition key e Transferable (Some snapshot).
Definition mark (key : SandboxKey) (e : AssignmentEpoch) (assignment_state : AssignmentState) : L call :=
  transition key e assignment_state None.

Definition require_current (key : SandboxKey) (requested_epoch : option AssignmentEpoch)
    (l : AssignmentLedger) : result SandboxError AssignmentEpoch :=
  record ← ok_or (Runtime "sandbox does not have an assignment") (entries l !! key);
  reject_if (match requested_epoch with
             | Some e => negb (bool_decide (e = epoch record))
             | None => false
             end) (Runtime "assignment epoch is stale");;
  reject_if (negb (bool_decide (state record = Active)))
    (Runtime "sandbox assignment is not active");;
  mret (epoch record).

Definition rollback (expected : AssignmentRecord) (previous : option AssignmentRecord)
    (l : AssignmentLedger) : AssignmentLedger :=
  if bool_decide (entries l !! record_key expected = Some expected) then
    with_entries (match previous with
                  | Some p => <[record_key expected := p]> (entries l)
                  | None => delete (record_key expected) (entries l)
                  end) l
  else l.

(** The rest of [begin_operation] and [transition]: [None] while waiting. *)
Definition finish (c : call) (l : AssignmentLedger) : option (AssignmentLedger * result SandboxError ()) :=
  match log_wait (call_append c) (journal l) with
  | None => None
  | Some (Err error) => Some (rollback (call_record c) (call_previous c) l, Err error)
  | Some (Ok _) =>
      match call_replacement c with
      | None => Some (l, Ok tt)
      | Some receipt =>
          match log_wait receipt (journal l) with
          | None => None
          | Some r => Some (l, r)
          end
      end
  end.

Definition reconciled (record : AssignmentRecord) : AssignmentRecord :=
  if is_live (state record) then
    MkAssignment (schema_version record) (record_key record) (epoch record) Failed (snapshot_id record)
  else record.

(** [reconcile_after_recovery] up to the wait; [None] when nothing was live. *)
Definition reconcile_after_recovery : L (option nat) :=
  self ← M_get;
  let modified := existsb (λ record, is_live (state record)) (btree_values (entries self)) in
  M_put (with_entries (reconciled <$> entries self) self);;
  if negb modified then mret None
  else
    M_modify (with_appends 0);;
    receipt ← replace_all;
    mret (Some receipt).

Fixpoint load_records (records : list (list ascii)) (m : gmap SandboxKey AssignmentRecord) :
    result SandboxError (gmap SandboxKey AssignmentRecord) :=
  match records with
  | [] => mret m
  | b :: records' =>
      record ← map_err (λ error, Runtime ("decode assignment record: " +:+ error)) (from_slice b);
      reject_if (negb (schema_version record =? ASSIGNMENT_SCHEMA_VERSION))
        (Runtime "assignment record schema is invalid");;
      let m' := <[record_key record := record]> m in
      reject_if (MAXIMUM_ASSIGNMENTS <? Z.of_nat (size m'))
        (Runtime "assignment journal exceeds its entry bound");;
      load_records records' m'
  end.

Definition load (records : result SandboxError (list (list ascii))) :
    result SandboxError (gmap SandboxKey AssignmentRecord) :=
  rs ← records;
  load_records rs ∅.

(** [open] on the records read from the file and the journal opened on it, up
    to the wait for its compaction. *)
Definition open (records : result SandboxError (list (list ascii))) (j : J) :
    result SandboxError (AssignmentLedger * nat) :=
  m ← load records;
  let '(l, r) := replace_all (MkLedger j m 0) in
  receipt ← r;
  mret (l, receipt).

(** ** Interleavings: the operations in flight, the ledger they share *)

Record system : Type := MkSystem { sys_ledger : AssignmentLedger; sys_calls : list call }.
End code.

(** What a step does: an operation passes or fails its locked section, the
    writer thread writes, an operation completes, the recovered ledger is
    reconciled, the daemon crashes and is started again. *)
Inductive label : Type :=
| Began (key : SandboxKey) (requested : option AssignmentEpoch) (to : AssignmentState)
    (snapshot : option SnapshotId) (r : result SandboxError AssignmentRecord)
| Moved (key : SandboxKey) (e : AssignmentEpoch) (to : AssignmentState)
    (snapshot : option SnapshotId) (r : result SandboxError AssignmentRecord)
| Wrote
| Finished (record : AssignmentRecord) (r : result SandboxError ())
| Reconciled
| Restarted.

Section steps.
Context `{LedgerCodec} {J : Type} `{DurableLog J} (path : string).

Inductive step : system (J := J) → label → system (J := J) → Prop :=
| step_begin s key requested to snapshot l c :
    begin_operation key requested to snapshot (sys_ledger s) = (l, Ok c) →
    step s (Began key requested to snapshot (Ok (call_record c))) (MkSystem l (sys_calls s ++ [c]))
| step_begin_refused s key requested to snapshot l error :
    begin_operation key requested to snapshot (sys_ledger s) = (l, Err error) →
    step s (Began key requested to snapshot (Err error)) (MkSystem l (sys_calls s))
| step_move s key e to snapshot l c :
    transition key e to snapshot (sys_ledger s) = (l, Ok c) →
    step s (Moved key e to snapshot (Ok (call_record c))) (MkSystem l (sys_calls s ++ [c]))
| step_move_refused s key e to snapshot l error :
    transition key e to snapshot (sys_ledger s) = (l, Err error) →
    step s (Moved key e to snapshot (Err error)) (MkSystem l (sys_calls s))
| step_write s j :
    log_writes (journal (sys_ledger s)) j →
    step s Wrote (MkSystem (with_journal j (sys_ledger s)) (sys_calls s))
| step_finish s before c after l r :
    sys_calls s = before ++ c :: after →
    finish c (sys_ledger s) = Some (l, r) →
    step s (Finished (call_record c) r) (MkSystem l (before ++ after))
| step_reconcile s l r :
    reconcile_after_recovery (sys_ledger s) = (l, r) →
    step s Reconciled (MkSystem l (sys_calls s))
| step_restart s records j0 l receipt :
    log_reads path MAXIMUM_WAL_BYTES MAXIMUM_RECOVERY_RECORDS (journal (sys_ledger s)) (Ok records) →
    log_holds records [] j0 →
    open (Ok records) j0 = Ok (l, receipt) →
    step s Restarted (MkSystem l []).

Inductive steps : system (J := J) → list label → system (J := J) → Prop :=
| steps_nil s : steps s [] s
| steps_cons s1 s2 s3 l tr : step s1 l s2 → steps s2 tr s3 → steps s1 (l :: tr) s3.

(** The first start, on a journal that does not exist yet. *)
Definition started (s : system (J := J)) : Prop :=
  ∃ j0 receipt, log_holds [] [] j0 ∧ open (Ok []) j0 = Ok (sys_ledger s, receipt) ∧ sys_calls s = [].
End steps.

(** The record that a step has granted. *)
Definition granted (l : label) : option AssignmentRecord :=
  match l with
  | Began _ _ _ _ (Ok record) | Moved _ _ _ _ (Ok record) => Some record
  | _ => None
  end.

(** The sandbox that a step is about. *)
Definition label_key (l : label) : option SandboxKey :=
  match l with
  | Began key _ _ _ _ | Moved key _ _ _ _ => Some key
  | _ => None
  end.

End Ledger.
Import Ledger.

(** ** The documented behaviour of the encoder

    As for the replay cache: one line, decoding inverts encoding, and the
    bounded fields keep a record within [RECORD_LIMIT] bytes. *)

Definition RECORD_LIMIT : Z := 600.
Definition record_valid (r : AssignmentRecord) : Prop := schema_version r = ASSIGNMENT_SCHEMA_VERSION.

Class LedgerCodecLaws `{LedgerCodec} : Prop := {
  codec_line r :
    record_valid r →
    ∃ b, to_vec r = Ok b ∧ from_slice (b ++ [NEWLINE]) = Ok r ∧
      (NEWLINE ∉ b) ∧ b ≠ [] ∧ length_z b + 1 ≤ RECORD_LIMIT
}.

Section proofs.
Context `{LedgerCodecLaws} {J : Type} `{!DurableLog J}.
Implicit Types (l : AssignmentLedger (J := J)) (m : gmap SandboxKey AssignmentRecord).
Implicit Types (D : list AssignmentRecord) (rs : list (list ascii)) (cs : list Command).

Definition enc (r : AssignmentRecord) : list ascii :=
  match to_vec r with Ok b => b ++ [NEWLINE] | Err _ => [] end.
Definition lines D : list (list ascii) := enc <$> D.

Lemma ledger_enc_spec r :
  record_valid r →
  encode_record r = Ok (enc r) ∧ record_wf (enc r) ∧ from_slice (enc r) = Ok r ∧
  length_z (enc r) ≤ RECORD_LIMIT.
Proof.
  intros (b & Hvec & Hslice & Hnl & Hne & Hlen)%codec_line. unfold enc, encode_record. rewrite Hvec.
  assert (length_z (b ++ [NEWLINE]) ≤ RECORD_LIMIT) by (rewrite length_app; simpl; lia).
  split_and!; [done| |done|done]. exists b. split_and!; try done.
  unfold RECORD_LIMIT, MAXIMUM_RECORD_BYTES in *. lia.
Qed.

Lemma ledger_lines_wf D : Forall record_valid D → Forall record_wf (lines D).
Proof. intros HD. apply Forall_fmap. eapply Forall_impl; [exact HD|]. intros r Hr. by apply ledger_enc_spec. Qed.

Lemma ledger_encode_list_spec D : Forall record_valid D → encode_list D = Ok (concat (lines D)).
Proof.
  induction 1 as [|r D Hr _ IH]; [done|]. cbn [encode_list].
  destruct (ledger_enc_spec r Hr) as (-> & _). simpl. by rewrite IH.
Qed.

Lemma ledger_concat_lines_length D :
  Forall record_valid D → length_z (concat (lines D)) ≤ RECORD_LIMIT * Z.of_nat (length D).
Proof.
  induction 1 as [|r D Hr _ IH]; [done|].
  destruct (ledger_enc_spec r Hr) as (_ & _ & _ & Hlen). simpl. rewrite length_app. lia.
Qed.

(** *** Entries and the log *)

Definition entries_ok m : Prop :=
  map_Forall (λ k r, record_key r = k ∧ record_valid r) m ∧ Z.of_nat (size m) ≤ MAXIMUM_ASSIGNMENTS.

(** The latest record of every key. *)
Definition latest D : gmap SandboxKey AssignmentRecord :=
  foldl (λ m r, <[record_key r := r]> m) ∅ D.

Lemma values_valid m : entries_ok m → Forall record_valid (btree_values m).
Proof.
  intros [Hm _]. apply Forall_forall. intros r Hr. unfold btree_values in Hr.
  apply list_elem_of_fmap in Hr as ([k r'] & -> & Hp). apply elem_of_btree_iter in Hp. by apply (Hm k r').
Qed.

Lemma foldl_insert_list_to_map D m :
  NoDup (record_key <$> D) → (∀ r, r ∈ D → m !! record_key r = None) →
  foldl (λ m r, <[record_key r := r]> m) m D = list_to_map ((λ r, (record_key r, r)) <$> D) ∪ m.
Proof.
  revert m. induction D as [|r D IH]; intros m Hnd Hm; simpl; [by rewrite map_empty_union|].
  apply NoDup_cons in Hnd as [Hr Hnd]. rewrite IH; [|done|].
  - rewrite <- insert_union_r, <- insert_union_l; [done|].
    apply not_elem_of_list_to_map_1. rewrite <- list_fmap_compose. done.
  - intros r' Hr'. rewrite lookup_insert_ne; [by apply Hm; right|].
    intros Heq. apply Hr. rewrite Heq. by apply list_elem_of_fmap_2.
Qed.

Lemma latest_values m : entries_ok m → latest (btree_values m) = m.
Proof.
  intros [Hm _].
  assert ((λ r, (record_key r, r)) <$> btree_values m = btree_iter m) as Hiter.
  { unfold btree_values. rewrite <- list_fmap_compose. rewrite <- (list_fmap_id (btree_iter m)) at 2.
    apply list_fmap_ext. intros i [k r] Hi. simpl. apply list_elem_of_lookup_2, elem_of_btree_iter in Hi.
    by rewrite (proj1 (Hm k r Hi)). }
  unfold latest. rewrite foldl_insert_list_to_map.
  - by rewrite Hiter, btree_iter_list_to_map, map_union_empty.
  - replace (record_key <$> btree_values m) with (fst <$> ((λ r, (record_key r, r)) <$> btree_values m))
      by (by rewrite <- list_fmap_compose). rewrite Hiter. apply NoDup_btree_keys.
  - intros r _. apply lookup_empty.
Qed.

Lemma latest_snoc D r : latest (D ++ [r]) = <[record_key r := r]> (latest D).
Proof. unfold latest. by rewrite foldl_app. Qed.

Lemma ledger_encode_entries_spec m :
  entries_ok m →
  encode_entries m = Ok (concat (lines (btree_values m))) ∧
  Forall record_wf (lines (btree_values m)) ∧
  length_z (concat (lines (btree_values m))) ≤ MAXIMUM_REPLACEMENT_BYTES.
Proof.
  intros Hm. pose proof (values_valid m Hm) as Hv. destruct Hm as [_ Hsize]. split_and!.
  - by apply ledger_encode_list_spec.
  - by apply ledger_lines_wf.
  - pose proof (ledger_concat_lines_length _ Hv) as Hlen. unfold btree_values in *.
    rewrite length_fmap, (Permutation_length (btree_iter_perm m)), length_map_to_list in Hlen.
    unfold RECORD_LIMIT, MAXIMUM_ASSIGNMENTS, MAXIMUM_REPLACEMENT_BYTES in *. lia.
Qed.

(** *** The operations on a ledger and its journal *)

Record ledger_inv rs cs l : Prop := LedgerInv {
  inv_holds : log_holds rs cs (journal l);
  inv_entries : entries_ok (entries l)
}.

Lemma run_replace_all rs cs l :
  ledger_inv rs cs l →
  ∃ j, replace_all l = (with_journal j l, Ok (length cs)) ∧
    ledger_inv rs (cs ++ [Replace (concat (lines (btree_values (entries l)))) (length cs)]) (with_journal j l) ∧
    ∀ i, log_wait i j = log_wait i (journal l).
Proof.
  intros [Hh Hm]. destruct (ledger_encode_entries_spec _ Hm) as (Henc & Hwf & Hlen).
  destruct (log_replace_ok rs cs _ _ Hh Hwf Hlen) as (j & Hrun & Hh' & Hw).
  exists j. split; [|by split].
  unfold replace_all, on_journal, mbind, M_bind, M_get, M_lift. by rewrite Henc, Hrun.
Qed.

(** The commands of a commit: the record, then maybe a compaction. *)
Definition commit_commands (n : nat) (r : AssignmentRecord) m (compacted : bool) : list Command :=
  Append (enc r) n ::
  if compacted then [Replace (concat (lines (btree_values (<[record_key r := r]> m)))) (S n)] else [].

Lemma commit_spec rs cs l record previous :
  ledger_inv rs cs l → record_valid record →
  Z.of_nat (size (<[record_key record := record]> (entries l))) ≤ MAXIMUM_ASSIGNMENTS →
  ∃ l' replacement compacted,
    commit record previous l = (l', Ok (MkCall record previous (length cs) replacement)) ∧
    entries l' = <[record_key record := record]> (entries l) ∧
    ledger_inv rs (cs ++ commit_commands (length cs) record (entries l) compacted) l' ∧
    ∀ i, log_wait i (journal l') = log_wait i (journal l).
Proof.
  intros [Hh Hm] Hv Hsize. set (m' := <[record_key record := record]> (entries l)) in *.
  assert (entries_ok m') as Hm'.
  { split; [|done]. apply map_Forall_insert_2; [done|apply Hm]. }
  destruct (ledger_enc_spec record Hv) as (Henc & Hwf & _).
  destruct (log_append_ok rs cs (enc record) _ Hh Hwf) as (j1 & Happ & Hh1 & Hw1).
  unfold commit, mbind, M_bind, M_modify, M_lift, on_journal. rewrite Henc. simpl. rewrite Happ. simpl.
  unfold maybe_enqueue_compaction, mbind, M_bind, M_get, M_modify. simpl.
  destruct (appends_since_compaction l + 1 <? COMPACTION_INTERVAL).
  - eexists _, None, false. split_and!; [done|done|by split|done].
  - set (l2 := with_appends 0 _).
    assert (ledger_inv rs (cs ++ [Append (enc record) (length cs)]) l2) as Hinv2 by (by split).
    destruct (run_replace_all _ _ _ Hinv2) as (j2 & Hrun & Hinv & Hw2). rewrite Hrun.
    eexists _, (Some _), true. split_and!; [done|done| |].
    + rewrite length_app, Nat.add_1_r in Hinv. unfold commit_commands.
      by rewrite <- app_assoc in Hinv.
    + intros i. rewrite <- Hw1. apply Hw2.
Qed.

(** Why a granted assignment may follow the current one. *)
Definition may_begin (current : option AssignmentRecord) (record : AssignmentRecord) : Prop :=
  match current with
  | None => True
  | Some cur =>
      is_live (state cur) = false ∧ epoch_get (epoch cur) < epoch_get (epoch record) ∧
      (state cur = Transferable → state record = Restoring ∧ snapshot_id record = snapshot_id cur)
  end.

Definition may_move (current : option AssignmentRecord) (record : AssignmentRecord) : Prop :=
  ∃ cur, current = Some cur ∧ epoch record = epoch cur ∧
    valid_transition (state cur) (state record) = true ∧
    (state record = Fencing → is_Some (snapshot_id record)) ∧
    (state record = Transferable → is_Some (snapshot_id record) ∧ snapshot_id record = snapshot_id cur).

(** The rule that a granted operation obeyed on the current record of its key. *)
Definition grant_rule (current : option AssignmentRecord) (lb : label) : Prop :=
  match lb with
  | Began key requested to snapshot (Ok r) =>
      record_key r = key ∧ state r = to ∧ snapshot_id r = snapshot ∧
      (∀ e, requested = Some e → epoch r = e) ∧ may_begin current r
  | Moved key e to snapshot (Ok r) =>
      record_key r = key ∧ state r = to ∧ epoch r = e ∧ may_move current r
  | _ => True
  end.

Lemma size_insert_bound m key r :
  entries_ok m → (Z.of_nat (size m) < MAXIMUM_ASSIGNMENTS ∨ is_Some (m !! key)) →
  Z.of_nat (size (<[key := r]> m)) ≤ MAXIMUM_ASSIGNMENTS.
Proof.
  intros [_ Hsize] Hroom. destruct (m !! key) as [r0|] eqn:Hk.
  - by rewrite map_size_insert_Some by (rewrite Hk; eauto).
  - rewrite map_size_insert_None by done. destruct Hroom as [|[? ?]]; [lia|done].
Qed.

Lemma next_epoch_spec current e :
  next_epoch current = Ok e →
  epoch_get e = 1 + match current with Some r => epoch_get (epoch r) | None => 0 end.
Proof.
  unfold next_epoch. intros H'. inv_ok H'. simpl_guards. apply epoch_new_Ok in H'. lia.
Qed.

Lemma begin_operation_cases l key requested to snapshot l' r :
  entries_ok (entries l) → begin_operation key requested to snapshot l = (l', r) →
  (∃ error, r = Err error ∧ l' = l) ∨
  ∃ e, let record := MkAssignment ASSIGNMENT_SCHEMA_VERSION key e to snapshot in
    may_begin (entries l !! key) record ∧
    (∀ e', requested = Some e' → e = e') ∧
    Z.of_nat (size (<[key := record]> (entries l))) ≤ MAXIMUM_ASSIGNMENTS ∧
    commit record (entries l !! key) l = (l', r).
Proof.
  intros Hok Hrun. unfold begin_operation in Hrun.
  set (current := entries l !! key) in *.
  unfold mbind at 1, M_bind at 1, M_get in Hrun. fold current in Hrun.
  unfold mbind at 1, M_bind at 1, M_reject_if at 1 in Hrun.
  destruct (_ && negb (bool_decide (is_Some current))) eqn:Hfull; [simplify_eq; left; eauto|].
  unfold mbind at 1, M_bind at 1, M_reject_if at 1 in Hrun.
  destruct (match current with Some _ => _ | None => _ end) eqn:Hlive in Hrun; [simplify_eq; left; eauto|].
  unfold mbind at 1, M_bind at 1, M_lift at 1 in Hrun.
  destruct (match requested with Some _ => _ | None => _ end) as [e|error] eqn:He in Hrun;
    [|simplify_eq; left; eauto].
  unfold mbind at 1, M_bind at 1, M_reject_if at 1 in Hrun.
  destruct (match current with Some _ => epoch_get e <=? _ | None => _ end) eqn:Hstale in Hrun;
    [simplify_eq; left; eauto|].
  unfold mbind at 1, M_bind at 1, M_reject_if at 1 in Hrun.
  destruct (match current with Some _ => bool_decide _ && _ | None => _ end) eqn:Htrans in Hrun;
    [simplify_eq; left; eauto|].
  right. exists e. split_and!; [| | |done].
  - unfold may_begin. destruct current as [cur|]; [|done]. simpl. split_and!; [done|lia|].
    intros Hst. rewrite bool_decide_true in Htrans by done. simpl in Htrans. simpl_guards.
    by split.
  - intros e' ->. by simplify_eq.
  - apply size_insert_bound; [done|]. destruct (decide (is_Some current)) as [|Hno]; [by right|left].
    rewrite bool_decide_false in Hfull by done. simpl in Hfull. lia.
Qed.

Lemma transition_cases l key e to snapshot l' r :
  entries_ok (entries l) → transition key e to snapshot l = (l', r) →
  (∃ error, r = Err error ∧ l' = l) ∨
  ∃ record,
    record_valid record ∧ record_key record = key ∧ epoch record = e ∧ state record = to ∧
    may_move (entries l !! key) record ∧
    (snapshot = None ∨ snapshot_id record = snapshot) ∧
    Z.of_nat (size (<[key := record]> (entries l))) ≤ MAXIMUM_ASSIGNMENTS ∧
    commit record (entries l !! key) l = (l', r).
Proof.
  intros Hok Hrun. unfold transition in Hrun.
  unfold mbind at 1, M_bind at 1, M_get in Hrun.
  unfold mbind at 1, M_bind at 1, M_lift at 1 in Hrun.
  destruct (entries l !! key) as [cur|] eqn:Hcur; simpl in Hrun; [|simplify_eq; left; eauto].
  destruct (proj1 Hok key cur Hcur) as [Hkey Hvalid].
  unfold mbind at 1, M_bind at 1, M_reject_if at 1 in Hrun.
  destruct (decide (epoch cur = e)) as [He|He];
    [rewrite (bool_decide_true _ He) in Hrun|rewrite (bool_decide_false _ He) in Hrun; simplify_eq/=; left; eauto].
  simpl in Hrun. unfold mbind at 1, M_bind at 1, M_reject_if at 1 in Hrun.
  destruct (valid_transition (state cur) to) eqn:Hvt; simpl in Hrun; [|simplify_eq; left; eauto].
  unfold mbind at 1, M_bind at 1, M_reject_if at 1 in Hrun.
  destruct (_ && bool_decide (snapshot = None)) eqn:Hneed in Hrun; [simplify_eq; left; eauto|].
  unfold mbind at 1, M_bind at 1, M_reject_if at 1 in Hrun.
  destruct (_ && negb (bool_decide (snapshot_id cur = snapshot))) eqn:Hmatch in Hrun;
    [simplify_eq; left; eauto|].
  right. eexists. split_and!; [..|exact Hrun]; simpl; try done.
  - exists cur. simpl. split_and!; [done|done|done| |].
    + intros ->. rewrite bool_decide_true in Hneed by done. simpl in Hneed. simpl_guards.
      rewrite bool_decide_false by done. simpl. by destruct snapshot; eauto.
    + intros ->. rewrite orb_comm, bool_decide_true in Hneed by done. simpl in Hneed. simpl_guards.
      rewrite (bool_decide_false (snapshot = None)) by done. simpl.
      split; [by destruct snapshot; eauto|]. destruct (state cur) eqn:Hst; try done.
      rewrite !bool_decide_true in Hmatch by done. simpl in Hmatch. by simpl_guards.
  - by destruct snapshot; [right|left].
  - rewrite Hkey. apply size_insert_bound; [done|]. right. eauto.
Qed.

Lemma commit_grants rs cs l record previous l' r :
  ledger_inv rs cs l → record_valid record →
  Z.of_nat (size (<[record_key record := record]> (entries l))) ≤ MAXIMUM_ASSIGNMENTS →
  commit record previous l = (l', r) →
  ∃ c compacted, r = Ok c ∧ call_record c = record ∧ call_previous c = previous ∧
    call_append c = length cs ∧ entries l' = <[record_key record := record]> (entries l) ∧
    ledger_inv rs (cs ++ commit_commands (length cs) record (entries l) compacted) l' ∧
    ∀ i, log_wait i (journal l') = log_wait i (journal l).
Proof.
  intros Hinv Hv Hsize Hrun.
  destruct (commit_spec rs cs l record previous Hinv Hv Hsize) as (l1 & rep & comp & Hrun1 & Hrest).
  rewrite Hrun1 in Hrun. simplify_eq. eexists _, comp. split_and!; try done; apply Hrest.
Qed.

(** *** Recovery *)

Lemma reconciled_spec r :
  record_key (reconciled r) = record_key r ∧ epoch (reconciled r) = epoch r ∧
  is_live (state (reconciled r)) = false ∧ (record_valid r → record_valid (reconciled r)) ∧
  (is_live (state r) = false → reconciled r = r).
Proof. unfold reconciled. destruct (is_live (state r)) eqn:Hl; split_and!; done. Qed.

Lemma reconciled_ok m : entries_ok m → entries_ok (reconciled <$> m).
Proof.
  intros [Hm Hsize]. split; [|by rewrite map_size_fmap].
  intros k r Hr. rewrite lookup_fmap in Hr. destruct (m !! k) as [r0|] eqn:Hk; simplify_eq/=.
  destruct (Hm k r0 Hk) as [Hkey Hv]. destruct (reconciled_spec r0) as (-> & _ & _ & Hv' & _). auto.
Qed.

Lemma reconcile_spec rs cs l l' r :
  ledger_inv rs cs l → reconcile_after_recovery l = (l', r) →
  entries l' = reconciled <$> entries l ∧
  ∃ cs1, ledger_inv rs (cs ++ cs1) l' ∧
    (cs1 = [] ∨ cs1 = [Replace (concat (lines (btree_values (entries l')))) (length cs)]) ∧
    (∀ i, log_wait i (journal l') = log_wait i (journal l)) ∧
    (cs1 = [] → entries l' = entries l) ∧ ∃ receipt, r = Ok receipt.
Proof.
  intros [Hh Hok] Hrun. pose proof (reconciled_ok _ Hok) as Hok'.
  unfold reconcile_after_recovery, mbind, M_bind, M_get, M_put, M_modify in Hrun. simpl in Hrun.
  destruct (existsb _ _) eqn:Hmod; simpl in Hrun.
  - set (l1 := with_appends 0 _) in Hrun.
    assert (ledger_inv rs cs l1) as Hinv1 by (by split).
    destruct (run_replace_all _ _ _ Hinv1) as (j & Hrep & Hinv & Hw). rewrite Hrep in Hrun.
    cbv [mret M_ret] in Hrun. simplify_eq/=. split; [done|]. eexists. split_and!; [exact Hinv|by right|exact Hw|done|]. by eexists.
  - cbv [mret M_ret] in Hrun. simplify_eq/=.
    assert (reconciled <$> entries l = entries l) as Heq.
    { apply map_eq. intros k. rewrite lookup_fmap. destruct (entries l !! k) as [r0|] eqn:Hk; [|done].
      simpl. f_equal. apply reconciled_spec. destruct (is_live (state r0)) eqn:Hl; [|done].
      apply not_true_iff_false in Hmod. destruct Hmod. apply existsb_exists. exists r0. split; [|done].
      apply list_elem_of_In. unfold btree_values. apply list_elem_of_fmap. exists (k, r0).
      by rewrite elem_of_btree_iter. }
    split; [done|]. exists []. rewrite app_nil_r. split_and!; [|by left|done|done|by eexists].
    split; [done|]. simpl. by rewrite Heq.
Qed.

Lemma ledger_load_lines D : ∀ m m',
  Forall record_valid D → load_records (lines D) m = Ok m' →
  m' = foldl (λ m r, <[record_key r := r]> m) m D ∧
  (Z.of_nat (size m) ≤ MAXIMUM_ASSIGNMENTS → Z.of_nat (size m') ≤ MAXIMUM_ASSIGNMENTS).
Proof.
  induction D as [|r D IH]; intros m m' HD Hload.
  { injection Hload as <-. done. }
  apply Forall_cons in HD as [Hr HD]. cbn [lines fmap list_fmap load_records] in Hload.
  destruct (ledger_enc_spec r Hr) as (_ & _ & Hslice & _). rewrite Hslice in Hload. simpl in Hload.
  rewrite Hr, Z.eqb_refl in Hload. simpl in Hload. inv_ok Hload. simpl_guards.
  destruct (IH _ m' HD Hload) as [-> Hsize]. split; [done|]. intros _. apply Hsize. lia.
Qed.

Lemma latest_ok D : Forall record_valid D → map_Forall (λ k r, record_key r = k ∧ record_valid r) (latest D).
Proof.
  induction D as [|r D IH] using rev_ind; intros HD; [apply map_Forall_empty|].
  apply Forall_app in HD as [HD [Hr _]%Forall_cons]. rewrite latest_snoc.
  apply map_Forall_insert_2; auto.
Qed.

Lemma ledger_open_spec D j l receipt :
  Forall record_valid D → log_holds (lines D) [] j → open (Ok (lines D)) j = Ok (l, receipt) →
  entries l = latest D ∧
  ledger_inv (lines D) [Replace (concat (lines (btree_values (entries l)))) 0] l ∧
  ∀ i, log_wait i (journal l) = log_wait i j.
Proof.
  intros HD Hh Hopen. unfold open in Hopen. inv_ok Hopen. simpl in Hstep.
  destruct (ledger_load_lines D ∅ a HD Hstep) as [Ha Hsize]. fold (latest D) in Ha. subst a.
  assert (ledger_inv (lines D) [] (MkLedger j (latest D) 0)) as Hinv.
  { split; [done|]. split; [by apply latest_ok|]. apply Hsize. rewrite map_size_empty. done. }
  destruct (run_replace_all _ _ _ Hinv) as (j' & Hrun & Hinv' & Hw). rewrite Hrun in Hopen.
  injection Hopen as <- <-. done.
Qed.

Definition records_valid rs : Prop := ∃ D, Forall record_valid D ∧ rs = lines D.
Definition command_valid (cmd : Command) : Prop :=
  match cmd with
  | Append b _ => ∃ r, record_valid r ∧ b = enc r
  | Replace contents _ => ∃ D, Forall record_valid D ∧ contents = concat (lines D)
  end.

Lemma ledger_records_of_valid rs cs :
  records_valid rs → Forall command_valid cs → records_valid (records_of rs cs).
Proof.
  intros Hrs Hcs. revert rs Hrs. induction Hcs as [|cmd cs Hcmd _ IH]; intros rs Hrs; [done|].
  apply IH. destruct cmd as [b n|contents n]; simpl in *.
  - destruct Hrs as (D & HD & ->), Hcmd as (r & Hr & ->). exists (D ++ [r]).
    split; [by apply Forall_app; split; [|apply Forall_singleton]|]. unfold lines. by rewrite fmap_app.
  - destruct Hcmd as (D & HD & ->). exists D. split; [done|].
    apply split_inclusive_concat. by apply ledger_lines_wf.
Qed.

Lemma lines_inj D D' :
  Forall record_valid D → Forall record_valid D' → lines D = lines D' → D = D'.
Proof.
  intros HD. revert D'. induction HD as [|r D Hr _ IH]; intros D' HD' Heq.
  { by destruct D'. }
  destruct D' as [|r' D']; [done|]. apply Forall_cons in HD' as [Hr' HD'].
  simpl in Heq. injection Heq as He Hrest. destruct (ledger_enc_spec r Hr) as (_ & _ & Hs & _).
  destruct (ledger_enc_spec r' Hr') as (_ & _ & Hs' & _). rewrite He, Hs' in Hs. simplify_eq.
  f_equal. by apply IH.
Qed.

Definition call_ok (n : nat) (c : call) : Prop :=
  (call_append c < n)%nat ∧
  ∀ p, call_previous c = Some p → record_key p = record_key (call_record c) ∧ record_valid p.

Record sys_inv (s : system (J := J)) rs cs : Prop := SysInv {
  sys_ledger_inv : ledger_inv rs cs (sys_ledger s);
  sys_records : records_valid rs;
  sys_commands : Forall command_valid cs;
  sys_calls_ok : Forall (call_ok (length cs)) (sys_calls s)
}.

Lemma ledger_call_ok_mono n n' c : (n ≤ n')%nat → call_ok n c → call_ok n' c.
Proof. intros Hn [Hlt Hp]. split; [lia|done]. Qed.

Lemma entries_ok_rollback l expected previous :
  entries_ok (entries l) →
  (∀ p, previous = Some p → record_key p = record_key expected ∧ record_valid p) →
  entries_ok (entries (rollback expected previous l)).
Proof.
  intros Hok Hp. unfold rollback. case_bool_decide as Hcur; [|done]. simpl.
  destruct previous as [p|].
  - destruct (Hp p eq_refl) as [Hkey Hv]. split; [apply map_Forall_insert_2; [done|apply Hok]|].
    rewrite map_size_insert_Some by eauto. apply Hok.
  - split; [apply map_Forall_delete, Hok|].
    pose proof (map_subseteq_size (delete (record_key expected) (entries l)) (entries l) (delete_subseteq _ _)).
    destruct Hok. lia.
Qed.

(** ** Facts that survive

    [Q] is a property of the current record of the key [K] that later steps
    keep.  The section follows it through memory, the log and the operations
    in flight, as long as the append that established it may still succeed. *)
Section tracking.
Context (K : SandboxKey) (Q : AssignmentRecord → Prop).
Hypothesis Q_reconciled : ∀ r, Q r → Q (reconciled r).

Definition in_memory (s : system (J := J)) : Prop :=
  ∃ r, entries (sys_ledger s) !! K = Some r ∧ Q r.

Definition in_log rs : Prop :=
  ∃ D r, Forall record_valid D ∧ rs = lines D ∧ latest D !! K = Some r ∧ Q r.

Record remembered (s : system (J := J)) rs cs (b : nat) : Prop := Remembered {
  rem_memory : in_memory s;
  rem_log n : (b ≤ n ≤ length cs)%nat → in_log (records_of rs (take n cs));
  rem_calls : Forall (λ c, record_key (call_record c) = K →
    (call_append c < b)%nat ∨ ∃ p, call_previous c = Some p ∧ Q p) (sys_calls s)
}.

Definition tracked (s : system (J := J)) rs cs (r : nat) : Prop :=
  (r < length cs)%nat ∧ (doomed (journal (sys_ledger s)) r ∨ remembered s rs cs (S r)).

Definition safe (s : system (J := J)) rs cs (b : nat) : Prop :=
  remembered s rs cs b ∧ ∀ r, b = S r → log_wait r (journal (sys_ledger s)) = Some (Ok tt).

Lemma in_log_append rs r :
  record_valid r → (record_key r = K → Q r) → (record_key r ≠ K → in_log rs) → records_valid rs →
  in_log (rs ++ [enc r]).
Proof.
  intros Hr Hkey Hold (D0 & HD0 & Hrs). destruct (decide (record_key r = K)) as [Heq|Hne].
  - exists (D0 ++ [r]), r. split_and!; [by apply Forall_app; split; [|apply Forall_singleton]| | |auto].
    + unfold lines. by rewrite fmap_app, Hrs.
    + rewrite latest_snoc, Heq. apply lookup_insert_eq.
  - destruct (Hold Hne) as (D & r0 & HD & Hl & Hlat & Hq). exists (D ++ [r]), r0.
    split_and!; [by apply Forall_app; split; [|apply Forall_singleton]| | |done].
    + unfold lines. by rewrite fmap_app, Hl.
    + by rewrite latest_snoc, lookup_insert_ne.
Qed.

Lemma in_log_entries m r :
  entries_ok m → m !! K = Some r → Q r → in_log (split_inclusive (concat (lines (btree_values m)))).
Proof.
  intros Hm HK Hq. pose proof (values_valid m Hm) as Hv. exists (btree_values m), r.
  split_and!; [done| | |done].
  - apply split_inclusive_concat. by apply ledger_lines_wf.
  - by rewrite latest_values.
Qed.

Lemma ledger_log_extend rs cs cs' b :
  (∀ n, (b ≤ n ≤ length cs)%nat → in_log (records_of rs (take n cs))) →
  (∀ n, (0 < n ≤ length cs')%nat → in_log (records_of (records_of rs cs) (take n cs'))) →
  ∀ n, (b ≤ n ≤ length (cs ++ cs'))%nat → in_log (records_of rs (take n (cs ++ cs'))).
Proof.
  intros Hold Hnew n Hn. rewrite length_app in Hn.
  destruct (decide (n ≤ length cs)%nat) as [Hle|Hgt].
  - rewrite take_app_le by done. apply Hold. lia.
  - rewrite take_app_ge by lia. unfold records_of. rewrite foldl_app. apply Hnew. lia.
Qed.

Lemma commit_keeps rs n r m compacted r0 :
  record_valid r → records_valid rs → entries_ok (<[record_key r := r]> m) →
  (<[record_key r := r]> m) !! K = Some r0 → Q r0 → (record_key r ≠ K → in_log rs) →
  ∀ i, (0 < i)%nat → in_log (records_of rs (take i (commit_commands n r m compacted))).
Proof.
  intros Hr Hrs Hok HK Hq Hold i Hi. unfold commit_commands.
  assert (in_log (rs ++ [enc r])) as Hfirst.
  { apply in_log_append; try done. intros Heq. rewrite Heq, lookup_insert_eq in HK. by simplify_eq. }
  destruct i as [|i]; [lia|]. simpl. destruct compacted; [|by rewrite take_nil].
  destruct i as [|i]; [done|]. simpl. rewrite take_nil. simpl. by eapply in_log_entries.
Qed.

Record session_step (lb : label) (s s' : system (J := J)) rs cs cs1 : Prop := SessionStep {
  session_inv : sys_inv s' rs (cs ++ cs1);
  session_answers : answers_kept (journal (sys_ledger s)) (journal (sys_ledger s'));
  session_remembered b :
    (b ≤ length cs)%nat → (∀ r, granted lb = Some r → record_key r = K → Q r) →
    remembered s rs cs b →
    remembered s' rs (cs ++ cs1) b ∨ ∃ r, (r < b)%nat ∧ doomed (journal (sys_ledger s')) r;
  session_calls c :
    c ∈ sys_calls s' → c ∈ sys_calls s ∨
    (granted lb = Some (call_record c) ∧
     (record_key (call_record c) = K → Q (call_record c) → tracked s' rs (cs ++ cs1) (call_append c)))
}.

Lemma commit_commands_valid n r m compacted :
  record_valid r → entries_ok (<[record_key r := r]> m) →
  Forall command_valid (commit_commands n r m compacted).
Proof.
  intros Hr Hok. constructor; [by exists r|]. destruct compacted; [|constructor].
  constructor; [|constructor]. exists (btree_values (<[record_key r := r]> m)).
  split; [by apply values_valid|done].
Qed.

(** A granted operation. *)
Lemma grant_session lb s rs cs record l' c :
  sys_inv s rs cs → record_valid record →
  Z.of_nat (size (<[record_key record := record]> (entries (sys_ledger s)))) ≤ MAXIMUM_ASSIGNMENTS →
  commit record (entries (sys_ledger s) !! record_key record) (sys_ledger s) = (l', Ok c) →
  granted lb = Some (call_record c) →
  call_record c = record ∧ ∃ cs1, session_step lb s (MkSystem l' (sys_calls s ++ [c])) rs cs cs1.
Proof.
  intros [Hinv Hrs Hcs Hcalls] Hv Hsize Hrun Hgr.
  destruct (commit_grants _ _ _ _ _ _ _ Hinv Hv Hsize Hrun)
    as (c' & comp & [= <-] & Hrec & Hprev & Happ & Hent & Hinv' & Hw).
  split; [done|]. rewrite Hrec in Hgr.
  set (cmds := commit_commands (length cs) record (entries (sys_ledger s)) comp) in *.
  assert (0 < length cmds)%nat as Hpos by (unfold cmds, commit_commands; simpl; lia).
  assert (entries_ok (<[record_key record := record]> (entries (sys_ledger s)))) as Hok
    by (rewrite <- Hent; apply Hinv').
  assert (answers_kept (journal (sys_ledger s)) (journal l')) as Hkept by (intros i x; by rewrite Hw).
  pose proof (ledger_records_of_valid rs cs Hrs Hcs) as Hrs'.
  exists cmds. split; [|done| |].
  - split; [done|done| |]; simpl.
    + apply Forall_app. split; [done|]. by apply commit_commands_valid.
    + rewrite length_app. apply Forall_app. split.
      * eapply Forall_impl; [exact Hcalls|]. intros x. apply ledger_call_ok_mono. lia.
      * apply Forall_singleton. split; [lia|]. rewrite Hprev, Hrec. intros p Hp.
        by apply (proj1 (inv_entries _ _ _ Hinv)).
  - intros b Hb Hlb [(r0 & Hmem & Hq) Hlog Hcl]. left.
    assert (∃ r1, (<[record_key record := record]> (entries (sys_ledger s))) !! K = Some r1 ∧ Q r1)
      as (r1 & Hr1 & Hq1).
    { destruct (decide (record_key record = K)) as [Heq|Hne].
      - exists record. rewrite Heq, lookup_insert_eq. split; [done|]. by apply Hlb.
      - exists r0. by rewrite lookup_insert_ne. }
    split; simpl.
    + exists r1. simpl. by rewrite Hent.
    + apply ledger_log_extend; [done|]. intros n [Hn _].
      eapply commit_keeps; [done|done|exact Hok|exact Hr1|done| |done]. intros _.
      specialize (Hlog (length cs)). rewrite firstn_all in Hlog. apply Hlog. lia.
    + apply Forall_app. split; [done|]. apply Forall_singleton. rewrite Hrec, Hprev. intros Heq. right.
      rewrite Heq. eauto.
  - intros x [Hx|Hx]%elem_of_app; [by left|right]. apply list_elem_of_singleton in Hx as ->.
    rewrite Hrec. split; [done|]. intros Heq Hq. rewrite Happ. split; [rewrite length_app; lia|]. right.
    split; simpl.
    + exists record. simpl. rewrite Hent, Heq. by rewrite lookup_insert_eq.
    + apply ledger_log_extend; [intros n Hn; lia|]. intros n [Hn _].
      eapply commit_keeps; [done|done|exact Hok| |exact Hq| |done]; [by rewrite Heq, lookup_insert_eq|done].
    + apply Forall_app. split.
      * eapply Forall_impl; [exact Hcalls|]. intros y [Hy _] _. left. lia.
      * apply Forall_singleton. intros _. left. lia.
Qed.

(** A step that leaves the ledger's entries and log alone. *)
Lemma idle_session lb s rs cs :
  sys_inv s rs cs → session_step lb s (MkSystem (sys_ledger s) (sys_calls s)) rs cs [].
Proof.
  intros Hinv. split; rewrite ?app_nil_r.
  - by destruct s.
  - by intros i r.
  - intros b _ _ Hrem. left. by destruct s.
  - by left.
Qed.

Lemma ledger_write_session s rs cs j :
  sys_inv s rs cs → log_writes (journal (sys_ledger s)) j →
  session_step Wrote s (MkSystem (with_journal j (sys_ledger s)) (sys_calls s)) rs cs [].
Proof.
  intros [[Hh Hok] Hrs Hcs Hcalls] Hwr. split; rewrite ?app_nil_r.
  - split; [|done|done|done]. split; [by eapply log_writes_holds|done].
  - intros i r. by eapply log_writes_wait.
  - intros b _ _ [Hmem Hlog Hcl]. left. by split.
  - by left.
Qed.

Lemma reconcile_session s rs cs l r :
  sys_inv s rs cs → reconcile_after_recovery (sys_ledger s) = (l, r) →
  ∃ cs1, session_step Reconciled s (MkSystem l (sys_calls s)) rs cs cs1.
Proof.
  intros [Hinv Hrs Hcs Hcalls] Hrun.
  destruct (reconcile_spec _ _ _ _ _ Hinv Hrun) as (Hent & cs1 & Hinv' & Hcmds & Hw & Hsame & _).
  exists cs1. split.
  - split; [done|done| |].
    + apply Forall_app. split; [done|]. destruct Hcmds as [-> | ->]; [constructor|].
      apply Forall_singleton. exists (btree_values (entries l)). split; [|done].
      apply values_valid, Hinv'.
    + eapply Forall_impl; [exact Hcalls|]. intros x. apply ledger_call_ok_mono. rewrite length_app. lia.
  - intros i x. by rewrite Hw.
  - intros b Hb _ [(r0 & Hmem & Hq) Hlog Hcl]. left.
    assert (entries l !! K = Some (reconciled r0)) as Hnew by (by rewrite Hent, lookup_fmap, Hmem).
    split; simpl; [by exists (reconciled r0); auto| |done].
    apply ledger_log_extend; [done|]. intros n Hn. destruct Hcmds as [-> | ->]; [simpl in Hn; lia|].
    destruct n as [|n]; [lia|]. simpl. rewrite take_nil. simpl.
    eapply in_log_entries; [apply Hinv'|exact Hnew|auto].
  - by left.
Qed.

Lemma ledger_finish_session s rs cs before c after l r :
  sys_inv s rs cs → sys_calls s = before ++ c :: after → finish c (sys_ledger s) = Some (l, r) →
  session_step (Finished (call_record c) r) s (MkSystem l (before ++ after)) rs cs [] ∧
  (r = Ok tt → log_wait (call_append c) (journal (sys_ledger s)) = Some (Ok tt) ∧ l = sys_ledger s).
Proof.
  intros [Hinv Hrs Hcs Hcalls] Hsplit Hfin.
  assert (call_ok (length cs) c) as [Hlt Hprev].
  { rewrite Forall_forall in Hcalls. apply Hcalls. rewrite Hsplit. set_solver. }
  assert (∀ (P : call → Prop), Forall P (sys_calls s) → Forall P (before ++ after)) as Hdrop.
  { intros P HP. rewrite Hsplit in HP. apply Forall_app in HP as [? [_ ?]%Forall_cons]. by apply Forall_app. }
  assert (∀ x, x ∈ before ++ after → x ∈ sys_calls s) as Hsub by (intros x; rewrite Hsplit; set_solver).
  unfold finish in Hfin.
  destruct (log_wait (call_append c) _) as [[[]|error]|] eqn:Hw; [| |done].
  - assert (l = sys_ledger s) as -> by (repeat case_match; by simplify_eq).
    split; [|done]. split; rewrite ?app_nil_r.
    + split; [done|done|done|]. by apply Hdrop.
    + by intros i x.
    + intros b _ _ [Hmem Hlog Hcl]. left. split; [done|done|]. by apply Hdrop.
    + intros x Hx. left. by apply Hsub.
  - injection Hfin as <- <-. split; [|done].
    assert (journal (rollback (call_record c) (call_previous c) (sys_ledger s)) = journal (sys_ledger s)) as Hj
      by (unfold rollback; by case_bool_decide).
    split; rewrite ?app_nil_r.
    + split; [|done|done|by apply Hdrop]. split; simpl.
      * rewrite Hj. apply Hinv.
      * apply entries_ok_rollback; [apply Hinv|done].
    + intros i x. simpl. by rewrite Hj.
    + intros b _ _ [(r0 & Hmem & Hq) Hlog Hcl].
      rewrite Forall_forall in Hcl. pose proof (Hcl c) as Hc.
      destruct (decide (record_key (call_record c) = K)) as [Heq|Hne].
      * destruct Hc as [Hlow|(p & Hp & Hqp)]; [rewrite Hsplit; set_solver|done| |].
        -- right. exists (call_append c). split; [done|]. simpl. rewrite Hj. by exists (call_append c), error.
        -- left. split; [|done|by apply Hdrop, Forall_forall]. unfold rollback, in_memory. simpl.
           rewrite Hp. case_bool_decide; simpl; [|eauto]. rewrite Heq, lookup_insert_eq. eauto.
      * left. split; [|done|by apply Hdrop, Forall_forall]. exists r0. split; [|done]. simpl.
        unfold rollback. case_bool_decide; simpl; [|done].
        destruct (call_previous c); [by rewrite lookup_insert_ne|by rewrite lookup_delete_ne].
    + intros x Hx. left. by apply Hsub.
Qed.

Lemma ledger_session_tracked lb s s' rs cs cs1 r :
  session_step lb s s' rs cs cs1 → sys_inv s rs cs →
  (in_memory s → ∀ x, granted lb = Some x → record_key x = K → Q x) →
  tracked s rs cs r → tracked s' rs (cs ++ cs1) r.
Proof.
  intros Hs Hinv Hlb [Hr Hcase]. split; [rewrite length_app; lia|].
  destruct Hcase as [Hd|Hrem].
  - left. eapply doomed_mono; [apply Hs|done].
  - destruct (session_remembered _ _ _ _ _ _ Hs (S r)) as [?|(r' & Hr' & (r0 & error & Hle & Hr0))];
      [lia|apply Hlb, Hrem|done|by right|]. left. exists r0, error. split; [lia|done].
Qed.

Lemma ledger_session_safe lb s s' rs cs cs1 b :
  session_step lb s s' rs cs cs1 → (b ≤ length cs)%nat →
  (in_memory s → ∀ x, granted lb = Some x → record_key x = K → Q x) →
  safe s rs cs b → safe s' rs (cs ++ cs1) b.
Proof.
  intros Hs Hb Hlb [Hrem Hack].
  assert (∀ r, b = S r → log_wait r (journal (sys_ledger s')) = Some (Ok tt)) as Hack'.
  { intros r Hr. apply (session_answers _ _ _ _ _ _ Hs). by apply Hack. }
  split; [|done].
  destruct (session_remembered _ _ _ _ _ _ Hs b Hb (Hlb (rem_memory _ _ _ _ Hrem)) Hrem)
    as [|(r & Hr & (r0 & error & Hle & Hr0))]; [done|].
  destruct b as [|b']; [lia|]. exfalso.
  destruct (session_inv _ _ _ _ _ _ Hs) as [[Hh _] _ _ _].
  apply (doomed_not_ok rs _ _ b' Hh); [|by apply Hack']. exists r0, error. split; [lia|done].
Qed.

Lemma ledger_safe_bound s rs cs b : sys_inv s rs cs → safe s rs cs b → (b ≤ length cs)%nat.
Proof.
  intros [[Hh _] _ _ _] [_ Hack]. destruct b as [|r]; [lia|].
  specialize (Hack r eq_refl). pose proof (log_wait_submitted _ _ _ _ _ Hh Hack). lia.
Qed.

Lemma ledger_restart_safe path s rs cs records j0 l receipt :
  sys_inv s rs cs →
  log_reads path MAXIMUM_WAL_BYTES MAXIMUM_RECOVERY_RECORDS (journal (sys_ledger s)) (Ok records) →
  log_holds records [] j0 → open (Ok records) j0 = Ok (l, receipt) →
  ∃ cs', sys_inv (MkSystem l []) records cs' ∧
    ∀ b, safe s rs cs b → safe (MkSystem l []) records cs' 0.
Proof.
  intros Hinv Hreads Hh0 Hopen. pose proof Hinv as [[Hh Hok] Hrs Hcs _].
  destruct (log_recovery _ _ _ _ _ _ _ Hh Hreads) as (n & Hn & Hacked & Hrec).
  symmetry in Hrec. apply bounded_Ok in Hrec.
  destruct (ledger_records_of_valid rs (take n cs) Hrs (Forall_take _ _ _ Hcs)) as (D & HD & HrD).
  rewrite <- Hrec in HrD. subst records. rewrite HrD in Hh0, Hopen |- *.
  destruct (ledger_open_spec D j0 l receipt HD Hh0 Hopen) as (Hent & Hl & _).
  eexists. split.
  - split; [exact Hl|by exists D| |constructor].
    apply Forall_singleton. exists (btree_values (entries l)). split; [|done]. apply values_valid, Hl.
  - intros b Hsafe. pose proof (ledger_safe_bound _ _ _ _ Hinv Hsafe) as Hb.
    destruct Hsafe as [[_ Hlog _] Hack].
    destruct (Hlog n) as (D' & r & HD' & Hl' & Hlat & Hq).
    { split; [|done]. destruct b as [|r]; [lia|]. specialize (Hacked r (Hack r eq_refl)). lia. }
    rewrite HrD in Hl'. apply lines_inj in Hl' as <-; [|done..].
    split; [|done]. rewrite <- Hent in Hlat. split; [by exists r| |constructor].
    intros [|i] Hi; [exists D, r; by rewrite <- Hent|]. simpl. rewrite take_nil. simpl.
    eapply in_log_entries; [apply Hl|done|done].
Qed.

(** *** Along a trace *)

Section trace.
Context (path : string) (ok : label → Prop).
Hypothesis Q_kept : ∀ lb cur r,
  ok lb → granted lb = Some r → record_key r = K → Q cur → grant_rule (Some cur) lb → Q r.

(** What one step does to the session: it stays in it, or starts another one. *)
Lemma step_cases s lb s' rs cs :
  sys_inv s rs cs → step path s lb s' →
  (∃ cs1, session_step lb s s' rs cs cs1 ∧
     (∀ key, label_key lb = Some key → grant_rule (entries (sys_ledger s) !! key) lb) ∧
     (∀ rec, lb = Finished rec (Ok tt) → ∃ c, c ∈ sys_calls s ∧ call_record c = rec ∧
        log_wait (call_append c) (journal (sys_ledger s)) = Some (Ok tt))) ∨
  (lb = Restarted ∧ sys_calls s' = [] ∧ ∃ rs' cs', sys_inv s' rs' cs' ∧
     ∀ b, safe s rs cs b → safe s' rs' cs' 0).
Proof.
  intros Hinv Hstep. pose proof (sys_ledger_inv _ _ _ Hinv) as Hl.
  destruct Hstep as [s key req to snap l c Hrun|s key req to snap l error Hrun|s key e to snap l c Hrun
    |s key e to snap l error Hrun|s j Hwr|s before c after l r Hsplit Hfin|s l r Hrun
    |s records j0 l receipt Hreads Hh0 Hopen].
  - left. destruct (begin_operation_cases _ _ _ _ _ _ _ (inv_entries _ _ _ Hl) Hrun)
      as [(? & ? & _)|(e & Hmay & Hreq & Hsize & Hcommit)]; [done|].
    destruct (grant_session (Began key req to snap (Ok (call_record c))) s rs cs
                (MkAssignment ASSIGNMENT_SCHEMA_VERSION key e to snap) l c) as (Hrec & cs1 & Hs); try done.
    exists cs1. split_and!; [done| |done]. simpl. rewrite Hrec. by intros ? [= <-].
  - left. destruct (begin_operation_cases _ _ _ _ _ _ _ (inv_entries _ _ _ Hl) Hrun)
      as [(? & _ & ->)|(e & Hmay & _ & Hsize & Hcommit)].
    { exists []. split_and!; [by apply idle_session|done|done]. }
    set (record := MkAssignment _ _ _ _ _) in Hcommit, Hsize.
    assert (record_valid record) as Hv by done.
    by destruct (commit_grants _ _ _ record _ _ _ Hl Hv Hsize Hcommit) as (? & ? & ? & _).
  - left. destruct (transition_cases _ _ _ _ _ _ _ (inv_entries _ _ _ Hl) Hrun)
      as [(? & ? & _)|(record & Hv & Hkey & He & Hto & Hmay & _ & Hsize & Hcommit)]; [done|]. subst key.
    destruct (grant_session (Moved (record_key record) e to snap (Ok (call_record c))) s rs cs record l c)
      as (Hrec & cs1 & Hs); try done.
    exists cs1. split_and!; [done| |done]. simpl. rewrite Hrec. by intros ? [= <-].
  - left. destruct (transition_cases _ _ _ _ _ _ _ (inv_entries _ _ _ Hl) Hrun)
      as [(? & _ & ->)|(record & Hv & Hkey & _ & _ & Hmay & _ & Hsize & Hcommit)].
    { exists []. split_and!; [by apply idle_session|done|done]. }
    subst key. by destruct (commit_grants _ _ _ _ _ _ _ Hl Hv Hsize Hcommit) as (? & ? & ? & _).
  - left. exists []. split_and!; [by apply ledger_write_session|done|done].
  - left. destruct (ledger_finish_session s rs cs before c after l r Hinv Hsplit Hfin) as [Hs Hok].
    exists []. split_and!; [done|done|]. intros rec [= <- ->]. exists c.
    split; [rewrite Hsplit; set_solver|]. split; [done|]. by apply Hok.
  - left. destruct (reconcile_session s rs cs l r Hinv Hrun) as (cs1 & Hs). exists cs1. by split_and!.
  - right. split; [done|]. split; [done|].
    destruct (ledger_restart_safe path s rs cs records j0 l receipt Hinv Hreads Hh0 Hopen) as (cs' & Hinv' & Hsafe).
    by exists records, cs'.
Qed.

Definition undecided (s : system (J := J)) : Prop :=
  ∃ rs cs, sys_inv s rs cs ∧
    ∀ c, c ∈ sys_calls s → record_key (call_record c) = K → Q (call_record c) → tracked s rs cs (call_append c).

Definition settled (s : system (J := J)) : Prop :=
  ∃ rs cs b, sys_inv s rs cs ∧ safe s rs cs b.

Lemma grant_keeps lb s :
  ok lb →
  (∀ key, label_key lb = Some key → grant_rule (entries (sys_ledger s) !! key) lb) →
  in_memory s → ∀ r, granted lb = Some r → record_key r = K → Q r.
Proof.
  intros Hok Hrule (cur & Hcur & Hq) r Hr Hk.
  assert (label_key lb = Some K) as Hlk.
  { destruct lb as [key ? ? ? [x|]|key ? ? ? [x|]| | | |]; simplify_eq/=; f_equal; symmetry;
      by apply (Hrule _ eq_refl). }
  apply Hrule in Hlk. rewrite Hcur in Hlk. by eapply Q_kept.
Qed.

Lemma settled_step s lb s' : settled s → ok lb → step path s lb s' → settled s'.
Proof.
  intros (rs & cs & b & Hinv & Hsafe) Hok Hstep.
  destruct (step_cases _ _ _ _ _ Hinv Hstep)
    as [(cs1 & Hs & Hmay & _)|(_ & _ & rs' & cs' & Hinv' & Hkeep)].
  - exists rs, (cs ++ cs1), b. split; [apply Hs|]. eapply ledger_session_safe; [done|by eapply ledger_safe_bound| |done].
    by apply grant_keeps.
  - exists rs', cs', 0%nat. split; [done|]. by eapply Hkeep.
Qed.

Lemma ledger_undecided_step s lb s' :
  undecided s → ok lb → step path s lb s' →
  undecided s' ∧ (∀ rec, lb = Finished rec (Ok tt) → record_key rec = K → Q rec → settled s').
Proof.
  intros (rs & cs & Hinv & Hcalls) Hok Hstep.
  destruct (step_cases _ _ _ _ _ Hinv Hstep)
    as [(cs1 & Hs & Hmay & Hfin)|(-> & Hnil & rs' & cs' & Hinv' & Hkeep)].
  - pose proof (grant_keeps lb s Hok Hmay) as Hlb. split.
    + exists rs, (cs ++ cs1). split; [apply Hs|]. intros c Hc Hk Hq.
      destruct (session_calls _ _ _ _ _ _ Hs c Hc) as [Hold|[Hgr Htr]]; [|auto].
      eapply ledger_session_tracked; eauto.
    + intros rec Hrec Hk Hq. destruct (Hfin rec Hrec) as (c & Hc & <- & Hw).
      destruct (Hcalls c Hc Hk Hq) as [Hlt [Hd|Hrem]].
      { destruct Hinv as [[Hh _] _ _ _]. by destruct (doomed_not_ok _ _ _ _ Hh Hd). }
      exists rs, (cs ++ cs1), (S (call_append c)). split; [apply Hs|].
      eapply ledger_session_safe; [done|lia|done|]. split; [done|]. by intros r [= <-].
  - split; [|done]. exists rs', cs'. split; [done|]. rewrite Hnil. intros c Hc. set_solver.
Qed.

Lemma settled_trace s tr s' :
  settled s → steps path s tr s' → ∀ n lb,
  (∀ (i : nat) lb, tr !! i = Some lb → (i < n)%nat → ok lb) →
  tr !! n = Some lb → label_key lb = Some K →
  ∃ cur, Q cur ∧ grant_rule (Some cur) lb.
Proof.
  intros Hs Hsteps. revert Hs. induction Hsteps as [|s1 s2 s3 l tr Hstep _ IH]; intros Hs n lb Hok Hn Hk; [done|].
  destruct n as [|n]; simpl in Hn.
  - injection Hn as ->. destruct Hs as (rs & cs & b & Hinv & [[(cur & Hcur & Hq) _ _] _]).
    destruct (step_cases _ _ _ _ _ Hinv Hstep) as [(cs1 & _ & Hmay & _)|(-> & _)]; [|done].
    exists cur. split; [done|]. rewrite <- Hcur. by apply Hmay.
  - eapply (IH (settled_step _ _ _ Hs (Hok 0%nat l eq_refl ltac:(lia)) Hstep) n); [|done|done].
    intros i lb' Hi Hlt. apply (Hok (S i)); [done|lia].
Qed.

Lemma ledger_undecided_trace s tr s' :
  undecided s → steps path s tr s' → ∀ (m n : nat) rec lb,
  (∀ (i : nat) lb, tr !! i = Some lb → (i < n)%nat → ok lb) →
  tr !! m = Some (Finished rec (Ok tt)) → record_key rec = K → Q rec → (m < n)%nat →
  tr !! n = Some lb → label_key lb = Some K →
  ∃ cur, Q cur ∧ grant_rule (Some cur) lb.
Proof.
  intros Hs Hsteps. revert Hs.
  induction Hsteps as [|s1 s2 s3 l tr Hstep Hsteps IH]; intros Hs m n rec lb Hok Hm Hrec Hq Hlt Hn Hk; [done|].
  destruct (ledger_undecided_step _ _ _ Hs (Hok 0%nat l eq_refl ltac:(lia)) Hstep) as [Hs2 Hdone].
  destruct n as [|n]; [lia|]. simpl in Hn.
  assert (∀ (i : nat) lb, tr !! i = Some lb → (i < n)%nat → ok lb) as Hok'
    by (intros i lb' Hi Hlt'; apply (Hok (S i)); [done|lia]).
  destruct m as [|m]; simpl in Hm.
  - simplify_eq. eapply settled_trace; eauto.
  - eapply IH; eauto. lia.
Qed.

Lemma settled_steps s tr s' : settled s → steps path s tr s' → Forall ok tr → settled s'.
Proof.
  intros Hs Hsteps. revert Hs. induction Hsteps as [|s1 s2 s3 l tr Hstep _ IH]; intros Hs Htr; [done|].
  apply Forall_cons in Htr as [Hl Htr]. apply IH; [|done]. by eapply settled_step.
Qed.

Lemma acknowledged_settled s tr s' (m : nat) rec :
  undecided s → steps path s tr s' → Forall ok tr →
  tr !! m = Some (Finished rec (Ok tt)) → record_key rec = K → Q rec → settled s'.
Proof.
  intros Hs Hsteps. revert m Hs.
  induction Hsteps as [|s1 s2 s3 l tr Hstep Hsteps IH]; intros m Hs Htr Hm Hk Hq; [done|].
  apply Forall_cons in Htr as [Hl Htr]. destruct (ledger_undecided_step _ _ _ Hs Hl Hstep) as [Hs2 Hdone].
  destruct m as [|m]; simpl in Hm; [|by eapply IH].
  simplify_eq. eapply settled_steps; eauto.
Qed.
End trace.

Lemma ledger_started_undecided s : started s → undecided s.
Proof.
  intros (j0 & receipt & Hh & Hopen & Hcalls).
  change [] with (lines []) in Hh at 1. change (Ok []) with (Ok (E := SandboxError) (lines [])) in Hopen.
  destruct (ledger_open_spec [] j0 _ receipt (Forall_nil_2 _) Hh Hopen) as (_ & Hl & _).
  eexists _, _. split; [|rewrite Hcalls; intros c Hc; by apply not_elem_of_nil in Hc].
  split; [exact Hl|exists []; split; [constructor|done]| |rewrite Hcalls; constructor].
  apply Forall_singleton. exists (btree_values (entries (sys_ledger s))). split; [|done].
  apply values_valid, Hl.
Qed.
End tracking.

(** The two facts that the claims follow: the epoch of a key never falls below
    an acknowledged one, and a transferable assignment stays as it is until an
    operation with a larger epoch is granted. *)
Definition at_least (e : AssignmentEpoch) (r : AssignmentRecord) : Prop := epoch_get e ≤ epoch_get (epoch r).
Definition no_newer (key : SandboxKey) (e : AssignmentEpoch) (lb : label) : Prop :=
  ∀ r, granted lb = Some r → record_key r = key → epoch_get (epoch r) ≤ epoch_get e.

Lemma at_least_reconciled e r : at_least e r → at_least e (reconciled r).
Proof. unfold at_least. by destruct (reconciled_spec r) as (_ & -> & _). Qed.

Lemma at_least_kept key e lb cur r :
  True → granted lb = Some r → record_key r = key → at_least e cur → grant_rule (Some cur) lb → at_least e r.
Proof.
  unfold at_least. intros _ Hg _ Hcur Hrule.
  destruct lb as [? ? ? ? [x|]|? ? ? ? [x|]| | | |]; simplify_eq/=.
  - destruct Hrule as (_ & _ & _ & _ & _ & Hlt & _). lia.
  - by destruct Hrule as (_ & _ & _ & cur' & [= <-] & -> & _).
Qed.

(** C24: An epoch is never handed out twice.  If an operation that wrote an
    assignment record of a sandbox was acknowledged, every assignment of the
    same sandbox granted later has a strictly larger epoch, whatever
    other operations are in flight, whichever of them fail, and however often
    the daemon crashes and recovers from its journal in between. *)
Theorem epochs_strictly_increase path s0 tr s (m n : nat) rec requested to snapshot r :
  started s0 → steps path s0 tr s →
  tr !! m = Some (Finished rec (Ok tt)) → (m < n)%nat →
  tr !! n = Some (Began (record_key rec) requested to snapshot (Ok r)) →
  epoch_get (epoch rec) < epoch_get (epoch r).
Proof.
  intros Hs0 Hsteps Hm Hlt Hn.
  destruct (ledger_undecided_trace (record_key rec) (at_least (epoch rec)) (at_least_reconciled _) path (λ _, True)
    (at_least_kept _ _) s0 tr s (ledger_started_undecided _ _ s0 Hs0) Hsteps m n rec _ (λ _ _ _ _, I) Hm eq_refl
    (Z.le_refl _) Hlt Hn eq_refl) as (cur & Hcur & (_ & _ & _ & _ & _ & Hless & _)).
  unfold at_least in Hcur. lia.
Qed.

(** A stale epoch is fenced off.  Once an operation at some epoch of a
    sandbox was acknowledged, [require_current] refuses every smaller epoch for
    that sandbox, in every later state, also after crashes and restarts. *)
Theorem stale_epoch_refused path s0 tr s (m : nat) rec e :
  started s0 → steps path s0 tr s →
  tr !! m = Some (Finished rec (Ok tt)) → epoch_get e < epoch_get (epoch rec) →
  require_current (record_key rec) (Some e) (sys_ledger s) = Err (Runtime "assignment epoch is stale").
Proof.
  intros Hs0 Hsteps Hm Hlt.
  destruct (acknowledged_settled (record_key rec) (at_least (epoch rec)) (at_least_reconciled _) path (λ _, True)
    (at_least_kept _ _) s0 tr s m rec (ledger_started_undecided _ _ s0 Hs0) Hsteps)
    as (rs & cs & b & _ & [(cur & Hcur & Hle) _ _] & _); try done.
  { by apply Forall_true. }
  { by unfold at_least. }
  unfold require_current. rewrite Hcur. simpl. unfold at_least in Hle.
  rewrite (bool_decide_false (e = epoch cur)); [done|]. intros ->. lia.
Qed.

(** A fenced sandbox resumes from its fenced snapshot only.  Once a
    transferable record (the source of a migration, fenced at snapshot [snap])
    was acknowledged, the next assignment granted to the sandbox is a restore of exactly
    that snapshot, at a larger epoch, also after crashes and restarts. *)
Theorem transferable_only_restored path s0 tr s (m n : nat) rec requested to snapshot r :
  started s0 → steps path s0 tr s →
  state rec = Transferable →
  tr !! m = Some (Finished rec (Ok tt)) → (m < n)%nat →
  tr !! n = Some (Began (record_key rec) requested to snapshot (Ok r)) →
  (∀ (i : nat) lb, tr !! i = Some lb → (i < n)%nat → no_newer (record_key rec) (epoch rec) lb) →
  to = Restoring ∧ snapshot = snapshot_id rec ∧ epoch_get (epoch rec) < epoch_get (epoch r).
Proof.
  intros Hs0 Hsteps Hst Hm Hlt Hn Hno.
  destruct (ledger_undecided_trace (record_key rec) (λ x, x = rec)) with (path := path) (s := s0) (tr := tr) (s' := s)
    (ok := no_newer (record_key rec) (epoch rec)) (m := m) (n := n) (rec := rec)
    (lb := Began (record_key rec) requested to snapshot (Ok r))
    as (cur & -> & (_ & <- & <- & _ & _ & Hless & Hres)); try done.
  - intros x ->. apply reconciled_spec. by rewrite Hst.
  - intros lb cur x Hok Hg Hk -> Hrule. specialize (Hok x Hg Hk).
    destruct lb as [? ? ? ? [y|]|? ? ? ? [y|]| | | |]; simplify_eq/=.
    + destruct Hrule as (_ & _ & _ & _ & _ & Hless & _). lia.
    + destruct Hrule as (_ & _ & _ & cur' & [= <-] & _ & Hvt & _). by rewrite Hst in Hvt.
  - by apply ledger_started_undecided.
  - destruct (Hres Hst) as [-> ->]. done.
Qed.

(** Recovery leaves nothing running.  After [reconcile_after_recovery] no
    sandbox has a current assignment, whichever epoch is asked for; every
    assignment that was live is failed, with its epoch and snapshot kept, and
    every other record, a transferable one included, is unchanged. *)
Theorem recovery_fails_live_assignments l key :
  let l' := (reconcile_after_recovery l).1 in
  (∀ requested, ∃ error, require_current key requested l' = Err error) ∧
  match entries l !! key with
  | None => entries l' !! key = None
  | Some r =>
      ∃ r', entries l' !! key = Some r' ∧ epoch r' = epoch r ∧ snapshot_id r' = snapshot_id r ∧
        state r' = (if is_live (state r) then Failed else state r) ∧ (is_live (state r) = false → r' = r)
  end.
Proof.
  intros l'. assert (entries l' = reconciled <$> entries l) as Hent.
  { unfold l', reconcile_after_recovery, mbind, M_bind, M_get, M_put, M_modify. simpl.
    destruct (existsb _ _); simpl; [|done]. unfold replace_all, mbind, M_bind, M_get, M_lift, on_journal.
    destruct (encode_entries _); [|done]. simpl. by destruct (log_enqueue_replace _ _) as [? [|]]. }
  rewrite Hent, lookup_fmap. split.
  - intros requested. unfold require_current. rewrite Hent, lookup_fmap.
    destruct (entries l !! key) as [r|]; simpl; [|by eexists].
    destruct (reject_if _ (Runtime "assignment epoch is stale")) as [[]|]; simpl; [|by eexists].
    destruct (reconciled_spec r) as (_ & _ & Hlive & _).
    rewrite (bool_decide_false (state (reconciled r) = Active)) by (intros Ha; by rewrite Ha in Hlive).
    by eexists.
  - destruct (entries l !! key) as [r|]; simpl; [|done]. exists (reconciled r). unfold reconciled.
    by destruct (is_live (state r)).
Qed.
End proofs.

(** ** A daemon on the concrete encoder *)

Definition state_of_debug (s : string) : option AssignmentState :=
  find (λ st, bool_decide (state_debug st = s))
    [Provisioning; Restoring; Active; Fencing; Transferable; Stopped; Failed].

#[local] Instance w_codec : LedgerCodec := {
  to_vec r := Ok (join [bytes (as_str (tenant_id (scope (record_key r))));
                        bytes (as_str (workspace_id (scope (record_key r))));
                        bytes (as_str (sandbox_id (record_key r)));
                        to_hex 16 (epoch_get (epoch r));
                        bytes (state_debug (state r));
                        match snapshot_id r with Some s => bytes (as_str s) | None => [] end]);
  from_slice l :=
    match fields l with
    | [t; w; i; e; st; sn; _] =>
        match parse (text t), parse (text w), parse (text i), epoch_new (of_hex e), state_of_debug (text st) with
        | Ok t', Ok w', Ok i', Ok e', Some st' =>
            Ok (MkAssignment ASSIGNMENT_SCHEMA_VERSION (Key (Scope t' w') i') e' st'
                  match parse (text sn) with Ok sn' => Some sn' | Err _ => None end)
        | _, _, _, _, _ => Err "identifier"%string
        end
    | _ => Err "fields"%string
    end
}.

#[local] Instance w_codec_laws : LedgerCodecLaws.
Proof.
  split. intros [v [[t w] i] e st sn] Hv. unfold record_valid in Hv. cbn in Hv. subst v.
  eexists. split; [reflexivity|]. cbn [scope record_key tenant_id workspace_id sandbox_id epoch state snapshot_id].
  set (sn' := match sn with Some _ => _ | None => _ end).
  assert (Forall plain [bytes (as_str t); bytes (as_str w); bytes (as_str i); to_hex 16 (epoch_get e);
                        bytes (state_debug st); sn']) as Hplain.
  { repeat (apply Forall_cons; split); try apply identifier_plain; [| | |constructor].
    - apply hex_plain, to_hex_chars.
    - destruct st; split; apply (bool_decide_unpack _); vm_compute; exact I.
    - destruct sn; [apply identifier_plain|]. split; apply not_elem_of_nil. }
  split_and!.
  - unfold from_slice, w_codec. rewrite fields_join by done.
    change (fields [NEWLINE]) with [[NEWLINE]]. cbn [app]. rewrite !text_bytes, !parse_as_str.
    pose proof (epoch_range e) as He. rewrite of_to_hex, epoch_new_get.
    + assert (state_of_debug (state_debug st) = Some st) as -> by (by destruct st).
      do 2 f_equal. unfold sn'. destruct sn as [sn|]; [by rewrite text_bytes, parse_as_str|].
      done.
    + unfold u64_max in He. change (16 ^ Z.of_nat 16) with 18446744073709551616. lia.
  - by apply join_no_newline.
  - unfold join. intros Hnil%(f_equal length). simpl in Hnil. rewrite !length_app in Hnil. simpl in Hnil. lia.
  - unfold join. cbn [fmap list_fmap concat]. rewrite !length_app, length_to_hex. simpl.
    pose proof (identifier_len t) as Ht. pose proof (identifier_len w) as Hw. pose proof (identifier_len i) as Hi.
    assert (Z.of_nat (length (bytes (state_debug st))) ≤ 12) as Hst by (by destruct st).
    assert (Z.of_nat (length sn') ≤ 128) as Hsn.
    { unfold sn'. destruct sn as [sn|]; [|simpl; lia]. pose proof (identifier_len sn) as Hs.
      rewrite len_bytes in Hs. lia. }
    rewrite len_bytes in Ht, Hw, Hi. unfold RECORD_LIMIT. lia.
Qed.

(** A scheduler: one action makes one step of the daemon on its journal. *)
Inductive action : Type :=
| DoBegin (key : SandboxKey) (requested : option AssignmentEpoch) (to : AssignmentState)
    (snapshot : option SnapshotId)
| DoMove (key : SandboxKey) (e : AssignmentEpoch) (to : AssignmentState) (snapshot : option SnapshotId)
| DoWrite (io : io_outcome)
| DoFinish
| DoRestart (D : list AssignmentRecord).

Definition w_journal (rs : list (list ascii)) : DurableJournal := MkJournal (spawn (concat rs)) 0.

Definition act (a : action) (s : system (J := DurableJournal)) : option (label * system (J := DurableJournal)) :=
  match a with
  | DoBegin key requested to snapshot =>
      match begin_operation key requested to snapshot (sys_ledger s) with
      | (l, Ok c) => Some (Began key requested to snapshot (Ok (call_record c)), MkSystem l (sys_calls s ++ [c]))
      | (l, Err error) => Some (Began key requested to snapshot (Err error), MkSystem l (sys_calls s))
      end
  | DoMove key e to snapshot =>
      match transition key e to snapshot (sys_ledger s) with
      | (l, Ok c) => Some (Moved key e to snapshot (Ok (call_record c)), MkSystem l (sys_calls s ++ [c]))
      | (l, Err error) => Some (Moved key e to snapshot (Err error), MkSystem l (sys_calls s))
      end
  | DoWrite io =>
      Some (Wrote, MkSystem (with_journal (write "/wal" 0 io (journal (sys_ledger s))) (sys_ledger s)) (sys_calls s))
  | DoFinish =>
      match sys_calls s with
      | [] => None
      | c :: after =>
          match finish c (sys_ledger s) with
          | Some (l, r) => Some (Finished (call_record c) r, MkSystem l after)
          | None => None
          end
      end
  | DoRestart D =>
      if bool_decide (Forall (λ r, schema_version r = ASSIGNMENT_SCHEMA_VERSION) D)
         && match read_records "/wal" MAXIMUM_WAL_BYTES MAXIMUM_RECOVERY_RECORDS
                    (Some (stable (disk (writer (journal (sys_ledger s)))))) with
            | Ok rs => bool_decide (rs = lines D)
            | Err _ => false
            end then
        match open (Ok (lines D)) (w_journal (lines D)) with
        | Ok (l, _) => Some (Restarted, MkSystem l [])
        | Err _ => None
        end
      else None
  end.

Fixpoint acts (l : list action) (s : system (J := DurableJournal)) : option (list label * system (J := DurableJournal)) :=
  match l with
  | [] => Some ([], s)
  | a :: l' =>
      match act a s with
      | None => None
      | Some (lb, s1) =>
          match acts l' s1 with
          | None => None
          | Some (tr, s2) => Some (lb :: tr, s2)
          end
      end
  end.

Lemma w_ledger_journal_holds D : Forall record_valid D → log_holds (lines D) [] (w_journal (lines D)).
Proof.
  intros HD. change (journal_holds (lines D) [] (w_journal (lines D))).
  split_and!; [by apply ledger_lines_wf|constructor|done|done|]. exists [], []. apply spawn_inv.
Qed.

Lemma stable_crash d : crash d (stable d).
Proof.
  unfold crash. destruct (change d); [done| |by left]. exists 0%nat. by rewrite take_0, app_nil_r.
Qed.

Lemma act_step a s lb s' : act a s = Some (lb, s') → step "/wal" s lb s'.
Proof.
  destruct a as [key requested to snapshot|key e to snapshot|io| |D]; cbn [act]; intros Hact.
  - destruct (begin_operation _ _ _ _ _) as [l [c|error]] eqn:Hrun; simplify_eq; by constructor.
  - destruct (transition _ _ _ _ _) as [l [c|error]] eqn:Hrun; simplify_eq; by constructor.
  - simplify_eq. apply step_write. by exists "/wal", 0%nat, io.
  - destruct (sys_calls s) as [|c after] eqn:Hcalls; [done|].
    destruct (finish c (sys_ledger s)) as [[l r]|] eqn:Hfin; simplify_eq.
    by apply (step_finish "/wal" s [] c after).
  - case_bool_decide as HD; [|done]. destruct (read_records _ _ _ _) as [rs|] eqn:Hread; [|done].
    case_bool_decide as Hrs; [|done]. simpl in Hact. subst rs.
    destruct (open _ _) as [[l receipt]|] eqn:Hopen; simplify_eq.
    eapply step_restart; [|by apply w_ledger_journal_holds|exact Hopen].
    eexists. split; [apply stable_crash|done].
Qed.

Lemma acts_steps l s tr s' : acts l s = Some (tr, s') → steps "/wal" s tr s'.
Proof.
  revert s tr. induction l as [|a l IH]; cbn [acts]; intros s tr Hacts; [simplify_eq; constructor|].
  destruct (act a s) as [[lb s1]|] eqn:Hact; [|done].
  destruct (acts l s1) as [[tr1 s2]|] eqn:Hrest; simplify_eq.
  eapply steps_cons; [by eapply act_step|by apply IH].
Qed.

Definition w_s0 : system :=
  match open (Ok []) (w_journal []) with
  | Ok (l, _) => MkSystem l []
  | Err _ => MkSystem (MkLedger (w_journal []) ∅ 0) []
  end.
Definition w_trace (l : list action) : list label := from_option fst [] (acts l w_s0).
Definition w_end (l : list action) : system := from_option snd w_s0 (acts l w_s0).

Lemma w_started : started w_s0.
Proof.
  exists (w_journal []), 0%nat. split; [apply (w_ledger_journal_holds []); constructor|].
  unfold w_s0. destruct (open (Ok []) (w_journal [])) as [[l r]|] eqn:Hopen.
  - split; [|done]. assert (is_ok (open (Ok []) (w_journal [])) = true) as _ by (by rewrite Hopen).
    assert (match open (Ok []) (w_journal []) with Ok (_, r) => bool_decide (r = 0%nat) | Err _ => false end = true)
      as Hr by (vm_compute; reflexivity).
    rewrite Hopen in Hr. apply bool_decide_eq_true in Hr as ->. done.
  - assert (is_ok (open (Ok []) (w_journal [])) = true) as Hok by (vm_compute; reflexivity).
    by rewrite Hopen in Hok.
Qed.

Lemma w_ledger_steps l : bool_decide (is_Some (acts l w_s0)) = true → steps "/wal" w_s0 (w_trace l) (w_end l).
Proof.
  intros [[tr s] Hacts]%bool_decide_eq_true. unfold w_trace, w_end. rewrite Hacts. by eapply acts_steps.
Qed.

(** A sandbox is created, fenced for migration, the daemon is killed and
    restarted, and the sandbox is restored from its snapshot. *)
Definition w_key : SandboxKey := Key (Scope (id_lit "tenant-a") (id_lit "team-a")) (id_lit "sandbox-1").
Definition w_snapshot : SnapshotId := id_lit "snapshot-1".
Definition w_record (e : AssignmentEpoch) (st : AssignmentState) (sn : option SnapshotId) : AssignmentRecord :=
  MkAssignment ASSIGNMENT_SCHEMA_VERSION w_key e st sn.

Definition w_fenced : AssignmentRecord := w_record (epoch_lit 1) Transferable (Some w_snapshot).
Definition w_restored : AssignmentRecord := w_record (epoch_lit 2) Restoring (Some w_snapshot).
Definition w_migration : list action :=
  [DoBegin w_key None Provisioning None; DoWrite IoOk; DoWrite IoOk; DoFinish;
   DoMove w_key (epoch_lit 1) Active None; DoWrite IoOk; DoFinish;
   DoMove w_key (epoch_lit 1) Fencing (Some w_snapshot); DoWrite IoOk; DoFinish;
   DoMove w_key (epoch_lit 1) Transferable (Some w_snapshot); DoWrite IoOk; DoFinish;
   DoRestart [w_record (epoch_lit 1) Provisioning None; w_record (epoch_lit 1) Active None;
              w_record (epoch_lit 1) Fencing (Some w_snapshot); w_fenced];
   DoBegin w_key None Restoring (Some w_snapshot); DoWrite IoOk; DoWrite IoOk; DoFinish].

Lemma w_migration_steps : steps "/wal" w_s0 (w_trace w_migration) (w_end w_migration).
Proof. apply w_ledger_steps. vm_compute. reflexivity. Qed.

Lemma epochs_strictly_increase_witness :
  w_trace w_migration !! 12%nat = Some (Finished w_fenced (Ok tt)) ∧
  epoch_get (epoch w_fenced) < epoch_get (epoch w_restored).
Proof.
  split; [vm_compute; reflexivity|].
  refine (epochs_strictly_increase "/wal" w_s0 (w_trace w_migration) (w_end w_migration) 12 14 w_fenced
            None Restoring (Some w_snapshot) w_restored w_started w_migration_steps _ _ _);
    [vm_compute; reflexivity|lia|vm_compute; reflexivity].
Defined.

Lemma stale_epoch_refused_witness :
  w_trace w_migration !! 17%nat = Some (Finished w_restored (Ok tt)) ∧
  require_current w_key (Some (epoch_lit 1)) (sys_ledger (w_end w_migration))
    = Err (Runtime "assignment epoch is stale").
Proof.
  split; [vm_compute; reflexivity|].
  refine (stale_epoch_refused "/wal" w_s0 (w_trace w_migration) (w_end w_migration) 17 w_restored
            (epoch_lit 1) w_started w_migration_steps _ _); [vm_compute; reflexivity|simpl; lia].
Defined.

Lemma transferable_only_restored_witness :
  w_trace w_migration !! 12%nat = Some (Finished w_fenced (Ok tt)) ∧
  Restoring = Restoring ∧ Some w_snapshot = snapshot_id w_fenced ∧
  epoch_get (epoch w_fenced) < epoch_get (epoch w_restored).
Proof.
  split; [vm_compute; reflexivity|].
  refine (transferable_only_restored "/wal" w_s0 (w_trace w_migration) (w_end w_migration) 12 14 w_fenced
            None Restoring (Some w_snapshot) w_restored w_started w_migration_steps eq_refl _ _ _ _);
    [vm_compute; reflexivity|lia|vm_compute; reflexivity|].
  intros i lb Hi Hlt.
  assert (Forall (λ lb, match granted lb with Some r => epoch_get (epoch r) <=? 1 | None => true end = true)
            (take 14 (w_trace w_migration))) as Hall by (vm_compute; repeat constructor).
  rewrite Forall_forall in Hall. specialize (Hall lb). intros r Hr _. rewrite Hr in Hall. simpl.
  apply Z.leb_le, Hall. apply list_elem_of_lookup. exists i. by rewrite lookup_take_lt.
Defined.

(** Two transitions of one sandbox are in flight when the journal fails: the
    first completes (and keeps the second's record), then the second rolls back
    to the first's. *)
Definition w_out_of_order : list action :=
  [DoBegin w_key None Provisioning None; DoWrite IoOk; DoWrite IoOk; DoFinish;
   DoMove w_key (epoch_lit 1) Active None; DoMove w_key (epoch_lit 1) Stopped None;
   DoWrite (SyncFailed "no space"); DoWrite IoOk; DoFinish; DoFinish].

(** A rollback can resurrect a record that was itself refused.  There is an
    execution in which two transitions of the same sandbox are in flight while the journal
    fails: both are reported as failed, no operation is left in
    flight, and the in-memory record is the first refused one, so that the
    ledger reports an active assignment that never reached the journal. *)
Theorem rollback_resurrects_refused_record :
  ∃ path s0 tr s (i : nat) rec error,
    started s0 ∧ steps path s0 tr s ∧ sys_calls s = [] ∧
    tr !! i = Some (Finished rec (Err error)) ∧
    require_current (record_key rec) (Some (epoch rec)) (sys_ledger s) = Ok (epoch rec).
Proof.
  eexists "/wal", w_s0, (w_trace w_out_of_order), (w_end w_out_of_order), 8%nat,
    (w_record (epoch_lit 1) Active None), _.
  split; [apply w_started|]. split; [apply w_ledger_steps; vm_compute; reflexivity|].
  split; [vm_compute; reflexivity|]. split; vm_compute; reflexivity.
Qed.
