(* ===== verification/Volume.v ===== *)
(** * Volumes

    Models [crates/sandbox-core/src/volume.rs] and the descriptor types it
    shares with [capability.rs] and [snapshot.rs]: volume definitions, their
    mount destinations, and the descriptors of captured volumes. *)
From S2P Require Import Prelude Identity.

Module Volume.

Definition VOLUME_SPEC_VERSION : Z := 1.
Definition MINIMUM_NAMED_VOLUME_BYTES : Z := 4 * 1024 * 1024.

Inductive VolumePersistenceClass : Type := Ephemeral | Persistent | Artifact | Secret.
Inductive VolumeSnapshotPolicy : Type := Required | BestEffort | Excluded.

#[global] Instance VolumePersistenceClass_eq_dec : EqDecision VolumePersistenceClass.
Proof. solve_decision. Defined.
#[global] Instance VolumeSnapshotPolicy_eq_dec : EqDecision VolumeSnapshotPolicy.
Proof. solve_decision. Defined.

Record VolumeSpec : Type := MkVolume {
  schema_version : Z;
  volume_id : VolumeId;
  destination : string;
  read_only : bool;
  persistence_class : VolumePersistenceClass;
  snapshot_policy : VolumeSnapshotPolicy;
  quota_bytes : Z;
  content_digest : option string
}.

#[global] Instance VolumeSpec_eq_dec : EqDecision VolumeSpec.
Proof. solve_decision. Defined.

Inductive SnapshotPortability : Type :=
| NotPortable | SameWorker | SameBackend | CrossWorkerSameBackend | CrossBackend.

#[global] Instance SnapshotPortability_eq_dec : EqDecision SnapshotPortability.
Proof. solve_decision. Defined.

Definition permits_cross_worker (p : SnapshotPortability) : bool :=
  match p with CrossWorkerSameBackend | CrossBackend => true | _ => false end.

Record ArtifactDescriptor : Type := MkArtifact {
  digest : string;
  size_bytes : Z;
  media_type : string
}.

#[global] Instance ArtifactDescriptor_eq_dec : EqDecision ArtifactDescriptor.
Proof. solve_decision. Defined.

Record VolumeSnapshotDescriptor : Type := MkVolumeSnapshot {
  snapshot_schema_version : Z;
  provider_id : string;
  snapshot_class : VolumePersistenceClass;
  portability : SnapshotPortability;
  object_name : string;
  artifact : ArtifactDescriptor
}.

(** [byte.is_ascii_alphanumeric() || matches!(byte, b'.' | b'_' | b'-')]. *)
Definition object_byte (c : ascii) : bool :=
  is_ascii_alphanumeric c || is_byte "." c || is_byte "_" c || is_byte "-" c.

Definition object_name_rejected (value : string) : bool :=
  bool_decide (value = EmptyString) || (128 <? len value) || negb (all_bytes object_byte value).

Definition invalid_snapshot (error : CoreError) : CoreError :=
  InvalidSnapshot (core_error_to_string error).

Definition validate_descriptor (d : VolumeSnapshotDescriptor) : result CoreError () :=
  reject_if (snapshot_schema_version d =? 0) (InvalidSnapshot "volume snapshot schema version is invalid");;
  reject_if (negb (match snapshot_class d with Ephemeral | Persistent => true | _ => false end))
    (InvalidSnapshot "secret or immutable artifact entered the volume snapshot manifest");;
  reject_if (object_name_rejected (provider_id d) || object_name_rejected (object_name d))
    (InvalidSnapshot "volume snapshot provider or object identity is invalid");;
  map_err invalid_snapshot (validate_digest "volume snapshot" (digest (artifact d)));;
  reject_if ((size_bytes (artifact d) =? 0) || bool_decide (media_type (artifact d) = EmptyString))
    (InvalidSnapshot "volume snapshot object metadata is incomplete").

Definition invalid (message : string) : CoreError := InvalidSpecification message.

(** ** Destinations *)

(** [std::path::Component] on Unix and [Path::components]: empty parts and [.]
    are dropped, except for a [.] that opens a relative path. *)
Inductive Component : Type := RootDir | CurDir | ParentDir | Normal (part : string).

#[global] Instance Component_eq_dec : EqDecision Component.
Proof. solve_decision. Defined.

Definition component (part : string) : option Component :=
  if bool_decide (part = EmptyString) || bool_decide (part = "."%string) then None
  else if bool_decide (part = ".."%string) then Some ParentDir
  else Some (Normal part).

Definition path_components (path : string) : list Component :=
  let parts := split_byte "/" path in
  if starts_with "/" path then RootDir :: omap component parts
  else if bool_decide (head parts = Some "."%string) then CurDir :: omap component parts
  else omap component parts.

Definition RESERVED : list string := ["/proc"; "/sys"; "/dev"].
Definition RUNTIME_MOUNTS : list string := ["/tmp"; "/work"; "/etc/hosts"; "/etc/resolv.conf"].

Definition validate_destination (dest : string) : result CoreError () :=
  reject_if ((4096 <? len dest) || negb (starts_with "/" dest)
             || bool_decide (ascii_of_nat 0 ∈ bytes dest) || contains "//" dest)
    (invalid "volume destination must be a normalized absolute path");;
  reject_if (bool_decide (dest = "/"%string)
             || existsb (λ c, match c with ParentDir | CurDir => true | _ => false end)
                  (path_components dest))
    (invalid "volume destination must be a normalized guest path");;
  reject_if (existsb (λ prefix, bool_decide (dest = prefix) || starts_with (prefix +:+ "/") dest) RESERVED)
    (invalid "volume destination overlaps a protected guest mount");;
  reject_if (bool_decide (dest ∈ RUNTIME_MOUNTS))
    (invalid "volume destination shadows a runtime-owned guest mount").

Definition validate (v : VolumeSpec) : result CoreError () :=
  reject_if (negb (schema_version v =? VOLUME_SPEC_VERSION)) (invalid "unsupported volume schema version");;
  validate_destination (destination v);;
  match persistence_class v with
  | Ephemeral | Persistent =>
      reject_if (quota_bytes v <? MINIMUM_NAMED_VOLUME_BYTES)
        (invalid "named volume quota is below the minimum");;
      reject_if (bool_decide (is_Some (content_digest v)))
        (invalid "named volume cannot contain an artifact digest")
  | Artifact =>
      reject_if (negb (read_only v)) (invalid "artifact volume must be read-only");;
      reject_if (bool_decide (snapshot_policy v = Required))
        (invalid "immutable artifact volume cannot require a writable snapshot");;
      d ← ok_or (invalid "artifact volume requires a content digest") (content_digest v);
      map_err (λ error, invalid (core_error_to_string error)) (validate_digest "artifact volume" d)
  | Secret =>
      reject_if (negb (read_only v)) (invalid "secret volume must be read-only");;
      reject_if (negb (bool_decide (snapshot_policy v = Excluded)))
        (invalid "secret volume must be excluded from snapshots");;
      reject_if (quota_bytes v =? 0) (invalid "secret tmpfs quota must be nonzero");;
      reject_if (bool_decide (is_Some (content_digest v)))
        (invalid "secret volume cannot contain a content digest")
  end.

End Volume.
Import Volume.

(** ** Destinations that are accepted *)

(** The path is written as its components are: no empty part after the
    leading slash and no [.]. *)
Definition normalised (dest : string) : Prop :=
  Forall (λ part, part ≠ EmptyString ∧ part ≠ "."%string) (tail (split_byte "/" dest)).

Lemma split_byte_cons c s : ∃ part parts, split_byte c s = part :: parts.
Proof.
  destruct s as [|b s]; simpl; [eauto|]. destruct (Ascii.eqb b c); [eauto|].
  destruct (split_byte c s); eauto.
Qed.

Lemma split_byte_app c s t :
  c ∉ bytes s → split_byte c (s +:+ String c t) = s :: split_byte c t.
Proof.
  induction s as [|b s IH]; simpl; intros Hc.
  - destruct (Ascii.eqb_spec c c); done.
  - apply not_elem_of_cons in Hc as [Hb Hs]. destruct (Ascii.eqb_spec b c); [congruence|]. by rewrite IH.
Qed.

Lemma split_byte_plain c s : c ∉ bytes s → split_byte c s = [s].
Proof.
  induction s as [|b s IH]; simpl; [done|]. intros [Hb Hs]%not_elem_of_cons.
  destruct (Ascii.eqb_spec b c); [congruence|]. by rewrite IH.
Qed.

(** Joining what was split. *)
Fixpoint join_byte (c : ascii) (parts : list string) : string :=
  match parts with
  | [] => EmptyString
  | [part] => part
  | part :: parts' => part +:+ String c (join_byte c parts')
  end.

Lemma join_split c s : join_byte c (split_byte c s) = s.
Proof.
  induction s as [|b s IH]; simpl; [done|]. destruct (split_byte_cons c s) as (part & parts & Hs).
  rewrite Hs in *. destruct (Ascii.eqb_spec b c) as [->|].
  - simpl in *. destruct parts; simpl in *; by rewrite IH.
  - simpl in *. destruct parts; simpl in *; by rewrite IH.
Qed.

Lemma omap_component_normalised parts :
  Forall (λ part, part ≠ EmptyString ∧ part ≠ "."%string) parts →
  existsb (λ c, match c with ParentDir | CurDir => true | _ => false end) (omap component parts) = false →
  omap component parts = Normal <$> parts.
Proof.
  induction 1 as [|part parts [Hne Hdot] _ IH]; [done|].
  assert (component part = Some ParentDir ∨ component part = Some (Normal part)) as Hc.
  { unfold component. rewrite !bool_decide_false by done. simpl. case_bool_decide; auto. }
  change (omap component (part :: parts)) with
    (match component part with Some c => c :: omap component parts | None => omap component parts end).
  destruct Hc as [-> | ->]; [done|]. simpl. intros Hrest. by rewrite IH.
Qed.

Lemma starts_with_slash dest :
  starts_with "/" dest = true → ∃ s, dest = String "/" s ∧ split_byte "/" dest = EmptyString :: split_byte "/" s.
Proof. intros [s ->]%starts_with_true. by exists s. Qed.

(** What the component list of an accepted destination may not be. *)
Definition shadows_guest_mount (components : list Component) : Prop :=
  (∃ p rest, p ∈ ["proc"; "sys"; "dev"] ∧ components = RootDir :: Normal p :: rest) ∨
  components ∈ [[RootDir]; [RootDir; Normal "tmp"]; [RootDir; Normal "work"];
                [RootDir; Normal "etc"; Normal "hosts"]; [RootDir; Normal "etc"; Normal "resolv.conf"]].

Lemma validate_destination_Ok dest :
  validate_destination dest = Ok tt →
  starts_with "/" dest = true ∧ dest ≠ "/"%string ∧
  existsb (λ c, match c with ParentDir | CurDir => true | _ => false end) (path_components dest) = false ∧
  (∀ p, p ∈ RESERVED → dest ≠ p ∧ starts_with (p +:+ "/") dest = false) ∧ (dest ∉ RUNTIME_MOUNTS).
Proof.
  unfold validate_destination. intros Hv. inv_ok Hv. rewrite !reject_if_Ok in *.
  autorewrite with results in *. destruct_and!. split_and!; try done.
  intros p Hp.
  assert (bool_decide (dest = p) || starts_with (p +:+ "/") dest = false) as Hr.
  { apply not_true_iff_false. intros Hor.
    match goal with Hex : existsb _ RESERVED = false |- _ =>
      apply not_true_iff_false in Hex; destruct Hex; apply existsb_exists; exists p end.
    split; [by apply list_elem_of_In|exact Hor]. }
  apply orb_false_iff in Hr as [Hr1 Hr2]. by apply bool_decide_eq_false in Hr1.
Qed.

Lemma starts_with_app p t : starts_with p (p +:+ t) = true.
Proof. apply starts_with_true. eauto. Qed.

(** A destination written in normal form cannot cover the guest's own
    mounts: if [validate_destination] accepts a path whose parts are neither
    empty nor a single dot, the directory it names is not the root, not inside
    [/proc], [/sys] or [/dev], and none of [/tmp], [/work], [/etc/hosts] and
    [/etc/resolv.conf]. *)
Theorem destination_keeps_guest_mounts dest :
  normalised dest → validate_destination dest = Ok tt → ¬ shadows_guest_mount (path_components dest).
Proof.
  intros Hn (Hslash & Hroot & Hex & Hres & Hrun)%validate_destination_Ok.
  unfold path_components, normalised in *. rewrite Hslash in *.
  destruct (starts_with_slash dest Hslash) as (s & -> & Hsplit). rewrite Hsplit in *.
  change (omap component (EmptyString :: ?l)) with (omap component l) in *. simpl in Hn, Hex.
  rewrite (omap_component_normalised _ Hn Hex).
  pose proof (join_split "/" s) as Hjoin.
  assert (split_byte "/" s ≠ [EmptyString]) as Hne by (intros He; by rewrite He in Hn; inversion Hn as [|? ? []]).
  intros [(p & rest & Hp & Heq)|Hin].
  - destruct (split_byte "/" s) as [|q [|q' parts]] eqn:Hs; [done| |]; simplify_eq/=.
    + destruct (Hres ("/" +:+ p)) as [Hno _]; [set_solver|]. done.
    + destruct (Hres ("/" +:+ p)) as [_ Hno]; [set_solver|].
      match type of Hno with starts_with _ (String _ (_ +:+ String _ ?x)) = _ =>
        assert (String "/" (p +:+ String "/" x) = (("/" +:+ p) +:+ "/") +:+ x) as Heq
          by (simpl; by rewrite app_assoc_string);
        rewrite Heq, starts_with_app in Hno; done end.
  - set_unfold in Hin.
    destruct (split_byte "/" s) as [|q [|q' [|q'' parts]]]; destruct_or?; simplify_eq/=; by apply Hrun; set_solver.
Qed.

Lemma destination_keeps_guest_mounts_witness :
  validate_destination "/var/lib/data" = Ok tt ∧ ¬ shadows_guest_mount (path_components "/var/lib/data").
Proof.
  split; [vm_compute; reflexivity|].
  refine (destination_keeps_guest_mounts "/var/lib/data" _ _); [|vm_compute; reflexivity].
  repeat constructor; done.
Defined.

(** The check itself does not require the normal form it names:
    [Path::components] drops interior dots, so there are accepted destinations
    that name a protected guest mount, here [/proc] spelled [/./proc]. *)
Theorem dotted_destination_shadows_guest_mount :
  ∃ dest, validate_destination dest = Ok tt ∧ shadows_guest_mount (path_components dest).
Proof.
  exists "/./proc"%string. split; [vm_compute; reflexivity|]. left. exists "proc"%string, [].
  split; [set_solver|vm_compute; reflexivity].
Qed.
