(* ===== verification/Network.v ===== *)
(** * Network policy

    Models the network policy of [crates/sandbox-oci/src/model.rs]: its
    validation, the egress decisions for HTTP, DNS and TCP, and the protected
    address ranges.  The parser of [std::net::IpAddr] is part of the model. *)
From Stdlib Require Import Btauto.
From S2P Require Import Prelude Identity.

Module Network.

(** ** Addresses

    An address is its big-endian value, of 32 or 128 bits. *)

Inductive IpAddr : Type := V4 (value : Z) | V6 (value : Z).

#[global] Instance IpAddr_eq_dec : EqDecision IpAddr.
Proof. solve_decision. Defined.

Definition is_ipv4 (a : IpAddr) : bool := match a with V4 _ => true | V6 _ => false end.

(** *** [core::net::parser] *)

Abbreviation parser A := (list ascii → option (A * list ascii)).

(** [char::to_digit]. *)
Definition to_digit (radix : Z) (c : ascii) : option Z :=
  let d :=
    if is_ascii_digit c then code c - 48
    else if in_range 97 122 c then code c - 87
    else if in_range 65 90 c then code c - 55
    else radix in
  if d <? radix then Some d else None.

(** The loop of [read_number]. *)
Fixpoint read_digits (radix max max_digits result count : Z) (l : list ascii) : option (Z * Z * list ascii) :=
  match l with
  | [] => Some (result, count, l)
  | c :: l' =>
      match to_digit radix c with
      | None => Some (result, count, l)
      | Some d =>
          match checked_mul max result radix ≫= λ r, checked_add max r d with
          | None => None
          | Some r => if max_digits <? count + 1 then None else read_digits radix max max_digits r (count + 1) l'
          end
      end
  end.

Definition read_number (radix max max_digits : Z) (allow_zero_prefix : bool) : parser Z :=
  λ l,
    '(result, count, rest) ← read_digits radix max max_digits 0 0 l;
    if count =? 0 then None
    else if negb allow_zero_prefix && bool_decide (head l = Some "0"%char) && (1 <? count) then None
    else Some (result, rest).

Definition read_given_char (c : ascii) : parser () :=
  λ l, match l with b :: l' => if Ascii.eqb b c then Some (tt, l') else None | [] => None end.

Definition read_separator {A} (sep : ascii) (index : nat) (inner : parser A) : parser A :=
  λ l,
    match index with
    | O => inner l
    | S _ => '(_, l') ← read_given_char sep l; inner l'
    end.

Fixpoint read_octets (n index : nat) (value : Z) : parser Z :=
  λ l,
    match n with
    | O => Some (value, l)
    | S n' =>
        '(octet, l') ← read_separator "." index (read_number 10 255 3 false) l;
        read_octets n' (S index) (value * 256 + octet) l'
    end.
Definition read_ipv4_addr : parser Z := read_octets 4 0 0.

(** [read_groups] on the [n] slots from [index] on: the groups read, whether
    they end in an embedded IPv4 address, and the rest of the input. *)
Fixpoint read_groups (n index : nat) (l : list ascii) : list Z * bool * list ascii :=
  match n with
  | O => ([], false, l)
  | S n' =>
      match (if (0 <? n')%nat then read_separator ":" index read_ipv4_addr l else None) with
      | Some (a, l') => ([a / 65536; a mod 65536], true, l')
      | None =>
          match read_separator ":" index (read_number 16 65535 4 true) l with
          | None => ([], false, l)
          | Some (group, l') =>
              let '(groups, ipv4, rest) := read_groups n' (S index) l' in
              (group :: groups, ipv4, rest)
          end
      end
  end.

Definition from_groups (groups : list Z) : Z := foldl (λ acc g, acc * 65536 + g) 0 groups.

Definition read_ipv6_addr : parser Z :=
  λ l,
    let '(groups_head, head_ipv4, l1) := read_groups 8 0 l in
    if (length groups_head =? 8)%nat then Some (from_groups groups_head, l1)
    else if head_ipv4 then None
    else
      '(_, l2) ← read_given_char ":" l1;
      '(_, l3) ← read_given_char ":" l2;
      let '(groups_tail, _, l4) := read_groups (8 - (length groups_head + 1))%nat 0 l3 in
      Some (from_groups
              (groups_head ++ replicate (8 - length groups_head - length groups_tail) 0 ++ groups_tail), l4).

(** [str::parse::<IpAddr>]. *)
Definition parse_ip (s : string) : option IpAddr :=
  '(a, rest) ← match read_ipv4_addr (bytes s) with
               | Some (v, rest) => Some (V4 v, rest)
               | None => '(v, rest) ← read_ipv6_addr (bytes s); Some (V6 v, rest)
               end;
  if bool_decide (rest = []) then Some a else None.

(** ** CIDR blocks *)

(** [u32::MAX << (32 - prefix)] and [u128::MAX << (128 - prefix)]. *)
Definition prefix_mask (width prefix : Z) : Z :=
  if prefix =? 0 then 0
  else Z.land (Z.shiftl (Z.ones width) (width - prefix)) (Z.ones width).

Definition network_address (address : IpAddr) (prefix : Z) : IpAddr :=
  match address with
  | V4 a => V4 (Z.land a (prefix_mask 32 prefix))
  | V6 a => V6 (Z.land a (prefix_mask 128 prefix))
  end.

Definition invalid_cidr (value : string) : string := "destination CIDR `" +:+ value +:+ "` is invalid".

Definition validate_cidr (value : string) : result string () :=
  '(address, prefix) ← ok_or (invalid_cidr value) (split_once "/" value);
  address ← ok_or (invalid_cidr value) (parse_ip address);
  prefix ← ok_or (invalid_cidr value) (parse_unsigned 255 prefix);
  let maximum := if is_ipv4 address then 32 else 128 in
  reject_if ((maximum <? prefix) || negb (bool_decide (network_address address prefix = address)))
    ("destination CIDR `" +:+ value +:+ "` is not canonical").

(** The parts of a validated block; the [expect]s of the source panic where
    this is [None]. *)
Definition cidr_parts (value : string) : option (IpAddr * Z) :=
  '(address, prefix) ← split_once "/" value;
  address ← parse_ip address;
  prefix ← parse_unsigned 255 prefix;
  Some (address, prefix).

Definition cidr_contains (value : string) (dest : IpAddr) : result (failure string) bool :=
  map_err Rejected (validate_cidr value);;
  '(address, prefix) ← expect "validated CIDR" (cidr_parts value);
  mret (Bool.eqb (is_ipv4 address) (is_ipv4 dest)
        && bool_decide (network_address dest prefix = address)).

(** [Result::unwrap_or(false)]; a panic is not caught. *)
Definition unwrap_or_false {E} (r : result (failure E) bool) : result (failure E) bool :=
  match r with Err (Rejected _) => Ok false | _ => r end.

(** ** Domains *)

Definition label_byte (c : ascii) : bool := is_ascii_lowercase c || is_ascii_digit c || is_byte "-" c.

Definition label_rejected (label : string) : bool :=
  bool_decide (label = EmptyString) || (63 <? len label)
  || starts_with "-" label || ends_with "-" label || negb (all_bytes label_byte label).

Definition canonical_domain (domain : string) : option string :=
  let domain := default domain (strip_suffix "." domain) in
  if bool_decide (domain = EmptyString) || (253 <? len domain)
     || existsb is_ascii_uppercase (bytes domain)
     || existsb label_rejected (split_byte "." domain)
  then None
  else Some domain.

Definition domain_matches (pattern domain : string) : bool :=
  match strip_prefix "*." pattern with
  | None => bool_decide (pattern = domain)
  | Some suffix =>
      (len suffix <? len domain)
      && ends_with suffix domain
      && bool_decide (bytes domain !! Z.to_nat (len domain - len suffix - 1) = Some "."%char)
  end.

Definition validate_domain_pattern (pattern : string) : result string () :=
  let domain := default pattern (strip_prefix "*." pattern) in
  reject_if (negb (bool_decide (canonical_domain domain = Some domain))
             || bool_decide (is_Some (parse_ip domain)))
    ("domain pattern `" +:+ pattern +:+ "` is invalid").

(** ** The policy *)

Inductive NetworkProfile : Type := ProfileNone | HttpConnect | RestrictedTcp.
Inductive HttpScheme : Type := Http | Https.

#[global] Instance NetworkProfile_eq_dec : EqDecision NetworkProfile.
Proof. solve_decision. Defined.
#[global] Instance HttpScheme_eq_dec : EqDecision HttpScheme.
Proof. solve_decision. Defined.

Record HttpEgressRule : Type := MkHttpRule {
  domains : list string;
  schemes : list HttpScheme;
  http_ports : list Z
}.
Record TcpEgressRule : Type := MkTcpRule { destination_cidr : string; tcp_ports : list Z }.
Record DnsPolicy : Type := MkDns {
  maximum_queries : Z;
  dns_maximum_response_bytes : Z;
  maximum_total_bytes : Z
}.
Record EgressLimits : Type := MkLimits {
  maximum_connections : Z;
  maximum_bytes : Z;
  bandwidth_bytes_per_second : Z;
  maximum_request_bytes : Z;
  maximum_response_bytes : Z;
  connect_timeout_ms : Z;
  idle_timeout_ms : Z
}.
Record IngressRule : Type := MkIngress { service : string; container_port : Z }.
Record NetworkPolicy : Type := MkPolicy {
  profile : NetworkProfile;
  http_rules : list HttpEgressRule;
  tcp_rules : list TcpEgressRule;
  dns : DnsPolicy;
  limits : EgressLimits;
  ingress : list IngressRule
}.

#[global] Instance HttpEgressRule_eq_dec : EqDecision HttpEgressRule.
Proof. solve_decision. Defined.
#[global] Instance TcpEgressRule_eq_dec : EqDecision TcpEgressRule.
Proof. solve_decision. Defined.
#[global] Instance DnsPolicy_eq_dec : EqDecision DnsPolicy.
Proof. solve_decision. Defined.
#[global] Instance EgressLimits_eq_dec : EqDecision EgressLimits.
Proof. solve_decision. Defined.
#[global] Instance IngressRule_eq_dec : EqDecision IngressRule.
Proof. solve_decision. Defined.
#[global] Instance NetworkPolicy_eq_dec : EqDecision NetworkPolicy.
Proof. solve_decision. Defined.

Definition default_dns : DnsPolicy := MkDns 256 4096 (1024 * 1024).
Definition default_maximum_request_bytes : Z := 16 * 1024 * 1024.
Definition default_maximum_response_bytes : Z := 16 * 1024 * 1024.
Definition default_connect_timeout_ms : Z := 5000.
Definition default_idle_timeout_ms : Z := 30000.
Definition default_limits : EgressLimits :=
  MkLimits 32 (64 * 1024 * 1024) (8 * 1024 * 1024) default_maximum_request_bytes
    default_maximum_response_bytes default_connect_timeout_ms default_idle_timeout_ms.
Definition default_network : NetworkPolicy := MkPolicy ProfileNone [] [] default_dns default_limits [].

Definition has_duplicates {A} `{EqDecision A} (values : list A) : bool :=
  negb (length (remove_dups values) =? length values)%nat.

Definition validate_http_rule (rule : HttpEgressRule) : result (failure string) () :=
  reject_if (bool_decide (domains rule = []) || (64 <? length_z (domains rule))
             || bool_decide (schemes rule = []) || (2 <? length_z (schemes rule))
             || bool_decide (http_ports rule = []) || (32 <? length_z (http_ports rule))
             || bool_decide (0 ∈ http_ports rule) || has_duplicates (domains rule)
             || has_duplicates (schemes rule) || has_duplicates (http_ports rule))
    (Rejected "HTTP egress rule has invalid or repeated values");;
  for_each (λ domain, map_err Rejected (validate_domain_pattern domain)) (domains rule).

(** ["10.0.0.1".parse()]. *)
Definition SANDBOX_ADDRESS : IpAddr := V4 167772161.

Definition block_unrestricted (network : IpAddr) (prefix : Z) : bool :=
  (is_ipv4 network && (prefix <? 8)) || (negb (is_ipv4 network) && (prefix <? 32))
  || match network with V4 a => a / 2 ^ 24 =? 10 | V6 _ => false end.

Definition validate_tcp_rule (rule : TcpEgressRule) : result (failure string) () :=
  map_err Rejected (validate_cidr (destination_cidr rule));;
  '(network, prefix) ← expect "validated CIDR" (cidr_parts (destination_cidr rule));
  overlaps ←
    (if block_unrestricted network prefix then mret true
     else unwrap_or_false (cidr_contains (destination_cidr rule) SANDBOX_ADDRESS));
  reject_if overlaps
    (Rejected "TCP destination CIDR is unrestricted or overlaps sandbox infrastructure");;
  reject_if (bool_decide (tcp_ports rule = []) || (32 <? length_z (tcp_ports rule))
             || bool_decide (0 ∈ tcp_ports rule)
             || existsb (λ port, (port =? 53) || (port =? 853)) (tcp_ports rule)
             || has_duplicates (tcp_ports rule))
    (Rejected "TCP egress rule has invalid or repeated ports").

Definition limits_rejected (d : DnsPolicy) (l : EgressLimits) : bool :=
  (maximum_queries d =? 0) || (65536 <? maximum_queries d)
  || (dns_maximum_response_bytes d <? 512) || (65535 <? dns_maximum_response_bytes d)
  || (maximum_total_bytes d <? dns_maximum_response_bytes d)
  || (1024 * 1024 * 1024 <? maximum_total_bytes d)
  || (maximum_connections l =? 0) || (4096 <? maximum_connections l)
  || (maximum_bytes l =? 0) || (1024 * 1024 * 1024 * 1024 <? maximum_bytes l)
  || (bandwidth_bytes_per_second l =? 0) || (10 * 1024 * 1024 * 1024 <? bandwidth_bytes_per_second l)
  || (maximum_request_bytes l =? 0) || (maximum_bytes l <? maximum_request_bytes l)
  || (maximum_response_bytes l =? 0) || (maximum_bytes l <? maximum_response_bytes l)
  || negb ((100 <=? connect_timeout_ms l) && (connect_timeout_ms l <=? 120000))
  || negb ((100 <=? idle_timeout_ms l) && (idle_timeout_ms l <=? 300000)).

Fixpoint validate_ingress {V} (services : gmap string V) (seen : list (string * Z)) (rules : list IngressRule) :
    result (failure string) () :=
  match rules with
  | [] => Ok tt
  | rule :: rules' =>
      reject_if ((container_port rule =? 0) || negb (bool_decide (is_Some (services !! service rule)))
                 || bool_decide ((service rule, container_port rule) ∈ seen))
        (Rejected "ingress rule has an unknown service, invalid port, or duplicate");;
      validate_ingress services ((service rule, container_port rule) :: seen) rules'
  end.

Definition validate_policy {V} (p : NetworkPolicy) (services : gmap string V) : result (failure string) () :=
  reject_if ((64 <? length_z (http_rules p)) || (64 <? length_z (tcp_rules p)) || (16 <? length_z (ingress p)))
    (Rejected "network policy contains too many rules");;
  match profile p with
  | ProfileNone =>
      reject_if (negb (bool_decide (http_rules p = [])) || negb (bool_decide (tcp_rules p = [])))
        (Rejected "the none profile cannot contain egress rules")
  | HttpConnect =>
      reject_if (bool_decide (http_rules p = []) || negb (bool_decide (tcp_rules p = [])))
        (Rejected "the http_connect profile requires HTTP rules and forbids TCP rules")
  | RestrictedTcp =>
      reject_if (bool_decide (tcp_rules p = []) || negb (bool_decide (http_rules p = [])))
        (Rejected "the restricted_tcp profile requires TCP rules and forbids HTTP rules")
  end;;
  for_each validate_http_rule (http_rules p);;
  for_each validate_tcp_rule (tcp_rules p);;
  reject_if (limits_rejected (dns p) (limits p)) (Rejected "network limits are outside their accepted bounds");;
  validate_ingress services [] (ingress p).

Definition permits_http (p : NetworkPolicy) (domain : string) (scheme : HttpScheme) (port : Z) : bool :=
  bool_decide (profile p = HttpConnect)
  && match canonical_domain domain with
     | None => false
     | Some d =>
         existsb (λ rule, bool_decide (scheme ∈ schemes rule) && bool_decide (port ∈ http_ports rule)
                          && existsb (λ pattern, domain_matches pattern d) (domains rule)) (http_rules p)
     end.

Definition permits_dns_name (p : NetworkPolicy) (domain : string) : bool :=
  match canonical_domain domain with
  | None => false
  | Some d => existsb (λ pattern, domain_matches pattern d) (concat (domains <$> http_rules p))
  end.

(** [cidr_contains] never panics ([cidr_contains_total]), so its failures are
    refusals. *)
Definition permits_tcp (p : NetworkPolicy) (dest : IpAddr) (port : Z) : bool :=
  bool_decide (profile p = RestrictedTcp)
  && existsb (λ rule, bool_decide (port ∈ tcp_ports rule)
                      && match cidr_contains (destination_cidr rule) dest with Ok b => b | Err _ => false end)
       (tcp_rules p).

(** ** Protected destinations *)

Definition octet (n value : Z) : Z := Z.land (Z.shiftr value (8 * (3 - n))) 255.

Definition v4_unspecified (v : Z) : bool := v =? 0.
Definition v4_loopback (v : Z) : bool := octet 0 v =? 127.
Definition v4_private (v : Z) : bool :=
  (octet 0 v =? 10)
  || ((octet 0 v =? 172) && (16 <=? octet 1 v) && (octet 1 v <=? 31))
  || ((octet 0 v =? 192) && (octet 1 v =? 168)).
Definition v4_link_local (v : Z) : bool := (octet 0 v =? 169) && (octet 1 v =? 254).
Definition v4_multicast (v : Z) : bool := (224 <=? octet 0 v) && (octet 0 v <=? 239).
Definition v4_broadcast (v : Z) : bool := v =? u32_max.

Definition is_protected_destination (address : IpAddr) : bool :=
  match address with
  | V4 v =>
      v4_unspecified v || v4_loopback v || v4_private v || v4_link_local v || v4_multicast v
      || v4_broadcast v
      || (Z.land v 0xffc00000 =? 0x64400000)
      || (Z.land v 0xffff0000 =? 0xc6120000)
      || (Z.land v 0xff000000 =? 0x00000000)
      || (Z.land v 0xf0000000 =? 0xf0000000)
  | V6 v =>
      (v =? 0) || (v =? 1) || (Z.shiftr v 120 =? 0xff)
      || (Z.shiftr v 121 =? 0x7e)
      || (Z.shiftr v 118 =? 0x3fa)
      || (Z.shiftr v 96 =? 0x20010db8)
  end.

End Network.
Import Network.

(** ** Prefixes

    Two addresses are in one block of prefix length [p] when their first [p]
    bits agree. *)

Lemma prefix_mask_spec w p : 0 ≤ p ≤ w → prefix_mask w p = Z.shiftl (Z.ones p) (w - p).
Proof.
  intros Hp. unfold prefix_mask. destruct (Z.eqb_spec p 0) as [->|Hne].
  - by rewrite Z.shiftl_0_l.
  - apply Z.bits_inj'. intros i Hi. rewrite Z.land_spec, !Z.shiftl_spec, !Z.testbit_ones by lia.
    apply eq_true_iff_eq. rewrite !andb_true_iff, !Z.leb_le, !Z.ltb_lt. lia.
Qed.

Lemma land_prefix_bit w p v i :
  0 ≤ p ≤ w → 0 ≤ i →
  Z.testbit (Z.land v (prefix_mask w p)) i = Z.testbit v i && (w - p <=? i) && (i <? w).
Proof.
  intros Hp Hi. rewrite prefix_mask_spec, Z.land_spec, Z.shiftl_spec, Z.testbit_ones by lia.
  rewrite <- andb_assoc. f_equal. apply eq_true_iff_eq. rewrite !andb_true_iff, !Z.leb_le, !Z.ltb_lt. lia.
Qed.

Lemma testbit_small v w i : 0 ≤ v < 2 ^ w → w ≤ i → Z.testbit v i = false.
Proof.
  intros Hv Hi. destruct (decide (w < 0)).
  { rewrite Z.pow_neg_r in Hv by done. lia. }
  rewrite <- (Z.mod_small v (2 ^ w)) by done. apply Z.mod_pow2_bits_high. lia.
Qed.

Lemma land_prefix w p v :
  0 ≤ p ≤ w → (∀ i, w ≤ i → Z.testbit v i = false) →
  Z.land v (prefix_mask w p) = Z.shiftl (Z.shiftr v (w - p)) (w - p).
Proof.
  intros Hp Hv. apply Z.bits_inj'. intros i Hi. rewrite land_prefix_bit by lia.
  destruct (Z.leb_spec (w - p) i) as [Hle|Hlt].
  - rewrite Z.shiftl_spec, Z.shiftr_spec by lia. replace (i - (w - p) + (w - p)) with i by lia.
    destruct (Z.ltb_spec i w); [by rewrite !andb_true_r|]. by rewrite Hv, andb_false_r by lia.
  - rewrite Z.shiftl_spec_low by lia. by rewrite andb_false_r.
Qed.

Lemma same_block w p v a :
  0 ≤ p ≤ w → 0 ≤ v < 2 ^ w → Z.land a (prefix_mask w p) = a →
  Z.land v (prefix_mask w p) = a ↔ Z.shiftr v (w - p) = Z.shiftr a (w - p).
Proof.
  intros Hp Hv Ha.
  assert (∀ i, w ≤ i → Z.testbit a i = false) as Hhigh.
  { intros i Hi. rewrite <- Ha. rewrite land_prefix_bit by lia.
    rewrite (proj2 (Z.ltb_ge i w)) by lia. by rewrite andb_false_r. }
  rewrite (land_prefix w p a) in Ha by done. rewrite <- Ha at 1.
  rewrite land_prefix by (done || (intros i Hi; exact (testbit_small v w i Hv Hi))).
  split; [|by intros ->]. intros Heq.
  apply (f_equal (λ z, Z.shiftr z (w - p))) in Heq.
  by rewrite !Z.shiftr_shiftl_l, !Z.sub_diag, !Z.shiftl_0_r in Heq by lia.
Qed.

(** ** CIDR blocks *)

Definition width (a : IpAddr) : Z := if is_ipv4 a then 32 else 128.
Definition ip_value (a : IpAddr) : Z := match a with V4 v | V6 v => v end.
Definition in_width (a : IpAddr) : Prop := 0 ≤ ip_value a < 2 ^ width a.

(** The address is in the block [a/p]. *)
Definition in_block (a : IpAddr) (p : Z) (dest : IpAddr) : Prop :=
  is_ipv4 a = is_ipv4 dest ∧
  Z.shiftr (ip_value dest) (width a - p) = Z.shiftr (ip_value a) (width a - p).

Lemma validate_cidr_Ok value :
  validate_cidr value = Ok tt ↔
  ∃ a p, cidr_parts value = Some (a, p) ∧ p ≤ width a ∧ network_address a p = a.
Proof.
  unfold validate_cidr, cidr_parts. destruct (split_once "/" value) as [[s t]|]; simpl; [|naive_solver].
  destruct (parse_ip s) as [a|]; simpl; [|naive_solver].
  destruct (parse_unsigned 255 t) as [p|]; simpl; [|naive_solver].
  rewrite reject_if_Ok, orb_false_iff, negb_false_iff, bool_decide_eq_true, Z.ltb_ge.
  unfold width. split; [intros [? ?]; exists a, p; auto|intros (? & ? & [= <- <-] & ? & ?); auto].
Qed.

Lemma cidr_prefix_nonneg value a p : cidr_parts value = Some (a, p) → 0 ≤ p.
Proof.
  unfold cidr_parts. destruct (split_once "/" value) as [[s t]|]; simpl; [|done].
  destruct (parse_ip s); simpl; [|done]. destruct (parse_unsigned 255 t) eqn:Hp; simpl; [|done].
  intros [= _ <-]. apply parse_unsigned_range in Hp. lia.
Qed.

Lemma cidr_contains_spec value dest b :
  in_width dest →
  cidr_contains value dest = Ok b ↔
  ∃ a p, cidr_parts value = Some (a, p) ∧ 0 ≤ p ≤ width a ∧ network_address a p = a ∧
    (b = true ↔ in_block a p dest).
Proof.
  intros Hd. unfold cidr_contains. destruct (validate_cidr value) as [[]|e] eqn:Hv; simpl.
  - apply validate_cidr_Ok in Hv as (a & p & Hparts & Hp & Hnet). rewrite Hparts. simpl.
    pose proof (cidr_prefix_nonneg _ _ _ Hparts) as Hp0.
    assert (Bool.eqb (is_ipv4 a) (is_ipv4 dest) && bool_decide (network_address dest p = a) = true
            ↔ in_block a p dest) as Hiff.
    { rewrite andb_true_iff, eqb_true_iff, bool_decide_eq_true. unfold in_block.
      destruct a as [a|a], dest as [d|d]; unfold width in *; simpl in *; try (split; intros []; done).
      - injection Hnet as Hnet. pose proof (same_block 32 p d a ltac:(lia) Hd Hnet) as Hs.
        rewrite <- Hs. split; intros [? Heq]; [by injection Heq as ->|by rewrite Heq].
      - injection Hnet as Hnet. pose proof (same_block 128 p d a ltac:(lia) Hd Hnet) as Hs.
        rewrite <- Hs. split; intros [? Heq]; [by injection Heq as ->|by rewrite Heq]. }
    unfold mret, result_ret. split.
    + intros [= <-]. exists a, p. split_and!; done.
    + intros (a' & p' & [= <- <-] & _ & _ & Hb). f_equal. apply eq_true_iff_eq. by rewrite Hb.
  - split; [done|]. intros (a & p & Hparts & Hp & Hnet & _).
    assert (validate_cidr value = Ok tt) as Hok by (apply validate_cidr_Ok; exists a, p; split_and!; [done|lia|done]).
    congruence.
Qed.

(** The [expect]s after a validation are never reached. *)
Lemma cidr_contains_total value dest m : cidr_contains value dest ≠ Err (Panicked m).
Proof.
  unfold cidr_contains. destruct (validate_cidr value) as [[]|e] eqn:Hv; simpl; [|done].
  apply validate_cidr_Ok in Hv as (a & p & -> & _). done.
Qed.

(** ** TCP *)

(** The TCP decision is exactly the rules' blocks: a destination and port
    are permitted if and only if the profile is [restricted_tcp] and some rule
    lists the port and has a canonical block whose leading bits the destination shares. *)
Theorem permits_tcp_iff p dest port :
  in_width dest →
  permits_tcp p dest port = true ↔
  profile p = RestrictedTcp ∧
  ∃ rule a n, rule ∈ tcp_rules p ∧ port ∈ tcp_ports rule ∧
    cidr_parts (destination_cidr rule) = Some (a, n) ∧ 0 ≤ n ≤ width a ∧ network_address a n = a ∧
    in_block a n dest.
Proof.
  intros Hd. unfold permits_tcp. rewrite andb_true_iff, bool_decide_eq_true, existsb_exists.
  apply and_iff_compat_l. split.
  - intros (rule & Hin & Hr). apply andb_true_iff in Hr as [Hport%bool_decide_eq_true Hc].
    destruct (cidr_contains _ dest) as [b|] eqn:Hcidr; [|done]. subst b.
    apply cidr_contains_spec in Hcidr as (a & n & ? & ? & ? & Hb); [|done].
    apply list_elem_of_In in Hin. exists rule, a, n. split_and!; try done; try lia; by apply Hb.
  - intros (rule & a & n & Hin & Hport & Hparts & Hn & Hnet & Hblock). exists rule.
    split; [by apply list_elem_of_In|]. rewrite bool_decide_true by done. simpl.
    assert (cidr_contains (destination_cidr rule) dest = Ok true) as ->; [|done].
    apply cidr_contains_spec; [done|]. by exists a, n.
Qed.

Lemma validate_tcp_rule_Ok rule :
  validate_tcp_rule rule = Ok tt →
  ∃ a n, cidr_parts (destination_cidr rule) = Some (a, n) ∧
    match a with V4 v => 8 ≤ n ∧ v / 2 ^ 24 ≠ 10 | V6 _ => 32 ≤ n end ∧
    (∀ port, port ∈ tcp_ports rule → port ∉ [0; 53; 853]).
Proof.
  unfold validate_tcp_rule. destruct (validate_cidr _) as [[]|e]; simpl; [|done].
  destruct (cidr_parts _) as [[a n]|]; simpl; [|done]. intros Hv.
  destruct (block_unrestricted a n) eqn:Hor; [done|].
  unfold block_unrestricted in Hor. rewrite !orb_false_iff in Hor.
  exists a, n. split; [done|]. split; [destruct a as [v|v]; simpl in Hor; lia|].
  inv_ok Hv. apply reject_if_Ok in Hv. rewrite !orb_false_iff, !bool_decide_eq_false in Hv. destruct_and!.
  intros port Hport. rewrite !not_elem_of_cons. split_and!; [by intros ->| | |by apply not_elem_of_nil].
  all: intros ->; match goal with Hex : existsb _ (tcp_ports _) = false |- _ =>
    apply not_true_iff_false in Hex; destruct Hex; apply existsb_exists end.
  all: eexists; split; [by apply list_elem_of_In|done].
Qed.

Lemma validate_policy_Ok {V} p (services : gmap string V) :
  validate_policy p services = Ok tt →
  Forall (λ rule, validate_http_rule rule = Ok tt) (http_rules p) ∧
  Forall (λ rule, validate_tcp_rule rule = Ok tt) (tcp_rules p) ∧
  limits_rejected (dns p) (limits p) = false.
Proof.
  unfold validate_policy. intros Hv. inv_ok Hv.
  repeat match goal with
  | H : for_each _ _ = _ |- _ => apply for_each_Ok in H
  | H : reject_if _ _ = _ |- _ => apply reject_if_Ok in H
  end. done.
Qed.

(** A validated policy never opens the sandbox's own network or DNS: no
    IPv4 destination in 10.0.0.0/8 is permitted for TCP, whatever the rules, and no
    rule permits the ports 53 and 853. *)
Theorem tcp_keeps_out_of_sandbox_network {V} p (services : gmap string V) v port :
  validate_policy p services = Ok tt → 0 ≤ v < 2 ^ 32 →
  permits_tcp p (V4 v) port = true → v / 2 ^ 24 ≠ 10 ∧ port ∉ [0; 53; 853].
Proof.
  intros (_ & Hrules & _)%validate_policy_Ok Hv Hp.
  unfold permits_tcp in Hp. apply andb_true_iff in Hp as [_ (rule & Hin & Hr)%existsb_exists].
  apply andb_true_iff in Hr as [Hport%bool_decide_eq_true Hc].
  apply list_elem_of_In in Hin. rewrite Forall_forall in Hrules.
  destruct (validate_tcp_rule_Ok rule (Hrules rule Hin)) as (a & n & Hparts & Ha & Hports).
  split; [|by apply Hports].
  destruct (cidr_contains _ (V4 v)) as [b|] eqn:Hcidr; [|done]. subst b.
  apply cidr_contains_spec in Hcidr as (a' & n' & Hparts' & Hn & Hnet & [Hb _]); [|done].
  rewrite Hparts in Hparts'. injection Hparts' as <- <-.
  destruct (Hb eq_refl) as [Hfam Hshift]. destruct a as [a|a]; [|done]. destruct Ha as [H8 Hten].
  unfold width in Hn, Hshift. simpl in Hn, Hshift. intros Hv10. apply Hten. rewrite <- Hv10.
  rewrite <- !Z.shiftr_div_pow2 by lia. replace 24 with ((32 - n) + (n - 8)) by lia.
  rewrite <- !Z.shiftr_shiftr by lia. by rewrite Hshift.
Qed.

Lemma tcp_keeps_out_of_sandbox_network_witness :
  let p := MkPolicy RestrictedTcp [] [MkTcpRule "203.0.113.0/24" [5432]] default_dns default_limits [] in
  permits_tcp p (V4 3405803783) 5432 = true ∧ 3405803783 / 2 ^ 24 ≠ 10 ∧ 5432 ∉ [0; 53; 853].
Proof.
  split; [vm_compute; reflexivity|].
  refine (tcp_keeps_out_of_sandbox_network
            (MkPolicy RestrictedTcp [] [MkTcpRule "203.0.113.0/24" [5432]] default_dns default_limits [])
            (∅ : gmap string ()) 3405803783 5432 _ _ _); [vm_compute; reflexivity|lia|vm_compute; reflexivity].
Defined.

Lemma permits_tcp_iff_witness :
  let p := MkPolicy RestrictedTcp [] [MkTcpRule "203.0.113.0/24" [5432]] default_dns default_limits [] in
  permits_tcp p (V4 3405803783) 5432 = true ↔
  profile p = RestrictedTcp ∧
  ∃ rule a n, rule ∈ tcp_rules p ∧ 5432 ∈ tcp_ports rule ∧
    cidr_parts (destination_cidr rule) = Some (a, n) ∧ 0 ≤ n ≤ width a ∧ network_address a n = a ∧
    in_block a n (V4 3405803783).
Proof.
  refine (permits_tcp_iff _ (V4 3405803783) 5432 _). split; [discriminate|reflexivity].
Defined.

Lemma cidr_contains_unwrap value dest : total (unwrap_or_false (cidr_contains value dest)).
Proof.
  intros m. pose proof (cidr_contains_total value dest m). by destruct (cidr_contains value dest) as [|[]].
Qed.

Lemma validate_tcp_rule_total rule : total (validate_tcp_rule rule).
Proof.
  unfold validate_tcp_rule. apply total_bind; [auto with total|]. intros [] Hv. apply map_err_Ok in Hv.
  apply validate_cidr_Ok in Hv as (a & p & -> & _). apply total_bind; [done|]. intros [a' p'] _.
  apply total_bind; [destruct (block_unrestricted a' p'); [done|apply cidr_contains_unwrap]|]. intros overlaps _.
  apply total_bind; auto with total.
Qed.

Lemma validate_http_rule_total rule : total (validate_http_rule rule).
Proof.
  apply total_bind; [auto with total|]. intros _ _. apply total_for_each. auto with total.
Qed.

Lemma validate_ingress_total {V} (services : gmap string V) seen rules : total (validate_ingress services seen rules).
Proof.
  revert seen. induction rules as [|rule rules IH]; intros seen; [done|].
  apply total_bind; [auto with total|]. intros _ _. apply IH.
Qed.

#[global] Hint Resolve validate_tcp_rule_total validate_http_rule_total validate_ingress_total
  total_for_each : total.

(** The [expect]s on the parts of a block that was just validated are
    unreachable. *)
Lemma validate_policy_no_panic {V} p (services : gmap string V) : total (validate_policy p services).
Proof.
  repeat (apply total_bind; [|intros _ _]); auto with total.
  destruct (profile p); auto with total.
Qed.

(** ** Domains *)

Lemma domain_matches_spec pattern domain :
  domain_matches pattern domain = true ↔
  (strip_prefix "*." pattern = None ∧ pattern = domain) ∨
  ∃ suffix sub, pattern = "*." +:+ suffix ∧ domain = sub +:+ "." +:+ suffix.
Proof.
  unfold domain_matches. destruct (strip_prefix "*." pattern) as [suffix|] eqn:Hs.
  - apply strip_prefix_Some in Hs as ->. rewrite !andb_true_iff, ends_with_true, bool_decide_eq_true. split.
    + intros [[Hlen [t ->]] Hdot]. right. rewrite len_app in Hlen, Hdot.
      replace (len t + len suffix - len suffix - 1) with (len t - 1) in Hdot by lia.
      apply Z.ltb_lt in Hlen. rewrite bytes_app, len_bytes, lookup_app_l in Hdot
        by (rewrite !len_bytes in Hlen; lia).
      assert (∃ sub, bytes t = bytes sub ++ ["."%char]) as [sub Hsub].
      { rewrite (len_bytes t) in Hlen. destruct (bytes t) as [|x l] using rev_ind; [simpl in Hlen; lia|].
        rewrite length_app in Hdot. simpl in Hdot.
        replace (Z.to_nat (Z.of_nat (length l + 1) - 1)) with (length l) in Hdot by lia.
        rewrite lookup_app_r, Nat.sub_diag in Hdot by lia. injection Hdot as ->.
        exists (string_of_list_ascii l). f_equal. symmetry. apply list_ascii_of_string_of_list_ascii. }
      exists suffix, sub. split; [done|]. apply bytes_inj. rewrite !bytes_app, Hsub. by rewrite <- app_assoc.
    + intros [[? _]|(suffix' & sub & [= <-] & ->)]; [done|].
      rewrite !len_app. change (len ".") with 1. split; [split|].
      * pose proof (len_nonneg sub). lia.
      * exists (sub +:+ "."). by rewrite app_assoc_string.
      * replace (len sub + (1 + len suffix) - len suffix - 1) with (len sub) by lia.
        rewrite !bytes_app, len_bytes, Nat2Z.id, lookup_app_r, Nat.sub_diag by lia. done.
  - rewrite bool_decide_eq_true. split; [auto|]. intros [[_ ?]|(suffix & sub & -> & _)]; [done|].
    by rewrite strip_prefix_app in Hs.
Qed.

Lemma canonical_domain_Some domain host :
  canonical_domain domain = Some host →
  (domain = host ∨ domain = host +:+ ".") ∧ host ≠ EmptyString ∧ len host ≤ 253 ∧
  Forall (λ label, label_rejected label = false) (split_byte "." host).
Proof.
  unfold canonical_domain. set (d := default domain _). destruct (_ || _ || _ || _) eqn:Hr; [done|].
  rewrite !orb_false_iff in Hr. destruct Hr as [[[Hne Hlen] _] Hlabels]. intros [= <-].
  split_and!.
  - unfold d. destruct (strip_suffix "." domain) as [t|] eqn:Hs; simpl; [right|by left].
    by apply strip_suffix_Some.
  - by apply bool_decide_eq_false in Hne.
  - lia.
  - apply Forall_forall. intros label Hl. apply not_true_iff_false. intros Hrej.
    apply not_true_iff_false in Hlabels. destruct Hlabels. apply existsb_exists. exists label.
    split; [by apply list_elem_of_In|done].
Qed.

(** The HTTP decision is exactly the rules' domains, on whole labels: a
    request is permitted if and only if the profile is [http_connect], the name is a
    canonical domain (up to one trailing dot), and some rule lists its scheme,
    its port and either the name itself or a wildcard of which it is a proper
    subdomain. *)
Theorem permits_http_iff p domain scheme port :
  permits_http p domain scheme port = true ↔
  profile p = HttpConnect ∧
  ∃ host rule pattern, canonical_domain domain = Some host ∧ rule ∈ http_rules p ∧
    scheme ∈ schemes rule ∧ port ∈ http_ports rule ∧ pattern ∈ domains rule ∧
    (pattern = host ∨
     ∃ suffix sub, pattern = "*." +:+ suffix ∧ host = sub +:+ "." +:+ suffix ∧ sub ≠ EmptyString).
Proof.
  unfold permits_http. rewrite andb_true_iff, bool_decide_eq_true. apply and_iff_compat_l.
  destruct (canonical_domain domain) as [host|] eqn:Hc; [|naive_solver].
  destruct (canonical_domain_Some _ _ Hc) as (_ & _ & _ & Hlabels). rewrite existsb_exists. split.
  - intros (rule & Hin & Hr). rewrite !andb_true_iff, !bool_decide_eq_true, existsb_exists in Hr.
    destruct Hr as [[Hs Hp] (pattern & Hpat & Hm)]. exists host, rule, pattern.
    apply list_elem_of_In in Hin. apply list_elem_of_In in Hpat. split_and!; try done.
    apply domain_matches_spec in Hm as [[_ ->]|(suffix & sub & -> & ->)]; [by left|].
    right. exists suffix, sub. split_and!; try done. intros ->.
    simpl in Hlabels. by apply Forall_cons in Hlabels as [? _].
  - intros (host' & rule & pattern & [= <-] & Hin & Hs & Hp & Hpat & Hm). exists rule.
    rewrite <- list_elem_of_In. split; [done|]. rewrite !bool_decide_true by done. simpl.
    apply existsb_exists. exists pattern. rewrite <- list_elem_of_In. split; [done|].
    apply domain_matches_spec. destruct Hm as [->|(suffix & sub & -> & -> & _)]; [|eauto].
    left. split; [|done]. destruct (strip_prefix "*." host) as [t|] eqn:Hs'; [|done].
    apply strip_prefix_Some in Hs' as ->. simpl in Hlabels. by apply Forall_cons in Hlabels as [? _].
Qed.

(** ** Protected destinations *)

Definition PROTECTED_V4 : list (Z * Z) :=
  [(0x00000000, 8); (0x0a000000, 8); (0x64400000, 10); (0x7f000000, 8); (0xa9fe0000, 16);
   (0xac100000, 12); (0xc0a80000, 16); (0xc6120000, 16); (0xe0000000, 4); (0xf0000000, 4)].
Definition PROTECTED_V6 : list (Z * Z) :=
  [(0, 128); (1, 128); (0xff000000000000000000000000000000, 8);
   (0xfc000000000000000000000000000000, 7); (0xfe800000000000000000000000000000, 10);
   (0x20010db8000000000000000000000000, 32)].

(** The tests as a function of the first two octets. *)
Definition protected_high (h : Z) : bool :=
  (h / 256 =? 127)
  || ((h / 256 =? 10) || ((h / 256 =? 172) && (16 <=? h mod 256) && (h mod 256 <=? 31))
      || ((h / 256 =? 192) && (h mod 256 =? 168)))
  || ((h / 256 =? 169) && (h mod 256 =? 254))
  || ((224 <=? h / 256) && (h / 256 <=? 239))
  || (h / 64 =? 401) || (h =? 50706) || (h / 256 =? 0) || (h / 4096 =? 15).

Definition block_high (h : Z) : bool :=
  (h / 256 =? 0) || ((h / 256 =? 10) || ((h / 64 =? 401) || ((h / 256 =? 127) || ((h =? 43518)
  || ((h / 16 =? 2753) || ((h =? 49320) || ((h =? 50706) || ((h / 4096 =? 14) || ((h / 4096 =? 15)
  || false))))))))).

Lemma protected_high_spec h : 0 ≤ h < 65536 → protected_high h = block_high h.
Proof.
  intros Hh. unfold protected_high, block_high.
  assert ((h / 256 =? 172) && (16 <=? h mod 256) && (h mod 256 <=? 31) = (h / 16 =? 2753)) as ->
    by (Z.to_euclidean_division_equations; lia).
  assert ((h / 256 =? 192) && (h mod 256 =? 168) = (h =? 49320)) as ->
    by (Z.to_euclidean_division_equations; lia).
  assert ((h / 256 =? 169) && (h mod 256 =? 254) = (h =? 43518)) as ->
    by (Z.to_euclidean_division_equations; lia).
  assert ((224 <=? h / 256) && (h / 256 <=? 239) = (h / 4096 =? 14)) as ->
    by (Z.to_euclidean_division_equations; lia).
  btauto.
Qed.

Section v4.
Context (v : Z) (Hv : 0 ≤ v < 2 ^ 32).

Lemma octet_0 : octet 0 v = v / 2 ^ 16 / 256.
Proof using Hv.
  unfold octet. change 255 with (Z.ones 8). change (8 * (3 - 0)) with 24.
  rewrite Z.land_ones, Z.shiftr_div_pow2, Z.div_div by lia. apply Z.mod_small.
  split; [apply Z.div_pos; lia|apply Z.div_lt_upper_bound; lia].
Qed.

Lemma octet_1 : octet 1 v = (v / 2 ^ 16) mod 256.
Proof using Hv.
  unfold octet. change 255 with (Z.ones 8). change (8 * (3 - 1)) with 16.
  by rewrite Z.land_ones, Z.shiftr_div_pow2 by lia.
Qed.

Lemma mask_test p base :
  0 ≤ p ≤ 16 → Z.land base (prefix_mask 32 p) = base →
  (Z.land v (prefix_mask 32 p) =? base) = (v / 2 ^ 16 / 2 ^ (16 - p) =? base / 2 ^ (32 - p)).
Proof using Hv.
  intros Hp Hb. apply eq_true_iff_eq. rewrite !Z.eqb_eq.
  rewrite (same_block 32 p v base ltac:(lia) Hv Hb), !Z.shiftr_div_pow2, Z.div_div by lia.
  rewrite <- Z.pow_add_r by lia. by replace (16 + (16 - p)) with (32 - p) by lia.
Qed.

Lemma protected_v4_high : is_protected_destination (V4 v) = protected_high (v / 2 ^ 16).
Proof using Hv.
  unfold is_protected_destination, v4_unspecified, v4_loopback, v4_private, v4_link_local, v4_multicast,
    v4_broadcast. rewrite octet_0, octet_1.
  change 0xffc00000 with (prefix_mask 32 10). change 0xffff0000 with (prefix_mask 32 16).
  change 0xff000000 with (prefix_mask 32 8). change (Z.land v 0xf0000000) with (Z.land v (prefix_mask 32 4)).
  rewrite !mask_test by (done || lia). change (2 ^ (16 - 16)) with 1. rewrite Z.div_1_r.
  destruct (Z.eqb_spec v 0) as [->|_]; [by vm_compute|].
  destruct (Z.eqb_spec v u32_max) as [->|_]; [by vm_compute|]. rewrite !orb_false_r. reflexivity.
Qed.

Lemma block_v4_high :
  block_high (v / 2 ^ 16) = true ↔
  Exists (λ q, Z.shiftr v (32 - q.2) = Z.shiftr q.1 (32 - q.2)) PROTECTED_V4.
Proof using Hv.
  unfold PROTECTED_V4, block_high. rewrite !Exists_cons, Exists_nil. simpl fst; simpl snd.
  rewrite !Z.shiftr_div_pow2, !Z.div_div, !orb_true_iff, !Z.eqb_eq by lia.
  change (2 ^ 16 * 256) with (2 ^ (32 - 8)). change (2 ^ 16 * 64) with (2 ^ (32 - 10)).
  change (2 ^ 16 * 16) with (2 ^ (32 - 12)). change (2 ^ 16 * 4096) with (2 ^ (32 - 4)).
  change (2 ^ 16) with (2 ^ (32 - 16)).
  change (0 / 2 ^ (32 - 8)) with 0. change (167772160 / 2 ^ (32 - 8)) with 10.
  change (1681915904 / 2 ^ (32 - 10)) with 401. change (2130706432 / 2 ^ (32 - 8)) with 127.
  change (2851995648 / 2 ^ (32 - 16)) with 43518. change (2886729728 / 2 ^ (32 - 12)) with 2753.
  change (3232235520 / 2 ^ (32 - 16)) with 49320. change (3323068416 / 2 ^ (32 - 16)) with 50706.
  change (3758096384 / 2 ^ (32 - 4)) with 14. change (4026531840 / 2 ^ (32 - 4)) with 15.
  assert (false = true ↔ False) as -> by done. done.
Qed.
End v4.

(** The address tests of [is_protected_destination] are ten IPv4 blocks and
    six IPv6 blocks: the octet comparisons and bit masks of the code decide
    membership in the listed prefixes, for every address. *)
Theorem protected_destinations_are_blocks dest :
  in_width dest →
  is_protected_destination dest = true ↔
  ∃ base p, (base, p) ∈ (if is_ipv4 dest then PROTECTED_V4 else PROTECTED_V6) ∧
    Z.shiftr (ip_value dest) (width dest - p) = Z.shiftr base (width dest - p).
Proof.
  unfold in_width, width. intros Hd.
  transitivity (Exists (λ q, Z.shiftr (ip_value dest) (width dest - q.2) = Z.shiftr q.1 (width dest - q.2))
                  (if is_ipv4 dest then PROTECTED_V4 else PROTECTED_V6)).
  - destruct dest as [v|v]; simpl in Hd.
    + rewrite protected_v4_high, protected_high_spec, block_v4_high; [done|done| |done].
      split; [apply Z.div_pos; lia|apply Z.div_lt_upper_bound; lia].
    + unfold is_protected_destination, PROTECTED_V6, width. simpl is_ipv4. cbv iota.
      rewrite !Exists_cons, Exists_nil. simpl fst; simpl snd; simpl ip_value.
      rewrite !orb_true_iff, !Z.eqb_eq. change (128 - 128) with 0. rewrite !Z.shiftr_0_r.
      change (Z.shiftr 0xff000000000000000000000000000000 (128 - 8)) with 0xff.
      change (Z.shiftr 0xfc000000000000000000000000000000 (128 - 7)) with 0x7e.
      change (Z.shiftr 0xfe800000000000000000000000000000 (128 - 10)) with 0x3fa.
      change (Z.shiftr 0x20010db8000000000000000000000000 (128 - 32)) with 0x20010db8. tauto.
  - rewrite Exists_exists. split.
    + intros ([base p] & Hin & Heq). eauto.
    + intros (base & p & Hin & Heq). by exists (base, p).
Qed.

Lemma protected_destinations_are_blocks_witness :
  is_protected_destination (V4 2852039166) = true ∧
  ∃ base p, (base, p) ∈ PROTECTED_V4 ∧ Z.shiftr 2852039166 (32 - p) = Z.shiftr base (32 - p).
Proof.
  split; [vm_compute; reflexivity|].
  apply (protected_destinations_are_blocks (V4 2852039166)); [split; [discriminate|reflexivity]|].
  vm_compute; reflexivity.
Defined.

(** Two ranges that the code means to protect are not: the comment names
    198.18.0.0/15 but the mask covers 198.18.0.0/16 only, and no IPv4-mapped
    IPv6 address of a protected IPv4 address is protected. *)
Theorem unprotected_ranges :
  is_protected_destination (V4 (198 * 2 ^ 24 + 19 * 2 ^ 16 + 1)) = false ∧
  ∀ v, 0 ≤ v < 2 ^ 32 → is_protected_destination (V6 (0xffff * 2 ^ 32 + v)) = false.
Proof.
  split; [vm_compute; reflexivity|]. intros v Hv. unfold is_protected_destination.
  rewrite !Z.shiftr_div_pow2 by lia.
  assert (∀ k, 48 ≤ k → (0xffff * 2 ^ 32 + v) / 2 ^ k = 0) as Hz.
  { intros k Hk. apply Z.div_small. split; [lia|]. apply Z.lt_le_trans with (2 ^ 48); [lia|].
    apply Z.pow_le_mono_r; lia. }
  rewrite !Hz by lia. lia.
Qed.
