(* ===== verification/Topology.v ===== *)
(** * Topology locks

    Models the locked topology of [crates/sandbox-oci/src/model.rs] and its
    checks in [compiler.rs]: the digest, the volume references, the resources
    they add up to, and the startup order. *)
From S2P Require Import Prelude Identity GuestProfile Volume Network.
Import GuestProfile.GuestProfile Volume.Volume Network.Network.

Module Topology.

Definition LOCK_SCHEMA_VERSION : Z := 6.
Definition MAX_SERVICES : Z := 32.
Definition MAX_NETWORKS : Z := 8.
Definition MAX_VOLUMES : Z := 128.
Definition MAX_ENVIRONMENT : Z := 128.
Definition MAX_ARGUMENTS : Z := 256.
Definition MAX_VALUE_BYTES : Z := 16 * 1024.

Inductive DependencyCondition : Type := Started | Healthy | CompletedSuccessfully.
Inductive RootFilesystemMode : Type := ReadOnly | Writable.

#[global] Instance DependencyCondition_eq_dec : EqDecision DependencyCondition.
Proof. solve_decision. Defined.
#[global] Instance RootFilesystemMode_eq_dec : EqDecision RootFilesystemMode.
Proof. solve_decision. Defined.

Record LockedDescriptor : Type := MkDescriptor {
  descriptor_media_type : string;
  descriptor_digest : string;
  descriptor_size : Z
}.

Record LockedImage : Type := MkImage {
  source : string;
  exact_reference : string;
  image_id : string;
  index : option LockedDescriptor;
  manifest : LockedDescriptor;
  config : LockedDescriptor;
  layers : list LockedDescriptor;
  operating_system : string;
  architecture : string;
  variant : option string
}.

Record LockedHealthcheck : Type := MkHealthcheck {
  health_command : list string;
  interval_ms : Z;
  health_timeout_ms : Z;
  retries : Z
}.

Record LockedNetwork : Type := MkNetwork { internal : bool; driver : string }.

Record LockedVolume : Type := MkLockedVolume {
  locked_class : VolumePersistenceClass;
  locked_policy : VolumeSnapshotPolicy;
  locked_quota : Z;
  locked_digest : option string
}.

Record LockedService : Type := MkService {
  image : LockedImage;
  command : list string;
  entrypoint : list string;
  environment : gmap string string;
  depends_on : gmap string DependencyCondition;
  healthcheck : option LockedHealthcheck;
  service_networks : list string;
  working_dir : string;
  root_filesystem : RootFilesystemMode;
  service_volumes : list VolumeSpec
}.

Record SandboxPolicy : Type := MkSandboxPolicy {
  guest_profile : GuestProfileIdentity;
  runtime : string;
  memory_bytes_per_service : Z;
  cpu_per_service_millis : Z;
  pids_per_service : Z;
  tmpfs_bytes : Z;
  writable_root_bytes_per_service : Z;
  maximum_output_bytes : Z;
  network : NetworkPolicy
}.

(** [SandboxPolicy::default] with its profile and network replaced, as the
    compiler builds it. *)
Definition default_policy (profile : GuestProfileIdentity) (net : NetworkPolicy) : SandboxPolicy :=
  MkSandboxPolicy profile "runsc" (128 * 1024 * 1024) 500 96 (16 * 1024 * 1024) (64 * 1024 * 1024)
    (1024 * 1024) net.

Record TopologyLock : Type := MkLock {
  lock_schema_version : Z;
  topology_digest : string;
  lock_name : string;
  services : gmap string LockedService;
  networks : gmap string LockedNetwork;
  volumes : gmap string LockedVolume;
  lock_startup_order : list string;
  policy : SandboxPolicy
}.

#[global] Instance LockedDescriptor_eq_dec : EqDecision LockedDescriptor.
Proof. solve_decision. Defined.
#[global] Instance LockedImage_eq_dec : EqDecision LockedImage.
Proof. solve_decision. Defined.
#[global] Instance LockedHealthcheck_eq_dec : EqDecision LockedHealthcheck.
Proof. solve_decision. Defined.
#[global] Instance LockedNetwork_eq_dec : EqDecision LockedNetwork.
Proof. solve_decision. Defined.
#[global] Instance LockedVolume_eq_dec : EqDecision LockedVolume.
Proof. solve_decision. Defined.
#[global] Instance LockedService_eq_dec : EqDecision LockedService.
Proof. solve_decision. Defined.
#[global] Instance SandboxPolicy_eq_dec : EqDecision SandboxPolicy.
Proof. solve_decision. Defined.
#[global] Instance TopologyLock_eq_dec : EqDecision TopologyLock.
Proof. solve_decision. Defined.

(** [DigestInput]: the lock without its digest. *)
Record DigestInput : Type := MkDigestInput {
  input_schema_version : Z;
  input_name : string;
  input_services : gmap string LockedService;
  input_networks : gmap string LockedNetwork;
  input_volumes : gmap string LockedVolume;
  input_startup_order : list string;
  input_policy : SandboxPolicy
}.

Definition digest_input (lock : TopologyLock) : DigestInput :=
  MkDigestInput (lock_schema_version lock) (lock_name lock) (services lock) (networks lock)
    (volumes lock) (lock_startup_order lock) (policy lock).

(** [serde_json] on the digest input, and SHA-256. *)
Class TopologyCodec : Type := {
  encode_digest_input : DigestInput → result string (list ascii);
  sha256_hex : list ascii → string
}.

(** ** The startup order *)

(** The loop of [startup_order]; [None] when the fuel runs out, which a fuel
    of the number of services excludes. *)
Fixpoint order_loop (fuel : nat) (remaining : gmap string (gset string)) (order : list string) :
    option (result SandboxError (list string)) :=
  if bool_decide (remaining = ∅) then Some (Ok order)
  else
    match fuel with
    | O => None
    | S fuel' =>
        match find (λ '(_, dependencies), bool_decide (dependencies = ∅)) (btree_iter remaining) with
        | None => Some (Err (Compose "service dependency graph contains a cycle"))
        | Some (ready, _) =>
            order_loop fuel' ((λ dependencies, dependencies ∖ {[ready]}) <$> delete ready remaining)
              (order ++ [ready])
        end
    end.

Definition dependency_sets (s : gmap string LockedService) : gmap string (gset string) :=
  (λ service, dom (depends_on service)) <$> s.

Definition startup_order (s : gmap string LockedService) : option (result SandboxError (list string)) :=
  order_loop (size s) (dependency_sets s) [].

Section code.
Context `{TopologyCodec}.

Definition topology_digest_of (input : DigestInput) : result SandboxError string :=
  b ← map_err (λ error, Lock ("encode canonical topology: " +:+ error)) (encode_digest_input input);
  mret ("sha256:" +:+ sha256_hex b).

(** One mount of [verify_service_volumes]. *)
Definition verify_mount (lock : TopologyLock) (service_name : string) (seen : list string) (v : VolumeSpec) :
    result SandboxError () :=
  map_err (λ error, Lock ("service `" +:+ service_name +:+ "` has an invalid volume: "
                          +:+ core_error_to_string error)) (Volume.validate v);;
  reject_if (bool_decide (destination v ∈ seen))
    (Lock ("service `" +:+ service_name +:+ "` repeats volume destination `" +:+ destination v +:+ "`"));;
  let volume_id := as_str (volume_id v) in
  definition ← ok_or
    (Lock ("service `" +:+ service_name +:+ "` references unknown volume `" +:+ volume_id +:+ "`"))
    (volumes lock !! volume_id);
  reject_if (negb (bool_decide (persistence_class v = locked_class definition))
             || negb (bool_decide (snapshot_policy v = locked_policy definition))
             || negb (quota_bytes v =? locked_quota definition)
             || negb (bool_decide (content_digest v = locked_digest definition)))
    (Lock ("service `" +:+ service_name +:+ "` volume `" +:+ volume_id
           +:+ "` does not match its topology definition")).

Fixpoint verify_mounts (lock : TopologyLock) (service_name : string) (seen : list string)
    (mounts : list VolumeSpec) : result SandboxError () :=
  match mounts with
  | [] => Ok tt
  | v :: mounts' =>
      verify_mount lock service_name seen v;;
      verify_mounts lock service_name (destination v :: seen) mounts'
  end.

Definition verify_service_volumes (lock : TopologyLock) : result SandboxError () :=
  for_each (λ '(service_name, service),
      reject_if (64 <? length_z (service_volumes service))
        (Lock ("service `" +:+ service_name +:+ "` has too many volume mounts"));;
      verify_mounts lock service_name [] (service_volumes service))
    (btree_iter (services lock)).

(** Errors that carry a message of the policy. *)
Definition map_failure {E F A} (f : E → F) (r : result (failure E) A) : result (failure F) A :=
  map_err (λ e, match e with Rejected e => Rejected (f e) | Panicked m => Panicked m end) r.

Definition verify_lock (lock : TopologyLock) : result (failure SandboxError) () :=
  reject_if (negb (lock_schema_version lock =? LOCK_SCHEMA_VERSION))
    (Rejected (Lock ("unsupported schema version " +:+ to_string (lock_schema_version lock))));;
  expected ← map_err Rejected (topology_digest_of (digest_input lock));
  reject_if (negb (bool_decide (topology_digest lock = expected)))
    (Rejected (Lock ("topology digest mismatch: expected " +:+ expected +:+ ", found "
                     +:+ topology_digest lock)));;
  map_failure Lock (validate_policy (network (policy lock)) (services lock));;
  map_err Rejected (verify_service_volumes lock).

Record VolumeResourceUsage : Type := MkUsage { usage_count : Z; usage_quota_bytes : Z }.

Definition mounted_volume_ids (lock : TopologyLock) : gset string :=
  list_to_set ((λ v, as_str (volume_id v)) <$> concat (service_volumes <$> btree_values (services lock))).

(** A [BTreeSet] of strings in its order. *)
Definition set_iter (s : gset string) : list string :=
  merge_sort key_le (elements s).

Fixpoint sum_quotas (lock : TopologyLock) (total : Z) (ids : list string) :
    result (failure SandboxError) Z :=
  match ids with
  | [] => mret total
  | id :: ids' =>
      definition ← expect "verified service volume definition" (volumes lock !! id);
      total ← ok_or (Rejected (Lock "topology volume quota overflow"))
        (u64_checked_add total (locked_quota definition));
      sum_quotas lock total ids'
  end.

Definition volume_resource_usage (lock : TopologyLock) : result (failure SandboxError) VolumeResourceUsage :=
  verify_lock lock;;
  let volume_ids := mounted_volume_ids lock in
  quota_bytes ← sum_quotas lock 0 (set_iter volume_ids);
  mret (MkUsage (Z.of_nat (size volume_ids)) quota_bytes).

End code.
End Topology.
Import Topology.

(** ** The startup order is a topological order *)

Section ordering.
Context (D : gmap string (gset string)).
Implicit Types (remaining : gmap string (gset string)) (order : list string).

(** Every member of the list comes after all its dependencies. *)
Definition respects order : Prop :=
  ∀ i n ds, order !! i = Some n → D !! n = Some ds → ds ⊆ list_to_set (take i order).

Record order_inv remaining order : Prop := OrderInv {
  order_nodup : NoDup order;
  order_split n : is_Some (D !! n) ↔ n ∈ order ∨ is_Some (remaining !! n);
  order_disjoint n : n ∈ order → remaining !! n = None;
  order_deps n ds : remaining !! n = Some ds → ∃ d0, D !! n = Some d0 ∧ ds = d0 ∖ list_to_set order;
  order_respects : respects order
}.

Lemma find_btree_Some {V} (f : string * V → bool) (m : gmap string V) k v :
  find f (btree_iter m) = Some (k, v) → m !! k = Some v ∧ f (k, v) = true.
Proof.
  intros [Hin Hf]%find_some. split; [|done]. apply elem_of_btree_iter. by apply list_elem_of_In.
Qed.

Lemma find_btree_None {V} (f : string * V → bool) (m : gmap string V) k v :
  find f (btree_iter m) = None → m !! k = Some v → f (k, v) = false.
Proof.
  intros Hf Hk. eapply find_none; [exact Hf|]. apply list_elem_of_In. by apply elem_of_btree_iter.
Qed.

Lemma order_inv_step remaining order ready :
  order_inv remaining order → remaining !! ready = Some ∅ →
  order_inv ((λ dependencies, dependencies ∖ {[ready]}) <$> delete ready remaining) (order ++ [ready]).
Proof.
  intros [Hnd Hsplit Hdisj Hdeps Hresp] Hready.
  assert (ready ∉ order) as Hnew by (intros Hin; apply Hdisj in Hin; congruence).
  split.
  - apply NoDup_app. split_and!; [done|set_solver|apply NoDup_singleton].
  - intros n. rewrite Hsplit, elem_of_app, list_elem_of_singleton, lookup_fmap, fmap_is_Some.
    destruct (decide (n = ready)) as [->|Hne]; [rewrite Hready; naive_solver|].
    rewrite lookup_delete_ne by done. naive_solver.
  - intros n [Hin| ->%list_elem_of_singleton]%elem_of_app; rewrite lookup_fmap, fmap_None.
    + destruct (decide (n = ready)) as [->|Hne]; [by rewrite lookup_delete_eq|].
      rewrite lookup_delete_ne by done. by apply Hdisj.
    + by rewrite lookup_delete_eq.
  - intros n ds. rewrite lookup_fmap, fmap_Some. intros (ds' & Hn & ->).
    apply lookup_delete_Some in Hn as [Hne Hn]. destruct (Hdeps n ds' Hn) as (d0 & HD & ->).
    exists d0. split; [done|]. rewrite list_to_set_app_L. set_solver.
  - intros i n ds Hi HD. apply lookup_app_Some in Hi as [Hi|[Hlen Hi]].
    + rewrite take_app_le by (apply lookup_lt_Some in Hi; lia). by eapply Hresp.
    + destruct (i - length order)%nat eqn:Hd; [|done]. simpl in Hi. injection Hi as <-.
      destruct (Hdeps ready ∅ Hready) as (d0 & HD' & Hempty). rewrite HD in HD'. injection HD' as <-.
      assert (i = length order) as -> by lia. rewrite take_app_length. set_solver.
Qed.

Lemma order_loop_spec fuel remaining order :
  order_inv remaining order → (size remaining ≤ fuel)%nat →
  ∃ r, order_loop fuel remaining order = Some r ∧
    match r with
    | Ok order' => order_inv ∅ order'
    | Err e => e = Compose "service dependency graph contains a cycle" ∧
        ∃ remaining' order', order_inv remaining' order' ∧ remaining' ≠ ∅ ∧
          map_Forall (λ _ ds, ds ≠ ∅) remaining'
    end.
Proof.
  revert remaining order. induction fuel as [|fuel IH]; intros remaining order Hinv Hsize; cbn [order_loop].
  - assert (remaining = ∅) as -> by (apply map_size_empty_inv; lia).
    rewrite bool_decide_true by done. eauto.
  - case_bool_decide as Hempty; [subst; eauto|].
    destruct (find _ (btree_iter remaining)) as [[ready ds]|] eqn:Hfind.
    + apply find_btree_Some in Hfind as [Hready Hds%bool_decide_eq_true]. subst ds.
      apply IH; [by apply order_inv_step|]. rewrite map_size_fmap, map_size_delete, Hready. lia.
    + eexists. split; [done|]. split; [done|]. exists remaining, order. split_and!; [done|done|].
      intros n ds Hn. pose proof (find_btree_None _ _ n ds Hfind Hn) as Hf. by apply bool_decide_eq_false in Hf.
Qed.

Lemma order_inv_init : order_inv D [].
Proof.
  split.
  - constructor.
  - intros n. split; [by right|]. intros [Hin|?]; [by apply not_elem_of_nil in Hin|done].
  - intros n Hin. by apply not_elem_of_nil in Hin.
  - intros n ds Hn. exists ds. split; [done|]. simpl. by rewrite difference_empty_L.
  - intros i n ds Hi. by rewrite lookup_nil in Hi.
Qed.

(** A ranking of the services by which every dependency is smaller. *)
Definition ranked (rank : string → nat) : Prop :=
  ∀ n ds d, D !! n = Some ds → d ∈ ds → is_Some (D !! d) ∧ (rank d < rank n)%nat.

Lemma stuck_not_ranked remaining order rank :
  order_inv remaining order → remaining ≠ ∅ → map_Forall (λ _ ds, ds ≠ ∅) remaining → ¬ ranked rank.
Proof.
  intros [_ Hsplit Hdisj Hdeps _] Hne Hall Hrank.
  assert (∀ k n, (rank n < k)%nat → remaining !! n = None) as Hnone.
  { induction k as [|k IH]; intros n Hn; [lia|]. destruct (remaining !! n) as [ds|] eqn:Hrem; [exfalso|done].
    destruct (set_choose_L ds (Hall n ds Hrem)) as [d Hd].
    destruct (Hdeps n ds Hrem) as (d0 & HD & ->).
    destruct (Hrank n d0 d HD) as [HsomeD Hlt]; [set_solver|].
    apply Hsplit in HsomeD as [Hin|[ds' Hrem']]; [set_solver|].
    rewrite (IH d) in Hrem'; [done|lia]. }
  apply Hne, map_empty. intros n. apply (Hnone (S (rank n))). lia.
Qed.

Lemma order_ranked order : order_inv ∅ order → ∃ rank, ranked rank.
Proof.
  intros Hinv. pose proof (order_nodup _ _ Hinv) as Hnd.
  assert (∀ k x, order !! k = Some x → list_find (x =.) order = Some (k, x)) as Hfind.
  { intros k x Hk. apply list_find_Some. split_and!; [done|done|]. intros j y Hy Hlt ->.
    pose proof (NoDup_lookup _ _ _ _ Hnd Hk Hy). lia. }
  exists (λ n, default 0%nat (fst <$> list_find (n =.) order)). intros n ds d HD Hd.
  assert (n ∈ order) as [i Hi]%list_elem_of_lookup.
  { assert (is_Some (D !! n)) as Hs by eauto. apply (order_split _ _ Hinv) in Hs as [?|[? ?]]; done. }
  pose proof (order_respects _ _ Hinv i n ds Hi HD) as Hsub.
  assert (d ∈ take i order) as [j Hj]%list_elem_of_lookup by set_solver.
  pose proof (lookup_lt_Some _ _ _ Hj) as Hjlt. rewrite length_take in Hjlt. rewrite lookup_take_lt in Hj by lia.
  rewrite (Hfind i n Hi), (Hfind j d Hj). simpl. split; [|lia].
  apply (order_split _ _ Hinv). left. apply list_elem_of_lookup. eauto.
Qed.
End ordering.

Lemma startup_order_sound s order :
  startup_order s = Some (Ok order) → order ≡ₚ btree_keys s ∧ respects (dependency_sets s) order.
Proof.
  intros Hrun. destruct (order_loop_spec (dependency_sets s) (size s) (dependency_sets s) []) as (r & Hrun' & Hr).
  { apply order_inv_init. }
  { unfold dependency_sets. by rewrite map_size_fmap. }
  unfold startup_order in Hrun. rewrite Hrun in Hrun'. injection Hrun' as <-. split; [|apply Hr].
  apply NoDup_Permutation; [apply Hr|apply NoDup_btree_keys|].
  intros n. rewrite elem_of_btree_keys. pose proof (order_split _ _ _ Hr n) as Hs.
  unfold dependency_sets in Hs. rewrite lookup_fmap, fmap_is_Some in Hs.
  rewrite Hs, lookup_empty. split; [by left|]. by intros [?|[? ?]].
Qed.

(** C35: [startup_order] is a topological sort.  It terminates within as many
    rounds as there are services; when it succeeds the list holds every service
    exactly once and after all its dependencies; and it succeeds exactly when
    the dependency graph is acyclic (the services can be ranked so that dependencies,
    all of them services, have smaller rank), otherwise it reports a cycle. *)
Theorem startup_order_correct s :
  let D := dependency_sets s in
  ∃ r, startup_order s = Some r ∧
    (∀ order, r = Ok order → order ≡ₚ btree_keys s ∧ respects D order) ∧
    (∀ e, r = Err e → e = Compose "service dependency graph contains a cycle") ∧
    (is_ok r = true ↔ ∃ rank, ranked D rank).
Proof.
  intros D. destruct (order_loop_spec D (size s) D []) as (r & Hrun & Hr).
  { apply order_inv_init. }
  { unfold D, dependency_sets. by rewrite map_size_fmap. }
  exists r. split; [done|]. destruct r as [order|e].
  - split_and!; [|done|].
    + intros ? [= <-]. by apply startup_order_sound.
    + split; [intros _|done]. by eapply order_ranked.
  - destruct Hr as (-> & remaining' & order' & Hinv & Hne & Hall). split_and!; [done|by intros ? [= <-]|].
    split; [done|]. intros [rank Hrank]. by destruct (stuck_not_ranked D remaining' order' rank Hinv Hne Hall).
Qed.

(** ** Verified locks *)

Section verified.
Context `{TopologyCodec}.
Implicit Types (lock : TopologyLock).

(** What [verify_service_volumes] establishes for one mount. *)
Definition mount_ok lock (v : VolumeSpec) : Prop :=
  Volume.validate v = Ok tt ∧
  volumes lock !! as_str (volume_id v)
    = Some (MkLockedVolume (persistence_class v) (snapshot_policy v) (quota_bytes v) (content_digest v)).

Lemma verify_mount_Ok lock name seen v :
  verify_mount lock name seen v = Ok tt ↔ mount_ok lock v ∧ destination v ∉ seen.
Proof.
  unfold verify_mount, mount_ok. destruct (Volume.validate v) as [[]|]; simpl; [|naive_solver].
  case_bool_decide as Hseen; simpl; [naive_solver|].
  destruct (volumes lock !! _) as [d|] eqn:Hd; simpl; [|naive_solver].
  rewrite reject_if_Ok, !orb_false_iff, !negb_false_iff, !bool_decide_eq_true, Z.eqb_eq.
  destruct d as [c p q g]; simpl. split; [|naive_solver]. intros [[[-> ->] ->] ->]. done.
Qed.

Lemma verify_mounts_Ok lock name seen mounts :
  verify_mounts lock name seen mounts = Ok tt ↔
  Forall (mount_ok lock) mounts ∧ NoDup (destination <$> mounts) ∧
  Forall (λ v, destination v ∉ seen) mounts.
Proof.
  revert seen. induction mounts as [|v mounts IH]; intros seen; cbn [verify_mounts].
  { split; [|done]. intros _. repeat constructor. }
  destruct (verify_mount lock name seen v) as [[]|] eqn:Hv; simpl.
  - apply verify_mount_Ok in Hv as [Hok Hseen]. rewrite IH, !Forall_cons, NoDup_cons, list_elem_of_fmap.
    setoid_rewrite not_elem_of_cons. rewrite !Forall_forall. naive_solver.
  - split; [done|]. intros ([Hok _]%Forall_cons & _ & [Hseen _]%Forall_cons).
    assert (verify_mount lock name seen v = Ok tt) by (by apply verify_mount_Ok). congruence.
Qed.

Lemma verify_service_volumes_Ok lock :
  verify_service_volumes lock = Ok tt ↔
  map_Forall (λ _ service, length_z (service_volumes service) ≤ 64 ∧
    Forall (mount_ok lock) (service_volumes service) ∧
    NoDup (destination <$> service_volumes service)) (services lock).
Proof.
  unfold verify_service_volumes. rewrite for_each_Ok, Forall_forall.
  assert (∀ name service, (reject_if (64 <? length_z (service_volumes service))
      (Lock ("service `" +:+ name +:+ "` has too many volume mounts"));;
      verify_mounts lock name [] (service_volumes service)) = Ok tt ↔
      length_z (service_volumes service) ≤ 64 ∧ Forall (mount_ok lock) (service_volumes service) ∧
      NoDup (destination <$> service_volumes service)) as Hone.
  { intros name service. destruct (Z.ltb_spec 64 (length_z (service_volumes service))); simpl.
    - split; [done|]. intros [? _]. lia.
    - rewrite verify_mounts_Ok. split; [naive_solver|]. intros (_ & ? & ?). split_and!; [done|done|].
      apply Forall_forall. intros v _. apply not_elem_of_nil. }
  split.
  - intros Hall name service Hs. apply Hone with name. apply (Hall (name, service)). by apply elem_of_btree_iter.
  - intros Hall [name service] Hin. apply Hone. apply (Hall name). by apply elem_of_btree_iter.
Qed.

Lemma verify_lock_total lock : total (verify_lock lock).
Proof.
  unfold verify_lock, map_failure. repeat (apply total_bind; [|intros ? _]); auto with total.
  intros m. pose proof (validate_policy_no_panic (network (policy lock)) (services lock) m) as Hp.
  destruct (validate_policy _ _) as [|[e|m']]; simpl; [done|done|]. intros [= ->]. by apply Hp.
Qed.

Lemma verify_lock_Ok lock :
  verify_lock lock = Ok tt ↔
  lock_schema_version lock = LOCK_SCHEMA_VERSION ∧
  topology_digest_of (digest_input lock) = Ok (topology_digest lock) ∧
  validate_policy (network (policy lock)) (services lock) = Ok tt ∧
  verify_service_volumes lock = Ok tt.
Proof.
  split.
  - unfold verify_lock, map_failure. intros Hv. inv_ok Hv. simpl_guards.
    match goal with H : validate_policy _ _ = Ok ?u |- _ => destruct u end.
    split_and!; first [done|lia|congruence].
  - intros (Hver & Hdig & Hpol & Hvol). unfold verify_lock, map_failure. rewrite Hver, Z.eqb_refl, Hdig. simpl.
    rewrite bool_decide_true by done. simpl. by rewrite Hpol, Hvol.
Qed.

Definition quota_of lock (id : string) : Z := from_option locked_quota 0 (volumes lock !! id).
Lemma sum_quotas_spec lock t ids :
  (∀ id, id ∈ ids → is_Some (volumes lock !! id)) →
  total (sum_quotas lock t ids) ∧
  ∀ q, sum_quotas lock t ids = Ok q → q = t + sum_Z (quota_of lock <$> ids) ∧ (t ≤ u64_max → q ≤ u64_max).
Proof.
  revert t. induction ids as [|id ids IH]; intros t Hids; cbn [sum_quotas].
  { split; [done|]. intros q [= <-]. simpl. split; [lia|done]. }
  destruct (Hids id) as [d Hd]; [set_solver|].
  assert (quota_of lock id = locked_quota d) as Hqd by (unfold quota_of; by rewrite Hd).
  change (sum_Z (quota_of lock <$> id :: ids)) with (quota_of lock id + sum_Z (quota_of lock <$> ids)).
  rewrite Hd, Hqd. unfold expect. simpl ok_or. simpl mbind.
  destruct (checked_add u64_max t (locked_quota d)) as [t'|] eqn:Hadd; simpl mbind; [|done].
  apply checked_add_Some in Hadd as [-> Hle]. destruct (IH (t + locked_quota d)) as [Htot Hq]; [set_solver|].
  split; [done|]. intros q Hrun. apply Hq in Hrun as [? ?]. split; [lia|auto].
Qed.

Lemma mounted_defined lock :
  verify_service_volumes lock = Ok tt → ∀ id, id ∈ mounted_volume_ids lock → is_Some (volumes lock !! id).
Proof.
  intros Hv id. rewrite verify_service_volumes_Ok in Hv. unfold mounted_volume_ids.
  rewrite elem_of_list_to_set, list_elem_of_fmap. intros (v & -> & Hin).
  apply list_elem_of_In, in_concat in Hin as (vs & Hvs & Hin).
  apply list_elem_of_In, list_elem_of_fmap in Hvs as (service & -> & Hs).
  unfold btree_values in Hs. apply list_elem_of_fmap in Hs as ([name service'] & -> & Hs).
  apply elem_of_btree_iter in Hs. destruct (Hv name service' Hs) as (_ & Hok & _).
  rewrite Forall_forall in Hok. apply list_elem_of_In in Hin. destruct (Hok v Hin) as [_ Hdef]. eauto.
Qed.

Lemma volume_resource_usage_spec lock :
  total (volume_resource_usage lock) ∧
  ∀ u, volume_resource_usage lock = Ok u →
    verify_lock lock = Ok tt ∧
    usage_count u = Z.of_nat (size (mounted_volume_ids lock)) ∧
    usage_quota_bytes u = sum_Z (quota_of lock <$> elements (mounted_volume_ids lock)) ∧
    usage_quota_bytes u ≤ u64_max.
Proof.
  unfold volume_resource_usage. destruct (verify_lock lock) as [[]|e] eqn:Hv; simpl.
  - pose proof (proj1 (verify_lock_Ok lock) Hv) as (_ & _ & _ & Hvol).
    destruct (sum_quotas_spec lock 0 (set_iter (mounted_volume_ids lock))) as [Htot Hq].
    { intros id Hid. apply (mounted_defined lock Hvol). unfold set_iter in Hid.
      rewrite merge_sort_Permutation in Hid. by apply elem_of_elements. }
    split; [apply total_bind; [done|auto with total]|]. intros u Hu. inv_ok Hu.
    apply Hq in Hstep as [Hsum Hle]. injection Hu as <-. split_and!; [done|done| |by apply Hle].
    simpl usage_quota_bytes. rewrite Hsum, Z.add_0_l.
    apply sum_Z_perm, fmap_Permutation. apply merge_sort_Permutation.
  - split; [|done]. intros m Hm. injection Hm as ->. by apply (verify_lock_total lock m).
Qed.

(** The volume demand of a lock counts every mounted volume once.
    [volume_resource_usage] never panics (each mount of a verified lock has a definition); when
    it succeeds the lock is verified, the count is the number of distinct
    volumes that some service mounts, and the quota is the sum of their
    definitions' quotas, which fits in 64 bits. *)
Theorem volume_usage_exact lock :
  total (volume_resource_usage lock) ∧
  ∀ u, volume_resource_usage lock = Ok u →
    verify_lock lock = Ok tt ∧
    usage_count u = Z.of_nat (size (mounted_volume_ids lock)) ∧
    usage_quota_bytes u = sum_Z (quota_of lock <$> elements (mounted_volume_ids lock)) ∧
    usage_quota_bytes u ≤ u64_max.
Proof. apply volume_resource_usage_spec. Qed.
End verified.
