(* ===== verification/Compiler.v ===== *)
(** * The topology compiler

    Models [compile] and [lock_compose] of [crates/sandbox-oci/src/compiler.rs]:
    from a decoded Compose file to a topology lock.  The image provider, the
    YAML decoder and the file system are parameters; the compiler threads the
    provider's state through its calls. *)
From S2P Require Import Prelude Identity GuestProfile Volume Network Topology.
Import GuestProfile.GuestProfile Volume.Volume Network.Network Topology.Topology.

Module Compiler.

(** ** The input ([model.rs]) *)

Record VolumeInput : Type := MkVolumeInput {
  in_class : VolumePersistenceClass;
  in_policy : option VolumeSnapshotPolicy;
  in_quota : option Z;
  in_digest : option string
}.

Record ServiceVolumeInput : Type := MkMountInput {
  mount_source : string;
  mount_target : string;
  mount_read_only : option bool
}.

Record NetworkInput : Type := MkNetworkInput { in_internal : option bool; in_driver : option string }.

Record HealthcheckInput : Type := MkHealthInput {
  test : list string;
  in_interval_ms : Z;
  in_timeout_ms : Z;
  in_retries : Z
}.

Record ServiceInput : Type := MkServiceInput {
  in_image : string;
  in_command : list string;
  in_entrypoint : list string;
  in_environment : gmap string string;
  in_depends_on : gmap string DependencyCondition;
  in_healthcheck : option HealthcheckInput;
  in_service_networks : list string;
  in_working_dir : option string;
  in_read_only : option bool;
  in_mounts : list ServiceVolumeInput
}.

Record ComposeInput : Type := MkCompose {
  in_name : option string;
  in_services : gmap string ServiceInput;
  in_networks : gmap string NetworkInput;
  in_volumes : gmap string VolumeInput;
  in_guest_profile : option string;
  in_network_policy : NetworkPolicy
}.

(** ** Checks on values *)

Definition compose_byte (c : ascii) : bool :=
  is_ascii_lowercase c || is_ascii_digit c || is_byte "-" c || is_byte "_" c.

Definition validate_identifier (kind value : string) : result SandboxError () :=
  reject_if (bool_decide (value = EmptyString) || (32 <? len value)
             || negb (all_bytes compose_byte value)
             || negb (match first_byte value with Some b => is_ascii_lowercase b | None => false end))
    (Compose (kind +:+ " `" +:+ value +:+ "` is not a bounded lowercase identifier")).

Definition validate_value (kind value : string) : result SandboxError () :=
  reject_if (bool_decide (value = EmptyString) || (MAX_VALUE_BYTES <? len value)
             || bool_decide (ascii_of_nat 0 ∈ bytes value))
    (Compose ("invalid " +:+ kind)).

Definition validate_values (kind : string) (values : list string) (maximum : Z) : result SandboxError () :=
  reject_if (maximum <? length_z values) (Compose ("too many " +:+ kind +:+ " values"));;
  for_each (validate_value kind) values.

Definition environment_name_byte (c : ascii) : bool := is_ascii_alphanumeric c || is_byte "_" c.

Definition validate_environment (name value : string) : result SandboxError () :=
  reject_if (bool_decide (name = EmptyString) || (256 <? len name)
             || negb (all_bytes environment_name_byte name)
             || match first_byte name with Some b => is_ascii_digit b | None => false end)
    (Compose ("environment name `" +:+ name +:+ "` is invalid"));;
  validate_value "environment value" value;;
  reject_if (existsb (λ c, is_byte (ascii_of_nat 10) c || is_byte (ascii_of_nat 13) c) (bytes value))
    (Compose ("environment value for `" +:+ name +:+ "` contains a line break")).

Definition image_byte (c : ascii) : bool :=
  is_ascii_alphanumeric c || is_byte "/" c || is_byte "." c || is_byte "_" c || is_byte "-" c
  || is_byte ":" c || is_byte "@" c.

Definition validate_image_reference (value : string) : result SandboxError () :=
  validate_value "image reference" value;;
  reject_if (starts_with "-" value || negb (all_bytes image_byte value))
    (Compose ("image reference `" +:+ value +:+ "` has unsupported syntax")).

(** ** The parts of a topology *)

(** [for (key, value) in input { output.insert(key, f(key, value)?) }]. *)
Fixpoint insert_all {E V W} (f : string → V → result E W) (l : list (string * V)) (m : gmap string W) :
    result E (gmap string W) :=
  match l with
  | [] => mret m
  | (k, v) :: l' => w ← f k v; insert_all f l' (<[k := w]> m)
  end.

Definition compile_volume (name : string) (v : VolumeInput) : result SandboxError LockedVolume :=
  validate_identifier "volume" name;;
  _ ← map_err (λ error, Compose (core_error_to_string error)) (parse name : result CoreError VolumeId);
  let policy :=
    default match in_class v with
            | Persistent => Required
            | Ephemeral => BestEffort
            | Artifact | Secret => Excluded
            end (in_policy v) in
  quota ← match in_class v, in_quota v with
          | Artifact, None => mret 0
          | _, Some quota => mret quota
          | _, None => Err (Compose ("volume `" +:+ name +:+ "` requires an explicit quota_bytes"))
          end;
  mret (MkLockedVolume (in_class v) policy quota (in_digest v)).

Definition compile_network (name : string) (n : NetworkInput) : result SandboxError LockedNetwork :=
  validate_identifier "network" name;;
  reject_if (bool_decide (in_internal n = Some false))
    (Unsupported ("network `" +:+ name +:+ "` requests external connectivity"));;
  reject_if (match in_driver n with Some d => negb (bool_decide (d = "bridge"%string)) | None => false end)
    (Unsupported ("network `" +:+ name +:+ "` does not use the bridge driver"));;
  mret (MkNetwork true "bridge").

Definition compile_mount (volumes : gmap string LockedVolume) (name : string) (m : ServiceVolumeInput) :
    result SandboxError VolumeSpec :=
  definition ← ok_or
    (Compose ("service `" +:+ name +:+ "` references unknown volume `" +:+ mount_source m +:+ "`"))
    (volumes !! mount_source m);
  read_only ← match locked_class definition with
              | Artifact | Secret =>
                  reject_if (bool_decide (mount_read_only m = Some false))
                    (Compose ("service `" +:+ name +:+ "` requests a writable immutable volume"));;
                  mret true
              | Ephemeral | Persistent => mret (default false (mount_read_only m))
              end;
  id ← map_err (λ error, Compose (core_error_to_string error)) (parse (mount_source m) : result CoreError VolumeId);
  let spec := MkVolume VOLUME_SPEC_VERSION id (mount_target m) read_only (locked_class definition)
                (locked_policy definition) (locked_quota definition) (locked_digest definition) in
  map_err (λ error, Compose (core_error_to_string error)) (Volume.validate spec);;
  mret spec.

Fixpoint compile_mounts (volumes : gmap string LockedVolume) (name : string) (seen : list string)
    (mounts : list ServiceVolumeInput) : result SandboxError (list VolumeSpec) :=
  match mounts with
  | [] => mret []
  | m :: mounts' =>
      spec ← compile_mount volumes name m;
      reject_if (bool_decide (destination spec ∈ seen))
        (Compose ("service `" +:+ name +:+ "` repeats volume destination `" +:+ destination spec +:+ "`"));;
      specs ← compile_mounts volumes name (destination spec :: seen) mounts';
      mret (spec :: specs)
  end.

Fixpoint check_networks (networks : gmap string LockedNetwork) (name : string) (seen : list string)
    (selected : list string) : result SandboxError () :=
  match selected with
  | [] => Ok tt
  | n :: selected' =>
      reject_if (negb (bool_decide (is_Some (networks !! n))))
        (Compose ("service `" +:+ name +:+ "` references unknown network `" +:+ n +:+ "`"));;
      reject_if (bool_decide (n ∈ seen))
        (Compose ("service `" +:+ name +:+ "` repeats network `" +:+ n +:+ "`"));;
      check_networks networks name (n :: seen) selected'
  end.

Definition compile_dependency (service_names : gset string) (name dependency : string)
    (condition : DependencyCondition) : result SandboxError DependencyCondition :=
  reject_if (bool_decide (dependency = name) || negb (bool_decide (dependency ∈ service_names)))
    (Compose ("service `" +:+ name +:+ "` has invalid dependency `" +:+ dependency +:+ "`"));;
  mret condition.

Definition compile_healthcheck (name : string) (h : HealthcheckInput) : result SandboxError LockedHealthcheck :=
  reject_if (negb (bool_decide (head (test h) = Some "CMD"%string)) || (length_z (test h) <? 2))
    (Unsupported ("service `" +:+ name +:+ "` healthcheck must use exec-form `CMD`"));;
  let command := tail (test h) in
  validate_values "healthcheck" command MAX_ARGUMENTS;;
  reject_if ((in_interval_ms h =? 0) || (60000 <? in_interval_ms h) || (in_timeout_ms h =? 0)
             || (60000 <? in_timeout_ms h) || (in_retries h =? 0) || (100 <? in_retries h))
    (Compose ("service `" +:+ name +:+ "` healthcheck bounds are invalid"));;
  mret (MkHealthcheck command (in_interval_ms h) (in_timeout_ms h) (in_retries h)).

(** A service up to the resolution of its image. *)
Definition compile_service (volumes : gmap string LockedVolume) (networks : gmap string LockedNetwork)
    (service_names : gset string) (name : string) (s : ServiceInput) :
    result SandboxError (LockedImage → LockedService) :=
  validate_identifier "service" name;;
  validate_values "command" (in_command s) MAX_ARGUMENTS;;
  validate_values "entrypoint" (in_entrypoint s) MAX_ARGUMENTS;;
  reject_if (MAX_ENVIRONMENT <? Z.of_nat (size (in_environment s)))
    (Compose ("service `" +:+ name +:+ "` has too many environment entries"));;
  for_each (λ '(key, value), validate_environment key value) (btree_iter (in_environment s));;
  let root := if bool_decide (in_read_only s = Some false) then Writable else ReadOnly in
  reject_if (64 <? length_z (in_mounts s))
    (Compose ("service `" +:+ name +:+ "` has too many volume mounts"));;
  mounts ← compile_mounts volumes name [] (in_mounts s);
  let working_dir := default "/work"%string (in_working_dir s) in
  reject_if (negb (starts_with "/" working_dir) || contains ".." working_dir)
    (Compose ("service `" +:+ name +:+ "` working directory must be an absolute normalized path"));;
  validate_value "working directory" working_dir;;
  let selected := match in_service_networks s with [] => ["default"%string] | selected => selected end in
  check_networks networks name [] selected;;
  dependencies ← insert_all (compile_dependency service_names name) (btree_iter (in_depends_on s)) ∅;
  health ← match in_healthcheck s with
           | Some h => h' ← compile_healthcheck name h; mret (Some h')
           | None => mret None
           end;
  validate_image_reference (in_image s);;
  mret (λ image, MkService image (in_command s) (in_entrypoint s) (in_environment s) dependencies health
                   selected working_dir root mounts).

(** The loop that rejects a [service_healthy] dependency on a service without
    a healthcheck. *)
Definition check_health (services : gmap string LockedService) : result (failure SandboxError) () :=
  for_each (λ '(name, service),
      for_each (λ '(dependency, condition),
          if bool_decide (condition = Healthy) then
            target ← expect "index of a service map" (services !! dependency);
            reject_if (bool_decide (healthcheck target = None))
              (Rejected (Compose ("service `" +:+ name +:+ "` requires `" +:+ dependency
                                  +:+ "` to be healthy, but it has no healthcheck")))
          else mret tt)
        (btree_iter (depends_on service)))
    (btree_iter services).

Section code.
Context `{TopologyCodec} {S : Type} (resolve : string → M S SandboxError LockedImage).

Abbreviation C := (M S (failure SandboxError)).

Definition lift {A} (r : result SandboxError A) : C A := M_lift (map_err Rejected r).

Definition resolve_image (reference : string) : C LockedImage :=
  λ s, let '(s', r) := resolve reference s in (s', map_err Rejected r).

Fixpoint compile_services (volumes : gmap string LockedVolume) (networks : gmap string LockedNetwork)
    (service_names : gset string) (l : list (string * ServiceInput)) (m : gmap string LockedService) :
    C (gmap string LockedService) :=
  match l with
  | [] => mret m
  | (name, service) :: l' =>
      build ← lift (compile_service volumes networks service_names name service);
      image ← resolve_image (in_image service);
      compile_services volumes networks service_names l' (<[name := build image]> m)
  end.

Definition compile (input : ComposeInput) : C TopologyLock :=
  name ← lift (ok_or (Compose "top-level `name` is required") (in_name input));
  lift (validate_identifier "topology name" name);;
  lift (reject_if (bool_decide (in_services input = ∅) || (MAX_SERVICES <? Z.of_nat (size (in_services input))))
    (Compose ("service count must be between 1 and " +:+ to_string MAX_SERVICES)));;
  lift (reject_if (MAX_VOLUMES <? Z.of_nat (size (in_volumes input)))
    (Compose ("volume count exceeds " +:+ to_string MAX_VOLUMES)));;
  volumes ← lift (insert_all compile_volume (btree_iter (in_volumes input)) ∅);
  let network_inputs :=
    if bool_decide (in_networks input = ∅) then {["default"%string := MkNetworkInput None None]}
    else in_networks input in
  lift (reject_if (MAX_NETWORKS <? Z.of_nat (size network_inputs))
    (Compose ("network count exceeds " +:+ to_string MAX_NETWORKS)));;
  networks ← lift (insert_all compile_network (btree_iter network_inputs) ∅);
  services ← compile_services volumes networks (dom (in_services input)) (btree_iter (in_services input)) ∅;
  M_lift (check_health services);;
  order ← lift (from_option id (Err (Compose "service dependency graph contains a cycle")) (startup_order services));
  profile ← lift (map_err (λ error, Compose (core_error_to_string error))
    (profile_parse (default STRICT_GUEST_PROFILE (in_guest_profile input))));
  lift (reject_if (bool_decide (reviewed profile = None))
    (Unsupported ("guest profile `" +:+ canonical profile +:+ "` is not supported by this topology schema")));;
  let policy := default_policy profile (in_network_policy input) in
  let lock := MkLock LOCK_SCHEMA_VERSION EmptyString name services networks volumes order policy in
  M_lift (map_failure Compose (validate_policy (network policy) services));;
  digest ← lift (topology_digest_of (digest_input lock));
  mret (MkLock LOCK_SCHEMA_VERSION digest name services networks volumes order policy).
End code.

(** ** [lock_compose]

    [provider] is [ImageProvider::resolve] with a fixed credential; the closure
    passed to [compile] remembers the images it resolved. *)
Section lock_compose.
Context `{TopologyCodec} {P : Type} (provider : string → M P SandboxError LockedImage).
Context (from_yaml : list ascii → result string ComposeInput).

Definition resolve_cached (reference : string) : M (gmap string LockedImage * P) SandboxError LockedImage :=
  λ '(resolved, p),
    match resolved !! reference with
    | Some image => ((resolved, p), Ok image)
    | None =>
        match provider reference p with
        | (p', Ok image) => ((<[reference := image]> resolved, p'), Ok image)
        | (p', Err error) => ((resolved, p'), Err error)
        end
    end.

(** [contents] is what [fs::read] returned. *)
Definition lock_compose (contents : result SandboxError (list ascii)) :
    M (gmap string LockedImage * P) (failure SandboxError) TopologyLock :=
  bytes ← lift contents;
  lift (reject_if (1024 * 1024 <? length_z bytes) (Compose "Compose input exceeds 1 MiB"));;
  input ← lift (map_err Compose (from_yaml bytes));
  compile resolve_cached input.
End lock_compose.

End Compiler.
Import Compiler.

(** ** What a compiled topology satisfies *)

Lemma insert_all_spec {E V W} (f : string → V → result E W) l m m' :
  NoDup l.*1 → insert_all f l m = Ok m' →
  ∀ k w, m' !! k = Some w ↔
    (∃ v, (k, v) ∈ l ∧ f k v = Ok w) ∨ ((k ∉ l.*1) ∧ m !! k = Some w).
Proof.
  revert m. induction l as [|[k0 v0] l IH]; intros m Hnd Hrun; cbn [insert_all] in Hrun.
  { injection Hrun as <-. set_solver. }
  apply NoDup_cons in Hnd as [Hk0 Hnd]. inv_ok Hrun. intros k w. rewrite (IH _ Hnd Hrun).
  csimpl. rewrite not_elem_of_cons. setoid_rewrite elem_of_cons.
  destruct (decide (k = k0)) as [->|Hne].
  - rewrite lookup_insert_eq. split.
    + intros [(v & Hin & _)|[_ [= <-]]]; [destruct Hk0; apply list_elem_of_fmap; by exists (k0, v)|].
      left. exists v0. auto.
    + intros [(v & [[= ->]|Hin] & Hf)|[[? _] _]]; [right| |done].
      * split; [done|]. congruence.
      * destruct Hk0. apply list_elem_of_fmap. by exists (k0, v).
  - rewrite lookup_insert_ne by done. naive_solver.
Qed.

Definition definition_of (v : VolumeSpec) : LockedVolume :=
  MkLockedVolume (persistence_class v) (snapshot_policy v) (quota_bytes v) (content_digest v).

(** A mount agrees with its definition, and an immutable class is read-only. *)
Definition mount_compiled (volumes : gmap string LockedVolume) (v : VolumeSpec) : Prop :=
  Volume.validate v = Ok tt ∧ volumes !! as_str (volume_id v) = Some (definition_of v).

Lemma compile_mount_Ok volumes name m spec :
  compile_mount volumes name m = Ok spec → mount_compiled volumes spec.
Proof.
  unfold compile_mount. intros Hrun.
  destruct (volumes !! mount_source m) as [d|] eqn:Hd; [|done]. simpl in Hrun.
  inv_ok Hrun. apply map_err_Ok in Hstep0, Hstep1. injection Hrun as <-.
  destruct a1. split; [done|]. simpl. apply parse_Ok in Hstep0. rewrite Hstep0, Hd. by destruct d.
Qed.

Lemma compile_mounts_Ok volumes name seen mounts specs :
  compile_mounts volumes name seen mounts = Ok specs →
  length specs = length mounts ∧ Forall (mount_compiled volumes) specs ∧
  NoDup (destination <$> specs) ∧ Forall (λ v, destination v ∉ seen) specs.
Proof.
  revert seen specs. induction mounts as [|m mounts IH]; intros seen specs Hrun; cbn [compile_mounts] in Hrun.
  { injection Hrun as <-. split_and!; [done|constructor..]. }
  inv_ok Hrun. injection Hrun as <-. apply compile_mount_Ok in Hstep.
  apply reject_if_Ok, bool_decide_eq_false in Hstep0.
  destruct (IH _ _ Hstep1) as (Hlen & Hok & Hnd & Hseen). rewrite Forall_forall in Hseen.
  split_and!; [simpl; by f_equal|by constructor| |].
  - csimpl. apply NoDup_cons. split; [|done]. intros (v & Heq & Hin)%list_elem_of_fmap.
    apply (Hseen v Hin). rewrite Heq. set_solver.
  - constructor; [done|]. apply Forall_forall. intros v Hin Hv. apply (Hseen v Hin). set_solver.
Qed.

Lemma check_networks_Ok networks name seen selected :
  check_networks networks name seen selected = Ok tt →
  Forall (λ n, is_Some (networks !! n)) selected ∧ NoDup selected ∧ Forall (λ n, n ∉ seen) selected.
Proof.
  revert seen. induction selected as [|n selected IH]; intros seen Hrun; cbn [check_networks] in Hrun.
  { split_and!; constructor. }
  inv_ok Hrun. simpl_guards. destruct (IH _ Hrun) as (Hin & Hnd & Hseen). rewrite Forall_forall in Hseen.
  split_and!; [by constructor| |].
  - apply NoDup_cons. split; [|done]. intros Hn. apply (Hseen n Hn). set_solver.
  - constructor; [done|]. apply Forall_forall. intros x Hx Hs. apply (Hseen x Hx). set_solver.
Qed.

(** What the compiler guarantees for one service. *)
Record service_compiled (volumes : gmap string LockedVolume) (networks : gmap string LockedNetwork)
    (names : gset string) (name : string) (s : LockedService) : Prop := ServiceCompiled {
  compiled_mounts : length_z (service_volumes s) ≤ 64 ∧ Forall (mount_compiled volumes) (service_volumes s) ∧
    NoDup (destination <$> service_volumes s);
  compiled_networks : Forall (λ n, is_Some (networks !! n)) (service_networks s) ∧ NoDup (service_networks s);
  compiled_dependencies : ∀ d, is_Some (depends_on s !! d) → d ∈ names ∧ d ≠ name
}.

Lemma compile_service_Ok volumes networks names name s build image :
  compile_service volumes networks names name s = Ok build →
  service_compiled volumes networks names name (build image).
Proof.
  unfold compile_service. intros Hrun. inv_ok Hrun. injection Hrun as <-.
  repeat match goal with
  | H : compile_mounts _ _ _ _ = Ok _ |- _ => apply compile_mounts_Ok in H as (Hlen & Hok & Hnd & _)
  | H : check_networks _ _ _ _ = Ok ?u |- _ => destruct u; apply check_networks_Ok in H as (Hnet & Hnnd & _)
  | H : reject_if (64 <? _) _ = Ok _ |- _ => apply reject_if_Ok, Z.ltb_ge in H
  end.
  split; simpl.
  - split_and!; [by rewrite Hlen|done|done].
  - by split.
  - match goal with H : insert_all _ _ _ = Ok _ |- _ =>
      intros d [c Hc]; apply (insert_all_spec _ _ _ _ (NoDup_btree_keys _) H) in Hc end.
    destruct Hc as [(c' & _ & Hdep)|[_ Hempty]]; [|by rewrite lookup_empty in Hempty].
    unfold compile_dependency in Hdep. inv_ok Hdep. simpl_guards. done.
Qed.

Section compiled.
Context `{TopologyCodec} {S : Type} (resolve : string → M S SandboxError LockedImage).

Lemma lift_Ok {A} (r : result SandboxError A) (s s' : S) a :
  lift r s = (s', Ok a) ↔ s' = s ∧ r = Ok a.
Proof. unfold lift, M_lift. destruct r; simpl; naive_solver. Qed.

Lemma compile_services_spec volumes networks names l m s s' m' :
  NoDup l.*1 → compile_services resolve volumes networks names l m s = (s', Ok m') →
  (∀ k svc, m' !! k = Some svc →
     service_compiled volumes networks names k svc ∨ ((k ∉ l.*1) ∧ m !! k = Some svc)) ∧
  dom m' = dom m ∪ list_to_set l.*1.
Proof.
  revert m s. induction l as [|[name input] l IH]; intros m s Hnd Hrun; cbn [compile_services] in Hrun.
  { cbv [mret M_ret] in Hrun. injection Hrun as <- <-. split; [|set_solver]. intros k svc Hk. right. set_solver. }
  apply NoDup_cons in Hnd as [Hname Hnd]. inv_ok Hrun. apply lift_Ok in Hstep as [-> Hbuild].
  destruct (IH _ _ Hnd Hrun) as [Hall Hdom]. split.
  - intros k svc Hk. destruct (Hall k svc Hk) as [Hc|[Hk' Hm]]; [by left|].
    destruct (decide (k = name)) as [->|Hne].
    + rewrite lookup_insert_eq in Hm. injection Hm as <-. left. by eapply compile_service_Ok.
    + rewrite lookup_insert_ne in Hm by done. right. csimpl. set_solver.
  - rewrite Hdom, dom_insert_L. csimpl. set_solver.
Qed.

(** Facts about a compiled lock beyond [verify_lock]. *)
Record compiled_wf (lock : TopologyLock) : Prop := CompiledWf {
  wf_count : 1 ≤ Z.of_nat (size (services lock)) ≤ MAX_SERVICES;
  wf_networks : map_Forall (λ _ n, n = MkNetwork true "bridge") (networks lock);
  wf_services : map_Forall (service_compiled (volumes lock) (networks lock) (dom (services lock))) (services lock);
  wf_health : ∀ name svc dep, services lock !! name = Some svc → depends_on svc !! dep = Some Healthy →
    ∃ target, services lock !! dep = Some target ∧ is_Some (healthcheck target);
  wf_order : lock_startup_order lock ≡ₚ btree_keys (services lock) ∧
    respects (dependency_sets (services lock)) (lock_startup_order lock);
  wf_profile : is_Some (reviewed (guest_profile (policy lock)))
}.

Lemma check_health_Ok (m : gmap string LockedService) :
  check_health m = Ok tt → ∀ name svc dep, m !! name = Some svc → depends_on svc !! dep = Some Healthy →
    ∃ target, m !! dep = Some target ∧ is_Some (healthcheck target).
Proof.
  unfold check_health. rewrite for_each_Ok, Forall_forall. intros Hall name svc dep Hm Hdep.
  specialize (Hall (name, svc)). rewrite elem_of_btree_iter in Hall. specialize (Hall Hm). simpl in Hall.
  rewrite for_each_Ok, Forall_forall in Hall. specialize (Hall (dep, Healthy)).
  rewrite elem_of_btree_iter in Hall. specialize (Hall Hdep). simpl in Hall.
  destruct (m !! dep) as [target|]; [|done]. simpl in Hall. apply reject_if_Ok, bool_decide_eq_false in Hall.
  exists target. split; [done|]. by apply not_eq_None_Some.
Qed.

Lemma startup_order_Ok (m : gmap string LockedService) order :
  from_option id (Err (Compose "service dependency graph contains a cycle")) (startup_order m) = Ok order →
  order ≡ₚ btree_keys m ∧ respects (dependency_sets m) order.
Proof.
  destruct (startup_order m) as [r|] eqn:Hr; [|done]. simpl. intros ->.
  by apply startup_order_sound.
Qed.

Lemma mounts_verified (lock : TopologyLock) :
  map_Forall (service_compiled (volumes lock) (networks lock) (dom (services lock))) (services lock) →
  verify_service_volumes lock = Ok tt.
Proof.
  intros Hall. apply verify_service_volumes_Ok. intros name svc Hs.
  destruct (compiled_mounts _ _ _ _ _ (Hall name svc Hs)) as (Hlen & Hok & Hnd). by split_and!.
Qed.

(** A topology that compiles is one that the daemon accepts.  For every
    input and every image provider, if [compile] succeeds then [verify_lock]
    accepts its result, and in it: there are between 1 and 32 services; every
    network is internal; every mount is valid, agrees with its volume
    definition and has its own destination; every dependency is another service, started earlier in
    the order and with a healthcheck where its health is awaited; the guest
    profile is a reviewed one. *)
Theorem compile_produces_verified_lock input s s' lock :
  compile resolve input s = (s', Ok lock) → verify_lock lock = Ok tt ∧ compiled_wf lock.
Proof.
  unfold compile. intros Hrun. inv_ok Hrun.
  repeat match goal with H : lift _ _ = _ |- _ => apply lift_Ok in H as [-> H] end.
  repeat match goal with H : M_lift _ _ = _ |- _ => unfold M_lift in H; injection H as -> H end.
  injection Hrun as <- <-.
  match goal with H : compile_services _ _ _ _ _ _ _ = _ |- _ =>
    apply compile_services_spec in H as [Hsvc Hdom]; [|apply NoDup_btree_keys] end.
  match type of Hdom with dom ?m = _ => rename m into svcs end.
  assert (dom svcs = dom (in_services input)) as Hdom'.
  { rewrite Hdom. apply set_eq. intros k. rewrite elem_of_union, elem_of_list_to_set, dom_empty_L, elem_of_dom.
    rewrite <- elem_of_btree_keys. set_solver. }
  match type of Hsvc with ∀ _ _, _ → service_compiled ?v ?n _ _ _ ∨ _ =>
    assert (map_Forall (service_compiled v n (dom svcs)) svcs) as Hall end.
  { intros k svc Hk. rewrite Hdom'. destruct (Hsvc k svc Hk) as [?|[_ He]]; [done|by rewrite lookup_empty in He]. }
  split.
  - apply verify_lock_Ok. split_and!; [done|done| |by apply mounts_verified].
    simpl. by destruct (validate_policy (in_network_policy input) svcs) as [[]|].
  - split; simpl.
    + assert (size svcs = size (in_services input)) as Hsize by (rewrite <- !size_dom; by rewrite Hdom').
      rewrite Hsize. match goal with H : reject_if (_ || _) _ = Ok _ |- _ =>
        apply reject_if_Ok, orb_false_iff in H as [Hne%bool_decide_eq_false Hle%Z.ltb_ge] end.
      assert (size (in_services input) ≠ 0%nat) by (by intros ?%map_size_empty_inv). lia.
    + intros k n Hk. match goal with H : insert_all compile_network _ _ = Ok _ |- _ => rename H into Hnet end.
      apply (insert_all_spec _ _ _ _ (NoDup_btree_keys _) Hnet) in Hk.
      destruct Hk as [(v & _ & Hn)|[_ He]]; [|by rewrite lookup_empty in He].
      unfold compile_network in Hn. inv_ok Hn. by injection Hn as <-.
    + done.
    + match goal with H : check_health _ = Ok ?u |- _ => destruct u; exact (check_health_Ok _ H) end.
    + by apply startup_order_Ok.
    + match goal with H : reject_if (bool_decide (reviewed _ = None)) _ = Ok _ |- _ =>
        apply reject_if_Ok, bool_decide_eq_false in H; by apply not_eq_None_Some end.
Qed.
End compiled.

(** ** Images are resolved once *)

(** A provider that also records its calls. *)
Definition logged {P} (provider : string → M P SandboxError LockedImage) :
    string → M (P * list string) SandboxError LockedImage :=
  λ reference '(p, calls), let '(p', r) := provider reference p in ((p', calls ++ [reference]), r).

Section resolved.
Context `{TopologyCodec} {P : Type} (provider : string → M P SandboxError LockedImage).

Abbreviation state := (gmap string LockedImage * (P * list string))%type.
Abbreviation resolve := (resolve_cached (logged provider)).
Implicit Types (s : state).

Definition cache_of s : gmap string LockedImage := s.1.
Definition calls_of s : list string := s.2.2.

(** Every call is for a reference that the cache did not hold. *)
Definition cached s : Prop := NoDup (calls_of s) ∧ ∀ r, r ∈ calls_of s → is_Some (cache_of s !! r).

Lemma resolve_image_spec reference s s' r :
  cached s → resolve_image resolve reference s = (s', r) →
  cache_of s ⊆ cache_of s' ∧ NoDup (calls_of s') ∧
  ∀ image, r = Ok image → cached s' ∧ cache_of s' !! reference = Some image.
Proof.
  intros [Hnd Hin] Hrun. unfold resolve_image, resolve_cached, logged in Hrun.
  destruct s as [cache [p calls]]; unfold cached, calls_of, cache_of in *; simpl in *.
  destruct (cache !! reference) as [image|] eqn:Hc.
  { injection Hrun as <- <-. simpl. split_and!; [done|done|]. intros ? [= <-]. done. }
  assert (NoDup (calls ++ [reference])) as Hnd'.
  { apply NoDup_app. split_and!; [done| |apply NoDup_singleton]. intros x Hx ->%list_elem_of_singleton.
    destruct (Hin reference Hx). congruence. }
  destruct (provider reference p) as [p' [image|error]]; injection Hrun as <- <-; simpl.
  - split_and!; [by apply insert_subseteq|done|]. intros ? [= <-]. rewrite lookup_insert_eq.
    split; [|done]. split; [done|]. intros x Hx. destruct (decide (x = reference)) as [->|Hne].
    + rewrite lookup_insert_eq. eauto.
    + rewrite lookup_insert_ne by done. apply Hin. set_solver.
  - split_and!; done.
Qed.

Lemma compile_service_image volumes networks names name i build image :
  compile_service volumes networks names name i = Ok build → Topology.image (build image) = image.
Proof. unfold compile_service. intros Hrun. inv_ok Hrun. by injection Hrun as <-. Qed.

Lemma compile_services_cached volumes networks names l m s s' r :
  NoDup l.*1 → cached s → compile_services resolve volumes networks names l m s = (s', r) →
  NoDup (calls_of s') ∧ cache_of s ⊆ cache_of s' ∧
  ∀ m', r = Ok m' →
    (∀ name, name ∉ l.*1 → m' !! name = m !! name) ∧
    ∀ name i, (name, i) ∈ l →
    ∃ svc, m' !! name = Some svc ∧ cache_of s' !! in_image i = Some (Topology.image svc).
Proof.
  revert m s. induction l as [|[name input] l IH]; intros m s Hnd Hs Hrun; cbn [compile_services] in Hrun.
  { cbv [mret M_ret] in Hrun. injection Hrun as <- <-. destruct Hs. split_and!; [done|done|].
    intros m' [= <-]. split; [done|]. intros ? ? Hin. by apply not_elem_of_nil in Hin. }
  apply NoDup_cons in Hnd as [Hname Hnd].
  unfold mbind at 1, M_bind at 1, lift, M_lift in Hrun.
  destruct (compile_service volumes networks names name input) as [build|e] eqn:Hb; simpl in Hrun.
  2:{ injection Hrun as <- <-. destruct Hs. by split_and!. }
  unfold mbind, M_bind in Hrun. destruct (resolve_image resolve (in_image input) s) as [s1 [image|e]] eqn:Hr.
  - destruct (resolve_image_spec _ _ _ _ Hs Hr) as (Hsub & _ & Hok). destruct (Hok image eq_refl) as [Hs1 Himage].
    destruct (IH _ _ Hnd Hs1 Hrun) as (Hnd' & Hsub' & Hm'). split_and!; [done|by etrans|].
    intros m' ->. destruct (Hm' m' eq_refl) as [Hother Hin]. split.
    + intros n Hn. rewrite Hother by set_solver. csimpl. rewrite lookup_insert_ne by set_solver. done.
    + intros n i [[= -> ->]|Hn]%elem_of_cons; [|by apply Hin].
      exists (build image). rewrite Hother, lookup_insert_eq by done. split; [done|].
      rewrite (compile_service_image _ _ _ _ _ _ image Hb). by eapply lookup_weaken.
  - destruct (resolve_image_spec _ _ _ _ Hs Hr) as (Hsub & Hnd' & _). injection Hrun as <- <-. by split_and!.
Qed.

Lemma bind_lift {A B} (r : result SandboxError A) (f : A → M state (failure SandboxError) B) s :
  (lift r ≫= f) s = match r with Ok a => f a s | Err e => (s, Err (Rejected e)) end.
Proof. by destruct r. Qed.

Lemma bind_M_lift {A B} (r : result (failure SandboxError) A) (f : A → M state (failure SandboxError) B) s :
  (M_lift r ≫= f) s = match r with Ok a => f a s | Err e => (s, Err e) end.
Proof. by destruct r. Qed.

Ltac step_lift Hrun Hs :=
  first [rewrite bind_lift in Hrun | rewrite bind_M_lift in Hrun];
  match type of Hrun with
  | match ?r with Ok _ => _ | Err _ => _ end = _ =>
      destruct r; [|injection Hrun as <- <-; destruct Hs; by split]
  end.

Lemma compile_cached input s s' r :
  cached s → compile resolve input s = (s', r) →
  NoDup (calls_of s') ∧
  ∀ lock, r = Ok lock → ∀ name i svc,
    in_services input !! name = Some i → services lock !! name = Some svc →
    cache_of s' !! in_image i = Some (Topology.image svc).
Proof.
  intros Hs Hrun. unfold compile in Hrun. do 7 step_lift Hrun Hs.
  unfold mbind at 1, M_bind at 1 in Hrun.
  destruct (compile_services _ _ _ _ _ _ s) as [s1 r1] eqn:Hsvc.
  apply compile_services_cached in Hsvc as (Hnd & _ & Hm); [|apply NoDup_btree_keys|done].
  destruct r1 as [m|e]; [|injection Hrun as <- <-; by split].
  destruct (Hm m eq_refl) as [_ Himages].
  assert (s' = s1 ∧ ∀ lock, r = Ok lock → services lock = m) as [-> Hlock].
  { repeat (first [rewrite bind_lift in Hrun | rewrite bind_M_lift in Hrun];
      match type of Hrun with match ?r with Ok _ => _ | Err _ => _ end = _ =>
        destruct r; [|injection Hrun as <- <-; by split] end).
    injection Hrun as <- <-. split; [done|]. by intros ? [= <-]. }
  split; [done|]. intros lock Hr name i svc Hi Hsv. rewrite (Hlock lock Hr) in Hsv.
  destruct (Himages name i) as (svc' & Hsvc' & Hc); [by apply elem_of_btree_iter|]. congruence.
Qed.
End resolved.

(** Every image reference is resolved once, whatever the provider answers.
    In a run of [lock_compose] the provider is called at most once for each
    reference, and in the lock all services that name the same reference carry the
    same image, even if the registry would have answered differently. *)
Theorem images_resolved_once `{TopologyCodec} {P} (provider : string → M P SandboxError LockedImage)
    from_yaml contents p :
  let '((cache, (_, calls)), r) := lock_compose (logged provider) from_yaml contents (∅, (p, [])) in
  NoDup calls ∧
  ∀ bytes input lock, contents = Ok bytes → from_yaml bytes = Ok input → r = Ok lock →
    ∀ name i svc, in_services input !! name = Some i → services lock !! name = Some svc →
      cache !! in_image i = Some (Topology.image svc).
Proof.
  destruct (lock_compose _ _ _ _) as [[cache [p' calls]] r] eqn:Hrun. unfold lock_compose in Hrun.
  assert (cached (P := P) (∅, (p, []))) as Hc.
  { split; [constructor|]. intros x Hx. by apply not_elem_of_nil in Hx. }
  rewrite bind_lift in Hrun. destruct contents as [bytes|e]; [|injection Hrun as <- _ <- <-; split; [constructor|done]].
  rewrite bind_lift in Hrun.
  destruct (reject_if _ _); [|injection Hrun as <- _ <- <-; split; [constructor|done]].
  rewrite bind_lift in Hrun.
  destruct (from_yaml bytes) as [input|e] eqn:Hy; [|injection Hrun as <- _ <- <-; split; [constructor|done]].
  simpl in Hrun. destruct (compile_cached _ _ _ _ _ Hc Hrun) as [Hnd Himg]. split; [exact Hnd|].
  intros b i lock [= <-] Hb. rewrite Hy in Hb. injection Hb as <-. apply Himg.
Qed.

(** ** The compiler does not panic *)

Section no_panic.
Context `{TopologyCodec} {S : Type} (resolve : string → M S SandboxError LockedImage).

Lemma total_M_bind {A B} (c : M S (failure SandboxError) A) (f : A → M S (failure SandboxError) B) s :
  total (c s).2 → (∀ a s', c s = (s', Ok a) → total (f a s').2) → total ((c ≫= f) s).2.
Proof.
  unfold mbind, M_bind. destruct (c s) as [s' [a|e]]; simpl.
  - intros _ Hf. by apply Hf.
  - intros Hr _ m [= ->]. by apply (Hr m).
Qed.

Lemma total_lift {A} (r : result SandboxError A) (s : S) : total (lift r s).2.
Proof. by destruct r. Qed.

Lemma compile_services_total volumes networks names l m s :
  total (compile_services resolve volumes networks names l m s).2.
Proof.
  revert m s. induction l as [|[name i] l IH]; intros m s; [done|]. cbn [compile_services].
  apply total_M_bind; [apply total_lift|]. intros build s1 _. apply total_M_bind; [|by intros; apply IH].
  unfold resolve_image. destruct (resolve (in_image i) s1) as [s2 [|]]; done.
Qed.

Lemma check_health_total (m : gmap string LockedService) :
  (∀ name svc d, m !! name = Some svc → is_Some (depends_on svc !! d) → is_Some (m !! d)) → total (check_health m).
Proof.
  intros Hdep. apply total_for_each. intros [name svc] Hs%elem_of_btree_iter.
  apply total_for_each. intros [d condition] Hd%elem_of_btree_iter.
  case_bool_decide; [|done]. destruct (Hdep name svc d Hs) as [target ->]; [eauto|]. simpl. auto with total.
Qed.

(** The compiler never panics: whatever the input and the provider, the
    index into the service map and the [expect]s of the policy validation are
    reached only with a key or a text that is there. *)
Theorem compile_never_panics input s : total (compile resolve input s).2.
Proof.
  unfold compile. do 7 (apply total_M_bind; [apply total_lift|intros ? ? _]).
  apply total_M_bind; [apply compile_services_total|]. intros m s1 Hsvc.
  apply compile_services_spec in Hsvc as [Hall Hdom]; [|apply NoDup_btree_keys].
  apply total_M_bind.
  { apply check_health_total. intros name svc d Hs Hd.
    destruct (Hall name svc Hs) as [Hc|[_ He]]; [|by rewrite lookup_empty in He].
    apply (compiled_dependencies _ _ _ _ _ Hc) in Hd as [Hd _]. rewrite elem_of_dom in Hd.
    apply elem_of_dom. rewrite Hdom, elem_of_union, elem_of_list_to_set. right. by apply elem_of_btree_keys. }
  intros _ s2 _. do 3 (apply total_M_bind; [apply total_lift|intros ? ? _]).
  apply total_M_bind.
  { intros mp. pose proof (validate_policy_no_panic (in_network_policy input) m mp) as Hp.
    unfold M_lift, map_failure. simpl. destruct (validate_policy _ m) as [|[e|m']]; simpl; [done|done|].
    intros [= ->]. by apply Hp. }
  intros _ s4 _. apply total_M_bind; [apply total_lift|done].
Qed.
End no_panic.

(** ** A topology on a concrete encoder *)

#[local] Instance w_topology_codec : TopologyCodec := {
  encode_digest_input _ := Ok [];
  sha256_hex _ := "0000000000000000000000000000000000000000000000000000000000000000"%string
}.

Definition w_descriptor : LockedDescriptor := MkDescriptor "application/json" "sha256:0" 1.
Definition w_image (reference : string) : LockedImage :=
  MkImage reference reference "sha256:0" None w_descriptor w_descriptor [] "linux" "amd64" None.
Definition w_service (deps : gmap string DependencyCondition) (health : option HealthcheckInput)
    (mounts : list ServiceVolumeInput) : ServiceInput :=
  MkServiceInput "example/app" [] [] ∅ deps health [] None None mounts.
Definition w_input : ComposeInput :=
  MkCompose (Some "example"%string)
    {["client"%string := w_service {["server"%string := Healthy]} None [];
      "server"%string := w_service ∅ (Some (MkHealthInput ["CMD"; "/health"] 100 1000 30))
                           [MkMountInput "data" "/var/lib/data" None]]}
    ∅ {["data"%string := MkVolumeInput Persistent None (Some 8388608) None]} None default_network.
Definition w_provider : string → M () SandboxError LockedImage := λ r s, (s, Ok (w_image r)).

Definition w_lock : TopologyLock :=
  match (compile w_provider w_input tt).2 with
  | Ok lock => lock
  | Err _ => MkLock 0 EmptyString EmptyString ∅ ∅ ∅ [] (default_policy (MkProfileId EmptyString 0) default_network)
  end.

Lemma compile_produces_verified_lock_witness :
  compile w_provider w_input tt = (tt, Ok w_lock) ∧
  lock_startup_order w_lock = ["server"; "client"] ∧ verify_lock w_lock = Ok tt ∧ compiled_wf w_lock.
Proof.
  assert (compile w_provider w_input tt = (tt, Ok w_lock)) as Hrun.
  { unfold w_lock. destruct (compile w_provider w_input tt) as [[] r] eqn:Hr. simpl.
    assert (is_ok (compile w_provider w_input tt).2 = true) as Hok by (vm_compute; reflexivity).
    rewrite Hr in Hok. by destruct r. }
  split; [exact Hrun|]. split; [vm_compute; reflexivity|].
  exact (compile_produces_verified_lock w_provider w_input tt tt w_lock Hrun).
Defined.
