(* ===== verification/Specification.v ===== *)
(** * Sandbox specifications

    Models [crates/sandbox-core/src/specification.rs]: the backend-neutral
    description of a sandbox and its validation. *)
From S2P Require Import Prelude Identity GuestProfile Volume.
Import GuestProfile.GuestProfile Volume.Volume.

Module Specification.

Definition SANDBOX_SPEC_VERSION : Z := 2.

Record ContainerImage : Type := MkContainerImage {
  exact_reference : string;
  image_digest : string;
  rootfs_digest : string
}.
Record ContainerDependency : Type := MkDependency { container : ContainerId; requires_healthy : bool }.
Record NetworkSpec : Type := MkNetworkSpec { internal : bool }.
Record ResourceSpec : Type := MkResources {
  memory_bytes : Z;
  cpu_millis : Z;
  guest_processes : Z;
  host_tasks : Z;
  writable_bytes : Z;
  output_bytes : Z
}.
Record ContainerSpec : Type := MkContainer {
  image : ContainerImage;
  argv : list string;
  environment : gmap string string;
  dependencies : list ContainerDependency;
  container_networks : list NetworkId;
  resources : ResourceSpec;
  container_volumes : list VolumeSpec
}.
Record SandboxSpec : Type := MkSpec {
  spec_schema_version : Z;
  spec_digest : string;
  spec_guest_profile : GuestProfileIdentity;
  containers : gmap ContainerId ContainerSpec;
  spec_networks : gmap NetworkId NetworkSpec;
  spec_startup_order : list ContainerId
}.

Definition resources_rejected (r : ResourceSpec) : bool :=
  (memory_bytes r =? 0) || (cpu_millis r =? 0) || (guest_processes r =? 0)
  || (host_tasks r <? guest_processes r) || (writable_bytes r =? 0) || (output_bytes r =? 0).

(** The volume loop; [seen] is the [destinations] set. *)
Fixpoint validate_volumes (id : ContainerId) (seen : list string) (l : list VolumeSpec) : result CoreError () :=
  match l with
  | [] => Ok tt
  | v :: l' =>
      Volume.validate v;;
      reject_if (bool_decide (destination v ∈ seen))
        (InvalidSpecification ("container `" +:+ as_str id +:+ "` repeats a volume destination"));;
      validate_volumes id (destination v :: seen) l'
  end.

Definition validate_container (s : SandboxSpec) (id : ContainerId) (c : ContainerSpec) : result CoreError () :=
  validate_digest "image" (image_digest (image c));;
  validate_digest "rootfs" (rootfs_digest (image c));;
  reject_if (bool_decide (exact_reference (image c) = EmptyString) || bool_decide (argv c = [])
             || (256 <? length_z (argv c)) || (256 <? Z.of_nat (size (environment c))))
    (InvalidSpecification ("container `" +:+ as_str id +:+ "` has invalid image, argv, or environment"));;
  reject_if (resources_rejected (resources c))
    (InvalidSpecification ("container `" +:+ as_str id +:+ "` has invalid resource limits"));;
  reject_if (existsb (λ n, negb (bool_decide (is_Some (spec_networks s !! n)))) (container_networks c))
    (InvalidSpecification ("container `" +:+ as_str id +:+ "` references an unknown network"));;
  reject_if (existsb (λ d, bool_decide (container d = id)
                           || negb (bool_decide (is_Some (containers s !! container d)))) (dependencies c))
    (InvalidSpecification ("container `" +:+ as_str id +:+ "` has an invalid dependency"));;
  validate_volumes id [] (container_volumes c).

(** [startup_order.iter().enumerate().map(|(position, id)| (id, position))]
    collected into a map: a later entry replaces an earlier one. *)
Definition positions (order : list ContainerId) : gmap ContainerId nat :=
  foldl (λ m p, <[p.2 := p.1]> m) ∅ (zip (seq 0 (length order)) order).

Fixpoint any_misplaced (ps : gmap ContainerId nat) (id : ContainerId) (l : list ContainerDependency) :
    result (failure CoreError) bool :=
  match l with
  | [] => mret false
  | d :: l' =>
      before ← expect "no entry found for key" (ps !! container d);
      after ← expect "no entry found for key" (ps !! id);
      if (after <=? before)%nat then mret true else any_misplaced ps id l'
  end.

Definition validate_position (ps : gmap ContainerId nat) (id : ContainerId) (c : ContainerSpec) :
    result (failure CoreError) () :=
  misplaced ← any_misplaced ps id (dependencies c);
  reject_if misplaced
    (Rejected (InvalidSpecification ("container `" +:+ as_str id +:+ "` starts before one of its dependencies"))).

Definition validate_spec (s : SandboxSpec) : result (failure CoreError) () :=
  reject_if (negb (spec_schema_version s =? SANDBOX_SPEC_VERSION))
    (Rejected (InvalidSpecification "unsupported schema version"));;
  map_err Rejected (validate_digest "spec" (spec_digest s));;
  reject_if (negb (match profile_parse (canonical (spec_guest_profile s)) with
                   | Ok p => bool_decide (p = spec_guest_profile s)
                   | Err _ => false
                   end))
    (Rejected (InvalidSpecification "sandbox has an invalid guest profile identity"));;
  reject_if (bool_decide (containers s = ∅) || (64 <? Z.of_nat (size (containers s))))
    (Rejected (InvalidSpecification "sandbox must contain between 1 and 64 containers"));;
  reject_if (16 <? Z.of_nat (size (spec_networks s)))
    (Rejected (InvalidSpecification "sandbox contains more than 16 networks"));;
  let startup : gset ContainerId := list_to_set (spec_startup_order s) in
  reject_if (negb (size startup =? size (containers s))%nat
             || negb (bool_decide (startup = dom (containers s))))
    (Rejected (InvalidSpecification "startup order must contain every container exactly once"));;
  for_each (λ '(id, c), map_err Rejected (validate_container s id c)) (btree_iter (containers s));;
  let ps := positions (spec_startup_order s) in
  for_each (λ '(id, c), validate_position ps id c) (btree_iter (containers s)).

End Specification.
Import Specification.

(** ** Positions *)

Lemma positions_snoc order id : positions (order ++ [id]) = <[id := length order]> (positions order).
Proof.
  unfold positions. rewrite length_app. simpl. rewrite Nat.add_1_r, seq_S. simpl.
  rewrite zip_with_app by (by rewrite length_seq). rewrite foldl_app. done.
Qed.

Lemma positions_lookup order id :
  is_Some (positions order !! id) ↔ id ∈ order.
Proof.
  induction order as [|x order IH] using rev_ind.
  { unfold positions. simpl. rewrite lookup_empty. split; [by intros []|]. by intros ?%not_elem_of_nil. }
  rewrite positions_snoc. destruct (decide (x = id)) as [->|Hne].
  - rewrite lookup_insert_eq. split; [set_solver|eauto].
  - rewrite lookup_insert_ne, IH by done. set_solver.
Qed.

(** The position recorded for a container is that of its last occurrence. *)
Lemma positions_last order id i :
  positions order !! id = Some i → order !! i = Some id ∧ ∀ j, order !! j = Some id → (j ≤ i)%nat.
Proof.
  induction order as [|x order IH] using rev_ind; [done|]. rewrite positions_snoc.
  destruct (decide (x = id)) as [->|Hne].
  - rewrite lookup_insert_eq. intros [= <-]. split; [by rewrite lookup_app_r, Nat.sub_diag by lia|].
    intros j Hj. apply lookup_lt_Some in Hj. rewrite length_app in Hj. simpl in Hj. lia.
  - rewrite lookup_insert_ne by done. intros Hi. destruct (IH Hi) as [Hlook Hlast]. split.
    + apply lookup_app_l_Some. done.
    + intros j [Hj|[_ Hj]]%lookup_app_Some; [by apply Hlast|].
      by apply list_lookup_singleton_Some in Hj as [_ ?].
Qed.

Lemma any_misplaced_spec ps id l :
  is_Some (ps !! id) → (∀ d, d ∈ l → is_Some (ps !! container d)) →
  total (any_misplaced ps id l) ∧
  (any_misplaced ps id l = Ok false →
   ∀ d i j, d ∈ l → ps !! container d = Some i → ps !! id = Some j → (i < j)%nat).
Proof.
  intros [after Hafter]. induction l as [|d l IH]; intros Hl; cbn [any_misplaced].
  { split; [done|]. intros _ d i j Hd. by apply not_elem_of_nil in Hd. }
  destruct (Hl d) as [before Hbefore]; [set_solver|]. rewrite Hbefore, Hafter. simpl.
  destruct IH as [Htot Hok]; [set_solver|].
  destruct (Nat.leb_spec after before) as [Hle|Hlt]; [done|]. split; [done|].
  intros Hrun d' i j [->|Hd']%elem_of_cons Hi [= <-]; [|exact (Hok Hrun d' i after Hd' Hi Hafter)].
  by assert (i = before) as -> by congruence.
Qed.

(** What a valid specification says about the startup order. *)
Record order_wf (s : SandboxSpec) : Prop := OrderWf {
  order_covers id : id ∈ spec_startup_order s ↔ is_Some (containers s !! id);
  order_dependencies id c d : containers s !! id = Some c → d ∈ dependencies c →
    container d ≠ id ∧
    ∃ i j, spec_startup_order s !! i = Some (container d) ∧ spec_startup_order s !! j = Some id ∧ (i < j)%nat ∧
      ∀ i', spec_startup_order s !! i' = Some (container d) → (i' < j)%nat
}.

Lemma validate_container_Ok s id c :
  validate_container s id c = Ok tt →
  ∀ d, d ∈ dependencies c → container d ≠ id ∧ is_Some (containers s !! container d).
Proof.
  unfold validate_container. intros Hv d Hd. inv_ok Hv.
  match goal with H : reject_if (existsb _ (dependencies c)) _ = Ok _ |- _ => apply reject_if_Ok in H; rename H into Hex end.
  assert (bool_decide (container d = id) || negb (bool_decide (is_Some (containers s !! container d))) = false) as Hno.
  { apply not_true_iff_false. intros Ht. apply not_true_iff_false in Hex. destruct Hex. apply existsb_exists.
    exists d. split; [by apply list_elem_of_In|done]. }
  apply orb_false_iff in Hno as [H1%bool_decide_eq_false H2%negb_false_iff%bool_decide_eq_true]. done.
Qed.

Lemma startup_set_spec s :
  negb (size (list_to_set (C := gset ContainerId) (spec_startup_order s)) =? size (containers s))%nat
  || negb (bool_decide (list_to_set (C := gset ContainerId) (spec_startup_order s) = dom (containers s))) = false →
  ∀ id, id ∈ spec_startup_order s ↔ is_Some (containers s !! id).
Proof.
  intros [_ Hset%negb_false_iff%bool_decide_eq_true]%orb_false_iff id.
  rewrite <- elem_of_dom, <- Hset. by rewrite elem_of_list_to_set.
Qed.

Lemma validate_position_spec s id c :
  (∀ id, id ∈ spec_startup_order s ↔ is_Some (containers s !! id)) →
  containers s !! id = Some c → validate_container s id c = Ok tt →
  total (validate_position (positions (spec_startup_order s)) id c) ∧
  (validate_position (positions (spec_startup_order s)) id c = Ok tt →
   ∀ d, d ∈ dependencies c → container d ≠ id ∧
    ∃ i j, spec_startup_order s !! i = Some (container d) ∧ spec_startup_order s !! j = Some id ∧ (i < j)%nat ∧
      ∀ i', spec_startup_order s !! i' = Some (container d) → (i' < j)%nat).
Proof.
  intros Hcov Hc Hv. pose proof (validate_container_Ok s id c Hv) as Hdeps.
  set (ps := positions (spec_startup_order s)).
  assert (is_Some (ps !! id)) as Hid by (apply positions_lookup, Hcov; eauto).
  assert (∀ d, d ∈ dependencies c → is_Some (ps !! container d)) as Hd
    by (intros d Hd; by apply positions_lookup, Hcov, Hdeps).
  destruct (any_misplaced_spec ps id (dependencies c) Hid Hd) as [Htot Hok].
  unfold validate_position. split; [apply total_bind; auto with total|].
  intros Hrun d Hin. inv_ok Hrun. destruct a; [done|]. split; [by apply Hdeps|].
  destruct (Hd d Hin) as [i Hi], Hid as [j Hj]. pose proof (Hok Hstep d i j Hin Hi Hj) as Hlt.
  destruct (positions_last _ _ _ Hi) as [Hi' Hilast], (positions_last _ _ _ Hj) as [Hj' _].
  exists i, j. split_and!; try done. intros i' Hi2. specialize (Hilast i' Hi2). lia.
Qed.

Lemma containers_checked s :
  for_each (λ '(id, c), map_err Rejected (validate_container s id c)) (btree_iter (containers s))
    = Ok (E := failure CoreError) tt →
  ∀ id c, containers s !! id = Some c → validate_container s id c = Ok tt.
Proof.
  rewrite for_each_Ok, Forall_forall. intros Hall id c Hc. specialize (Hall (id, c)).
  rewrite elem_of_btree_iter in Hall. specialize (Hall Hc). simpl in Hall.
  by apply map_err_Ok in Hall.
Qed.

(** Validation of a specification never panics, and what it accepts can be
    started in order: the startup order names exactly the containers, no
    container depends on itself, and every dependency comes before its
    dependent (every occurrence of it before the last of the dependent). *)
Theorem valid_spec_starts_in_order s :
  total (validate_spec s) ∧ (validate_spec s = Ok tt → order_wf s).
Proof.
  split.
  - unfold validate_spec. do 6 (apply total_bind; [auto with total|intros ? ?]).
    match goal with H : reject_if (negb (_ =? _)%nat || _) _ = _ |- _ => 
      pose proof (startup_set_spec s (proj1 (reject_if_Ok _ _ _) H)) as Hcov end.
    apply total_bind; [apply total_for_each; intros [] _; auto with total|]. intros [] Hall.
    pose proof (containers_checked s Hall) as Hchecked.
    apply total_for_each. intros [id c] Hin%elem_of_btree_iter.
    apply (validate_position_spec s id c Hcov Hin). by apply Hchecked.
  - unfold validate_spec. intros Hv. inv_ok Hv.
    match goal with H : reject_if (negb (_ =? _)%nat || _) _ = _ |- _ => 
      pose proof (startup_set_spec s (proj1 (reject_if_Ok _ _ _) H)) as Hcov end.
    match goal with H : for_each _ _ = Ok ?u |- _ => destruct u; pose proof (containers_checked s H) as Hchecked end.
    apply for_each_Ok in Hv. rewrite Forall_forall in Hv.
    split; [exact Hcov|]. intros id c d Hc Hd.
    apply (validate_position_spec s id c Hcov Hc (Hchecked id c Hc)); [|done].
    specialize (Hv (id, c)). rewrite elem_of_btree_iter in Hv. by apply Hv.
Qed.

(** ** A specification that repeats a container *)

Definition w_id : ContainerId := id_lit "app".
Definition w_container : ContainerSpec :=
  MkContainer (MkContainerImage "example/app"
      "sha256:0000000000000000000000000000000000000000000000000000000000000000"
      "sha256:0000000000000000000000000000000000000000000000000000000000000000")
    ["/bin/app"] ∅ [] [] (MkResources 1 1 1 1 1 1) [].
Definition w_spec (order : list ContainerId) : SandboxSpec :=
  MkSpec SANDBOX_SPEC_VERSION "sha256:0000000000000000000000000000000000000000000000000000000000000000"
    (MkProfileId "strict" 1) {[ w_id := w_container ]} ∅ order.

Lemma valid_spec_starts_in_order_witness :
  validate_spec (w_spec [w_id]) = Ok tt ∧ order_wf (w_spec [w_id]).
Proof.
  split; [vm_compute; reflexivity|].
  apply (valid_spec_starts_in_order (w_spec [w_id])). vm_compute; reflexivity.
Defined.

(** The startup order is not checked to name each container once: the
    comparison is between sets, so an order that repeats a container is
    accepted, against the error message that the check reports. *)
Theorem repeated_container_accepted :
  ∃ s, validate_spec s = Ok tt ∧ ¬ NoDup (spec_startup_order s).
Proof.
  exists (w_spec [w_id; w_id]). split; [vm_compute; reflexivity|].
  intros Hnd. apply NoDup_cons in Hnd as [Hn _]. apply Hn. set_solver.
Qed.
