(* ===== verification/Snapshot.v ===== *)
(** * Snapshot manifests

    Models [crates/sandbox-core/src/snapshot.rs] and [backend.rs]: the
    manifest of a captured sandbox, its validation, and the check of a restore
    target against it. *)
From S2P Require Import Prelude Identity Lifecycle GuestProfile Volume.
Import GuestProfile.GuestProfile Volume.Volume.

Module Snapshot.

Definition SNAPSHOT_MANIFEST_VERSION : Z := 4.

Inductive SnapshotMode : Type := Live | StopAndMove.
Inductive BackendKind : Type := Gvisor | MarcoVm.
Inductive ArtifactRole : Type :=
| RuntimeState | MemoryPages | WritableFilesystem | VolumeData | BackendMetadata.

#[global] Instance SnapshotMode_eq_dec : EqDecision SnapshotMode.
Proof. solve_decision. Defined.
#[global] Instance ArtifactRole_eq_dec : EqDecision ArtifactRole.
Proof. solve_decision. Defined.

Record BackendDescriptor : Type := MkBackend {
  kind : BackendKind;
  implementation : string;
  implementation_version : string;
  state_format_version : Z;
  configuration_digest : string
}.

Record SnapshotObject : Type := MkObject {
  name : string;
  role : ArtifactRole;
  object_artifact : ArtifactDescriptor
}.

#[global] Instance SnapshotObject_eq_dec : EqDecision SnapshotObject.
Proof. solve_decision. Defined.

Record RestoreRequirements : Type := MkRequirements {
  architecture : string;
  operating_system : string;
  minimum_backend_version : string;
  required_portability : SnapshotPortability;
  required_cpu_features : list string;
  cpu_features_digest : string;
  preserves_internal_connections : bool;
  required_profile : GuestProfileIdentity
}.

Record RestoreTarget : Type := MkTarget {
  target_tenant : TenantId;
  target_workspace : WorkspaceId;
  target_sandbox : SandboxId;
  target_worker : WorkerId;
  target_epoch : AssignmentEpoch;
  artifact_portability : SnapshotPortability;
  target_profile : GuestProfileIdentity;
  fenced_source_epoch : option AssignmentEpoch
}.

Record SnapshotManifest : Type := MkManifest {
  manifest_schema_version : Z;
  snapshot_id : SnapshotId;
  manifest_tenant : TenantId;
  manifest_workspace : WorkspaceId;
  manifest_sandbox : SandboxId;
  sandbox_spec_digest : string;
  source_worker : WorkerId;
  source_assignment_epoch : Z;
  created_unix_millis : Z;
  captured_from : Lifecycle.LifecycleState;
  restore_state : Lifecycle.LifecycleState;
  mode : SnapshotMode;
  backend : BackendDescriptor;
  restore_requirements : RestoreRequirements;
  manifest_containers : gmap ContainerId (list SnapshotObject);
  sandbox_objects : list SnapshotObject;
  manifest_volumes : gmap VolumeId VolumeSnapshotDescriptor
}.

Definition restorable (s : Lifecycle.LifecycleState) : bool :=
  match s with Lifecycle.Running | Lifecycle.Paused => true | _ => false end.

(** The object loop; [names] is the set of names seen. *)
Fixpoint validate_objects (names : list string) (objects : list SnapshotObject) : result CoreError () :=
  match objects with
  | [] => Ok tt
  | object :: objects' =>
      reject_if (object_name_rejected (name object)) (InvalidSnapshot "snapshot object name is invalid");;
      reject_if (bool_decide (name object ∈ names)) (InvalidSnapshot "snapshot object names must be unique");;
      map_err invalid_snapshot (validate_digest "snapshot object" (digest (object_artifact object)));;
      reject_if ((size_bytes (object_artifact object) =? 0)
                 || bool_decide (media_type (object_artifact object) = EmptyString))
        (InvalidSnapshot "snapshot object metadata is incomplete");;
      validate_objects (name object :: names) objects'
  end.

Definition matches_volume (v : VolumeSnapshotDescriptor) (object : SnapshotObject) : Prop :=
  name object = object_name v ∧ role object = VolumeData ∧ object_artifact object = artifact v.
#[global] Instance matches_volume_dec v object : Decision (matches_volume v object).
Proof. unfold matches_volume. apply _. Defined.

Definition validate_volume (m : SnapshotManifest) (id : VolumeId) (v : VolumeSnapshotDescriptor) :
    result CoreError () :=
  validate_descriptor v;;
  let matching := length (filter (matches_volume v) (sandbox_objects m)) in
  reject_if (negb (matching =? 1)%nat)
    (InvalidSnapshot ("volume `" +:+ as_str id +:+ "` does not reference exactly one volume snapshot object")).

Definition validate_manifest (m : SnapshotManifest) : result CoreError () :=
  reject_if (negb (manifest_schema_version m =? SNAPSHOT_MANIFEST_VERSION))
    (InvalidSnapshot "unsupported schema version");;
  reject_if ((source_assignment_epoch m =? 0) || (created_unix_millis m =? 0))
    (InvalidSnapshot "snapshot provenance is incomplete");;
  map_err invalid_snapshot (validate_digest "backend configuration" (configuration_digest (backend m)));;
  map_err invalid_snapshot (validate_digest "sandbox spec" (sandbox_spec_digest m));;
  map_err invalid_snapshot
    (validate_digest "CPU feature profile" (cpu_features_digest (restore_requirements m)));;
  let profile := required_profile (restore_requirements m) in
  reject_if (negb (match profile_parse (canonical profile) with
                   | Ok p => bool_decide (p = profile)
                   | Err _ => false
                   end))
    (InvalidSnapshot "guest profile identity is invalid");;
  reject_if (negb (restorable (captured_from m)) || negb (restorable (restore_state m)))
    (InvalidSnapshot "snapshot lifecycle state is not restorable");;
  reject_if (negb (bool_decide (operating_system (restore_requirements m) = "linux"%string))
             || bool_decide (architecture (restore_requirements m) = EmptyString)
             || bool_decide (minimum_backend_version (restore_requirements m) = EmptyString))
    (InvalidSnapshot "restore requirements are incomplete");;
  validate_objects [] (concat (btree_values (manifest_containers m)) ++ sandbox_objects m);;
  reject_if (bool_decide (manifest_containers m = ∅)
             || existsb (λ objects, bool_decide (objects = [])) (btree_values (manifest_containers m))
             || bool_decide (sandbox_objects m = []))
    (InvalidSnapshot "snapshot omitted container or sandbox state");;
  for_each (λ '(id, v), validate_volume m id v) (btree_iter (manifest_volumes m));;
  let described := length (filter (λ object, role object = VolumeData) (sandbox_objects m)) in
  reject_if (negb (described =? size (manifest_volumes m))%nat)
    (InvalidSnapshot "volume snapshot objects and descriptors do not match").

Definition validate_restore_target (m : SnapshotManifest) (t : RestoreTarget) : result CoreError () :=
  reject_if (negb (bool_decide (manifest_tenant m = target_tenant t))
             || negb (bool_decide (manifest_workspace m = target_workspace t)))
    (InvalidSnapshot "restore target belongs to another tenant scope");;
  reject_if (negb (bool_decide (required_profile (restore_requirements m) = target_profile t)))
    (InvalidSnapshot "restore target does not install the snapshot guest profile");;
  let moves_worker := negb (bool_decide (source_worker m = target_worker t)) in
  let reuses_identity := bool_decide (manifest_sandbox m = target_sandbox t) in
  (if moves_worker then
     (if bool_decide (mode m = Live) then
        source_epoch ← map_err invalid_snapshot (epoch_new (source_assignment_epoch m));
        reject_if (negb (bool_decide (fenced_source_epoch t = Some source_epoch))
                   || (epoch_get (target_epoch t) <=? epoch_get source_epoch))
          (InvalidSnapshot "live cross-worker restore requires an exact fenced source epoch and a newer destination epoch")
      else Ok tt);;
     reject_if (negb reuses_identity)
       (InvalidSnapshot "cross-worker restore must preserve the sandbox identity");;
     reject_if (negb (permits_cross_worker (required_portability (restore_requirements m)))
                || negb (permits_cross_worker (artifact_portability t)))
       (InvalidSnapshot "snapshot or artifact provider does not permit cross-worker restore");;
     reject_if (existsb (λ v, negb (permits_cross_worker (portability v))) (btree_values (manifest_volumes m)))
       (InvalidSnapshot "a captured volume does not permit cross-worker restore")
   else Ok tt);;
  reject_if (reuses_identity && (epoch_get (target_epoch t) <=? source_assignment_epoch m))
    (InvalidSnapshot "restore must advance the source assignment epoch").

End Snapshot.
Import Snapshot.

(** ** Restore targets *)

(** A live snapshot moves to another worker only with the fence of the epoch that it was captured at. *)
Lemma stale_fence_refused m t :
  mode m = Live → source_worker m ≠ target_worker t →
  epoch_get <$> fenced_source_epoch t ≠ Some (source_assignment_epoch m) →
  ∃ e, validate_restore_target m t = Err e.
Proof.
  intros Hmode Hmove Hfence. destruct (validate_restore_target m t) as [[]|e] eqn:Hrun; [exfalso|by exists e].
  unfold validate_restore_target in Hrun. rewrite !seq_Ok, !guarded_Ok, !seq_Ok, !guarded_Ok in Hrun.
  rewrite negb_true_iff, bool_decide_eq_false, bool_decide_eq_true in Hrun. destruct Hrun as (_ & _ & Hm & _).
  destruct (Hm Hmove) as [Hlive _]. specialize (Hlive Hmode). inv_ok Hlive. apply map_err_Ok, epoch_new_Ok in Hstep.
  apply reject_if_Ok, orb_false_iff in Hlive as [Hf%negb_false_iff%bool_decide_eq_true _].
  apply Hfence. rewrite Hf. simpl. by rewrite Hstep.
Qed.

(** Who may restore a snapshot, and where.  A target is accepted if and only if it
    is in the snapshot's tenant and workspace and installs its guest profile;
    another worker takes over only the same sandbox, with a manifest, an artifact
    store and volumes that may leave the worker, and, for a live snapshot, only
    after the exact source epoch was fenced; and a sandbox that keeps its
    identity always gets a larger epoch than the captured one. *)
Theorem restore_target_iff m t :
  validate_restore_target m t = Ok tt ↔
  manifest_tenant m = target_tenant t ∧ manifest_workspace m = target_workspace t ∧
  required_profile (restore_requirements m) = target_profile t ∧
  (source_worker m ≠ target_worker t →
     manifest_sandbox m = target_sandbox t ∧
     permits_cross_worker (required_portability (restore_requirements m)) = true ∧
     permits_cross_worker (artifact_portability t) = true ∧
     map_Forall (λ _ v, permits_cross_worker (portability v) = true) (manifest_volumes m) ∧
     (mode m = Live → ∃ e, fenced_source_epoch t = Some e ∧ epoch_get e = source_assignment_epoch m)) ∧
  (manifest_sandbox m = target_sandbox t → source_assignment_epoch m < epoch_get (target_epoch t)).
Proof.
  unfold validate_restore_target. rewrite !seq_Ok, !guarded_Ok, !seq_Ok, !guarded_Ok, !reject_if_Ok.
  rewrite !orb_false_iff, !negb_false_iff, !negb_true_iff, !bool_decide_eq_true, !bool_decide_eq_false.
  assert (existsb (λ v, negb (permits_cross_worker (portability v))) (btree_values (manifest_volumes m)) = false
          ↔ map_Forall (λ _ v, permits_cross_worker (portability v) = true) (manifest_volumes m)) as ->.
  { rewrite <- not_true_iff_false, existsb_exists. split.
    - intros Hno k v Hv. apply not_false_iff_true. intros Hf. apply Hno. exists v. rewrite Hf. split; [|done].
      apply list_elem_of_In, elem_of_btree_values. eauto.
    - intros Hall (v & Hin & Hv). apply list_elem_of_In, elem_of_btree_values in Hin as [k Hk].
      by rewrite (Hall k v Hk) in Hv. }
  assert (bool_decide (manifest_sandbox m = target_sandbox t)
            && (epoch_get (target_epoch t) <=? source_assignment_epoch m) = false ↔
          (manifest_sandbox m = target_sandbox t → source_assignment_epoch m < epoch_get (target_epoch t))) as ->.
  { rewrite andb_false_iff, bool_decide_eq_false, Z.leb_gt.
    destruct (decide (manifest_sandbox m = target_sandbox t)); naive_solver. }
  split.
  - intros ([Ht Hw] & Hp & Hmove & Hepoch). split_and!; [done|done|done| |done].
    intros Hne. destruct (Hmove Hne) as (Hlive & Hid & [Hr Ha] & Hv). split_and!; try done.
    intros Hl. specialize (Hlive Hl). inv_ok Hlive. apply map_err_Ok, epoch_new_Ok in Hstep.
    apply reject_if_Ok, orb_false_iff in Hlive as [Hf%negb_false_iff%bool_decide_eq_true _]. eauto.
  - intros (Ht & Hw & Hp & Hmove & Hepoch). split_and!; [done|done|done| |done].
    intros Hne. destruct (Hmove Hne) as (Hid & Hr & Ha & Hv & Hlive). split_and!; try done.
    intros Hl. destruct (Hlive Hl) as (e & Hf & He). rewrite <- He, epoch_new_get. simpl.
    apply reject_if_Ok. rewrite Hf, bool_decide_true by done. specialize (Hepoch Hid). simpl. lia.
Qed.

(** ** Captured volumes *)

Lemma validate_objects_Ok names objects :
  validate_objects names objects = Ok tt →
  NoDup (name <$> objects) ∧ Forall (λ o, name o ∉ names) objects.
Proof.
  revert names. induction objects as [|o objects IH]; intros names Hv; cbn [validate_objects] in Hv.
  { split; constructor. }
  rewrite !seq_Ok, !reject_if_Ok in Hv. destruct Hv as (_ & Hname%bool_decide_eq_false & _ & _ & Hrest).
  destruct (IH _ Hrest) as [Hnd Hnot]. rewrite Forall_forall in Hnot. split.
  - csimpl. apply NoDup_cons. split; [|done]. intros (o' & Heq & Hin)%list_elem_of_fmap.
    apply (Hnot o' Hin). rewrite Heq. set_solver.
  - constructor; [done|]. apply Forall_forall. intros o' Hin Hn. apply (Hnot o' Hin). set_solver.
Qed.

Lemma validate_manifest_Ok m :
  validate_manifest m = Ok tt →
  NoDup (name <$> sandbox_objects m) ∧
  map_Forall (λ id v, validate_volume m id v = Ok tt) (manifest_volumes m) ∧
  length (filter (λ object, role object = VolumeData) (sandbox_objects m)) = size (manifest_volumes m).
Proof.
  unfold validate_manifest. rewrite !seq_Ok, for_each_Ok, Forall_forall. intros Hv. destruct_and!.
  match goal with H : validate_objects _ _ = Ok _ |- _ => apply validate_objects_Ok in H as [Hnd _] end.
  rewrite fmap_app in Hnd. apply NoDup_app in Hnd as (_ & _ & Hnd). split_and!; [done| |].
  - intros id v Hid. match goal with H : ∀ _, _ ∈ btree_iter _ → _ |- _ => apply (H (id, v)) end.
    by apply elem_of_btree_iter.
  - match goal with H : reject_if (negb (_ =? size _)%nat) _ = _ |- _ => apply reject_if_Ok, negb_false_iff in H end.
    by apply Nat.eqb_eq.
Qed.

Lemma validate_volume_Ok m id v :
  validate_volume m id v = Ok tt → ∃ o, o ∈ sandbox_objects m ∧ matches_volume v o.
Proof.
  unfold validate_volume. rewrite seq_Ok, reject_if_Ok, negb_false_iff, Nat.eqb_eq. intros [_ Hlen].
  destruct (filter (matches_volume v) (sandbox_objects m)) as [|o l] eqn:Hf; [done|].
  exists o. assert (o ∈ filter (matches_volume v) (sandbox_objects m)) as Hin by (rewrite Hf; set_solver).
  by apply list_elem_of_filter in Hin as [? ?].
Qed.

Lemma nodup_same_name m o o' :
  NoDup (name <$> sandbox_objects m) → o ∈ sandbox_objects m → o' ∈ sandbox_objects m →
  name o = name o' → o = o'.
Proof.
  intros Hnd [i Hi]%list_elem_of_lookup [j Hj]%list_elem_of_lookup Heq.
  assert (i = j) as ->; [|congruence].
  apply (NoDup_lookup (name <$> sandbox_objects m) i j (name o)); [done|..]; rewrite list_lookup_fmap.
  - by rewrite Hi.
  - by rewrite Hj, Heq.
Qed.

(** Captured volumes and volume objects correspond.  In an accepted
    manifest whose volumes name distinct objects, every volume describes exactly
    one volume object of the snapshot and every volume object is described by
    some volume: nothing captured is left without a descriptor. *)
Theorem volumes_match_objects m :
  validate_manifest m = Ok tt →
  NoDup (object_name <$> btree_values (manifest_volumes m)) →
  (∀ id v, manifest_volumes m !! id = Some v →
     ∃ o, o ∈ sandbox_objects m ∧ ∀ o', o' ∈ sandbox_objects m → matches_volume v o' ↔ o' = o) ∧
  (∀ o, o ∈ sandbox_objects m → role o = VolumeData →
     ∃ id v, manifest_volumes m !! id = Some v ∧ matches_volume v o).
Proof.
  intros (Hnd & Hvol & Hcount)%validate_manifest_Ok Hdistinct. split.
  - intros id v Hid. destruct (validate_volume_Ok m id v (Hvol id v Hid)) as (o & Ho & Hm).
    exists o. split; [done|]. intros o' Ho'. split; [|by intros ->]. intros Hm'.
    apply (nodup_same_name m); [done..|]. destruct Hm as [-> _], Hm' as [-> _]. done.
  - intros o Ho Hrole. set (data := filter (λ object, role object = VolumeData) (sandbox_objects m)) in *.
    assert (o ∈ data) as Hdata by (by apply list_elem_of_filter).
    assert (object_name <$> btree_values (manifest_volumes m) ≡ₚ name <$> data) as Hperm.
    { apply submseteq_length_Permutation.
      - apply NoDup_submseteq; [done|]. intros n (v & -> & Hv)%list_elem_of_fmap.
        apply elem_of_btree_values in Hv as [id Hid].
        destruct (validate_volume_Ok m id v (Hvol id v Hid)) as (o' & Ho' & Hn & Hr & _).
        apply list_elem_of_fmap. exists o'. split; [done|]. by apply list_elem_of_filter.
      - rewrite !length_fmap. unfold btree_values. rewrite length_fmap, btree_iter_perm, length_map_to_list. lia. }
    assert (name o ∈ object_name <$> btree_values (manifest_volumes m)) as Hin.
    { rewrite Hperm. apply list_elem_of_fmap. eauto. }
    apply list_elem_of_fmap in Hin as (v & Heq & Hv). apply elem_of_btree_values in Hv as [id Hid].
    exists id, v. split; [done|]. destruct (validate_volume_Ok m id v (Hvol id v Hid)) as (o' & Ho' & Hm).
    assert (o = o') as ->; [|done]. apply (nodup_same_name m); [done..|]. destruct Hm as [Hn _]. congruence.
Qed.

(** ** Manifests *)

Definition w_digest : string := "sha256:0000000000000000000000000000000000000000000000000000000000000000".
Definition w_artifact : ArtifactDescriptor := MkArtifact w_digest 1 "application/octet-stream".
Definition w_object (n : string) (r : ArtifactRole) : SnapshotObject := MkObject n r w_artifact.
Definition w_volume (n : string) : VolumeSnapshotDescriptor :=
  MkVolumeSnapshot 1 "directory" Persistent CrossBackend n w_artifact.
Definition w_manifest (volumes : gmap VolumeId VolumeSnapshotDescriptor) : SnapshotManifest :=
  MkManifest SNAPSHOT_MANIFEST_VERSION (id_lit "snapshot-a") (id_lit "tenant-a") (id_lit "team-a")
    (id_lit "sandbox-a") w_digest (id_lit "worker-a") 7 1 Lifecycle.Paused Lifecycle.Paused Live
    (MkBackend Gvisor "runsc" "1" 1 w_digest)
    (MkRequirements "amd64" "linux" "1" CrossBackend [] w_digest true (MkProfileId "strict" 1))
    {[ (id_lit "app" : ContainerId) := [w_object "state" RuntimeState] ]}
    [w_object "data-x" VolumeData; w_object "data-y" VolumeData] volumes.
Definition w_volume_a : VolumeId := id_lit "volume-a".
Definition w_volume_b : VolumeId := id_lit "volume-b".

Lemma volumes_match_objects_witness :
  let m := w_manifest {[ w_volume_a := w_volume "data-x"; w_volume_b := w_volume "data-y" ]} in
  validate_manifest m = Ok tt ∧
  ∀ o, o ∈ sandbox_objects m → role o = VolumeData →
     ∃ id v, manifest_volumes m !! id = Some v ∧ matches_volume v o.
Proof.
  split; [vm_compute; reflexivity|].
  refine (proj2 (volumes_match_objects _ _ _)); [vm_compute; reflexivity|].
  assert (object_name <$> btree_values (manifest_volumes
    (w_manifest {[ w_volume_a := w_volume "data-x"; w_volume_b := w_volume "data-y" ]})) = ["data-x"; "data-y"]) as ->
    by (vm_compute; reflexivity).
  by apply (bool_decide_unpack _).
Defined.

(** The manifest check does not enforce that correspondence: each volume
    must match one object and the two counts must agree, so a manifest is
    accepted in which two volumes share an object and another volume object
    has no descriptor at all. *)
Theorem undescribed_volume_object_accepted :
  ∃ m o, validate_manifest m = Ok tt ∧ o ∈ sandbox_objects m ∧ role o = VolumeData ∧
    ∀ id v, manifest_volumes m !! id = Some v → ¬ matches_volume v o.
Proof.
  exists (w_manifest {[ w_volume_a := w_volume "data-x"; w_volume_b := w_volume "data-x" ]}),
    (w_object "data-y" VolumeData).
  split; [vm_compute; reflexivity|]. split; [simpl; set_solver|]. split; [done|].
  intros id v Hv [Hname _]. simpl in Hv.
  apply lookup_insert_Some in Hv as [[_ <-]|[_ Hv]]; [done|].
  apply lookup_singleton_Some in Hv as [_ <-]. done.
Qed.
