(* ===== verification/Envelope.v ===== *)
(** * Artifact envelopes

    Models [crates/sandbox-artifact/src/crypto.rs], with the scope and the
    errors of [model.rs] and [error.rs]: an artifact is described by its digest
    and size, and stored encrypted under a key of its own, which is wrapped
    with a key derived for the tenant.  HKDF, AES-256-GCM with its stream
    construction, SHA-256 and [hex] are parameters.  A file is its contents, or
    the error of reading it; [patience] is the number of times that the
    deadline is checked before it passes. *)
From S2P Require Import Prelude Identity Lifecycle GuestProfile Volume.
Import Volume.Volume.

Module Envelope.

Inductive ArtifactError : Type :=
| Invalid (reason : string)
| AccessDenied (reason : string)
| AlreadyExists (what : string)
| NotFound (what : string)
| Integrity (reason : string)
| Timeout (operation : string)
| Storage (reason : string)
| Io (path source : string).

Record ArtifactScope : Type := MkArtifactScope { scope_tenant : TenantId; scope_workspace : WorkspaceId }.

Definition binding (scope : ArtifactScope) : string :=
  (as_str (scope_tenant scope) +:+ "/" +:+ as_str (scope_workspace scope))%string.

Definition MAGIC : list ascii := bytes "RTARTE01".
Definition FORMAT_VERSION : Z := 1.
Definition CHUNK_BYTES : Z := 1024 * 1024.
Definition WRAP_NONCE_BYTES : nat := 12.
Definition STREAM_NONCE_BYTES : nat := 7.
Definition WRAPPED_KEY_BYTES : nat := 48.
Definition TAG_BYTES : Z := 16.
Definition HEADER_BYTES : Z :=
  8 + 4 * 2 + 8 + Z.of_nat WRAP_NONCE_BYTES + Z.of_nat STREAM_NONCE_BYTES + Z.of_nat WRAPPED_KEY_BYTES.

Definition maximum_envelope_bytes (plaintext_bytes : Z) : result ArtifactError Z :=
  chunks ← ok_or (Invalid "encrypted object size overflow")
    ((λ n, n / CHUNK_BYTES) <$> u64_checked_add plaintext_bytes (CHUNK_BYTES - 1));
  ok_or (Invalid "encrypted object size overflow")
    (n ← u64_checked_add plaintext_bytes (Z.min u64_max (chunks * TAG_BYTES)); u64_checked_add n HEADER_BYTES).

(** [to_be_bytes] and [from_be_bytes] on [n] bytes. *)
Fixpoint be_bytes (n : nat) (z : Z) : list ascii :=
  match n with
  | O => []
  | S n' => be_bytes n' (z / 256) ++ [ascii_of_N (Z.to_N (z mod 256))]
  end.
Definition of_be_bytes (l : list ascii) : Z := foldl (λ z c, z * 256 + code c) 0 l.

Class Cryptography : Type := {
  derive_key : list ascii → string → option (list ascii);
  wrap : list ascii → list ascii → list ascii → list ascii → option (list ascii);
  unwrap : list ascii → list ascii → list ascii → list ascii → option (list ascii);
  encrypt_chunk : list ascii → list ascii → nat → bool → list ascii → list ascii → option (list ascii);
  decrypt_chunk : list ascii → list ascii → nat → bool → list ascii → list ascii → option (list ascii);
  sha256 : list ascii → list ascii;
  hex : list ascii → string
}.

(** The bytes of [OsRng] that an envelope uses. *)
Record Randomness : Type := MkRandomness { data_key : list ascii; wrap_nonce : list ascii; stream_nonce : list ascii }.

Section code.
Context `{Cryptography}.

Definition digest_text (content : list ascii) : string := ("sha256:" +:+ hex (sha256 content))%string.

Definition describe (file : result ArtifactError (list ascii)) (maximum : Z) : result ArtifactError ArtifactDescriptor :=
  content ← file;
  reject_if (maximum <? length_z content) (Invalid "artifact exceeds the object byte limit");;
  reject_if (length_z content =? 0) (Invalid "empty snapshot objects are not publishable");;
  mret (MkArtifact (digest_text content) (length_z content) EmptyString).

Definition newline : string := String (ascii_of_N 10) EmptyString.
Definition associated_data (scope : ArtifactScope) (d : ArtifactDescriptor) : list ascii :=
  bytes ("runtrue-artifact-v1" +:+ newline +:+ binding scope +:+ newline +:+ digest d +:+ newline
         +:+ to_string (size_bytes d) +:+ newline +:+ media_type d).

Definition check_deadline (patience : option nat) (checks : nat) (operation : string) : result ArtifactError () :=
  reject_if (match patience with Some p => (p <=? checks)%nat | None => false end) (Timeout operation).

(** [read_exact]: what is read, and what is left. *)
Definition read_exact (short : ArtifactError) (n : Z) (l : list ascii) : result ArtifactError (list ascii * list ascii) :=
  reject_if (length_z l <? n) short;;
  mret (take (Z.to_nat n) l, drop (Z.to_nat n) l).

(** How often [while remaining > CHUNK_BYTES] runs, and what is left then. *)
Definition full_chunks (size : Z) : nat := Z.to_nat ((size - 1) / CHUNK_BYTES).
Definition last_chunk (size : Z) : Z := size - Z.of_nat (full_chunks size) * CHUNK_BYTES.

Definition unreadable : ArtifactError := Io "source" "failed to fill whole buffer".

(** The loop of [seal]: the chunks written, and the rest of the plaintext. *)
Fixpoint seal_chunks (k : nat) (patience : option nat) (index : nat) (key nonce aad plaintext : list ascii) :
    result ArtifactError (list ascii * list ascii) :=
  match k with
  | O => Ok ([], plaintext)
  | S k' =>
      check_deadline patience (S index) "encrypt snapshot object";;
      '(chunk, rest) ← read_exact unreadable CHUNK_BYTES plaintext;
      ciphertext ← ok_or (Storage "encrypt artifact chunk") (encrypt_chunk key nonce index false aad chunk);
      '(more, rest) ← seal_chunks k' patience (S index) key nonce aad rest;
      mret (ciphertext ++ more, rest)
  end.

Definition header_bytes (plaintext_bytes : Z) (wrap_nonce stream_nonce wrapped : list ascii) : list ascii :=
  MAGIC ++ be_bytes 4 FORMAT_VERSION ++ be_bytes 4 CHUNK_BYTES ++ be_bytes 8 plaintext_bytes
  ++ wrap_nonce ++ stream_nonce ++ wrapped.

(** [seal] on the contents of the source as they are then: the bytes of the envelope. *)
Definition seal (file : result ArtifactError (list ascii)) (scope : ArtifactScope) (d : ArtifactDescriptor) (master : list ascii)
    (random : Randomness) (patience : option nat) : result ArtifactError (list ascii) :=
  check_deadline patience 0 "encrypt snapshot object";;
  plaintext ← file;
  tenant_key ← ok_or (Storage "derive tenant envelope key") (derive_key master (binding scope));
  let aad := associated_data scope d in
  wrapped ← ok_or (Storage "wrap artifact data key") (wrap tenant_key (wrap_nonce random) aad (data_key random));
  reject_if (negb (length wrapped =? WRAPPED_KEY_BYTES)%nat) (Storage "wrapped artifact key has an invalid size");;
  let k := full_chunks (size_bytes d) in
  '(chunks, rest) ← seal_chunks k patience 0 (data_key random) (stream_nonce random) aad plaintext;
  '(chunk, trailing) ← read_exact unreadable (last_chunk (size_bytes d)) rest;
  final ← ok_or (Storage "encrypt final artifact chunk")
    (encrypt_chunk (data_key random) (stream_nonce random) k true aad chunk);
  reject_if (negb (bool_decide (trailing = []))
             || negb (bool_decide (digest_text (take (Z.to_nat (size_bytes d)) plaintext) = digest d)))
    (Integrity "snapshot object changed while it was being encrypted");;
  mret (header_bytes (size_bytes d) (wrap_nonce random) (stream_nonce random) wrapped ++ chunks ++ final).

Record Header : Type := MkHeader {
  plaintext_bytes : Z;
  header_wrap_nonce : list ascii;
  header_stream_nonce : list ascii;
  wrapped_key : list ascii
}.

Definition truncated : ArtifactError := Integrity "encrypted object is truncated".

Definition read_header (input : list ascii) : result ArtifactError (Header * list ascii) :=
  '(magic, input) ← read_exact truncated 8 input;
  '(version, input) ← read_exact truncated 4 input;
  '(chunk_bytes, input) ← read_exact truncated 4 input;
  '(size, input) ← read_exact truncated 8 input;
  '(wrap_nonce, input) ← read_exact truncated (Z.of_nat WRAP_NONCE_BYTES) input;
  '(stream_nonce, input) ← read_exact truncated (Z.of_nat STREAM_NONCE_BYTES) input;
  '(wrapped, input) ← read_exact truncated (Z.of_nat WRAPPED_KEY_BYTES) input;
  reject_if (negb (bool_decide (magic = MAGIC)) || negb (of_be_bytes version =? FORMAT_VERSION)
             || negb (of_be_bytes chunk_bytes =? CHUNK_BYTES))
    (Integrity "encrypted object header is invalid");;
  mret (MkHeader (of_be_bytes size) wrap_nonce stream_nonce wrapped, input).

(** The loop of [open]: the plaintext, and the rest of the envelope. *)
Fixpoint open_chunks (k : nat) (patience : option nat) (index : nat) (key nonce aad input : list ascii) :
    result ArtifactError (list ascii * list ascii) :=
  match k with
  | O => Ok ([], input)
  | S k' =>
      check_deadline patience (S index) "decrypt snapshot object";;
      '(ciphertext, rest) ← read_exact truncated (CHUNK_BYTES + TAG_BYTES) input;
      plaintext ← ok_or (Integrity "decrypt artifact chunk") (decrypt_chunk key nonce index false aad ciphertext);
      '(more, rest) ← open_chunks k' patience (S index) key nonce aad rest;
      mret (plaintext ++ more, rest)
  end.

Definition open (input : list ascii) (scope : ArtifactScope) (d : ArtifactDescriptor) (master : list ascii) (patience : option nat) :
    result ArtifactError (list ascii) :=
  check_deadline patience 0 "decrypt snapshot object";;
  '(header, body) ← read_header input;
  reject_if (negb (plaintext_bytes header =? size_bytes d)) (Integrity "encrypted object size does not match its descriptor");;
  let aad := associated_data scope d in
  tenant_key ← ok_or (Storage "derive tenant envelope key") (derive_key master (binding scope));
  key ← ok_or (Integrity "unwrap artifact data key") (unwrap tenant_key (header_wrap_nonce header) aad (wrapped_key header));
  reject_if (negb (length key =? 32)%nat) (Integrity "unwrapped artifact key has an invalid size");;
  let k := full_chunks (size_bytes d) in
  '(plaintext, rest) ← open_chunks k patience 0 key (header_stream_nonce header) aad body;
  '(ciphertext, trailing) ← read_exact truncated (last_chunk (size_bytes d) + TAG_BYTES) rest;
  final ← ok_or (Integrity "decrypt final artifact chunk") (decrypt_chunk key (header_stream_nonce header) k true aad ciphertext);
  reject_if (negb (bool_decide (trailing = []))) (Integrity "encrypted object contains trailing data");;
  reject_if (negb (bool_decide (digest_text (plaintext ++ final) = digest d)))
    (Integrity "materialized object digest does not match its descriptor");;
  mret (plaintext ++ final).
End code.
End Envelope.
Import Envelope.

(** ** Round trip and integrity *)

(** Decryption undoes encryption, which adds a tag, for keys that it derives. *)
Class CryptographyLaws `{Cryptography} : Prop := {
  unwrap_wrap key nonce aad message ciphertext :
    wrap key nonce aad message = Some ciphertext → unwrap key nonce aad ciphertext = Some message;
  decrypt_encrypt key nonce index final aad message ciphertext :
    encrypt_chunk key nonce index final aad message = Some ciphertext → decrypt_chunk key nonce index final aad ciphertext = Some message;
  encrypt_length key nonce index final aad message ciphertext :
    encrypt_chunk key nonce index final aad message = Some ciphertext → length_z ciphertext = length_z message + TAG_BYTES;
  decrypt_length key nonce index final aad message ciphertext :
    decrypt_chunk key nonce index final aad ciphertext = Some message → length_z ciphertext = length_z message + TAG_BYTES
}.

(** Authenticated encryption in counter mode: the associated data decides whether a ciphertext is accepted, not what it decrypts to. *)
Class CounterMode `{Cryptography} : Prop := {
  unwrap_plain key nonce aad aad' ciphertext message message' :
    unwrap key nonce aad ciphertext = Some message → unwrap key nonce aad' ciphertext = Some message' → message = message';
  decrypt_plain key nonce index final aad aad' ciphertext message message' :
    decrypt_chunk key nonce index final aad ciphertext = Some message →
    decrypt_chunk key nonce index final aad' ciphertext = Some message' → message = message'
}.

Lemma be_bytes_length n z : length (be_bytes n z) = n.
Proof. revert z. induction n as [|n IH]; intros z; [done|]. simpl. rewrite length_app, IH. simpl. lia. Qed.

Lemma of_be_bytes_app l c : of_be_bytes (l ++ [c]) = of_be_bytes l * 256 + code c.
Proof. unfold of_be_bytes. by rewrite foldl_app. Qed.

Lemma of_be_be_bytes n z : 0 ≤ z < 256 ^ Z.of_nat n → of_be_bytes (be_bytes n z) = z.
Proof.
  revert z. induction n as [|n IH]; intros z Hz; [simpl in *; unfold of_be_bytes; simpl; lia|].
  cbn [be_bytes]. rewrite of_be_bytes_app. replace (Z.of_nat (S n)) with (Z.of_nat n + 1) in Hz by lia.
  rewrite Z.pow_add_r in Hz by lia. change (256 ^ 1) with 256 in Hz. rewrite IH by (split; [apply Z.div_pos; lia|apply Z.div_lt_upper_bound; lia]).
  unfold code. rewrite N_ascii_embedding by (pose proof (Z.mod_pos_bound z 256 ltac:(lia)); lia).
  rewrite Z2N.id by (apply Z.mod_pos_bound; lia). pose proof (Z.div_mod z 256). lia.
Qed.

Lemma full_chunks_spec size : 0 < size →
  0 < last_chunk size ≤ CHUNK_BYTES ∧ Z.of_nat (full_chunks size) = (size - 1) / CHUNK_BYTES.
Proof.
  intros Hs. assert (Z.of_nat (full_chunks size) = (size - 1) / CHUNK_BYTES) as Hk.
  { unfold full_chunks. rewrite Z2Nat.id; [done|]. apply Z.div_pos; unfold CHUNK_BYTES; lia. }
  split; [|done]. unfold last_chunk. rewrite Hk. pose proof (Z.div_mod (size - 1) CHUNK_BYTES).
  pose proof (Z.mod_pos_bound (size - 1) CHUNK_BYTES). unfold CHUNK_BYTES in *. lia.
Qed.

Lemma read_exact_Ok short n l a b :
  read_exact short n l = Ok (a, b) ↔ 0 ≤ Z.max 0 n ≤ length_z l ∧ a = take (Z.to_nat n) l ∧ b = drop (Z.to_nat n) l.
Proof.
  unfold read_exact, reject_if. destruct (Z.ltb_spec (length_z l) n); cbn [mbind result_bind].
  - split; [done|]. lia.
  - split; [|by intros (_ & -> & ->)]. intros [= <- <-]. split; [|done]. lia.
Qed.

Lemma read_exact_app short a b n : n = length_z a → read_exact short n (a ++ b) = Ok (a, b).
Proof.
  intros ->. apply read_exact_Ok. rewrite length_app, Nat2Z.id, take_app_length, drop_app_length. split; [lia|done].
Qed.

Lemma read_exact_inv short n l a b : 0 ≤ n → read_exact short n l = Ok (a, b) → l = a ++ b ∧ length_z a = n.
Proof.
  intros Hn (Hl & -> & ->)%read_exact_Ok. rewrite take_drop. split; [done|]. rewrite length_take. lia.
Qed.

Section proofs.
Context `{CryptographyLaws}.

Lemma seal_chunks_Ok k patience index key nonce aad plaintext chunks rest :
  seal_chunks k patience index key nonce aad plaintext = Ok (chunks, rest) →
  ∃ content, plaintext = content ++ rest ∧ length_z content = Z.of_nat k * CHUNK_BYTES ∧
    length_z chunks = Z.of_nat k * (CHUNK_BYTES + TAG_BYTES) ∧
    ∀ more, open_chunks k None index key nonce aad (chunks ++ more) = Ok (content, more).
Proof.
  revert index plaintext chunks rest. induction k as [|k IH]; intros index plaintext chunks rest; simpl.
  { intros [= <- <-]. exists []. done. }
  intros ([] & _ & Hrun)%bind_Ok_inv. apply bind_Ok_inv in Hrun as ([chunk after] & Hread & Hrun).
  apply read_exact_inv in Hread as [-> Hlen]; [|unfold CHUNK_BYTES; lia].
  apply bind_Ok_inv in Hrun as (ciphertext & Henc%ok_or_Ok & Hrun).
  apply bind_Ok_inv in Hrun as ([more rest'] & Hmore & [= <- <-]).
  apply IH in Hmore as (content & -> & Hl & Hl' & Hopen). exists (chunk ++ content). rewrite app_assoc.
  pose proof (encrypt_length _ _ _ _ _ _ _ Henc) as Hel. rewrite !length_app. split_and!; [done|lia|lia|].
  intros tail. rewrite <-app_assoc. rewrite read_exact_app by (lia). simpl.
  rewrite (decrypt_encrypt _ _ _ _ _ _ _ Henc). simpl. by rewrite Hopen.
Qed.

Lemma read_header_bytes size wrap_nonce stream_nonce wrapped body :
  0 ≤ size ≤ u64_max → length wrap_nonce = WRAP_NONCE_BYTES → length stream_nonce = STREAM_NONCE_BYTES →
  length wrapped = WRAPPED_KEY_BYTES →
  read_header (header_bytes size wrap_nonce stream_nonce wrapped ++ body) = Ok (MkHeader size wrap_nonce stream_nonce wrapped, body).
Proof.
  intros Hs Hw Hn Hk. unfold read_header, header_bytes. rewrite <-!app_assoc.
  rewrite read_exact_app by done. cbn [mbind result_bind].
  rewrite read_exact_app by (by rewrite be_bytes_length). cbn [mbind result_bind].
  rewrite read_exact_app by (by rewrite be_bytes_length). cbn [mbind result_bind].
  rewrite read_exact_app by (by rewrite be_bytes_length). cbn [mbind result_bind].
  rewrite read_exact_app by (by rewrite Hw). cbn [mbind result_bind].
  rewrite read_exact_app by (by rewrite Hn). cbn [mbind result_bind].
  rewrite read_exact_app by (by rewrite Hk). cbn [mbind result_bind].
  rewrite bool_decide_eq_true_2, !of_be_be_bytes by (done || unfold u64_max in *; lia). done.
Qed.

Record fresh (r : Randomness) : Prop := Fresh {
  fr_key : length (data_key r) = 32%nat;
  fr_wrap : length (wrap_nonce r) = WRAP_NONCE_BYTES;
  fr_stream : length (stream_nonce r) = STREAM_NONCE_BYTES
}.

Lemma header_bytes_length size wrap_nonce stream_nonce wrapped :
  length wrap_nonce = WRAP_NONCE_BYTES → length stream_nonce = STREAM_NONCE_BYTES → length wrapped = WRAPPED_KEY_BYTES →
  length_z (header_bytes size wrap_nonce stream_nonce wrapped) = HEADER_BYTES.
Proof. intros Hw Hn Hk. unfold header_bytes. rewrite !length_app, !be_bytes_length, Hw, Hn, Hk. done. Qed.

Lemma maximum_envelope_bytes_Ok size m :
  0 < size → maximum_envelope_bytes size = Ok m → m = HEADER_BYTES + size + (Z.of_nat (full_chunks size) + 1) * TAG_BYTES.
Proof.
  intros Hs Hm. destruct (full_chunks_spec size Hs) as [_ Hk]. unfold maximum_envelope_bytes in Hm.
  apply bind_Ok_inv in Hm as (chunks & Hc%ok_or_Ok & Hm%ok_or_Ok). apply fmap_Some in Hc as (n & [-> Hn]%checked_add_Some & ->).
  apply bind_Some in Hm as (t & [-> Ht]%checked_add_Some & [-> _]%checked_add_Some).
  replace (size + (CHUNK_BYTES - 1)) with (size - 1 + 1 * CHUNK_BYTES) in * by lia.
  rewrite Z.div_add in * by done. rewrite <-Hk in *. unfold TAG_BYTES in *. lia.
Qed.

Lemma seal_Ok plaintext scope d master random patience envelope :
  0 < size_bytes d ≤ u64_max → fresh random → seal (Ok plaintext) scope d master random patience = Ok envelope →
  open envelope scope d master None = Ok plaintext ∧ length_z plaintext = size_bytes d ∧ digest_text plaintext = digest d ∧
  length_z envelope = HEADER_BYTES + size_bytes d + (Z.of_nat (full_chunks (size_bytes d)) + 1) * TAG_BYTES.
Proof.
  intros Hs [Hkey Hwn Hsn] Hrun. destruct (full_chunks_spec _ (proj1 Hs)) as [Hlast Hk]. unfold seal in Hrun.
  apply bind_Ok_inv in Hrun as ([] & _ & Hrun). apply bind_Ok_inv in Hrun as (p & <-%Ok_inj & Hrun).
  apply bind_Ok_inv in Hrun as (tenant & Ht & Hrun). cbv zeta in Hrun.
  apply bind_Ok_inv in Hrun as (wrapped & Hw%ok_or_Ok & Hrun). apply bind_Ok_inv in Hrun as ([] & Hwl%reject_if_Ok & Hrun).
  apply negb_false_iff, Nat.eqb_eq in Hwl. apply bind_Ok_inv in Hrun as ([chunks rest] & Hc & Hrun).
  apply seal_chunks_Ok in Hc as (content & -> & Hcl & Hchl & Hopen).
  apply bind_Ok_inv in Hrun as ([chunk trailing] & Hr & Hrun). apply read_exact_inv in Hr as [-> Hll]; [|lia].
  apply bind_Ok_inv in Hrun as (final & Hf%ok_or_Ok & Hrun). apply bind_Ok_inv in Hrun as ([] & Hd%reject_if_Ok & <-%Ok_inj).
  rewrite orb_false_iff, !negb_false_iff, !bool_decide_eq_true in Hd. destruct Hd as [-> Hd]. rewrite app_nil_r in *.
  assert (length_z (content ++ chunk) = size_bytes d) as Hlen by (rewrite length_app; unfold last_chunk in *; lia).
  rewrite take_ge in Hd by lia. pose proof (encrypt_length _ _ _ _ _ _ _ Hf) as Hfl.
  split_and!; [|done|done|rewrite !length_app; pose proof (header_bytes_length (size_bytes d) _ _ _ Hwn Hsn Hwl); unfold last_chunk in *; lia].
  unfold open. rewrite read_header_bytes by (done || lia). cbn [mbind result_bind check_deadline reject_if plaintext_bytes].
  rewrite Z.eqb_refl. cbn [negb reject_if mbind result_bind]. rewrite Ht. cbn [mbind result_bind].
  cbn [header_wrap_nonce header_stream_nonce wrapped_key]. rewrite (unwrap_wrap _ _ _ _ _ Hw). cbn [ok_or mbind result_bind].
  rewrite Hkey. cbn [Nat.eqb negb reject_if mbind result_bind]. rewrite Hopen. cbn [mbind result_bind].
  rewrite <-(app_nil_r final), read_exact_app by lia. cbn [mbind result_bind].
  rewrite (decrypt_encrypt _ _ _ _ _ _ _ Hf). cbn [ok_or mbind result_bind].
  rewrite (bool_decide_eq_true_2 ([] = [])) by done. rewrite (bool_decide_eq_true_2 (digest_text _ = _)) by done. done.
Qed.

Lemma open_chunks_length k patience index key nonce aad input plaintext rest :
  open_chunks k patience index key nonce aad input = Ok (plaintext, rest) → length_z plaintext = Z.of_nat k * CHUNK_BYTES.
Proof.
  revert index input plaintext rest. induction k as [|k IH]; intros index input plaintext rest; simpl; [by intros [= <- <-]|].
  intros ([] & _ & Hrun)%bind_Ok_inv. apply bind_Ok_inv in Hrun as ([ciphertext after] & Hread & Hrun).
  apply read_exact_inv in Hread as [-> Hlen]; [|unfold CHUNK_BYTES, TAG_BYTES; lia].
  apply bind_Ok_inv in Hrun as (chunk & Hdec%ok_or_Ok & Hrun). apply bind_Ok_inv in Hrun as ([more rest'] & Hmore%IH & [= <- <-]).
  pose proof (decrypt_length _ _ _ _ _ _ _ Hdec). rewrite length_app. lia.
Qed.

Lemma of_be_bytes_nonneg l : 0 ≤ of_be_bytes l.
Proof. induction l as [|c l IH] using rev_ind; [done|]. rewrite of_be_bytes_app. unfold code. lia. Qed.

Lemma read_header_nonneg input header body : read_header input = Ok (header, body) → 0 ≤ plaintext_bytes header.
Proof.
  unfold read_header. do 7 (intros ([? ?] & _ & Hrun)%bind_Ok_inv; revert Hrun; cbv beta iota).
  intros ([] & _ & [= <- _])%bind_Ok_inv. simpl. apply of_be_bytes_nonneg.
Qed.

(** What an envelope opens to has the size and the digest of the descriptor, whatever the envelope is. *)
Lemma open_verifies envelope scope d master patience content :
  size_bytes d ≠ 0 → open envelope scope d master patience = Ok content →
  length_z content = size_bytes d ∧ digest_text content = digest d.
Proof.
  intros Hne Hrun. unfold open in Hrun.
  apply bind_Ok_inv in Hrun as ([] & _ & Hrun). apply bind_Ok_inv in Hrun as ([header body] & Hpos%read_header_nonneg & Hrun).
  apply bind_Ok_inv in Hrun as ([] & Heq%reject_if_Ok & Hrun). apply negb_false_iff, Z.eqb_eq in Heq. rewrite Heq in Hpos.
  destruct (full_chunks_spec (size_bytes d) ltac:(lia)) as [Hlast _]. cbv zeta in Hrun. apply bind_Ok_inv in Hrun as (tenant & _ & Hrun).
  apply bind_Ok_inv in Hrun as (key & _ & Hrun). apply bind_Ok_inv in Hrun as ([] & _ & Hrun).
  apply bind_Ok_inv in Hrun as ([plaintext rest] & Hopen%open_chunks_length & Hrun).
  apply bind_Ok_inv in Hrun as ([ciphertext trailing] & Hread & Hrun). apply read_exact_inv in Hread as [-> Hlen]; [|unfold TAG_BYTES; lia].
  apply bind_Ok_inv in Hrun as (final & Hf%ok_or_Ok & Hrun). apply bind_Ok_inv in Hrun as ([] & _ & Hrun).
  apply bind_Ok_inv in Hrun as ([] & Hd%reject_if_Ok & <-%Ok_inj). apply negb_false_iff, bool_decide_eq_true in Hd.
  pose proof (decrypt_length _ _ _ _ _ _ _ Hf). split; [|done]. rewrite length_app. unfold last_chunk in *. lia.
Qed.

(** A deadline only makes opening fail. *)
Lemma open_chunks_patience k patience index key nonce aad input r :
  open_chunks k patience index key nonce aad input = Ok r → open_chunks k None index key nonce aad input = Ok r.
Proof.
  revert index input r. induction k as [|k IH]; intros index input r; simpl; [done|].
  intros ([] & _ & Hrun)%bind_Ok_inv. apply bind_Ok_inv in Hrun as ([ciphertext after] & -> & Hrun). simpl.
  apply bind_Ok_inv in Hrun as (chunk & -> & Hrun). simpl. by apply bind_Ok_inv in Hrun as ([more rest'] & ->%IH & Hrun).
Qed.
Lemma open_patience input scope d master patience content :
  open input scope d master patience = Ok content → open input scope d master None = Ok content.
Proof.
  unfold open. intros ([] & _ & Hrun)%bind_Ok_inv. cbn [check_deadline reject_if mbind result_bind].
  apply bind_Ok_inv in Hrun as ([header body] & -> & Hrun). cbn [mbind result_bind]. apply bind_Ok_inv in Hrun as ([] & -> & Hrun).
  cbn [mbind result_bind]. cbv zeta in *. apply bind_Ok_inv in Hrun as (tenant & -> & Hrun). cbn [mbind result_bind].
  apply bind_Ok_inv in Hrun as (key & -> & Hrun). cbn [mbind result_bind]. apply bind_Ok_inv in Hrun as ([] & -> & Hrun).
  cbn [mbind result_bind]. by apply bind_Ok_inv in Hrun as ([plaintext rest] & ->%open_chunks_patience & Hrun).
Qed.

(** Sizes that are in use do not overflow. *)
Lemma maximum_envelope_bytes_total size :
  0 < size ≤ 2 ^ 60 → maximum_envelope_bytes size = Ok (HEADER_BYTES + size + (Z.of_nat (full_chunks size) + 1) * TAG_BYTES).
Proof.
  intros Hs. assert (size + (CHUNK_BYTES - 1) ≤ u64_max) as Hb by (unfold CHUNK_BYTES, u64_max; lia).
  assert (∃ m, maximum_envelope_bytes size = Ok m) as [m Hm]; [|rewrite Hm; f_equal; apply maximum_envelope_bytes_Ok; (done || lia)].
  unfold maximum_envelope_bytes. rewrite (proj2 (checked_add_Some u64_max size (CHUNK_BYTES - 1) _) (conj eq_refl Hb)).
  cbn [fmap option_fmap option_map ok_or mbind result_bind].
  assert (0 ≤ (size + (CHUNK_BYTES - 1)) / CHUNK_BYTES ≤ 2 ^ 41) as Hc.
  { split; [apply Z.div_pos; unfold CHUNK_BYTES; lia|]. apply Z.div_le_upper_bound; unfold CHUNK_BYTES; lia. }
  generalize dependent ((size + (CHUNK_BYTES - 1)) / CHUNK_BYTES). intros c Hc.
  assert (HEADER_BYTES ≤ 256 ∧ 0 ≤ Z.min u64_max (c * TAG_BYTES) ≤ 2 ^ 46) as [Hh Hmin]
    by (split; [done|unfold TAG_BYTES, u64_max; lia]). clear Hb.
  assert (size + Z.min u64_max (c * TAG_BYTES) ≤ u64_max) as Hn by (unfold u64_max at 2; lia).
  rewrite (proj2 (checked_add_Some u64_max _ _ _) (conj eq_refl Hn)). cbn [mbind option_bind].
  assert (size + Z.min u64_max (c * TAG_BYTES) + HEADER_BYTES ≤ u64_max) as Hn' by (unfold u64_max at 2; lia).
  rewrite (proj2 (checked_add_Some u64_max _ _ _) (conj eq_refl Hn')).
  eexists; reflexivity.
Qed.

Lemma open_chunks_same `{!CounterMode} k index key nonce aad aad' input r r' :
  open_chunks k None index key nonce aad input = Ok r → open_chunks k None index key nonce aad' input = Ok r' → r = r'.
Proof.
  revert index input r r'. induction k as [|k IH]; intros index input r r'; simpl; [congruence|].
  intros ([c after] & -> & Hrun)%bind_Ok_inv. cbn [mbind result_bind]. apply bind_Ok_inv in Hrun as (m & Hm%ok_or_Ok & Hrun).
  apply bind_Ok_inv in Hrun as ([more rest] & Hmore & [= <-]). intros (m' & Hm'%ok_or_Ok & Hrun')%bind_Ok_inv.
  apply bind_Ok_inv in Hrun' as ([more' rest'] & Hmore' & [= <-]). rewrite (decrypt_plain _ _ _ _ _ _ _ _ _ Hm Hm').
  pose proof (IH _ _ _ _ Hmore Hmore'). by simplify_eq.
Qed.

(** An envelope does not open to two contents in a scope. *)
Lemma open_same `{!CounterMode} input scope d d' master content content' :
  open input scope d master None = Ok content → open input scope d' master None = Ok content' → content = content'.
Proof.
  unfold open. cbn [check_deadline reject_if mbind result_bind].
  intros ([header body] & -> & Hrun)%bind_Ok_inv. cbn [mbind result_bind]. apply bind_Ok_inv in Hrun as ([] & Hs%reject_if_Ok & Hrun).
  intros ([] & Hs'%reject_if_Ok & Hrun')%bind_Ok_inv. apply negb_false_iff, Z.eqb_eq in Hs, Hs'. rewrite <-Hs in Hrun. rewrite <-Hs' in Hrun'.
  cbv zeta in *. apply bind_Ok_inv in Hrun as (tenant & Ht & Hrun). rewrite Ht in Hrun'. cbn [mbind result_bind] in Hrun'.
  apply bind_Ok_inv in Hrun as (key & Hk%ok_or_Ok & Hrun). apply bind_Ok_inv in Hrun' as (key' & Hk'%ok_or_Ok & Hrun').
  rewrite <-(unwrap_plain _ _ _ _ _ _ _ Hk Hk') in Hrun'. apply bind_Ok_inv in Hrun as ([] & _ & Hrun).
  apply bind_Ok_inv in Hrun' as ([] & _ & Hrun'). apply bind_Ok_inv in Hrun as ([plain rest] & Ho & Hrun).
  apply bind_Ok_inv in Hrun' as ([plain' rest'] & Ho' & Hrun'). pose proof (open_chunks_same _ _ _ _ _ _ _ _ _ Ho Ho') as [= <- <-].
  apply bind_Ok_inv in Hrun as ([c trailing] & Hr & Hrun). rewrite Hr in Hrun'. cbn [mbind result_bind] in Hrun'.
  apply bind_Ok_inv in Hrun as (final & Hf%ok_or_Ok & Hrun). apply bind_Ok_inv in Hrun' as (final' & Hf'%ok_or_Ok & Hrun').
  rewrite <-(decrypt_plain _ _ _ _ _ _ _ _ _ Hf Hf') in Hrun'. apply bind_Ok_inv in Hrun as ([] & _ & Hrun).
  apply bind_Ok_inv in Hrun as ([] & _ & <-%Ok_inj). apply bind_Ok_inv in Hrun' as ([] & _ & Hrun').
  by apply bind_Ok_inv in Hrun' as ([] & _ & <-%Ok_inj).
Qed.
End proofs.
