(* ===== verification/Artifact.v ===== *)
(** * The artifact repository

    Models [crates/sandbox-artifact/src/repository.rs], [transfer.rs],
    [model.rs] and the operations of [backend/local.rs]: snapshots are published
    as encrypted objects under the digests of their contents, with a manifest
    and a pointer that makes it visible; they are materialized, transferred to
    another worker at most once, unreferenced and collected.

    The store maps keys to contents with the time of their creation.  Before
    each call on the store or the file system other clients may put and delete
    blobs, time passes, and the call may fail before or after its effect: the
    [events] of a world.  JSON is a parameter, as are the random bytes; the
    temporary files are represented by what is written to them. *)
From S2P Require Import Prelude Identity Lifecycle GuestProfile Volume Snapshot Envelope.
Import Volume.Volume Snapshot.Snapshot Envelope.Envelope.

Module Artifact.

Definition POINTER_VERSION : Z := 1.
Definition MANIFEST_MEDIA_TYPE : string := "application/vnd.runtrue.snapshot.manifest.v4+json".
Definition MAXIMUM_POINTER_BYTES : Z := 64 * 1024.
Definition MAXIMUM_MANIFEST_BYTES : Z := 8 * 1024 * 1024.
Definition TRANSFER_VERSION : Z := 1.
Definition TRANSFER_GRANT_MEDIA_TYPE : string := "application/vnd.runtrue.snapshot.transfer-grant.v1+json".
Definition TRANSFER_CLAIM_MEDIA_TYPE : string := "application/vnd.runtrue.snapshot.transfer-claim.v1+json".
Definition MAXIMUM_TRANSFER_BYTES : Z := 64 * 1024.

Definition validate_scope (scope : ArtifactScope) (m : SnapshotManifest) : result ArtifactError () :=
  reject_if (negb (bool_decide (manifest_tenant m = scope_tenant scope))
             || negb (bool_decide (manifest_workspace m = scope_workspace scope)))
    (AccessDenied "snapshot manifest belongs to another tenant scope").

Definition storage_prefix (scope : ArtifactScope) : string :=
  ("tenants/" +:+ as_str (scope_tenant scope) +:+ "/workspaces/" +:+ as_str (scope_workspace scope))%string.

(** Durations are in milliseconds. *)
Record ArtifactLimits : Type := MkLimits {
  maximum_object_bytes : Z;
  maximum_snapshot_bytes : Z;
  maximum_objects : Z;
  maximum_listing_entries : Z;
  maximum_concurrency : Z;
  operation_timeout : Z;
  garbage_collection_grace : Z
}.

Definition validate_limits (l : ArtifactLimits) : result ArtifactError () :=
  reject_if ((maximum_object_bytes l =? 0) || (maximum_snapshot_bytes l <? maximum_object_bytes l) || (maximum_objects l =? 0)
             || (100000 <? maximum_objects l) || (maximum_listing_entries l <? maximum_objects l)
             || (1000000 <? maximum_listing_entries l) || (maximum_concurrency l =? 0) || (64 <? maximum_concurrency l)
             || (operation_timeout l =? 0) || (3600000 <? operation_timeout l)
             || (garbage_collection_grace l <? operation_timeout l))
    (Invalid "artifact-store limits are invalid").

(** A staged file: whether it is regular, what is read when it is described, and when it is encrypted. *)
Record StagedVolumeMetadata : Type := MkStagedVolume {
  staged_schema_version : Z;
  staged_volume_id : VolumeId;
  staged_provider : string;
  staged_class : VolumePersistenceClass;
  staged_portability : SnapshotPortability
}.
Record StagedSnapshotObject : Type := MkStaged {
  staged_role : ArtifactRole;
  staged_container : option ContainerId;
  staged_name : string;
  staged_regular : result ArtifactError bool;
  staged_described : result ArtifactError (list ascii);
  staged_sealed : result ArtifactError (list ascii);
  staged_media_type : string;
  staged_volume : option StagedVolumeMetadata
}.
Record SnapshotPublication : Type := MkPublication {
  publication_scope : ArtifactScope;
  publication_manifest : SnapshotManifest;
  publication_objects : list StagedSnapshotObject
}.
Record PublicationMetrics : Type := MkMetrics {
  metrics_snapshot : SnapshotId;
  object_count : Z;
  logical_bytes : Z;
  transferred_bytes : Z;
  reused_objects : Z
}.
(** [files] are those of the directory. *)
Record MaterializedSnapshot : Type := MkMaterialized {
  materialized_manifest : SnapshotManifest;
  files : gmap string (list ascii);
  materialized_bytes : Z
}.
Record SnapshotTransferGrant : Type := MkGrant {
  grant_schema_version : Z;
  grant_tenant : TenantId;
  grant_workspace : WorkspaceId;
  grant_sandbox : SandboxId;
  grant_snapshot : SnapshotId;
  grant_source_worker : WorkerId;
  grant_source_epoch : AssignmentEpoch;
  grant_created : Z
}.
Record SnapshotTransferClaim : Type := MkClaim {
  claim_schema_version : Z;
  claim_tenant : TenantId;
  claim_workspace : WorkspaceId;
  claim_sandbox : SandboxId;
  claim_snapshot : SnapshotId;
  claim_source_worker : WorkerId;
  claim_source_epoch : AssignmentEpoch;
  claim_destination_worker : WorkerId;
  claim_destination_epoch : AssignmentEpoch
}.
Record GarbageCollectionReport : Type := MkReport {
  removed_staging_objects : Z;
  removed_unreferenced_objects : Z;
  removed_transfer_objects : Z;
  retained_objects : Z;
  retained_transfer_objects : Z
}.
Record SnapshotPointer : Type := MkPointer { pointer_version : Z; pointer_snapshot : SnapshotId; pointer_manifest : ArtifactDescriptor }.
Record TransferPointer : Type := MkTransferPointer { transfer_version : Z; transfer_snapshot : SnapshotId; transfer_grant : ArtifactDescriptor }.

#[global] Instance SnapshotTransferGrant_eq_dec : EqDecision SnapshotTransferGrant.
Proof. solve_decision. Defined.
#[global] Instance SnapshotTransferClaim_eq_dec : EqDecision SnapshotTransferClaim.
Proof. solve_decision. Defined.

(** [serde_json]. *)
Class ArtifactCodec : Type := {
  manifest_json : SnapshotManifest → result string (list ascii);
  manifest_parse : list ascii → result string SnapshotManifest;
  pointer_json : SnapshotPointer → result string (list ascii);
  pointer_parse : list ascii → result string SnapshotPointer;
  grant_json : SnapshotTransferGrant → result string (list ascii);
  grant_parse : list ascii → result string SnapshotTransferGrant;
  transfer_pointer_json : TransferPointer → result string (list ascii);
  transfer_pointer_parse : list ascii → result string TransferPointer;
  claim_json : SnapshotTransferClaim → result string (list ascii);
  claim_parse : list ascii → result string SnapshotTransferClaim
}.

(** ** The store *)

Record Blob : Type := MkBlob { blob_content : list ascii; modified : Z }.

Inductive BlobOp : Type := OtherPut (key : string) (content : list ascii) | OtherDelete (key : string).

(** [fault]: the call fails before ([false]) or after ([true]) its effect. *)
Record Event : Type := MkEvent {
  before : list BlobOp;
  elapsed : Z;
  fault : option (bool * ArtifactError);
  event_patience : option nat
}.
Definition quiet : Event := MkEvent [] 0 None None.

Record World : Type := MkArtifactWorld { blobs : gmap string Blob; time : Z; events : list Event; draws : nat }.
Definition set_blobs (m : gmap string Blob) (w : World) : World := MkArtifactWorld m (time w) (events w) (draws w).

Abbreviation A := (M World ArtifactError).

Definition put_blob (now : Z) (key : string) (content : list ascii) (m : gmap string Blob) : gmap string Blob :=
  match m !! key with Some _ => m | None => <[key := MkBlob content now]> m end.
Definition apply_op (now : Z) (m : gmap string Blob) (o : BlobOp) : gmap string Blob :=
  match o with OtherPut key content => put_blob now key content m | OtherDelete key => delete key m end.

Definition next_event (w : World) : Event := default quiet (head (events w)).
Definition step (w : World) : World :=
  let e := next_event w in
  let now := time w + elapsed e in
  MkArtifactWorld (foldl (apply_op now) (blobs w) (before e)) now (tail (events w)) (draws w).

(** A call: others go first, then ours, if it does not fail. *)
Definition call {X} (f : World → World * result ArtifactError X) : A X :=
  λ w, match fault (next_event w) with
       | Some (false, error) => (step w, Err error)
       | Some (true, error) => ((f (step w)).1, Err error)
       | None => f (step w)
       end.
(** A call on the file system, or for a permit, that only may fail. *)
Definition host : A () := call (λ w, (w, Ok tt)).
(** The result of a call as a value. *)
Definition attempt {X} (c : A X) : A (result ArtifactError X) := λ w, let '(w', r) := c w in (w', Ok r).
Definition ensure_deadline (operation : string) : A () :=
  λ w, (step w, match fault (next_event w) with Some _ => Err (Timeout operation) | None => Ok tt end).

(** [LocalBackend::path]. *)
Definition key_byte (c : ascii) : bool :=
  is_ascii_alphanumeric c || is_byte "/" c || is_byte "." c || is_byte "_" c || is_byte "-" c.
Definition invalid_key (key : string) : bool :=
  bool_decide (key = EmptyString) || starts_with "/" key
  || existsb (λ part, bool_decide (part = EmptyString) || bool_decide (part = "."%string) || bool_decide (part = ".."%string))
       (split_byte "/" key)
  || negb (all_bytes key_byte key).
Definition check_key (key : string) : result ArtifactError () :=
  reject_if (invalid_key key) (Invalid "artifact storage key is invalid").

Inductive PutStatus : Type := Created | Reused.
#[global] Instance PutStatus_eq_dec : EqDecision PutStatus.
Proof. solve_decision. Defined.

Definition put_if_absent (key : string) (content : list ascii) : A PutStatus :=
  M_lift (check_key key);;
  call (λ w, (set_blobs (put_blob (time w) key content (blobs w)) w, Ok (if bool_decide (is_Some (blobs w !! key)) then Reused else Created))).

Definition get (key : string) (maximum_bytes : Z) : A (list ascii) :=
  M_lift (check_key key);;
  call (λ w, (w, blob ← ok_or (NotFound key) (blobs w !! key);
                 reject_if (maximum_bytes <? length_z (blob_content blob)) (Integrity "stored artifact exceeds its byte limit");;
                 mret (blob_content blob))).

Definition blob_exists (key : string) : A bool :=
  M_lift (check_key key);;
  call (λ w, (w, Ok (bool_decide (is_Some (blobs w !! key))))).

(** The blobs below a directory, in the order of their keys.  An entry that is
    visited when the listing is full fails it, also a directory: then it is one of the faults. *)
Definition list_blobs (prefix : string) (maximum_entries : Z) : A (list (string * Z)) :=
  M_lift (check_key prefix);;
  call (λ w, (w, let found := filter (λ kb, starts_with (prefix +:+ "/") kb.1 = true) (btree_iter (blobs w)) in
                 reject_if (maximum_entries <? length_z found) (Invalid "artifact listing exceeds its entry limit");;
                 mret (prod_map id modified <$> found))).

Definition delete_blob (key : string) : A () :=
  M_lift (check_key key);;
  call (λ w, (set_blobs (delete key (blobs w)) w, Ok tt)).

Section code.
Context `{Cryptography, ArtifactCodec} (random : nat → Randomness) (master : list ascii) (limits : ArtifactLimits).

Definition sealing (file : result ArtifactError (list ascii)) (scope : ArtifactScope) (d : ArtifactDescriptor) : A (list ascii) :=
  λ w, let w' := step w in
       (MkArtifactWorld (blobs w') (time w') (events w') (S (draws w')),
        match fault (next_event w) with
        | Some (_, error) => Err error
        | None => seal file scope d master (random (draws w)) (event_patience (next_event w))
        end).
Definition opening (envelope : list ascii) (scope : ArtifactScope) (d : ArtifactDescriptor) : A (list ascii) :=
  λ w, (step w, match fault (next_event w) with
                | Some (_, error) => Err error
                | None => open envelope scope d master (event_patience (next_event w))
                end).

(** *** Keys *)

Definition object_key (scope : ArtifactScope) (d : ArtifactDescriptor) : string :=
  (storage_prefix scope +:+ "/objects/sha256/" +:+ default "invalid"%string (strip_prefix "sha256:" (digest d)) +:+ "/"
   +:+ hex (take 8 (sha256 (bytes (media_type d)))) +:+ ".envelope")%string.
Definition object_prefix (scope : ArtifactScope) : string := (storage_prefix scope +:+ "/objects")%string.
Definition pointer_key (scope : ArtifactScope) (id : SnapshotId) : string :=
  (storage_prefix scope +:+ "/snapshots/" +:+ as_str id +:+ ".json")%string.
Definition snapshot_prefix (scope : ArtifactScope) : string := (storage_prefix scope +:+ "/snapshots")%string.
Definition staging_prefix (scope : ArtifactScope) : string := (storage_prefix scope +:+ "/staging")%string.
Definition transfer_prefix (scope : ArtifactScope) : string := (storage_prefix scope +:+ "/transfers")%string.
Definition transfer_key (scope : ArtifactScope) (id : SnapshotId) (name : string) : string :=
  (storage_prefix scope +:+ "/transfers/" +:+ as_str id +:+ "/" +:+ name)%string.
Definition transfer_pointer_key (scope : ArtifactScope) (id : SnapshotId) : string := transfer_key scope id "grant.json".
Definition transfer_grant_key (scope : ArtifactScope) (id : SnapshotId) : string := transfer_key scope id "grant.envelope".
Definition transfer_claim_key (scope : ArtifactScope) (id : SnapshotId) : string := transfer_key scope id "claim.envelope".

Definition snapshot_id_from_transfer_key (scope : ArtifactScope) (key : string) : result ArtifactError SnapshotId :=
  suffix ← ok_or (Integrity "snapshot transfer key escaped its tenant scope")
    (strip_prefix (storage_prefix scope +:+ "/transfers/") key);
  '(id, name) ← ok_or (Integrity "snapshot transfer key is malformed") (split_once "/" suffix);
  reject_if (negb (bool_decide (name ∈ ["grant.json"; "grant.envelope"; "claim.envelope"]%string)))
    (Integrity "snapshot transfer key is malformed");;
  map_err (λ error, Integrity (core_error_to_string error)) (parse id : result CoreError SnapshotId).

Definition snapshot_id_from_pointer_key (key : string) : result ArtifactError SnapshotId :=
  name ← ok_or (Integrity "snapshot pointer key is malformed") (last (split_byte "/" key));
  value ← ok_or (Integrity "snapshot pointer key is malformed") (strip_suffix ".json" name);
  map_err (λ error, Integrity (core_error_to_string error)) (parse value : result CoreError SnapshotId).

(** *** Reading snapshots *)

Definition write_json {X} (kind : string) (encode : X → result string (list ascii)) (x : X) : A (list ascii) :=
  bytes ← M_lift (map_err (λ error, Storage ("encode " +:+ kind +:+ " metadata: " +:+ error)%string) (encode x));
  host;;
  mret bytes.
Definition read_json {X} (what : string) (decode : list ascii → result string X) (bytes : list ascii) : A X :=
  host;;
  M_lift (map_err (λ error, Integrity ("decode " +:+ what +:+ ": " +:+ error)%string) (decode bytes)).

Definition read_pointer (scope : ArtifactScope) (id : SnapshotId) : A (SnapshotPointer * Z) :=
  host;;
  bytes ← get (pointer_key scope id) MAXIMUM_POINTER_BYTES;
  M_reject_if (MAXIMUM_POINTER_BYTES <? length_z bytes) (Integrity "snapshot pointer exceeds its byte limit");;
  pointer ← read_json "snapshot pointer" pointer_parse bytes;
  M_reject_if (negb (pointer_version pointer =? POINTER_VERSION) || negb (bool_decide (pointer_snapshot pointer = id)))
    (Integrity "snapshot pointer identity is invalid");;
  mret (pointer, length_z bytes).

Definition load_manifest (scope : ArtifactScope) (id : SnapshotId) : A (SnapshotManifest * Z) :=
  '(pointer, pointer_bytes) ← read_pointer scope id;
  M_reject_if (negb (bool_decide (media_type (pointer_manifest pointer) = MANIFEST_MEDIA_TYPE))
               || (MAXIMUM_MANIFEST_BYTES <? size_bytes (pointer_manifest pointer)))
    (Integrity "snapshot manifest descriptor is invalid");;
  maximum ← M_lift (maximum_envelope_bytes (size_bytes (pointer_manifest pointer)));
  envelope ← get (object_key scope (pointer_manifest pointer)) maximum;
  bytes ← opening envelope scope (pointer_manifest pointer);
  manifest ← read_json "snapshot manifest" manifest_parse bytes;
  M_reject_if (negb (bool_decide (snapshot_id manifest = id))) (Integrity "snapshot manifest identity does not match its reference");;
  M_lift (validate_scope scope manifest);;
  M_lift (map_err (λ error, Integrity (core_error_to_string error)) (validate_manifest manifest));;
  mret (manifest, pointer_bytes + length_z envelope).

Definition manifest_objects (m : SnapshotManifest) : list SnapshotObject :=
  concat (btree_values (manifest_containers m)) ++ sandbox_objects m.

(** *** Publication *)

Definition validate_unpopulated_manifest (m : SnapshotManifest) : result ArtifactError () :=
  reject_if (negb (bool_decide (manifest_containers m = ∅)) || negb (bool_decide (sandbox_objects m = []))
             || negb (bool_decide (manifest_volumes m = ∅)))
    (Invalid "publication manifest must not contain caller-supplied object descriptors");;
  reject_if (negb (manifest_schema_version m =? SNAPSHOT_MANIFEST_VERSION) || (source_assignment_epoch m =? 0)
             || (created_unix_millis m =? 0))
    (Invalid "snapshot manifest provenance is incomplete").

Definition validate_name (name : string) : result ArtifactError () :=
  reject_if (object_name_rejected name) (Invalid "snapshot object name is invalid").

(** The variables of the loop. *)
Record Progress : Type := MkProgress {
  p_logical : Z;
  p_transferred : Z;
  p_reused : Z;
  p_names : gset string;
  p_containers : gmap ContainerId (list SnapshotObject);
  p_sandbox : list SnapshotObject;
  p_volumes : gmap VolumeId VolumeSnapshotDescriptor
}.

Definition with_media (media : string) (d : ArtifactDescriptor) : ArtifactDescriptor := MkArtifact (digest d) (size_bytes d) media.

(** Encrypts a file and puts it under its digest: the bytes that were transferred, and whether it was there. *)
Definition store_object (file : result ArtifactError (list ascii)) (scope : ArtifactScope) (d : ArtifactDescriptor) :
    A (Z * PutStatus) :=
  envelope ← sealing file scope d;
  status ← put_if_absent (object_key scope d) envelope;
  mret (length_z envelope, status).

Definition describe_volume (staged : StagedSnapshotObject) (d : ArtifactDescriptor)
    (volumes : gmap VolumeId VolumeSnapshotDescriptor) : result ArtifactError (gmap VolumeId VolumeSnapshotDescriptor) :=
  match staged_volume staged with
  | Some volume =>
      reject_if (bool_decide (is_Some (staged_container staged)) || negb (bool_decide (staged_role staged = VolumeData)))
        (Invalid "volume snapshot object has an invalid role or container");;
      reject_if (bool_decide (is_Some (volumes !! staged_volume_id volume)))
        (Invalid ("duplicate volume snapshot `" +:+ as_str (staged_volume_id volume) +:+ "`"));;
      mret (<[staged_volume_id volume := MkVolumeSnapshot (staged_schema_version volume) (staged_provider volume)
                (staged_class volume) (staged_portability volume) (staged_name staged) d]> volumes)
  | None =>
      reject_if (bool_decide (staged_role staged = VolumeData)) (Invalid "volume snapshot object omitted its volume metadata");;
      mret volumes
  end.

Definition publish_object (scope : ArtifactScope) (staged : StagedSnapshotObject) (p : Progress) : A Progress :=
  ensure_deadline "publish snapshot objects";;
  M_lift (validate_name (staged_name staged));;
  M_reject_if (bool_decide (staged_media_type staged = EmptyString) || (256 <? len (staged_media_type staged)))
    (Invalid "snapshot object media type is invalid");;
  M_reject_if (bool_decide (staged_name staged ∈ p_names p))
    (Invalid ("duplicate snapshot object name `" +:+ staged_name staged +:+ "`"));;
  regular ← M_lift (staged_regular staged);
  M_reject_if (negb regular) (Invalid "snapshot object must be a regular file");;
  d ← M_lift (describe (staged_described staged) (maximum_object_bytes limits));
  let d := with_media (staged_media_type staged) d in
  logical ← M_lift (ok_or (Invalid "snapshot size overflow") (u64_checked_add (p_logical p) (size_bytes d)));
  M_reject_if (maximum_snapshot_bytes limits <? logical) (Invalid "snapshot exceeds the configured byte limit");;
  '(encrypted, status) ← store_object (staged_sealed staged) scope d;
  let object := MkObject (staged_name staged) (staged_role staged) d in
  volumes ← M_lift (describe_volume staged d (p_volumes p));
  let '(containers, sandbox) :=
    match staged_container staged with
    | Some c => (<[c := default [] (p_containers p !! c) ++ [object]]> (p_containers p), p_sandbox p)
    | None => (p_containers p, p_sandbox p ++ [object])
    end in
  mret (MkProgress logical
          (if bool_decide (status = Created) then p_transferred p + encrypted else p_transferred p)
          (if bool_decide (status = Created) then p_reused p else p_reused p + 1)
          ({[ staged_name staged ]} ∪ p_names p) containers sandbox volumes).

Fixpoint publish_objects (scope : ArtifactScope) (l : list StagedSnapshotObject) (p : Progress) : A Progress :=
  match l with
  | [] => mret p
  | staged :: l' => p ← publish_object scope staged p; publish_objects scope l' p
  end.

Definition populated (m : SnapshotManifest) (p : Progress) : SnapshotManifest :=
  MkManifest (manifest_schema_version m) (snapshot_id m) (manifest_tenant m) (manifest_workspace m) (manifest_sandbox m)
    (sandbox_spec_digest m) (source_worker m) (source_assignment_epoch m) (created_unix_millis m) (captured_from m)
    (restore_state m) (mode m) (backend m) (restore_requirements m) (p_containers p) (p_sandbox p) (p_volumes p).

Definition publish (publication : SnapshotPublication) : A PublicationMetrics :=
  let scope := publication_scope publication in
  let manifest := publication_manifest publication in
  host;;
  M_lift (validate_scope scope manifest);;
  M_lift (validate_unpopulated_manifest manifest);;
  M_reject_if (bool_decide (publication_objects publication = []) || (maximum_objects limits <? length_z (publication_objects publication)))
    (Invalid "snapshot object count is outside the configured limit");;
  found ← blob_exists (pointer_key scope (snapshot_id manifest));
  M_reject_if found (AlreadyExists (as_str (snapshot_id manifest)));;
  host;;
  p ← publish_objects scope (publication_objects publication) (MkProgress 0 0 0 ∅ ∅ [] ∅);
  let manifest := populated manifest p in
  M_lift (map_err (λ error, Invalid (core_error_to_string error)) (validate_manifest manifest));;
  bytes ← write_json "artifact" manifest_json manifest;
  d ← M_lift (describe (Ok bytes) MAXIMUM_MANIFEST_BYTES);
  let d := with_media MANIFEST_MEDIA_TYPE d in
  '(encrypted, status) ← store_object (Ok bytes) scope d;
  pointer ← write_json "artifact" pointer_json (MkPointer POINTER_VERSION (snapshot_id manifest) d);
  M_reject_if (MAXIMUM_POINTER_BYTES <? length_z pointer) (Invalid "snapshot pointer exceeds its byte limit");;
  published ← put_if_absent (pointer_key scope (snapshot_id manifest)) pointer;
  M_reject_if (bool_decide (published = Reused)) (AlreadyExists (as_str (snapshot_id manifest)));;
  mret (MkMetrics (snapshot_id manifest) (length_z (publication_objects publication)) (p_logical p)
          ((if bool_decide (status = Created) then p_transferred p + encrypted else p_transferred p) + length_z pointer)
          (if bool_decide (status = Created) then p_reused p else p_reused p + 1)).

(** *** Materialization *)

Fixpoint total_bytes (objects : list SnapshotObject) (total : Z) : result ArtifactError Z :=
  match objects with
  | [] => Ok total
  | object :: objects' =>
      reject_if (maximum_object_bytes limits <? size_bytes (object_artifact object))
        (Invalid "snapshot object exceeds the configured byte limit");;
      total ← ok_or (Invalid "snapshot size overflow") (u64_checked_add total (size_bytes (object_artifact object)));
      total_bytes objects' total
  end.

(** The loop of [materialize]: the files so far and the bytes transferred. *)
Fixpoint materialize_objects (scope : ArtifactScope) (objects : list SnapshotObject) (written : gmap string (list ascii)) (transferred : Z) :
    A (gmap string (list ascii) * Z) :=
  match objects with
  | [] => mret (written, transferred)
  | object :: objects' =>
      ensure_deadline "materialize snapshot objects";;
      M_lift (validate_name (name object));;
      M_reject_if (bool_decide (is_Some (written !! name object)))
        (Integrity "snapshot manifest contains duplicate object names");;
      maximum ← M_lift (maximum_envelope_bytes (size_bytes (object_artifact object)));
      envelope ← get (object_key scope (object_artifact object)) maximum;
      content ← opening envelope scope (object_artifact object);
      host;;
      materialize_objects scope objects' (<[name object := content]> written) (transferred + length_z envelope)
  end.

(** [absent] says whether the destination is an absolute path at which nothing exists. *)
Definition materialize (scope : ArtifactScope) (id : SnapshotId) (absent : bool) : A MaterializedSnapshot :=
  host;;
  M_reject_if (negb absent) (Invalid "materialization destination must be an absent absolute path");;
  host;;
  '(manifest, transferred) ← load_manifest scope id;
  let objects := manifest_objects manifest in
  M_reject_if (maximum_objects limits <? length_z objects) (Invalid "snapshot object count exceeds the configured limit");;
  total ← M_lift (total_bytes objects 0);
  M_reject_if (maximum_snapshot_bytes limits <? total) (Invalid "snapshot exceeds the configured byte limit");;
  host;;
  '(written, transferred) ← materialize_objects scope objects ∅ transferred;
  host;;
  mret (MkMaterialized manifest written transferred).

Definition snapshot_exists (scope : ArtifactScope) (id : SnapshotId) : A bool := blob_exists (pointer_key scope id).
Definition remove_reference (scope : ArtifactScope) (id : SnapshotId) : A () :=
  host;;
  delete_blob (pointer_key scope id).

(** *** Garbage collection *)

Fixpoint collect_references (scope : ArtifactScope) (pointers : list (string * Z)) (reachable : gset string) (referenced : list SnapshotId) :
    A (gset string * list SnapshotId) :=
  match pointers with
  | [] => mret (reachable, referenced)
  | (key, _) :: pointers' =>
      ensure_deadline "scan snapshot references";;
      id ← M_lift (snapshot_id_from_pointer_key key);
      '(manifest, _) ← load_manifest scope id;
      '(pointer, _) ← read_pointer scope id;
      collect_references scope pointers'
        ({[ object_key scope (pointer_manifest pointer) ]} ∪
           list_to_set ((λ object, object_key scope (object_artifact object)) <$> manifest_objects manifest) ∪ reachable)
        (id :: referenced)
  end.

(** Deletes what [keep] does not keep: how many were removed and retained. *)
Fixpoint sweep (operation : string) (keep : string * Z → result ArtifactError bool) (l : list (string * Z)) (removed retained : Z) :
    A (Z * Z) :=
  match l with
  | [] => mret (removed, retained)
  | object :: l' =>
      ensure_deadline operation;;
      kept ← M_lift (keep object);
      if (kept : bool) then sweep operation keep l' removed (retained + 1)
      else (delete_blob object.1;; sweep operation keep l' (removed + 1) retained)
  end.

Definition garbage_collect (scope : ArtifactScope) : A GarbageCollectionReport :=
  host;;
  pointers ← list_blobs (snapshot_prefix scope) (maximum_listing_entries limits);
  '(reachable, referenced) ← collect_references scope pointers ∅ [];
  w ← M_get;
  let cutoff := time w - garbage_collection_grace limits in
  objects ← list_blobs (object_prefix scope) (maximum_listing_entries limits);
  '(removed_objects, retained) ← sweep "collect snapshot objects"
    (λ '(key, changed), Ok (bool_decide (key ∈ reachable) || (cutoff <? changed))) objects 0 0;
  staging ← list_blobs (staging_prefix scope) (maximum_listing_entries limits);
  '(removed_staging, _) ← sweep "collect abandoned staging objects" (λ '(_, changed), Ok (cutoff <? changed)) staging 0 0;
  transfers ← list_blobs (transfer_prefix scope) (maximum_listing_entries limits);
  '(removed_transfers, retained_transfers) ← sweep "collect snapshot transfer records"
    (λ '(key, changed), id ← snapshot_id_from_transfer_key scope key;
                        mret (bool_decide (id ∈ referenced) || (cutoff <? changed))) transfers 0 0;
  mret (MkReport removed_staging removed_objects removed_transfers retained retained_transfers).

(** *** Transfers *)

Definition grant_of (m : SnapshotManifest) : result ArtifactError SnapshotTransferGrant :=
  epoch ← map_err (λ error, Integrity (core_error_to_string error)) (epoch_new (source_assignment_epoch m));
  mret (MkGrant TRANSFER_VERSION (manifest_tenant m) (manifest_workspace m) (manifest_sandbox m) (snapshot_id m) (source_worker m)
          epoch (created_unix_millis m)).

Definition grant_matches (scope : ArtifactScope) (m : SnapshotManifest) (g : SnapshotTransferGrant) : bool :=
  (grant_schema_version g =? TRANSFER_VERSION) && bool_decide (grant_snapshot g = snapshot_id m)
  && bool_decide (grant_tenant g = scope_tenant scope) && bool_decide (grant_workspace g = scope_workspace scope)
  && bool_decide (mode m = StopAndMove) && bool_decide (grant_sandbox g = manifest_sandbox m)
  && bool_decide (grant_source_worker g = source_worker m) && (epoch_get (grant_source_epoch g) =? source_assignment_epoch m)
  && (grant_created g =? created_unix_millis m).

Definition read_grant (scope : ArtifactScope) (m : SnapshotManifest) : A SnapshotTransferGrant :=
  host;;
  bytes ← get (transfer_pointer_key scope (snapshot_id m)) MAXIMUM_TRANSFER_BYTES;
  M_reject_if (MAXIMUM_TRANSFER_BYTES <? length_z bytes) (Integrity "snapshot transfer pointer exceeds its byte limit");;
  pointer ← read_json "snapshot transfer pointer" transfer_pointer_parse bytes;
  M_reject_if (negb (transfer_version pointer =? TRANSFER_VERSION) || negb (bool_decide (transfer_snapshot pointer = snapshot_id m))
               || negb (bool_decide (media_type (transfer_grant pointer) = TRANSFER_GRANT_MEDIA_TYPE))
               || (MAXIMUM_TRANSFER_BYTES <? size_bytes (transfer_grant pointer)))
    (Integrity "snapshot transfer pointer is invalid");;
  host;;
  maximum ← M_lift (maximum_envelope_bytes (size_bytes (transfer_grant pointer)));
  envelope ← get (transfer_grant_key scope (snapshot_id m)) maximum;
  host;;
  bytes ← opening envelope scope (transfer_grant pointer);
  grant ← read_json "snapshot transfer grant" grant_parse bytes;
  M_reject_if (negb (grant_matches scope m grant)) (Integrity "snapshot transfer grant does not match its manifest");;
  mret grant.

Definition publish_grant (scope : ArtifactScope) (m : SnapshotManifest) : A SnapshotTransferGrant :=
  found ← blob_exists (transfer_pointer_key scope (snapshot_id m));
  if (found : bool) then read_grant scope m
  else
    M_reject_if (negb (bool_decide (mode m = StopAndMove))) (Invalid "only a stop-and-move snapshot can receive a transfer grant");;
    grant ← M_lift (grant_of m);
    bytes ← write_json "transfer" grant_json grant;
    d ← M_lift (describe (Ok bytes) MAXIMUM_TRANSFER_BYTES);
    let d := with_media TRANSFER_GRANT_MEDIA_TYPE d in
    envelope ← sealing (Ok bytes) scope d;
    put_if_absent (transfer_grant_key scope (snapshot_id m)) envelope;;
    pointer ← write_json "transfer" transfer_pointer_json (MkTransferPointer TRANSFER_VERSION (snapshot_id m) d);
    M_reject_if (MAXIMUM_TRANSFER_BYTES <? length_z pointer) (Invalid "snapshot transfer pointer exceeds its byte limit");;
    status ← put_if_absent (transfer_pointer_key scope (snapshot_id m)) pointer;
    (if bool_decide (status = Reused) then
       existing ← read_grant scope m;
       M_reject_if (negb (bool_decide (existing = grant))) (Integrity "snapshot transfer grant conflicts with its manifest")
     else mret tt);;
    mret grant.

Definition already_claimed : ArtifactError := AlreadyExists "snapshot transfer was claimed by another destination".

Definition verify_existing_claim (scope : ArtifactScope) (id : SnapshotId) (claim : SnapshotTransferClaim) (d : ArtifactDescriptor) : A () :=
  maximum ← M_lift (maximum_envelope_bytes (size_bytes d));
  envelope ← get (transfer_claim_key scope id) maximum;
  opened ← attempt (opening envelope scope d);
  match opened with
  | Err _ => M_fail already_claimed
  | Ok bytes =>
      existing ← read_json "snapshot transfer claim" claim_parse bytes;
      M_reject_if (negb (bool_decide (existing = claim))) already_claimed
  end.

Definition claim_of (g : SnapshotTransferGrant) (t : RestoreTarget) : SnapshotTransferClaim :=
  MkClaim TRANSFER_VERSION (grant_tenant g) (grant_workspace g) (grant_sandbox g) (grant_snapshot g) (grant_source_worker g)
    (grant_source_epoch g) (target_worker t) (target_epoch t).

Definition claim (scope : ArtifactScope) (m : SnapshotManifest) (t : RestoreTarget) : A SnapshotTransferClaim :=
  grant ← read_grant scope m;
  M_reject_if (negb (bool_decide (grant_tenant grant = target_tenant t)) || negb (bool_decide (grant_workspace grant = target_workspace t))
               || negb (bool_decide (grant_sandbox grant = target_sandbox t))
               || bool_decide (grant_source_worker grant = target_worker t)
               || (epoch_get (target_epoch t) <=? epoch_get (grant_source_epoch grant)))
    (AccessDenied "snapshot transfer target does not match its fenced grant");;
  let c := claim_of grant t in
  bytes ← write_json "transfer" claim_json c;
  d ← M_lift (describe (Ok bytes) MAXIMUM_TRANSFER_BYTES);
  let d := with_media TRANSFER_CLAIM_MEDIA_TYPE d in
  envelope ← sealing (Ok bytes) scope d;
  status ← put_if_absent (transfer_claim_key scope (snapshot_id m)) envelope;
  (if bool_decide (status = Reused) then verify_existing_claim scope (snapshot_id m) c d else mret tt);;
  mret c.

Definition publish_transfer_grant (scope : ArtifactScope) (id : SnapshotId) : A SnapshotTransferGrant :=
  host;;
  host;;
  '(manifest, _) ← load_manifest scope id;
  publish_grant scope manifest.
Definition claim_transfer (scope : ArtifactScope) (id : SnapshotId) (t : RestoreTarget) : A SnapshotTransferClaim :=
  host;;
  host;;
  '(manifest, _) ← load_manifest scope id;
  claim scope manifest t.
End code.
End Artifact.
