(* ===== verification/ArtifactProofs.v ===== *)
(** * What the artifact repository keeps

    Published snapshots stay materializable, whatever is published, transferred
    and collected afterwards, until their reference is removed; scopes do not
    reach each other's blobs; and a transfer is claimed by one destination. *)
From S2P Require Import Prelude Identity Lifecycle GuestProfile Volume Snapshot Envelope Artifact.
Import Volume.Volume Snapshot.Snapshot Envelope.Envelope Artifact.Artifact.

(** ** Keys *)

Lemma slash_inj x y x' y' :
  "/"%char ∉ bytes x → "/"%char ∉ bytes x' → (x +:+ String "/" y = x' +:+ String "/" y')%string → x = x' ∧ y = y'.
Proof.
  intros Hx Hx' Heq. assert (split_once "/" (x +:+ String "/" y) = Some (x, y)) as H1 by (by apply split_once_Some).
  assert (split_once "/" (x +:+ String "/" y) = Some (x', y')) as H2 by (rewrite Heq; by apply split_once_Some). by simplify_eq.
Qed.

Lemma identifier_no_slash {kind maximum} (i : identifier kind maximum) : "/"%char ∉ bytes (as_str i).
Proof.
  intros Hin. pose proof (identifier_bytes i) as Hb. by pose proof (all_bytes_elem _ _ _ Hb Hin).
Qed.

Lemma string_app_inj_r (x y z : string) : (x +:+ z = y +:+ z)%string → x = y.
Proof. intros Heq. apply bytes_inj. apply (f_equal bytes) in Heq. rewrite !bytes_app in Heq. by simplify_list_eq. Qed.

Lemma split_byte_parts c x y : ∃ l, l ≠ [] ∧ split_byte c (x +:+ String c y) = l ++ split_byte c y.
Proof.
  induction x as [|b x (l & Hl & IH)]; simpl.
  - rewrite Ascii.eqb_refl. by exists [EmptyString].
  - rewrite IH. destruct (Ascii.eqb b c); [by exists (EmptyString :: l)|]. destruct l as [|part l]; [done|]. by exists (String b part :: l).
Qed.
Lemma last_part x y : "/"%char ∉ bytes y → last (split_byte "/" (x +:+ String "/" y)) = Some y.
Proof.
  intros Hy. destruct (split_byte_parts "/" x y) as (l & _ & ->). rewrite (split_byte_plain _ _ Hy). apply last_snoc.
Qed.

(** A key of a scope: what follows its prefix. *)
Definition scoped (scope : ArtifactScope) (rest : string) : string := (storage_prefix scope +:+ String "/" rest)%string.

Lemma scoped_inj s s' r r' : scoped s r = scoped s' r' → s = s' ∧ r = r'.
Proof.
  unfold scoped, storage_prefix. rewrite !app_assoc_string. intros Heq.
  change ("tenants/" +:+ ?x)%string with ("tenants" +:+ String "/" x)%string in Heq.
  apply slash_inj in Heq as [_ Heq]; [|set_solver..].
  change ("/workspaces/" +:+ ?x)%string with (String "/" ("workspaces" +:+ String "/" x))%string in Heq.
  apply slash_inj in Heq as [Ht Heq]; [|apply identifier_no_slash..].
  apply slash_inj in Heq as [_ Heq]; [|set_solver..].
  apply slash_inj in Heq as [Hw Heq]; [|apply identifier_no_slash..].
  split; [|done]. destruct s, s'; simpl in *. f_equal; by apply (inj as_str).
Qed.

(** ** Lists of objects *)

Lemma concat_perm {X} (l l' : list (list X)) : l ≡ₚ l' → concat l ≡ₚ concat l'.
Proof.
  induction 1 as [|x l l' _ IH|x y l|l l' l'' _ IH1 _ IH2]; simpl; [done|by rewrite IH| |by etrans].
  rewrite !app_assoc. by rewrite (comm (++) x y).
Qed.

Lemma btree_values_perm {K V} `{Countable K, !BTreeOrd K} (m : gmap K V) : btree_values m ≡ₚ (map_to_list m).*2.
Proof. unfold btree_values. by rewrite btree_iter_perm. Qed.

Lemma values_insert_app {K X} `{Countable K, !BTreeOrd K} (m : gmap K (list X)) (k : K) (x : X) :
  concat (btree_values (<[k := default [] (m !! k) ++ [x]]> m)) ≡ₚ concat (btree_values m) ++ [x].
Proof.
  rewrite (concat_perm _ _ (btree_values_perm _)), (concat_perm _ _ (btree_values_perm m)).
  rewrite <-(insert_delete_eq m k (default [] (m !! k) ++ [x])).
  rewrite (concat_perm _ ((k, default [] (m !! k) ++ [x]) :: map_to_list (delete k m)).*2)
    by (rewrite map_to_list_insert; [done|apply lookup_delete_eq]). simpl.
  rewrite <-app_assoc, (comm (++) [x]), app_assoc. apply (Permutation_app_tail [x]).
  destruct (m !! k) as [y|] eqn:Hk; simpl.
  - rewrite (concat_perm (map_to_list m).*2 ((k, y) :: map_to_list (delete k m)).*2); [done|]. by rewrite map_to_list_delete.
  - by rewrite delete_id.
Qed.

Section repository.
Context `{CryptographyLaws, ArtifactCodec} (random : nat → Randomness) (master : list ascii) (limits : ArtifactLimits).
(** Contents and media types whose digests do not collide. *)
Context (U : list ascii → Prop) (V : string → Prop).

Record distinct : Prop := Distinct {
  hex_slash l : "/"%char ∉ bytes (hex l);
  contents_differ c c' : U c → U c' → hex (sha256 c) = hex (sha256 c') → c = c';
  media_differ m m' : V m → V m' → hex (take 8 (sha256 (bytes m))) = hex (take 8 (sha256 (bytes m'))) → m = m';
  manifest_media : V MANIFEST_MEDIA_TYPE
}.
Context (Hdistinct : distinct) (Hrandom : ∀ n, fresh (random n)).

(** The descriptor is that of the content. *)
Record honest (content : list ascii) (d : ArtifactDescriptor) : Prop := Honest {
  ho_content : U content;
  ho_media : V (media_type d);
  ho_digest : digest d = digest_text content;
  ho_size : size_bytes d = length_z content;
  ho_bounds : 0 < length_z content ≤ u64_max
}.

Lemma object_key_scoped scope d :
  object_key scope d = scoped scope ("objects/sha256/" +:+ default "invalid"%string (strip_prefix "sha256:" (digest d)) +:+ "/"
    +:+ hex (take 8 (sha256 (bytes (media_type d)))) +:+ ".envelope").
Proof. done. Qed.

Lemma strip_digest content : strip_prefix "sha256:" (digest_text content) = Some (hex (sha256 content)).
Proof. apply strip_prefix_app. Qed.

Lemma object_key_inj scope scope' d d' content content' :
  honest content d → honest content' d' → object_key scope d = object_key scope' d' → scope = scope' ∧ d = d' ∧ content = content'.
Proof.
  intros [Hu Hv Hd Hs _] [Hu' Hv' Hd' Hs' _]. rewrite !object_key_scoped. intros [-> Heq]%scoped_inj. split; [done|].
  rewrite Hd, Hd', !strip_digest in Heq. simpl in Heq.
  injection Heq as Heq. apply slash_inj in Heq as [Hc Heq]; [|apply (hex_slash Hdistinct)..].
  assert (content = content') as <- by (by apply (contents_differ Hdistinct)). split; [|done].
  assert (media_type d = media_type d') as Hm.
  { apply (media_differ Hdistinct); [done..|]. by apply string_app_inj_r in Heq. }
  destruct d, d'; simpl in *. congruence.
Qed.

(** ** The blobs of a world *)

(** The envelope opens to the content, and has the size that is read at most. *)
Record opens (e : list ascii) (scope : ArtifactScope) (d : ArtifactDescriptor) (content : list ascii) : Prop := Opens {
  op_open : open e scope d master None = Ok content;
  op_size : length_z e = HEADER_BYTES + size_bytes d + (Z.of_nat (full_chunks (size_bytes d)) + 1) * TAG_BYTES
}.

(** Every object is an envelope of the content that its key names. *)
Definition genuine_put (key : string) (e : list ascii) : Prop :=
  ∀ scope d content, honest content d → key = object_key scope d → opens e scope d content.
Definition genuine (m : gmap string Blob) : Prop := map_Forall (λ key b, genuine_put key (blob_content b)) m.

(** Only keys of [D] may be deleted; nothing that is there changes. *)
Definition spares (D : string → Prop) (m m' : gmap string Blob) : Prop := ∀ k b, ¬ D k → m !! k = Some b → m' !! k = Some b.
Definition friendly_op (D : string → Prop) (o : BlobOp) : Prop :=
  match o with OtherPut key e => genuine_put key e | OtherDelete key => D key end.
Definition friendly (D : string → Prop) (e : Event) : Prop := Forall (friendly_op D) (before e).

Record Good (D : string → Prop) (w : World) : Prop := MkGood {
  good_blobs : genuine (blobs w);
  good_events : Forall (friendly D) (events w)
}.
Definition allowed (D : string → Prop) (w w' : World) : Prop := Good D w → Good D w' ∧ spares D (blobs w) (blobs w').

#[global] Instance spares_preorder D : PreOrder (spares D).
Proof. split; [by intros m k b|]. intros m1 m2 m3 H12 H23 k b Hk Hb. by apply H23, H12. Qed.
#[global] Instance allowed_preorder D : PreOrder (allowed D).
Proof.
  split; [by intros w|]. intros w1 w2 w3 H12 H23 Hg. destruct (H12 Hg) as [Hg2 Hs]. destruct (H23 Hg2) as [Hg3 Hs']. split; [done|]. by etrans.
Qed.

Lemma put_blob_ok D now key e m : genuine_put key e → genuine m → genuine (put_blob now key e m) ∧ spares D m (put_blob now key e m).
Proof.
  intros He Hm. unfold put_blob. destruct (m !! key) as [b|] eqn:Hb; [done|]. split.
  - by apply map_Forall_insert_2.
  - intros k b Hk Hkb. rewrite lookup_insert_ne; [done|]. congruence.
Qed.
Lemma delete_ok (D : string → Prop) key (m : gmap string Blob) : D key → genuine m → genuine (delete key m) ∧ spares D m (delete key m).
Proof.
  intros Hkey Hm. split; [by apply map_Forall_delete|]. intros k b Hk Hb. rewrite lookup_delete_ne; [done|]. congruence.
Qed.

Lemma apply_ops_ok D now l m :
  Forall (friendly_op D) l → genuine m → genuine (foldl (apply_op now) m l) ∧ spares D m (foldl (apply_op now) m l).
Proof.
  intros Hl. revert m. induction Hl as [|o l Ho _ IH]; intros m Hm; [done|]. simpl.
  assert (genuine (apply_op now m o) ∧ spares D m (apply_op now m o)) as [Hm' Hs].
  { destruct o; simpl in *; [by apply put_blob_ok|by apply delete_ok]. }
  destruct (IH _ Hm') as [? ?]. split; [done|]. by etrans.
Qed.

Lemma step_allowed D w : allowed D w (step w).
Proof.
  intros [Hm He]. assert (friendly D (next_event w) ∧ Forall (friendly D) (tail (events w))) as [Hn Ht].
  { unfold next_event. destruct (events w) as [|e es]; [by repeat constructor|]. by apply Forall_cons in He. }
  destruct (apply_ops_ok D (time w + elapsed (next_event w)) _ _ Hn Hm) as [? ?]. split; [|done]. by split.
Qed.

Lemma call_allowed {X} D (f : World → World * result ArtifactError X) :
  (∀ w, allowed D w (f w).1) → keeps (allowed D) (call f).
Proof.
  intros Hf w. unfold call. destruct (fault (next_event w)) as [[[] e]|]; simpl; [|apply step_allowed|].
  - by trans (step w); [apply step_allowed|].
  - by trans (step w); [apply step_allowed|].
Qed.

Create HintDb allowed.

Lemma allowed_host D : keeps (allowed D) host.
Proof. apply call_allowed. reflexivity. Qed.
Lemma allowed_deadline D operation : keeps (allowed D) (ensure_deadline operation).
Proof. intros w. apply step_allowed. Qed.
Lemma allowed_get D key maximum : keeps (allowed D) (get key maximum).
Proof. unfold get. apply keeps_bind; [apply _|apply keeps_lift; apply _|intros _]. apply call_allowed. reflexivity. Qed.
Lemma allowed_exists D key : keeps (allowed D) (blob_exists key).
Proof. unfold blob_exists. apply keeps_bind; [apply _|apply keeps_lift; apply _|intros _]. apply call_allowed. reflexivity. Qed.
Lemma allowed_list D prefix maximum : keeps (allowed D) (list_blobs prefix maximum).
Proof. unfold list_blobs. apply keeps_bind; [apply _|apply keeps_lift; apply _|intros _]. apply call_allowed. reflexivity. Qed.
Lemma allowed_put D key e : genuine_put key e → keeps (allowed D) (put_if_absent key e).
Proof.
  intros He. unfold put_if_absent. apply keeps_bind; [apply _|apply keeps_lift; apply _|intros _]. apply call_allowed.
  intros w [Hm Hev]. simpl. destruct (put_blob_ok D (time w) key e _ He Hm). split; [|done]. by split.
Qed.
Lemma allowed_delete (D : string → Prop) key : D key → keeps (allowed D) (delete_blob key).
Proof.
  intros Hk. unfold delete_blob. apply keeps_bind; [apply _|apply keeps_lift; apply _|intros _]. apply call_allowed.
  intros w [Hm Hev]. simpl. destruct (delete_ok D key _ Hk Hm). split; [|done]. by split.
Qed.
Lemma allowed_sealing D file scope d : keeps (allowed D) (sealing random master file scope d).
Proof. intros w Hg. destruct (step_allowed D w Hg) as [[? ?] ?]. split; [|done]. by split. Qed.
Lemma allowed_opening D e scope d : keeps (allowed D) (opening master e scope d).
Proof. intros w. apply step_allowed. Qed.
Hint Resolve allowed_host allowed_deadline allowed_get allowed_exists allowed_list allowed_sealing allowed_opening : allowed.

Lemma allowed_attempt {X} D (c : M World ArtifactError X) : keeps (allowed D) c → keeps (allowed D) (attempt c).
Proof. intros Hc w. unfold attempt. specialize (Hc w). by destruct (c w). Qed.
Hint Resolve allowed_attempt : allowed.

Ltac allowing :=
  repeat match goal with
  | |- keeps _ (mret _) => apply keeps_ret; apply _
  | |- keeps _ (M_fail _) => apply keeps_fail; apply _
  | |- keeps _ M_get => apply keeps_get; apply _
  | |- keeps _ (M_lift _) => apply keeps_lift; apply _
  | |- keeps _ (M_reject_if _ _) => apply keeps_reject; apply _
  | |- keeps _ (_ ≫= _) => apply keeps_bind; [apply _| |intros ?; cbv beta zeta]
  | |- keeps _ (let '(_, _) := ?x in _) => destruct x
  | |- keeps _ (if ?b then _ else _) => destruct b
  | |- keeps _ (match ?x with _ => _ end) => destruct x
  end; auto with allowed.

Lemma allowed_write_json {X} D kind (encode : X → result string (list ascii)) x : keeps (allowed D) (write_json kind encode x).
Proof. unfold write_json. allowing. Qed.
Lemma allowed_read_json {X} D what (decode : list ascii → result string X) l : keeps (allowed D) (read_json what decode l).
Proof. unfold read_json. allowing. Qed.
Hint Resolve allowed_write_json allowed_read_json : allowed.
Lemma allowed_read_pointer D scope id : keeps (allowed D) (read_pointer scope id).
Proof. unfold read_pointer. allowing. Qed.
Hint Resolve allowed_read_pointer : allowed.
Lemma allowed_load_manifest D scope id : keeps (allowed D) (load_manifest master scope id).
Proof. unfold load_manifest. allowing. Qed.
Hint Resolve allowed_load_manifest : allowed.
Lemma allowed_materialize_objects D scope objects : ∀ written n, keeps (allowed D) (materialize_objects master scope objects written n).
Proof. induction objects as [|o objects IH]; intros written n; cbn [materialize_objects]; allowing. Qed.
Lemma allowed_materialize D scope id absent : keeps (allowed D) (materialize master limits scope id absent).
Proof. unfold materialize. allowing. apply allowed_materialize_objects. Qed.
Lemma allowed_collect_references D scope pointers : ∀ reachable referenced,
  keeps (allowed D) (collect_references master scope pointers reachable referenced).
Proof. induction pointers as [|[k t] pointers IH]; intros reachable referenced; cbn [collect_references]; allowing. Qed.
Lemma allowed_read_grant D scope m : keeps (allowed D) (read_grant master scope m).
Proof. unfold read_grant. allowing. Qed.
Hint Resolve allowed_collect_references allowed_read_grant : allowed.

(** *** What is put *)

Lemma pointer_key_scoped scope id : pointer_key scope id = scoped scope ("snapshots/" +:+ as_str id +:+ ".json").
Proof. done. Qed.
Lemma transfer_key_scoped scope id name : transfer_key scope id name = scoped scope ("transfers/" +:+ as_str id +:+ "/" +:+ name).
Proof. done. Qed.

Lemma pointer_put scope id e : genuine_put (pointer_key scope id) e.
Proof. intros scope' d content _. rewrite pointer_key_scoped, object_key_scoped. by intros [_ Heq]%scoped_inj. Qed.
Lemma transfer_put scope id name e : genuine_put (transfer_key scope id name) e.
Proof. intros scope' d content _. rewrite transfer_key_scoped, object_key_scoped. by intros [_ Heq]%scoped_inj. Qed.

(** An object that is there for its readers. *)
Record stored (scope : ArtifactScope) (d : ArtifactDescriptor) (content : list ascii) (m : gmap string Blob) : Prop := Stored {
  st_valid : check_key (object_key scope d) = Ok tt;
  st_blob : ∃ b, m !! object_key scope d = Some b ∧ opens (blob_content b) scope d content
}.

Lemma sealed_put file scope d envelope n patience :
  (∀ c, file = Ok c → U c) → V (media_type d) → 0 < size_bytes d ≤ u64_max →
  seal file scope d master (random n) patience = Ok envelope →
  ∃ content, file = Ok content ∧ honest content d ∧ genuine_put (object_key scope d) envelope.
Proof.
  intros Hf Hv Hs Hseal. destruct file as [content|e].
  2: { unfold seal in Hseal. apply bind_Ok_inv in Hseal as ([] & _ & Hseal). done. }
  apply seal_Ok in Hseal as (Ho & Hl & Hd & Hsize); [|done|done].
  assert (honest content d) as Hh by (split; [by apply Hf|done|done|done|lia]). exists content. split_and!; [done..|].
  intros scope' d' content' Hh' Heq. destruct (object_key_inj _ _ _ _ _ _ Hh Hh' Heq) as (<- & <- & <-). by split.
Qed.

Lemma sealing_Ok file scope d w w' envelope :
  sealing random master file scope d w = (w', Ok envelope) →
  seal file scope d master (random (draws w)) (event_patience (next_event w)) = Ok envelope.
Proof. unfold sealing. destruct (fault (next_event w)) as [[? ?]|]; [done|]. by intros [= _ ->]. Qed.

Lemma put_if_absent_Ok D key e w w' status :
  genuine_put key e → Good D w → put_if_absent key e w = (w', Ok status) →
  check_key key = Ok tt ∧ (∃ b, blobs w' !! key = Some b) ∧ (status = Created → ∃ now, blobs w' !! key = Some (MkBlob e now)) ∧
  (∀ b, ¬ D key → blobs w !! key = Some b → status = Reused).
Proof.
  intros He Hg Hrun. unfold put_if_absent in Hrun. apply M_bind_Ok_inv in Hrun as ([] & w0 & [= <- Hk] & Hrun).
  unfold call in Hrun. destruct (fault (next_event w)) as [[[] ?]|]; [done|done|]. destruct (step_allowed D w Hg) as [_ Hs].
  generalize dependent (step w). intros w1 Hrun Hs. injection Hrun as <- <-. unfold put_blob. simpl.
  destruct (blobs w1 !! key) as [b|] eqn:Hb.
  - rewrite bool_decide_eq_true_2 by eauto. split_and!; [done|by exists b|done|done].
  - rewrite bool_decide_eq_false_2 by (by intros [? ?]). rewrite lookup_insert_eq. split_and!; [done|by eexists|by eexists|].
    intros b Hd Hkb. specialize (Hs _ _ Hd Hkb). congruence.
Qed.

Lemma store_object_allowed D file scope d :
  (∀ c, file = Ok c → U c) → V (media_type d) → 0 < size_bytes d ≤ u64_max →
  keeps (allowed D) (store_object random master file scope d).
Proof.
  intros Hf Hv Hs w. unfold store_object. unfold mbind at 1, M_bind at 1.
  pose proof (allowed_sealing D file scope d w) as Hstep. destruct (sealing random master file scope d w) as [w1 [envelope|e]] eqn:Hrun; [|done].
  etrans; [exact Hstep|]. apply sealing_Ok in Hrun. destruct (sealed_put _ _ _ _ _ _ Hf Hv Hs Hrun) as (content & _ & _ & Hput).
  simpl. apply keeps_bind; [apply _|by apply allowed_put|intros ?; apply keeps_ret; apply _].
Qed.

Lemma store_object_Ok D file scope d w w' r :
  (∀ c, file = Ok c → U c) → V (media_type d) → 0 < size_bytes d ≤ u64_max → Good D w →
  store_object random master file scope d w = (w', Ok r) → ∃ content, file = Ok content ∧ honest content d ∧ stored scope d content (blobs w').
Proof.
  intros Hf Hv Hs Hg Hrun. pose proof (store_object_allowed D file scope d Hf Hv Hs w) as Hall. rewrite Hrun in Hall. simpl in Hall.
  destruct (Hall Hg) as [[Hm _] _]. unfold store_object in Hrun. apply M_bind_Ok_inv in Hrun as (envelope & w1 & Hseal & Hrun).
  pose proof (allowed_sealing D file scope d w Hg) as [Hg1 _]. rewrite Hseal in Hg1. simpl in Hg1. apply sealing_Ok in Hseal.
  destruct (sealed_put _ _ _ _ _ _ Hf Hv Hs Hseal) as (content & Hc & Hh & Hput). exists content. split_and!; [done..|].
  apply M_bind_Ok_inv in Hrun as (status & w2 & Hp & [= <- _]).
  apply (put_if_absent_Ok D) in Hp as (Hk & [b Hb] & _); [|done|done]. split; [done|]. exists b. split; [done|]. by apply (Hm _ _ Hb).
Qed.

(** ** What a publication publishes *)

Definition content_of (staged : StagedSnapshotObject) : list ascii := match staged_described staged with Ok c => c | Err _ => [] end.
Definition describes_content (content : list ascii) (media : string) : ArtifactDescriptor :=
  MkArtifact (digest_text content) (length_z content) media.
Definition descriptor_of (staged : StagedSnapshotObject) : ArtifactDescriptor :=
  describes_content (content_of staged) (staged_media_type staged).
Definition object_of (staged : StagedSnapshotObject) : SnapshotObject :=
  MkObject (staged_name staged) (staged_role staged) (descriptor_of staged).

Definition add_object (cs : gmap ContainerId (list SnapshotObject) * list SnapshotObject) (staged : StagedSnapshotObject) :
    gmap ContainerId (list SnapshotObject) * list SnapshotObject :=
  match staged_container staged with
  | Some c => (<[c := default [] (cs.1 !! c) ++ [object_of staged]]> cs.1, cs.2)
  | None => (cs.1, cs.2 ++ [object_of staged])
  end.
Definition add_volume (vs : gmap VolumeId VolumeSnapshotDescriptor) (staged : StagedSnapshotObject) : gmap VolumeId VolumeSnapshotDescriptor :=
  match staged_volume staged with
  | Some v => <[staged_volume_id v := MkVolumeSnapshot (staged_schema_version v) (staged_provider v) (staged_class v)
                 (staged_portability v) (staged_name staged) (descriptor_of staged)]> vs
  | None => vs
  end.

(** The manifest with the objects of the publication. *)
Definition manifest_of (p : SnapshotPublication) : SnapshotManifest :=
  let objects := publication_objects p in
  let cs := foldl add_object (∅, []) objects in
  populated (publication_manifest p) (MkProgress 0 0 0 ∅ cs.1 cs.2 (foldl add_volume ∅ objects)).
(** The files of the publication. *)
Definition files_of (p : SnapshotPublication) : gmap string (list ascii) :=
  list_to_map ((λ staged, (staged_name staged, content_of staged)) <$> publication_objects p).

Record staged_within (staged : StagedSnapshotObject) : Prop := StagedWithin {
  sw_described c : staged_described staged = Ok c → U c;
  sw_sealed c : staged_sealed staged = Ok c → U c;
  sw_media : V (staged_media_type staged)
}.
(** The contents and media types of a publication are among those that do not collide. *)
Record within (p : SnapshotPublication) : Prop := Within {
  wi_objects : Forall staged_within (publication_objects p);
  wi_manifest l : manifest_json (manifest_of p) = Ok l → U l
}.

Lemma describe_Ok file maximum d :
  describe file maximum = Ok d → ∃ c, file = Ok c ∧ d = describes_content c EmptyString ∧ 0 < length_z c ≤ maximum.
Proof.
  unfold describe. intros (c & -> & Hrun)%bind_Ok_inv. apply bind_Ok_inv in Hrun as ([] & Hmax%reject_if_Ok & Hrun).
  apply bind_Ok_inv in Hrun as ([] & Hnz%reject_if_Ok & <-%Ok_inj). exists c. split_and!; [done..|lia|lia].
Qed.

Lemma describe_volume_Ok staged volumes volumes' :
  describe_volume staged (descriptor_of staged) volumes = Ok volumes' → volumes' = add_volume volumes staged.
Proof.
  unfold describe_volume, add_volume. destruct (staged_volume staged) as [v|].
  - intros ([] & _ & Hrun)%bind_Ok_inv. by apply bind_Ok_inv in Hrun as ([] & _ & <-%Ok_inj).
  - by intros ([] & _ & <-%Ok_inj)%bind_Ok_inv.
Qed.

Context (Hlimits : maximum_object_bytes limits ≤ 2 ^ 60).

Lemma publish_object_allowed D scope staged p : staged_within staged → keeps (allowed D) (publish_object random master limits scope staged p).
Proof.
  intros [Hd Hs Hm]. unfold publish_object. do 6 (apply keeps_bind; [apply _|allowing|intros ?; cbv beta zeta]).
  apply keeps_bind_Ok; [apply _|allowing|]. intros w w' d [= <- (c & Hc & -> & Hsize)%describe_Ok].
  match goal with |- allowed _ ?w (?c ?w).1 => enough (keeps (allowed D) c) as Hk by apply Hk end. cbv zeta.
  do 2 (apply keeps_bind; [apply _|allowing|intros ?; cbv beta zeta]).
  apply keeps_bind; [apply _|apply store_object_allowed; [done|done|simpl; unfold u64_max; lia]|]. intros [n status]. allowing.
Qed.

Lemma publish_object_Ok D scope staged p w w' p' :
  staged_within staged → publish_object random master limits scope staged p w = (w', Ok p') →
  (Good D w → stored scope (descriptor_of staged) (content_of staged) (blobs w')) ∧
  (p_containers p', p_sandbox p') = add_object (p_containers p, p_sandbox p) staged ∧ p_volumes p' = add_volume (p_volumes p) staged ∧
  object_name_rejected (staged_name staged) = false ∧ (staged_name staged ∉ p_names p) ∧ p_names p' = {[ staged_name staged ]} ∪ p_names p ∧
  0 < length_z (content_of staged) ≤ maximum_object_bytes limits ∧
  p_logical p' = p_logical p + length_z (content_of staged) ∧ p_logical p' ≤ u64_max ∧ p_logical p' ≤ maximum_snapshot_bytes limits.
Proof.
  intros Hin Hrun. pose proof Hin as [Hd Hs Hm]. unfold publish_object in Hrun.
  apply M_bind_Ok_inv in Hrun as ([] & w1 & Hdl & Hrun). pose proof (allowed_deadline D "publish snapshot objects" w) as Hg1.
  rewrite Hdl in Hg1. simpl in Hg1.
  apply M_bind_Ok_inv in Hrun as ([] & w0 & [= <- Hname%reject_if_Ok] & Hrun). apply M_bind_Ok_inv in Hrun as ([] & w0 & [= <- _] & Hrun).
  apply M_bind_Ok_inv in Hrun as ([] & w0 & [= <- Hdup] & Hrun). apply M_bind_Ok_inv in Hrun as (regular & w0 & [= <- _] & Hrun).
  apply M_bind_Ok_inv in Hrun as ([] & w0 & [= <- _] & Hrun).
  apply M_bind_Ok_inv in Hrun as (d & w0 & [= <- (c & Hc & -> & Hsize)%describe_Ok] & Hrun). cbv zeta in Hrun.
  assert (content_of staged = c) as Hcont by (unfold content_of; by rewrite Hc).
  assert (with_media (staged_media_type staged) (describes_content c EmptyString) = descriptor_of staged) as Hdesc
    by (unfold descriptor_of; by rewrite Hcont).
  rewrite Hdesc in Hrun.
  apply M_bind_Ok_inv in Hrun as (logical & w0 & [= <- [-> Hlog]%ok_or_Ok%checked_add_Some] & Hrun).
  apply M_bind_Ok_inv in Hrun as ([] & w0 & [= <- Hmax] & Hrun). apply M_bind_Ok_inv in Hrun as ([n status] & w2 & Hst & Hrun).
  assert (Good D w → stored scope (descriptor_of staged) c (blobs w2)) as Hstored.
  { intros [Hg _]%Hg1. destruct (store_object_Ok D _ scope (descriptor_of staged) _ _ _ Hs Hm
      ltac:(rewrite <-Hcont in Hsize; simpl; unfold u64_max; lia) Hg Hst) as (c' & Hc' & Hh & Hstored).
    assert (c' = c) as ->; [|done].
    apply (contents_differ Hdistinct); [by apply (ho_content _ _ Hh)|by apply Hd|]. pose proof (ho_digest _ _ Hh) as Hdig.
    unfold descriptor_of in Hdig. rewrite Hcont in Hdig. simpl in Hdig. unfold digest_text in Hdig. by injection Hdig. }
  clear Hst Hg1 Hdl.
  apply M_bind_Ok_inv in Hrun as (volumes & w0 & [= <- ->%describe_volume_Ok] & Hrun). rewrite Hcont.
  destruct (bool_decide_reflect (staged_name staged ∈ p_names p)); [done|].
  destruct (Z.ltb_spec (maximum_snapshot_bytes limits) (p_logical p + length_z (content_of staged))); [done|]. rewrite Hcont in *.
  unfold add_object. simpl. destruct (staged_container staged) as [c'|]; injection Hrun as <- <-; simpl; split_and!; (done || lia).
Qed.

Lemma added_objects l : ∀ cs,
  concat (btree_values (foldl add_object cs l).1) ++ (foldl add_object cs l).2 ≡ₚ
  (concat (btree_values cs.1) ++ cs.2) ++ (object_of <$> l).
Proof.
  induction l as [|staged l IH]; intros cs; simpl; [by rewrite app_nil_r|]. rewrite IH.
  unfold add_object. destruct (staged_container staged) as [c|]; simpl.
  - rewrite values_insert_app. rewrite <-!app_assoc. apply Permutation_app_head. simpl. by rewrite Permutation_middle.
  - by rewrite <-!app_assoc.
Qed.

Lemma manifest_of_objects p : manifest_objects (manifest_of p) ≡ₚ object_of <$> publication_objects p.
Proof. unfold manifest_of, manifest_objects. simpl. by rewrite added_objects. Qed.

Lemma stored_spares (D : string → Prop) scope d content m m' :
  ¬ D (object_key scope d) → spares D m m' → stored scope d content m → stored scope d content m'.
Proof. intros Hk Hs [Hv (b & Hb & Ho)]. split; [done|]. exists b. split; [by apply Hs|done]. Qed.

Lemma publish_objects_allowed D scope l : Forall staged_within l → ∀ p, keeps (allowed D) (publish_objects random master limits scope l p).
Proof.
  induction 1 as [|staged l Hs _ IH]; intros p; cbn [publish_objects]; [apply keeps_ret; apply _|].
  apply keeps_bind; [apply _|by apply publish_object_allowed|done].
Qed.

(** A staged object that is accepted. *)
Record accepted (staged : StagedSnapshotObject) : Prop := Accepted {
  ac_name : object_name_rejected (staged_name staged) = false;
  ac_size : 0 < length_z (content_of staged) ≤ maximum_object_bytes limits
}.
Definition present (scope : ArtifactScope) (m : gmap string Blob) (staged : StagedSnapshotObject) : Prop :=
  stored scope (descriptor_of staged) (content_of staged) m.

Definition total_of (l : list StagedSnapshotObject) : Z := foldr (λ staged n, length_z (content_of staged) + n) 0 l.

Lemma publish_objects_Ok D scope l : Forall staged_within l →
  ∀ p w w' p', publish_objects random master limits scope l p w = (w', Ok p') →
  (Good D w → Forall (λ staged, ¬ D (object_key scope (descriptor_of staged))) l → Forall (present scope (blobs w')) l) ∧
  Forall accepted l ∧ (p_containers p', p_sandbox p') = foldl add_object (p_containers p, p_sandbox p) l ∧
  p_volumes p' = foldl add_volume (p_volumes p) l ∧ NoDup (staged_name <$> l) ∧ Forall (λ staged, staged_name staged ∉ p_names p) l ∧
  p_logical p' = p_logical p + total_of l ∧ (l ≠ [] → p_logical p' ≤ u64_max ∧ p_logical p' ≤ maximum_snapshot_bytes limits).
Proof.
  induction 1 as [|staged l Hin Hl IH]; intros p w w' p' Hrun; cbn [publish_objects] in Hrun.
  { injection Hrun as <- <-. split_and!; [intros; constructor|constructor|done|done|constructor|constructor|simpl; lia|done]. }
  apply M_bind_Ok_inv in Hrun as (p1 & w1 & Hone & Hrun).
  pose proof (publish_object_allowed D scope staged p Hin w) as Hg1. rewrite Hone in Hg1. simpl in Hg1.
  pose proof (publish_objects_allowed D scope l Hl p1 w1) as Hsp. rewrite Hrun in Hsp. simpl in Hsp.
  apply (publish_object_Ok D) in Hone as (Hst & Hcs & Hvs & Hname & Hnew & Hnames & Hsize & Hlog & Hu & Hmax); [|done].
  destruct (IH p1 w1 w' p' Hrun) as (Hpl & Hac & Hcs' & Hvs' & Hnd & Hfresh & Hlog' & Hmax').
  rewrite Hnames in Hfresh.
  split_and!; [intros Hg [HD HDl]%Forall_cons|constructor; [by split|done]| | | | | |].
  - destruct (Hg1 Hg) as [Hg' _]. destruct (Hsp Hg') as [_ Hs]. constructor; [|by apply Hpl]. by eapply stored_spares, Hst.
  - simpl. by rewrite <-Hcs.
  - simpl. by rewrite <-Hvs.
  - simpl. constructor; [|done]. intros (s' & Heq & Hs')%list_elem_of_fmap. rewrite Forall_forall in Hfresh.
    apply (Hfresh _ Hs'), elem_of_union_l, elem_of_singleton. done.
  - constructor; [done|]. eapply Forall_impl; [exact Hfresh|]. intros s' Hs' Hin'. by apply Hs', elem_of_union_r.
  - simpl. lia.
  - intros _. destruct l as [|s' l]; [|by apply Hmax']. simpl in Hlog'. lia.
Qed.

(** What a published snapshot consists of. *)
Definition manifest_content (p : SnapshotPublication) : list ascii :=
  match manifest_json (manifest_of p) with Ok l => l | Err _ => [] end.
Definition manifest_descriptor (p : SnapshotPublication) : ArtifactDescriptor := describes_content (manifest_content p) MANIFEST_MEDIA_TYPE.
Definition published_id (p : SnapshotPublication) : SnapshotId := snapshot_id (publication_manifest p).
Definition pointer_of (p : SnapshotPublication) : SnapshotPointer := MkPointer POINTER_VERSION (published_id p) (manifest_descriptor p).
Definition object_keys (p : SnapshotPublication) : list string :=
  object_key (publication_scope p) (manifest_descriptor p)
  :: ((λ staged, object_key (publication_scope p) (descriptor_of staged)) <$> publication_objects p).
Definition needed (p : SnapshotPublication) : list string := pointer_key (publication_scope p) (published_id p) :: object_keys p.

Record publishable (p : SnapshotPublication) : Prop := Publishable {
  pu_objects : Forall accepted (publication_objects p);
  pu_names : NoDup (staged_name <$> publication_objects p);
  pu_total : total_of (publication_objects p) ≤ u64_max ∧ total_of (publication_objects p) ≤ maximum_snapshot_bytes limits;
  pu_count : length_z (publication_objects p) ≤ maximum_objects limits;
  pu_scope : validate_scope (publication_scope p) (publication_manifest p) = Ok tt;
  pu_manifest : validate_manifest (manifest_of p) = Ok tt;
  pu_json : manifest_json (manifest_of p) = Ok (manifest_content p);
  pu_size : 0 < length_z (manifest_content p) ≤ MAXIMUM_MANIFEST_BYTES
}.

(** The store holds the snapshot. *)
Record held (p : SnapshotPublication) (m : gmap string Blob) : Prop := Held {
  hd_publishable : publishable p;
  hd_key : check_key (pointer_key (publication_scope p) (published_id p)) = Ok tt;
  hd_pointer : ∃ l now, pointer_json (pointer_of p) = Ok l ∧ length_z l ≤ MAXIMUM_POINTER_BYTES ∧
    m !! pointer_key (publication_scope p) (published_id p) = Some (MkBlob l now);
  hd_manifest : stored (publication_scope p) (manifest_descriptor p) (manifest_content p) m;
  hd_objects : Forall (present (publication_scope p) m) (publication_objects p)
}.

Lemma held_spares (D : string → Prop) p m m' : Forall (λ k, ¬ D k) (needed p) → spares D m m' → held p m → held p m'.
Proof.
  intros [Hp [Hm Ho]%Forall_cons]%Forall_cons Hs [Hpub Hk (l & now & Hj & Hl & Hb) Hman Hobj]. split; [done..| | |].
  - exists l, now. split_and!; [done..|by apply Hs].
  - by eapply stored_spares.
  - apply Forall_forall. intros staged Hin. rewrite Forall_forall in Hobj. rewrite Forall_forall in Ho.
    eapply stored_spares; [apply Ho; by apply (list_elem_of_fmap_2 (λ staged, object_key (publication_scope p) (descriptor_of staged)))|done|by apply Hobj].
Qed.

Lemma populated_manifest p q :
  (p_containers q, p_sandbox q) = foldl add_object (∅, []) (publication_objects p) →
  p_volumes q = foldl add_volume ∅ (publication_objects p) → populated (publication_manifest p) q = manifest_of p.
Proof. intros Hcs Hvs. unfold manifest_of, populated. simpl. rewrite <-Hcs, <-Hvs. done. Qed.

Lemma write_json_Ok {X} kind (encode : X → result string (list ascii)) x w w' l : write_json kind encode x w = (w', Ok l) → encode x = Ok l.
Proof.
  unfold write_json. intros (l' & w1 & [= <- Hl%map_err_Ok] & Hrun)%M_bind_Ok_inv.
  apply M_bind_Ok_inv in Hrun as ([] & w2 & _ & [= _ <-]). done.
Qed.

Lemma publish_allowed D p : within p → keeps (allowed D) (publish random master limits p).
Proof.
  intros [Ho Hm]. unfold publish. do 7 (apply keeps_bind; [apply _|allowing; try apply allowed_exists|intros ?; cbv beta zeta]).
  apply keeps_bind_Ok; [apply _|by apply publish_objects_allowed|]. intros w w' q Hrun.
  apply (publish_objects_Ok D) in Hrun as (_ & _ & Hcs & Hvs & _); [|done]. cbv zeta. rewrite (populated_manifest p q Hcs Hvs). simpl in Hcs.
  match goal with |- allowed _ ?w (?c ?w).1 => enough (keeps (allowed D) c) as Hk by apply Hk end.
  apply keeps_bind; [apply _|allowing|intros ?]. apply keeps_bind_Ok; [apply _|allowing|]. intros w1 w1' l Hl%write_json_Ok.
  match goal with |- allowed _ ?w (?c ?w).1 => enough (keeps (allowed D) c) as Hk by apply Hk end.
  apply keeps_bind_Ok; [apply _|allowing|]. intros w2 w2' d [-> (c & <-%Ok_inj & -> & Hsize)%describe_Ok]%M_lift_Ok_inv.
  match goal with |- allowed _ ?w (?c ?w).1 => enough (keeps (allowed D) c) as Hk by apply Hk end. cbv zeta.
  apply keeps_bind; [apply _|apply store_object_allowed|].
  - intros c <-%Ok_inj. by apply Hm.
  - apply (manifest_media Hdistinct).
  - simpl. unfold u64_max, MAXIMUM_MANIFEST_BYTES in *. lia.
  - intros [n status]. allowing. apply allowed_put, pointer_put.
Qed.

Lemma bind_allowed_inv {X Y} D (c : M World ArtifactError X) (f : X → M World ArtifactError Y) w w' y :
  keeps (allowed D) c → Good D w → (c ≫= f) w = (w', Ok y) → ∃ x w1, c w = (w1, Ok x) ∧ Good D w1 ∧ spares D (blobs w) (blobs w1) ∧ f x w1 = (w', Ok y).
Proof.
  intros Hc Hg (x & w1 & Hrun & Hf)%M_bind_Ok_inv. destruct (Hc w Hg) as [Hg1 Hs]. rewrite Hrun in Hg1, Hs. by exists x, w1.
Qed.

Lemma publish_held D p w w' metrics :
  within p → Good D w → Forall (λ k, ¬ D k) (needed p) → publish random master limits p w = (w', Ok metrics) → held p (blobs w').
Proof.
  intros [Ho Hm] Hg [HDp [HDm HDo]%Forall_cons]%Forall_cons Hrun. rewrite Forall_fmap in HDo. unfold publish in Hrun. cbv zeta in Hrun.
  apply (bind_allowed_inv D) in Hrun as ([] & w1 & _ & Hg1 & _ & Hrun); [|allowing|done].
  apply M_bind_Ok_inv in Hrun as ([] & w0 & [-> Hscope]%M_lift_Ok_inv & Hrun). apply M_bind_Ok_inv in Hrun as ([] & w0 & [-> _]%M_lift_Ok_inv & Hrun).
  apply M_bind_Ok_inv in Hrun as ([] & w0 & [-> [Hne Hcount]%orb_false_iff]%M_reject_Ok_inv & Hrun).
  apply (bind_allowed_inv D) in Hrun as (found & w2 & _ & Hg2 & _ & Hrun); [|allowing|done].
  apply M_bind_Ok_inv in Hrun as ([] & w0 & [-> _]%M_reject_Ok_inv & Hrun).
  apply (bind_allowed_inv D) in Hrun as ([] & w3 & _ & Hg3 & _ & Hrun); [|allowing|done].
  apply (bind_allowed_inv D) in Hrun as (q & w4 & Hq & Hg4 & _ & Hrun); [|by apply publish_objects_allowed|done].
  apply (publish_objects_Ok D) in Hq as (Hpr & Hac & Hcs & Hvs & Hnd & _ & Hlog & Hmax); [|done].
  rewrite (populated_manifest p q Hcs Hvs) in Hrun. specialize (Hpr Hg3 HDo). simpl in Hlog.
  apply M_bind_Ok_inv in Hrun as ([] & w0 & [-> Hval%map_err_Ok]%M_lift_Ok_inv & Hrun).
  apply (bind_allowed_inv D) in Hrun as (l & w5 & Hl%write_json_Ok & Hg5 & Hs5 & Hrun); [|allowing|done].
  apply M_bind_Ok_inv in Hrun as (d & w0 & [-> (c & <-%Ok_inj & -> & Hsize)%describe_Ok]%M_lift_Ok_inv & Hrun).
  assert (manifest_content p = l) as Hcont by (unfold manifest_content; by rewrite Hl).
  change (with_media _ _) with (describes_content l MANIFEST_MEDIA_TYPE) in Hrun. rewrite <-Hcont in *.
  change (describes_content _ _) with (manifest_descriptor p) in Hrun.
  assert (∀ c, Ok (E := ArtifactError) (manifest_content p) = Ok c → U c) as Hu by (intros c <-%Ok_inj; by apply Hm).
  assert (0 < size_bytes (manifest_descriptor p) ≤ u64_max) as Hsz by (simpl; unfold u64_max, MAXIMUM_MANIFEST_BYTES in *; lia).
  pose proof (manifest_media Hdistinct) as Hmedia.
  apply (bind_allowed_inv D) in Hrun as ([n status] & w6 & Hst & Hg6 & Hs6 & Hrun); [|by apply store_object_allowed|done].
  apply (store_object_Ok D) in Hst as (c & <-%Ok_inj & _ & Hman); [|done..].
  apply (bind_allowed_inv D) in Hrun as (pointer & w7 & Hj%write_json_Ok & Hg7 & Hs7 & Hrun); [|allowing|done].
  apply M_bind_Ok_inv in Hrun as ([] & w0 & [-> Hpl]%M_reject_Ok_inv & Hrun). apply Z.ltb_ge in Hpl.
  apply (bind_allowed_inv D) in Hrun as (published & w8 & Hput & Hg8 & Hs8 & Hrun); [|apply allowed_put, pointer_put|done].
  apply (put_if_absent_Ok D) in Hput as (Hk & _ & Hcreated & _); [|apply pointer_put|done].
  apply M_bind_Ok_inv in Hrun as ([] & w0 & [-> Hre%bool_decide_eq_false]%M_reject_Ok_inv & [= <- _]).
  destruct published; [|done]. destruct (Hcreated eq_refl) as [now Hnow].
  assert (spares D (blobs w4) (blobs w8)) as H48 by (by repeat (etrans; [eassumption|])).
  assert (spares D (blobs w6) (blobs w8)) as H68 by (by repeat (etrans; [eassumption|])).
  assert (publication_objects p ≠ []) as Hobjs by (by apply bool_decide_eq_false in Hne). destruct (Hmax Hobjs). apply Z.ltb_ge in Hcount.
  split; [split; (done || lia || idtac)|done| | |].
  - exists pointer, now. done.
  - by eapply stored_spares.
  - apply Forall_forall. intros staged Hin. rewrite Forall_forall in Hpr. rewrite Forall_forall in HDo.
    eapply stored_spares; [by apply HDo|exact H48|by apply Hpr].
Qed.

(** ** What is read back *)

(** [serde_json] reads what it wrote. *)
Class ArtifactCodecLaws : Prop := {
  manifest_round m l : manifest_json m = Ok l → manifest_parse l = Ok m;
  pointer_round p l : pointer_json p = Ok l → pointer_parse l = Ok p;
  claim_round c l : claim_json c = Ok l → claim_parse l = Ok c
}.
Context `{!ArtifactCodecLaws}.

Lemma get_Ok D key maximum b w w' l :
  ¬ D key → Good D w → blobs w !! key = Some b → get key maximum w = (w', Ok l) → l = blob_content b.
Proof.
  intros Hk Hg Hb. unfold get. intros ([] & w1 & [-> _]%M_lift_Ok_inv & Hrun)%M_bind_Ok_inv. destruct (step_allowed D w Hg) as [_ Hs].
  specialize (Hs _ _ Hk Hb). unfold call in Hrun. destruct (fault (next_event w)) as [[[] ?]|]; [done|done|].
  generalize dependent (step w). intros w1 Hrun Hs. rewrite Hs in Hrun. injection Hrun as _ Hrun.
  unfold reject_if in Hrun. destruct (maximum <? _); [done|]. by injection Hrun.
Qed.

Lemma read_json_Ok {X} what (decode : list ascii → result string X) l w w' x : read_json what decode l w = (w', Ok x) → decode l = Ok x.
Proof. unfold read_json. intros ([] & w1 & _ & [_ Hx%map_err_Ok]%M_lift_Ok_inv)%M_bind_Ok_inv. done. Qed.

Lemma opening_Ok e scope d content w w' c : opens e scope d content → opening master e scope d w = (w', Ok c) → c = content.
Proof.
  intros [Ho _]. unfold opening. destruct (fault (next_event w)) as [[? ?]|]; [done|]. injection 1 as _ Hc. apply open_patience in Hc. congruence.
Qed.

Section holding.
Context (D : string → Prop) (p : SnapshotPublication) (Hneeded : Forall (λ k, ¬ D k) (needed p)).

Lemma read_pointer_Ok w w' r :
  Good D w → held p (blobs w) → read_pointer (publication_scope p) (published_id p) w = (w', Ok r) → r.1 = pointer_of p.
Proof.
  intros Hg Hh Hrun. unfold read_pointer in Hrun. apply (bind_allowed_inv D) in Hrun as ([] & w1 & _ & Hg1 & Hs1 & Hrun); [|allowing|done].
  destruct (held_spares D p _ _ Hneeded Hs1 Hh) as [_ _ (l & now & Hj & _ & Hb) _ _]. destruct (Forall_cons_1 _ _ _ Hneeded) as [Hk _].
  apply M_bind_Ok_inv in Hrun as (bytes & w2 & Hget & Hrun). apply (get_Ok D _ _ _ _ _ _ Hk Hg1 Hb) in Hget as ->.
  apply M_bind_Ok_inv in Hrun as ([] & w3 & _ & Hrun). apply M_bind_Ok_inv in Hrun as (pointer & w4 & Hread%read_json_Ok & Hrun).
  apply M_bind_Ok_inv in Hrun as ([] & w5 & _ & [= _ <-]). simpl in *. apply pointer_round in Hj. congruence.
Qed.

Lemma load_manifest_Ok w w' r :
  Good D w → held p (blobs w) → load_manifest master (publication_scope p) (published_id p) w = (w', Ok r) → r.1 = manifest_of p.
Proof.
  intros Hg Hh Hrun. unfold load_manifest in Hrun.
  apply (bind_allowed_inv D) in Hrun as ([pointer n] & w1 & Hpointer & Hg1 & Hs1 & Hrun); [|allowing|done].
  apply read_pointer_Ok in Hpointer; [|done|done]. simpl in Hpointer. subst pointer.
  destruct (held_spares D p _ _ Hneeded Hs1 Hh) as [Hpub _ _ [_ (b & Hb & Ho)] _].
  destruct (Forall_cons_1 _ _ _ Hneeded) as [_ [Hk _]%Forall_cons].
  apply M_bind_Ok_inv in Hrun as ([] & w2 & [-> _]%M_reject_Ok_inv & Hrun).
  apply M_bind_Ok_inv in Hrun as (maximum & w2 & [-> _]%M_lift_Ok_inv & Hrun).
  apply M_bind_Ok_inv in Hrun as (e & w3 & Hget & Hrun). apply (get_Ok D _ _ _ _ _ _ Hk Hg1 Hb) in Hget as ->.
  apply M_bind_Ok_inv in Hrun as (bytes & w4 & Hopen & Hrun). apply (opening_Ok _ _ _ _ _ _ _ Ho) in Hopen as ->.
  apply M_bind_Ok_inv in Hrun as (m & w5 & Hread%read_json_Ok & Hrun).
  rewrite (manifest_round _ _ (pu_json _ Hpub)) in Hread. injection Hread as <-.
  apply M_bind_Ok_inv in Hrun as ([] & w6 & _ & Hrun). apply M_bind_Ok_inv in Hrun as ([] & w7 & _ & Hrun).
  apply M_bind_Ok_inv in Hrun as ([] & w8 & _ & [= _ <-]). done.
Qed.
End holding.

(** ** Materialization *)

Section quiet.
Context (w : World) (Hquiet : events w = []).

Lemma step_quiet : step w = w.
Proof. unfold step, next_event. rewrite Hquiet. destruct w as [m t es n]. simpl in *. subst. by rewrite Z.add_0_r. Qed.
Lemma call_quiet {X} (f : World → World * result ArtifactError X) : call f w = f w.
Proof. unfold call. rewrite step_quiet. unfold next_event. by rewrite Hquiet. Qed.
Lemma host_quiet : host w = (w, Ok tt).
Proof. apply call_quiet. Qed.
Lemma deadline_quiet operation : ensure_deadline operation w = (w, Ok tt).
Proof. unfold ensure_deadline. rewrite step_quiet. unfold next_event. by rewrite Hquiet. Qed.
Lemma opening_quiet e scope d content : opens e scope d content → opening master e scope d w = (w, Ok content).
Proof. intros [Ho _]. unfold opening. rewrite step_quiet. unfold next_event. rewrite Hquiet. simpl. by rewrite Ho. Qed.
Lemma get_quiet key maximum b :
  check_key key = Ok tt → blobs w !! key = Some b → length_z (blob_content b) ≤ maximum → get key maximum w = (w, Ok (blob_content b)).
Proof.
  intros Hk Hb Hl. unfold get. rewrite (bind_run _ _ w w tt) by (unfold M_lift; by rewrite Hk). rewrite call_quiet, Hb. simpl.
  by rewrite (proj2 (Z.ltb_ge _ _) Hl).
Qed.
Lemma read_json_quiet {X} what (decode : list ascii → result string X) l x : decode l = Ok x → read_json what decode l w = (w, Ok x).
Proof. intros Hx. unfold read_json. rewrite (bind_run _ _ w w tt) by apply host_quiet. unfold M_lift. by rewrite Hx. Qed.
Lemma reject_quiet {E} b (e : E) : b = false → M_reject_if b e w = (w, Ok tt).
Proof. by intros ->. Qed.
Lemma lift_quiet {E X} (r : result E X) x : r = Ok x → M_lift r w = (w, Ok x).
Proof. by intros ->. Qed.

Lemma stored_quiet scope d content :
  0 < size_bytes d ≤ 2 ^ 60 → stored scope d content (blobs w) →
  ∃ maximum e, maximum_envelope_bytes (size_bytes d) = Ok maximum ∧ get (object_key scope d) maximum w = (w, Ok e) ∧
    opening master e scope d w = (w, Ok content).
Proof.
  intros Hs [Hk (b & Hb & Ho)]. eexists _, (blob_content b). split; [by apply maximum_envelope_bytes_total|]. split; [|by apply opening_quiet].
  apply get_quiet; [done..|]. rewrite (op_size _ _ _ _ Ho). done.
Qed.

Context (p : SnapshotPublication) (Hholds : held p (blobs w)).

Lemma read_pointer_quiet : ∃ n, read_pointer (publication_scope p) (published_id p) w = (w, Ok (pointer_of p, n)).
Proof.
  destruct Hholds as [_ Hk (l & now & Hj & Hl & Hb) _ _]. exists (length_z l). unfold read_pointer.
  rewrite (bind_run _ _ w w tt) by apply host_quiet. rewrite (bind_run _ _ w w l) by (by eapply (get_quiet _ _ (MkBlob l now))).
  rewrite (bind_run _ _ w w tt) by (apply reject_quiet; lia).
  rewrite (bind_run _ _ w w (pointer_of p)) by (by apply read_json_quiet, pointer_round).
  rewrite (bind_run _ _ w w tt); [done|]. apply reject_quiet. simpl. by rewrite bool_decide_eq_true_2.
Qed.

Lemma load_manifest_quiet : ∃ n, load_manifest master (publication_scope p) (published_id p) w = (w, Ok (manifest_of p, n)).
Proof.
  destruct read_pointer_quiet as [n Hp]. destruct Hholds as [[_ _ _ _ Hscope Hval Hj Hsize] _ _ Hst _]. unfold MAXIMUM_MANIFEST_BYTES in *.
  assert (0 < size_bytes (manifest_descriptor p) ≤ 2 ^ 60) as Hsz by (cbn [size_bytes manifest_descriptor describes_content]; lia).
  destruct (stored_quiet _ _ _ Hsz Hst) as (maximum & e & Hmax & Hget & Hopen). exists (n + length_z e). unfold load_manifest.
  rewrite (bind_run _ _ w w _ Hp). rewrite (bind_run _ _ w w tt).
  2: { apply reject_quiet, orb_false_iff. split; [done|]. apply Z.ltb_ge. exact (proj2 Hsize). }
  rewrite (bind_run _ _ w w maximum) by (by apply lift_quiet). rewrite (bind_run _ _ w w _ Hget), (bind_run _ _ w w _ Hopen).
  rewrite (bind_run _ _ w w (manifest_of p)) by (by apply read_json_quiet, manifest_round).
  rewrite (bind_run _ _ w w tt) by (apply reject_quiet; by rewrite bool_decide_eq_true_2).
  rewrite (bind_run _ _ w w tt) by (by apply lift_quiet). rewrite (bind_run _ _ w w tt); [done|]. apply lift_quiet. by rewrite Hval.
Qed.

Definition pair_of (staged : StagedSnapshotObject) : string * list ascii := (staged_name staged, content_of staged).

Lemma total_bytes_Ok l : Forall accepted l → ∀ t, t + total_of l ≤ u64_max → total_bytes limits (object_of <$> l) t = Ok (t + total_of l).
Proof.
  induction 1 as [|staged l [_ Hs] Hl IH]; intros t Ht; cbn [total_bytes fmap list_fmap]; [simpl; f_equal; lia|].
  assert (0 ≤ total_of l) as Hpos by (clear -Hl; induction Hl as [|x l [_ ?] _ IH]; simpl; lia).
  cbn [object_artifact object_of size_bytes descriptor_of describes_content]. simpl in Ht. rewrite (proj2 (Z.ltb_ge _ _)) by lia.
  cbn [reject_if mbind result_bind]. assert (t + length_z (content_of staged) ≤ u64_max) as Hb by lia.
  rewrite (proj2 (checked_add_Some u64_max _ _ _) (conj eq_refl Hb)). cbn [ok_or mbind result_bind]. rewrite IH by lia. simpl. f_equal. lia.
Qed.

Lemma materialize_objects_quiet scope l : Forall accepted l → Forall (present scope (blobs w)) l → NoDup (staged_name <$> l) → ∀ written n,
  Forall (λ staged, written !! staged_name staged = None) l →
  ∃ n', materialize_objects master scope (object_of <$> l) written n w = (w, Ok (list_to_map (pair_of <$> l) ∪ written, n')).
Proof.
  induction l as [|staged l IH]; intros Hac Hpr Hnd written n Hw; cbn [materialize_objects fmap list_fmap].
  { exists n. simpl. by rewrite (left_id_L ∅ (∪)). }
  apply Forall_cons in Hac as [[Hname Hsize] Hac]. apply Forall_cons in Hpr as [Hst Hpr]. apply NoDup_cons in Hnd as [Hnew Hnd].
  apply Forall_cons in Hw as [Hw Hws].
  assert (0 < size_bytes (descriptor_of staged) ≤ 2 ^ 60) as Hsz by (cbn [size_bytes descriptor_of describes_content]; lia).
  destruct (stored_quiet _ _ _ Hsz Hst) as (maximum & e & Hmax & Hget & Hopen).
  rewrite (bind_run _ _ w w tt) by apply deadline_quiet.
  rewrite (bind_run _ _ w w tt) by (apply lift_quiet; unfold validate_name; cbn [name object_of]; by rewrite Hname).
  rewrite (bind_run _ _ w w tt) by (apply reject_quiet, bool_decide_eq_false_2; cbn [name object_of]; rewrite Hw; by apply is_Some_None).
  rewrite (bind_run _ _ w w maximum) by (by apply lift_quiet). rewrite (bind_run _ _ w w _ Hget), (bind_run _ _ w w _ Hopen).
  rewrite (bind_run _ _ w w tt) by apply host_quiet. destruct (IH Hac Hpr Hnd (<[staged_name staged := content_of staged]> written) (n + length_z e)) as [n' Hrun].
  { apply Forall_forall. intros s' Hs'. rewrite Forall_forall in Hws. rewrite lookup_insert_ne; [by apply Hws|].
    intros Heq. apply Hnew. rewrite Heq. by apply (list_elem_of_fmap_2 staged_name). }
  exists n'. cbn [name object_of]. rewrite Hrun. do 3 f_equal. simpl. rewrite <-insert_union_l, insert_union_r; [done|].
  apply not_elem_of_list_to_map_1. intros Hin. apply Hnew. rewrite <-list_fmap_compose in Hin. exact Hin.
Qed.

Lemma total_of_perm l l' : l ≡ₚ l' → total_of l = total_of l'.
Proof. induction 1; simpl; lia. Qed.

Lemma materialize_quiet :
  ∃ n, materialize master limits (publication_scope p) (published_id p) true w = (w, Ok (MkMaterialized (manifest_of p) (files_of p) n)).
Proof.
  destruct load_manifest_quiet as [n Hload]. destruct Hholds as [[Hac Hnd [Htot Hmax] Hcount _ _ _ _] _ _ _ Hpr].
  destruct (Permutation_map_inv _ _ (manifest_of_objects p)) as (l & Hl & Hperm).
  change (map object_of l) with (object_of <$> l) in Hl. pose proof (total_of_perm _ _ Hperm) as Htl.
  assert (Forall accepted l) as Hac' by (by rewrite <-Hperm). assert (NoDup (staged_name <$> l)) as Hnd' by (by rewrite <-Hperm).
  assert (Forall (present (publication_scope p) (blobs w)) l) as Hpr' by (by rewrite <-Hperm).
  destruct (materialize_objects_quiet _ l Hac' Hpr' Hnd' ∅ n) as [n' Hrun]; [by apply Forall_true|]. exists n'.
  assert (list_to_map (pair_of <$> l) ∪ ∅ = files_of p) as Hfiles.
  { rewrite (right_id_L ∅ (∪)). symmetry. apply list_to_map_proper; [|by apply fmap_Permutation].
    rewrite <-list_fmap_compose. exact Hnd. }
  unfold materialize. rewrite (bind_run _ _ w w tt) by apply host_quiet. rewrite (bind_run _ _ w w tt) by done.
  rewrite (bind_run _ _ w w tt) by apply host_quiet. rewrite (bind_run _ _ w w _ Hload). cbv zeta. rewrite Hl.
  rewrite (bind_run _ _ w w tt) by (apply reject_quiet, Z.ltb_ge; rewrite length_fmap, <-(Permutation_length Hperm); lia).
  rewrite (bind_run _ _ w w (total_of l)) by (apply lift_quiet; rewrite total_bytes_Ok by (done || lia); by rewrite Z.add_0_l).
  rewrite (bind_run _ _ w w tt) by (apply reject_quiet, Z.ltb_ge; lia). rewrite (bind_run _ _ w w tt) by apply host_quiet.
  rewrite (bind_run _ _ w w _ Hrun). rewrite (bind_run _ _ w w tt) by apply host_quiet. by rewrite Hfiles.
Qed.
End quiet.

(** ** Garbage collection *)

(** What others may delete while a snapshot is held: everything else. *)
Definition other (p : SnapshotPublication) (key : string) : Prop := key ∉ needed p.

Lemma needed_other p : Forall (λ k, ¬ other p k) (needed p).
Proof. apply Forall_forall. intros k Hk Ho. by apply Ho. Qed.

Lemma needed_scoped p k : k ∈ needed p → ∃ r, k = scoped (publication_scope p) r ∧
  (k ∈ object_keys p ∧ (∃ t, r = "objects/" +:+ t) ∨ (∃ t, r = "snapshots/" +:+ t))%string.
Proof.
  intros [->|Hk]%elem_of_cons.
  - rewrite pointer_key_scoped. eexists. split; [reflexivity|]. right. by eexists.
  - assert (∃ d, k = object_key (publication_scope p) d) as [d ->].
    { apply elem_of_cons in Hk as [->|(staged & -> & _)%list_elem_of_fmap]; by eexists. }
    rewrite object_key_scoped in *. eexists. split; [reflexivity|]. left. split; [done|]. by eexists.
Qed.

Lemma listed_scoped scope dir k : starts_with ((storage_prefix scope +:+ String "/" dir) +:+ "/") k = true →
  ∃ t, k = scoped scope (dir +:+ String "/" t).
Proof.
  intros [t ->]%starts_with_true. exists t. unfold scoped. by rewrite !app_assoc_string.
Qed.

Lemma list_blobs_Ok D prefix maximum w w' l : Good D w → list_blobs prefix maximum w = (w', Ok l) →
  (∀ k, k ∈ l.*1 → starts_with (prefix +:+ "/") k = true) ∧
  (∀ k b, ¬ D k → blobs w !! k = Some b → starts_with (prefix +:+ "/") k = true → k ∈ l.*1).
Proof.
  intros Hg. unfold list_blobs. intros ([] & w1 & [-> _]%M_lift_Ok_inv & Hrun)%M_bind_Ok_inv. destruct (step_allowed D w Hg) as [_ Hs].
  unfold call in Hrun. destruct (fault (next_event w)) as [[[] ?]|]; [done|done|].
  generalize dependent (step w). intros w1 Hrun Hs. injection Hrun as _ Hrun. unfold reject_if in Hrun.
  destruct (maximum <? _); [done|]. injection Hrun as <-. rewrite <-list_fmap_compose. split.
  - intros k ([k' b] & -> & [Hk _]%list_elem_of_filter)%list_elem_of_fmap. exact Hk.
  - intros k b Hk Hb Hp. specialize (Hs _ _ Hk Hb). apply list_elem_of_fmap. exists (k, b). split; [done|].
    apply list_elem_of_filter. split; [done|]. rewrite btree_iter_perm. by apply elem_of_map_to_list.
Qed.

Lemma pointer_key_id scope id : snapshot_id_from_pointer_key (pointer_key scope id) = Ok id.
Proof.
  unfold snapshot_id_from_pointer_key. rewrite pointer_key_scoped. unfold scoped.
  replace (storage_prefix scope +:+ String "/" ("snapshots/" +:+ as_str id +:+ ".json"))%string
    with ((storage_prefix scope +:+ "/snapshots") +:+ String "/" (as_str id +:+ ".json"))%string by (by rewrite app_assoc_string).
  rewrite last_part by (rewrite bytes_app; intros [Hin|Hin]%elem_of_app; [by apply identifier_no_slash in Hin|set_solver]).
  cbn [ok_or mbind result_bind]. rewrite (proj2 (strip_suffix_Some ".json" _ (as_str id)) eq_refl). cbn [ok_or mbind result_bind].
  by rewrite parse_as_str.
Qed.

Lemma sweep_allowed (D : string → Prop) operation keep l : (∀ o, o ∈ l → keep o = Ok false → D o.1) →
  ∀ removed retained, keeps (allowed D) (sweep operation keep l removed retained).
Proof.
  induction l as [|o l IH]; intros Hl removed retained; cbn [sweep]; [apply keeps_ret; apply _|].
  apply keeps_bind; [apply _|allowing|intros _]. apply keeps_bind_Ok; [apply _|allowing|]. intros w w' kept [-> Hk]%M_lift_Ok_inv.
  assert (∀ o', o' ∈ l → keep o' = Ok false → D o'.1) as Hl' by (intros o' Ho'; apply Hl; by apply elem_of_cons; right).
  destruct kept; [by apply IH|].
  assert (keeps (allowed D) (delete_blob o.1;; sweep operation keep l (removed + 1) retained)) as Hc; [|apply Hc].
  apply keeps_bind; [apply _|apply allowed_delete, Hl; [by apply elem_of_cons; left|done]|intros _; by apply IH].
Qed.

Lemma object_keys_objects p : object_keys p ⊆
  object_key (publication_scope p) (manifest_descriptor p)
  :: ((λ object, object_key (publication_scope p) (object_artifact object)) <$> manifest_objects (manifest_of p)).
Proof.
  intros k [->|(staged & -> & Hin)%list_elem_of_fmap]%elem_of_cons; [by apply elem_of_cons; left|]. apply elem_of_cons. right.
  rewrite manifest_of_objects, <-list_fmap_compose. apply list_elem_of_fmap. by exists staged.
Qed.

Lemma collect_references_Ok p pointers : ∀ reachable referenced w w' r,
  Good (other p) w → held p (blobs w) → collect_references master (publication_scope p) pointers reachable referenced w = (w', Ok r) →
  reachable ⊆ r.1 ∧ (pointer_key (publication_scope p) (published_id p) ∈ pointers.*1 → ∀ k, k ∈ object_keys p → k ∈ r.1).
Proof.
  induction pointers as [|[key t] pointers IH]; intros reachable referenced w w' r Hg Hh Hrun; cbn [collect_references] in Hrun.
  { injection Hrun as <- <-. split; [done|]. by intros ?%elem_of_nil. }
  pose proof (needed_other p) as Hn.
  apply (bind_allowed_inv (other p)) in Hrun as ([] & w1 & _ & Hg1 & Hs1 & Hrun); [|allowing|done].
  apply M_bind_Ok_inv in Hrun as (id & w2 & [-> Hid]%M_lift_Ok_inv & Hrun).
  apply (bind_allowed_inv (other p)) in Hrun as ([m n] & w3 & Hm & Hg3 & Hs3 & Hrun); [|allowing|done].
  apply (bind_allowed_inv (other p)) in Hrun as ([pointer n'] & w4 & Hp & Hg4 & Hs4 & Hrun); [|allowing|done].
  assert (held p (blobs w1)) as Hh1 by (by eapply held_spares). assert (held p (blobs w3)) as Hh3 by (by eapply held_spares).
  apply IH in Hrun as [Hsub Hin]; [|done|by eapply held_spares]. split; [set_solver|]. intros [Hk|Hk]%elem_of_cons; [|by apply Hin].
  simpl in Hk. subst key. rewrite pointer_key_id in Hid. injection Hid as <-.
  apply (load_manifest_Ok (other p)) in Hm; [|done..]. apply (read_pointer_Ok (other p)) in Hp; [|done..]. simpl in Hm, Hp. subst m pointer.
  intros k Hk%object_keys_objects. apply Hsub. apply elem_of_union_l, elem_of_union.
  apply elem_of_cons in Hk as [->|Hk]; [left; by apply elem_of_singleton|right; by apply elem_of_list_to_set].
Qed.

Lemma bind_allowed {X Y} D (c : M World ArtifactError X) (f : X → M World ArtifactError Y) w :
  keeps (allowed D) c →
  (∀ w1 x, c w = (w1, Ok x) → Good D w → Good D w1 → spares D (blobs w) (blobs w1) → allowed D w1 (f x w1).1) →
  allowed D w ((c ≫= f) w).1.
Proof.
  intros Hc Hf Hg. destruct (Hc w Hg) as [Hg1 Hs1]. unfold mbind, M_bind. destruct (c w) as [w1 [x|e]]; [|done]. simpl in *.
  destruct (Hf w1 x eq_refl Hg Hg1 Hs1 Hg1) as [Hg2 Hs2]. split; [done|]. by etrans.
Qed.

(** What is listed elsewhere than under the objects is not of the snapshot. *)
Lemma listed_other p scope dir k : (dir = "staging" ∨ dir = "transfers")%string →
  starts_with ((storage_prefix scope +:+ String "/" dir) +:+ "/") k = true → other p k.
Proof.
  intros Hdir [t ->]%listed_scoped (r & [_ <-]%scoped_inj & [[_ [t' Ht]]|[t' Ht]])%needed_scoped; destruct Hdir as [-> | ->]; done.
Qed.
Lemma listed_object p scope k (reachable : gset string) : (scope = publication_scope p → ∀ k', k' ∈ object_keys p → k' ∈ reachable) →
  starts_with ((storage_prefix scope +:+ String "/" "objects") +:+ "/") k = true → k ∉ reachable → other p k.
Proof.
  intros Hr [t ->]%listed_scoped Hk (r & [-> <-]%scoped_inj & [[Hin _]|[t' Ht]])%needed_scoped; [|done]. by apply Hk, Hr.
Qed.

Lemma list_sweep_allowed {X} (D : string → Prop) prefix maximum operation keep (f : Z * Z → M World ArtifactError X) :
  (∀ o, starts_with (prefix +:+ "/") o.1 = true → keep o = Ok false → D o.1) → (∀ r, keeps (allowed D) (f r)) →
  keeps (allowed D) (l ← list_blobs prefix maximum; sweep operation keep l 0 0 ≫= f).
Proof.
  intros Hkeep Hf w. apply bind_allowed; [allowing|]. intros w1 l Hl Hg _ _. apply (list_blobs_Ok D) in Hl as [Hl _]; [|done].
  assert (keeps (allowed D) (sweep operation keep l 0 0 ≫= f)) as Hk; [|apply Hk].
  apply keeps_bind; [apply _|apply sweep_allowed|done]. intros o Ho. apply Hkeep, Hl. by apply list_elem_of_fmap_2.
Qed.

Lemma garbage_collect_allowed p scope w : held p (blobs w) → allowed (other p) w (garbage_collect master limits scope w).1.
Proof.
  intros Hh. pose proof (needed_other p) as Hn. unfold garbage_collect.
  apply bind_allowed; [allowing|]. intros w1 [] _ _ Hg1 Hs1. assert (held p (blobs w1)) as Hh1 by (by eapply held_spares).
  apply bind_allowed; [allowing|]. intros w2 pointers Hlist _ Hg2 Hs2. assert (held p (blobs w2)) as Hh2 by (by eapply held_spares).
  apply (list_blobs_Ok (other p)) in Hlist as [_ Hlisted]; [|done].
  apply bind_allowed; [allowing|]. intros w3 [reachable referenced] Hcollect _ _ _.
  assert (scope = publication_scope p → ∀ k, k ∈ object_keys p → k ∈ reachable) as Hreach.
  { intros ->. apply collect_references_Ok in Hcollect as [_ Hin]; [|done|done]. apply Hin.
    destruct Hh1 as [_ _ (l & now & _ & _ & Hb) _ _]. eapply Hlisted; [|exact Hb|].
    - intros Ho. apply Ho. by apply elem_of_cons; left.
    - apply starts_with_true. exists (as_str (published_id p) +:+ ".json")%string. unfold pointer_key, snapshot_prefix. by rewrite !app_assoc_string. }
  match goal with |- allowed _ ?w (?c ?w).1 => enough (keeps (allowed (other p)) c) as Hk by apply Hk end.
  apply keeps_bind; [apply _|allowing|intros now; cbv beta zeta].
  apply list_sweep_allowed; [|intros [removed retained]; apply list_sweep_allowed; [|intros [staging ?]; apply list_sweep_allowed]].
  - intros [k t] Hk [= Hkeep]. apply orb_false_iff in Hkeep as [Hkeep%bool_decide_eq_false _]. by eapply listed_object.
  - intros [k t] Hk _. eapply listed_other, Hk. by left.
  - intros [k t] Hk _. eapply listed_other, Hk. by right.
  - intros [? ?]. allowing.
Qed.

(** ** Histories *)

Lemma publish_grant_allowed D scope m : keeps (allowed D) (publish_grant random master scope m).
Proof. unfold publish_grant. allowing; apply allowed_put, transfer_put. Qed.
Lemma verify_existing_claim_allowed D scope id c d : keeps (allowed D) (verify_existing_claim master scope id c d).
Proof. unfold verify_existing_claim. allowing. Qed.
Hint Resolve publish_grant_allowed verify_existing_claim_allowed : allowed.
Lemma publish_transfer_grant_allowed D scope id : keeps (allowed D) (publish_transfer_grant random master scope id).
Proof. unfold publish_transfer_grant. allowing. Qed.
Lemma claim_allowed D scope m t : keeps (allowed D) (claim random master scope m t).
Proof. unfold claim. allowing; apply allowed_put, transfer_put. Qed.
Hint Resolve claim_allowed : allowed.
Lemma claim_transfer_allowed D scope id t : keeps (allowed D) (claim_transfer random master scope id t).
Proof. unfold claim_transfer. allowing. Qed.

Inductive RepositoryOp : Type :=
  | Publish (q : SnapshotPublication)
  | Materialize (scope : ArtifactScope) (id : SnapshotId) (absent : bool)
  | Exists (scope : ArtifactScope) (id : SnapshotId)
  | RemoveReference (scope : ArtifactScope) (id : SnapshotId)
  | GarbageCollect (scope : ArtifactScope)
  | PublishTransferGrant (scope : ArtifactScope) (id : SnapshotId)
  | ClaimTransfer (scope : ArtifactScope) (id : SnapshotId) (t : RestoreTarget).

(** The world after the operation, whether it succeeds or not. *)
Definition run (w : World) (o : RepositoryOp) : World :=
  match o with
  | Publish q => (publish random master limits q w).1
  | Materialize scope id absent => (materialize master limits scope id absent w).1
  | Exists scope id => (snapshot_exists scope id w).1
  | RemoveReference scope id => (remove_reference scope id w).1
  | GarbageCollect scope => (garbage_collect master limits scope w).1
  | PublishTransferGrant scope id => (publish_transfer_grant random master scope id w).1
  | ClaimTransfer scope id t => (claim_transfer random master scope id t w).1
  end.

(** Publications are among the contents that do not collide; the reference [scope], [id] is not removed. *)
Definition respects (scope : ArtifactScope) (id : SnapshotId) (o : RepositoryOp) : Prop :=
  match o with
  | Publish q => within q
  | RemoveReference scope' id' => (scope', id') ≠ (scope, id)
  | _ => True
  end.

Lemma pointer_key_inj scope scope' id id' : pointer_key scope id = pointer_key scope' id' → (scope, id) = (scope', id').
Proof.
  rewrite !pointer_key_scoped. intros [-> Heq]%scoped_inj. f_equal. apply (inj as_str). injection Heq as Heq. by apply string_app_inj_r in Heq.
Qed.

(** What remains to be shown is about collections. *)
Lemma run_allowed (D : string → Prop) scope id o w :
  respects scope id o → (∀ scope' id', (scope', id') ≠ (scope, id) → D (pointer_key scope' id')) →
  (∀ scope', allowed D w (garbage_collect master limits scope' w).1) → allowed D w (run w o).
Proof.
  intros Ho HD Hgc. destruct o as [q|s i absent|s i|s i|s|s i|s i t]; simpl in *.
  - by apply publish_allowed.
  - apply allowed_materialize.
  - apply allowed_exists.
  - assert (keeps (allowed D) (remove_reference s i)) as Hk; [|apply Hk]. unfold remove_reference. allowing. by apply allowed_delete, HD.
  - apply Hgc.
  - apply publish_transfer_grant_allowed.
  - apply claim_transfer_allowed.
Qed.

Lemma other_pointer p scope id : (scope, id) ≠ (publication_scope p, published_id p) → other p (pointer_key scope id).
Proof.
  intros Hne [Hk|Hk]%elem_of_cons; [by apply pointer_key_inj in Hk|].
  assert (∃ d, pointer_key scope id = object_key (publication_scope p) d) as [d Hd].
  { apply elem_of_cons in Hk as [->|(staged & -> & _)%list_elem_of_fmap]; by eexists. }
  rewrite pointer_key_scoped, object_key_scoped in Hd. by apply scoped_inj in Hd as [_ Hd].
Qed.

Lemma run_held p o w : respects (publication_scope p) (published_id p) o → Good (other p) w → held p (blobs w) →
  Good (other p) (run w o) ∧ held p (blobs (run w o)).
Proof.
  intros Ho Hg Hh. destruct (run_allowed (other p) _ _ o w Ho (other_pointer p)) with (2 := Hg) as [Hg' Hs].
  - intros scope. by apply garbage_collect_allowed.
  - split; [done|]. eapply held_spares; [apply needed_other|done|done].
Qed.

Lemma history_held p ops w : Forall (respects (publication_scope p) (published_id p)) ops → Good (other p) w → held p (blobs w) →
  Good (other p) (foldl run w ops) ∧ held p (blobs (foldl run w ops)).
Proof.
  intros Hops Hg Hh. apply (foldl_keeps (λ w, Good (other p) w ∧ held p (blobs w)) _ run ops w) with (2 := Hops); [|done].
  intros w' o Ho [? ?]. by apply run_held.
Qed.

(** ** Integrity of what is materialized, whatever the store holds *)

Lemma opening_verifies e scope d w w' c :
  size_bytes d ≠ 0 → opening master e scope d w = (w', Ok c) → length_z c = size_bytes d ∧ digest_text c = digest d.
Proof.
  intros Hs. unfold opening. destruct (fault (next_event w)) as [[? ?]|]; [done|]. injection 1 as _ Hc. by eapply open_verifies.
Qed.

Lemma materialize_objects_verified scope objects : Forall (λ o, size_bytes (object_artifact o) ≠ 0) objects → ∀ written n w w' files n',
  materialize_objects master scope objects written n w = (w', Ok (files, n')) →
  (∀ k c, written !! k = Some c → files !! k = Some c) ∧
  Forall (λ o, ∃ c, files !! name o = Some c ∧ length_z c = size_bytes (object_artifact o) ∧ digest_text c = digest (object_artifact o)) objects.
Proof.
  induction 1 as [|o objects Ho _ IH]; intros written n w w' files n' Hrun; cbn [materialize_objects] in Hrun.
  { injection Hrun as <- <- <-. done. }
  apply M_bind_Ok_inv in Hrun as ([] & w1 & _ & Hrun). apply M_bind_Ok_inv in Hrun as ([] & w2 & _ & Hrun).
  apply M_bind_Ok_inv in Hrun as ([] & w3 & [_ Hnew%bool_decide_eq_false]%M_reject_Ok_inv & Hrun).
  apply M_bind_Ok_inv in Hrun as (maximum & w4 & _ & Hrun).
  apply M_bind_Ok_inv in Hrun as (e & w5 & _ & Hrun). apply M_bind_Ok_inv in Hrun as (c & w6 & Hopen & Hrun).
  apply opening_verifies in Hopen as [Hl Hd]; [|done]. apply M_bind_Ok_inv in Hrun as ([] & w7 & _ & Hrun).
  apply IH in Hrun as [Hkeep Hall]. split.
  - intros k c' Hk. apply Hkeep. rewrite lookup_insert_ne; [done|]. intros <-. apply Hnew. by eexists.
  - constructor; [|done]. exists c. split_and!; [|done..]. apply Hkeep. apply lookup_insert_eq.
Qed.

Lemma load_manifest_valid scope id w w' m n : load_manifest master scope id w = (w', Ok (m, n)) →
  snapshot_id m = id ∧ validate_scope scope m = Ok tt ∧ validate_manifest m = Ok tt.
Proof.
  unfold load_manifest. intros ([pointer n'] & w1 & _ & Hrun)%M_bind_Ok_inv. do 5 apply M_bind_Ok_inv in Hrun as (? & ? & _ & Hrun).
  apply M_bind_Ok_inv in Hrun as ([] & w2 & [_ Hid%negb_false_iff%bool_decide_eq_true]%M_reject_Ok_inv & Hrun).
  apply M_bind_Ok_inv in Hrun as ([] & w3 & [_ Hs]%M_lift_Ok_inv & Hrun).
  apply M_bind_Ok_inv in Hrun as ([] & w4 & [_ Hv%map_err_Ok]%M_lift_Ok_inv & Hrun). injection Hrun as _ <- _. done.
Qed.

Lemma manifest_sizes m : validate_manifest m = Ok tt → Forall (λ o, size_bytes (object_artifact o) ≠ 0) (manifest_objects m).
Proof.
  unfold validate_manifest. rewrite !seq_Ok. intros Hv. destruct_and!.
  match goal with Hv : validate_objects _ _ = Ok _ |- _ => revert Hv end. unfold manifest_objects. generalize (@nil string).
  generalize (concat (btree_values (manifest_containers m)) ++ sandbox_objects m). intros l.
  induction l as [|o l IH]; intros names Hv; [constructor|]. cbn [validate_objects] in Hv. rewrite !seq_Ok, !reject_if_Ok in Hv.
  destruct Hv as (_ & _ & _ & [Hz _]%orb_false_iff & Hv). constructor; [lia|by eapply IH].
Qed.

(** ** Claims *)

Section claims.
Context `{!CounterMode} (scope : ArtifactScope) (id : SnapshotId).

(** What others may delete while a claim stands. *)
Definition unclaimed (key : string) : Prop := key ≠ pointer_key scope id ∧ key ≠ transfer_claim_key scope id.

Lemma transfer_key_id : snapshot_id_from_transfer_key scope (transfer_claim_key scope id) = Ok id.
Proof.
  unfold snapshot_id_from_transfer_key, transfer_claim_key, transfer_key.
  replace (storage_prefix scope +:+ "/transfers/" +:+ as_str id +:+ "/" +:+ "claim.envelope")%string
    with ((storage_prefix scope +:+ "/transfers/") +:+ (as_str id +:+ String "/" "claim.envelope"))%string by (by rewrite !app_assoc_string).
  rewrite strip_prefix_app. cbn [ok_or mbind result_bind].
  rewrite (proj2 (split_once_Some "/" _ (as_str id) "claim.envelope")) by (split; [done|apply identifier_no_slash]). cbn [ok_or mbind result_bind].
  rewrite bool_decide_eq_true_2 by set_solver. cbn [negb reject_if mbind result_bind]. by rewrite parse_as_str.
Qed.

Lemma collect_references_ids scope' pointers : ∀ reachable referenced w w' r,
  collect_references master scope' pointers reachable referenced w = (w', Ok r) →
  (∀ i, i ∈ referenced → i ∈ r.2) ∧ (∀ i, pointer_key scope' i ∈ pointers.*1 → i ∈ r.2).
Proof.
  induction pointers as [|[key t] pointers IH]; intros reachable referenced w w' r Hrun; cbn [collect_references] in Hrun.
  { injection Hrun as <- <-. split; [done|]. by intros i ?%elem_of_nil. }
  apply M_bind_Ok_inv in Hrun as ([] & w1 & _ & Hrun). apply M_bind_Ok_inv in Hrun as (i & w2 & [-> Hi]%M_lift_Ok_inv & Hrun).
  apply M_bind_Ok_inv in Hrun as ([m n] & w3 & _ & Hrun). apply M_bind_Ok_inv in Hrun as ([pointer n'] & w4 & _ & Hrun).
  apply IH in Hrun as [Hsub Hin]. split; [intros j Hj; by apply Hsub, elem_of_cons; right|].
  intros j [Hk|Hk]%elem_of_cons; [|by apply Hin]. simpl in Hk. subst key. rewrite pointer_key_id in Hi. injection Hi as <-.
  by apply Hsub, elem_of_cons; left.
Qed.

Lemma listed_unclaimed scope' dir k : (dir = "staging" ∨ dir = "objects" ∨ dir = "transfers" ∧ k ≠ transfer_claim_key scope id)%string →
  starts_with ((storage_prefix scope' +:+ String "/" dir) +:+ "/") k = true → unclaimed k.
Proof.
  intros Hdir [t ->]%listed_scoped. split; intros Heq; [rewrite pointer_key_scoped in Heq; apply scoped_inj in Heq as [_ Heq];
    by destruct Hdir as [->|[->|[-> _]]]|].
  destruct Hdir as [->|[->|[-> Hne]]]; [..|done]; unfold transfer_claim_key in Heq; rewrite transfer_key_scoped in Heq; by apply scoped_inj in Heq as [_ Heq].
Qed.

Lemma garbage_collect_unclaimed scope' w b :
  blobs w !! pointer_key scope id = Some b → allowed unclaimed w (garbage_collect master limits scope' w).1.
Proof.
  intros Hb. assert (¬ unclaimed (pointer_key scope id)) as Hp by (by intros [? _]). unfold garbage_collect.
  apply bind_allowed; [allowing|]. intros w1 [] _ _ Hg1 Hs1. specialize (Hs1 _ _ Hp Hb).
  apply bind_allowed; [allowing|]. intros w2 pointers Hlist _ _ _. apply (list_blobs_Ok unclaimed) in Hlist as [_ Hlisted]; [|done].
  apply bind_allowed; [allowing|]. intros w3 [reachable referenced] [_ Hin]%collect_references_ids _ _ _.
  assert (scope' = scope → id ∈ referenced) as Hid.
  { intros ->. apply Hin. eapply Hlisted; [done|done|]. apply starts_with_true. exists (as_str id +:+ ".json")%string.
    unfold pointer_key, snapshot_prefix. by rewrite !app_assoc_string. }
  match goal with |- allowed _ ?w (?c ?w).1 => enough (keeps (allowed unclaimed) c) as Hk by apply Hk end.
  apply keeps_bind; [apply _|allowing|intros now; cbv beta zeta].
  apply list_sweep_allowed; [|intros [removed retained]; apply list_sweep_allowed; [|intros [staging ?]; apply list_sweep_allowed]].
  - intros [k t] Hk _. eapply listed_unclaimed, Hk. by right; left.
  - intros [k t] Hk _. eapply listed_unclaimed, Hk. by left.
  - intros [k t] Hk Hkeep. eapply listed_unclaimed, Hk. right; right. split; [done|]. simpl. intros ->.
    apply listed_scoped in Hk as [r Hr]. unfold transfer_claim_key in Hr. rewrite transfer_key_scoped in Hr. apply scoped_inj in Hr as [<- _].
    rewrite transfer_key_id in Hkeep. cbn [mbind result_bind] in Hkeep. rewrite bool_decide_eq_true_2 in Hkeep by (by apply Hid). done.
  - intros [? ?]. allowing.
Qed.

(** The transfer is claimed, and the snapshot is referenced. *)
Record claimed (c : SnapshotTransferClaim) (m : gmap string Blob) : Prop := Claimed {
  cl_pointer : is_Some (m !! pointer_key scope id);
  cl_claim : ∃ b d l, m !! transfer_claim_key scope id = Some b ∧ open (blob_content b) scope d master None = Ok l ∧ claim_parse l = Ok c
}.

Lemma claimed_spares c m m' : spares unclaimed m m' → claimed c m → claimed c m'.
Proof.
  intros Hs [[b0 Hp] (b & d & l & Hb & Ho)]. split; [exists b0; apply Hs; [by intros [? _]|done]|].
  exists b, d, l. split; [|done]. apply Hs; [by intros [_ ?]|done].
Qed.

Lemma claimed_once c c' m : claimed c m → claimed c' m → c = c'.
Proof.
  intros [_ (b & d & l & Hb & Ho & Hc)] [_ (b' & d' & l' & Hb' & Ho' & Hc')]. rewrite Hb in Hb'. injection Hb' as <-.
  rewrite (open_same _ _ _ _ _ _ _ Ho Ho') in Hc. congruence.
Qed.

Lemma get_present D key maximum w w' l : ¬ D key → Good D w → get key maximum w = (w', Ok l) →
  ∃ b, blobs w' !! key = Some b ∧ l = blob_content b.
Proof.
  intros Hk Hg. unfold get. intros ([] & w1 & [-> _]%M_lift_Ok_inv & Hrun)%M_bind_Ok_inv.
  unfold call in Hrun. destruct (fault (next_event w)) as [[[] ?]|]; [done|done|]. generalize dependent (step w). intros w1 Hrun.
  injection Hrun as <- Hrun. destruct (blobs w1 !! key) as [b|]; [|done]. exists b. split; [done|].
  simpl in Hrun. destruct (maximum <? _); [done|]. by injection Hrun.
Qed.

Lemma read_pointer_present D w w' r : ¬ D (pointer_key scope id) → Good D w → read_pointer scope id w = (w', Ok r) →
  is_Some (blobs w' !! pointer_key scope id).
Proof.
  intros Hk Hg Hrun. unfold read_pointer in Hrun. apply (bind_allowed_inv D) in Hrun as ([] & w1 & _ & Hg1 & _ & Hrun); [|allowing|done].
  apply (bind_allowed_inv D) in Hrun as (l & w2 & Hget & Hg2 & _ & Hrun); [|allowing|done].
  apply (get_present D) in Hget as (b & Hb & _); [|done..].
  match type of Hrun with ?c w2 = _ => assert (keeps (allowed D) c) as Hrest by allowing end.
  destruct (Hrest w2 Hg2) as [_ Hs]. rewrite Hrun in Hs. exists b. by apply Hs.
Qed.

Lemma load_manifest_id D w w' m n : ¬ D (pointer_key scope id) → Good D w → load_manifest master scope id w = (w', Ok (m, n)) →
  snapshot_id m = id ∧ is_Some (blobs w' !! pointer_key scope id).
Proof.
  intros Hk Hg Hrun. split; [by apply load_manifest_valid in Hrun as [? _]|]. unfold load_manifest in Hrun.
  apply (bind_allowed_inv D) in Hrun as ([pointer n'] & w1 & Hp & Hg1 & _ & Hrun); [|allowing|done].
  apply (read_pointer_present D) in Hp as [b Hb]; [|done..].
  match type of Hrun with ?c w1 = _ => assert (keeps (allowed D) c) as Hrest by allowing end.
  destruct (Hrest w1 Hg1) as [_ Hs]. rewrite Hrun in Hs. exists b. by apply Hs.
Qed.

Lemma verify_existing_claim_Ok w w' c d : Good unclaimed w → verify_existing_claim master scope id c d w = (w', Ok tt) →
  ∃ b l, blobs w' !! transfer_claim_key scope id = Some b ∧ open (blob_content b) scope d master None = Ok l ∧ claim_parse l = Ok c.
Proof.
  intros Hg Hrun. assert (¬ unclaimed (transfer_claim_key scope id)) as Hk by (by intros [_ ?]). unfold verify_existing_claim in Hrun.
  apply M_bind_Ok_inv in Hrun as (maximum & w1 & [-> _]%M_lift_Ok_inv & Hrun).
  apply (bind_allowed_inv unclaimed) in Hrun as (e & w2 & Hget & Hg2 & _ & Hrun); [|allowing|done].
  apply (get_present unclaimed) in Hget as (b & Hb & ->); [|done..].
  apply (bind_allowed_inv unclaimed) in Hrun as (opened & w3 & Hopen & Hg3 & Hs3 & Hrun); [|allowing|done].
  destruct opened as [l|]; [|done]. exists b, l.
  apply (bind_allowed_inv unclaimed) in Hrun as (existing & w4 & Hread%read_json_Ok & Hg4 & Hs4 & Hrun); [|allowing|done].
  apply M_reject_Ok_inv in Hrun as [-> Heq%negb_false_iff%bool_decide_eq_true]. subst existing.
  split_and!; [by apply Hs4, Hs3| |done]. unfold attempt in Hopen. destruct (opening master _ scope d w2) as [w5 r] eqn:Ho.
  injection Hopen as -> ->. unfold opening in Ho. destruct (fault (next_event w2)) as [[? ?]|]; [done|]. injection Ho as _ Ho. by apply open_patience in Ho.
Qed.

Lemma claim_Ok m t w w' c : snapshot_id m = id → Good unclaimed w → claim random master scope m t w = (w', Ok c) →
  ∃ b d l, blobs w' !! transfer_claim_key scope id = Some b ∧ open (blob_content b) scope d master None = Ok l ∧ claim_parse l = Ok c.
Proof.
  intros Hid Hg Hrun. unfold claim in Hrun. rewrite Hid in Hrun. cbv zeta in Hrun.
  apply (bind_allowed_inv unclaimed) in Hrun as (g & w1 & _ & Hg1 & _ & Hrun); [|allowing|done].
  apply M_bind_Ok_inv in Hrun as ([] & w2 & [-> _]%M_reject_Ok_inv & Hrun).
  apply (bind_allowed_inv unclaimed) in Hrun as (l & w3 & Hjson%write_json_Ok & Hg3 & _ & Hrun); [|allowing|done].
  apply M_bind_Ok_inv in Hrun as (d & w4 & [-> (c' & <-%Ok_inj & -> & Hsize)%describe_Ok]%M_lift_Ok_inv & Hrun).
  set (d := with_media _ _) in Hrun.
  apply (bind_allowed_inv unclaimed) in Hrun as (e & w5 & Hseal%sealing_Ok & Hg5 & _ & Hrun); [|allowing|done].
  apply seal_Ok in Hseal as (Hopen & _); [|simpl; unfold u64_max, MAXIMUM_TRANSFER_BYTES in *; lia|done].
  apply (bind_allowed_inv unclaimed) in Hrun as (status & w6 & Hput & Hg6 & _ & Hrun); [|apply allowed_put, transfer_put|done].
  apply (put_if_absent_Ok unclaimed) in Hput as (_ & _ & Hnew & _); [|apply transfer_put|done].
  destruct status; simpl in Hrun.
  - apply M_bind_Ok_inv in Hrun as ([] & w7 & [= <-] & [= <- <-]). destruct (Hnew eq_refl) as [now Hb].
    exists (MkBlob e now), d, l. split_and!; [done..|by apply claim_round].
  - apply M_bind_Ok_inv in Hrun as ([] & w7 & Hv & [= <- <-]). apply verify_existing_claim_Ok in Hv as (b & l' & Hb); [|done]. by exists b, d, l'.
Qed.

Lemma claim_transfer_Ok t w w' c : Good unclaimed w → claim_transfer random master scope id t w = (w', Ok c) → claimed c (blobs w').
Proof.
  intros Hg Hrun. unfold claim_transfer in Hrun.
  apply (bind_allowed_inv unclaimed) in Hrun as ([] & w1 & _ & Hg1 & _ & Hrun); [|allowing|done].
  apply (bind_allowed_inv unclaimed) in Hrun as ([] & w2 & _ & Hg2 & _ & Hrun); [|allowing|done].
  apply (bind_allowed_inv unclaimed) in Hrun as ([m n] & w3 & Hload & Hg3 & _ & Hrun); [|allowing|done].
  assert (¬ unclaimed (pointer_key scope id)) as Hk by (by intros [? _]).
  apply (load_manifest_id unclaimed) in Hload as [Hid [b Hb]]; [|done..].
  destruct (claim_allowed unclaimed scope m t w3 Hg3) as [_ Hs]. rewrite Hrun in Hs. split; [exists b; by apply Hs|]. by eapply claim_Ok.
Qed.

Lemma claim_destination t w w' c : claim_transfer random master scope id t w = (w', Ok c) →
  claim_destination_worker c = target_worker t ∧ claim_destination_epoch c = target_epoch t.
Proof.
  unfold claim_transfer. do 2 (intros ([] & ? & _ & Hrun)%M_bind_Ok_inv; revert Hrun). intros ([m n] & w1 & _ & Hrun)%M_bind_Ok_inv.
  unfold claim in Hrun. cbv zeta in Hrun. apply M_bind_Ok_inv in Hrun as (g & w2 & _ & Hrun).
  do 6 apply M_bind_Ok_inv in Hrun as (? & ? & _ & Hrun). by injection Hrun as _ <-.
Qed.

Lemma run_claimed c o w : respects scope id o → Good unclaimed w → claimed c (blobs w) →
  Good unclaimed (run w o) ∧ claimed c (blobs (run w o)).
Proof.
  intros Ho Hg Hc. destruct (run_allowed unclaimed scope id o w Ho) with (3 := Hg) as [Hg' Hs].
  - intros scope' id' Hne. split; [by intros ?%pointer_key_inj|]. rewrite pointer_key_scoped. unfold transfer_claim_key.
    rewrite transfer_key_scoped. by intros [_ Heq]%scoped_inj.
  - intros scope'. destruct (cl_pointer _ _ Hc) as [b Hb]. by eapply garbage_collect_unclaimed.
  - split; [done|]. by eapply claimed_spares.
Qed.

Lemma history_claimed c ops w : Forall (respects scope id) ops → Good unclaimed w → claimed c (blobs w) →
  Good unclaimed (foldl run w ops) ∧ claimed c (blobs (foldl run w ops)).
Proof.
  intros Hops Hg Hc. apply (foldl_keeps (λ w, Good unclaimed w ∧ claimed c (blobs w)) _ run ops w) with (2 := Hops); [|done].
  intros w' o Ho [? ?]. by apply run_claimed.
Qed.
End claims.
End repository.
