(* ===== verification/ArtifactTheorems.v ===== *)
(** * What the artifact repository promises

    The theorems on published snapshots, on what is materialized and on claims,
    and an example of the parameters with which they are applied. *)
From S2P Require Import Prelude Identity Lifecycle GuestProfile Volume Snapshot Envelope Artifact ArtifactProofs.
Import GuestProfile.GuestProfile Volume.Volume Snapshot.Snapshot Envelope.Envelope Artifact.Artifact.

(** ** An example *)

(** A codec that knows one value. *)
Definition encode_one {X} `{EqDecision X} (x : X) (l : list ascii) (y : X) : result string (list ascii) :=
  if decide (y = x) then Ok l else Err "unknown"%string.
Definition decode_one {X} (x : X) (l l' : list ascii) : result string X := if decide (l' = l) then Ok x else Err "unknown"%string.
Lemma one_round {X} `{EqDecision X} (x y : X) l l' : encode_one x l y = Ok l' → decode_one x l l' = Ok y.
Proof. unfold encode_one, decode_one. case_decide; [|done]. intros [= <-]. rewrite decide_True by done. by subst. Qed.

Definition ex_tag : list ascii := replicate 16 "t"%char.
Definition ex_decrypt (c : list ascii) : option (list ascii) :=
  if decide (drop (length c - 16) c = ex_tag) then Some (take (length c - 16) c) else None.
Definition hex_digit (n : N) : ascii :=
  if (n <? 10)%N then ascii_of_N (48 + n) else ascii_of_N (87 + n).
Definition ex_hex (l : list ascii) : string :=
  foldr (λ c s, String (hex_digit (N_of_ascii c / 16)) (String (hex_digit (N_of_ascii c mod 16)) s)) EmptyString l.
Definition ex_hash (l : list ascii) : list ascii := take 32 (l ++ replicate 32 zero).

#[local] Instance ex_cryptography : Cryptography := {
  derive_key := λ _ _, Some [];
  wrap := λ _ _ _ message, Some (message ++ ex_tag);
  unwrap := λ _ _ _, ex_decrypt;
  encrypt_chunk := λ _ _ _ _ _ message, Some (message ++ ex_tag);
  decrypt_chunk := λ _ _ _ _ _, ex_decrypt;
  sha256 := ex_hash;
  hex := ex_hex
}.

Lemma ex_decrypt_app l : ex_decrypt (l ++ ex_tag) = Some l.
Proof.
  unfold ex_decrypt. rewrite length_app. replace (length l + length ex_tag - 16)%nat with (length l) by (unfold ex_tag; simpl; lia).
  by rewrite drop_app_length, take_app_length, decide_True.
Qed.
Lemma ex_decrypt_length c l : ex_decrypt c = Some l → length_z c = length_z l + 16.
Proof.
  unfold ex_decrypt. case_decide as Ht; [|done]. intros [= <-]. apply (f_equal length) in Ht. rewrite length_drop in Ht.
  change (length ex_tag) with 16%nat in Ht. rewrite length_take. lia.
Qed.

#[local] Instance ex_cryptography_laws : CryptographyLaws.
Proof.
  split; simpl.
  - intros _ _ _ m c [= <-]. apply ex_decrypt_app.
  - intros _ _ _ _ _ m c [= <-]. apply ex_decrypt_app.
  - intros _ _ _ _ _ m c [= <-]. rewrite length_app. unfold TAG_BYTES, ex_tag. simpl. lia.
  - intros _ _ _ _ _ m c Hm. by apply ex_decrypt_length.
Qed.
#[local] Instance ex_counter_mode : CounterMode.
Proof. split; simpl; congruence. Qed.

Definition ex_random (n : nat) : Randomness :=
  MkRandomness (replicate 32 "k"%char) (replicate WRAP_NONCE_BYTES "w"%char) (replicate STREAM_NONCE_BYTES "s"%char).
Lemma ex_fresh n : fresh (ex_random n).
Proof. done. Qed.

#[local] Instance BackendKind_eq_dec : EqDecision BackendKind.
Proof. solve_decision. Defined.
#[local] Instance BackendDescriptor_eq_dec : EqDecision BackendDescriptor.
Proof. solve_decision. Defined.
#[local] Instance RestoreRequirements_eq_dec : EqDecision RestoreRequirements.
Proof. solve_decision. Defined.
#[local] Instance VolumeSnapshotDescriptor_eq_dec : EqDecision VolumeSnapshotDescriptor.
Proof. solve_decision. Defined.
#[local] Instance SnapshotManifest_eq_dec : EqDecision SnapshotManifest.
Proof. solve_decision. Defined.
#[local] Instance SnapshotPointer_eq_dec : EqDecision SnapshotPointer.
Proof. solve_decision. Defined.
#[local] Instance TransferPointer_eq_dec : EqDecision TransferPointer.
Proof. solve_decision. Defined.

Definition ex_scope : ArtifactScope := MkArtifactScope (id_lit "tenant-a") (id_lit "team-a").
Definition ex_id : SnapshotId := id_lit "snapshot-a".
Definition ex_requirements : RestoreRequirements := MkRequirements "amd64" "linux" "1" CrossBackend [] w_digest true (MkProfileId "strict" 1).
Definition ex_unpopulated : SnapshotManifest :=
  MkManifest SNAPSHOT_MANIFEST_VERSION ex_id (scope_tenant ex_scope) (scope_workspace ex_scope) (id_lit "sandbox-a") w_digest
    (id_lit "worker-a") 7 1 Lifecycle.Paused Lifecycle.Paused StopAndMove (MkBackend Gvisor "runsc" "1" 1 w_digest) ex_requirements ∅ [] ∅.
Definition ex_media : string := "octets".
Definition ex_state : list ascii := bytes "the state of the container".
Definition ex_metadata : list ascii := bytes "metadata".
Definition ex_staged (container : option ContainerId) (n : string) (r : ArtifactRole) (content : list ascii) : StagedSnapshotObject :=
  MkStaged r container n (Ok true) (Ok content) (Ok content) ex_media None.
Definition ex_publication : SnapshotPublication :=
  MkPublication ex_scope ex_unpopulated
    [ex_staged (Some (id_lit "app" : ContainerId)) "state" RuntimeState ex_state; ex_staged None "metadata" BackendMetadata ex_metadata].

Definition ex_encoded : list ascii := bytes "{manifest}".
Definition ex_grant : SnapshotTransferGrant :=
  MkGrant TRANSFER_VERSION (scope_tenant ex_scope) (scope_workspace ex_scope) (id_lit "sandbox-a") ex_id (id_lit "worker-a") (epoch_lit 7) 1.
Definition ex_target : RestoreTarget :=
  MkTarget (scope_tenant ex_scope) (scope_workspace ex_scope) (id_lit "sandbox-a") (id_lit "worker-b") (epoch_lit 8) CrossBackend
    (MkProfileId "strict" 1) None.
Definition ex_encoded_grant : list ascii := bytes "{grant}".

#[local] Instance ex_codec : ArtifactCodec := {
  manifest_json := encode_one (manifest_of ex_publication) ex_encoded;
  manifest_parse := decode_one (manifest_of ex_publication) ex_encoded;
  pointer_json := encode_one (MkPointer POINTER_VERSION ex_id (describes_content ex_encoded MANIFEST_MEDIA_TYPE)) (bytes "{pointer}");
  pointer_parse := decode_one (MkPointer POINTER_VERSION ex_id (describes_content ex_encoded MANIFEST_MEDIA_TYPE)) (bytes "{pointer}");
  grant_json := encode_one ex_grant ex_encoded_grant;
  grant_parse := decode_one ex_grant ex_encoded_grant;
  transfer_pointer_json :=
    encode_one (MkTransferPointer TRANSFER_VERSION ex_id (describes_content ex_encoded_grant TRANSFER_GRANT_MEDIA_TYPE)) (bytes "{transfer}");
  transfer_pointer_parse :=
    decode_one (MkTransferPointer TRANSFER_VERSION ex_id (describes_content ex_encoded_grant TRANSFER_GRANT_MEDIA_TYPE)) (bytes "{transfer}");
  claim_json := encode_one (claim_of ex_grant ex_target) (bytes "{claim}");
  claim_parse := decode_one (claim_of ex_grant ex_target) (bytes "{claim}")
}.
#[local] Instance ex_codec_laws : ArtifactCodecLaws.
Proof. split; intros x l; apply one_round. Qed.

Definition ex_limits : ArtifactLimits := MkLimits (2 ^ 20) (2 ^ 24) 100 1000 4 60000 60000.
Definition ex_start : World := MkArtifactWorld ∅ 1000000 [] 0.
Definition ex_contents (l : list ascii) : Prop := l ∈ [ex_state; ex_metadata; ex_encoded].
Definition ex_medias (m : string) : Prop := m ∈ [ex_media; MANIFEST_MEDIA_TYPE].

Definition ex_run : World → RepositoryOp → World := run ex_random [] ex_limits.
Definition ex_published : World * result ArtifactError PublicationMetrics := publish ex_random [] ex_limits ex_publication ex_start.

Definition ex_materialized : World * result ArtifactError MaterializedSnapshot := materialize [] ex_limits ex_scope ex_id true ex_published.1.

Definition ex_descriptor : ArtifactDescriptor := describes_content ex_state ex_media.
Definition ex_envelope : list ascii :=
  match seal (Ok ex_state) ex_scope ex_descriptor [] (ex_random 0) None with Ok envelope => envelope | Err _ => [] end.

(** A published snapshot with its grant. *)
Definition ex_granted : World := foldl ex_run ex_start [Publish ex_publication; PublishTransferGrant ex_scope ex_id].
Definition ex_claimed (w : World) : World * result ArtifactError SnapshotTransferClaim :=
  claim_transfer ex_random [] ex_scope ex_id ex_target w.
Definition ex_other_scope : ArtifactScope := MkArtifactScope (id_lit "tenant-b") (id_lit "team-a").
Definition ex_later : list RepositoryOp :=
  [GarbageCollect ex_scope; Materialize ex_scope ex_id true; RemoveReference ex_other_scope ex_id; PublishTransferGrant ex_scope ex_id;
   ClaimTransfer ex_scope ex_id ex_target; Publish ex_publication; GarbageCollect ex_scope].

Lemma hex_digit_slash n : (n < 16)%N → hex_digit n ≠ "/"%char.
Proof.
  intros Hn Heq. apply (f_equal N_of_ascii) in Heq. unfold hex_digit in Heq. change (N_of_ascii "/") with 47%N in Heq.
  destruct (N.ltb_spec n 10); rewrite N_ascii_embedding in Heq; lia.
Qed.

Lemma ex_distinct : distinct ex_contents ex_medias.
Proof.
  split.
  - intros l. induction l as [|c l IH]; [by intros ?%elem_of_nil|]. simpl. rewrite !not_elem_of_cons. pose proof (N_ascii_bounded c).
    split_and!; [| |done]; apply not_eq_sym, hex_digit_slash; [apply N.Div0.div_lt_upper_bound; lia|by apply N.mod_upper_bound].
  - intros c c' Hc Hc'. unfold ex_contents in *. set_unfold. intros Heq. destruct_or!; subst; (done || by vm_compute in Heq).
  - intros m m' Hm Hm'. unfold ex_medias in *. set_unfold. intros Heq. destruct_or!; subst; (done || by vm_compute in Heq).
  - unfold ex_medias. set_solver.
Qed.

Lemma ex_staged_within container n r content : ex_contents content → staged_within ex_contents ex_medias (ex_staged container n r content).
Proof. intros Hc. split; simpl; [by intros c [= <-]|by intros c [= <-]|unfold ex_medias; set_solver]. Qed.
Lemma ex_within : within ex_contents ex_medias ex_publication.
Proof.
  split.
  - simpl. rewrite !Forall_cons, Forall_nil. split_and!; [apply ex_staged_within; unfold ex_contents; set_solver..|done].
  - intros l. simpl. unfold encode_one. rewrite decide_True by done. intros [= <-]. unfold ex_contents. set_solver.
Qed.
Lemma ex_good D : Good [] ex_contents ex_medias D ex_start.
Proof. split; [apply map_Forall_empty|constructor]. Qed.

Lemma ex_published_run : publish ex_random [] ex_limits ex_publication ex_start = (ex_published.1, Ok (MkMetrics ex_id 2 34 374 0)).
Proof.
  assert (ex_published.2 = Ok (MkMetrics ex_id 2 34 374 0)) as <- by (vm_compute; reflexivity). unfold ex_published. apply surjective_pairing.
Qed.
Lemma ex_materialized_run : materialize [] ex_limits ex_scope ex_id true ex_published.1 =
  (ex_materialized.1, Ok (MkMaterialized (manifest_of ex_publication) (files_of ex_publication) 374)).
Proof.
  assert (ex_materialized.2 = Ok (MkMaterialized (manifest_of ex_publication) (files_of ex_publication) 374)) as <- by (vm_compute; reflexivity).
  unfold ex_materialized. apply surjective_pairing.
Qed.
Lemma ex_claimed_run w : w = ex_granted ∨ w = foldl ex_run (ex_claimed ex_granted).1 ex_later →
  claim_transfer ex_random [] ex_scope ex_id ex_target w = ((ex_claimed w).1, Ok (claim_of ex_grant ex_target)).
Proof.
  intros Hw. assert ((ex_claimed w).2 = Ok (claim_of ex_grant ex_target)) as <- by (destruct Hw as [-> | ->]; vm_compute; reflexivity).
  unfold ex_claimed. apply surjective_pairing.
Qed.
Lemma ex_good_granted D : Good [] ex_contents ex_medias D ex_granted.
Proof.
  assert (maximum_object_bytes ex_limits ≤ 2 ^ 60) as Hl by done.
  apply (publish_transfer_grant_allowed ex_random [] ex_contents ex_medias D).
  apply (publish_allowed ex_random [] ex_limits ex_contents ex_medias ex_distinct ex_fresh Hl D ex_publication ex_within). apply ex_good.
Qed.
Lemma ex_respects : Forall (respects ex_contents ex_medias ex_scope ex_id) ex_later.
Proof.
  unfold ex_later. repeat (apply Forall_cons; split); [exact I..| |exact I|exact I|exact ex_within|exact I|apply Forall_nil; exact I].
  intros [= Heq].
Qed.

(** ** Theorems *)

Section theorems.
Context `{CryptographyLaws, ArtifactCodec} `{!ArtifactCodecLaws} (random : nat → Randomness) (master : list ascii) (limits : ArtifactLimits).
Context (U : list ascii → Prop) (V : string → Prop).

(** C27: What is sealed is opened again, with the key of its scope and the
    descriptor it was sealed for, whatever its size and the random bytes are;
    it has the size and digest of the descriptor, and the envelope is exactly as
    large as a reader allows. *)
Theorem sealed_envelope_opens plaintext scope d random_bytes patience envelope maximum :
  0 < size_bytes d ≤ u64_max → fresh random_bytes → seal (Ok plaintext) scope d master random_bytes patience = Ok envelope →
  maximum_envelope_bytes (size_bytes d) = Ok maximum →
  open envelope scope d master None = Ok plaintext ∧ length_z plaintext = size_bytes d ∧ digest_text plaintext = digest d ∧
  length_z envelope = maximum.
Proof.
  intros Hs Hf Hseal Hm. apply maximum_envelope_bytes_Ok in Hm as ->; [|lia]. by apply seal_Ok in Hseal.
Qed.

(** C9: A snapshot that was published is materialized with exactly the
    manifest and the files of its publication, whatever is published,
    materialized, transferred, unreferenced and collected afterwards, with
    failures and other clients at every call: until its own reference is
    removed.  Contents and media types must not collide, and others must not
    delete its blobs. *)
Theorem published_snapshot_kept (Hdistinct : distinct U V) (Hrandom : ∀ n, fresh (random n)) (Hlimits : maximum_object_bytes limits ≤ 2 ^ 60)
    p ops w w1 metrics t n :
  within U V p → Good master U V (other p) w → publish random master limits p w = (w1, Ok metrics) →
  Forall (respects U V (publication_scope p) (published_id p)) ops →
  let w2 := foldl (run random master limits) w1 ops in
  ∃ transferred,
    (materialize master limits (publication_scope p) (published_id p) true (MkArtifactWorld (blobs w2) t [] n)).2 =
    Ok (MkMaterialized (manifest_of p) (files_of p) transferred).
Proof.
  intros Hin Hg Hrun Hops w2. pose proof (publish_allowed random master limits U V Hdistinct Hrandom Hlimits (other p) p Hin w Hg) as [Hg1 _].
  rewrite Hrun in Hg1. simpl in Hg1.
  assert (held master limits p (blobs w1)) as Hh by (eapply publish_held, Hrun; [done..|apply needed_other]).
  destruct (history_held random master limits U V Hdistinct Hrandom Hlimits p ops w1 Hops Hg1 Hh) as [_ Hh2].
  destruct (materialize_quiet master limits Hlimits (MkArtifactWorld (blobs w2) t [] n) eq_refl p Hh2) as [transferred Hm].
  exists transferred. by rewrite Hm.
Qed.

(** C16: Whatever the store holds and whoever writes to it, a materialized
    snapshot is the one that was asked for, its manifest is valid and of the
    scope, and each file has the size and the digest that the manifest
    records for it. *)
Theorem materialized_files_verified scope id absent w w' r :
  materialize master limits scope id absent w = (w', Ok r) →
  snapshot_id (materialized_manifest r) = id ∧ manifest_tenant (materialized_manifest r) = scope_tenant scope ∧
  manifest_workspace (materialized_manifest r) = scope_workspace scope ∧ validate_manifest (materialized_manifest r) = Ok tt ∧
  Forall (λ o, ∃ content, files r !! name o = Some content ∧ length_z content = size_bytes (object_artifact o) ∧
                          digest_text content = digest (object_artifact o)) (manifest_objects (materialized_manifest r)).
Proof.
  unfold materialize. do 3 (intros ([] & ? & _ & Hrun)%M_bind_Ok_inv; revert Hrun).
  intros ([m n] & w1 & Hload & Hrun)%M_bind_Ok_inv. apply load_manifest_valid in Hload as (Hid & Hscope & Hvalid). cbv zeta in Hrun.
  do 4 apply M_bind_Ok_inv in Hrun as (? & ? & _ & Hrun). apply M_bind_Ok_inv in Hrun as ([written n'] & w2 & Hobjects & Hrun).
  apply materialize_objects_verified in Hobjects as [_ Hfiles]; [|by apply manifest_sizes].
  apply M_bind_Ok_inv in Hrun as ([] & w3 & _ & Hrun). injection Hrun as _ <-. simpl.
  unfold validate_scope in Hscope. apply reject_if_Ok, orb_false_iff in Hscope as [Ht Hw].
  apply negb_false_iff, bool_decide_eq_true in Ht, Hw. done.
Qed.

(** C15: A transfer is claimed for one destination: once a claim was granted,
    every later claim of the snapshot that is granted is the same one, for the
    same destination and epochs, as long as its reference is not removed and
    others do not delete it. *)
Theorem claim_is_final `{!CounterMode} (Hdistinct : distinct U V) (Hrandom : ∀ n, fresh (random n))
    (Hlimits : maximum_object_bytes limits ≤ 2 ^ 60) scope id t t' ops w w1 w2 c c' :
  Good master U V (unclaimed scope id) w → claim_transfer random master scope id t w = (w1, Ok c) →
  Forall (respects U V scope id) ops →
  claim_transfer random master scope id t' (foldl (run random master limits) w1 ops) = (w2, Ok c') →
  c' = c ∧ target_worker t' = target_worker t ∧ target_epoch t' = target_epoch t.
Proof.
  intros Hg Hrun Hops Hrun'. pose proof (claim_transfer_Ok random master U V Hrandom scope id t w w1 c Hg Hrun) as Hc.
  destruct (claim_transfer_allowed random master U V (unclaimed scope id) scope id t w Hg) as [Hg1 _]. rewrite Hrun in Hg1.
  destruct (history_claimed random master limits U V Hdistinct Hrandom Hlimits scope id c ops w1 Hops Hg1 Hc) as [Hg2 Hc2].
  destruct (claim_transfer_allowed random master U V (unclaimed scope id) scope id t' _ Hg2) as [_ Hs]. rewrite Hrun' in Hs.
  pose proof (claim_transfer_Ok random master U V Hrandom scope id t' _ w2 c' Hg2 Hrun') as Hc'.
  assert (c' = c) as -> by (apply (claimed_once master scope id c' c (blobs w2)); [exact Hc'|by eapply claimed_spares]).
  apply claim_destination in Hrun as [<- <-], Hrun' as [<- <-]. done.
Qed.
End theorems.


Lemma published_snapshot_kept_witness :
  ex_published.2 = Ok (MkMetrics ex_id 2 34 374 0) ∧
  ∃ transferred,
    (materialize [] ex_limits ex_scope ex_id true (MkArtifactWorld (blobs (foldl ex_run ex_published.1 ex_later)) 0 [] 0)).2 =
    Ok (MkMaterialized (manifest_of ex_publication) (files_of ex_publication) transferred).
Proof.
  split; [exact (f_equal snd ex_published_run)|].
  exact (published_snapshot_kept ex_random [] ex_limits ex_contents ex_medias ex_distinct ex_fresh ltac:(done) ex_publication ex_later ex_start
    ex_published.1 (MkMetrics ex_id 2 34 374 0) 0 0 ex_within (ex_good _) ex_published_run ex_respects).
Defined.

Lemma materialized_files_verified_witness :
  materialize [] ex_limits ex_scope ex_id true ex_published.1 =
    (ex_materialized.1, Ok (MkMaterialized (manifest_of ex_publication) (files_of ex_publication) 374)) ∧
  validate_manifest (manifest_of ex_publication) = Ok tt.
Proof.
  split; [exact ex_materialized_run|].
  exact (proj1 (proj2 (proj2 (proj2 (materialized_files_verified [] ex_limits ex_scope ex_id true ex_published.1 _ _ ex_materialized_run))))).
Defined.

Lemma claim_is_final_witness :
  claim_transfer ex_random [] ex_scope ex_id ex_target ex_granted = ((ex_claimed ex_granted).1, Ok (claim_of ex_grant ex_target)) ∧
  target_epoch ex_target = target_epoch ex_target.
Proof.
  split; [exact (ex_claimed_run _ (or_introl eq_refl))|].
  exact (proj2 (proj2 (claim_is_final ex_random [] ex_limits ex_contents ex_medias ex_distinct ex_fresh ltac:(done) ex_scope ex_id ex_target ex_target
    ex_later ex_granted (ex_claimed ex_granted).1 _ _ _ (ex_good_granted _) (ex_claimed_run _ (or_introl eq_refl)) ex_respects
    (ex_claimed_run _ (or_intror eq_refl))))).
Defined.

Lemma sealed_envelope_opens_witness :
  seal (Ok ex_state) ex_scope ex_descriptor [] (ex_random 0) None = Ok ex_envelope ∧ open ex_envelope ex_scope ex_descriptor [] None = Ok ex_state.
Proof.
  assert (seal (Ok ex_state) ex_scope ex_descriptor [] (ex_random 0) None = Ok ex_envelope) as Hs by (vm_compute; reflexivity).
  split; [exact Hs|]. refine (proj1 (sealed_envelope_opens [] ex_state ex_scope ex_descriptor (ex_random 0) None ex_envelope 133 _ (ex_fresh 0) Hs _)).
  - split; [reflexivity|intros Hc; discriminate Hc].
  - vm_compute. reflexivity.
Defined.
