(* ===== verification/Attestation.v ===== *)
(** * Image attestations and prepared roots

    Models [crates/sandbox-core/src/attestation.rs] and [preparation.rs], and the
    check of [bins/sandboxd/src/image_attestation.rs] that the fixed root file
    system of a worker is the one that was attested.

    JSON, base64 and Ed25519 are parameters; the files that the check reads are
    given by what was read from them. *)
From Stdlib Require Import DecimalString DecimalN.
From S2P Require Import Prelude Identity GuestProfile Volume Network Topology.
Import Topology.Topology.

Module Attestation.

Definition IMAGE_ATTESTATION_VERSION : Z := 2.
Definition SIGNING_DOMAIN : list ascii := bytes "runtrue-sandboxd/image-attestation/v2" ++ [zero].

Record AttestedDescriptor : Type := MkAttested {
  attested_role : string;
  attested_media_type : string;
  attested_digest : string;
  attested_size : Z
}.

#[global] Instance AttestedDescriptor_eq_dec : EqDecision AttestedDescriptor.
Proof. solve_decision. Defined.

(** The derived [Ord]: field by field. *)
Definition descriptor_compare (a b : AttestedDescriptor) : comparison :=
  match String.compare (attested_role a) (attested_role b) with
  | Eq =>
      match String.compare (attested_media_type a) (attested_media_type b) with
      | Eq =>
          match String.compare (attested_digest a) (attested_digest b) with
          | Eq => attested_size a ?= attested_size b
          | c => c
          end
      | c => c
      end
  | c => c
  end.
Definition descriptor_leb (a b : AttestedDescriptor) : bool := match descriptor_compare a b with Gt => false | _ => true end.

Record ImagePreparationAttestation : Type := MkAttestation {
  attestation_schema_version : Z;
  attested_reference : string;
  attested_image_id : string;
  attested_platform : string;
  descriptors : list AttestedDescriptor;
  expanded_root_digest : string;
  expanded_root_entries : Z;
  expanded_root_bytes : Z;
  preparation_policy : string;
  toolchain_digest : string;
  sbom_digest : string;
  provenance_digest : string;
  vulnerability_policy : string;
  worker_artifact_digest : string;
  prepared_unix_ms : Z
}.
Record SignedImageAttestation : Type := MkSigned { key_id : string; attestation : ImagePreparationAttestation; signature : string }.
Record ImageAttestationExpectation : Type := MkExpectation {
  expected_reference : string;
  expected_image_id : string;
  expected_platform : string;
  expected_descriptors : list AttestedDescriptor;
  expected_root_digest : string;
  expected_root_entries : Z;
  expected_root_bytes : Z;
  expected_artifact : string
}.
Record AttestationTrustPolicy : Type := MkTrustPolicy {
  trusted_public_keys : gmap string string;
  allowed_preparation_policies : gset string;
  allowed_toolchain_digests : gset string;
  allowed_vulnerability_policies : gset string;
  revoked_worker_artifact_digests : gset string;
  revoked_expanded_root_digests : gset string;
  maximum_attestation_age_ms : Z
}.

Definition bounded_name (value : string) (maximum : Z) : bool :=
  negb (bool_decide (value = EmptyString)) && (len value <=? maximum)
  && all_bytes (λ c, is_ascii_lowercase c || is_ascii_digit c || is_byte "-" c) value.
Definition valid_exact_reference (value : string) : bool :=
  match rsplit_once "@" value with
  | Some (name, digest) => negb (bool_decide (name = EmptyString)) && negb (contains "@" name) && valid_digest digest
  | None => false
  end.
Definition valid_platform (value : string) : bool :=
  bool_decide (split_byte "/" value ∈ [["linux"; "amd64"]; ["linux"; "arm64"]; ["linux"; "arm"; "v7"]]%string).

Definition invalid_descriptor (roles : gset string) (previous : option AttestedDescriptor) (d : AttestedDescriptor) : bool :=
  negb (bounded_name (attested_role d) 64) || bool_decide (attested_media_type d = EmptyString) || (256 <? len (attested_media_type d))
  || negb (all_bytes (λ c, code c <? 128) (attested_media_type d)) || negb (valid_digest (attested_digest d)) || (attested_size d =? 0)
  || bool_decide (attested_role d ∈ roles)
  || match previous with Some prior => match descriptor_compare prior d with Lt => false | _ => true end | None => false end.

(** The loop: the roles that were seen. *)
Fixpoint validate_descriptors (roles : gset string) (previous : option AttestedDescriptor) (l : list AttestedDescriptor) :
    result CoreError (gset string) :=
  match l with
  | [] => Ok roles
  | d :: l' =>
      reject_if (invalid_descriptor roles previous d) (InvalidSpecification "attested descriptor graph is invalid or noncanonical");;
      validate_descriptors ({[ attested_role d ]} ∪ roles) (Some d) l'
  end.

Definition invalid_attestation (a : ImagePreparationAttestation) : bool :=
  negb (attestation_schema_version a =? IMAGE_ATTESTATION_VERSION) || (512 <? len (attested_reference a))
  || negb (valid_exact_reference (attested_reference a)) || negb (valid_digest (attested_image_id a))
  || negb (valid_platform (attested_platform a)) || bool_decide (descriptors a = []) || (1024 <? length_z (descriptors a))
  || negb (valid_digest (expanded_root_digest a)) || (expanded_root_entries a =? 0) || (expanded_root_bytes a =? 0)
  || negb (bounded_name (preparation_policy a) 128) || negb (valid_digest (toolchain_digest a))
  || negb (valid_digest (sbom_digest a)) || negb (valid_digest (provenance_digest a))
  || negb (bounded_name (vulnerability_policy a) 128) || negb (valid_digest (worker_artifact_digest a))
  || (prepared_unix_ms a =? 0).

Definition validate_attestation (a : ImagePreparationAttestation) : result CoreError () :=
  reject_if (invalid_attestation a) (InvalidSpecification "image preparation attestation is invalid");;
  roles ← validate_descriptors ∅ None (descriptors a);
  reject_if (negb (bool_decide ("manifest"%string ∈ roles)) || negb (bool_decide ("config"%string ∈ roles))
             || negb (existsb (starts_with "layer-") (elements roles)))
    (InvalidSpecification "attested descriptor graph is incomplete").

(** [serde_json], [STANDARD_NO_PAD] and Ed25519: [verifying_key] says whether bytes are a key. *)
Class Attesting : Type := {
  attestation_json : ImagePreparationAttestation → result string (list ascii);
  no_pad_encode : list ascii → string;
  no_pad_decode : string → option (list ascii);
  public_of : list ascii → list ascii;
  sign_bytes : list ascii → list ascii → list ascii;
  verifying_key : list ascii → bool;
  verify_strict : list ascii → list ascii → list ascii → bool
}.

Section code.
Context `{Attesting}.

Definition validate_key_id (value : string) : result CoreError () :=
  reject_if (negb (bounded_name value 64)) (InvalidSpecification "image attestation key ID is invalid").

Definition decode_public_key (value : string) : result CoreError (list ascii) :=
  key ← ok_or (InvalidSpecification "image attestation public key is invalid") (no_pad_decode value);
  reject_if (negb (length key =? 32)%nat) (InvalidSpecification "image attestation public key is invalid");;
  mret key.

Definition validate_policy (p : AttestationTrustPolicy) : result CoreError () :=
  reject_if (bool_decide (trusted_public_keys p = ∅) || (64 <? Z.of_nat (size (trusted_public_keys p)))
             || bool_decide (allowed_preparation_policies p = ∅) || (64 <? Z.of_nat (size (allowed_preparation_policies p)))
             || bool_decide (allowed_toolchain_digests p = ∅) || (256 <? Z.of_nat (size (allowed_toolchain_digests p)))
             || bool_decide (allowed_vulnerability_policies p = ∅) || (64 <? Z.of_nat (size (allowed_vulnerability_policies p)))
             || (65536 <? Z.of_nat (size (revoked_worker_artifact_digests p)))
             || (65536 <? Z.of_nat (size (revoked_expanded_root_digests p)))
             || (maximum_attestation_age_ms p =? 0) || (366 * 24 * 60 * 60 * 1000 <? maximum_attestation_age_ms p)
             || existsb (λ '(id, key), negb (is_ok (validate_key_id id)) || negb (is_ok (decode_public_key key)))
                  (map_to_list (trusted_public_keys p))
             || existsb (λ x, negb (bounded_name x 128)) (elements (allowed_preparation_policies p))
             || existsb (λ x, negb (valid_digest x)) (elements (allowed_toolchain_digests p))
             || existsb (λ x, negb (bounded_name x 128)) (elements (allowed_vulnerability_policies p))
             || existsb (λ x, negb (valid_digest x))
                  (elements (revoked_worker_artifact_digests p) ++ elements (revoked_expanded_root_digests p)))
    (InvalidSpecification "image attestation trust policy is invalid").

Definition signing_payload (id : string) (a : ImagePreparationAttestation) : result CoreError (list ascii) :=
  encoded ← map_err (λ error, InvalidSpecification ("encode image attestation: " +:+ error)) (attestation_json a);
  mret (SIGNING_DOMAIN ++ bytes id ++ [zero] ++ encoded).

Definition sign_image_attestation (id : string) (private_key : list ascii) (a : ImagePreparationAttestation) :
    result CoreError SignedImageAttestation :=
  validate_attestation a;;
  validate_key_id id;;
  payload ← signing_payload id a;
  mret (MkSigned id a (no_pad_encode (sign_bytes private_key payload))).

Definition verify_image_attestation (public_key : list ascii) (signed : SignedImageAttestation) : result CoreError () :=
  validate_attestation (attestation signed);;
  validate_key_id (key_id signed);;
  signature_bytes ← ok_or (InvalidSpecification "image attestation signature is invalid") (no_pad_decode (signature signed));
  reject_if (negb (length signature_bytes =? 64)%nat) (InvalidSpecification "image attestation signature is invalid");;
  reject_if (negb (verifying_key public_key)) (InvalidSpecification "image attestation public key is invalid");;
  payload ← signing_payload (key_id signed) (attestation signed);
  reject_if (negb (verify_strict public_key payload signature_bytes)) (InvalidSpecification "image attestation signature is invalid").

(** Outside what the operator allows at the time. *)
Definition outside_policy (p : AttestationTrustPolicy) (a : ImagePreparationAttestation) (now_unix_ms : Z) : bool :=
  (now_unix_ms <? prepared_unix_ms a) || (maximum_attestation_age_ms p <? Z.max 0 (now_unix_ms - prepared_unix_ms a))
  || negb (bool_decide (preparation_policy a ∈ allowed_preparation_policies p))
  || negb (bool_decide (toolchain_digest a ∈ allowed_toolchain_digests p))
  || negb (bool_decide (vulnerability_policy a ∈ allowed_vulnerability_policies p))
  || bool_decide (worker_artifact_digest a ∈ revoked_worker_artifact_digests p)
  || bool_decide (expanded_root_digest a ∈ revoked_expanded_root_digests p).

Definition verify_trusted_image_attestation (p : AttestationTrustPolicy) (signed : SignedImageAttestation) (now_unix_ms : Z) :
    result CoreError () :=
  validate_policy p;;
  encoded_key ← ok_or (InvalidSpecification "image attestation key is not trusted") (trusted_public_keys p !! key_id signed);
  public_key ← decode_public_key encoded_key;
  verify_image_attestation public_key signed;;
  reject_if (outside_policy p (attestation signed) now_unix_ms)
    (InvalidSpecification "image attestation is expired, revoked, or outside operator policy").

Definition unexpected (a : ImagePreparationAttestation) (e : ImageAttestationExpectation) : bool :=
  negb (bool_decide (attested_reference a = expected_reference e)) || negb (bool_decide (attested_image_id a = expected_image_id e))
  || negb (bool_decide (attested_platform a = expected_platform e)) || negb (bool_decide (descriptors a = expected_descriptors e))
  || negb (bool_decide (expanded_root_digest a = expected_root_digest e)) || negb (expanded_root_entries a =? expected_root_entries e)
  || negb (expanded_root_bytes a =? expected_root_bytes e)
  || negb (bool_decide (worker_artifact_digest a = expected_artifact e)).

Definition verify_bound_image_attestation (p : AttestationTrustPolicy) (signed : SignedImageAttestation)
    (expected : ImageAttestationExpectation) (now_unix_ms : Z) : result CoreError () :=
  verify_trusted_image_attestation p signed now_unix_ms;;
  reject_if (unexpected (attestation signed) expected)
    (InvalidSpecification "image attestation does not match the admitted worker artifact").
End code.

(** ** The worker's check *)

Record FixedRootfsMeasurement : Type := MkMeasurement { measured_digest : string; measured_entries : Z; measured_bytes : Z }.
(** [topology_lock] is what is read from the lock file. *)
Record FixedRootfsConfig : Type := MkFixed { topology_lock : result SandboxError TopologyLock; measurement : option FixedRootfsMeasurement }.

Definition descriptor (role : string) (d : LockedDescriptor) : AttestedDescriptor :=
  MkAttested role (descriptor_media_type d) (descriptor_digest d) (descriptor_size d).

(** [format!("{index:04}")]. *)
Fixpoint zeros (n : nat) : string := match n with O => EmptyString | S n' => String "0" (zeros n') end.
Definition pad4 (n : nat) : string :=
  let digits := to_string (Z.of_nat n) in
  (zeros (4 - String.length digits) +:+ digits)%string.

Definition image_descriptors (image : LockedImage) : list AttestedDescriptor :=
  merge_sort (λ a b, Is_true (descriptor_leb a b))
    (match index image with Some d => [descriptor "index" d] | None => [] end
     ++ [descriptor "manifest" (manifest image); descriptor "config" (config image)]
     ++ imap (λ n layer, descriptor ("layer-" +:+ pad4 n) layer) (layers image)).

Definition image_platform (image : LockedImage) : string :=
  match variant image with
  | None => (operating_system image +:+ "/" +:+ architecture image)%string
  | Some v => (operating_system image +:+ "/" +:+ architecture image +:+ "/" +:+ v)%string
  end.

Definition expectation (i : LockedImage) (m : FixedRootfsMeasurement) (artifact : string) : ImageAttestationExpectation :=
  MkExpectation (exact_reference i) (image_id i) (image_platform i) (image_descriptors i) (measured_digest m) (measured_entries m)
    (measured_bytes m) artifact.

(** The files as they are read, and the time, which may precede the epoch. *)
Definition verify_configured `{Attesting} (signed : option (result SandboxError SignedImageAttestation))
    (policy : option (result SandboxError AttestationTrustPolicy)) (artifact : option string) (fixed : option FixedRootfsConfig)
    (now : result SandboxError Z) : result SandboxError () :=
  match signed, policy, artifact, fixed with
  | Some signed, Some policy, Some artifact, Some fixed =>
      m ← ok_or (Runtime "attested fixed rootfs requires an expanded-root measurement") (measurement fixed);
      signed ← signed;
      policy ← policy;
      topology ← topology_lock fixed;
      match image <$> btree_values (services topology) with
      | [] => Err (Runtime "attested topology has no locked image")
      | i :: images =>
          reject_if (existsb (λ candidate, negb (bool_decide (candidate = i))) images)
            (Runtime "one attested fixed rootfs cannot represent multiple locked images");;
          now ← now;
          map_err (λ error, Runtime (core_error_to_string error))
            (verify_bound_image_attestation policy signed (expectation i m artifact) now)
      end
  | _, _, _, _ => Ok tt
  end.

(** ** Prepared roots *)

Definition PREPARED_ROOT_CATALOG_VERSION : Z := 1.
Definition MAXIMUM_PREPARED_ROOT_COHORTS : Z := 128.
Definition MAXIMUM_ARTIFACTS_PER_COHORT : Z := 256.

Record PreparedRootArtifact : Type := MkRootArtifact { root_artifact : string; root_digest : string }.
Record PreparedRootCohort : Type := MkCohort { cohort_name : string; artifacts : list PreparedRootArtifact }.
Record PreparedRootCatalog : Type := MkCatalog { catalog_schema_version : Z; cohorts : list PreparedRootCohort }.

Definition validate_artifact (a : PreparedRootArtifact) : result CoreError () :=
  reject_if (negb (prepared_valid_digest (root_artifact a)) || negb (prepared_valid_digest (root_digest a)))
    (InvalidSpecification "prepared-root artifact identity is invalid").

Definition valid_name (value : string) : bool :=
  negb (bool_decide (value = EmptyString)) && (len value <=? 63)
  && forallb (λ '(n, c), is_ascii_lowercase c || is_ascii_digit c || (negb (n =? 0)%nat && (is_byte "-" c || is_byte "." c)))
       (imap pair (bytes value))
  && negb (ends_with "-" value || ends_with "." value).

Definition artifact_before (a b : PreparedRootArtifact) : bool :=
  match String.compare (root_artifact a) (root_artifact b) with
  | Lt => true
  | Gt => false
  | Eq => match String.compare (root_digest a) (root_digest b) with Lt => true | _ => false end
  end.

Fixpoint validate_artifacts (prior : option PreparedRootArtifact) (seen : gset string) (l : list PreparedRootArtifact) :
    result CoreError (gset string) :=
  match l with
  | [] => Ok seen
  | a :: l' =>
      validate_artifact a;;
      reject_if (match prior with Some p => negb (artifact_before p a) | None => false end || bool_decide (root_artifact a ∈ seen))
        (InvalidSpecification "prepared-root artifacts are duplicated or noncanonical");;
      validate_artifacts (Some a) ({[ root_artifact a ]} ∪ seen) l'
  end.

Fixpoint validate_cohorts (names seen : gset string) (l : list PreparedRootCohort) : result CoreError () :=
  match l with
  | [] => Ok tt
  | c :: l' =>
      reject_if (negb (valid_name (cohort_name c)) || bool_decide (cohort_name c ∈ names) || bool_decide (length (artifacts c) = 0%nat)
                 || (MAXIMUM_ARTIFACTS_PER_COHORT <? length_z (artifacts c)))
        (InvalidSpecification "prepared-root cohort is invalid or duplicated");;
      seen ← validate_artifacts None seen (artifacts c);
      validate_cohorts ({[ cohort_name c ]} ∪ names) seen l'
  end.

Definition validate_catalog (c : PreparedRootCatalog) : result CoreError () :=
  reject_if (negb (catalog_schema_version c =? PREPARED_ROOT_CATALOG_VERSION) || bool_decide (length (cohorts c) = 0%nat)
             || (MAXIMUM_PREPARED_ROOT_COHORTS <? length_z (cohorts c)))
    (InvalidSpecification "prepared-root catalog version or size is invalid");;
  validate_cohorts ∅ ∅ (cohorts c).

Definition cohort (c : PreparedRootCatalog) (name : string) : option PreparedRootCohort :=
  snd <$> list_find (λ x, cohort_name x = name) (cohorts c).

Fixpoint find_artifact (l : list PreparedRootCohort) (digest : string) : option (PreparedRootCohort * PreparedRootArtifact) :=
  match l with
  | [] => None
  | x :: l' =>
      match list_find (λ a, root_artifact a = digest) (artifacts x) with
      | Some (_, a) => Some (x, a)
      | None => find_artifact l' digest
      end
  end.
Definition artifact (c : PreparedRootCatalog) (digest : string) : option (PreparedRootCohort * PreparedRootArtifact) :=
  find_artifact (cohorts c) digest.
End Attestation.
Import Attestation.

(** ** Canonical descriptors *)

Lemma descriptor_compare_antisym a b : descriptor_compare b a = CompOpp (descriptor_compare a b).
Proof.
  unfold descriptor_compare. rewrite (String.compare_antisym (attested_role b)), (String.compare_antisym (attested_media_type b)),
    (String.compare_antisym (attested_digest b)), (Z.compare_antisym (attested_size a)).
  by destruct (String.compare (attested_role a) _), (String.compare (attested_media_type a) _), (String.compare (attested_digest a) _).
Qed.
#[global] Instance descriptor_leb_total : Total (λ a b, Is_true (descriptor_leb a b)).
Proof.
  intros a b. unfold descriptor_leb. rewrite (descriptor_compare_antisym a b). destruct (descriptor_compare a b); simpl; auto.
Qed.
Lemma descriptor_leb_lt a b : Is_true (descriptor_leb a b) → attested_role a ≠ attested_role b → descriptor_compare a b = Lt.
Proof.
  unfold descriptor_leb, descriptor_compare. destruct (String.compare (attested_role a) (attested_role b)) eqn:Hc; [|done|done].
  by apply String.compare_eq_iff in Hc.
Qed.

(** What is checked of a descriptor alone. *)
Definition well_described (d : AttestedDescriptor) : bool := negb (invalid_descriptor ∅ None d).

Lemma well_described_valid d roles previous :
  well_described d = true → attested_role d ∉ roles → match previous with Some p => descriptor_compare p d = Lt | None => True end →
  invalid_descriptor roles previous d = false.
Proof.
  unfold well_described, invalid_descriptor. rewrite (bool_decide_eq_false_2 (attested_role d ∈ ∅)) by set_solver.
  intros Hw Hr Hp. rewrite (bool_decide_eq_false_2 (attested_role d ∈ roles)) by done. rewrite negb_true_iff, !orb_false_r in Hw.
  rewrite Hw. destruct previous as [p|]; [|done]. by rewrite Hp.
Qed.

Lemma validate_sorted l : ∀ roles previous,
  Forall (λ d, well_described d = true) l → NoDup (attested_role <$> l) → Forall (λ d, attested_role d ∉ roles) l →
  Sorted (λ a b, Is_true (descriptor_leb a b)) l →
  match previous, l with Some p, d :: _ => descriptor_compare p d = Lt | _, _ => True end →
  validate_descriptors roles previous l = Ok (list_to_set (attested_role <$> l) ∪ roles).
Proof.
  induction l as [|d l IH]; intros roles previous Hw Hnd Hr Hs Hp; cbn [validate_descriptors].
  { f_equal. set_solver. }
  apply Forall_cons in Hw as [Hd Hw]. apply Forall_cons in Hr as [Hrd Hr]. apply NoDup_cons in Hnd as [Hnew Hnd].
  apply Sorted_inv in Hs as [Hs Hhd]. rewrite well_described_valid by done. cbn [reject_if mbind result_bind].
  rewrite IH; [f_equal; set_solver|done|done| |done|].
  - rewrite Forall_forall in Hr |- *. intros d' Hd'. rewrite not_elem_of_union, not_elem_of_singleton. split; [|by apply Hr].
    intros Heq. apply Hnew. rewrite <-Heq. by apply list_elem_of_fmap_2.
  - destruct l as [|d' l]; [done|]. apply HdRel_inv in Hhd. apply descriptor_leb_lt; [done|]. intros Heq. apply Hnew. rewrite Heq. simpl. set_solver.
Qed.

Definition layer_role (n : nat) : string := ("layer-" +:+ pad4 n)%string.

Definition decimal (s : string) : option N := N.of_uint <$> NilEmpty.uint_of_string s.
Lemma decimal_zeros k s : decimal (zeros k +:+ s) = decimal s.
Proof.
  induction k as [|k IH]; [done|]. rewrite <-IH. unfold decimal. simpl. by destruct (NilEmpty.uint_of_string (zeros k +:+ s)).
Qed.
Lemma decimal_pad4 n : decimal (pad4 n) = Some (N.of_nat n).
Proof.
  unfold pad4. rewrite decimal_zeros. unfold decimal, to_string. rewrite NilEmpty.usu. simpl. rewrite DecimalN.Unsigned.of_to. f_equal. lia.
Qed.
Lemma layer_role_inj n n' : layer_role n = layer_role n' → n = n'.
Proof. intros [= Heq]. apply (f_equal decimal) in Heq. rewrite !decimal_pad4 in Heq. injection Heq. lia. Qed.
Lemma layer_role_bounded n : (n < 1024)%nat → bounded_name (layer_role n) 64 = true.
Proof.
  intros Hn. assert (forallb (λ n, bounded_name (layer_role n) 64) (seq 0 1024) = true) as Hall by (vm_compute; reflexivity).
  rewrite forallb_forall in Hall. apply Hall, in_seq. lia.
Qed.

(** A locked image whose descriptors can be attested. *)
Definition described (d : LockedDescriptor) : bool := well_described (descriptor "config" d).
Record attestable (i : LockedImage) : Prop := Attestable {
  ab_index : match index i with Some d => described d = true | None => True end;
  ab_manifest : described (manifest i) = true;
  ab_config : described (config i) = true;
  ab_layers : Forall (λ d, described d = true) (layers i);
  ab_count : (0 < length (layers i) ≤ 1021)%nat
}.

Lemma described_role role d : described d = true → bounded_name role 64 = true → well_described (descriptor role d) = true.
Proof.
  unfold described, well_described, invalid_descriptor. intros Hd Hr.
  cbn [attested_role attested_media_type attested_digest attested_size descriptor] in *. rewrite Hr.
  rewrite (bool_decide_eq_false_2 (role ∈ ∅)) by set_solver. rewrite (bool_decide_eq_false_2 ("config"%string ∈ ∅)) in Hd by set_solver. exact Hd.
Qed.

Definition unsorted (i : LockedImage) : list AttestedDescriptor :=
  match index i with Some d => [descriptor "index" d] | None => [] end
  ++ [descriptor "manifest" (manifest i); descriptor "config" (config i)]
  ++ imap (λ n layer, descriptor (layer_role n) layer) (layers i).

Lemma unsorted_roles i : attested_role <$> unsorted i =
  match index i with Some _ => ["index"%string] | None => [] end ++ ["manifest"; "config"]%string ++ (layer_role <$> seq 0 (length (layers i))).
Proof.
  unfold unsorted. rewrite !fmap_app. f_equal; [by destruct (index i)|]. f_equal. rewrite fmap_imap.
  apply list_eq. intros n. rewrite list_lookup_imap, list_lookup_fmap. destruct (layers i !! n) as [d|] eqn:Hn.
  - apply lookup_lt_Some in Hn. by rewrite lookup_seq_lt.
  - apply lookup_ge_None in Hn. by rewrite lookup_seq_ge.
Qed.

Lemma unsorted_ok i : attestable i → Forall (λ d, well_described d = true) (unsorted i) ∧ NoDup (attested_role <$> unsorted i).
Proof.
  intros [Hi Hm Hc Hl Hn]. split.
  - unfold unsorted. rewrite !Forall_app, !Forall_cons, Forall_nil. split_and!; [|by apply described_role..|done|].
    + destruct (index i) as [d|]; [|done]. rewrite Forall_singleton. by apply described_role.
    + apply Forall_forall. intros d (n & layer & -> & Hlayer)%elem_of_lookup_imap. apply described_role.
      * rewrite Forall_forall in Hl. apply Hl. by eapply list_elem_of_lookup_2.
      * apply lookup_lt_Some in Hlayer. apply layer_role_bounded. lia.
  - rewrite unsorted_roles. rewrite !NoDup_app. split_and!.
    + destruct (index i); [apply NoDup_singleton|constructor].
    + destruct (index i); [|set_solver]. intros x Hx%list_elem_of_singleton. subst x. rewrite elem_of_app. intros [?|(n & [=] & _)%list_elem_of_fmap]. set_solver.
    + by apply (bool_decide_unpack _).
    + intros x Hx (n & -> & _)%list_elem_of_fmap. set_unfold. by destruct Hx as [[=]|[[=]|]].
    + apply NoDup_fmap_2_strong; [|apply NoDup_seq]. intros n n' _ _. apply layer_role_inj.
Qed.

Lemma image_descriptors_valid i : attestable i →
  validate_descriptors ∅ None (image_descriptors i) = Ok (list_to_set (attested_role <$> unsorted i)) ∧
  0 < length_z (image_descriptors i) ≤ 1024.
Proof.
  intros Hi. destruct (unsorted_ok i Hi) as [Hw Hnd]. change (image_descriptors i) with (merge_sort (λ a b, Is_true (descriptor_leb a b)) (unsorted i)).
  pose proof (merge_sort_Permutation (λ a b, Is_true (descriptor_leb a b)) (unsorted i)) as Hp. split.
  - rewrite validate_sorted; [|by rewrite Hp|by rewrite Hp|by apply Forall_true; set_solver|apply Sorted_merge_sort; apply _|done].
    f_equal. rewrite (right_id_L ∅ (∪)). by rewrite Hp.
  - rewrite Hp. destruct Hi as [_ _ _ _ Hn]. unfold unsorted. rewrite !length_app, length_imap. simpl. destruct (index i); simpl; lia.
Qed.

(** ** Signatures *)

(** Different attestations have different JSON; base64 decodes what it encodes; Ed25519 verifies what it signed. *)
Class AttestingLaws `{Attesting} : Prop := {
  json_inj a a' l : attestation_json a = Ok l → attestation_json a' = Ok l → a = a';
  no_pad_round l : no_pad_decode (no_pad_encode l) = Some l;
  public_length key : length (public_of key) = 32%nat;
  public_valid key : verifying_key (public_of key) = true;
  sign_length key message : length (sign_bytes key message) = 64%nat;
  sign_verifies key message : verify_strict (public_of key) message (sign_bytes key message) = true
}.

Section proofs.
Context `{AttestingLaws}.

Lemma no_zero_name value maximum : bounded_name value maximum = true → zero ∉ bytes value.
Proof. unfold bounded_name. rewrite !andb_true_iff. intros [_ Hb] Hin. by pose proof (all_bytes_elem _ _ _ Hb Hin). Qed.
Lemma zero_inj (x y x' y' : list ascii) : zero ∉ x → zero ∉ x' → x ++ zero :: y = x' ++ zero :: y' → x = x' ∧ y = y'.
Proof.
  revert x'. induction x as [|c x IH]; intros [|c' x'] Hx Hx' Heq; simpl in *; simplify_eq; [done|set_solver|set_solver|].
  destruct (IH x') as [-> ->]; [set_solver|set_solver|done|done].
Qed.

Lemma signing_payload_inj id id' a a' payload :
  validate_key_id id = Ok tt → validate_key_id id' = Ok tt → signing_payload id a = Ok payload → signing_payload id' a' = Ok payload →
  id = id' ∧ a = a'.
Proof.
  unfold validate_key_id. rewrite !reject_if_Ok, !negb_false_iff. intros Hid Hid' (l & Hl%map_err_Ok & <-%Ok_inj)%bind_Ok_inv.
  intros (l' & Hl'%map_err_Ok & Heq%Ok_inj)%bind_Ok_inv. apply (inj (SIGNING_DOMAIN ++.)) in Heq. simpl in Heq.
  apply zero_inj in Heq as [Hb ->]; [|by eapply no_zero_name..]. split; [symmetry; by apply bytes_inj|by eapply json_inj].
Qed.

(** What is attested by a signature that the policy trusts: what is signed is this attestation and no other. *)
Record attests (p : AttestationTrustPolicy) (s : SignedImageAttestation) (now : Z) : Prop := Attests {
  at_valid : validate_attestation (attestation s) = Ok tt;
  at_signed : ∃ encoded key payload bytes, trusted_public_keys p !! key_id s = Some encoded ∧ no_pad_decode encoded = Some key ∧
    signing_payload (key_id s) (attestation s) = Ok payload ∧ no_pad_decode (signature s) = Some bytes ∧ verify_strict key payload bytes = true ∧
    ∀ id a, validate_key_id id = Ok tt → signing_payload id a = Ok payload → id = key_id s ∧ a = attestation s;
  at_age : prepared_unix_ms (attestation s) ≤ now ≤ prepared_unix_ms (attestation s) + maximum_attestation_age_ms p;
  at_allowed : preparation_policy (attestation s) ∈ allowed_preparation_policies p ∧
    toolchain_digest (attestation s) ∈ allowed_toolchain_digests p ∧ vulnerability_policy (attestation s) ∈ allowed_vulnerability_policies p;
  at_revoked : (worker_artifact_digest (attestation s) ∉ revoked_worker_artifact_digests p) ∧
    (expanded_root_digest (attestation s) ∉ revoked_expanded_root_digests p)
}.

Lemma outside_policy_false p a now : outside_policy p a now = false ↔
  prepared_unix_ms a ≤ now ≤ prepared_unix_ms a + maximum_attestation_age_ms p ∧
  (preparation_policy a ∈ allowed_preparation_policies p ∧ toolchain_digest a ∈ allowed_toolchain_digests p ∧
   vulnerability_policy a ∈ allowed_vulnerability_policies p) ∧
  (worker_artifact_digest a ∉ revoked_worker_artifact_digests p) ∧ (expanded_root_digest a ∉ revoked_expanded_root_digests p).
Proof.
  unfold outside_policy. rewrite !orb_false_iff, !negb_false_iff, !bool_decide_eq_true, !bool_decide_eq_false, !Z.ltb_ge. split.
  - intros. destruct_and!. split_and!; (done || lia).
  - intros. destruct_and!. split_and!; (done || lia).
Qed.

Lemma unexpected_false a e : unexpected a e = false ↔
  (attested_reference a = expected_reference e ∧ attested_image_id a = expected_image_id e ∧ attested_platform a = expected_platform e ∧
   descriptors a = expected_descriptors e) ∧
  (expanded_root_digest a = expected_root_digest e ∧ expanded_root_entries a = expected_root_entries e ∧
   expanded_root_bytes a = expected_root_bytes e) ∧ worker_artifact_digest a = expected_artifact e.
Proof.
  unfold unexpected. rewrite !orb_false_iff, !negb_false_iff, !bool_decide_eq_true, !Z.eqb_eq. naive_solver.
Qed.

Lemma validate_policy_key p id encoded : validate_policy p = Ok tt → trusted_public_keys p !! id = Some encoded → validate_key_id id = Ok tt.
Proof.
  unfold validate_policy. rewrite reject_if_Ok, !orb_false_iff. intros Hv Hk. destruct_and!.
  match goal with He : existsb _ (map_to_list _) = false |- _ => rename He into Hkeys end.
  destruct (validate_key_id id) as [[]|e] eqn:Hid; [done|]. exfalso. apply not_true_iff_false in Hkeys. apply Hkeys, existsb_exists.
  exists (id, encoded). rewrite Hid. split; [by apply list_elem_of_In, elem_of_map_to_list|done].
Qed.

Lemma verify_trusted_Ok p s now :
  verify_trusted_image_attestation p s now = Ok tt → attests p s now.
Proof.
  unfold verify_trusted_image_attestation. intros ([] & _ & Hrun)%bind_Ok_inv.
  apply bind_Ok_inv in Hrun as (encoded & He%ok_or_Ok & Hrun). apply bind_Ok_inv in Hrun as (key & Hk & Hrun).
  apply bind_Ok_inv in Hk as (key' & Hdec%ok_or_Ok & Hk). apply bind_Ok_inv in Hk as ([] & _ & <-%Ok_inj).
  apply bind_Ok_inv in Hrun as ([] & Hv & Hpolicy%reject_if_Ok). apply outside_policy_false in Hpolicy as (? & ? & ?).
  unfold verify_image_attestation in Hv. apply bind_Ok_inv in Hv as ([] & Hvalid & Hv). apply bind_Ok_inv in Hv as ([] & Hid & Hv).
  apply bind_Ok_inv in Hv as (bytes & Hb%ok_or_Ok & Hv). apply bind_Ok_inv in Hv as ([] & _ & Hv). apply bind_Ok_inv in Hv as ([] & _ & Hv).
  apply bind_Ok_inv in Hv as (payload & Hp & Hv%reject_if_Ok). apply negb_false_iff in Hv. split; try done. exists encoded, key', payload, bytes.
  split_and!; [done..|]. intros id a Hid' Hp'. by eapply signing_payload_inj.
Qed.



Record bound (a : ImagePreparationAttestation) (i : LockedImage) (m : FixedRootfsMeasurement) (artifact : string) : Prop := Bound {
  bd_reference : attested_reference a = exact_reference i;
  bd_image : attested_image_id a = image_id i;
  bd_platform : attested_platform a = image_platform i;
  bd_descriptors : descriptors a = image_descriptors i;
  bd_root : expanded_root_digest a = measured_digest m ∧ expanded_root_entries a = measured_entries m ∧ expanded_root_bytes a = measured_bytes m;
  bd_artifact : worker_artifact_digest a = artifact
}.
Lemma unexpected_bound a i m artifact : unexpected a (expectation i m artifact) = false ↔ bound a i m artifact.
Proof. rewrite unexpected_false. simpl. split; [intros ((?&?&?&?)&?&?)|intros [????[??]?]]; [by split|done]. Qed.

(** The images of a topology are all the same one. *)
Definition only_image (t : TopologyLock) (i : LockedImage) : Prop :=
  services t ≠ ∅ ∧ ∀ name service, services t !! name = Some service → image service = i.

Lemma only_image_values t i : only_image t i ↔ ∃ images, image <$> btree_values (services t) = i :: images ∧ Forall (.= i) images.
Proof.
  split.
  - intros [Hne Hall]. assert (Forall (.= i) (image <$> btree_values (services t))) as Hf.
    { apply Forall_fmap, Forall_forall. intros service (name & Hs)%elem_of_btree_values. by eapply Hall. }
    destruct (btree_values (services t)) as [|service l] eqn:Hv.
    + exfalso. apply Hne, map_empty. intros name. destruct (services t !! name) as [service|] eqn:Hs; [|done].
      assert (service ∈ btree_values (services t)) as Hin by (apply elem_of_btree_values; by eexists). rewrite Hv in Hin. by apply elem_of_nil in Hin.
    + simpl in Hf. apply Forall_cons in Hf as [Hi Hf]. exists (image <$> l). simpl. by rewrite Hi.
  - intros (images & Hv & Hf). split.
    + intros He. rewrite He in Hv. done.
    + intros name service Hs. assert (image service ∈ i :: images) as Hin.
      { rewrite <-Hv. apply list_elem_of_fmap_2, elem_of_btree_values. by eexists. }
      apply elem_of_cons in Hin as [->|Hin]; [done|]. rewrite Forall_forall in Hf. by apply Hf.
Qed.

(** C19: A worker with a fixed root file system and an attestation starts only
    when all services of its topology use one image, and a key that the operator
    trusts signed that this image, with these layers, was expanded to the root
    that is installed, as the artifact of the worker, by an allowed tool chain
    and policies, not too long ago, and neither is revoked.  What is signed is
    this attestation and no other. *)
Theorem admitted_image_is_attested signed policy artifact fixed now :
  verify_configured (Some signed) (Some policy) (Some artifact) (Some fixed) now = Ok tt →
  ∃ s p t m n i, signed = Ok s ∧ policy = Ok p ∧ topology_lock fixed = Ok t ∧ measurement fixed = Some m ∧ now = Ok n ∧
    only_image t i ∧ attests p s n ∧ bound (attestation s) i m artifact.
Proof.
  unfold verify_configured. intros (m & Hm%ok_or_Ok & Hrun)%bind_Ok_inv. apply bind_Ok_inv in Hrun as (s & Hs & Hrun).
  apply bind_Ok_inv in Hrun as (p & Hp & Hrun). apply bind_Ok_inv in Hrun as (t & Ht & Hrun).
  destruct (image <$> btree_values (services t)) as [|i images] eqn:Hv; [done|].
  apply bind_Ok_inv in Hrun as ([] & Hsame%reject_if_Ok & Hrun). apply bind_Ok_inv in Hrun as (n & Hn & Hrun%map_err_Ok).
  apply bind_Ok_inv in Hrun as ([] & Hat%verify_trusted_Ok & Hb%reject_if_Ok%unexpected_bound).
  exists s, p, t, m, n, i. split_and!; try done. apply only_image_values. exists images. split; [done|]. apply Forall_forall. intros i' Hi'.
  destruct (decide (i' = i)) as [|Hne]; [done|]. exfalso. apply not_true_iff_false in Hsame. apply Hsame, existsb_exists.
  exists i'. split; [by apply list_elem_of_In|]. by rewrite bool_decide_eq_false_2.
Qed.

Lemma attestable_valid a i : attestable i → descriptors a = image_descriptors i → invalid_attestation a = false → validate_attestation a = Ok tt.
Proof.
  intros Hi Hd Ha. unfold validate_attestation. rewrite Ha. cbn [reject_if mbind result_bind]. rewrite Hd.
  destruct (image_descriptors_valid i Hi) as [-> _]. cbn [mbind result_bind]. apply reject_if_Ok. rewrite unsorted_roles.
  set (roles := _ ++ _ ++ _). assert ("manifest"%string ∈ roles ∧ "config"%string ∈ roles ∧ layer_role 0 ∈ roles) as (Hm & Hc & Hl).
  { unfold roles. rewrite !elem_of_app. split_and!; [set_solver|set_solver|]. right; right. apply list_elem_of_fmap_2, elem_of_seq.
    pose proof (ab_count _ Hi). lia. }
  rewrite !orb_false_iff, !negb_false_iff, !bool_decide_eq_true, !elem_of_list_to_set. split_and!; [done..|]. apply existsb_exists.
  exists (layer_role 0). split; [by apply list_elem_of_In, elem_of_elements, elem_of_list_to_set|]. apply starts_with_true. by exists (pad4 0).
Qed.

(** The attestation of a locked image, its measured root and a worker's
    artifact can always be signed, and the worker that trusts the key accepts it
    while the operator's policy allows it: the descriptors that both derive from
    the image are in the canonical order. *)
Theorem prepared_image_is_admitted i m artifact a p id key t now l :
  attestable i → bound a i m artifact → invalid_attestation a = false → attestation_json a = Ok l →
  validate_policy p = Ok tt → trusted_public_keys p !! id = Some (no_pad_encode (public_of key)) → outside_policy p a now = false →
  only_image t i →
  ∃ s, sign_image_attestation id key a = Ok s ∧
    verify_configured (Some (Ok s)) (Some (Ok p)) (Some artifact) (Some (MkFixed (Ok t) (Some m))) (Ok now) = Ok tt.
Proof.
  intros Hi Hb Ha Hl Hp Hk Ho Hone. pose proof (attestable_valid a i Hi (bd_descriptors _ _ _ _ Hb) Ha) as Hv.
  pose proof (validate_policy_key _ _ _ Hp Hk) as Hid. set (payload := SIGNING_DOMAIN ++ bytes id ++ [zero] ++ l).
  assert (signing_payload id a = Ok payload) as Hpay by (unfold signing_payload; by rewrite Hl).
  exists (MkSigned id a (no_pad_encode (sign_bytes key payload))). split; [unfold sign_image_attestation; by rewrite Hv, Hid, Hpay|].
  apply only_image_values in Hone as (images & Himages & Hall). unfold verify_configured. cbn [measurement topology_lock ok_or mbind result_bind].
  rewrite Himages. rewrite (proj2 (reject_if_Ok _ _ tt)).
  2: { apply not_true_iff_false. intros (i' & Hin & Hne)%existsb_exists. rewrite Forall_forall in Hall.
       rewrite (Hall i') in Hne by (by apply list_elem_of_In). by rewrite bool_decide_eq_true_2 in Hne. }
  cbn [mbind result_bind]. unfold verify_bound_image_attestation, verify_trusted_image_attestation. rewrite Hp. cbn [mbind result_bind key_id].
  rewrite Hk. cbn [ok_or mbind result_bind]. unfold decode_public_key. rewrite no_pad_round. cbn [ok_or mbind result_bind]. rewrite public_length.
  cbn [Nat.eqb negb reject_if mbind result_bind mret result_ret]. unfold verify_image_attestation. cbn [attestation key_id signature].
  rewrite Hv, Hid. cbn [mbind result_bind]. rewrite no_pad_round. cbn [ok_or mbind result_bind]. rewrite sign_length, public_valid.
  cbn [Nat.eqb negb reject_if mbind result_bind]. rewrite Hpay. cbn [mbind result_bind]. rewrite sign_verifies, Ho.
  cbn [negb reject_if mbind result_bind]. by rewrite (proj2 (unexpected_bound a i m artifact) Hb).
Qed.
End proofs.

(** ** The catalogue of prepared roots *)

Lemma validate_artifacts_Ok l : ∀ prior seen seen', validate_artifacts prior seen l = Ok seen' →
  NoDup (root_artifact <$> l) ∧ Forall (λ a, root_artifact a ∉ seen) l ∧ seen' = list_to_set (root_artifact <$> l) ∪ seen.
Proof.
  induction l as [|a l IH]; intros prior seen seen' Hv; cbn [validate_artifacts] in Hv.
  { injection Hv as <-. split_and!; [constructor|constructor|set_solver]. }
  apply bind_Ok_inv in Hv as ([] & _ & Hv).
  apply bind_Ok_inv in Hv as ([] & [_ Hnew%bool_decide_eq_false]%reject_if_Ok%orb_false_iff & Hv).
  apply IH in Hv as (Hnd & Hall & ->). rewrite Forall_forall in Hall. split_and!.
  - simpl. constructor; [|done]. intros (a' & Heq & Ha')%list_elem_of_fmap. apply (Hall a' Ha'). set_solver.
  - constructor; [done|]. apply Forall_forall. intros a' Ha' Hin. apply (Hall a' Ha'). set_solver.
  - simpl. set_solver.
Qed.

Definition all_artifacts (l : list PreparedRootCohort) : list string := root_artifact <$> concat (artifacts <$> l).

Lemma validate_cohorts_Ok l : ∀ names seen, validate_cohorts names seen l = Ok tt →
  (NoDup (cohort_name <$> l) ∧ Forall (λ x, cohort_name x ∉ names) l) ∧ NoDup (all_artifacts l) ∧ Forall (.∉ seen) (all_artifacts l).
Proof.
  induction l as [|x l IH]; intros names seen Hv; cbn [validate_cohorts] in Hv.
  { split_and!; constructor. }
  apply bind_Ok_inv in Hv as ([] & Hx%reject_if_Ok & Hv). rewrite !orb_false_iff, !bool_decide_eq_false in Hx. destruct Hx as (((_ & Hname) & _) & _).
  apply bind_Ok_inv in Hv as (seen' & (Hnd & Hnew & ->)%validate_artifacts_Ok & Hv).
  apply IH in Hv as [[Hnames Hnot] [Hall Hseen]]. rewrite Forall_forall in Hnot. rewrite Forall_forall in Hseen. split; split.
  - simpl. constructor; [|done]. intros (x' & Heq & Hx')%list_elem_of_fmap. apply (Hnot x' Hx'). set_solver.
  - constructor; [done|]. apply Forall_forall. intros x' Hx' Hin. apply (Hnot x' Hx'). set_solver.
  - unfold all_artifacts in *. simpl. rewrite fmap_app, NoDup_app. split_and!; [done| |done]. intros d Hd Hd'. apply (Hseen d Hd'). set_solver.
  - unfold all_artifacts in *. simpl. rewrite fmap_app, Forall_app. split; [by apply Forall_fmap|]. apply Forall_forall. intros d Hd Hin. apply (Hseen d Hd). set_solver.
Qed.

Lemma find_artifact_Some l digest x a : NoDup (all_artifacts l) →
  find_artifact l digest = Some (x, a) ↔ x ∈ l ∧ a ∈ artifacts x ∧ root_artifact a = digest.
Proof.
  induction l as [|y l IH]; intros Hnd; cbn [find_artifact]; [set_solver|].
  unfold all_artifacts in Hnd. simpl in Hnd. rewrite fmap_app, NoDup_app in Hnd. destruct Hnd as (Hy & Hdis & Hl).
  destruct (list_find _ (artifacts y)) as [[n b]|] eqn:Hf.
  - apply list_find_Some in Hf as (Hn & Hb & _). split.
    + intros [= <- <-]. split_and!; [set_solver|by eapply list_elem_of_lookup_2|done].
    + intros (Hx & Ha & Hd). apply elem_of_cons in Hx as [->|Hx].
      * f_equal. f_equal. apply list_elem_of_lookup in Ha as [n' Hn']. assert (n = n') as <-; [|congruence].
        eapply (NoDup_lookup (root_artifact <$> artifacts y)); [done|rewrite list_lookup_fmap, Hn; done|rewrite list_lookup_fmap, Hn'; simpl; congruence].
      * exfalso. apply (Hdis digest).
        -- rewrite <-Hb. apply list_elem_of_fmap_2. by eapply list_elem_of_lookup_2.
        -- rewrite <-Hd. apply list_elem_of_fmap_2. apply list_elem_of_In, in_concat. exists (artifacts x). split; apply list_elem_of_In; [by apply list_elem_of_fmap_2|done].
  - rewrite IH by done. split; [set_solver|]. intros (Hx & Ha & Hd). split_and!; [|done..]. apply elem_of_cons in Hx as [->|Hx]; [|done].
    exfalso. apply list_find_None in Hf. rewrite Forall_forall in Hf. by apply (Hf a).
Qed.

(** A validated catalogue is a partial function from artifacts to roots:
    an artifact is looked up exactly when some cohort lists it, then it is in
    one cohort with one root, and a cohort is found exactly by its name. *)
Theorem catalog_lookup_exact c : validate_catalog c = Ok tt →
  (∀ digest x a, artifact c digest = Some (x, a) ↔ x ∈ cohorts c ∧ a ∈ artifacts x ∧ root_artifact a = digest) ∧
  (∀ name x, cohort c name = Some x ↔ x ∈ cohorts c ∧ cohort_name x = name).
Proof.
  unfold validate_catalog. intros ([] & _ & [[Hn _] [Ha _]]%validate_cohorts_Ok)%bind_Ok_inv. split; [intros digest x a; by apply find_artifact_Some|].
  intros name x. unfold cohort. rewrite fmap_Some. split.
  - intros ([n y] & (Hy & Hname & _)%list_find_Some & ->). split; [by eapply list_elem_of_lookup_2|done].
  - intros [[n Hx]%list_elem_of_lookup Hname]. exists (n, x). split; [|done]. apply list_find_Some. split_and!; [done..|].
    intros j y Hj Hlt Hy. assert (j = n); [|lia].
    eapply (NoDup_lookup (cohort_name <$> cohorts c)); [done|by rewrite list_lookup_fmap, Hj|]. rewrite list_lookup_fmap, Hx. simpl. congruence.
Qed.

(** ** An example *)

Fixpoint of_bytes (l : list ascii) : string := match l with [] => EmptyString | c :: l' => String c (of_bytes l') end.
Lemma of_bytes_round l : bytes (of_bytes l) = l.
Proof. induction l as [|c l IH]; [done|]. simpl. by f_equal. Qed.

#[local] Instance ImagePreparationAttestation_eq_dec : EqDecision ImagePreparationAttestation.
Proof. solve_decision. Defined.

Definition ex_digest : string := "sha256:0000000000000000000000000000000000000000000000000000000000000000".
Definition ex_locked : LockedDescriptor := MkDescriptor "application/octet-stream" ex_digest 1.
Definition ex_image : LockedImage :=
  MkImage "app" ("app@" +:+ ex_digest) ex_digest (Some ex_locked) ex_locked ex_locked [ex_locked; ex_locked] "linux" "amd64" None.
Definition ex_measurement : FixedRootfsMeasurement := MkMeasurement ex_digest 3 100.
Definition ex_attestation : ImagePreparationAttestation :=
  MkAttestation IMAGE_ATTESTATION_VERSION (exact_reference ex_image) (image_id ex_image) (image_platform ex_image) (image_descriptors ex_image)
    ex_digest 3 100 "strict-v1" ex_digest ex_digest ex_digest "release-v1" ex_digest 1000.

Definition pad_to (n : nat) (l : list ascii) : list ascii := take n (l ++ replicate n zero).
Lemma pad_to_length n l : length (pad_to n l) = n.
Proof. unfold pad_to. rewrite length_take, length_app, length_replicate. lia. Qed.
#[local] Instance ex_attesting : Attesting := {
  attestation_json := λ a, if decide (a = ex_attestation) then Ok (bytes "{attestation}") else Err "unknown"%string;
  no_pad_encode := of_bytes;
  no_pad_decode := λ s, Some (bytes s);
  public_of := pad_to 32;
  sign_bytes := λ key message, pad_to 64 (pad_to 32 key ++ message);
  verifying_key := λ _, true;
  verify_strict := λ public message s, bool_decide (s = pad_to 64 (public ++ message))
}.
#[local] Instance ex_attesting_laws : AttestingLaws.
Proof.
  split; simpl.
  - intros a a' l. by do 2 (case_decide; [subst|done]).
  - intros l. by rewrite of_bytes_round.
  - intros key. apply pad_to_length.
  - done.
  - intros key message. apply pad_to_length.
  - intros key message. by apply bool_decide_eq_true_2.
Qed.

Definition ex_key : list ascii := replicate 32 "k"%char.
Definition ex_policy : AttestationTrustPolicy :=
  MkTrustPolicy {[ "preparer"%string := no_pad_encode (public_of ex_key) ]} {[ "strict-v1"%string ]} {[ ex_digest ]} {[ "release-v1"%string ]} ∅ ∅ 60000.
Definition ex_topology : TopologyLock :=
  MkLock LOCK_SCHEMA_VERSION ex_digest "app" {[ "app"%string := MkService ex_image [] [] ∅ ∅ None [] "/" ReadOnly [] ]} ∅ ∅ ["app"%string]
    (default_policy (GuestProfile.GuestProfile.MkProfileId "strict" 1) Network.Network.default_network).
Definition ex_signed : SignedImageAttestation :=
  match sign_image_attestation "preparer" ex_key ex_attestation with Ok s => s | Err _ => MkSigned EmptyString ex_attestation EmptyString end.
Definition ex_fixed : FixedRootfsConfig := MkFixed (Ok ex_topology) (Some ex_measurement).

Lemma ex_attestable : attestable ex_image.
Proof.
  assert (described ex_locked = true) as Hd by (vm_compute; reflexivity). split; [exact Hd|exact Hd|exact Hd|by repeat constructor|simpl; lia].
Qed.
Lemma ex_only : only_image ex_topology ex_image.
Proof. apply only_image_values. exists []. split; [vm_compute; reflexivity|constructor]. Qed.
Lemma ex_verified :
  verify_configured (Some (Ok ex_signed)) (Some (Ok ex_policy)) (Some ex_digest) (Some ex_fixed) (Ok 2000) = Ok tt.
Proof. vm_compute. reflexivity. Qed.

Lemma admitted_image_is_attested_witness :
  verify_configured (Some (Ok ex_signed)) (Some (Ok ex_policy)) (Some ex_digest) (Some ex_fixed) (Ok 2000) = Ok tt ∧
  ∃ s p t m n i, Ok ex_signed = Ok (E := SandboxError) s ∧ Ok ex_policy = Ok (E := SandboxError) p ∧ topology_lock ex_fixed = Ok t ∧
    measurement ex_fixed = Some m ∧ Ok 2000 = Ok (E := SandboxError) n ∧ only_image t i ∧ attests p s n ∧ bound (attestation s) i m ex_digest.
Proof. split; [exact ex_verified|]. exact (admitted_image_is_attested _ _ _ _ _ ex_verified). Defined.

Lemma prepared_image_is_admitted_witness :
  attestable ex_image ∧ ∃ s, sign_image_attestation "preparer" ex_key ex_attestation = Ok s ∧
    verify_configured (Some (Ok s)) (Some (Ok ex_policy)) (Some ex_digest) (Some ex_fixed) (Ok 2000) = Ok tt.
Proof.
  split; [exact ex_attestable|].
  refine (prepared_image_is_admitted ex_image ex_measurement ex_digest ex_attestation ex_policy "preparer" ex_key ex_topology 2000
    (bytes "{attestation}") ex_attestable _ _ _ _ _ _ ex_only).
  - by split.
  - vm_compute. reflexivity.
  - vm_compute. reflexivity.
  - vm_compute. reflexivity.
  - vm_compute. reflexivity.
  - vm_compute. reflexivity.
Defined.

Definition ex_root : PreparedRootArtifact := MkRootArtifact ex_digest ex_digest.
Definition ex_cohort : PreparedRootCohort := MkCohort "rootset-1" [ex_root].
Definition ex_catalog : PreparedRootCatalog := MkCatalog PREPARED_ROOT_CATALOG_VERSION [ex_cohort].
Lemma catalog_lookup_exact_witness : validate_catalog ex_catalog = Ok tt ∧ artifact ex_catalog ex_digest = Some (ex_cohort, ex_root).
Proof.
  assert (validate_catalog ex_catalog = Ok tt) as Hv by (vm_compute; reflexivity). split; [exact Hv|].
  apply (proj1 (catalog_lookup_exact ex_catalog Hv)). split_and!; [by apply elem_of_cons; left|by apply elem_of_cons; left|reflexivity].
Defined.
