(* ===== verification/VolumeArchive.v ===== *)
(** * Archives of volumes

    Models the archive half of [crates/sandbox-volume/src/directory.rs] with the
    types of [model.rs] and [error.rs]: the walk over a volume's data, its export
    to a tar archive, and the checks an archive passes before it is unpacked.
    SHA-256 and what [tar] writes and reads are parameters; the time that has
    passed at each entry is an argument. *)
From S2P Require Import Prelude Identity Volume.
Import Volume.Volume.

Module VolumeArchive.

Definition SNAPSHOT_FORMAT : string := "application/vnd.runtrue.volume.directory.tar.v1".
Definition MAXIMUM_ENTRIES : Z := 100000.
Definition MAXIMUM_PATH_BYTES : Z := 4096.
Definition MAXIMUM_PATH_DEPTH : Z := 64.

Inductive VolumeError : Type :=
| Invalid (message : string)
| AccessDenied (message : string)
| AlreadyExists (message : string)
| NotFound (message : string)
| Unsupported (message : string)
| Integrity (message : string)
| Timeout (message : string)
| Io (path source : string)
| Mount (message : string).

(** ** The data of a volume *)

(** A file of the volume as [symlink_metadata], [xattr::list] and [read_dir] show it. *)
#[warnings="-register-all"]
Inductive Item : Type :=
| RegularFile (xattrs : bool) (contents : list ascii) (links blocks : Z)
| Folder (xattrs : bool) (entries : list (string * Item))
| SymbolicLink (xattrs : bool) (target : string)
| SpecialFile (xattrs : bool).

Definition has_xattrs (item : Item) : bool :=
  match item with RegularFile x _ _ _ | Folder x _ | SymbolicLink x _ | SpecialFile x => x end.

Abbreviation Path := (list string).
Definition path_string (path : Path) : string := join_byte "/" path.

Fixpoint child_of (name : string) (entries : list (string * Item)) : option Item :=
  match entries with
  | [] => None
  | (n, item) :: rest => if bool_decide (n = name) then Some item else child_of name rest
  end.

Fixpoint item_at (item : Item) (path : Path) : option Item :=
  match path with
  | [] => Some item
  | name :: rest => match item with Folder _ entries => child_of name entries ≫= λ child, item_at child rest | _ => None end
  end.

(** ** Export *)

Definition by_name {A} (l : list (string * A)) : list (string * A) := merge_sort (λ p q, Is_true (string_leb p.1 q.1)) l.

(** The test of one path and its push. *)
Definition collect_path (path : Path) (paths : list Path) : result VolumeError (list Path) :=
  reject_if ((MAXIMUM_PATH_BYTES <? len (path_string path)) || (MAXIMUM_PATH_DEPTH <? length_z (path_components (path_string path))))
    (Invalid "volume snapshot path exceeds its length or depth limit");;
  reject_if (MAXIMUM_ENTRIES <? length_z (paths ++ [path])) (Invalid "volume snapshot has too many entries");;
  mret (paths ++ [path]).

Fixpoint visit_all (visits : list (string * (list Path → result VolumeError (list Path)))) (paths : list Path) : result VolumeError (list Path) :=
  match visits with
  | [] => mret paths
  | (_, visit) :: rest => paths' ← visit paths; visit_all rest paths'
  end.

Fixpoint collect_paths (prefix : Path) (item : Item) (paths : list Path) {struct item} : result VolumeError (list Path) :=
  match item with
  | Folder _ entries =>
      visit_all (by_name (map (λ '(name, child),
        (name, λ paths, paths' ← collect_path (prefix ++ [name]) paths; collect_paths (prefix ++ [name]) child paths')) entries)) paths
  | _ => mret paths
  end.

(** What a path is in an archive. *)
Inductive EntryType : Type := Regular | Directory | Symlink | OtherEntry.
Record TarEntry : Type := MkEntry {
  entry_path : result VolumeError string;
  entry_type : EntryType;
  pax_extensions : result VolumeError (list (result VolumeError (option string)));
  link_name : result VolumeError (option string);
  header_size : result VolumeError Z
}.

(** [tar] and SHA-256: the archive after an entry is appended and at the end, the entries that are read from an archive,
    and what unpacking an archive leaves in an empty directory. *)
Class ArchiveCodec : Type := {
  tar_append : list ascii → string → Item → list ascii;
  tar_finish : list ascii → list ascii;
  archive_entries : list ascii → list (result VolumeError TarEntry);
  unpack : list ascii → Item * result VolumeError ();
  hash_hex : list ascii → string
}.

Definition u64_saturating_mul (a b : Z) : Z := Z.min u64_max (a * b).

Section archive.
Context `{ArchiveCodec}.

(** [BoundedWriter::write]. *)
Definition bounded_append (maximum : Z) (archive : list ascii) (path : string) (item : Item) : result VolumeError (list ascii) :=
  reject_if (maximum <? length_z (tar_append archive path item)) (Io path "directory snapshot exceeds its archive limit");;
  mret (tar_append archive path item).

(** The entry of one path: [logical] bytes of files so far. *)
Definition checked_size (quota : Z) (item : Item) (logical : Z) : result VolumeError Z :=
  match item with
  | RegularFile _ contents links blocks =>
      reject_if (negb (links =? 1)) (Unsupported "directory snapshot does not support hard links");;
      reject_if ((0 <? length_z contents) && (u64_saturating_mul blocks 512 <? length_z contents))
        (Unsupported "directory snapshot does not support sparse files");;
      total ← ok_or (Invalid "volume size overflow") (u64_checked_add logical (length_z contents));
      reject_if (quota <? total) (Invalid "directory content exceeds its declared quota");;
      mret total
  | Folder _ _ | SymbolicLink _ _ => mret logical
  | SpecialFile _ => Err (Unsupported "directory snapshot contains a special file")
  end.

Fixpoint export_paths (root : Item) (quota timeout : Z) (elapsed : nat → Z) (paths : list Path) (logical : Z) (archive : list ascii) :
    result VolumeError (list ascii) :=
  match paths with
  | [] => mret archive
  | path :: rest =>
      reject_if (timeout <? elapsed (length rest)) (Timeout "directory volume snapshot timed out");;
      item ← ok_or (Io (path_string path) "No such file or directory") (item_at root path);
      reject_if (has_xattrs item) (Unsupported "directory snapshot does not support extended attributes");;
      logical' ← checked_size quota item logical;
      archive' ← bounded_append (u64_saturating_mul quota 2) archive (path_string path) item;
      export_paths root quota timeout elapsed rest logical' archive'
  end.

Definition sort_paths (paths : list Path) : list Path := merge_sort (λ p q, Is_true (lex_leb p q)) paths.

(** The archive that is left at the destination, which is removed when the export fails. *)
Definition export_directory (root : Item) (destination_exists : bool) (destination : string) (quota timeout : Z) (elapsed : nat → Z) :
    result VolumeError (list ascii) :=
  reject_if destination_exists (AlreadyExists destination);;
  paths ← collect_paths [] root [];
  archive ← export_paths root quota timeout elapsed (sort_paths paths) 0 [];
  reject_if (u64_saturating_mul quota 2 <? length_z (tar_finish archive)) (Io destination "directory snapshot exceeds its archive limit");;
  mret (tar_finish archive).

Definition digest_file (file : result VolumeError (list ascii)) : result VolumeError (string * Z) :=
  l ← file; mret ("sha256:" +:+ hash_hex l, length_z l).

(** ** Validation *)

Definition is_normal (c : Component) : bool := match c with Normal _ => true | _ => false end.
Definition unsafe_path (path : string) : bool :=
  (MAXIMUM_PATH_BYTES <? len path) || (MAXIMUM_PATH_DEPTH <? length_z (path_components path))
  || existsb (λ c, negb (is_normal c)) (path_components path).

(** [path.ancestors().skip(1)] of a path of normal components. *)
Fixpoint proper_prefixes {A} (l : list A) : list (list A) :=
  match l with [] => [] | x :: l' => [] :: (cons x <$> proper_prefixes l') end.

Record Scan : Type := MkScan { seen : list (list Component); symlinks : list (list Component); logical_bytes : Z }.

Definition validate_extension (extension : result VolumeError (option string)) : result VolumeError () :=
  key ← extension;
  name ← ok_or (Integrity "directory snapshot extended metadata is not UTF-8") key;
  reject_if (negb (bool_decide (name = "path"%string) || bool_decide (name = "linkpath"%string)))
    (Unsupported "directory snapshot contains unsupported extended metadata").

Definition validate_link (entry : TarEntry) : result VolumeError () :=
  link ← link_name entry;
  target ← ok_or (Integrity "directory snapshot symlink has no target") link;
  reject_if (unsafe_path target) (Integrity "directory snapshot symlink target is unsafe").

Definition is_symlink (entry : TarEntry) : bool := match entry_type entry with Symlink => true | _ => false end.

(** The body of the loop. *)
Definition validate_entry (quota : Z) (read : result VolumeError TarEntry) (s : Scan) : result VolumeError Scan :=
  entry ← read;
  reject_if (MAXIMUM_ENTRIES <=? length_z (seen s)) (Invalid "directory snapshot has too many entries");;
  path ← entry_path entry;
  let components := path_components path in
  reject_if (unsafe_path path || existsb (λ ancestor, bool_decide (ancestor ∈ symlinks s)) (proper_prefixes components)
             || bool_decide (components ∈ seen s))
    (Integrity "directory snapshot path is unsafe or duplicated");;
  reject_if (match entry_type entry with OtherEntry => true | _ => false end)
    (Unsupported "directory snapshot contains an unsupported entry");;
  extensions ← pax_extensions entry;
  for_each validate_extension extensions;;
  (if is_symlink entry then validate_link entry else mret tt);;
  size ← header_size entry;
  total ← ok_or (Invalid "volume size overflow") (u64_checked_add (logical_bytes s) size);
  reject_if (quota <? total) (Invalid "directory snapshot content exceeds its quota");;
  mret (MkScan (components :: seen s) (if is_symlink entry then components :: symlinks s else symlinks s) total).

Fixpoint validate_entries (quota timeout : Z) (elapsed : nat → Z) (entries : list (result VolumeError TarEntry)) (s : Scan) :
    result VolumeError () :=
  match entries with
  | [] => mret tt
  | entry :: rest =>
      reject_if (timeout <? elapsed (length rest)) (Timeout "directory snapshot validation timed out");;
      s' ← validate_entry quota entry s;
      validate_entries quota timeout elapsed rest s'
  end.

Definition validate_archive (source : result VolumeError (list ascii)) (quota timeout : Z) (elapsed : nat → Z) : result VolumeError () :=
  l ← source;
  reject_if ((length_z l =? 0) || (u64_saturating_mul quota 2 <? length_z l))
    (Integrity "directory snapshot is not a bounded regular file");;
  validate_entries quota timeout elapsed (archive_entries l) (MkScan [] [] 0).

End archive.

(** ** Accepted archives *)

Definition entry_components (entry : TarEntry) : list Component :=
  match entry_path entry with Ok path => path_components path | Err _ => [] end.
Definition entry_size (entry : TarEntry) : Z := match header_size entry with Ok size => size | Err _ => 0 end.
Definition strictly_under (ancestor path : list Component) : Prop := ∃ c rest, path = ancestor ++ c :: rest.

(** A path below the directory in which it is read. *)
Definition confined_path (path : string) : Prop :=
  len path ≤ MAXIMUM_PATH_BYTES ∧ ∃ names, path_components path = Normal <$> names ∧ length_z names ≤ MAXIMUM_PATH_DEPTH.
Definition confined_entry (entry : TarEntry) : Prop :=
  (∃ path, entry_path entry = Ok path ∧ confined_path path) ∧ entry_type entry ≠ OtherEntry ∧
  (is_symlink entry = true → ∃ target, link_name entry = Ok (Some target) ∧ confined_path target).

Lemma all_normal l : existsb (λ c, negb (is_normal c)) l = false → ∃ names, l = Normal <$> names.
Proof.
  induction l as [|c l IH]; simpl; [by exists []|]. intros [Hc Hl]%orb_false_iff. destruct (IH Hl) as [names ->].
  destruct c; try done. by exists (part :: names).
Qed.

Lemma safe_path path : unsafe_path path = false → confined_path path.
Proof.
  unfold unsafe_path, confined_path. intros [[Hb Hd]%orb_false_iff Hn]%orb_false_iff. apply Z.ltb_ge in Hb, Hd. split; [done|].
  destruct (all_normal _ Hn) as [names Heq]. exists names. rewrite Heq, length_fmap in Hd. by split.
Qed.

Lemma proper_prefixes_complete {A} (l : list A) a c rest : l = a ++ c :: rest → a ∈ proper_prefixes l.
Proof.
  revert l. induction a as [|x a IH]; intros l ->; simpl; [apply list_elem_of_here|].
  apply list_elem_of_further, list_elem_of_fmap. eauto.
Qed.

Lemma proper_prefixes_sound {A} (l : list A) a : a ∈ proper_prefixes l → ∃ c rest, l = a ++ c :: rest.
Proof.
  revert a. induction l as [|x l IH]; simpl; intros a Ha; [by apply not_elem_of_nil in Ha|].
  apply elem_of_cons in Ha as [->|(b & -> & Hb)%list_elem_of_fmap]; [by exists x, l|].
  destruct (IH _ Hb) as (c & rest & ->). by exists c, rest.
Qed.

Lemma no_link_above (l : list Component) (links : list (list Component)) :
  existsb (λ ancestor, bool_decide (ancestor ∈ links)) (proper_prefixes l) = false ↔
  ∀ ancestor, ancestor ∈ links → ¬ strictly_under ancestor l.
Proof.
  split.
  - intros Hf a Ha (c & rest & Hl). apply not_true_iff_false in Hf. apply Hf, existsb_exists. exists a.
    split; [by eapply list_elem_of_In, proper_prefixes_complete|by apply bool_decide_eq_true].
  - intros Hn. apply not_true_iff_false. intros (a & Ha & Hin)%existsb_exists. apply bool_decide_eq_true in Hin.
    apply list_elem_of_In, proper_prefixes_sound in Ha as (c & rest & Heq). apply (Hn a Hin). by exists c, rest.
Qed.

Definition scanned (entry : TarEntry) (s : Scan) : Scan :=
  MkScan (entry_components entry :: seen s) (if is_symlink entry then entry_components entry :: symlinks s else symlinks s)
    (logical_bytes s + entry_size entry).

Lemma validate_entry_Ok quota read s s' :
  validate_entry quota read s = Ok s' →
  ∃ entry, read = Ok entry ∧ confined_entry entry ∧ length_z (seen s) < MAXIMUM_ENTRIES ∧
    (∀ ancestor, ancestor ∈ symlinks s → ¬ strictly_under ancestor (entry_components entry)) ∧
    (entry_components entry ∉ seen s) ∧ s' = scanned entry s ∧ logical_bytes s' ≤ quota.
Proof.
  unfold validate_entry. intros Hv. apply bind_Ok_inv in Hv as (entry & -> & Hv). inv_ok Hv. cbn zeta in Hv. inv_ok Hv.
  apply Ok_inj in Hv as <-. rewrite !reject_if_Ok in *. apply ok_or_Ok in Hstep7. apply checked_add_Some in Hstep7 as [-> _].
  apply orb_false_iff in Hstep1 as [[Hsafe Hlinks]%orb_false_iff Hnew]. apply bool_decide_eq_false in Hnew.
  assert (entry_components entry = path_components a0) as Hc by (unfold entry_components; by rewrite Hstep0).
  assert (entry_size entry = a6) as Hsize by (unfold entry_size; by rewrite Hstep6).
  exists entry. split; [done|]. split.
  { split; [exists a0; split; [done|by apply safe_path]|]. split; [by intros Ht; rewrite Ht in Hstep2|].
    intros Hl. rewrite Hl in Hstep5. apply bind_Ok_inv in Hstep5 as (link & Hlink & Htarget).
    apply bind_Ok_inv in Htarget as (target & ->%ok_or_Ok & Htarget).
    rewrite reject_if_Ok in Htarget. eexists. split; [done|by apply safe_path]. }
  rewrite Hc. split; [by apply Z.leb_gt|]. split; [by apply no_link_above|]. split; [done|].
  unfold scanned. rewrite Hc, Hsize. split; [done|]. simpl. by apply Z.ltb_ge.
Qed.

(** What the entries of an accepted archive are, when some were [seen] before. *)
Record accepted (quota : Z) (s : Scan) (entries : list TarEntry) : Prop := {
  accepted_count : length_z (seen s) + length_z entries ≤ MAXIMUM_ENTRIES;
  accepted_bytes : logical_bytes s + sum_Z (entry_size <$> entries) ≤ quota;
  accepted_confined : Forall confined_entry entries;
  accepted_distinct : NoDup (entry_components <$> entries) ∧ ∀ entry, entry ∈ entries → entry_components entry ∉ seen s;
  accepted_links : ∀ i entry, entries !! i = Some entry →
    (∀ ancestor, ancestor ∈ symlinks s → ¬ strictly_under ancestor (entry_components entry)) ∧
    ∀ j link, (j < i)%nat → entries !! j = Some link → is_symlink link = true →
      ¬ strictly_under (entry_components link) (entry_components entry)
}.

Lemma accepted_cons quota s entry entries :
  confined_entry entry →
  (∀ ancestor, ancestor ∈ symlinks s → ¬ strictly_under ancestor (entry_components entry)) →
  (entry_components entry ∉ seen s) →
  accepted quota (scanned entry s) entries → accepted quota s (entry :: entries).
Proof.
  intros Hc Hlinks Hnew [Hcount Hbytes Hall [Hnd Hseen] Hl]. cbn [scanned seen symlinks logical_bytes] in *.
  rewrite length_cons in Hcount. split.
  - rewrite length_cons. lia.
  - rewrite fmap_cons. cbn [sum_Z foldr] in *. fold (sum_Z (entry_size <$> entries)) in *. lia.
  - by constructor.
  - rewrite fmap_cons. split.
    + constructor; [|done]. intros (e & Heq & He)%list_elem_of_fmap. apply (Hseen e He). rewrite Heq. apply list_elem_of_here.
    + intros e [->|He]%elem_of_cons; [done|]. intros Hin. apply (Hseen e He). by apply list_elem_of_further.
  - intros [|i] e He; cbn in He.
    + injection He as <-. split; [done|]. intros j link Hj. lia.
    + destruct (Hl i e He) as [Ha Hj]. split.
      * intros a Hin. apply Ha. destruct (is_symlink entry); [by apply list_elem_of_further|done].
      * intros [|j] link Hlt Hlink Hs; cbn in Hlink; [|apply (Hj j link); [lia|done|done]].
        injection Hlink as <-. apply Ha. rewrite Hs. apply list_elem_of_here.
Qed.

Lemma validate_entries_Ok quota timeout elapsed reads s :
  length_z (seen s) ≤ MAXIMUM_ENTRIES → logical_bytes s ≤ quota →
  validate_entries quota timeout elapsed reads s = Ok tt → ∃ entries, reads = Ok <$> entries ∧ accepted quota s entries.
Proof.
  revert s. induction reads as [|read reads IH]; intros s Hcount Hbytes Hv.
  - exists []. split; [done|]. split; cbn; [lia|lia|by constructor|split; [constructor|set_solver]|done].
  - cbn [validate_entries] in Hv. inv_ok Hv. apply validate_entry_Ok in Hstep0 as (e & -> & Hc & Hlt & Hl & Hn & -> & Hq).
    destruct (IH (scanned e s)) as (entries & -> & Ha); [cbn [scanned seen length]; lia|done|done|].
    exists (e :: entries). split; [done|]. by apply accepted_cons.
Qed.

(** C21: an archive that is accepted for a restore unpacks below the directory into which it is unpacked: each of its
    entries is a regular file, a directory or a symbolic link with a bounded relative path without [..], no two have the same
    path, none is below a link that an earlier entry made, each link has such a path as its target, and their number and
    sizes are within the limits. *)
Theorem accepted_archive_is_confined `{ArchiveCodec} source quota timeout elapsed :
  0 ≤ quota → validate_archive source quota timeout elapsed = Ok tt →
  ∃ l entries, source = Ok l ∧ archive_entries l = Ok <$> entries ∧ length_z entries ≤ MAXIMUM_ENTRIES ∧
    sum_Z (entry_size <$> entries) ≤ quota ∧ Forall confined_entry entries ∧ NoDup (entry_components <$> entries) ∧
    ∀ i j entry link, entries !! i = Some entry → entries !! j = Some link → (j < i)%nat → is_symlink link = true →
      ¬ strictly_under (entry_components link) (entry_components entry).
Proof.
  unfold validate_archive. intros Hq Hv. inv_ok Hv.
  apply validate_entries_Ok in Hv as (entries & Heq & [Hcount Hbytes Hall [Hnd _] Hl]); [|done|done].
  exists a, entries. cbn [seen logical_bytes length] in *. split_and!; try done.
  intros i j entry link Hi Hj Hlt Hs. by apply (proj2 (Hl i entry Hi) j link).
Qed.

(** ** Exported archives *)

Definition name_ok (name : string) : bool :=
  negb (bool_decide (name = EmptyString) || bool_decide (name = "."%string) || bool_decide (name = ".."%string)
        || bool_decide ("/"%char ∈ bytes name)).

(** What the kernel guarantees of a directory tree. *)
Fixpoint well_formed (item : Item) : bool :=
  match item with
  | Folder _ entries => forallb name_ok entries.*1 && bool_decide (NoDup entries.*1) && forallb (λ '(_, child), well_formed child) entries
  | _ => true
  end.

(** Each link of the tree has a short target of plain names. *)
Definition target_ok (target : string) : bool := forallb name_ok (split_byte "/" target) && negb (unsafe_path target).
Fixpoint links_ok (item : Item) : bool :=
  match item with
  | Folder _ entries => forallb (λ '(_, child), links_ok child) entries
  | SymbolicLink _ target => target_ok target
  | _ => true
  end.

Lemma Item_induction (P : Item → Prop) :
  (∀ x contents links blocks, P (RegularFile x contents links blocks)) →
  (∀ x entries, Forall (λ e, P e.2) entries → P (Folder x entries)) →
  (∀ x target, P (SymbolicLink x target)) → (∀ x, P (SpecialFile x)) → ∀ item, P item.
Proof.
  intros Hr Hf Hl Hs. fix IH 1. intros [x c n b|x entries|x t|x]; [apply Hr| |apply Hl|apply Hs].
  apply Hf. induction entries as [|[name child] entries IHe]; constructor; [apply IH|apply IHe].
Qed.

Lemma child_of_elem name entries child : child_of name entries = Some child → (name, child) ∈ entries.
Proof.
  induction entries as [|[n item] entries IH]; cbn [child_of]; [done|]. case_bool_decide as Hn; intros Hc.
  - injection Hc as ->. subst. apply list_elem_of_here.
  - by apply list_elem_of_further, IH.
Qed.

Lemma elem_child_of name entries child : NoDup entries.*1 → (name, child) ∈ entries → child_of name entries = Some child.
Proof.
  induction entries as [|[n item] entries IH]; [by intros _ ?%not_elem_of_nil|]. rewrite fmap_cons. intros [Hn Hnd]%NoDup_cons.
  cbn [child_of]. intros [Heq|Hin]%elem_of_cons; [injection Heq as -> ->; by rewrite bool_decide_true|].
  case_bool_decide as Hc; [|by apply IH]. subst. destruct Hn. apply list_elem_of_fmap. by exists (name, child).
Qed.

(** A property of a tree that its folders' children share. *)
Lemma item_at_inherits (p : Item → bool) item path found :
  (∀ x entries, p (Folder x entries) = true → forallb (λ e, p e.2) entries = true) →
  p item = true → item_at item path = Some found → p found = true.
Proof.
  intros Hp. revert item. induction path as [|name path IH]; intros item Hi Ha; cbn [item_at] in Ha; [congruence|].
  destruct item as [|x entries| |]; try done. apply bind_Some in Ha as (child & Hc & Ha). apply (IH child); [|done].
  apply Hp in Hi. rewrite forallb_forall in Hi. apply child_of_elem, list_elem_of_In in Hc. by apply (Hi _ Hc).
Qed.

Lemma forallb_pair {A B} (p : B → bool) (l : list (A * B)) : forallb (λ '(_, b), p b) l = forallb (λ e, p e.2) l.
Proof. induction l as [|[a b] l IH]; cbn; [done|by rewrite IH]. Qed.

Lemma well_formed_child x entries : well_formed (Folder x entries) = true → forallb (λ e, well_formed e.2) entries = true.
Proof. cbn [well_formed]. rewrite forallb_pair. by intros [_ Hw]%andb_true_iff. Qed.
Lemma links_ok_child x entries : links_ok (Folder x entries) = true → forallb (λ e, links_ok e.2) entries = true.
Proof. cbn [links_ok]. by rewrite forallb_pair. Qed.

Lemma item_at_app item path rest : item_at item (path ++ rest) = item_at item path ≫= λ found, item_at found rest.
Proof.
  revert item. induction path as [|name path IH]; intros item; [done|]. cbn [item_at app].
  destruct item as [|x entries| |]; try done. destruct (child_of name entries); [apply IH|done].
Qed.

(** The names on the way to a file of the tree. *)
Lemma item_at_names item path found :
  well_formed item = true → item_at item path = Some found → Forall (λ name, name_ok name = true) path.
Proof.
  revert item. induction path as [|name path IH]; intros item Hw Ha; [constructor|]. cbn [item_at] in Ha.
  destruct item as [|x entries| |]; try done. apply bind_Some in Ha as (child & Hc & Ha). constructor.
  - cbn [well_formed] in Hw. apply andb_true_iff in Hw as [[Hn _]%andb_true_iff _]. rewrite forallb_forall in Hn.
    apply Hn, list_elem_of_In, list_elem_of_fmap. exists (name, child). split; [done|by apply child_of_elem].
  - apply (IH child); [|done]. apply well_formed_child in Hw. rewrite forallb_forall in Hw.
    apply child_of_elem, list_elem_of_In in Hc. by apply (Hw _ Hc).
Qed.

Lemma split_path path : Forall (λ name, name_ok name = true) path → path ≠ [] → split_byte "/" (path_string path) = path.
Proof.
  intros Hall Hne. induction Hall as [|name path Hn Hall IH]; [done|].
  assert ("/"%char ∉ bytes name) as Hslash.
  { intros Hin. unfold name_ok in Hn. rewrite (bool_decide_true _ Hin), orb_true_r in Hn. done. }
  unfold path_string in *. destruct path as [|next path]; [by apply split_byte_plain|].
  change (join_byte "/" (name :: next :: path)) with (name +:+ String "/" (join_byte "/" (next :: path))).
  rewrite split_byte_app by done. by rewrite IH.
Qed.

Lemma name_ok_component name : name_ok name = true → component name = Some (Normal name) ∧ name ≠ EmptyString ∧ name ≠ "."%string.
Proof.
  unfold name_ok, component. rewrite negb_true_iff, !orb_false_iff. intros [[[He Hd] Hdd] _]. rewrite He, Hd, Hdd.
  apply bool_decide_eq_false in He, Hd. by split.
Qed.

Lemma path_string_components path :
  Forall (λ name, name_ok name = true) path → path ≠ [] → path_components (path_string path) = Normal <$> path.
Proof.
  intros Hall Hne. unfold path_components. rewrite split_path by done.
  assert (omap component path = Normal <$> path) as ->.
  { clear Hne. induction Hall as [|name path Hn _ IH]; [done|]. cbn. destruct (name_ok_component name Hn) as [-> _].
    cbn in IH. by rewrite IH. }
  destruct path as [|name path]; [done|]. apply Forall_cons in Hall as [Hn Hall]. destruct (name_ok_component name Hn) as (_ & He & Hd).
  rewrite (bool_decide_false (head (name :: path) = Some "."%string)) by (cbn; congruence).
  destruct (starts_with "/" _) eqn:Hs; [|done]. apply starts_with_slash in Hs as (t & _ & Ht).
  rewrite split_path in Ht by (done || by constructor). congruence.
Qed.

Definition path_fits (path : Path) : Prop :=
  len (path_string path) ≤ MAXIMUM_PATH_BYTES ∧ length_z (path_components (path_string path)) ≤ MAXIMUM_PATH_DEPTH.

(** A visit adds distinct paths, each of which satisfies [Q], within the limit. *)
Definition adds (Q : Path → Prop) (visit : list Path → result VolumeError (list Path)) : Prop :=
  ∀ paths paths', length_z paths ≤ MAXIMUM_ENTRIES → visit paths = Ok paths' →
    ∃ l, paths' = paths ++ l ∧ NoDup l ∧ length_z paths' ≤ MAXIMUM_ENTRIES ∧ ∀ path, path ∈ l → Q path.

Lemma visit_all_adds (Q : string → Path → Prop) visits :
  NoDup visits.*1 → (∀ a b path, Q a path → Q b path → a = b) → (∀ name visit, (name, visit) ∈ visits → adds (Q name) visit) →
  adds (λ path, ∃ name, name ∈ visits.*1 ∧ Q name path) (visit_all visits).
Proof.
  intros Hnd HQ. induction visits as [|[name visit] visits IH]; intros Hall paths paths' Hlen Hv.
  - exists []. cbn in Hv. injection Hv as <-. rewrite app_nil_r. split_and!; [done|constructor|done|set_solver].
  - cbn [visit_all] in Hv. apply bind_Ok_inv in Hv as (mid & Hmid & Hv). rewrite fmap_cons in Hnd. apply NoDup_cons in Hnd as [Hnew Hnd].
    destruct (Hall name visit (list_elem_of_here _ _) paths mid Hlen Hmid) as (l1 & -> & Hnd1 & Hlen1 & Hq1).
    destruct (IH Hnd (λ n v Hin, Hall n v (list_elem_of_further _ _ _ Hin)) _ _ Hlen1 Hv) as (l2 & -> & Hnd2 & Hlen2 & Hq2).
    exists (l1 ++ l2). rewrite app_assoc. split_and!; [done| |done|].
    + apply NoDup_app. split_and!; [done| |done]. intros path H1 (n & Hn & H2)%Hq2. apply Hq1 in H1.
      rewrite (HQ _ _ _ H1 H2) in Hnew. done.
    + rewrite fmap_cons. intros path [H1|(n & Hn & H2)%Hq2]%elem_of_app.
      * exists name. split; [apply list_elem_of_here|by apply Hq1].
      * exists n. split; [by apply list_elem_of_further|done].
Qed.

Definition listed (prefix : Path) (item : Item) (path : Path) : Prop :=
  ∃ rest, rest ≠ [] ∧ path = prefix ++ rest ∧ is_Some (item_at item rest) ∧ path_fits path.

Lemma collect_path_Ok path paths paths' :
  collect_path path paths = Ok paths' → paths' = paths ++ [path] ∧ length_z paths' ≤ MAXIMUM_ENTRIES ∧ path_fits path.
Proof.
  unfold collect_path. intros Hv. inv_ok Hv. apply Ok_inj in Hv as <-. rewrite !reject_if_Ok in *.
  apply orb_false_iff in Hstep as [?%Z.ltb_ge ?%Z.ltb_ge]. apply Z.ltb_ge in Hstep0. by split_and!.
Qed.

(** A visit of a child. *)
Lemma visit_child prefix name child paths mid paths' :
  adds (listed (prefix ++ [name]) child) (collect_paths (prefix ++ [name]) child) →
  collect_path (prefix ++ [name]) paths = Ok mid → collect_paths (prefix ++ [name]) child mid = Ok paths' →
  ∃ l, paths' = paths ++ l ∧ NoDup l ∧ length_z paths' ≤ MAXIMUM_ENTRIES ∧
    ∀ path, path ∈ l → ∃ rest, path = prefix ++ name :: rest ∧ is_Some (item_at child rest) ∧ path_fits path.
Proof.
  intros Hadd (-> & Hlen & Hfits)%collect_path_Ok Hv. destruct (Hadd _ _ Hlen Hv) as (l & -> & Hnd & Hlen' & Hq).
  exists ((prefix ++ [name]) :: l). rewrite <- app_assoc. split_and!; [done| |by rewrite <- app_assoc in Hlen'|].
  - constructor; [|done]. intros (rest & Hne & Heq & _)%Hq. apply (f_equal length) in Heq. rewrite !length_app in Heq.
    destruct rest; [done|]. cbn in Heq. lia.
  - intros path [->|(rest & _ & -> & Hi & Hf)%Hq]%elem_of_cons.
    + exists []. by split_and!; [| |].
    + exists rest. rewrite <- app_assoc in *. by split_and!.
Qed.

Lemma collect_paths_adds item prefix : well_formed item = true → adds (listed prefix item) (collect_paths prefix item).
Proof.
  revert prefix. induction item as [x c n b|x entries IH|x t|x] using Item_induction; intros prefix Hw paths paths' Hlen Hv;
    try by (exists []; cbn in Hv; injection Hv as <-; rewrite app_nil_r; split_and!; [done|constructor|done|set_solver]).
  cbn [collect_paths] in Hv. match type of Hv with visit_all (by_name ?v) _ = _ => set (visits := v) in * end.
  pose proof (merge_sort_Permutation (λ p q : string * _, Is_true (string_leb p.1 q.1)) visits) as Hp.
  assert (visits.*1 = entries.*1) as Hnames by (unfold visits; clear; induction entries as [|[? ?] ? IHe]; cbn; [done|by f_equal]).
  cbn [well_formed] in Hw. apply andb_true_iff in Hw as [[_ Hnd%bool_decide_eq_true]%andb_true_iff Hw].
  rewrite forallb_pair, forallb_forall in Hw. rewrite Forall_forall in IH.
  destruct (visit_all_adds (λ name path, ∃ child rest, (name, child) ∈ entries ∧ path = prefix ++ name :: rest ∧
      is_Some (item_at child rest) ∧ path_fits path) (by_name visits)) with paths paths' as (l & -> & Hndl & Hlen' & Hq); [| | |done|done|].
  - unfold by_name. rewrite Hp. by rewrite Hnames.
  - intros a b' path (? & ? & _ & -> & _) (? & ? & _ & Heq & _). apply app_inv_head in Heq. congruence.
  - intros name visit Hin ps ps' Hl Hvis. unfold by_name in Hin. rewrite Hp in Hin.
    apply list_elem_of_In, in_map_iff in Hin as ([name' child] & Heq & Hin). injection Heq as -> <-. apply list_elem_of_In in Hin.
    apply bind_Ok_inv in Hvis as (mid & Hmid & Hvis).
    destruct (visit_child _ _ _ _ _ _ (IH (name, child) Hin (prefix ++ [name]) (Hw _ (proj1 (list_elem_of_In _ _) Hin))) Hmid Hvis)
      as (l & -> & Hndl & Hlen' & Hq).
    exists l. split_and!; try done. intros path (rest & ? & ? & ?)%Hq. by exists child, rest.
  - exists l. split_and!; try done. intros path (name & _ & child & rest & Hin & -> & Hi & Hf)%Hq. exists (name :: rest).
    split_and!; try done. cbn [item_at]. by rewrite (elem_child_of _ _ _ Hnd Hin).
Qed.

Definition tar_type (item : Item) : EntryType :=
  match item with RegularFile _ _ _ _ => Regular | Folder _ _ => Directory | SymbolicLink _ _ => Symlink | SpecialFile _ => OtherEntry end.
Definition file_bytes (item : Item) : Z := match item with RegularFile _ contents _ _ => length_z contents | _ => 0 end.
Definition tar_entry (entry : string * Item) : TarEntry :=
  MkEntry (Ok entry.1) (tar_type entry.2) (Ok []) (Ok (match entry.2 with SymbolicLink _ target => Some target | _ => None end))
    (Ok (file_bytes entry.2)).

(** A relative path of plain names; for the target of a link, also an absolute one. *)
Definition plain_path (path : string) : Prop := forallb name_ok (split_byte "/" path) = true.
Definition plain_entry (entry : string * Item) : Prop :=
  plain_path entry.1 ∧
  match entry.2 with
  | SymbolicLink _ target => plain_path target ∨ ∃ rest, target = String "/" rest ∧ plain_path rest
  | SpecialFile _ => False
  | _ => True
  end.

Definition appended `{ArchiveCodec} (entries : list (string * Item)) (archive : list ascii) : list ascii :=
  foldl (λ archive entry, tar_append archive entry.1 entry.2) archive entries.

(** An archive is read as it was written. *)
Class ArchiveLaws `{ArchiveCodec} : Prop := {
  archive_read entries : Forall plain_entry entries → archive_entries (tar_finish (appended entries [])) = Ok <$> (tar_entry <$> entries);
  archive_nonempty archive : tar_finish archive ≠ []
}.

Lemma confined_safe path : confined_path path → unsafe_path path = false.
Proof.
  intros (Hb & names & Hn & Hd). unfold unsafe_path. rewrite Hn, length_fmap. apply orb_false_iff. split.
  - apply orb_false_iff. split; by apply Z.ltb_ge.
  - clear. induction names as [|n names IH]; [done|exact IH].
Qed.

Lemma accepted_tail quota s entry entries : accepted quota s (entry :: entries) → accepted quota (scanned entry s) entries.
Proof.
  intros [Hcount Hbytes Hall [Hnd Hseen] Hl]. rewrite length_cons in Hcount. rewrite fmap_cons in Hbytes. rewrite fmap_cons in Hnd.
  apply Forall_cons in Hall as [_ Hall]. apply NoDup_cons in Hnd as [Hnew Hnd]. split; cbn [scanned seen symlinks logical_bytes].
  - rewrite length_cons. lia.
  - cbn [sum_Z foldr] in Hbytes. fold (sum_Z (entry_size <$> entries)) in Hbytes. lia.
  - done.
  - split; [done|]. intros e He [Heq|Hin]%elem_of_cons.
    + destruct Hnew. apply list_elem_of_fmap. by exists e.
    + by apply (Hseen e (list_elem_of_further _ _ _ He)).
  - intros i e He. destruct (Hl (S i) e He) as [Ha Hj]. split; [|intros j link Hlt Hlink; apply (Hj (S j) link); [lia|done]].
    intros a. destruct (is_symlink entry) eqn:Hs; [|apply Ha]. intros [->|Hin]%elem_of_cons; [|by apply Ha].
    by apply (Hj 0%nat entry); [lia| |].
Qed.

(** An entry that was read without an error and has no extensions. *)
Definition readable (entry : TarEntry) : Prop :=
  pax_extensions entry = Ok [] ∧ ∃ size, header_size entry = Ok size ∧ 0 ≤ size.

Lemma validate_entry_accepts quota s entry entries :
  0 ≤ logical_bytes s → quota ≤ u64_max → Forall readable (entry :: entries) → accepted quota s (entry :: entries) →
  validate_entry quota (Ok entry) s = Ok (scanned entry s).
Proof.
  intros Hpos Hq Hr [Hcount Hbytes Hall [_ Hseen] Hl]. rewrite length_cons in Hcount.
  apply Forall_cons in Hall as [((path & Hpath & Hsafe%confined_safe) & Htype & Hlink) _].
  apply Forall_cons in Hr as [(Hpax & size & Hsize & Hs) Hr]. rewrite fmap_cons in Hbytes. cbn [sum_Z foldr] in Hbytes.
  fold (sum_Z (entry_size <$> entries)) in Hbytes.
  assert (0 ≤ sum_Z (entry_size <$> entries)) as Hrest.
  { apply sum_Z_nonneg, Forall_fmap. apply (Forall_impl _ _ _ Hr). cbn. intros e (_ & n & Hn & ?). unfold entry_size. by rewrite Hn. }
  assert (entry_components entry = path_components path) as Hc by (unfold entry_components; by rewrite Hpath).
  assert (entry_size entry = size) as Hes by (unfold entry_size; by rewrite Hsize). rewrite Hes in Hbytes.
  unfold validate_entry. cbn [mbind result_bind]. rewrite (proj2 (Z.leb_gt _ _)) by lia. cbn [reject_if mbind result_bind].
  rewrite Hpath. cbn [mbind result_bind]. cbn zeta. rewrite <- Hc, Hsafe, (proj2 (no_link_above _ _) (proj1 (Hl 0%nat entry eq_refl))).
  rewrite (bool_decide_false _ (Hseen entry (list_elem_of_here _ _))). cbn [orb reject_if mbind result_bind].
  rewrite Hpax. replace (match entry_type entry with OtherEntry => true | _ => false end) with false by (by destruct (entry_type entry)).
  cbn [reject_if mbind result_bind for_each].
  assert ((if is_symlink entry then validate_link entry else mret tt) = Ok tt) as ->.
  { destruct (is_symlink entry) eqn:Hsym; [|done]. destruct (Hlink eq_refl) as (target & Ht & Htsafe%confined_safe).
    unfold validate_link. rewrite Ht. cbn [mbind result_bind ok_or]. by rewrite Htsafe. }
  cbn [mbind result_bind]. rewrite Hsize. cbn [mbind result_bind].
  assert (u64_checked_add (logical_bytes s) size = Some (logical_bytes s + size)) as ->.
  { unfold checked_add. rewrite (proj2 (Z.leb_le _ _)) by lia. done. }
  cbn [ok_or mbind result_bind]. rewrite (proj2 (Z.ltb_ge _ _)) by lia. cbn [reject_if mbind result_bind].
  unfold scanned. by rewrite Hes.
Qed.

Lemma validate_entries_accepts quota timeout elapsed s entries :
  (∀ i, elapsed i ≤ timeout) → 0 ≤ logical_bytes s → quota ≤ u64_max → Forall readable entries → accepted quota s entries →
  validate_entries quota timeout elapsed (Ok <$> entries) s = Ok tt.
Proof.
  intros He Hpos Hq. revert s Hpos. induction entries as [|entry entries IH]; intros s Hpos Hr Ha; [done|].
  rewrite fmap_cons. cbn [validate_entries]. rewrite (proj2 (Z.ltb_ge _ _)) by apply He. cbn [reject_if mbind result_bind].
  rewrite (validate_entry_accepts _ _ _ entries) by done. cbn [mbind result_bind]. apply Forall_cons in Hr as [(_ & size & Hs & ?) Hr].
  apply IH; [|done|by apply accepted_tail]. cbn [scanned logical_bytes]. unfold entry_size. rewrite Hs. lia.
Qed.

(** What is written of a path. *)
Definition exported (root : Item) (path : Path) : string * Item := (path_string path, default (SpecialFile false) (item_at root path)).

Lemma export_paths_Ok `{ArchiveCodec} root quota timeout elapsed paths logical archive archive' :
  logical ≤ quota → export_paths root quota timeout elapsed paths logical archive = Ok archive' →
  archive' = appended (exported root <$> paths) archive ∧ Forall (λ path, tar_type (exported root path).2 ≠ OtherEntry) paths ∧
  logical + sum_Z ((λ path, file_bytes (exported root path).2) <$> paths) ≤ quota.
Proof.
  revert logical archive. induction paths as [|path paths IH]; intros logical archive Hq He.
  - cbn in He. injection He as <-. split_and!; [done|constructor|cbn; lia].
  - cbn [export_paths] in He. inv_ok He. apply ok_or_Ok in Hstep0.
    assert (exported root path = (path_string path, a0)) as Hx by (unfold exported; by rewrite Hstep0).
    assert (tar_type a0 ≠ OtherEntry ∧ a2 = logical + file_bytes a0 ∧ a2 ≤ quota) as (Ht & -> & Hle).
    { destruct a0; cbn [checked_size] in Hstep2; [|injection Hstep2 as <-; cbn; split_and!; [done|lia|done] ..|done].
      inv_ok Hstep2. apply Ok_inj in Hstep2 as <-. apply ok_or_Ok, checked_add_Some in Hstep6 as [-> _].
      rewrite !reject_if_Ok in *. apply Z.ltb_ge in Hstep7. by split_and!. }
    apply IH in He as (-> & Hall & Hsum); [|done]. unfold bounded_append in Hstep3. inv_ok Hstep3. apply Ok_inj in Hstep3 as <-.
    rewrite !fmap_cons. cbn [appended foldl sum_Z foldr]. fold (sum_Z ((λ path, file_bytes (exported root path).2) <$> paths)).
    rewrite Hx. cbn [fst snd]. split_and!; [done| |lia]. constructor; [by rewrite Hx|done].
Qed.

Lemma join_plain path : Forall (λ name, name_ok name = true) path → path ≠ [] → plain_path (path_string path).
Proof. intros Hall Hne. unfold plain_path. rewrite split_path by done. apply forallb_forall. rewrite Forall_forall in Hall.
  intros name Hin. by apply Hall, list_elem_of_In. Qed.

(** The paths an export writes. *)
Definition sound_paths (root : Item) (paths : list Path) : Prop :=
  NoDup paths ∧ length_z paths ≤ MAXIMUM_ENTRIES ∧ (∀ path, path ∈ paths → listed [] root path).

Lemma exported_components root path :
  well_formed root = true → listed [] root path → entry_components (tar_entry (exported root path)) = Normal <$> path.
Proof.
  intros Hw (rest & Hne & -> & [item Hi] & _). cbn [app] in *. unfold entry_components. cbn [tar_entry exported entry_path fst].
  apply path_string_components; [|done]. by eapply item_at_names.
Qed.

Lemma exported_entry root path :
  well_formed root = true → links_ok root = true → listed [] root path → tar_type (exported root path).2 ≠ OtherEntry →
  plain_entry (exported root path) ∧ confined_entry (tar_entry (exported root path)) ∧ readable (tar_entry (exported root path)).
Proof.
  intros Hw Hl (rest & Hne & -> & [item Hi] & Hfits) Ht. cbn [app] in *. unfold exported in *. rewrite Hi in *. cbn [default snd] in *.
  pose proof (item_at_names _ _ _ Hw Hi) as Hnames. pose proof (item_at_inherits links_ok _ _ _ links_ok_child Hl Hi) as Hlink.
  assert (confined_path (path_string rest)) as Hc.
  { split; [apply Hfits|]. exists rest. split; [by apply path_string_components|]. destruct Hfits as [_ Hd].
    by rewrite path_string_components, length_fmap in Hd by done. }
  split_and!.
  - split; [by apply join_plain|]. cbn [snd]. destruct item; try done. cbn [links_ok] in Hlink.
    apply andb_true_iff in Hlink as [Hp _]. by left.
  - split; [by exists (path_string rest)|]. split; [done|]. destruct item; try done. intros _. exists target. split; [done|].
    cbn [links_ok] in Hlink. apply andb_true_iff in Hlink as [_ Hsafe%negb_true_iff]. by apply safe_path.
  - split; [done|]. exists (file_bytes item). split; [done|]. destruct item; cbn; lia.
Qed.

(** Nothing is below a link. *)
Lemma link_has_no_children root path below :
  is_symlink (tar_entry (exported root path)) = true → is_Some (item_at root below) → ¬ ∃ name rest, below = path ++ name :: rest.
Proof.
  intros Hs [item Hi] (name & rest & ->). rewrite item_at_app in Hi. unfold is_symlink, exported in Hs. cbn in Hs.
  destruct (item_at root path) as [[]|]; try done.
Qed.

Lemma strictly_under_normal (p q : Path) : strictly_under (Normal <$> p) (Normal <$> q) → ∃ name rest, q = p ++ name :: rest.
Proof.
  intros (c & rest & Heq). apply fmap_app_inv in Heq as (q1 & q2 & H1 & H2 & ->). symmetry in H2.
  apply fmap_cons_inv in H2 as (name & q3 & _ & _ & ->). exists name, q3. f_equal. revert q1 H1.
  induction p as [|x p IH]; intros [|y q1] Hq; try done. rewrite !fmap_cons in Hq. injection Hq as -> Hq. f_equal. by apply IH.
Qed.

Lemma exported_accepted root paths quota :
  well_formed root = true → links_ok root = true → sound_paths root paths →
  Forall (λ path, tar_type (exported root path).2 ≠ OtherEntry) paths →
  sum_Z ((λ path, file_bytes (exported root path).2) <$> paths) ≤ quota →
  accepted quota (MkScan [] [] 0) (tar_entry <$> (exported root <$> paths)).
Proof.
  intros Hw Hl (Hnd & Hcount & Hlisted) Ht Hsum. rewrite Forall_forall in Ht.
  assert (entry_components <$> (tar_entry <$> (exported root <$> paths)) = (fmap Normal : Path → _) <$> paths) as Hcomp.
  { rewrite <- !list_fmap_compose. apply list_fmap_ext. intros i path Hi%list_elem_of_lookup_2. by apply exported_components; [|apply Hlisted]. }
  split; cbn [seen symlinks logical_bytes length].
  - rewrite !length_fmap. lia.
  - rewrite <- !list_fmap_compose. exact Hsum.
  - rewrite !Forall_fmap, Forall_forall. intros path Hp. by apply (exported_entry root path Hw Hl (Hlisted _ Hp) (Ht _ Hp)).
  - split; [|set_solver]. rewrite Hcomp. apply NoDup_fmap_2; [|done]. intros p q Hpq.
    assert (Inj (=) (=) Normal) by (intros ???; congruence). by eapply list_fmap_eq_inj.
  - intros i entry Hi. split; [set_solver|]. intros j link _ Hj Hs Hu. rewrite !list_lookup_fmap in Hi. rewrite !list_lookup_fmap in Hj.
    destruct (paths !! i) as [p|] eqn:Hp; [|done]. destruct (paths !! j) as [q|] eqn:Hq; [|done]. cbn in Hi, Hj. simplify_eq.
    apply list_elem_of_lookup_2 in Hp, Hq. rewrite !exported_components in Hu by (done || by apply Hlisted).
    apply strictly_under_normal in Hu. destruct (Hlisted p Hp) as (rest & _ & Heq & Hsome & _). cbn [app] in Heq. subst rest.
    by apply (link_has_no_children root q p Hs Hsome).
Qed.

Lemma export_directory_Ok `{ArchiveCodec} root found destination quota timeout elapsed l :
  0 ≤ quota → well_formed root = true → export_directory root found destination quota timeout elapsed = Ok l →
  ∃ paths, sound_paths root paths ∧ l = tar_finish (appended (exported root <$> paths) []) ∧ length_z l ≤ u64_saturating_mul quota 2 ∧
    Forall (λ path, tar_type (exported root path).2 ≠ OtherEntry) paths ∧
    sum_Z ((λ path, file_bytes (exported root path).2) <$> paths) ≤ quota.
Proof.
  unfold export_directory. intros Hq Hw He. inv_ok He. apply Ok_inj in He as <-.
  apply (collect_paths_adds root [] Hw) in Hstep0 as (paths & -> & Hnd & Hcount & Hlisted); [|done]. cbn [app] in *.
  apply export_paths_Ok in Hstep1 as (-> & Hall & Hsum); [|done]. rewrite reject_if_Ok in Hstep2. apply Z.ltb_ge in Hstep2.
  pose proof (merge_sort_Permutation (λ p q, Is_true (lex_leb p q)) paths : sort_paths paths ≡ₚ paths) as Hp.
  exists (sort_paths paths). split_and!; try done.
  split_and!; [by rewrite Hp|by rewrite Hp|]. intros path Hin. rewrite Hp in Hin. by apply Hlisted.
Qed.

(** What a volume is exported to is accepted by the restore of the same quota, if its links have relative targets. *)
Lemma exported_is_accepted `{ArchiveLaws} root found destination quota timeout elapsed l timeout' elapsed' :
  well_formed root = true → links_ok root = true → in_u64 quota →
  export_directory root found destination quota timeout elapsed = Ok l → (∀ i, elapsed' i ≤ timeout') →
  validate_archive (Ok l) quota timeout' elapsed' = Ok tt.
Proof.
  intros Hw Hl [Hq Hu] He Htime. apply export_directory_Ok in He as (paths & Hs & -> & Hlen & Hall & Hsum); [|done|done].
  assert (∀ path, path ∈ paths → plain_entry (exported root path) ∧ confined_entry (tar_entry (exported root path)) ∧
    readable (tar_entry (exported root path))) as Hentry.
  { rewrite Forall_forall in Hall. intros path Hp. apply exported_entry; try done; [by apply Hs|by apply Hall]. }
  unfold validate_archive. cbn [mbind result_bind].
  rewrite (proj2 (Z.eqb_neq _ _)); [|pose proof (archive_nonempty (appended (exported root <$> paths) [])); by destruct (tar_finish _)].
  rewrite (proj2 (Z.ltb_ge _ _)) by done. cbn [orb reject_if mbind result_bind]. rewrite archive_read.
  2: { apply Forall_fmap, Forall_forall. intros path Hp. by apply Hentry. }
  apply validate_entries_accepts; try done.
  - rewrite !Forall_fmap, Forall_forall. intros path Hp. by apply Hentry.
  - by apply exported_accepted.
Qed.

(** a volume with an absolute link is exported, and the archive cannot be restored: the export accepts every target of
    a link, [validate_archive] refuses it whatever the quota and the time. *)
Theorem absolute_link_is_not_restored `{ArchiveLaws} :
  let root := Folder false [("python", SymbolicLink false "/usr/bin/python3")] in
  ∃ l, (∀ quota, length_z l ≤ u64_saturating_mul quota 2 → length_z (tar_append [] "python" (SymbolicLink false "/usr/bin/python3")) ≤ u64_saturating_mul quota 2 →
          export_directory root false "volume.tar" quota 1 (λ _, 0) = Ok l) ∧
       ∀ quota timeout elapsed, ∃ error, validate_archive (Ok l) quota timeout elapsed = Err error.
Proof.
  intros root. exists (tar_finish (appended (exported root <$> [["python"%string]]) [])). split.
  - intros quota Hfinish Happend. unfold export_directory. cbn [reject_if mbind result_bind].
    assert (collect_paths [] root [] = Ok [["python"%string]]) as -> by (vm_compute; reflexivity). cbn [mbind result_bind].
    assert (sort_paths [["python"%string]] = [["python"%string]]) as -> by (vm_compute; reflexivity).
    cbn [export_paths length]. change (1 <? 0) with false. cbn [reject_if mbind result_bind].
    change (item_at root ["python"%string]) with (Some (SymbolicLink false "/usr/bin/python3")).
    cbn [ok_or mbind result_bind has_xattrs reject_if checked_size]. unfold bounded_append. change (path_string ["python"%string]) with "python"%string.
    rewrite (proj2 (Z.ltb_ge _ _)) by done. cbn [reject_if mbind result_bind mret result_ret]. cbn [export_paths mret result_ret mbind result_bind].
    rewrite (proj2 (Z.ltb_ge _ _)); [reflexivity|exact Hfinish].
  - intros quota timeout elapsed. destruct (validate_archive _ _ _ _) as [[]|error] eqn:Hv; [|by exists error]. exfalso.
    unfold validate_archive in Hv. cbn [mbind result_bind] in Hv. inv_ok Hv. rewrite archive_read in Hv.
    2: { constructor; [|constructor]. split; [vm_compute; reflexivity|]. right. eexists. split; [reflexivity|vm_compute; reflexivity]. }
    cbn [fmap list_fmap validate_entries] in Hv. inv_ok Hv. apply validate_entry_Ok in Hstep1 as (entry & Heq & (_ & _ & Hlink) & _).
    apply Ok_inj in Heq as <-. destruct (Hlink eq_refl) as (target & Heq & _ & names & Hn & _). apply Ok_inj in Heq.
    injection Heq as <-. by destruct names.
Qed.

(** ** An example *)

(** A format of archives: the encoding of the entries as bits, closed by a mark. *)
Fixpoint pos_bits (p : positive) : list ascii :=
  match p with xH => [] | xO q => "0"%char :: pos_bits q | xI q => "1"%char :: pos_bits q end.
Fixpoint bits_pos (l : list ascii) : positive :=
  match l with [] => xH | c :: l' => if is_byte "1" c then xI (bits_pos l') else xO (bits_pos l') end.

Lemma bits_pos_bits p : bits_pos (pos_bits p) = p.
Proof. induction p as [p IH|p IH|]; cbn; by rewrite ?IH. Qed.

Abbreviation Coded := (string * N * option string * N)%type.
Definition coded (path : string) (item : Item) : Coded :=
  (path, match item with RegularFile _ _ _ _ => 0 | Folder _ _ => 1 | SymbolicLink _ _ => 2 | SpecialFile _ => 3 end%N,
   match item with SymbolicLink _ target => Some target | _ => None end, Z.to_N (file_bytes item)).
Definition coded_entry (c : Coded) : TarEntry :=
  let '(path, type, link, size) := c in
  MkEntry (Ok path) (match type with 0 => Regular | 1 => Directory | 2 => Symlink | _ => OtherEntry end%N) (Ok []) (Ok link) (Ok (Z.of_N size)).
Definition code_list (l : list Coded) : list ascii := pos_bits (encode l).
Definition decode_list (a : list ascii) : list Coded := default [] (decode (bits_pos a)).

(** A hash of 64 hexadecimal digits. *)
Definition hex_digits : list ascii := bytes "0123456789abcdef".
Definition hex_digit (n : Z) : ascii := default "0"%char (hex_digits !! Z.to_nat n).
Fixpoint hex (n : nat) (z : Z) : string :=
  match n with O => EmptyString | S n' => String (hex_digit (z mod 16)) (hex n' (z / 16)) end.
Definition example_hash (l : list ascii) : string := hex 64 (foldl (λ z c, (z * 257 + code c + 1) mod 1099511627776) 0 l).

Definition example_archive : ArchiveCodec := {|
  tar_append archive path item := code_list (decode_list archive ++ [coded path item]);
  tar_finish archive := "."%char :: archive;
  archive_entries l := match l with _ :: archive => Ok <$> (coded_entry <$> decode_list archive) | [] => [] end;
  unpack l := (Folder false [("restored", RegularFile false l 1 8)], Ok tt);
  hash_hex := example_hash
|}.

Lemma example_appended entries archive :
  decode_list (appended (H := example_archive) entries archive) = decode_list archive ++ ((λ e, coded e.1 e.2) <$> entries).
Proof.
  revert archive. induction entries as [|e entries IH]; intros archive; [by rewrite app_nil_r|]. cbn [appended foldl].
  fold (appended (H := example_archive) entries (tar_append (ArchiveCodec := example_archive) archive e.1 e.2)). rewrite IH. cbn [tar_append example_archive].
  unfold decode_list at 1, code_list. rewrite bits_pos_bits, decode_encode.
  change (default [] (Some (decode_list archive ++ [coded e.1 e.2]))) with (decode_list archive ++ [coded e.1 e.2]). by rewrite <- app_assoc.
Qed.

Lemma example_archive_laws : ArchiveLaws (H := example_archive).
Proof.
  split; [|done]. intros entries _. cbn [archive_entries tar_finish example_archive]. f_equal. rewrite example_appended.
  assert (decode_list [] = []) as -> by (vm_compute; reflexivity). cbn [app].
  rewrite <- list_fmap_compose. apply list_fmap_ext. intros i [path item] _. unfold tar_entry. cbn [compose fst snd coded coded_entry].
  rewrite Z2N.id by (destruct item; cbn; lia). by destruct item.
Qed.

Lemma example_hash_valid l : len (example_hash l) = 64 ∧ all_bytes is_lowercase_hex (example_hash l) = true.
Proof.
  unfold example_hash. generalize (foldl (λ z c, (z * 257 + code c + 1) mod 1099511627776) 0 l). intros z.
  assert (∀ n z, len (hex n z) = Z.of_nat n ∧ all_bytes is_lowercase_hex (hex n z) = true) as Hhex.
  { induction n as [|n IH]; intros y; [done|]. destruct (IH (y / 16)) as [Hl Ha]. split.
    - unfold len in *. cbn [hex String.length]. lia.
    - unfold all_bytes in *. cbn [hex bytes list_ascii_of_string forallb]. apply andb_true_iff. split; [|exact Ha].
      unfold hex_digit. destruct (hex_digits !! _) as [c|] eqn:Hc; [|done]. cbn [default].
      assert (Forall (λ c, is_lowercase_hex c = true) hex_digits) as Hd by (unfold hex_digits; cbn [bytes list_ascii_of_string]; repeat (constructor; [reflexivity|]); constructor).
      by apply (Forall_lookup_1 _ _ _ _ Hd Hc). }
  apply (Hhex 64%nat).
Qed.

(** A volume with a file and a link below a directory, its archive, and an archive of a link that is not restored. *)
Definition example_tree : Item :=
  Folder false [("model", Folder false [("weights", RegularFile false (bytes "0101") 1 8); ("latest", SymbolicLink false "weights")])].
Definition example_entries : list (string * Item) :=
  [("model", Folder false []); ("model/latest", SymbolicLink false "weights"); ("model/weights", RegularFile false (bytes "0101") 1 8)].
Definition example_bytes : list ascii := tar_finish (ArchiveCodec := example_archive) (appended (H := example_archive) example_entries []).

Lemma example_accepted : validate_archive (H := example_archive) (Ok example_bytes) 1048576 1 (λ _, 0) = Ok tt.
Proof. vm_compute. reflexivity. Qed.

Lemma accepted_archive_is_confined_witness :
  ∃ l entries, Ok (E := VolumeError) example_bytes = Ok l ∧ archive_entries (ArchiveCodec := example_archive) l = Ok <$> entries ∧
    length_z entries ≤ MAXIMUM_ENTRIES ∧ sum_Z (entry_size <$> entries) ≤ 1048576 ∧ Forall confined_entry entries ∧
    NoDup (entry_components <$> entries) ∧
    ∀ i j entry link, entries !! i = Some entry → entries !! j = Some link → (j < i)%nat → is_symlink link = true →
      ¬ strictly_under (entry_components link) (entry_components entry).
Proof. exact (accepted_archive_is_confined (H := example_archive) (Ok example_bytes) 1048576 1 (λ _, 0) ltac:(lia) example_accepted). Defined.

Lemma absolute_link_is_not_restored_witness :
  ∃ l, ∀ quota timeout elapsed, ∃ error, validate_archive (H := example_archive) (Ok l) quota timeout elapsed = Err error.
Proof. destruct (absolute_link_is_not_restored (H0 := example_archive_laws)) as (l & _ & Hl). exists l. exact Hl. Defined.
End VolumeArchive.
