(* ===== verification/DirectoryVolume.v ===== *)
(** * Volumes in directories

    Models [crates/sandbox-volume/src/directory.rs] with the types of [model.rs]
    and [error.rs]: named volumes are directories of one root, each with a record
    of its identity and attachments and a directory of data, which are created,
    attached, frozen, exported, restored, deleted and, when the provider is
    opened, recovered.

    A directory is the contents of its files.  Each call on the file system has
    an event: it succeeds, or it fails or the process stops, before, in the middle
    of or after its effect.  What a stopped process did is on the disk in the order
    in which it was done, and [Path::exists] answers what is there.  The other
    provider, JSON, SHA-256 and tar are parameters. *)
From S2P Require Import Prelude Identity Volume Envelope VolumeArchive.
Import Volume.Volume VolumeArchive.VolumeArchive.

Module DirectoryVolume.

Definition DIRECTORY_VOLUME_PROVIDER_ID : string := "directory-pvc-v1".
Definition RECORD_VERSION : Z := 1.
Definition SNAPSHOT_VERSION : Z := 2.
Definition MAXIMUM_RECORD_BYTES : Z := 256 * 1024.

Record VolumeScope : Type := MkScope { scope_tenant : TenantId; scope_workspace : WorkspaceId }.
Record AttachmentOwner : Type := MkOwner { owner_sandbox : SandboxId; owner_container : ContainerId }.
Record VolumeHandle : Type := MkHandle {
  handle_provider : string;
  handle_key : string;
  handle_scope : VolumeScope;
  handle_volume : VolumeId;
  handle_class : VolumePersistenceClass;
  handle_quota : Z;
  handle_digest : option string
}.
Record VolumeAttachment : Type := MkAttachment {
  attachment_handle : VolumeHandle;
  attachment_id : string;
  attachment_owner : AttachmentOwner;
  attachment_destination : string;
  attachment_read_only : bool;
  attachment_policy : VolumeSnapshotPolicy
}.
Record MountedVolume : Type := MkMounted { mounted_attachment : VolumeAttachment; mounted_source : string }.
Record VolumeSnapshot : Type := MkSnapshot {
  vs_schema_version : Z;
  vs_provider : string;
  vs_volume : VolumeId;
  vs_class : VolumePersistenceClass;
  vs_digest : string;
  vs_size : Z;
  vs_quota : Z;
  vs_format : string;
  vs_portability : SnapshotPortability
}.
Record VolumeCleanupReport : Type := MkReport {
  cleared_attachments : Z;
  removed_ephemeral_volumes : Z;
  retained_persistent_volumes : Z;
  removed_secret_volumes : Z
}.
Record VolumeProviderCapabilities : Type := MkCapabilities {
  classes : list VolumePersistenceClass;
  can_snapshot : bool;
  can_clone : bool;
  snapshot_portability : SnapshotPortability
}.

(** [config] with what was found out when the provider was opened. *)
Record DirectoryVolumeConfig : Type := MkConfig {
  root : string;
  minimum_quota_bytes : Z;
  maximum_quota_bytes : Z;
  operation_timeout : Z;
  gofer_access : bool;
  ownership_restore : bool
}.

Record AttachmentRecord : Type := MkAttachmentRecord {
  record_sandbox : string;
  record_container : string;
  record_destination : string;
  record_read_only : bool
}.
Record VolumeRecord : Type := MkRecord {
  record_schema_version : Z;
  record_provider : string;
  record_key : string;
  record_tenant : string;
  record_workspace : string;
  record_volume : string;
  record_class : VolumePersistenceClass;
  record_quota : Z;
  frozen : bool;
  attachments : gmap string AttachmentRecord
}.
#[global] Instance AttachmentRecord_eq_dec : EqDecision AttachmentRecord.
Proof. solve_decision. Defined.
#[global] Instance VolumeRecord_eq_dec : EqDecision VolumeRecord.
Proof. solve_decision. Defined.

Definition set_attachments (a : gmap string AttachmentRecord) (r : VolumeRecord) : VolumeRecord :=
  MkRecord (record_schema_version r) (record_provider r) (record_key r) (record_tenant r) (record_workspace r) (record_volume r)
    (record_class r) (record_quota r) (frozen r) a.
Definition set_frozen (b : bool) (r : VolumeRecord) : VolumeRecord :=
  MkRecord (record_schema_version r) (record_provider r) (record_key r) (record_tenant r) (record_workspace r) (record_volume r)
    (record_class r) (record_quota r) b (attachments r).

(** [serde_json] on records. *)
Class RecordCodec : Type := {
  record_json : VolumeRecord → result string (list ascii);
  record_parse : list ascii → result string VolumeRecord
}.

(** ** The file system *)

(** The files of a volume's directory: [volume.json], [volume.json.new], [data], [data.restoring] and [data.replaced]. *)
Record Files : Type := MkFiles {
  record_file : option (list ascii);
  pending_file : option (list ascii);
  data : option Item;
  restoring : option Item;
  replaced : option Item
}.

(** When a call is interrupted; [Partway] says what it had done. *)
Inductive Moment : Type := Before | Partway (n : nat) | After.
(** [None]: the call proceeds; [Some (_, Some error)]: it fails; [Some (_, None)]: the process stops. *)
Abbreviation Event := (option (Moment * option VolumeError)).
Inductive Outcome : Type := Failed (error : VolumeError) | Stopped.

Record World (X : Type) : Type := MkVolumes { directories : gmap string Files; events : list Event; auxiliary : X }.
Arguments MkVolumes {X}.
Arguments directories {X}.
Arguments events {X}.
Arguments auxiliary {X}.

(** The provider for artifacts and secrets. *)
Class Auxiliary (X : Type) : Type := {
  aux_create : VolumeScope → VolumeSpec → M X VolumeError VolumeHandle;
  aux_attach : VolumeHandle → AttachmentOwner → VolumeSpec → M X VolumeError VolumeAttachment;
  aux_mount : VolumeAttachment → M X VolumeError MountedVolume;
  aux_detach : VolumeAttachment → M X VolumeError ();
  aux_freeze : VolumeAttachment → M X VolumeError ();
  aux_thaw : VolumeAttachment → M X VolumeError ();
  aux_snapshot : VolumeAttachment → string → M X VolumeError (VolumeSnapshot * list ascii);
  aux_restore : VolumeScope → VolumeSpec → VolumeSnapshot → string → M X VolumeError VolumeHandle;
  aux_delete : VolumeHandle → M X VolumeError ();
  aux_cleanup : M X VolumeError VolumeCleanupReport
}.

Section code.
Context {X : Type} `{ArchiveCodec, RecordCodec, Auxiliary X}.
(** What is left of the data after [n] of its entries were removed or before all were written. *)
Context (prune : nat → Item → Item).
Context (self : DirectoryVolumeConfig).

Abbreviation D := (gmap string Files).
Abbreviation V := (M (World X) Outcome).

Definition next_event (w : World X) : Event := default None (head (events w)).
Definition proceed (d : D) (w : World X) : World X := MkVolumes d (tail (events w)) (auxiliary w).

(** A call: its answer, its effect when it is done, and its effect when it is interrupted. *)
Definition call {A} (answer : D → result VolumeError A) (effect : D → D) (partway : nat → D → D) : V A :=
  λ w, match answer (directories w) with
       | Err error => (proceed (directories w) w, Err (match next_event w with Some (_, None) => Stopped | _ => Failed error end))
       | Ok a =>
           match next_event w with
           | None => (proceed (effect (directories w)) w, Ok a)
           | Some (moment, ending) =>
               (proceed (match moment with
                         | Before => directories w
                         | Partway n => partway n (directories w)
                         | After => effect (directories w)
                         end) w,
                Err (match ending with Some error => Failed error | None => Stopped end))
           end
       end.
Definition reading {A} (answer : D → result VolumeError A) : V A := call answer id (λ _ d, d).
(** A call without effect on the directories: permissions, syncs, metadata. *)
Definition host : V () := reading (λ _, Ok tt).
(** [Path::exists]. *)
Definition exists_now (there : D → bool) : V bool := λ w, (w, Ok (there (directories w))).
(** [let _ = ...]. *)
Definition ignoring (c : V ()) : V () :=
  λ w, match c w with (w', Err (Failed _)) => (w', Ok tt) | r => r end.
(** [if let Err(error) = result { let _ = ...; return Err(error); }]. *)
Definition or_undo (c undo : V ()) : V () :=
  λ w, match c w with
       | (w', Err (Failed error)) => (ignoring undo;; M_fail (Failed error)) w'
       | result => result
       end.
Definition with_auxiliary {A} (c : M X VolumeError A) : V A :=
  λ w, let '(x, r) := c (auxiliary w) in (MkVolumes (directories w) (events w) x, map_err Failed r).
Definition checked {A} (r : result VolumeError A) : V A := M_lift (map_err Failed r).

Definition missing (key : string) : VolumeError := Io key "No such file or directory".
Definition occupied (key : string) : VolumeError := Io key "File exists".

Definition at_key (key : string) (f : Files → Files) (d : D) : D := alter f key d.
Definition files_at (key : string) (d : D) : result VolumeError (Files) := ok_or (missing key) (d !! key).

Definition set_record (l : option (list ascii)) (f : Files) : Files := MkFiles l (pending_file f) (data f) (restoring f) (replaced f).
Definition set_pending (l : option (list ascii)) (f : Files) : Files := MkFiles (record_file f) l (data f) (restoring f) (replaced f).
Definition set_data (t : option Item) (f : Files) : Files := MkFiles (record_file f) (pending_file f) t (restoring f) (replaced f).
Definition set_restoring (t : option Item) (f : Files) : Files := MkFiles (record_file f) (pending_file f) (data f) t (replaced f).
Definition set_replaced (t : option Item) (f : Files) : Files := MkFiles (record_file f) (pending_file f) (data f) (restoring f) t.

Definition create_directory (volume key : string) : V () :=
  call (λ d, reject_if (bool_decide (is_Some (d !! key))) (AlreadyExists volume)) (insert key (MkFiles None None None None None)) (λ _ d, d).

(** What [remove_dir_all] leaves: some of the files, and parts of the data. *)
Definition partly_removed (n : nat) (f : Files) : Files :=
  MkFiles (if Nat.testbit n 0 then record_file f else None) (if Nat.testbit n 1 then pending_file f else None)
    (if Nat.testbit n 2 then prune n <$> data f else None) (if Nat.testbit n 3 then prune n <$> restoring f else None)
    (if Nat.testbit n 4 then prune n <$> replaced f else None).
Definition remove_directory (key : string) : V () :=
  call (λ d, files_at key d;; mret tt) (delete key) (λ n, at_key key (partly_removed n)).

(** [write_json], which creates the file. *)
Definition write_json (key : string) (file : Files → option (list ascii)) (set : option (list ascii) → Files → Files) (r : VolumeRecord) : V () :=
  l ← checked (map_err (λ error, Integrity ("encode volume record: " +:+ error)) (record_json r));
  call (λ d, f ← files_at key d; reject_if (bool_decide (is_Some (file f))) (occupied key))
    (at_key key (set (Some l))) (λ n, at_key key (set (Some (take n l)))).

Definition write_record_new (key : string) (r : VolumeRecord) : V () := write_json key record_file set_record r.

Definition rename_pending (key : string) : V () :=
  call (λ d, f ← files_at key d; ok_or (missing key) (pending_file f);; mret tt)
    (at_key key (λ f, set_pending None (set_record (pending_file f) f))) (λ _ d, d).
Definition remove_pending (key : string) : V () :=
  call (λ d, f ← files_at key d; ok_or (missing key) (pending_file f);; mret tt) (at_key key (set_pending None)) (λ _ d, d).

Definition replace_record (key : string) (r : VolumeRecord) : V () :=
  write_json key pending_file set_pending r;;
  or_undo (rename_pending key) (remove_pending key);;
  host.

Definition read_record (key : string) : V VolumeRecord :=
  l ← reading (λ d, f ← files_at key d; ok_or (missing key) (record_file f));
  M_reject_if ((length_z l =? 0) || (MAXIMUM_RECORD_BYTES <? length_z l))
    (Failed (Integrity "directory volume record is not a bounded regular file"));;
  checked (map_err (λ error, Integrity ("decode volume record: " +:+ error)) (record_parse l)).

(** ** Identities *)

Definition length_prefixed (s : string) : list ascii := Envelope.Envelope.be_bytes 8 (len s) ++ bytes s.
Definition volume_key_preimage (tenant workspace volume : string) : list ascii :=
  bytes "runtrue-sandboxd/directory-volume/v1" ++ [zero] ++ length_prefixed tenant ++ length_prefixed workspace ++ length_prefixed volume.
Definition volume_key_values (tenant workspace volume : string) : string := hash_hex (volume_key_preimage tenant workspace volume).
Definition volume_key (scope : VolumeScope) (volume : string) : string :=
  volume_key_values (as_str (scope_tenant scope)) (as_str (scope_workspace scope)) volume.
Definition attachment_key (h : VolumeHandle) (owner : AttachmentOwner) (destination : string) : string :=
  hash_hex (bytes "runtrue-sandboxd/directory-attachment/v1" ++ [zero]
            ++ concat (length_prefixed <$> [handle_key h; as_str (owner_sandbox owner); as_str (owner_container owner); destination])).
Definition new_handle (scope : VolumeScope) (spec : VolumeSpec) (key : string) : VolumeHandle :=
  MkHandle DIRECTORY_VOLUME_PROVIDER_ID key scope (volume_id spec) (persistence_class spec) (quota_bytes spec) (content_digest spec).
Definition named (h : VolumeHandle) : bool := bool_decide (handle_provider h = DIRECTORY_VOLUME_PROVIDER_ID).
Definition named_class (c : VolumePersistenceClass) : bool := match c with Ephemeral | Persistent => true | _ => false end.

(** ** Records *)

Definition validate_record (r : VolumeRecord) (scope : VolumeScope) (spec : VolumeSpec) (key : string) : result VolumeError () :=
  reject_if (negb (record_schema_version r =? RECORD_VERSION) || negb (bool_decide (record_provider r = DIRECTORY_VOLUME_PROVIDER_ID))
             || negb (bool_decide (record_key r = key)) || negb (bool_decide (record_tenant r = as_str (scope_tenant scope)))
             || negb (bool_decide (record_workspace r = as_str (scope_workspace scope)))
             || negb (bool_decide (record_volume r = as_str (volume_id spec)))
             || negb (bool_decide (record_class r = persistence_class spec)) || negb (record_quota r =? quota_bytes spec)
             || (32 <? Z.of_nat (size (attachments r))))
    (Integrity "directory volume metadata does not match its identity").

Definition validate_stored_record (r : VolumeRecord) (key : string) : result VolumeError () :=
  reject_if (negb (record_schema_version r =? RECORD_VERSION) || negb (bool_decide (record_provider r = DIRECTORY_VOLUME_PROVIDER_ID))
             || negb (bool_decide (record_key r = key))
             || negb (bool_decide (volume_key_values (record_tenant r) (record_workspace r) (record_volume r) = key))
             || negb (named_class (record_class r)) || (record_quota r <? MINIMUM_NAMED_VOLUME_BYTES)
             || (32 <? Z.of_nat (size (attachments r))))
    (Integrity "stored directory volume record is inconsistent").

Definition handle_spec (h : VolumeHandle) : VolumeSpec :=
  MkVolume VOLUME_SPEC_VERSION (handle_volume h) "/volume" false (handle_class h) BestEffort (handle_quota h) (handle_digest h).

Definition validate_handle (h : VolumeHandle) : V VolumeRecord :=
  M_reject_if (negb (named h) || negb (bool_decide (handle_key h = volume_key (handle_scope h) (as_str (handle_volume h)))))
    (Failed (AccessDenied "volume handle belongs to another provider"));;
  r ← read_record (handle_key h);
  checked (validate_record r (handle_scope h) (handle_spec h) (handle_key h));;
  mret r.

Definition attachment_record (owner : AttachmentOwner) (dest : string) (ro : bool) : AttachmentRecord :=
  MkAttachmentRecord (as_str (owner_sandbox owner)) (as_str (owner_container owner)) dest ro.

Definition validate_attachment (a : VolumeAttachment) : V VolumeRecord :=
  r ← validate_handle (attachment_handle a);
  M_reject_if (negb (bool_decide (attachments r !! attachment_id a =
                       Some (attachment_record (attachment_owner a) (attachment_destination a) (attachment_read_only a)))))
    (Failed (AccessDenied "volume attachment does not match its provider record"));;
  mret r.

(** [validate_handle_spec] of [model.rs]. *)
Definition validate_handle_spec (h : VolumeHandle) (spec : VolumeSpec) : result VolumeError () :=
  map_err (λ error, Invalid (core_error_to_string error)) (validate spec);;
  reject_if (negb (bool_decide (handle_volume h = volume_id spec)) || negb (bool_decide (handle_class h = persistence_class spec))
             || negb (handle_quota h =? quota_bytes spec) || negb (bool_decide (handle_digest h = content_digest spec)))
    (Invalid "attachment specification does not match its volume handle").

(** ** Recovery of a directory *)

Definition reconcile_volume_metadata (key : string) : V () :=
  f ← reading (files_at key);
  match record_file f, pending_file f with
  | Some _, Some _ => remove_pending key;; host
  | Some _, None => mret tt
  | None, Some _ => rename_pending key;; host
  | None, None => M_fail (Failed (Integrity "directory volume metadata is missing"))
  end.

Definition remove_restoring (key : string) : V () :=
  call (λ d, files_at key d;; mret tt) (at_key key (set_restoring None)) (λ n, at_key key (λ f, set_restoring (prune n <$> restoring f) f)).
Definition remove_replaced (key : string) : V () :=
  call (λ d, files_at key d;; mret tt) (at_key key (set_replaced None)) (λ n, at_key key (λ f, set_replaced (prune n <$> replaced f) f)).
(** [fs::rename] of one directory to another, which is not there or is empty. *)
Definition is_empty (item : Item) : bool := match item with Folder _ [] => true | _ => false end.
Definition rename_data (key : string) (from to : Files → option Item) (moved : Files → Files) : V () :=
  call (λ d, f ← files_at key d; ok_or (missing key) (from f);;
             reject_if (match to f with Some item => negb (is_empty item) | None => false end) (occupied key))
    (at_key key moved) (λ _ d, d).
Definition rename_replaced (key : string) : V () := rename_data key replaced data (λ f, set_replaced None (set_data (replaced f) f)).
Definition rename_to_replaced (key : string) : V () := rename_data key data replaced (λ f, set_data None (set_replaced (data f) f)).
Definition rename_restoring (key : string) : V () := rename_data key restoring data (λ f, set_restoring None (set_data (restoring f) f)).

Definition has (file : Files → option Item) (key : string) (d : D) : bool := bool_decide (is_Some (d !! key ≫= file)).

Definition reconcile_data_directory (key : string) : V () :=
  unpacking ← exists_now (has restoring key);
  (if unpacking : bool then remove_restoring key else mret tt);;
  present ← exists_now (has data key);
  (if present : bool then
     old ← exists_now (has replaced key);
     if old : bool then remove_replaced key else mret tt
   else
     old ← exists_now (has replaced key);
     if old : bool then rename_replaced key
     else M_fail (Failed (Integrity "directory volume has no recoverable data root")));;
  reading (λ d, f ← files_at key d; ok_or (missing key) (data f);; mret tt).

(** ** Operations *)

Definition new_record (scope : VolumeScope) (spec : VolumeSpec) (key : string) : VolumeRecord :=
  MkRecord RECORD_VERSION DIRECTORY_VOLUME_PROVIDER_ID key (as_str (scope_tenant scope)) (as_str (scope_workspace scope))
    (as_str (volume_id spec)) (persistence_class spec) (quota_bytes spec) false ∅.

Definition create_data (key : string) : V () :=
  call (λ d, f ← files_at key d; reject_if (bool_decide (is_Some (data f))) (occupied key)) (at_key key (set_data (Some (Folder false [])))) (λ _ d, d).

(** What is undone when it fails. *)
Definition initialize (scope : VolumeScope) (spec : VolumeSpec) (key : string) : V () :=
  create_data key;;
  host;;
  write_record_new key (new_record scope spec key);;
  host;;
  host.

Definition create_named (scope : VolumeScope) (spec : VolumeSpec) : V VolumeHandle :=
  M_reject_if (negb (gofer_access self) || negb (ownership_restore self))
    (Failed (Unsupported "named writable volumes require CHOWN and DAC_OVERRIDE or an idmapped storage backend"));;
  checked (map_err (λ error, Invalid (core_error_to_string error)) (validate spec));;
  M_reject_if (negb (named_class (persistence_class spec))
               || negb ((minimum_quota_bytes self <=? quota_bytes spec) && (quota_bytes spec <=? maximum_quota_bytes self)))
    (Failed (Unsupported "directory provider accepts bounded ephemeral or persistent volumes"));;
  let key := volume_key scope (as_str (volume_id spec)) in
  found ← exists_now (λ d, bool_decide (is_Some (d !! key)));
  if (found : bool) then
    reconcile_volume_metadata key;;
    reconcile_data_directory key;;
    r ← read_record key;
    checked (validate_record r scope spec key);;
    M_reject_if (negb (bool_decide (persistence_class spec = Persistent)) || frozen r || negb (bool_decide (attachments r = ∅)))
      (Failed (AlreadyExists (as_str (volume_id spec))));;
    mret (new_handle scope spec key)
  else
    create_directory (as_str (volume_id spec)) key;;
    host;;
    or_undo (initialize scope spec key) (remove_directory key);;
    mret (new_handle scope spec key).

Definition create (scope : VolumeScope) (spec : VolumeSpec) : V VolumeHandle :=
  if named_class (persistence_class spec) then create_named scope spec else with_auxiliary (aux_create scope spec).

Definition attach (h : VolumeHandle) (owner : AttachmentOwner) (spec : VolumeSpec) : V VolumeAttachment :=
  if negb (named h) then with_auxiliary (aux_attach h owner spec)
  else
    checked (validate_handle_spec h spec);;
    r ← validate_handle h;
    M_reject_if (frozen r || (32 <=? Z.of_nat (size (attachments r))))
      (Failed (Invalid "directory volume is frozen or at its attachment limit"));;
    let id := attachment_key h owner (destination spec) in
    let record := attachment_record owner (destination spec) (read_only spec) in
    M_reject_if (match attachments r !! id with Some existing => negb (bool_decide (existing = record)) | None => false end)
      (Failed (AccessDenied "volume attachment identity collision"));;
    replace_record (handle_key h) (set_attachments (<[id := record]> (attachments r)) r);;
    mret (MkAttachment h id owner (destination spec) (read_only spec) (snapshot_policy spec)).

Definition mount (a : VolumeAttachment) : V MountedVolume :=
  if negb (named (attachment_handle a)) then with_auxiliary (aux_mount a)
  else
    r ← validate_attachment a;
    M_reject_if (frozen r) (Failed (Invalid "cannot mount a frozen directory volume"));;
    let key := handle_key (attachment_handle a) in
    reading (λ d, f ← files_at key d; ok_or (missing key) (data f);; mret tt);;
    mret (MkMounted a (root self +:+ "/" +:+ key +:+ "/data")).

Definition detach (a : VolumeAttachment) : V () :=
  if negb (named (attachment_handle a)) then with_auxiliary (aux_detach a)
  else
    r ← validate_attachment a;
    replace_record (handle_key (attachment_handle a)) (set_attachments (delete (attachment_id a) (attachments r)) r).

Definition freeze (a : VolumeAttachment) : V () :=
  if negb (named (attachment_handle a)) then with_auxiliary (aux_freeze a)
  else
    M_reject_if (negb (ownership_restore self))
      (Failed (Unsupported "directory snapshots require CHOWN or an idmapped storage backend"));;
    r ← validate_attachment a;
    replace_record (handle_key (attachment_handle a)) (set_frozen true r).

Definition thaw (a : VolumeAttachment) : V () :=
  if negb (named (attachment_handle a)) then with_auxiliary (aux_thaw a)
  else
    r ← validate_attachment a;
    replace_record (handle_key (attachment_handle a)) (set_frozen false r).

Definition unmount (m : MountedVolume) : V () := detach (mounted_attachment m).

(** The snapshot and the archive that is at [destination] after it. *)
Definition snapshot (a : VolumeAttachment) (destination : string) (destination_exists : bool) (elapsed : nat → Z) :
    V (VolumeSnapshot * list ascii) :=
  let h := attachment_handle a in
  if negb (named h) then with_auxiliary (aux_snapshot a destination)
  else
    r ← validate_attachment a;
    M_reject_if (negb (frozen r) || negb (ownership_restore self))
      (Failed (Unsupported "directory volume snapshot ownership is unavailable"));;
    tree ← reading (λ d, f ← files_at (handle_key h) d; ok_or (missing (handle_key h)) (data f));
    archive ← checked (export_directory tree destination_exists destination (record_quota r) (operation_timeout self) elapsed);
    host;;
    '(digest, size) ← checked (digest_file (Ok archive));
    mret (MkSnapshot SNAPSHOT_VERSION DIRECTORY_VOLUME_PROVIDER_ID (handle_volume h) (record_class r) digest size (record_quota r)
            SNAPSHOT_FORMAT CrossWorkerSameBackend, archive).

Definition incompatibility (spec : VolumeSpec) (s : VolumeSnapshot) : option string :=
  if negb (gofer_access self) then Some "DAC_OVERRIDE is unavailable"%string
  else if negb (ownership_restore self) then Some "CHOWN or idmapped ownership restore is unavailable"%string
  else if negb (vs_schema_version s =? SNAPSHOT_VERSION) then Some "snapshot schema version does not match"%string
  else if negb (bool_decide (vs_provider s = DIRECTORY_VOLUME_PROVIDER_ID)) then Some "snapshot provider does not match"%string
  else if negb (bool_decide (vs_volume s = volume_id spec)) then Some "snapshot volume identity does not match"%string
  else if negb (bool_decide (vs_class s = persistence_class spec)) then Some "snapshot persistence class does not match"%string
  else if negb (vs_quota s =? quota_bytes spec) then Some "snapshot quota does not match"%string
  else if negb (bool_decide (vs_format s = SNAPSHOT_FORMAT)) then Some "snapshot format does not match"%string
  else if negb (permits_cross_worker (vs_portability s)) then Some "snapshot is not portable across workers"%string
  else None.

Definition create_restoring (key : string) : V () :=
  call (λ d, f ← files_at key d; reject_if (bool_decide (is_Some (restoring f))) (occupied key))
    (at_key key (set_restoring (Some (Folder false [])))) (λ _ d, d).
Definition unpack_restoring (key : string) (archive : list ascii) : V () :=
  call (λ d, files_at key d;; mret tt) (at_key key (set_restoring (Some (unpack archive).1)))
    (λ n, at_key key (set_restoring (Some (prune n (unpack archive).1))));;
  checked (unpack archive).2.

(** The second rename, which takes the first one back when it fails. *)
Definition rename_or_roll_back (key : string) : V () :=
  λ w, match rename_restoring key w with
       | (w', Err (Failed error)) =>
           match rename_replaced key w' with
           | (w'', Ok tt) => (w'', Err (Failed error))
           | (w'', Err (Failed _)) => (w'', Err (Failed (Integrity "volume restore failed and rollback failed")))
           | (w'', Err Stopped) => (w'', Err Stopped)
           end
       | result => result
       end.

Definition restore_data (key : string) (source : result VolumeError (list ascii)) : V () :=
  create_restoring key;;
  archive ← checked source;
  unpack_restoring key archive;;
  host;;
  rename_to_replaced key;;
  rename_or_roll_back key;;
  host;;
  remove_replaced key;;
  host.

(** [source] is what the file holds the first, second and third time it is opened. *)
Definition restore (scope : VolumeScope) (spec : VolumeSpec) (s : VolumeSnapshot) (path : string)
    (source : nat → result VolumeError (list ascii)) (elapsed : nat → Z) : V VolumeHandle :=
  if negb (named_class (persistence_class spec)) then with_auxiliary (aux_restore scope spec s path)
  else
    match incompatibility spec s with
    | Some reason => M_fail (Failed (Unsupported ("directory volume restore is unavailable: " +:+ reason)))
    | None =>
        '(digest, size) ← checked (digest_file (source 0%nat));
        M_reject_if (negb (bool_decide (digest = vs_digest s)) || negb (size =? vs_size s)
                     || (u64_saturating_mul (quota_bytes spec) 2 <? size))
          (Failed (Integrity "directory volume snapshot content changed"));;
        checked (validate_archive (source 1%nat) (quota_bytes spec) (operation_timeout self) elapsed);;
        h ← create_named scope spec;
        or_undo (restore_data (handle_key h) (source 2%nat)) (remove_restoring (handle_key h));;
        mret h
    end.

Definition delete_volume (h : VolumeHandle) : V () :=
  if negb (named h) then with_auxiliary (aux_delete h)
  else
    r ← validate_handle h;
    M_reject_if (negb (bool_decide (attachments r = ∅)) || frozen r) (Failed (Invalid "cannot delete an attached or frozen volume"));;
    if bool_decide (record_class r = Persistent) then mret tt
    else
      remove_directory (handle_key h);;
      host.

Definition valid_key (key : string) : bool := (len key =? 64) && all_bytes is_lowercase_hex key.

Definition count_attachments (n : Z) (r : VolumeCleanupReport) : VolumeCleanupReport :=
  MkReport (cleared_attachments r + n) (removed_ephemeral_volumes r) (retained_persistent_volumes r) (removed_secret_volumes r).
Definition count_ephemeral (r : VolumeCleanupReport) : VolumeCleanupReport :=
  MkReport (cleared_attachments r) (removed_ephemeral_volumes r + 1) (retained_persistent_volumes r) (removed_secret_volumes r).
Definition count_persistent (r : VolumeCleanupReport) : VolumeCleanupReport :=
  MkReport (cleared_attachments r) (removed_ephemeral_volumes r) (retained_persistent_volumes r + 1) (removed_secret_volumes r).

(** The body of the loop over the entries of the root. *)
Definition cleanup_entry (key : string) (report : VolumeCleanupReport) : V VolumeCleanupReport :=
  reading (λ d, files_at key d;; mret tt);;
  M_reject_if (negb (valid_key key)) (Failed (Integrity ("unexpected directory volume entry `" +:+ key +:+ "`")));;
  reconcile_volume_metadata key;;
  r ← read_record key;
  checked (validate_stored_record r key);;
  reconcile_data_directory key;;
  let report := count_attachments (Z.of_nat (size (attachments r))) report in
  let r' := set_frozen false (set_attachments ∅ r) in
  if bool_decide (record_class r' = Ephemeral) then
    remove_directory key;;
    host;;
    mret (count_ephemeral report)
  else
    replace_record key r';;
    mret (count_persistent report).

Fixpoint cleanup_entries (keys : list string) (report : VolumeCleanupReport) : V VolumeCleanupReport :=
  match keys with
  | [] => mret report
  | key :: rest => report' ← cleanup_entry key report; cleanup_entries rest report'
  end.

Definition cleanup : V VolumeCleanupReport :=
  report ← with_auxiliary aux_cleanup;
  keys ← reading (λ d, Ok (btree_keys d));
  cleanup_entries keys report.

Definition invalid_configuration (absolute : bool) : bool :=
  negb absolute || (minimum_quota_bytes self <? MINIMUM_NAMED_VOLUME_BYTES) || (maximum_quota_bytes self <? minimum_quota_bytes self)
  || (operation_timeout self <=? 0) || (3600 <? operation_timeout self).

(** [self] is the configuration with the capabilities that were found; the root is [owned] by the worker. *)
Definition open (owned : bool) : V () :=
  M_reject_if (invalid_configuration (starts_with "/" (root self)))
    (Failed (Invalid "directory volume provider configuration is invalid"));;
  host;;
  M_reject_if (negb owned) (Failed (AccessDenied "directory volume root must be owned by the worker identity"));;
  host;;
  cleanup;;
  mret tt.

Definition capabilities : VolumeProviderCapabilities :=
  MkCapabilities ([Artifact; Secret] ++ (if gofer_access self && ownership_restore self then [Ephemeral; Persistent] else []))
    (gofer_access self && ownership_restore self) false CrossWorkerSameBackend.
End code.
End DirectoryVolume.
