(* ===== verification/DirectoryVolumeProofs.v ===== *)
(** * What the directory provider keeps

    Lemmas on [DirectoryVolume]: an operation touches the directory of its volume
    only; whatever is interrupted, a volume that has a record and data keeps them;
    what opening the provider leaves. *)
From S2P Require Import Prelude Identity Volume Envelope VolumeArchive DirectoryVolume.
Import Volume.Volume VolumeArchive.VolumeArchive DirectoryVolume.DirectoryVolume.

(** A destination that JSON writes without escapes. *)
Definition plain_byte (c : ascii) : bool := (32 <=? code c) && negb (code c =? 34) && negb (code c =? 92).

(** The records whose encoding is below the limit of [read_record]. *)
Record attachment_fits (id : string) (a : AttachmentRecord) : Prop := {
  fits_id : len id ≤ 64;
  fits_sandbox : len (record_sandbox a) ≤ 64;
  fits_container : len (record_container a) ≤ 64;
  fits_destination : len (record_destination a) ≤ 4096;
  fits_plain : all_bytes plain_byte (record_destination a) = true
}.
Record fits (r : VolumeRecord) : Prop := {
  fits_version : record_schema_version r = RECORD_VERSION;
  fits_provider : record_provider r = DIRECTORY_VOLUME_PROVIDER_ID;
  fits_key : len (record_key r) ≤ 64;
  fits_tenant : len (record_tenant r) ≤ 64;
  fits_workspace : len (record_workspace r) ≤ 64;
  fits_volume : len (record_volume r) ≤ 64;
  fits_quota : in_u64 (record_quota r);
  fits_count : Z.of_nat (size (attachments r)) ≤ 32;
  fits_attachments : map_Forall attachment_fits (attachments r)
}.

(** [serde_json]: a record is read as it was written, and a small one has a small encoding.  SHA-256 in hexadecimal. *)
Class RecordLaws `{ArchiveCodec, RecordCodec} : Prop := {
  record_stored r : fits r → ∃ l, record_json r = Ok l ∧ record_parse l = Ok r ∧ 0 < length_z l ≤ MAXIMUM_RECORD_BYTES;
  hash_valid l : valid_key (hash_hex l) = true
}.

Section frame.
Context {X : Type} `{ArchiveCodec, RecordCodec, Auxiliary X} (prune : nat → Item → Item) (self : DirectoryVolumeConfig).

(** Only the directory [k] may differ. *)
Definition same_except (k : string) (w w' : World X) : Prop := ∀ key, key ≠ k → directories w' !! key = directories w !! key.
#[global] Instance same_except_preorder k : PreOrder (same_except k).
Proof. split; [by intros w key Hk|]. intros a b c Hab Hbc key Hk. rewrite Hbc by done. by apply Hab. Qed.

Lemma call_touches {A} k (answer : gmap string Files → result VolumeError A) effect partway :
  (∀ d key, key ≠ k → effect d !! key = d !! key) → (∀ n d key, key ≠ k → partway n d !! key = d !! key) →
  keeps (same_except k) (call (X := X) answer effect partway).
Proof.
  intros He Hp w key Hk. unfold call. destruct (answer (directories w)) as [a|e]; [|done].
  destruct (next_event w) as [[[|n|] ending]|]; cbn; auto.
Qed.

Lemma at_key_other k f (d : gmap string Files) key : key ≠ k → at_key k f d !! key = d !! key.
Proof. intros Hk. by apply lookup_alter_ne. Qed.

Lemma reading_keeps {A} k (answer : gmap string Files → result VolumeError A) : keeps (same_except k) (reading (X := X) answer).
Proof. by apply call_touches. Qed.

Lemma ignoring_keeps k (c : M (World X) Outcome ()) : keeps (same_except k) c → keeps (same_except k) (ignoring c).
Proof. intros Hc w. specialize (Hc w). unfold ignoring. by destruct (c w) as [w' [a|[e|]]]. Qed.

Lemma or_undo_keeps k (c undo : M (World X) Outcome ()) :
  keeps (same_except k) c → keeps (same_except k) undo → keeps (same_except k) (or_undo c undo).
Proof.
  intros Hc Hu w. specialize (Hc w). unfold or_undo. destruct (c w) as [w' [a|[e|]]]; try done. cbn [fst] in Hc.
  etrans; [exact Hc|]. apply keeps_bind; [apply _|by apply ignoring_keeps|intros _; apply keeps_fail, _].
Qed.

Lemma auxiliary_keeps {A} k (c : M X VolumeError A) : keeps (same_except k) (with_auxiliary c).
Proof. intros w key _. unfold with_auxiliary. by destruct (c (auxiliary w)). Qed.

Lemma exists_keeps k there : keeps (same_except k) (exists_now (X := X) there).
Proof. intros w. reflexivity. Qed.

Lemma roll_back_keeps k : keeps (same_except k) (rename_or_roll_back (X := X) k).
Proof.
  intros w. unfold rename_or_roll_back.
  assert (∀ from to moved, keeps (same_except k) (rename_data (X := X) k from to (moved : Files → Files))) as Hr
    by (intros from to moved; apply call_touches; auto using at_key_other).
  pose proof (Hr restoring data (λ f, set_restoring None (set_data (restoring f) f)) w) as Hfirst. fold (rename_restoring (X := X) k w) in Hfirst.
  destruct (rename_restoring k w) as [w' [a|[e|]]]; try done.
  pose proof (Hr replaced data (λ f, set_replaced None (set_data (replaced f) f)) w') as Hsecond. fold (rename_replaced (X := X) k w') in Hsecond.
  destruct (rename_replaced k w') as [w'' [[]|[e'|]]]; by etrans.
Qed.

End frame.

(** Operations are sequences of calls on one directory. *)
Ltac touching :=
  repeat first
    [ apply keeps_bind; [apply _| |intros ?]
    | apply keeps_ret, _ | apply keeps_fail, _ | apply keeps_lift, _ | apply keeps_reject, _
    | apply reading_keeps | apply exists_keeps | apply auxiliary_keeps | apply roll_back_keeps
    | apply or_undo_keeps
    | apply call_touches; intros; (done || by apply at_key_other || by apply lookup_insert_ne || by apply lookup_delete_ne)
    | match goal with |- keeps _ (let _ := _ in _) => cbn zeta end
    | match goal with
      | |- keeps _ (if ?b then _ else _) => destruct b
      | |- keeps _ (match ?x with _ => _ end) => destruct x
      end
    | match goal with |- keeps _ ?c => let h := get_head c in progress unfold h end ].

Section frames.
Context {X : Type} `{ArchiveCodec, RecordCodec, Auxiliary X} (prune : nat → Item → Item) (self : DirectoryVolumeConfig).

Lemma create_named_key scope spec (w w' : World X) h :
  create_named prune self scope spec w = (w', Ok h) → handle_key h = volume_key scope (as_str (volume_id spec)).
Proof.
  unfold create_named. intros Hc. inv_ok Hc. cbn zeta in Hc. inv_ok Hc. destruct a2; inv_ok Hc; by injection Hc as _ <-.
Qed.

Lemma restore_keeps scope spec s path source elapsed :
  keeps (same_except (volume_key scope (as_str (volume_id spec)))) (restore (X := X) prune self scope spec s path source elapsed).
Proof.
  unfold restore. destruct (negb _); [apply auxiliary_keeps|]. destruct (incompatibility _ _ _); [apply keeps_fail, _|].
  apply keeps_bind; [apply _|apply keeps_lift, _|]. intros [digest size]. apply keeps_bind; [apply _|apply keeps_reject, _|]. intros u.
  apply keeps_bind; [apply _|apply keeps_lift, _|]. intros u'. apply keeps_bind_Ok; [apply _|touching|].
  intros w w' h Hh. apply create_named_key in Hh. rewrite Hh. revert w'. change (keeps (same_except (volume_key scope (as_str (volume_id spec))))
    (or_undo (X := X) (restore_data prune (volume_key scope (as_str (volume_id spec))) (source 2%nat)) (remove_restoring prune (volume_key scope (as_str (volume_id spec))));; mret h)).
  touching.
Qed.
End frames.

(** ** A volume that is kept *)

Abbreviation Identity := (string * string * string * VolumePersistenceClass * Z)%type.
Definition identity (r : VolumeRecord) : Identity :=
  (record_tenant r, record_workspace r, record_volume r, record_class r, record_quota r).

Section kept.
Context {X : Type} `{ArchiveCodec, RecordCodec, Auxiliary X} `{!RecordLaws} (prune : nat → Item → Item) (self : DirectoryVolumeConfig).
Context (k : string) (id : Identity).

Record good (r : VolumeRecord) : Prop := {
  good_fits : fits r;
  good_key : record_key r = k;
  good_identity : identity r = id
}.

(** The directory has the record of the volume. *)
Definition recorded (f : Files) : Prop := ∃ r l, record_file f = Some l ∧ record_json r = Ok l ∧ good r.
(** Assertions on the three directories of data. *)
Abbreviation Data := (option Item → option Item → option Item → Prop).
Implicit Types D : Data.
Definition full D (w : World X) : Prop := ∃ f, directories w !! k = Some f ∧ recorded f ∧ D (data f) (restoring f) (replaced f).

Lemma call_full {A} D (answer : gmap string Files → result VolumeError A) effect partway (Q : A → Data) (F : Data) :
  (∀ d f, d !! k = Some f → recorded f → D (data f) (restoring f) (replaced f) →
     F (data f) (restoring f) (replaced f) ∧
     ∀ a, answer d = Ok a →
       (∃ f', effect d !! k = Some f' ∧ recorded f' ∧ Q a (data f') (restoring f') (replaced f') ∧ F (data f') (restoring f') (replaced f')) ∧
       ∀ n, ∃ f', partway n d !! k = Some f' ∧ recorded f' ∧ F (data f') (restoring f') (replaced f')) →
  triple (full D) (call answer effect partway) (λ a, full (Q a)) (λ _, full F).
Proof.
  intros Hc w (f & Hf & Hr & HD). destruct (Hc _ f Hf Hr HD) as [HF Hok]. unfold call.
  destruct (answer (directories w)) as [a|e]; [|by exists f]. destruct (Hok a eq_refl) as [(f' & Hf' & Hr' & HQ & HF') Hpart].
  destruct (next_event w) as [[[|n|] ending]|]; [by exists f|apply Hpart|by exists f'|by exists f'].
Qed.

Lemma reading_full {A} D (answer : gmap string Files → result VolumeError A) (Q : A → Prop) :
  (∀ d f a, d !! k = Some f → recorded f → answer d = Ok a → Q a) →
  triple (full D) (reading answer) (λ a w, Q a ∧ full D w) (λ _, full D).
Proof.
  intros Hq w Hw. pose proof Hw as (f & Hf & Hr & HD). unfold reading, call. destruct (answer (directories w)) as [a|e] eqn:Ha; [|done].
  specialize (Hq _ _ _ Hf Hr Ha). destruct (next_event w) as [[[|n|] ending]|]; done.
Qed.

Lemma host_full D : triple (full D) host (λ _, full D) (λ _, full D).
Proof. intros w Hw. pose proof (reading_full D (λ _, Ok tt) (λ _, True) (λ _ _ _ _ _ _, I) w Hw) as Hh. unfold host. by destruct (reading _ w) as [w' [a|e]]; [destruct Hh|]. Qed.

Lemma triple_lift {A} (P : World X → Prop) (r : result Outcome A) Q (F : Outcome → World X → Prop) :
  (∀ w a, P w → r = Ok a → Q a w) → (∀ w e, P w → F e w) → triple P (M_lift r) Q F.
Proof. intros HQ HF w Hw. unfold M_lift. destruct r; auto. Qed.

Lemma triple_reject (P : World X → Prop) guard (e : Outcome) (F : Outcome → World X → Prop) :
  (∀ w e, P w → F e w) → triple P (M_reject_if guard e) (λ _ w, guard = false ∧ P w) F.
Proof. intros HF w Hw. unfold M_reject_if. destruct guard; auto. Qed.

Lemma triple_pure {A} (Q : Prop) (P : World X → Prop) (c : M (World X) Outcome A) R F :
  (Q → triple P c R F) → triple (λ w, Q ∧ P w) c R F.
Proof. intros Hc w [HQ Hw]. by apply Hc. Qed.

Lemma triple_weaken {A} (P P' : World X → Prop) (c : M (World X) Outcome A) (Q Q' : A → World X → Prop) (F F' : Outcome → World X → Prop) :
  triple P c Q F → (∀ w, P' w → P w) → (∀ a w, Q a w → Q' a w) → (∀ e w, F e w → F' e w) → triple P' c Q' F'.
Proof. intros Hc HP HQ HF w Hw. specialize (Hc w (HP w Hw)). destruct (c w) as [w' [a|e]]; auto. Qed.

Lemma triple_if {A} (b : bool) P (c c' : M (World X) Outcome A) Q F :
  (b = true → triple P c Q F) → (b = false → triple P c' Q F) → triple P (if b then c else c') Q F.
Proof. destruct b; auto. Qed.

Lemma ignoring_full P (c : M (World X) Outcome ()) : triple P c (λ _, P) (λ _, P) → triple P (ignoring c) (λ _, P) (λ _, P).
Proof. intros Hc w Hw. specialize (Hc w Hw). unfold ignoring. by destruct (c w) as [w' [a|[e|]]]. Qed.

Lemma or_undo_full P Q F (c undo : M (World X) Outcome ()) :
  triple P c Q (λ _, F) → triple F undo (λ _, F) (λ _, F) → triple P (or_undo c undo) Q (λ _, F).
Proof.
  intros Hc Hu w Hw. specialize (Hc w Hw). unfold or_undo. destruct (c w) as [w' [a|[e|]]]; try done.
  unfold mbind, M_bind. pose proof (ignoring_full _ _ Hu w' Hc) as Hi. by destruct (ignoring undo w') as [w'' [a|e']].
Qed.

(** ** Records of a volume that is kept *)

Lemma good_stored r : good r → ∃ l, record_json r = Ok l ∧ record_parse l = Ok r ∧ 0 < length_z l ≤ MAXIMUM_RECORD_BYTES.
Proof. intros [Hf _ _]. by apply record_stored. Qed.

Lemma read_record_full D : triple (full D) (read_record k) (λ r w, good r ∧ full D w) (λ _, full D).
Proof.
  apply (triple_bind _ _ _ (λ l w, (∃ r, record_parse l = Ok r ∧ good r) ∧ full D w)).
  - apply reading_full. intros d f l Hf (r & l' & Hl & Hj & Hg) Ha. unfold files_at in Ha. rewrite Hf in Ha. cbn in Ha.
    apply ok_or_Ok in Ha. simplify_eq. destruct (good_stored r Hg) as (l2 & Hj' & Hp & _). rewrite Hj in Hj'. apply Ok_inj in Hj' as <-.
    by exists r.
  - intros l. apply triple_pure. intros (r & Hp & Hg). eapply triple_bind; [by apply triple_reject|]. intros u. apply triple_pure. intros _.
    apply triple_lift; [|done]. intros w r' Hw Hr. rewrite Hp in Hr. cbn in Hr. injection Hr as <-. done.
Qed.

Lemma at_key_same g (d : gmap string Files) f : d !! k = Some f → at_key k g d !! k = Some (g f).
Proof. intros Hf. unfold at_key. by rewrite lookup_alter_eq, Hf. Qed.

(** Writing, renaming and removing [volume.json.new]. *)
Definition pending_full (D : Data) (w : World X) : Prop :=
  ∃ f r l, directories w !! k = Some f ∧ recorded f ∧ D (data f) (restoring f) (replaced f) ∧
    pending_file f = Some l ∧ record_json r = Ok l ∧ good r.

Lemma write_pending D r : good r → triple (full D) (write_json k pending_file set_pending r) (λ _, pending_full D) (λ _, full D).
Proof.
  intros Hg. destruct (good_stored r Hg) as (l & Hl & _). unfold write_json. rewrite Hl. cbn [map_err]. intros w (f & Hf & Hr & HD).
  unfold mbind, M_bind, checked, M_lift. cbn [map_err]. unfold call, files_at. rewrite Hf. cbn [ok_or mbind result_bind].
  destruct (reject_if _ _) as [[]|e]; [|by exists f].
  destruct (next_event w) as [[[|n|] ending]|]; cbn [proceed directories].
  - by exists f.
  - exists (set_pending (Some (take n l)) f). by split; [apply at_key_same|].
  - exists (set_pending (Some l) f). by split; [apply at_key_same|].
  - exists (set_pending (Some l) f), r, l. by split; [apply at_key_same|].
Qed.

Lemma rename_pending_full D : triple (pending_full D) (rename_pending k) (λ _, full D) (λ _, full D).
Proof.
  intros w (f & r & l & Hf & Hr & HD & Hp & Hl & Hg). unfold rename_pending, call, files_at. rewrite Hf.
  cbn [ok_or mbind result_bind]. rewrite Hp. cbn [ok_or mbind result_bind mret result_ret].
  assert (full D (proceed (at_key k (λ f, set_pending None (set_record (pending_file f) f)) (directories w)) w)) as Hdone.
  { eexists. split; [by apply at_key_same|]. rewrite Hp. split; [by exists r, l|done]. }
  assert (full D (proceed (directories w) w)) as Hnot by by exists f.
  by destruct (next_event w) as [[[|n|] ending]|].
Qed.

Lemma remove_pending_full D : triple (full D) (remove_pending k) (λ _, full D) (λ _, full D).
Proof.
  apply call_full. intros d f Hf Hr HD. split; [done|]. intros a _. split; [|by intros _; exists f].
  exists (set_pending None f). by split; [apply at_key_same|].
Qed.

Lemma replace_record_full D r : good r → triple (full D) (replace_record k r) (λ _, full D) (λ _, full D).
Proof.
  intros Hg. eapply triple_bind; [by apply write_pending|]. intros u. eapply triple_bind; [|intros u'; apply host_full].
  apply or_undo_full; [apply rename_pending_full|apply remove_pending_full].
Qed.

Lemma reconcile_metadata_full D : triple (full D) (reconcile_volume_metadata k) (λ _, full D) (λ _, full D).
Proof.
  eapply triple_bind.
  - apply (reading_full D _ (λ f, is_Some (record_file f))). intros d f f' Hf (r & l & Hl & _) Ha. unfold files_at in Ha.
    rewrite Hf in Ha. injection Ha as <-. by rewrite Hl.
  - intros f. apply triple_pure. intros [l ->]. destruct (pending_file f); [|by apply triple_ret].
    eapply triple_bind; [apply remove_pending_full|intros u; apply host_full].
Qed.

(** ** Its data *)

(** The data is there, or where a restore put it. *)
Definition stored (t : Item) : Data := λ a _ o, a = Some t ∨ (a = None ∧ o = Some t).
(** The data is there and nothing else. *)
Definition ready (t : Item) : Data := λ a r o, a = Some t ∧ r = None ∧ o = None.

Lemma full_weaken D (D' : Data) : (∀ a r o, D a r o → D' a r o) → ∀ w, full D w → full D' w.
Proof. intros HD w (f & Hf & Hr & Hd). exists f. split_and!; [done|done|by apply HD]. Qed.

Lemma exists_full D file (sel : option Item → option Item → option Item → option Item) :
  (∀ f, file f = sel (data f) (restoring f) (replaced f)) →
  triple (full D) (exists_now (has file k)) (λ b, full (λ a r o, D a r o ∧ bool_decide (is_Some (sel a r o)) = b)) (λ _, full D).
Proof.
  intros Hsel w (f & Hf & Hr & HD). exists f. split_and!; try done. rewrite <- Hsel. unfold has. by rewrite Hf.
Qed.

Lemma remove_restoring_full D (Q F : Data) :
  (∀ a r o, D a r o → Q a None o ∧ F a r o ∧ ∀ r', F a r' o) →
  triple (full D) (remove_restoring prune k) (λ _, full Q) (λ _, full F).
Proof.
  intros Hd. apply call_full. intros d f Hf Hr HD. destruct (Hd _ _ _ HD) as (HQ & HF & Hr'). split; [done|]. intros a _. split.
  - exists (set_restoring None f). split; [by apply at_key_same|]. by split_and!.
  - intros n. eexists. split; [by apply at_key_same|]. by split_and!.
Qed.

Lemma remove_replaced_full D (Q F : Data) :
  (∀ a r o, D a r o → Q a r None ∧ F a r o ∧ ∀ o', F a r o') →
  triple (full D) (remove_replaced prune k) (λ _, full Q) (λ _, full F).
Proof.
  intros Hd. apply call_full. intros d f Hf Hr HD. destruct (Hd _ _ _ HD) as (HQ & HF & Hr'). split; [done|]. intros a _. split.
  - exists (set_replaced None f). split; [by apply at_key_same|]. by split_and!.
  - intros n. eexists. split; [by apply at_key_same|]. by split_and!.
Qed.

(** The three renames. *)
Lemma rename_data_full D from to moved (Q F : Data) :
  (∀ f, recorded f → D (data f) (restoring f) (replaced f) → recorded (moved f) ∧ F (data f) (restoring f) (replaced f) ∧
     (is_Some (from f) → Q (data (moved f)) (restoring (moved f)) (replaced (moved f)) ∧
                         F (data (moved f)) (restoring (moved f)) (replaced (moved f)))) →
  triple (full D) (rename_data k from to moved) (λ _, full Q) (λ _, full F).
Proof.
  intros Hd. apply call_full. intros d f Hf Hr HD. destruct (Hd f Hr HD) as (Hrec & HF & Hm). split; [done|]. intros a Ha.
  split; [|by intros n; exists f]. unfold files_at in Ha. rewrite Hf in Ha. cbn [ok_or mbind result_bind] in Ha. inv_ok Ha.
  apply ok_or_Ok in Hstep. destruct Hm as [HQ HF']; [by eexists|]. exists (moved f). by split; [apply at_key_same|].
Qed.

Lemma reconcile_data_full t : triple (full (stored t)) (reconcile_data_directory prune k) (λ _, full (ready t)) (λ _, full (stored t)).
Proof.
  eapply triple_bind; [by apply (exists_full _ _ (λ _ r _, r))|]. intros b.
  apply (triple_bind _ _ _ (λ _, full (λ a r o, stored t a r o ∧ r = None))).
  { apply triple_if; intros ->.
    - apply remove_restoring_full. intros a r o [Hs _]. split_and!; done.
    - apply triple_ret. intros w (f & Hf & Hr & Hs & Hn). exists f. apply bool_decide_eq_false in Hn. split_and!; try done.
      by apply eq_None_not_Some. }
  intros u. eapply triple_bind.
  { eapply triple_weaken; [by eapply exists_full with (sel := λ a _ _, a)|intros w Hw; exact Hw|intros a w Hw; exact Hw|]. intros e w. apply full_weaken. cbn. tauto. }
  intros present. eapply (triple_bind _ _ _ (λ _, full (ready t))).
  2: { intros v. eapply triple_weaken; [by apply (reading_full (ready t) _ (λ _, True))|done| |].
       - by intros a w [_ Hw].
       - intros e w. apply full_weaken. intros a r o (-> & _). by left. }
  apply triple_if; intros ->; (eapply triple_bind; [eapply triple_weaken; [by eapply exists_full with (sel := λ _ _ o, o)|intros w Hw; exact Hw|intros a w Hw; exact Hw|];
    intros e w; apply full_weaken; cbn; tauto|]); intros old; apply triple_if; intros ->.
  - apply remove_replaced_full. intros a r o [[[Hs ->] Ha%bool_decide_eq_true] _]. destruct Hs as [->|[-> _]]; [|by destruct Ha].
    split_and!; [done|by left|by left].
  - apply triple_ret. intros w (f & Hf & Hr & [[Hs Hn] Ha%bool_decide_eq_true] & Ho%bool_decide_eq_false).
    exists f. split_and!; try done. destruct Hs as [Hs|[Hs _]]; [|rewrite Hs in Ha; by destruct Ha]. split_and!; try done.
    by apply eq_None_not_Some.
  - apply rename_data_full. intros f Hr [[[Hs Hn] Ha%bool_decide_eq_false] _]. split; [done|]. split; [done|]. intros _.
    destruct Hs as [Hs|[Hs Ho]]; [rewrite Hs in Ha; destruct Ha; by eexists|]. cbn. rewrite Ho. split; [done|by left].
  - apply triple_fail. intros w. apply full_weaken. cbn. tauto.
Qed.

(** ** Operations on it *)

Lemma frame_full {A} D k' (c : M (World X) Outcome A) : k ≠ k' → keeps (same_except k') c → triple (full D) c (λ _, full D) (λ _, full D).
Proof.
  intros Hk Hc w (f & Hf & Hr). specialize (Hc w k Hk). assert (full D (c w).1) as Hw by (exists f; by rewrite Hc).
  by destruct (c w) as [w' [a|e]].
Qed.

Lemma validate_handle_full D h : handle_key h = k → triple (full D) (validate_handle h) (λ r w, good r ∧ full D w) (λ _, full D).
Proof.
  intros Hk. eapply triple_bind; [by apply triple_reject|]. intros u. apply triple_pure. intros _. rewrite Hk.
  eapply triple_bind; [apply read_record_full|]. intros r. apply triple_pure. intros Hg.
  eapply triple_bind; [by apply triple_lift with (Q := λ _, full D)|]. intros u'. by apply triple_ret.
Qed.

Lemma validate_attachment_full D a :
  handle_key (attachment_handle a) = k → triple (full D) (validate_attachment a) (λ r w, good r ∧ full D w) (λ _, full D).
Proof.
  intros Hk. eapply triple_bind; [by apply validate_handle_full|]. intros r. apply triple_pure. intros Hg.
  eapply triple_bind; [by apply triple_reject|]. intros u. apply triple_pure. intros _. by apply triple_ret.
Qed.

Lemma good_attachments r m : good r → Z.of_nat (size m) ≤ 32 → map_Forall attachment_fits m → good (set_attachments m r).
Proof. intros [[] Hk Hi] Hs Hm. by split; [split| |]. Qed.
Lemma good_frozen r b : good r → good (set_frozen b r).
Proof. intros [[] Hk Hi]. by split; [split| |]. Qed.

Lemma attachment_fits_new h owner (spec : VolumeSpec) :
  Volume.Volume.validate spec = Ok tt → all_bytes plain_byte (destination spec) = true →
  attachment_fits (attachment_key h owner (destination spec)) (attachment_record owner (destination spec) (read_only spec)).
Proof.
  intros Hv Hp. split; cbn [attachment_record record_sandbox record_container record_destination]; try apply (proj2 (identifier_len _)); [| |done].
  - assert (valid_key (attachment_key h owner (destination spec)) = true) as Hk by apply hash_valid.
    by apply andb_true_iff in Hk as [->%Z.eqb_eq _].
  - unfold validate in Hv. apply bind_Ok_inv in Hv as (u & _ & Hv). apply bind_Ok_inv in Hv as ([] & Hd & _).
    unfold validate_destination in Hd. apply bind_Ok_inv in Hd as (u' & Hd & _). rewrite reject_if_Ok, !orb_false_iff in Hd.
    destruct Hd as [[[Hd%Z.ltb_ge _] _] _]. done.
Qed.

Lemma attach_full D h owner spec :
  named h = true → handle_key h = k → all_bytes plain_byte (destination spec) = true →
  triple (full D) (attach h owner spec) (λ _, full D) (λ _, full D).
Proof.
  intros Hn Hk Hp. unfold attach. rewrite Hn, Hk. cbn [negb].
  eapply triple_bind; [apply triple_lift with (Q := λ _ w, Volume.Volume.validate spec = Ok tt ∧ full D w); [|done]|].
  { intros w u Hw Hs. split; [|done]. apply map_err_Ok in Hs. unfold validate_handle_spec in Hs. apply bind_Ok_inv in Hs as ([] & Hs & _).
    by apply map_err_Ok in Hs. }
  intros u. apply triple_pure. intros Hv. eapply triple_bind; [by apply validate_handle_full|]. intros r. apply triple_pure. intros Hg.
  eapply triple_bind; [by apply triple_reject|]. intros u'. apply triple_pure. intros [_ Hsize%Z.leb_gt]%orb_false_iff. cbn zeta.
  eapply triple_bind; [by apply triple_reject|]. intros u''. apply triple_pure. intros _.
  eapply triple_bind; [apply replace_record_full|intros u'''; by apply triple_ret]. apply good_attachments; [done| |].
  - rewrite map_size_insert. destruct (attachments r !! _); unfold Datatypes.id; lia.
  - apply map_Forall_insert_2; [by apply attachment_fits_new|apply Hg].
Qed.

Lemma mount_full D a : named (attachment_handle a) = true → handle_key (attachment_handle a) = k →
  triple (full D) (mount self a) (λ _, full D) (λ _, full D).
Proof.
  intros Hn Hk. unfold mount. rewrite Hn, Hk. cbn [negb]. eapply triple_bind; [by apply validate_attachment_full|]. intros r.
  apply triple_pure. intros _. eapply triple_bind; [by apply triple_reject|]. intros u. apply triple_pure. intros _. cbn zeta.
  eapply triple_bind; [by apply (reading_full D _ (λ _, True))|]. intros u'. apply triple_pure. intros _. by apply triple_ret.
Qed.

Lemma detach_full D a : named (attachment_handle a) = true → handle_key (attachment_handle a) = k →
  triple (full D) (detach a) (λ _, full D) (λ _, full D).
Proof.
  intros Hn Hk. unfold detach. rewrite Hn, Hk. cbn [negb]. eapply triple_bind; [by apply validate_attachment_full|]. intros r.
  apply triple_pure. intros Hg. apply replace_record_full, good_attachments; [done| |].
  - pose proof (fits_count _ (good_fits _ Hg)). rewrite map_size_delete. destruct (attachments r !! _); unfold Datatypes.id; lia.
  - apply map_Forall_delete, Hg.
Qed.

Lemma freeze_full D a : named (attachment_handle a) = true → handle_key (attachment_handle a) = k →
  triple (full D) (freeze self a) (λ _, full D) (λ _, full D).
Proof.
  intros Hn Hk. unfold freeze. rewrite Hn, Hk. cbn [negb]. eapply triple_bind; [by apply triple_reject|]. intros u. apply triple_pure.
  intros _. eapply triple_bind; [by apply validate_attachment_full|]. intros r. apply triple_pure. intros Hg.
  by apply replace_record_full, good_frozen.
Qed.

Lemma thaw_full D a : named (attachment_handle a) = true → handle_key (attachment_handle a) = k →
  triple (full D) (thaw a) (λ _, full D) (λ _, full D).
Proof.
  intros Hn Hk. unfold thaw. rewrite Hn, Hk. cbn [negb]. eapply triple_bind; [by apply validate_attachment_full|]. intros r.
  apply triple_pure. intros Hg. by apply replace_record_full, good_frozen.
Qed.

Lemma delete_full D h : id.1.2 = Persistent → named h = true → handle_key h = k →
  triple (full D) (delete_volume prune h) (λ _, full D) (λ _, full D).
Proof.
  intros Hid Hn Hk. unfold delete_volume. rewrite Hn. cbn [negb]. eapply triple_bind; [by apply validate_handle_full|]. intros r.
  apply triple_pure. intros [_ _ Hi]. eapply triple_bind; [by apply triple_reject|]. intros u. apply triple_pure. intros _.
  rewrite bool_decide_true; [by apply triple_ret|]. by rewrite <- Hid, <- Hi.
Qed.

Lemma snapshot_full D a dest found elapsed : named (attachment_handle a) = true → handle_key (attachment_handle a) = k →
  triple (full D) (snapshot self a dest found elapsed) (λ _, full D) (λ _, full D).
Proof.
  intros Hn Hk. unfold snapshot. rewrite Hn, Hk. cbn zeta. cbn [negb]. eapply triple_bind; [by apply validate_attachment_full|]. intros r.
  apply triple_pure. intros Hg. eapply triple_bind; [by apply triple_reject|]. intros u. apply triple_pure. intros _.
  eapply triple_bind; [by apply (reading_full D _ (λ _, True))|]. intros tree. apply triple_pure. intros _.
  eapply triple_bind; [by apply triple_lift with (Q := λ _, full D)|]. intros l. eapply triple_bind; [apply host_full|]. intros u'.
  eapply triple_bind; [by apply triple_lift with (Q := λ _, full D)|]. intros [digest size]. by apply triple_ret.
Qed.

Lemma create_named_full t scope spec : volume_key scope (as_str (volume_id spec)) = k →
  triple (full (stored t)) (create_named prune self scope spec) (λ h w, handle_key h = k ∧ full (ready t) w) (λ _, full (stored t)).
Proof.
  intros Hk. assert (∀ w, full (ready t) w → full (stored t) w) as Hready by (apply full_weaken; intros a r o (-> & _); by left).
  unfold create_named. rewrite Hk. eapply triple_bind; [by apply triple_reject|]. intros u. apply triple_pure. intros _.
  eapply triple_bind; [by apply triple_lift with (Q := λ _, full (stored t))|]. intros u1.
  eapply triple_bind; [by apply triple_reject|]. intros u2. apply triple_pure. intros _. cbn zeta.
  apply (triple_bind _ _ _ (λ b w, b = true ∧ full (stored t) w)).
  { intros w Hw. pose proof Hw as (f & Hf & _). split; [|done]. by rewrite Hf. }
  intros b. apply triple_pure. intros ->. eapply triple_bind; [apply reconcile_metadata_full|]. intros u3.
  eapply triple_bind; [apply reconcile_data_full|]. intros u4.
  apply (triple_bind _ _ _ (λ r w, good r ∧ full (ready t) w)).
  { eapply triple_weaken; [apply (read_record_full (ready t))|done|done|intros e w Hw; by auto]. }
  intros r. apply triple_pure. intros _.
  eapply triple_bind; [apply triple_lift with (Q := λ _, full (ready t)); [done|intros w e Hw; by auto]|]. intros u5.
  eapply triple_bind; [apply triple_reject; intros w e Hw; by auto|]. intros u6. apply triple_pure. intros _. by apply triple_ret.
Qed.

(** The volume holds its data or that of the archive. *)
Definition unpacked (source : result VolumeError (list ascii)) (t : Item) : Prop := ∃ l, source = Ok l ∧ unpack l = (t, Ok tt).
Definition either (source : result VolumeError (list ascii)) (t : Item) : Data :=
  λ a r o, ∃ t', (t' = t ∨ unpacked source t') ∧ stored t' a r o.

Lemma stored_either source t a r o : stored t a r o → either source t a r o.
Proof. intros Hs. exists t. split; [by left|done]. Qed.

Lemma roll_back_full source t n : unpacked source n →
  triple (full (λ a r o, a = None ∧ r = Some n ∧ o = Some t)) (rename_or_roll_back k)
    (λ _, full (λ a r o, a = Some n ∧ r = None)) (λ _, full (either source t)).
Proof.
  intros Hn w Hw.
  assert (triple (full (λ a r o, a = None ∧ r = Some n ∧ o = Some t)) (rename_restoring k) (λ _, full (λ a r o, a = Some n ∧ r = None))
    (λ _, full (λ a r o, o = Some t ∧ (a = None ∨ a = Some n)))) as Hrename.
  { apply rename_data_full. intros f Hr (Ha & Hb & Hc). split; [done|]. cbn. rewrite Ha, Hb, Hc. split_and!; auto. }
  assert (triple (full (λ a r o, o = Some t ∧ (a = None ∨ a = Some n))) (rename_replaced k) (λ _, full (either source t))
    (λ _, full (either source t))) as Hback.
  { apply rename_data_full. intros f Hr (Hc & Ha). split; [done|]. cbn. rewrite Hc. split.
    - destruct Ha as [->| ->]; [exists t|exists n]; (split; [by auto|]); [by right|by left].
    - intros _. split; (exists t; split; [by auto|by left]). }
  specialize (Hrename w Hw). unfold rename_or_roll_back. destruct (rename_restoring k w) as [w' [a|[e|]]]; [done| |].
  - specialize (Hback w' Hrename). by destruct (rename_replaced k w') as [w'' [[]|[e'|]]].
  - destruct Hrename as (f & Hf & Hr & Hc & Ha). exists f. split_and!; try done. rewrite Hc.
    destruct Ha as [->| ->]; [exists t|exists n]; (split; [by auto|]); [by right|by left].
Qed.

Lemma restore_data_full t source : triple (full (ready t)) (restore_data prune k source)
  (λ _, full (λ a r o, ∃ n, unpacked source n ∧ ready n a r o)) (λ _, full (either source t)).
Proof.
  eapply (triple_bind _ _ _ (λ _, full (λ a r o, a = Some t ∧ o = None))).
  { apply call_full. intros d f Hf Hr (Ha & Hb & Hc). rewrite Ha. split; [by apply stored_either; left|]. intros u _. split.
    - exists (set_restoring (Some (Folder false [])) f). split; [by apply at_key_same|]. cbn. rewrite Ha. split_and!; try done.
      by apply stored_either; left.
    - intros n. exists f. rewrite Ha. split_and!; try done. by apply stored_either; left. }
  intros u. eapply triple_bind.
  { apply triple_lift with (Q := λ l w, source = Ok l ∧ full (λ a r o, a = Some t ∧ o = None) w).
    - intros w l Hw Hs. by apply map_err_Ok in Hs.
    - intros w e. apply full_weaken. intros a r o [-> _]. by apply stored_either; left. }
  intros l. apply triple_pure. intros Hl.
  eapply (triple_bind _ _ _ (λ _ w, (unpack l).2 = Ok tt ∧ full (λ a r o, a = Some t ∧ r = Some (unpack l).1 ∧ o = None) w)).
  { eapply (triple_bind _ _ _ (λ _, full (λ a r o, a = Some t ∧ r = Some (unpack l).1 ∧ o = None))).
    - apply call_full. intros d f Hf Hr (Ha & Hc). rewrite Ha. split; [by apply stored_either; left|]. intros u' _. split.
      + exists (set_restoring (Some (unpack l).1) f). split; [by apply at_key_same|]. cbn. rewrite Ha, Hc. split_and!; try done.
        by apply stored_either; left.
      + intros n. exists (set_restoring (Some (prune n (unpack l).1)) f). split; [by apply at_key_same|]. cbn. rewrite Ha.
        split; [done|]. by apply stored_either; left.
    - intros u'. apply triple_lift.
      + intros w [] Hw Hs. by apply map_err_Ok in Hs.
      + intros w e. apply full_weaken. intros a r o [-> _]. by apply stored_either; left. }
  intros u'. apply triple_pure. intros Hok. set (n := (unpack l).1) in *.
  assert (unpacked source n) as Hn by (exists l; split; [done|]; unfold n; by destruct (unpack l); simpl in *; subst).
  eapply (triple_bind _ _ _ (λ _, full (λ a r o, a = Some t ∧ r = Some n ∧ o = None))).
  { eapply triple_weaken; [apply (host_full (λ a r o, a = Some t ∧ r = Some n ∧ o = None))|done|done|]. intros e w. apply full_weaken. intros a r o [-> _]. by apply stored_either; left. }
  intros u1. eapply (triple_bind _ _ _ (λ _, full (λ a r o, a = None ∧ r = Some n ∧ o = Some t))).
  { apply rename_data_full. intros f Hr (Ha & Hb & Hc). split; [done|]. cbn. rewrite Ha, Hb, Hc.
    split; [by apply stored_either; left|]. intros _. split; [done|]. apply stored_either. by right. }
  intros u2. eapply triple_bind; [by apply roll_back_full|]. intros u3.
  assert (∀ w, full (λ a r o, a = Some n ∧ r = None) w → full (either source t) w) as Hdone.
  { apply full_weaken. intros a r o [-> _]. exists n. split; [by right|by left]. }
  eapply (triple_bind _ _ _ (λ _, full (λ a r o, a = Some n ∧ r = None))).
  { eapply triple_weaken; [apply (host_full (λ a r o, a = Some n ∧ r = None))|done|done|intros e w Hw; by auto]. }
  intros u4. eapply (triple_bind _ _ _ (λ _, full (λ a r o, ∃ n, unpacked source n ∧ ready n a r o))).
  { apply remove_replaced_full. intros a r o [-> ->]. split; [by exists n|]. split; [|intros o']; exists n; (split; [by right|by left]). }
  intros u5. eapply triple_weaken; [apply (host_full (λ a r o, ∃ n, unpacked source n ∧ ready n a r o))|done|done|]. intros e. apply full_weaken. intros a r o (m & Hm & -> & _).
  exists m. split; [by right|by left].
Qed.

Lemma restore_full t scope spec s path source elapsed :
  named_class (persistence_class spec) = true → volume_key scope (as_str (volume_id spec)) = k →
  triple (full (stored t)) (restore prune self scope spec s path source elapsed)
    (λ _, full (λ a r o, ∃ n, unpacked (source 2%nat) n ∧ ready n a r o)) (λ _, full (either (source 2%nat) t)).
Proof.
  intros Hn Hk. unfold restore. rewrite Hn. cbn [negb].
  assert (∀ w, full (stored t) w → full (either (source 2%nat) t) w) as Hweak by (apply full_weaken, stored_either).
  destruct (incompatibility self spec s); [apply triple_fail; by auto|].
  eapply triple_bind; [apply triple_lift with (Q := λ _, full (stored t)); by auto|]. intros [digest size].
  eapply triple_bind; [apply triple_reject; by auto|]. intros u. apply triple_pure. intros _.
  eapply triple_bind; [apply triple_lift with (Q := λ _, full (stored t)); by auto|]. intros u1.
  eapply triple_bind; [eapply triple_weaken; [by apply create_named_full|done|intros a w Hw; exact Hw|intros e; exact Hweak]|].
  intros h. apply triple_pure. intros Hh. rewrite Hh. eapply triple_bind; [|intros u2; apply triple_ret; intros w Hw; exact Hw].
  apply or_undo_full; [apply restore_data_full|]. apply remove_restoring_full. intros a r o (t' & Ht & Hs). by split_and!; try exists t'.
Qed.

Lemma cleanup_entry_full t report : id.1.2 = Persistent →
  triple (full (stored t)) (cleanup_entry prune k report) (λ _, full (ready t)) (λ _, full (stored t)).
Proof.
  intros Hid. assert (∀ w, full (ready t) w → full (stored t) w) as Hready by (apply full_weaken; intros a r o (-> & _); by left).
  unfold cleanup_entry. eapply triple_bind; [by apply (reading_full (stored t) _ (λ _, True))|]. intros u. apply triple_pure. intros _.
  eapply triple_bind; [by apply triple_reject|]. intros u1. apply triple_pure. intros _.
  eapply triple_bind; [apply reconcile_metadata_full|]. intros u2. eapply triple_bind; [apply read_record_full|]. intros r.
  apply triple_pure. intros Hg. eapply triple_bind; [by apply triple_lift with (Q := λ _, full (stored t))|]. intros u3.
  eapply triple_bind; [apply reconcile_data_full|]. intros u4. cbn zeta.
  rewrite bool_decide_false.
  2: { intros Hc. destruct Hg as [_ _ <-]. cbn in Hid, Hc. congruence. }
  eapply (triple_bind _ _ _ (λ _, full (ready t))); [|intros u5; by apply triple_ret].
  eapply triple_weaken; [apply (replace_record_full (ready t))|done|done|intros e; exact Hready].
  apply good_frozen, good_attachments; [done|by rewrite map_size_empty|apply map_Forall_empty].
Qed.

Lemma aux_full {A} D (c : M X VolumeError A) : triple (full D) (with_auxiliary c) (λ _, full D) (λ _, full D).
Proof. intros w Hw. unfold with_auxiliary. destruct (c (auxiliary w)) as [x [a|e]]; exact Hw. Qed.

Lemma cleanup_full t : id.1.2 = Persistent →
  triple (full (stored t)) (cleanup prune) (λ _, full (stored t)) (λ _, full (stored t)).
Proof.
  intros Hid. eapply triple_bind; [apply aux_full|]. intros report. eapply triple_bind; [by apply (reading_full (stored t) _ (λ _, True))|].
  intros keys. apply triple_pure. intros _. revert report. induction keys as [|key keys IH]; intros report; [by apply triple_ret|].
  cbn [cleanup_entries]. eapply (triple_bind _ _ _ (λ _, full (stored t))); [|apply IH]. destruct (decide (key = k)) as [->|Hk].
  - eapply triple_weaken; [by apply (cleanup_entry_full t)|done| |done]. intros r. apply full_weaken. intros a r' o (-> & _). by left.
  - eapply frame_full; [done|]. touching.
Qed.

Lemma open_full t owned : id.1.2 = Persistent →
  triple (full (stored t)) (open prune self owned) (λ _, full (stored t)) (λ _, full (stored t)).
Proof.
  intros Hid. unfold open. eapply triple_bind; [by apply triple_reject|]. intros u. apply triple_pure. intros _.
  eapply triple_bind; [apply host_full|]. intros u1. eapply triple_bind; [by apply triple_reject|]. intros u2. apply triple_pure. intros _.
  eapply triple_bind; [apply host_full|]. intros u3. eapply triple_bind; [by eapply cleanup_full|]. intros report. by apply triple_ret.
Qed.
End kept.

(** ** Histories *)

(** What clients, guests and restarts do; a guest changes the data of a volume at any time. *)
Inductive Operation : Type :=
| Create (scope : VolumeScope) (spec : VolumeSpec)
| Attach (h : VolumeHandle) (owner : AttachmentOwner) (spec : VolumeSpec)
| MountIt (a : VolumeAttachment)
| Detach (a : VolumeAttachment)
| Unmount (m : MountedVolume)
| Freeze (a : VolumeAttachment)
| Thaw (a : VolumeAttachment)
| Export (a : VolumeAttachment) (destination : string) (destination_exists : bool) (elapsed : nat → Z)
| Restore (scope : VolumeScope) (spec : VolumeSpec) (s : VolumeSnapshot) (path : string)
    (source : nat → result VolumeError (list ascii)) (elapsed : nat → Z)
| Delete (h : VolumeHandle)
| Open (owned : bool)
| Write (key : string) (change : Item → Item).

Section histories.
Context {X : Type} `{ArchiveCodec, RecordCodec, Auxiliary X} (prune : nat → Item → Item) (self : DirectoryVolumeConfig).

Definition perform (op : Operation) (w : World X) : World X :=
  match op with
  | Create scope spec => (create prune self scope spec w).1
  | Attach h owner spec => (attach h owner spec w).1
  | MountIt a => (mount self a w).1
  | Detach a => (detach a w).1
  | Unmount m => (unmount m w).1
  | Freeze a => (freeze self a w).1
  | Thaw a => (thaw a w).1
  | Export a destination found elapsed => (snapshot self a destination found elapsed w).1
  | Restore scope spec s path source elapsed => (restore prune self scope spec s path source elapsed w).1
  | Delete h => (delete_volume prune h w).1
  | Open owned => (open prune self owned w).1
  | Write key change => MkVolumes (at_key key (λ f, set_data (change <$> data f) f) (directories w)) (events w) (auxiliary w)
  end.
Definition run (ops : list Operation) (w : World X) : World X := foldl (λ w op, perform op w) w ops.

(** The data of the volume [k] after an operation: a restore leaves the old data or the whole archive. *)
Definition after (k : string) (op : Operation) (t t' : Item) : Prop :=
  t' = t ∨
  match op with
  | Restore scope spec _ _ source _ => volume_key scope (as_str (volume_id spec)) = k ∧ unpacked (source 2%nat) t'
  | Write key change => key = k ∧ t' = change t
  | _ => False
  end.
Fixpoint evolves (k : string) (ops : list Operation) (t t' : Item) : Prop :=
  match ops with [] => t' = t | op :: rest => ∃ t1, after k op t t1 ∧ evolves k rest t1 t' end.

(** Destinations of attachments need no escapes in JSON. *)
Definition ordinary (op : Operation) : Prop :=
  match op with Attach _ _ spec => all_bytes plain_byte (destination spec) = true | _ => True end.

Context `{!RecordLaws} (k : string) (id : Identity) (Hid : id.1.2 = Persistent).

Lemma triple_state {A} P (c : M (World X) Outcome A) w : triple P c (λ _, P) (λ _, P) → P w → P (c w).1.
Proof. intros Hc Hw. specialize (Hc w Hw). by destruct (c w) as [w' [a|e]]. Qed.

Ltac by_handle h lemma :=
  destruct (named h) eqn:?;
  [destruct (decide (handle_key h = k)) as [?|?];
     [by apply lemma | apply (frame_full k id _ (handle_key h)); [congruence|touching]]
  |match goal with |- triple _ ?c _ _ => let op := get_head c in unfold op end; match goal with Hn : named h = false |- _ => rewrite Hn end; apply aux_full].

Lemma perform_full t op w : ordinary op → full k id (stored t) w → ∃ t', after k op t t' ∧ full k id (stored t') (perform op w).
Proof.
  intros Ho Hw. destruct op as [scope spec|h owner spec|a|a|m|a|a|a dest found elapsed|scope spec s path source elapsed|h|owned|key change];
    cbn [perform].
  1-8, 10-11: (exists t; split; [by left|apply triple_state; [|done]]).
  - unfold create. destruct (named_class _); [|apply aux_full]. destruct (decide (volume_key scope (as_str (volume_id spec)) = k)) as [Hk|Hk].
    + eapply triple_weaken; [by apply (create_named_full prune self k id t)|done| |done]. intros h w1 [_ Hw1]. revert w1 Hw1.
      apply full_weaken. intros a r o (-> & _). by left.
    + eapply frame_full; [|touching]. congruence.
  - by_handle h attach_full.
  - by_handle (attachment_handle a) mount_full.
  - by_handle (attachment_handle a) detach_full.
  - unfold unmount. by_handle (attachment_handle (mounted_attachment m)) detach_full.
  - by_handle (attachment_handle a) freeze_full.
  - by_handle (attachment_handle a) thaw_full.
  - by_handle (attachment_handle a) snapshot_full.
  - destruct (named h) eqn:Hn; [destruct (decide (handle_key h = k)) as [Hk|Hk]|].
    + by eapply delete_full.
    + eapply (frame_full k id _ (handle_key h)); [congruence|touching].
    + unfold delete_volume. rewrite Hn. apply aux_full.
  - by eapply open_full.
  - destruct (named_class (persistence_class spec)) eqn:Hn.
    2: { exists t. split; [by left|]. apply triple_state; [|done]. unfold restore. rewrite Hn. apply aux_full. }
    destruct (decide (volume_key scope (as_str (volume_id spec)) = k)) as [Hk|Hk].
    2: { exists t. split; [by left|]. apply triple_state; [|done]. apply (frame_full k id _ (volume_key scope (as_str (volume_id spec)))); [congruence|apply restore_keeps]. }
    pose proof (restore_full prune self k id t scope spec s path source elapsed Hn Hk w Hw) as Hr.
    assert (full k id (either (source 2%nat) t) (restore prune self scope spec s path source elapsed w).1) as (f & Hf & Hrec & t' & Ht & Hs).
    { destruct (restore _ _ _ _ _ _ _ _ w) as [w' [h|e]]; [|done]. revert Hr. apply full_weaken. intros a r o (n & Hu & -> & _).
      exists n. split; [by right|by left]. }
    exists t'. split; [destruct Ht; [by left|by right]|by exists f].
  - destruct (decide (key = k)) as [->|Hk].
    + destruct Hw as (f & Hf & Hr & [Ha|[Ha Hc]]).
      * exists (change t). split; [by right|]. eexists. split; [by apply at_key_same|]. split; [done|]. left. cbn. by rewrite Ha.
      * exists t. split; [by left|]. eexists. split; [by apply at_key_same|]. split; [done|]. right. cbn. by rewrite Ha.
    + exists t. split; [by left|]. destruct Hw as (f & Hf & Hr & Hs). exists f. cbn. rewrite at_key_other by done. done.
Qed.

Lemma run_full ops : ∀ t w, Forall ordinary ops → full k id (stored t) w → ∃ t', evolves k ops t t' ∧ full k id (stored t') (run ops w).
Proof.
  induction ops as [|op ops IH]; intros t w Ho Hw; [by exists t|]. apply Forall_cons in Ho as [Hop Ho].
  destruct (perform_full t op w Hop Hw) as (t1 & Ha & Hw1). destruct (IH t1 _ Ho Hw1) as (t' & He & Hw'). exists t'. split; [by exists t1|done].
Qed.
End histories.
