(* ===== verification/DirectoryVolumeExample.v ===== *)
(** * A codec of records and a worker with a volume

    An executable instance of the parameters of [DirectoryVolume]: records in a
    compact binary form that is read as it was written, the archives and the hash
    of [VolumeArchive], and a provider without artifacts and secrets.  The worlds
    of the witnesses of [DirectoryVolumeTheorems] are here. *)
From S2P Require Import Prelude Identity Volume Envelope VolumeArchive DirectoryVolume DirectoryVolumeProofs.
Import Volume.Volume VolumeArchive.VolumeArchive DirectoryVolume.DirectoryVolume.

Module Example.

(** ** Records as bytes *)

Abbreviation Parser A := (list ascii → option (A * list ascii)).

Definition put_string (s : string) : list ascii := Envelope.Envelope.be_bytes 2 (len s) ++ bytes s.
Definition get_string : Parser string := λ l,
  let n := Z.to_nat (Envelope.Envelope.of_be_bytes (take 2 l)) in
  Some (string_of_list_ascii (take n (drop 2 l)), drop n (drop 2 l)).
Definition put_bool (b : bool) : list ascii := [if b then "1"%char else "0"%char].
Definition get_bool : Parser bool := λ l, match l with c :: l' => Some (is_byte "1" c, l') | [] => None end.
Definition put_number (z : Z) : list ascii := Envelope.Envelope.be_bytes 8 z.
Definition get_number : Parser Z := λ l, Some (Envelope.Envelope.of_be_bytes (take 8 l), drop 8 l).
Definition class_byte (c : VolumePersistenceClass) : ascii :=
  match c with Ephemeral => "e" | Persistent => "p" | Artifact => "a" | Secret => "s" end%char.
Definition get_class : Parser VolumePersistenceClass := λ l,
  match l with
  | c :: l' => Some (if is_byte "e" c then Ephemeral else if is_byte "p" c then Persistent else if is_byte "a" c then Artifact else Secret, l')
  | [] => None
  end.

Definition put_attachment (entry : string * AttachmentRecord) : list ascii :=
  let '(id, a) := entry in
  put_string id ++ put_string (record_sandbox a) ++ put_string (record_container a) ++ put_string (record_destination a) ++ put_bool (record_read_only a).
Definition get_attachment : Parser (string * AttachmentRecord) := λ l,
  '(id, l) ← get_string l; '(sandbox, l) ← get_string l; '(container, l) ← get_string l; '(destination, l) ← get_string l;
  '(read_only, l) ← get_bool l; Some ((id, MkAttachmentRecord sandbox container destination read_only), l).
Fixpoint get_many (n : nat) : Parser (list (string * AttachmentRecord)) := λ l,
  match n with
  | O => Some ([], l)
  | S n' => '(a, l) ← get_attachment l; '(rest, l) ← get_many n' l; Some (a :: rest, l)
  end.

Definition put_record (r : VolumeRecord) : list ascii :=
  put_string (record_key r) ++ put_string (record_tenant r) ++ put_string (record_workspace r) ++ put_string (record_volume r)
  ++ [class_byte (record_class r)] ++ put_number (record_quota r) ++ put_bool (frozen r)
  ++ put_number (Z.of_nat (size (attachments r))) ++ concat (put_attachment <$> map_to_list (attachments r)).
Definition get_record (l : list ascii) : option VolumeRecord :=
  '(key, l) ← get_string l; '(tenant, l) ← get_string l; '(workspace, l) ← get_string l; '(volume, l) ← get_string l;
  '(class, l) ← get_class l; '(quota, l) ← get_number l; '(frozen, l) ← get_bool l; '(n, l) ← get_number l;
  '(entries, l) ← get_many (Z.to_nat n) l;
  Some (MkRecord RECORD_VERSION DIRECTORY_VOLUME_PROVIDER_ID key tenant workspace volume class quota frozen (list_to_map entries)).

Lemma get_put_string s rest : len s < 65536 → get_string (put_string s ++ rest) = Some (s, rest).
Proof.
  intros Hs. pose proof (len_nonneg s). unfold get_string, put_string. rewrite <- app_assoc.
  rewrite take_app_length' by by rewrite Envelope.be_bytes_length. rewrite drop_app_length' by by rewrite Envelope.be_bytes_length.
  rewrite Envelope.of_be_be_bytes by (cbn; lia). rewrite len_bytes, Nat2Z.id, take_app_length, drop_app_length.
  unfold bytes. by rewrite string_of_list_ascii_of_string.
Qed.
Lemma get_put_number z rest : in_u64 z → get_number (put_number z ++ rest) = Some (z, rest).
Proof.
  intros [Hz Hu]. unfold get_number, put_number, u64_max in *. rewrite take_app_length' by by rewrite Envelope.be_bytes_length.
  rewrite drop_app_length' by by rewrite Envelope.be_bytes_length. rewrite Envelope.of_be_be_bytes; [done|]. change (256 ^ Z.of_nat 8) with 18446744073709551616. lia.
Qed.
Lemma get_put_bool b rest : get_bool (put_bool b ++ rest) = Some (b, rest).
Proof. by destruct b. Qed.

Lemma get_put_attachment id a rest : attachment_fits id a → get_attachment (put_attachment (id, a) ++ rest) = Some ((id, a), rest).
Proof.
  intros [Hid Hs Hc Hd _]. unfold get_attachment, put_attachment. rewrite <- !app_assoc.
  do 4 (rewrite get_put_string by lia; cbn [mbind option_bind]). rewrite get_put_bool. by destruct a.
Qed.

Lemma get_put_many entries rest : Forall (λ e, attachment_fits e.1 e.2) entries →
  get_many (length entries) (concat (put_attachment <$> entries) ++ rest) = Some (entries, rest).
Proof.
  induction 1 as [|[id a] entries Ha _ IH]; [done|]. cbn [length get_many fmap list_fmap concat]. rewrite <- app_assoc.
  rewrite get_put_attachment by done. cbn [mbind option_bind]. cbn [fmap list_fmap] in IH. by rewrite IH.
Qed.

Lemma entries_fit r : fits r → Forall (λ e, attachment_fits e.1 e.2) (map_to_list (attachments r)).
Proof. intros Hr. apply Forall_forall. intros [id a] Hin%elem_of_map_to_list. by apply (fits_attachments _ Hr). Qed.

Lemma get_put_record r : fits r → get_record (put_record r) = Some r.
Proof.
  intros Hr. pose proof (entries_fit r Hr) as He. destruct Hr as [Hv Hp Hk Ht Hw Hvol Hq Hn _]. unfold get_record, put_record.
  do 4 (rewrite get_put_string by lia; cbn [mbind option_bind]). cbn [app get_class mbind option_bind].
  rewrite get_put_number by done. cbn [mbind option_bind]. rewrite get_put_bool. cbn [mbind option_bind].
  rewrite get_put_number by (unfold in_u64, u64_max; lia). cbn [mbind option_bind]. rewrite Nat2Z.id.
  rewrite <- (app_nil_r (concat _)). rewrite <- (length_map_to_list (attachments r)), get_put_many by done. cbn [mbind option_bind].
  rewrite list_to_map_to_list. destruct r as [v p k t w vol c q fr at']. cbn in *. subst. by destruct c.
Qed.

Lemma put_string_length s : length_z (put_string s) = 2 + len s.
Proof. unfold put_string. rewrite length_app, Envelope.be_bytes_length, len_bytes. lia. Qed.

Lemma put_many_length entries : Forall (λ e, attachment_fits e.1 e.2) entries →
  length_z (concat (put_attachment <$> entries)) ≤ 4297 * length_z entries.
Proof.
  induction 1 as [|[id a] entries [Hid Hs Hc Hd _] _ IH]; [done|]. rewrite fmap_cons. cbn [concat]. rewrite length_app. cbn [length].
  assert (length_z (put_attachment (id, a)) ≤ 4297); [|lia]. unfold put_attachment. rewrite !length_app, !Nat2Z.inj_add, !put_string_length. cbn. cbn in *. lia.
Qed.

Lemma put_record_length r : fits r → 0 < length_z (put_record r) ≤ MAXIMUM_RECORD_BYTES.
Proof.
  intros Hr. pose proof (put_many_length _ (entries_fit r Hr)) as Hm. rewrite length_map_to_list in Hm.
  destruct Hr as [_ _ Hk Ht Hw Hvol _ Hn _]. unfold put_record, put_number, MAXIMUM_RECORD_BYTES.
  rewrite !length_app, !Nat2Z.inj_add, !put_string_length, !Envelope.be_bytes_length. cbn [length put_bool].
  pose proof (len_nonneg (record_key r)). pose proof (len_nonneg (record_tenant r)). pose proof (len_nonneg (record_workspace r)).
  pose proof (len_nonneg (record_volume r)). lia.
Qed.

Definition codec : RecordCodec := {|
  record_json r := Ok (put_record r);
  record_parse l := ok_or "record"%string (get_record l)
|}.
Lemma laws : RecordLaws (H := example_archive) (H0 := codec).
Proof.
  split.
  - intros r Hr. exists (put_record r). split; [done|]. split; [|by apply put_record_length].
    cbn [record_parse codec]. by rewrite get_put_record.
  - intros l. unfold valid_key. destruct (example_hash_valid l) as [Hl Ha]. cbn [hash_hex example_archive]. rewrite Hl, Ha. done.
Qed.

(** ** A worker *)

Definition none {A} : M () VolumeError A := M_fail (Unsupported "auxiliary").
Definition auxiliary_none : Auxiliary () := {|
  aux_create _ _ := none;
  aux_attach _ _ _ := none;
  aux_mount _ := none;
  aux_detach _ := none;
  aux_freeze _ := none;
  aux_thaw _ := none;
  aux_snapshot _ _ := none;
  aux_restore _ _ _ _ := none;
  aux_delete _ := none;
  aux_cleanup := mret (MkReport 0 0 0 0)
|}.
#[local] Existing Instance example_archive.
#[local] Existing Instance codec.
#[local] Existing Instance auxiliary_none.

Definition worker : DirectoryVolumeConfig := MkConfig "/volumes" MINIMUM_NAMED_VOLUME_BYTES 1099511627776 300 true true.
Definition scope : VolumeScope := MkScope (id_lit "acme") (id_lit "main").
Definition spec : VolumeSpec :=
  MkVolume VOLUME_SPEC_VERSION (id_lit "cache") "/var/cache" false Persistent Required MINIMUM_NAMED_VOLUME_BYTES None.
Definition owner : AttachmentOwner := MkOwner (id_lit "sandbox") (id_lit "container").
Definition key : string := Eval vm_compute in volume_key scope "cache".
Definition record : VolumeRecord := new_record scope spec key.
Definition handle : VolumeHandle := new_handle scope spec key.
Definition attachment : VolumeAttachment :=
  MkAttachment handle (attachment_key handle owner "/var/cache") owner "/var/cache" false Required.
(** The volume after its creation, and frozen with a tree in it. *)
Definition files : Files := MkFiles (Some (put_record record)) None (Some (Folder false [])) None None.
Definition frozen_record : VolumeRecord :=
  set_frozen true (set_attachments {[ attachment_id attachment := attachment_record owner "/var/cache" false ]} record).
Definition frozen_files : Files := MkFiles (Some (put_record frozen_record)) None (Some example_tree) None None.
(** The process stops when it has unpacked a restore. *)
Definition volumes : World () := MkVolumes {[ key := files ]} (replicate 9 None ++ [Some (Partway 3, None)]) tt.
Definition frozen_volumes : World () := MkVolumes {[ key := frozen_files ]} [] tt.

Definition archive : list ascii := Eval vm_compute in example_bytes.
Definition volume_snapshot : VolumeSnapshot :=
  MkSnapshot SNAPSHOT_VERSION DIRECTORY_VOLUME_PROVIDER_ID (id_lit "cache") Persistent ("sha256:" +:+ hash_hex archive) (length_z archive)
    MINIMUM_NAMED_VOLUME_BYTES SNAPSHOT_FORMAT CrossWorkerSameBackend.
Definition operations : list Operation :=
  [Write key (λ _, example_tree); Restore scope spec volume_snapshot "/archive" (λ _, Ok archive) (λ _, 0); Open true].

Lemma key_is : volume_key scope (as_str (volume_id spec)) = key.
Proof. vm_compute. reflexivity. Qed.
Lemma snapshot_run : snapshot worker attachment "/archive" false (λ _, 0) frozen_volumes = (frozen_volumes, Ok (volume_snapshot, archive)).
Proof. vm_compute. reflexivity. Qed.
End Example.
