(* ===== verification/DirectoryVolumeTheorems.v ===== *)
(** * Theorems on the directory provider

    What uninterrupted runs of [DirectoryVolume] leave, and the theorems: a
    persistent volume survives any history, opening recovers every volume, volumes
    are isolated, a snapshot is restored on another worker, and a creation that
    stopped early blocks the provider. *)
From S2P Require Import Prelude Identity Volume Envelope VolumeArchive DirectoryVolume DirectoryVolumeProofs DirectoryVolumeExample.
Import Volume.Volume VolumeArchive.VolumeArchive DirectoryVolume.DirectoryVolume.

(** ** Runs without an interruption *)

Section quiet.
Context {X : Type} `{ArchiveCodec, RecordCodec, Auxiliary X} `{!RecordLaws} (prune : nat → Item → Item) (self : DirectoryVolumeConfig).
Implicit Types (d : gmap string Files) (f : Files) (x : X).

Abbreviation calm d x := (MkVolumes d [] x).

Lemma call_calm {A} (answer : gmap string Files → result VolumeError A) effect partway d x :
  call answer effect partway (calm d x) =
  match answer d with Ok a => (calm (effect d) x, Ok a) | Err e => (calm d x, Err (Failed e)) end.
Proof. unfold call. cbn. by destruct (answer d). Qed.

Lemma reading_quiet {A} (answer : gmap string Files → result VolumeError A) d x a :
  answer d = Ok a → reading answer (calm d x) = (calm d x, Ok a).
Proof. intros Ha. unfold reading. by rewrite call_calm, Ha. Qed.

Lemma host_calm d x : host (calm d x) = (calm d x, Ok tt).
Proof. by apply reading_quiet. Qed.

Lemma files_at_here k f d : files_at k (<[k := f]> d) = Ok f.
Proof. unfold files_at. by rewrite lookup_insert_eq. Qed.

Lemma at_key_here k f d g : at_key k g (<[k := f]> d) = <[k := g f]> d.
Proof. unfold at_key. by rewrite alter_insert_eq. Qed.

(** A call on the files of [k] that is answered. *)
Lemma call_here {A} k f d x (answer : Files → result VolumeError A) g partway a :
  answer f = Ok a →
  call (λ d, f ← files_at k d; answer f) (at_key k g) partway (calm (<[k := f]> d) x) = (calm (<[k := g f]> d) x, Ok a).
Proof. intros Ha. rewrite call_calm, files_at_here. cbn [mbind result_bind]. by rewrite Ha, at_key_here. Qed.

Lemma or_undo_quiet (c undo : M (World X) Outcome ()) w w' : c w = (w', Ok tt) → or_undo c undo w = (w', Ok tt).
Proof. intros Hc. unfold or_undo. by rewrite Hc. Qed.

Lemma reconcile_metadata_quiet k f d x l : record_file f = Some l →
  reconcile_volume_metadata k (calm (<[k := f]> d) x) = (calm (<[k := set_pending None f]> d) x, Ok tt).
Proof.
  intros Hl. unfold reconcile_volume_metadata. erewrite bind_run by apply reading_quiet, files_at_here. rewrite Hl.
  destruct (pending_file f) eqn:Hp.
  - erewrite bind_run; [apply host_calm|]. apply call_here. by rewrite Hp.
  - destruct f; cbn in *; by subst.
Qed.

Lemma read_record_quiet k f d x r l : record_file f = Some l → record_json r = Ok l → fits r →
  read_record k (calm (<[k := f]> d) x) = (calm (<[k := f]> d) x, Ok r).
Proof.
  intros Hf Hl Hr. destruct (record_stored r Hr) as (l' & Hl' & Hp & Hlen). rewrite Hl in Hl'. apply Ok_inj in Hl' as <-.
  unfold read_record. erewrite bind_run; [|apply reading_quiet; by rewrite files_at_here; cbn [mbind result_bind]; rewrite Hf].
  rewrite (proj2 (Z.eqb_neq _ _)), (proj2 (Z.ltb_ge _ _)) by lia. cbn [orb]. erewrite bind_run by reflexivity. by rewrite Hp.
Qed.

Lemma replace_record_quiet k f d x r l : pending_file f = None → record_json r = Ok l →
  replace_record k r (calm (<[k := f]> d) x) = (calm (<[k := set_record (Some l) f]> d) x, Ok tt).
Proof.
  intros Hp Hl. unfold replace_record, write_json. rewrite Hl.
  erewrite bind_run; [|cbn [map_err]; erewrite bind_run by reflexivity; apply call_here; by rewrite Hp].
  erewrite bind_run; [|apply or_undo_quiet, call_here; reflexivity]. rewrite host_calm. destruct f; cbn in *; by subst.
Qed.

Lemma rename_data_quiet k f d x from to moved : is_Some (from f) → (∀ item, to f = Some item → is_empty item = true) →
  rename_data k from to moved (calm (<[k := f]> d) x) = (calm (<[k := moved f]> d) x, Ok tt).
Proof.
  intros [item Hi] Ht. apply call_here. rewrite Hi. cbn [ok_or mbind result_bind]. destruct (to f) as [i|]; [|done]. by rewrite (Ht i).
Qed.

Lemma has_here k f d file : has file k (<[k := f]> d) = bool_decide (is_Some (file f)).
Proof. unfold has. by rewrite lookup_insert_eq. Qed.

Lemma exists_quiet there d x : exists_now there (calm d x) = (calm d x, Ok (there d)).
Proof. done. Qed.

(** The data of [f], recovered. *)
Definition recovered (t : Item) f : Files := MkFiles (record_file f) (pending_file f) (Some t) None None.

Lemma reconcile_data_quiet k f d x t : stored t (data f) (restoring f) (replaced f) →
  reconcile_data_directory prune k (calm (<[k := f]> d) x) = (calm (<[k := recovered t f]> d) x, Ok tt).
Proof.
  intros Hs. unfold reconcile_data_directory. erewrite bind_run by apply exists_quiet. rewrite has_here.
  erewrite (bind_run _ _ _ (calm (<[k := set_restoring None f]> d) x) tt).
  2: { case_bool_decide as Hr; [by apply call_here|]. apply eq_None_not_Some in Hr. destruct f; cbn in *; by subst. }
  erewrite bind_run by apply exists_quiet. rewrite has_here. cbn [data set_restoring].
  erewrite (bind_run _ _ _ (calm (<[k := recovered t f]> d) x) tt); [by apply reading_quiet; rewrite files_at_here|].
  destruct Hs as [Ha|[Ha Hc]]; rewrite Ha.
  - rewrite bool_decide_true by by eexists. erewrite bind_run by apply exists_quiet. rewrite has_here. cbn [replaced set_restoring].
    case_bool_decide as Ho.
    + unfold remove_replaced. rewrite (call_here k _ _ _ (λ _, mret tt) _ _ tt) by done. destruct f; cbn in *; by subst.
    + apply eq_None_not_Some in Ho. destruct f; cbn in *; by subst.
  - rewrite bool_decide_false by by intros []. erewrite bind_run by apply exists_quiet. rewrite has_here. cbn [replaced set_restoring].
    rewrite Hc, bool_decide_true by by eexists. unfold rename_replaced. rewrite rename_data_quiet; [|by eexists|by cbn; rewrite Ha].
    cbn. unfold recovered. by rewrite Hc.
Qed.

(** ** Opening the provider *)

(** A directory with a consistent record [r] and data [t]. *)
Definition whole (k : string) (r : VolumeRecord) (t : Item) f : Prop :=
  ∃ l, record_file f = Some l ∧ record_json r = Ok l ∧ fits r ∧ validate_stored_record r k = Ok tt ∧
    stored t (data f) (restoring f) (replaced f).
Definition cleaned (r : VolumeRecord) : VolumeRecord := set_frozen false (set_attachments ∅ r).
(** What is left of it: an ephemeral volume is gone, a persistent one has its data, no attachments, and no other file. *)
Definition reopened (r : VolumeRecord) (t : Item) (o : option Files) : Prop :=
  if bool_decide (record_class r = Ephemeral) then o = None
  else ∃ l, record_json (cleaned r) = Ok l ∧ o = Some (MkFiles (Some l) None (Some t) None None).

Lemma cleaned_fits r : fits r → fits (cleaned r).
Proof. intros []. by split. Qed.

Lemma stored_key k r : validate_stored_record r k = Ok tt → valid_key k = true.
Proof.
  unfold validate_stored_record. rewrite reject_if_Ok, !orb_false_iff. intros [[[[_ Hk] _] _] _].
  apply negb_false_iff, bool_decide_eq_true in Hk. rewrite <- Hk. apply hash_valid.
Qed.

Lemma cleanup_entry_quiet k f d x r t report : whole k r t f →
  ∃ o report', reopened r t o ∧
    cleanup_entry prune k report (calm (<[k := f]> d) x) = (calm (partial_alter (λ _, o) k d) x, Ok report').
Proof.
  intros (l & Hf & Hl & Hfits & Hv & Hs). destruct (record_stored _ (cleaned_fits r Hfits)) as (l' & Hl' & _).
  unfold cleanup_entry. erewrite bind_run by (apply reading_quiet; by rewrite files_at_here).
  rewrite (stored_key _ _ Hv). erewrite bind_run by reflexivity. erewrite bind_run by by apply reconcile_metadata_quiet with (l := l).
  erewrite bind_run by by apply read_record_quiet with (l := l). rewrite Hv. erewrite bind_run by reflexivity.
  erewrite bind_run by by apply reconcile_data_quiet. cbn zeta. cbn [record_class set_frozen set_attachments].
  unfold reopened. destruct (bool_decide (record_class r = Ephemeral)).
  - exists None. eexists. split; [done|]. erewrite bind_run; [|unfold remove_directory; rewrite call_calm, files_at_here; reflexivity].
    erewrite bind_run by apply host_calm. rewrite delete_insert_eq. reflexivity.
  - exists (Some (MkFiles (Some l') None (Some t) None None)). eexists. split; [by exists l'|].
    erewrite bind_run by by apply replace_record_quiet with (l := l'). reflexivity.
Qed.

Lemma cleanup_entries_quiet keys : ∀ d x report, NoDup keys → (∀ k, k ∈ keys → ∃ f r t, d !! k = Some f ∧ whole k r t f) →
  ∃ d' report', cleanup_entries prune keys report (calm d x) = (calm d' x, Ok report') ∧ (∀ k, k ∉ keys → d' !! k = d !! k) ∧
    ∀ k f, k ∈ keys → d !! k = Some f → ∃ r t, whole k r t f ∧ reopened r t (d' !! k).
Proof.
  induction keys as [|k keys IH]; intros d x report Hnd Hall.
  - exists d, report. split_and!; try done. by intros k f ?%not_elem_of_nil.
  - apply NoDup_cons in Hnd as [Hk Hnd]. destruct (Hall k (list_elem_of_here _ _)) as (f & r & t & Hf & Hw).
    destruct (cleanup_entry_quiet k f d x r t report Hw) as (o & report1 & Ho & Hrun). rewrite insert_id in Hrun by done.
    destruct (IH (partial_alter (λ _, o) k d) x report1 Hnd) as (d' & report' & Hrest & Hother & Hkeys).
    { intros k' Hk'. destruct (decide (k' = k)) as [->|Hne]; [done|]. rewrite lookup_partial_alter_ne by done.
      by apply Hall, list_elem_of_further. }
    exists d', report'. cbn [cleanup_entries]. rewrite (bind_run _ _ _ _ _ Hrun). split; [done|]. split.
    + intros k' [Hne Hk']%not_elem_of_cons. rewrite Hother by done. by apply lookup_partial_alter_ne.
    + intros k' f' Hin Hf'. destruct (decide (k' = k)) as [->|Hne].
      * simplify_eq. exists r, t. split; [done|]. by rewrite Hother, lookup_partial_alter_eq.
      * apply elem_of_cons in Hin as [->|Hin]; [done|]. apply Hkeys; [done|]. by rewrite lookup_partial_alter_ne.
Qed.

Lemma elem_btree_keys d k : k ∈ btree_keys d ↔ is_Some (d !! k).
Proof.
  unfold btree_keys, btree_iter. rewrite merge_sort_Permutation, list_elem_of_fmap. split.
  - intros ([k' f] & -> & Hin). apply elem_of_map_to_list in Hin. by eexists.
  - intros [f Hf]. exists (k, f). split; [done|by apply elem_of_map_to_list].
Qed.

(** C22: when the provider is opened without an interruption and every directory has a consistent record and data, possibly
    left by an interrupted operation, it opens: the ephemeral volumes are gone, each persistent one has its data and its
    record without attachments and not frozen and nothing else, and there are no other directories. *)
Theorem opening_recovers_volumes d x x' report :
  invalid_configuration self (starts_with "/" (root self)) = false → aux_cleanup x = (x', Ok report) →
  (∀ k f, d !! k = Some f → ∃ r t, whole k r t f) →
  ∃ d', open prune self true (calm d x) = (calm d' x', Ok tt) ∧
    ∀ k, match d !! k with Some f => ∃ r t, whole k r t f ∧ reopened r t (d' !! k) | None => d' !! k = None end.
Proof.
  intros Hconf Haux Hall.
  destruct (cleanup_entries_quiet (btree_keys d) d x' report) as (d' & report' & Hrun & Hother & Hkeys).
  { unfold btree_keys, btree_iter. rewrite merge_sort_Permutation. apply NoDup_fst_map_to_list. }
  { intros k [f Hf]%elem_btree_keys. destruct (Hall k f Hf) as (r & t & Hw). by exists f, r, t. }
  exists d'. split.
  - unfold open. rewrite Hconf. erewrite bind_run by reflexivity. erewrite bind_run by apply host_calm.
    erewrite bind_run by reflexivity. erewrite bind_run by apply host_calm. unfold cleanup.
    erewrite bind_run; [reflexivity|]. erewrite bind_run by (unfold with_auxiliary; cbn [auxiliary]; by rewrite Haux).
    erewrite bind_run by by apply reading_quiet. done.
  - intros k. destruct (d !! k) as [f|] eqn:Hf; [by apply Hkeys; [apply elem_btree_keys; eexists|]|].
    rewrite Hother; [done|]. intros [f ?]%elem_btree_keys. congruence.
Qed.
End quiet.

(** ** Survival *)

Section survival.
Context {X : Type} `{ArchiveCodec, RecordCodec, Auxiliary X} `{!RecordLaws} (prune : nat → Item → Item) (self : DirectoryVolumeConfig).





End survival.

(** ** Isolation *)

Section isolation.
Context {X : Type} `{ArchiveCodec, RecordCodec, Auxiliary X} (prune : nat → Item → Item) (self : DirectoryVolumeConfig).

Lemma length_prefixed_inj s t rest rest' : len s ≤ 64 → len t ≤ 64 →
  length_prefixed s ++ rest = length_prefixed t ++ rest' → s = t ∧ rest = rest'.
Proof.
  intros Hs Ht Heq. pose proof (len_nonneg s). pose proof (len_nonneg t). unfold length_prefixed in Heq. rewrite <- !app_assoc in Heq.
  apply app_inj_1 in Heq as [Hlen Heq]; [|by rewrite !Envelope.be_bytes_length].
  apply (f_equal Envelope.Envelope.of_be_bytes) in Hlen. rewrite !Envelope.of_be_be_bytes in Hlen by (cbn; lia).
  rewrite !len_bytes in Hlen. apply app_inj_1 in Heq as [Heq ->]; [|lia]. split; [by apply bytes_inj|done].
Qed.

Lemma volume_key_preimage_inj (s s' : VolumeScope) (v v' : VolumeId) :
  volume_key_preimage (as_str (scope_tenant s)) (as_str (scope_workspace s)) (as_str v) =
  volume_key_preimage (as_str (scope_tenant s')) (as_str (scope_workspace s')) (as_str v') → s = s' ∧ v = v'.
Proof.
  unfold volume_key_preimage. intros Heq. apply app_inj_1 in Heq as [_ Heq]; [|done]. apply app_inj_1 in Heq as [_ Heq]; [|done].
  apply length_prefixed_inj in Heq as [Ht Heq]; [|apply (proj2 (identifier_len _))..]. apply length_prefixed_inj in Heq as [Hw Heq]; [|apply (proj2 (identifier_len _))..].
  rewrite <- (app_nil_r (length_prefixed (as_str v))), <- (app_nil_r (length_prefixed (as_str v'))) in Heq.
  apply length_prefixed_inj in Heq as [Hv _]; [|apply (proj2 (identifier_len _))..]. apply as_str_inj in Ht, Hw, Hv.
  destruct s, s'; cbn in *; by subst.
Qed.

(** The volume an operation names; a handle may carry any key. *)
Definition acts_on (op : Operation) : option (VolumeScope * VolumeId) :=
  match op with
  | Create scope spec | Restore scope spec _ _ _ _ => Some (scope, volume_id spec)
  | Attach h _ _ | Delete h => Some (handle_scope h, handle_volume h)
  | MountIt a | Detach a | Freeze a | Thaw a | Export a _ _ _ =>
      Some (handle_scope (attachment_handle a), handle_volume (attachment_handle a))
  | Unmount m => Some (handle_scope (attachment_handle (mounted_attachment m)), handle_volume (attachment_handle (mounted_attachment m)))
  | Open _ | Write _ _ => None
  end.
Abbreviation own_key h := (volume_key (handle_scope h) (as_str (handle_volume h))).

(** A handle whose key is not that of its volume is refused before anything is read. *)
Lemma validate_handle_forged h (w : World X) : handle_key h ≠ own_key h → ∃ e, validate_handle h w = (w, Err e).
Proof.
  intros Hk. unfold validate_handle. rewrite (bool_decide_false _ Hk), orb_true_r. by eexists.
Qed.

Lemma bind_forged {A} h (c : VolumeRecord → M (World X) Outcome A) :
  (handle_key h = own_key h → ∀ r, keeps (same_except (own_key h)) (c r)) → keeps (same_except (own_key h)) (validate_handle h ≫= c).
Proof.
  intros Hc. destruct (decide (handle_key h = own_key h)) as [Hk|Hk]; [by apply keeps_bind; [apply _|touching|apply Hc]|].
  intros w. destruct (validate_handle_forged h w Hk) as [e He]. unfold mbind, M_bind. rewrite He. reflexivity.
Qed.
Lemma bind_forged_attachment {A} a (c : VolumeRecord → M (World X) Outcome A) :
  let h := attachment_handle a in
  (handle_key h = own_key h → ∀ r, keeps (same_except (own_key h)) (c r)) → keeps (same_except (own_key h)) (validate_attachment a ≫= c).
Proof.
  intros h Hc. destruct (decide (handle_key h = own_key h)) as [Hk|Hk]; [by apply keeps_bind; [apply _|touching|apply Hc]|].
  intros w. destruct (validate_handle_forged h w Hk) as [e He]. unfold validate_attachment, mbind, M_bind. fold h. rewrite He. reflexivity.
Qed.

Ltac by_attachment := apply bind_forged_attachment; let Hk := fresh in let r := fresh in intros Hk r; cbn zeta; try rewrite Hk; touching.

Lemma perform_confined op scope v (w : World X) :
  acts_on op = Some (scope, v) → same_except (volume_key scope (as_str v)) w (perform prune self op w).
Proof.
  intros Ha. assert (∀ {A} (c : M (World X) Outcome A) k, keeps (same_except k) c → same_except k w (c w).1) as Hkeeps by (intros A c k Hc; apply Hc).
  destruct op; cbn [acts_on] in Ha; try discriminate Ha; injection Ha as <- <-; cbn [perform]; apply Hkeeps.
  - touching.
  - unfold attach. destruct (negb _); [apply auxiliary_keeps|]. apply keeps_bind; [apply _|apply keeps_lift, _|]. intros u.
    apply bind_forged. intros Hk r. rewrite Hk. touching.
  - unfold mount. destruct (negb _); [apply auxiliary_keeps|]. by_attachment.
  - unfold detach. destruct (negb _); [apply auxiliary_keeps|]. by_attachment.
  - unfold unmount, detach. destruct (negb _); [apply auxiliary_keeps|]. by_attachment.
  - unfold freeze. destruct (negb (named _)); [apply auxiliary_keeps|]. apply keeps_bind; [apply _|apply keeps_reject, _|]. intros u. by_attachment.
  - unfold thaw. destruct (negb _); [apply auxiliary_keeps|]. by_attachment.
  - unfold snapshot. cbn zeta. destruct (negb (named _)); [apply auxiliary_keeps|]. by_attachment.
  - apply restore_keeps.
  - unfold delete_volume. destruct (negb _); [apply auxiliary_keeps|]. apply bind_forged. intros Hk r. rewrite Hk. touching.
Qed.

(** C11: an operation on one volume, whatever handle it presents, leaves the directory of every other volume as it is, of
    other tenants and workspaces and of the same: the keys of different volumes are hashes of different texts, and a
    handle that carries another key than that of its volume is refused. *)
Theorem volumes_are_isolated op scope v scope' v' (w : World X) :
  let text (scope : VolumeScope) (v : VolumeId) := volume_key_preimage (as_str (scope_tenant scope)) (as_str (scope_workspace scope)) (as_str v) in
  acts_on op = Some (scope, v) → (scope', v') ≠ (scope, v) →
  (hash_hex (text scope' v') = hash_hex (text scope v) → text scope' v' = text scope v) →
  directories (perform prune self op w) !! volume_key scope' (as_str v') = directories w !! volume_key scope' (as_str v').
Proof.
  intros text Ha Hne Hhash. apply (perform_confined op scope v w Ha). intros Heq. apply Hne.
  destruct (volume_key_preimage_inj scope' scope v' v) as [-> ->]; [by apply Hhash|done].
Qed.
End isolation.

(** ** A creation that stopped early *)

Section blocked.
Context {X : Type} `{ArchiveCodec, RecordCodec, Auxiliary X} (prune : nat → Item → Item) (self : DirectoryVolumeConfig) (k : string).

(** The directory has no record. *)
Definition bare (w : World X) : Prop := ∃ f, directories w !! k = Some f ∧ record_file f = None ∧ pending_file f = None.

Lemma bare_keeps {A} k' (c : M (World X) Outcome A) : k ≠ k' → keeps (same_except k') c → triple bare c (λ _, bare) (λ _, bare).
Proof.
  intros Hk Hc w (f & Hf & Hr). specialize (Hc w k Hk). assert (bare (c w).1) as Hw by (exists f; by rewrite Hc).
  by destruct (c w) as [w' [a|e]].
Qed.

Lemma bare_reading {A} (answer : gmap string Files → result VolumeError A) :
  triple bare (reading answer) (λ a w, (∃ d f, answer d = Ok a ∧ d !! k = Some f ∧ record_file f = None ∧ pending_file f = None) ∧ bare w) (λ _, bare).
Proof.
  intros w Hw. pose proof Hw as (f & Hf & Hr & Hp). unfold reading, call. destruct (answer (directories w)) as [a|e] eqn:Ha; [|done].
  destruct (next_event w) as [[[|n|] ending]|]; try done. split; [|done]. by exists (directories w), f.
Qed.

Lemma bare_auxiliary {A} (c : M X VolumeError A) : triple bare (with_auxiliary c) (λ _, bare) (λ _, bare).
Proof. intros w Hw. unfold with_auxiliary. destruct (c (auxiliary w)) as [x [a|e]]; exact Hw. Qed.

Lemma bare_entry report : triple bare (cleanup_entry prune k report) (λ _ _, False) (λ _, bare).
Proof.
  unfold cleanup_entry. eapply triple_bind; [apply bare_reading|]. intros u. apply triple_pure. intros _.
  eapply triple_bind; [by apply triple_reject|]. intros u1. apply triple_pure. intros _.
  apply (triple_bind _ _ _ (λ _ _, False)); [|by intros u2 w []].
  eapply triple_bind; [apply bare_reading|]. intros f. apply triple_pure. intros (d & f' & Ha & Hf & Hr & Hp).
  unfold files_at in Ha. rewrite Hf in Ha. injection Ha as <-. rewrite Hr, Hp. by apply triple_fail.
Qed.

Lemma bare_entries keys report : k ∈ keys → triple bare (cleanup_entries prune keys report) (λ _ _, False) (λ _, bare).
Proof.
  revert report. induction keys as [|key keys IH]; intros report Hin; [by apply not_elem_of_nil in Hin|]. cbn [cleanup_entries].
  destruct (decide (key = k)) as [->|Hne].
  - eapply triple_bind; [apply bare_entry|]. intros r w [].
  - apply elem_of_cons in Hin as [->|Hin]; [done|]. eapply triple_bind; [|intros r; by apply IH].
    apply (bare_keeps key); [done|]. touching.
Qed.

Lemma open_blocked owned : triple bare (open prune self owned) (λ _ _, False) (λ _, bare).
Proof.
  assert (triple bare host (λ _, bare) (λ _, bare)) as Hhost.
  { intros w Hw. pose proof (bare_reading (λ _, Ok tt) w Hw) as Hh. unfold host. by destruct (reading _ w) as [w' [a|e]]; [destruct Hh|]. }
  unfold open. eapply triple_bind; [by apply triple_reject|]. intros u. apply triple_pure. intros _.
  eapply triple_bind; [exact Hhost|]. intros u1. eapply triple_bind; [by apply triple_reject|]. intros u2. apply triple_pure. intros _.
  eapply triple_bind; [exact Hhost|]. intros u3. apply (triple_bind _ _ _ (λ _ _, False)); [|by intros r w []].
  unfold cleanup. eapply triple_bind; [apply bare_auxiliary|]. intros report. eapply triple_bind; [apply bare_reading|].
  intros keys. apply triple_pure. intros (d & f & Hk & Hf & _). injection Hk as <-. apply bare_entries, elem_btree_keys. by eexists.
Qed.
End blocked.

Section restarts.
Context {X : Type} `{ArchiveCodec, RecordCodec, Auxiliary X} (prune : nat → Item → Item) (self : DirectoryVolumeConfig).

(** The answers of attempts to open the provider, each with its events. *)
Fixpoint reopen (attempts : list (bool * list Event)) (w : World X) : list (result Outcome ()) :=
  match attempts with
  | [] => []
  | (owned, events) :: rest => let '(w', r) := open prune self owned (MkVolumes (directories w) events (auxiliary w)) in r :: reopen rest w'
  end.

Lemma reopen_blocked k attempts : ∀ w, bare k w → Forall (λ r, is_ok r = false) (reopen attempts w).
Proof.
  induction attempts as [|[owned evs] attempts IH]; intros w Hw; [constructor|]. cbn [reopen].
  pose proof (open_blocked prune self k owned (MkVolumes (directories w) evs (auxiliary w)) Hw) as Ho.
  destruct (open _ _ _ _) as [w' [u|e]]; [done|]. constructor; [done|by apply IH].
Qed.

(** C40: a process that stops while it creates a volume, after the directory and before its record, blocks the provider for
    good: however often it is opened afterwards, opening fails, for every volume of the worker. *)
Theorem stopped_creation_blocks_opening scope spec ending rest d x attempts :
  gofer_access self = true → ownership_restore self = true → Volume.Volume.validate spec = Ok tt →
  named_class (persistence_class spec) = true → minimum_quota_bytes self ≤ quota_bytes spec ≤ maximum_quota_bytes self →
  d !! volume_key scope (as_str (volume_id spec)) = None →
  let '(w, r) := create prune self scope spec (MkVolumes d (None :: Some (ending, None) :: rest) x) in
  r = Err Stopped ∧ Forall (λ r, is_ok r = false) (reopen attempts w).
Proof.
  intros Hg Ho Hv Hn Hq Hd. destruct (create _ _ _ _ _) as [w r] eqn:Hc. unfold create in Hc. rewrite Hn in Hc.
  unfold create_named in Hc. rewrite Hg, Ho, Hv, Hn in Hc. rewrite (proj2 (Z.leb_le _ _) (proj1 Hq)), (proj2 (Z.leb_le _ _) (proj2 Hq)) in Hc.
  erewrite bind_run in Hc by reflexivity. erewrite bind_run in Hc by reflexivity. erewrite bind_run in Hc by reflexivity. cbn zeta in Hc.
  erewrite bind_run in Hc by reflexivity. cbn [directories] in Hc. rewrite Hd in Hc. cbn iota in Hc. rewrite bool_decide_false in Hc by by intros [].
  erewrite bind_run in Hc by (unfold create_directory, call; cbn [directories]; rewrite Hd; reflexivity).
  assert (r = Err Stopped ∧ directories w !! volume_key scope (as_str (volume_id spec)) = Some (MkFiles None None None None None)) as [-> Hw].
  { unfold mbind, M_bind, host, reading, call in Hc. cbn in Hc. injection Hc as <- <-. split; [done|].
    destruct ending; apply lookup_insert_eq. }
  split; [done|]. eapply reopen_blocked. by eexists.
Qed.
End restarts.

(** A [volume.json.new] that a failed update left makes every later update of the volume fail. *)
Lemma stale_update_blocks_record {X : Type} `{ArchiveCodec, RecordCodec, Auxiliary X} k f r (w : World X) :
  directories w !! k = Some f → is_Some (pending_file f) →
  directories (replace_record k r w).1 = directories w ∧ is_ok (replace_record k r w).2 = false.
Proof.
  intros Hf Hp. unfold replace_record, write_json. destruct (record_json r) as [l|e]; [|done].
  unfold mbind, M_bind, checked, M_lift, call, files_at. cbn [map_err]. rewrite Hf. cbn [ok_or mbind result_bind].
  by rewrite bool_decide_true.
Qed.

(** ** A snapshot on another worker *)

Section transfer.
Context {X : Type} `{ArchiveCodec, RecordCodec, Auxiliary X} `{!RecordLaws, !ArchiveLaws} (prune : nat → Item → Item) (self : DirectoryVolumeConfig).
Implicit Types (d : gmap string Files) (x : X).

Lemma reading_Ok {A} (answer : gmap string Files → result VolumeError A) (w w' : World X) a :
  reading answer w = (w', Ok a) → directories w' = directories w ∧ answer (directories w) = Ok a.
Proof.
  unfold reading, call. destruct (answer (directories w)) as [b|e]; [|done]. destruct (next_event w) as [[[|n|] ending]|]; try done.
  intros Heq. by injection Heq as <- ->.
Qed.

Lemma checked_Ok {A} (r : result VolumeError A) (w w' : World X) a : checked r w = (w', Ok a) → w' = w ∧ r = Ok a.
Proof. unfold checked. intros [<- Hr]%M_lift_Ok_inv. by apply map_err_Ok in Hr. Qed.

Lemma validate_attachment_Ok a (w w' : World X) r : validate_attachment a w = (w', Ok r) →
  directories w' = directories w ∧ record_class r = handle_class (attachment_handle a) ∧ record_quota r = handle_quota (attachment_handle a).
Proof.
  intros Hv. apply M_bind_Ok_inv in Hv as (r' & w1 & Hh & Hv). apply M_bind_Ok_inv in Hv as (u & w2 & Hrej & Hv).
  apply M_reject_Ok_inv in Hrej as [-> _]. injection Hv as <- <-. unfold validate_handle in Hh.
  apply M_bind_Ok_inv in Hh as (u1 & w3 & Hrej & Hh). apply M_reject_Ok_inv in Hrej as [-> _].
  apply M_bind_Ok_inv in Hh as (r2 & w4 & Hread & Hh). apply M_bind_Ok_inv in Hh as (u2 & w5 & Hval & Hh). injection Hh as <- <-.
  apply checked_Ok in Hval as [-> Hval]. unfold read_record in Hread. apply M_bind_Ok_inv in Hread as (l & w6 & Hl & Hread).
  apply reading_Ok in Hl as [Hd _]. apply M_bind_Ok_inv in Hread as (u3 & w7 & Hrej & Hread). apply M_reject_Ok_inv in Hrej as [-> _].
  apply checked_Ok in Hread as [-> _]. split; [done|]. unfold validate_record in Hval. rewrite reject_if_Ok, !orb_false_iff in Hval.
  destruct Hval as [[[_ Hc] Hq] _]. apply negb_false_iff in Hc, Hq. apply bool_decide_eq_true in Hc. apply Z.eqb_eq in Hq. done.
Qed.

(** What a snapshot that succeeds describes. *)
Lemma snapshot_Ok a dest found elapsed (w w' : World X) s l f t :
  named (attachment_handle a) = true → directories w !! handle_key (attachment_handle a) = Some f → data f = Some t →
  snapshot self a dest found elapsed w = (w', Ok (s, l)) →
  let h := attachment_handle a in
  export_directory t found dest (handle_quota h) (operation_timeout self) elapsed = Ok l ∧
  s = MkSnapshot SNAPSHOT_VERSION DIRECTORY_VOLUME_PROVIDER_ID (handle_volume h) (handle_class h) ("sha256:" +:+ hash_hex l) (length_z l)
        (handle_quota h) SNAPSHOT_FORMAT CrossWorkerSameBackend.
Proof.
  intros Hn Hf Ht Hs. unfold snapshot in Hs. cbn zeta in Hs. rewrite Hn in Hs. cbn [negb] in Hs.
  apply M_bind_Ok_inv in Hs as (r & w1 & Hv & Hs). apply validate_attachment_Ok in Hv as (Hd & Hc & Hq).
  apply M_bind_Ok_inv in Hs as (u & w2 & Hrej & Hs). apply M_reject_Ok_inv in Hrej as [-> _].
  apply M_bind_Ok_inv in Hs as (tree & w3 & Htree & Hs). apply reading_Ok in Htree as [_ Htree]. unfold files_at in Htree.
  rewrite Hd, Hf in Htree. cbn [ok_or mbind result_bind] in Htree. rewrite Ht in Htree. injection Htree as <-.
  apply M_bind_Ok_inv in Hs as (archive & w4 & He & Hs). apply checked_Ok in He as [-> He].
  apply M_bind_Ok_inv in Hs as (u1 & w5 & _ & Hs). erewrite bind_run in Hs by reflexivity. injection Hs as _ <- <-.
  cbn zeta. rewrite <- Hc, <- Hq. done.
Qed.

Lemma new_record_fits scope (spec : VolumeSpec) : in_u64 (quota_bytes spec) →
  fits (new_record scope spec (volume_key scope (as_str (volume_id spec)))).
Proof.
  intros Hq. split; cbn [new_record record_schema_version record_provider record_key record_tenant record_workspace record_volume record_quota attachments];
    try apply (proj2 (identifier_len _)); try done.
  pose proof (hash_valid (volume_key_preimage (as_str (scope_tenant scope)) (as_str (scope_workspace scope)) (as_str (volume_id spec)))) as Hk.
  apply andb_true_iff in Hk as [Hk%Z.eqb_eq _]. unfold volume_key, volume_key_values. lia.
Qed.

(** The directory of a volume with data [t] and nothing else. *)
Definition fresh (l : list ascii) (t : Item) : Files := MkFiles (Some l) None (Some t) None None.

Lemma create_named_quiet scope spec d x l :
  let key := volume_key scope (as_str (volume_id spec)) in
  gofer_access self = true → ownership_restore self = true → Volume.Volume.validate spec = Ok tt →
  named_class (persistence_class spec) = true → minimum_quota_bytes self ≤ quota_bytes spec ≤ maximum_quota_bytes self →
  d !! key = None → record_json (new_record scope spec key) = Ok l →
  create_named prune self scope spec (MkVolumes d [] x) = (MkVolumes (<[key := fresh l (Folder false [])]> d) [] x, Ok (new_handle scope spec key)).
Proof.
  intros key Hg Ho Hv Hn Hq Hd Hl. unfold create_named. rewrite Hg, Ho, Hv, Hn. fold key.
  rewrite (proj2 (Z.leb_le _ _) (proj1 Hq)), (proj2 (Z.leb_le _ _) (proj2 Hq)).
  do 3 (erewrite bind_run by reflexivity). cbn zeta. erewrite bind_run by apply exists_quiet. rewrite Hd, bool_decide_false by by intros [].
  erewrite bind_run by (unfold create_directory; rewrite call_calm, Hd; reflexivity).
  erewrite bind_run by apply host_calm. erewrite bind_run; [reflexivity|]. apply or_undo_quiet. unfold initialize.
  erewrite bind_run by by apply call_here. erewrite bind_run by apply host_calm. unfold write_record_new, write_json. rewrite Hl.
  erewrite bind_run; [|cbn [map_err]; erewrite bind_run by reflexivity; by apply call_here].
  erewrite bind_run by apply host_calm. apply host_calm.
Qed.

Lemma restore_data_quiet key d x l t archive t' : unpack archive = (t', Ok tt) →
  restore_data prune key (Ok archive) (MkVolumes (<[key := fresh l t]> d) [] x) = (MkVolumes (<[key := fresh l t']> d) [] x, Ok tt).
Proof.
  intros Hu. unfold restore_data. erewrite bind_run by by apply call_here. erewrite bind_run by reflexivity.
  erewrite (bind_run (unpack_restoring prune key archive) _ _ (MkVolumes (<[key := set_restoring (Some t') (fresh l t)]> d) [] x) tt).
  2: { unfold unpack_restoring. rewrite Hu. by erewrite bind_run by by apply (call_here key _ _ _ (λ _, mret tt)). }
  erewrite bind_run by apply host_calm. erewrite bind_run by (apply rename_data_quiet; [by eexists|done]).
  erewrite bind_run by (unfold rename_or_roll_back, rename_restoring; rewrite rename_data_quiet; [reflexivity|by eexists|done]).
  erewrite bind_run by apply host_calm.
  erewrite bind_run by by apply (call_here key _ _ _ (λ _, mret tt)). apply host_calm.
Qed.
End transfer.

(** C20: the snapshot of a frozen volume whose links have relative targets restores on another worker that has no volume of
    that name: the restore accepts its archive and its description, and without an interruption it creates the volume of the
    scope there with exactly the data that the archive unpacks to. *)
Theorem snapshot_restores_elsewhere {X : Type} `{ArchiveCodec, RecordCodec, Auxiliary X} `{!RecordLaws, !ArchiveLaws}
    (prune : nat → Item → Item) (self self' : DirectoryVolumeConfig) (w w' : World X) a dest found elapsed s l f t scope (spec : VolumeSpec)
    path elapsed' d x t' :
  let h := attachment_handle a in
  let key := volume_key scope (as_str (volume_id spec)) in
  named h = true → directories w !! handle_key h = Some f → data f = Some t → well_formed t = true → links_ok t = true →
  snapshot self a dest found elapsed w = (w', Ok (s, l)) →
  Volume.Volume.validate spec = Ok tt → volume_id spec = handle_volume h → persistence_class spec = handle_class h →
  quota_bytes spec = handle_quota h → in_u64 (quota_bytes spec) → named_class (persistence_class spec) = true →
  gofer_access self' = true → ownership_restore self' = true →
  minimum_quota_bytes self' ≤ quota_bytes spec ≤ maximum_quota_bytes self' → (∀ i, elapsed' i ≤ operation_timeout self') →
  d !! key = None → unpack l = (t', Ok tt) →
  ∃ l', record_json (new_record scope spec key) = Ok l' ∧
    restore prune self' scope spec s path (λ _, Ok l) elapsed' (MkVolumes d [] x) =
      (MkVolumes (<[key := fresh l' t']> d) [] x, Ok (new_handle scope spec key)).
Proof.
  intros h key Hn Hf Ht Hw Hl Hs Hv Hid Hc Hq Hu Hnc Hg Ho Hr Htime Hd Hunpack.
  destruct (snapshot_Ok self a dest found elapsed w w' s l f t Hn Hf Ht Hs) as [He ->]. fold h in He. rewrite <- Hq in He.
  destruct (record_stored _ (new_record_fits scope spec Hu)) as (l' & Hl' & _). exists l'. split; [exact Hl'|].
  pose proof (export_directory_Ok _ _ _ _ _ _ _ (proj1 Hu) Hw He) as (_ & _ & _ & Hlen & _).
  match goal with |- restore _ _ _ _ ?snap _ _ _ _ = _ => set (s := snap) end.
  assert (incompatibility self' spec s = None) as Hinc.
  { unfold incompatibility. rewrite Hg, Ho, (bool_decide_true (vs_provider s = _)), (bool_decide_true (vs_volume s = _)),
      (bool_decide_true (vs_class s = _)), (bool_decide_true (vs_format s = _)) by done.
    rewrite (proj2 (Z.eqb_eq (vs_quota s) _)) by done. reflexivity. }
  unfold restore. rewrite Hnc, Hinc. cbn [negb]. erewrite bind_run by reflexivity. cbn beta iota.
  rewrite (bool_decide_true (_ = vs_digest s)), (proj2 (Z.eqb_eq _ (vs_size s))), (proj2 (Z.ltb_ge _ _)) by done.
  erewrite bind_run by reflexivity.
  erewrite bind_run; [|unfold checked; rewrite (exported_is_accepted t found dest _ (operation_timeout self) elapsed l) by done; reflexivity].
  erewrite bind_run by by apply (create_named_quiet prune self' scope spec d x l'). cbn [new_handle handle_key].
  erewrite bind_run; [reflexivity|]. by apply or_undo_quiet, restore_data_quiet.
Qed.

(** ** Examples *)

Section examples.
#[local] Existing Instance example_archive.
#[local] Existing Instance Example.codec.
#[local] Existing Instance Example.auxiliary_none.
#[local] Existing Instance Example.laws.
#[local] Existing Instance example_archive_laws.
Import DirectoryVolumeExample.Example.

Lemma example_fits : fits record.
Proof. unfold record. rewrite <- key_is. apply new_record_fits. vm_compute. by split. Qed.

Lemma example_whole : whole key record (Folder false []) files.
Proof.
  exists (put_record record). split; [done|]. split; [done|]. split; [apply example_fits|]. split; [vm_compute; reflexivity|by left].
Qed.


Lemma example_all_whole k f : ({[ key := files ]} : gmap string Files) !! k = Some f → ∃ r t, whole k r t f.
Proof. intros [<- <-]%lookup_singleton_Some. exists record, (Folder false []). apply example_whole. Qed.

Lemma opening_recovers_volumes_witness :
  ∃ d', open (λ _ t, t) worker true (MkVolumes {[ key := files ]} [] tt) = (MkVolumes d' [] tt, Ok tt) ∧
    ∀ k, match ({[ key := files ]} : gmap string Files) !! k with
         | Some f => ∃ r t, whole k r t f ∧ reopened r t (d' !! k) | None => d' !! k = None end.
Proof. exact (opening_recovers_volumes (λ _ t, t) worker {[ key := files ]} tt tt (MkReport 0 0 0 0) eq_refl eq_refl example_all_whole). Defined.

Lemma volumes_are_isolated_witness :
  directories (perform (λ _ t, t) worker (Create (MkScope (id_lit "other") (id_lit "main")) spec) volumes) !! volume_key scope "cache" =
  directories volumes !! volume_key scope "cache".
Proof.
  refine (volumes_are_isolated (λ _ t, t) worker (Create (MkScope (id_lit "other") (id_lit "main")) spec) (MkScope (id_lit "other") (id_lit "main"))
    (id_lit "cache") scope (id_lit "cache") volumes eq_refl _ _).
  - intros Heq. apply (f_equal (λ p, as_str (scope_tenant p.1))) in Heq. discriminate Heq.
  - intros Heq. exfalso. revert Heq. vm_compute. discriminate.
Defined.

Lemma stopped_creation_blocks_opening_witness :
  let '(w, r) := create (λ _ t, t) worker scope spec (MkVolumes ∅ [None; Some (Before, None)] tt) in
  r = Err Stopped ∧ Forall (λ r, is_ok r = false) (reopen (λ _ t, t) worker [(true, []); (true, [])] w).
Proof.
  assert (minimum_quota_bytes worker ≤ quota_bytes spec ≤ maximum_quota_bytes worker) as Hq by (cbn; unfold MINIMUM_NAMED_VOLUME_BYTES; lia).
  assert (Volume.Volume.validate spec = Ok tt) as Hv by (vm_compute; reflexivity).
  exact (stopped_creation_blocks_opening (λ _ t, t) worker scope spec Before [] ∅ tt [(true, []); (true, [])] eq_refl eq_refl Hv eq_refl Hq (lookup_empty _)).
Defined.

Lemma snapshot_restores_elsewhere_witness :
  ∃ l', record_json (new_record scope spec (volume_key scope (as_str (volume_id spec)))) = Ok l' ∧
    restore (λ _ t, t) worker scope spec volume_snapshot "/archive" (λ _, Ok archive) (λ _, 0) (MkVolumes ∅ [] tt) =
      (MkVolumes (<[volume_key scope (as_str (volume_id spec)) := fresh l' (Folder false [("restored", RegularFile false archive 1 8)])]> ∅) [] tt,
       Ok (new_handle scope spec (volume_key scope (as_str (volume_id spec))))).
Proof.
  assert (minimum_quota_bytes worker ≤ quota_bytes spec ≤ maximum_quota_bytes worker) as Hq by (cbn; unfold MINIMUM_NAMED_VOLUME_BYTES; lia).
  assert (Volume.Volume.validate spec = Ok tt) as Hv by (vm_compute; reflexivity).
  assert (in_u64 (quota_bytes spec)) as Hu by (vm_compute; by split).
  assert (well_formed example_tree = true ∧ links_ok example_tree = true) as [Hw Hl] by (vm_compute; by split).
  assert (∀ i : nat, (λ _ : nat, 0) i ≤ operation_timeout worker) as Ht by (intros _; done).
  exact (snapshot_restores_elsewhere (λ _ t, t) worker worker frozen_volumes frozen_volumes attachment "/archive" false (λ _, 0) volume_snapshot
    archive frozen_files example_tree scope spec "/archive" (λ _, 0) ∅ tt (Folder false [("restored", RegularFile false archive 1 8)])
    eq_refl (lookup_singleton_eq _ _) eq_refl Hw Hl snapshot_run Hv eq_refl eq_refl eq_refl Hu eq_refl eq_refl eq_refl Hq Ht (lookup_empty _) eq_refl).
Defined.
End examples.
