(* ===== verification/WorkOrder.v ===== *)
(** * Work orders and worker shapes

    Models [crates/sandbox-core/src/work_order.rs], [worker.rs] and
    [capability.rs]: the signed authorization of one operation with its
    resource ceilings, and the capacity that a worker advertises. *)
From S2P Require Import Prelude Identity GuestProfile Volume.
Import GuestProfile.GuestProfile Volume.Volume.

Module WorkOrder.

Definition WORK_ORDER_VERSION : Z := 4.
Definition MAXIMUM_WORK_ORDER_LIFETIME_MILLIS : Z := 5 * 60 * 1000.

Inductive WorkOrderOperation : Type :=
| Ping | Stats | Admit | Run | Create | Restore | Inspect | Pause | Resume | Stop | Logs | Snapshot.

#[global] Instance WorkOrderOperation_eq_dec : EqDecision WorkOrderOperation.
Proof. solve_decision. Defined.

Definition requires_sandbox (o : WorkOrderOperation) : bool :=
  match o with Ping | Stats | Admit => false | _ => true end.

Record ResourceCeilings : Type := MkCeilings {
  allowed_guest_profiles : list GuestProfileIdentity;
  maximum_services : Z;
  maximum_timeout_ms : Z;
  memory_bytes_per_service : Z;
  cpu_per_service_millis : Z;
  pids_per_service : Z;
  tmpfs_bytes : Z;
  writable_root_bytes_per_service : Z;
  maximum_volumes : Z;
  maximum_volume_bytes : Z;
  maximum_output_bytes : Z
}.

(** The [any] over the enumerated profiles: one occurs earlier in the list, or
    its canonical text does not parse back to it. *)
Fixpoint profiles_rejected (before : list GuestProfileIdentity) (l : list GuestProfileIdentity) : bool :=
  match l with
  | [] => false
  | profile :: l' =>
      bool_decide (profile ∈ before)
      || negb (match profile_parse (canonical profile) with
               | Ok p => bool_decide (p = profile)
               | Err _ => false
               end)
      || profiles_rejected (before ++ [profile]) l'
  end.

Definition validate_ceilings (c : ResourceCeilings) : result CoreError () :=
  reject_if (bool_decide (allowed_guest_profiles c = [])
             || (16 <? length_z (allowed_guest_profiles c))
             || profiles_rejected [] (allowed_guest_profiles c)
             || (maximum_services c =? 0) || (64 <? maximum_services c)
             || (maximum_timeout_ms c =? 0) || (300000 <? maximum_timeout_ms c)
             || (memory_bytes_per_service c =? 0) || (cpu_per_service_millis c =? 0)
             || (pids_per_service c =? 0) || (tmpfs_bytes c =? 0)
             || (writable_root_bytes_per_service c =? 0) || (128 <? maximum_volumes c)
             || (maximum_volume_bytes c =? 0) || (maximum_output_bytes c =? 0))
    (InvalidWorkOrder "resource ceilings are invalid").

Record WorkOrderClaims : Type := MkClaims {
  schema_version : Z;
  tenant_id : TenantId;
  workspace_id : WorkspaceId;
  subject_id : SubjectId;
  request_id : string;
  operation : WorkOrderOperation;
  sandbox_id : option SandboxId;
  assignment_epoch : AssignmentEpoch;
  issued_unix_millis : Z;
  expires_unix_millis : Z;
  nonce : string;
  operation_digest : string;
  resource_ceilings : ResourceCeilings
}.

Definition validate_claims (c : WorkOrderClaims) : result CoreError () :=
  reject_if (negb (schema_version c =? WORK_ORDER_VERSION)) (InvalidWorkOrder "unsupported schema version");;
  reject_if (negb (bounded_token (request_id c) 64) || negb (bounded_token (nonce c) 96))
    (InvalidWorkOrder "request ID or nonce is invalid");;
  reject_if (negb (Bool.eqb (requires_sandbox (operation c)) (bool_decide (is_Some (sandbox_id c)))))
    (InvalidWorkOrder "sandbox identity does not match the operation");;
  reject_if ((issued_unix_millis c =? 0) || (expires_unix_millis c <=? issued_unix_millis c)
             || (MAXIMUM_WORK_ORDER_LIFETIME_MILLIS
                 <? saturating_sub (expires_unix_millis c) (issued_unix_millis c)))
    (InvalidWorkOrder "work-order lifetime is invalid");;
  map_err (λ error, InvalidWorkOrder (core_error_to_string error))
    (validate_digest "operation" (operation_digest c));;
  validate_ceilings (resource_ceilings c).

Record SignedWorkOrder : Type := MkSigned { claims : WorkOrderClaims; signature : string }.

(** ** Worker shapes *)

Definition WORKER_RESOURCE_SHAPE_VERSION : Z := 1.

Inductive WorkerState : Type :=
| Starting | Clean | Leased | Running | Draining | Cleaning | Quarantined.

#[global] Instance WorkerState_eq_dec : EqDecision WorkerState.
Proof. solve_decision. Defined.

Definition is_ready (s : WorkerState) : bool := match s with Clean => true | _ => false end.

Record WorkerResourceShape : Type := MkShape {
  shape_schema_version : Z;
  shape_name : string;
  sandbox_cpu_millis : Z;
  sandbox_memory_bytes : Z;
  sandbox_pids : Z;
  sandbox_ephemeral_storage_bytes : Z;
  shape_maximum_services : Z
}.

Record SandboxResourceDemand : Type := MkDemand {
  demand_services : Z;
  demand_cpu_millis : Z;
  demand_memory_bytes : Z;
  demand_pids : Z;
  demand_ephemeral_storage_bytes : Z
}.

Definition shape_name_byte (c : ascii) : bool := is_ascii_lowercase c || is_ascii_digit c || is_byte "-" c.

Definition valid_name (value : string) : bool :=
  negb (bool_decide (value = EmptyString)) && (len value <=? 63) && all_bytes shape_name_byte value
  && match first_byte value with Some b => is_ascii_alphanumeric b | None => false end
  && match last_byte value with Some b => is_ascii_alphanumeric b | None => false end.

Definition validate_shape (s : WorkerResourceShape) : result CoreError () :=
  reject_if (negb (shape_schema_version s =? WORKER_RESOURCE_SHAPE_VERSION) || negb (valid_name (shape_name s))
             || (sandbox_cpu_millis s =? 0) || (64000 <? sandbox_cpu_millis s)
             || (sandbox_memory_bytes s <? 64 * 1024 * 1024)
             || (1024 * 1024 * 1024 * 1024 <? sandbox_memory_bytes s)
             || (sandbox_pids s =? 0) || (1048576 <? sandbox_pids s)
             || (sandbox_ephemeral_storage_bytes s <? 64 * 1024 * 1024)
             || (16 * 1024 * 1024 * 1024 * 1024 <? sandbox_ephemeral_storage_bytes s)
             || (shape_maximum_services s =? 0) || (64 <? shape_maximum_services s))
    (InvalidSpecification "worker resource shape is invalid").

Definition validate_demand (d : SandboxResourceDemand) : result CoreError () :=
  reject_if ((demand_services d =? 0) || (demand_cpu_millis d =? 0) || (demand_memory_bytes d =? 0)
             || (demand_pids d =? 0))
    (InvalidSpecification "sandbox resource demand is invalid").

Definition require_capacity (s : WorkerResourceShape) (d : SandboxResourceDemand) : result CoreError () :=
  validate_shape s;;
  validate_demand d;;
  reject_if ((shape_maximum_services s <? demand_services d) || (sandbox_cpu_millis s <? demand_cpu_millis d)
             || (sandbox_memory_bytes s <? demand_memory_bytes d) || (sandbox_pids s <? demand_pids d)
             || (sandbox_ephemeral_storage_bytes s <? demand_ephemeral_storage_bytes d))
    (InvalidSpecification ("sandbox demand exceeds worker resource shape `" +:+ shape_name s +:+ "`")).

(** ** Backend capabilities *)

Record NetworkCapabilities : Type := MkNetworkCapabilities {
  http_connect_proxy : bool;
  reverse_http_ingress : bool;
  restricted_tcp : bool;
  transparent_tcp : bool;
  udp : bool
}.

Definition LOOPBACK : NetworkCapabilities := MkNetworkCapabilities false false false false false.
Definition USERSPACE : NetworkCapabilities := MkNetworkCapabilities true true false false false.
Definition PRIVATE : NetworkCapabilities := MkNetworkCapabilities true true true false false.

Record BackendCapabilities : Type := MkCapabilities {
  multi_container : bool;
  pause_resume : bool;
  live_snapshot : bool;
  stop_and_snapshot : bool;
  preserves_internal_connections : bool;
  writable_root_filesystems : bool;
  writable_root_snapshots : bool;
  named_volumes : bool;
  artifact_volumes : bool;
  secret_volumes : bool;
  volume_snapshots : bool;
  volume_snapshot_portability : SnapshotPortability;
  snapshot_portability : SnapshotPortability;
  maximum_containers : Z;
  maximum_writable_root_bytes : Z;
  guest_profiles : list GuestProfile;
  network : NetworkCapabilities
}.

Definition gvisor_snapshot (maximum_containers maximum_writable_root_bytes : Z)
    (p : SnapshotPortability) (profiles : list GuestProfile) : BackendCapabilities :=
  MkCapabilities true true true true true true true true true true true p p maximum_containers
    maximum_writable_root_bytes profiles LOOPBACK.

Definition with_network (n : NetworkCapabilities) (c : BackendCapabilities) : BackendCapabilities :=
  MkCapabilities (multi_container c) (pause_resume c) (live_snapshot c) (stop_and_snapshot c)
    (preserves_internal_connections c) (writable_root_filesystems c) (writable_root_snapshots c)
    (named_volumes c) (artifact_volumes c) (secret_volumes c) (volume_snapshots c)
    (volume_snapshot_portability c) (snapshot_portability c) (maximum_containers c)
    (maximum_writable_root_bytes c) (guest_profiles c) n.

End WorkOrder.
Import WorkOrder.

(** ** What accepted claims and capacities say *)

Lemma profiles_accepted before l :
  profiles_rejected before l = false →
  NoDup l ∧ (∀ p, p ∈ l → p ∉ before) ∧ Forall (λ p, profile_parse (canonical p) = Ok p) l.
Proof.
  revert before. induction l as [|p l IH]; intros before Hr; cbn [profiles_rejected] in Hr.
  { split_and!; [constructor|set_solver|constructor]. }
  rewrite !orb_false_iff in Hr. destruct Hr as [[Hb%bool_decide_eq_false Hp%negb_false_iff] Hrest].
  destruct (IH _ Hrest) as (Hnd & Hnot & Hall). split_and!.
  - apply NoDup_cons. split; [|done]. intros Hin. apply (Hnot p Hin). set_solver.
  - intros q [->|Hin]%elem_of_cons; [done|]. specialize (Hnot q Hin). set_solver.
  - constructor; [|done]. destruct (profile_parse (canonical p)) as [q|]; [|done].
    by apply bool_decide_eq_true in Hp as ->.
Qed.

Lemma validate_claims_Ok c :
  validate_claims c = Ok tt →
  bounded_token (request_id c) 64 = true ∧ bounded_token (nonce c) 96 = true ∧
  (requires_sandbox (operation c) = true ↔ is_Some (sandbox_id c)) ∧
  issued_unix_millis c ≠ 0 ∧
  issued_unix_millis c < expires_unix_millis c ≤ issued_unix_millis c + MAXIMUM_WORK_ORDER_LIFETIME_MILLIS ∧
  validate_ceilings (resource_ceilings c) = Ok tt.
Proof.
  unfold validate_claims. rewrite !seq_Ok, !reject_if_Ok, !orb_false_iff, !negb_false_iff.
  intros (_ & [Hr Hn] & Ho & [[Hi He] Hl] & _ & Hc).
  apply Bool.eqb_prop in Ho. unfold saturating_sub in Hl.
  split_and!; [done|done| |lia|lia|lia|done].
  rewrite Ho. apply bool_decide_eq_true.
Qed.

Lemma require_capacity_Ok s d :
  require_capacity s d = Ok tt →
  demand_services d ≤ shape_maximum_services s ≤ 64 ∧
  demand_cpu_millis d ≤ sandbox_cpu_millis s ≤ 64000 ∧
  demand_memory_bytes d ≤ sandbox_memory_bytes s ∧
  demand_pids d ≤ sandbox_pids s ∧
  demand_ephemeral_storage_bytes d ≤ sandbox_ephemeral_storage_bytes s.
Proof.
  unfold require_capacity, validate_shape. rewrite !seq_Ok, !reject_if_Ok, !orb_false_iff, !Z.ltb_ge.
  intros (Hs & _ & Hd). destruct_and!. split_and!; assumption.
Qed.
