(* ===== verification/Autoscale.v ===== *)
(** * Worker pools and autoscaling

    Models [crates/sandbox-core/src/autoscale.rs]: the catalogue of worker
    pools with its validation and routing, service levels, and the decision of
    the autoscaler on an observed pool.  Numbers of workers are [u32]. *)
From S2P Require Import Prelude Identity GuestProfile WorkOrder.
Import GuestProfile.GuestProfile WorkOrder.WorkOrder.

Module Autoscale.

Definition WORKER_POOL_CATALOG_VERSION : Z := 1.
Definition MAXIMUM_WORKER_POOLS : Z := 128.

Inductive NetworkFeatureTier : Type := TierLoopback | UserspaceEgress | UserspaceIngress.
Inductive StorageFeatureTier : Type := TierEphemeral | TierDirectory | TierPersistent.

Record WorkerPoolKey : Type := MkPoolKey {
  attested_root_cohort : string;
  key_resource_shape : string;
  key_guest_profile : GuestProfileIdentity;
  runtime_compatibility_cohort : string;
  network_tier : NetworkFeatureTier;
  storage_tier : StorageFeatureTier
}.

#[global] Instance NetworkFeatureTier_eq_dec : EqDecision NetworkFeatureTier.
Proof. solve_decision. Defined.
#[global] Instance StorageFeatureTier_eq_dec : EqDecision StorageFeatureTier.
Proof. solve_decision. Defined.
#[global] Instance WorkerPoolKey_eq_dec : EqDecision WorkerPoolKey.
Proof. solve_decision. Defined.

Definition valid_operator_name (value : string) : bool :=
  negb (bool_decide (value = EmptyString)) && (len value <=? 63)
  && all_bytes (λ b, is_ascii_lowercase b || is_ascii_digit b || is_byte "-" b) value
  && match first_byte value with Some b => is_ascii_alphanumeric b | None => false end
  && match last_byte value with Some b => is_ascii_alphanumeric b | None => false end.

Definition validate_key (k : WorkerPoolKey) : result CoreError () :=
  reject_if (negb (valid_operator_name (attested_root_cohort k)) || negb (valid_operator_name (key_resource_shape k))
             || negb (valid_operator_name (runtime_compatibility_cohort k))
             || (63 <? len (canonical (key_guest_profile k))))
    (InvalidSpecification "worker pool key is invalid").

(** A [WorkerPoolRequest] has the fields of the key that it becomes. *)
Record WorkerPoolRequest : Type := MkPoolRequest {
  request_root_cohort : string;
  request_resource_shape : string;
  request_guest_profile : GuestProfileIdentity;
  request_compatibility_cohort : string;
  request_network_tier : NetworkFeatureTier;
  request_storage_tier : StorageFeatureTier
}.

Definition as_key (r : WorkerPoolRequest) : WorkerPoolKey :=
  MkPoolKey (request_root_cohort r) (request_resource_shape r) (request_guest_profile r)
    (request_compatibility_cohort r) (request_network_tier r) (request_storage_tier r).

Record PoolPolicy : Type := MkPolicy {
  minimum_workers : Z;
  maximum_workers : Z;
  warm_headroom : Z;
  maximum_scale_up_per_reconcile : Z;
  maximum_scale_down_per_reconcile : Z;
  idle_before_scale_down_ms : Z
}.

Definition validate_policy (p : PoolPolicy) : result CoreError () :=
  reject_if ((maximum_workers p =? 0) || (100000 <? maximum_workers p)
             || (maximum_workers p <? minimum_workers p) || (maximum_workers p <? warm_headroom p)
             || (maximum_scale_up_per_reconcile p =? 0) || (maximum_scale_down_per_reconcile p =? 0)
             || (30 * 24 * 60 * 60 * 1000 <? idle_before_scale_down_ms p))
    (InvalidSpecification "worker pool autoscale policy is invalid").

Record WorkerPool : Type := MkPool {
  pool_name : string;
  kubernetes_stateful_set : string;
  placement_topology : string;
  pool_ceilings : ResourceCeilings;
  pool_key : WorkerPoolKey;
  policy : PoolPolicy;
  cold_fallback : bool
}.

Record WorkerPoolCatalog : Type := MkCatalog { catalog_schema_version : Z; pools : list WorkerPool }.

(** The loop of [WorkerPoolCatalog::validate], with the sets of names, of
    stateful sets and of keys seen so far; it counts the fallbacks. *)
Fixpoint validate_pools (names sets : list string) (keys : list WorkerPoolKey) (fallback_count : Z)
    (l : list WorkerPool) : result CoreError Z :=
  match l with
  | [] => mret fallback_count
  | pool :: l' =>
      reject_if (negb (valid_operator_name (pool_name pool))
                 || negb (valid_operator_name (kubernetes_stateful_set pool))
                 || negb (valid_operator_name (placement_topology pool))
                 || bool_decide (pool_name pool ∈ names)
                 || bool_decide (kubernetes_stateful_set pool ∈ sets)
                 || bool_decide (pool_key pool ∈ keys))
        (InvalidSpecification "worker pool catalog contains duplicate or invalid identity");;
      validate_key (pool_key pool);;
      validate_ceilings (pool_ceilings pool);;
      validate_policy (policy pool);;
      validate_pools (pool_name pool :: names) (kubernetes_stateful_set pool :: sets) (pool_key pool :: keys)
        (if cold_fallback pool then fallback_count + 1 else fallback_count) l'
  end.

Definition validate_catalog (c : WorkerPoolCatalog) : result CoreError () :=
  reject_if (negb (catalog_schema_version c =? WORKER_POOL_CATALOG_VERSION) || bool_decide (pools c = [])
             || (MAXIMUM_WORKER_POOLS <? length_z (pools c)))
    (InvalidSpecification "worker pool catalog version or size is invalid");;
  fallback_count ← validate_pools [] [] [] 0 (pools c);
  reject_if (negb (fallback_count =? 1))
    (InvalidSpecification "worker pool catalog must contain exactly one cold fallback").

Definition route (c : WorkerPoolCatalog) (request : WorkerPoolRequest) : result (failure CoreError) WorkerPool :=
  map_err Rejected (validate_catalog c);;
  let requested_key := as_key request in
  map_err Rejected (validate_key requested_key);;
  expect "validated catalog has one fallback"
    match find (λ pool, bool_decide (pool_key pool = requested_key)) (pools c) with
    | Some pool => Some pool
    | None => find cold_fallback (pools c)
    end.

Definition pool (c : WorkerPoolCatalog) (name : string) : result CoreError WorkerPool :=
  validate_catalog c;;
  ok_or (InvalidSpecification "worker pool is not present in the reviewed catalog")
    (find (λ pool, bool_decide (pool_name pool = name)) (pools c)).

Inductive ServiceLevelPolicy : Type := ScaleToZero | RetainedWarm (clean_workers : Z).

Definition apply_level (level : ServiceLevelPolicy) (p : PoolPolicy) : result CoreError PoolPolicy :=
  validate_policy p;;
  p' ← match level with
       | ScaleToZero =>
           mret (MkPolicy 0 (maximum_workers p) 0 (maximum_scale_up_per_reconcile p)
                   (maximum_scale_down_per_reconcile p) (idle_before_scale_down_ms p))
       | RetainedWarm clean_workers =>
           reject_if ((clean_workers =? 0) || (maximum_workers p <? clean_workers))
             (InvalidSpecification "retained warm service level is invalid");;
           mret (MkPolicy (Z.max (minimum_workers p) clean_workers) (maximum_workers p) clean_workers
                   (maximum_scale_up_per_reconcile p) (maximum_scale_down_per_reconcile p)
                   (idle_before_scale_down_ms p))
       end;
  validate_policy p';;
  mret p'.

Record PoolObservation : Type := MkObservation {
  current_workers : Z;
  clean_workers : Z;
  leased_or_active_workers : Z;
  draining_workers : Z;
  queued_assignments : Z;
  quota_workers : Z;
  idle_since_unix_ms : option Z
}.

Definition validate_observation (o : PoolObservation) : result CoreError () :=
  routable ← ok_or (InvalidSpecification "worker pool counters overflow")
    (u32_checked_add (clean_workers o) (leased_or_active_workers o));
  reject_if (current_workers o <? routable)
    (InvalidSpecification "routable worker counters exceed current capacity").

Record AutoscaleDecision : Type := MkDecision {
  desired_workers : Z;
  create_workers : Z;
  drain_clean_workers : Z;
  backpressured_assignments : Z
}.

Definition effective_maximum (p : PoolPolicy) (o : PoolObservation) : Z :=
  Z.min (maximum_workers p) (quota_workers o).
Definition required (p : PoolPolicy) (o : PoolObservation) : Z :=
  Z.max (u32_saturating_add (u32_saturating_add (leased_or_active_workers o) (queued_assignments o)) (warm_headroom p))
    (minimum_workers p).
Definition idle_elapsed (p : PoolPolicy) (o : PoolObservation) (now : Z) : bool :=
  match idle_since_unix_ms o with
  | Some idle_since => idle_before_scale_down_ms p <=? saturating_sub now idle_since
  | None => false
  end.

Definition reconcile (p : PoolPolicy) (o : PoolObservation) (now_unix_ms : Z) : result CoreError AutoscaleDecision :=
  validate_policy p;;
  validate_observation o;;
  let target := Z.min (required p o) (effective_maximum p o) in
  let backpressured := saturating_sub (required p o) (effective_maximum p o) in
  if current_workers o <? target then
    let create := Z.min (saturating_sub target (current_workers o)) (maximum_scale_up_per_reconcile p) in
    mret (MkDecision (u32_saturating_add (current_workers o) create) create 0 backpressured)
  else if (target <? current_workers o) && (queued_assignments o =? 0) && idle_elapsed p o now_unix_ms then
    let removable := Z.min (Z.min (saturating_sub (clean_workers o) (warm_headroom p))
                              (saturating_sub (current_workers o) target))
                       (maximum_scale_down_per_reconcile p) in
    mret (MkDecision (saturating_sub (current_workers o) removable) 0 removable backpressured)
  else mret (MkDecision (current_workers o) 0 0 backpressured).

End Autoscale.
Import Autoscale.

(** ** Catalogues *)

(** The pools of an accepted catalogue: names, stateful sets and keys are not
    repeated, and there is one fallback. *)
Lemma validate_pools_Ok l : ∀ names sets keys n m,
  validate_pools names sets keys n l = Ok m →
  (NoDup (pool_key <$> l) ∧ ∀ k, k ∈ pool_key <$> l → k ∉ keys) ∧
  (NoDup (pool_name <$> l) ∧ ∀ k, k ∈ pool_name <$> l → k ∉ names) ∧
  (NoDup (kubernetes_stateful_set <$> l) ∧ ∀ k, k ∈ kubernetes_stateful_set <$> l → k ∉ sets) ∧
  Forall (λ p, validate_key (pool_key p) = Ok tt ∧ validate_policy (policy p) = Ok tt) l ∧
  m = n + length_z (filter (λ p, cold_fallback p = true) l).
Proof.
  induction l as [|p l IH]; intros names sets keys n m; cbn [validate_pools].
  { intros [= <-]. split_and!; try constructor; try set_solver. simpl. lia. }
  intros Hrun. apply bind_Ok_inv in Hrun as ([] & Hg%reject_if_Ok & Hrun).
  apply bind_Ok_inv in Hrun as ([] & Hk & Hrun). apply bind_Ok_inv in Hrun as ([] & _ & Hrun).
  apply bind_Ok_inv in Hrun as ([] & Hp & Hrun).
  apply IH in Hrun as ([Hkeys Hnk] & [Hnames Hnn] & [Hsets Hns] & Hall & ->). rewrite !orb_false_iff in Hg.
  destruct Hg as [[[_ Hname%bool_decide_eq_false] Hset%bool_decide_eq_false] Hkey%bool_decide_eq_false].
  rewrite !fmap_cons. split_and!.
  - constructor; [|done]. intros Hin. by apply (Hnk _ Hin), elem_of_cons; left.
  - intros k [->|Hin]%elem_of_cons; [done|]. specialize (Hnk k Hin). set_solver.
  - constructor; [|done]. intros Hin. by apply (Hnn _ Hin), elem_of_cons; left.
  - intros k [->|Hin]%elem_of_cons; [done|]. specialize (Hnn k Hin). set_solver.
  - constructor; [|done]. intros Hin. by apply (Hns _ Hin), elem_of_cons; left.
  - intros k [->|Hin]%elem_of_cons; [done|]. specialize (Hns k Hin). set_solver.
  - by constructor.
  - rewrite filter_cons. destruct (cold_fallback p); simpl; lia.
Qed.

Record catalog_wf (c : WorkerPoolCatalog) : Prop := CatalogWf {
  wf_keys : NoDup (pool_key <$> pools c);
  wf_names : NoDup (pool_name <$> pools c);
  wf_sets : NoDup (kubernetes_stateful_set <$> pools c);
  wf_policies : Forall (λ p, validate_policy (policy p) = Ok tt) (pools c);
  wf_fallback : length_z (filter (λ p, cold_fallback p = true) (pools c)) = 1
}.

Lemma validate_catalog_Ok c : validate_catalog c = Ok tt → catalog_wf c.
Proof.
  unfold validate_catalog. intros Hrun. apply bind_Ok_inv in Hrun as ([] & _ & Hrun).
  apply bind_Ok_inv in Hrun as (n & Hn%validate_pools_Ok & Hrun%reject_if_Ok).
  apply negb_false_iff, Z.eqb_eq in Hrun. destruct Hn as ([Hk _] & [Hn _] & [Hs _] & Hall & ->).
  split; [done|done|done| |lia]. eapply Forall_impl; [exact Hall|]. by intros p [].
Qed.

Lemma find_Some_elem {A} (f : A → bool) l x : find f l = Some x → x ∈ l ∧ f x = true.
Proof. intros [Hin Hf]%find_some. by rewrite list_elem_of_In. Qed.

Lemma NoDup_fmap_unique {A B} (f : A → B) l x y :
  NoDup (f <$> l) → x ∈ l → y ∈ l → f x = f y → x = y.
Proof.
  induction l as [|z l IH]; intros Hnd Hx Hy Hf; [by apply not_elem_of_nil in Hx|].
  rewrite fmap_cons in Hnd. apply NoDup_cons in Hnd as [Hz Hnd].
  apply elem_of_cons in Hx as [->|Hx], Hy as [->|Hy]; [done|..|by apply IH].
  - destruct Hz. rewrite Hf. by apply list_elem_of_fmap_2.
  - destruct Hz. rewrite <-Hf. by apply list_elem_of_fmap_2.
Qed.

(** Routing is total and exact.  Whatever the catalogue and the request,
    routing never panics; a route is a pool of the catalogue, and it is the
    one with exactly the requested key if there is one (there is at most one)
    and otherwise the only cold fallback. *)
Theorem route_exact c request :
  total (route c request) ∧
  ∀ p, route c request = Ok p →
    p ∈ pools c ∧
    (∀ q, q ∈ pools c → pool_key q = as_key request → p = q) ∧
    ((∀ q, q ∈ pools c → pool_key q ≠ as_key request) →
     cold_fallback p = true ∧ ∀ q, q ∈ pools c → cold_fallback q = true → q = p).
Proof.
  unfold route. destruct (validate_catalog c) as [[]|e] eqn:Hc; [|done]. apply validate_catalog_Ok in Hc as [Hk _ _ _ Hf].
  destruct (validate_key (as_key request)) as [[]|e]; [|done]. cbn [map_err mbind result_bind].
  assert (∃ p, filter (λ p, cold_fallback p = true) (pools c) = [p]) as [f Hfil].
  { destruct (filter _ (pools c)) as [|f [|]]; simpl in Hf; [lia|eauto|lia]. }
  assert (∀ q, q ∈ pools c → cold_fallback q = true → q = f) as Honly.
  { intros q Hq Hcold. assert (q ∈ filter (λ p, cold_fallback p = true) (pools c)) as Hin
      by (by apply list_elem_of_filter). rewrite Hfil in Hin. by apply list_elem_of_singleton in Hin. }
  assert (f ∈ pools c ∧ cold_fallback f = true) as [Hfin Hfc].
  { assert (f ∈ filter (λ p, cold_fallback p = true) (pools c)) as Hin by (rewrite Hfil; set_solver).
    by apply list_elem_of_filter in Hin as [? ?]. }
  destruct (find (λ pool, bool_decide (pool_key pool = as_key request)) (pools c)) as [p|] eqn:Hfind.
  - apply find_Some_elem in Hfind as [Hin Heq%bool_decide_eq_true]. split; [done|]. intros ? [= <-].
    split; [done|]. split; [|intros Hno; by destruct (Hno p Hin)].
    intros q Hq Hqk. apply (NoDup_fmap_unique pool_key (pools c)); [done..|congruence].
  - destruct (find cold_fallback (pools c)) as [p|] eqn:Hcold.
    + apply find_Some_elem in Hcold as [Hin Hpc]. split; [done|]. intros ? [= <-]. split; [done|]. split.
      * intros q Hq Hqk. apply find_none with (x := q) in Hfind; [|by apply list_elem_of_In].
        by rewrite bool_decide_true in Hfind.
      * intros _. split; [done|]. intros q Hq Hqc. by rewrite (Honly q Hq Hqc), (Honly p Hin Hpc).
    + apply find_none with (x := f) in Hcold; [congruence|by apply list_elem_of_In].
Qed.

(** ** Decisions *)

Lemma pool_policy_Ok p :
  validate_policy p = Ok tt →
  maximum_workers p ≠ 0 ∧ maximum_workers p ≤ 100000 ∧ minimum_workers p ≤ maximum_workers p ∧
  warm_headroom p ≤ maximum_workers p ∧ maximum_scale_up_per_reconcile p ≠ 0 ∧
  maximum_scale_down_per_reconcile p ≠ 0.
Proof. unfold validate_policy. rewrite reject_if_Ok, !orb_false_iff. lia. Qed.

Lemma validate_observation_Ok o :
  validate_observation o = Ok tt → clean_workers o + leased_or_active_workers o ≤ current_workers o.
Proof.
  unfold validate_observation. intros Hrun.
  apply bind_Ok_inv in Hrun as (n & Hn%ok_or_Ok%checked_add_Some & Hrun%reject_if_Ok). lia.
Qed.

(** The fields are [u32] numbers. *)
Record policy_u32 (p : PoolPolicy) : Prop := PolicyU32 {
  u32_minimum : 0 ≤ minimum_workers p;
  u32_headroom : 0 ≤ warm_headroom p;
  u32_up : 0 ≤ maximum_scale_up_per_reconcile p;
  u32_down : 0 ≤ maximum_scale_down_per_reconcile p
}.
Record observation_u32 (o : PoolObservation) : Prop := ObservationU32 {
  u32_current : 0 ≤ current_workers o ≤ u32_max;
  u32_clean : 0 ≤ clean_workers o;
  u32_leased : 0 ≤ leased_or_active_workers o;
  u32_queued : 0 ≤ queued_assignments o;
  u32_quota : 0 ≤ quota_workers o ≤ u32_max
}.

Lemma saturating_sub_le a b : b ≤ a → saturating_sub a b = a - b.
Proof. unfold saturating_sub. lia. Qed.

Lemma reconcile_Ok p o now d :
  reconcile p o now = Ok d →
  validate_policy p = Ok tt ∧ validate_observation o = Ok tt ∧
  let target := Z.min (required p o) (effective_maximum p o) in
  (current_workers o < target ∧
   d = MkDecision
         (u32_saturating_add (current_workers o)
            (Z.min (target - current_workers o) (maximum_scale_up_per_reconcile p)))
         (Z.min (target - current_workers o) (maximum_scale_up_per_reconcile p)) 0
         (saturating_sub (required p o) (effective_maximum p o))) ∨
  (target < current_workers o ∧ queued_assignments o = 0 ∧ idle_elapsed p o now = true ∧
   let removable := Z.min (Z.min (saturating_sub (clean_workers o) (warm_headroom p)) (current_workers o - target))
                      (maximum_scale_down_per_reconcile p) in
   d = MkDecision (saturating_sub (current_workers o) removable) 0 removable
         (saturating_sub (required p o) (effective_maximum p o))) ∨
  (target ≤ current_workers o ∧
   d = MkDecision (current_workers o) 0 0 (saturating_sub (required p o) (effective_maximum p o))).
Proof.
  unfold reconcile. intros Hrun. apply bind_Ok_inv in Hrun as ([] & Hp & Hrun).
  apply bind_Ok_inv in Hrun as ([] & Ho & Hrun). do 2 (split; [done|]). cbv zeta in *.
  destruct (Z.ltb_spec (current_workers o) (Z.min (required p o) (effective_maximum p o))) as [Hlt|Hge].
  - left. split; [done|]. injection Hrun as <-. by rewrite (saturating_sub_le (Z.min _ _)) by lia.
  - right. destruct (_ && _) eqn:Htest.
    + apply andb_true_iff in Htest as [[Hlt%Z.ltb_lt Hq%Z.eqb_eq]%andb_true_iff Hi]. left.
      do 3 (split; [done|]). injection Hrun as <-. by rewrite (saturating_sub_le _ (Z.min (required p o) _)) by lia.
    + injection Hrun as <-. by right.
Qed.

(** What a decision does. *)
Lemma reconcile_safe p o now d :
  policy_u32 p → observation_u32 o → reconcile p o now = Ok d →
  desired_workers d = current_workers o + create_workers d - drain_clean_workers d ∧
  (create_workers d = 0 ∨ drain_clean_workers d = 0) ∧
  0 ≤ create_workers d ≤ maximum_scale_up_per_reconcile p ∧
  0 ≤ drain_clean_workers d ≤ maximum_scale_down_per_reconcile p ∧
  (0 < create_workers d → desired_workers d ≤ Z.min (maximum_workers p) (quota_workers o)) ∧
  (0 < drain_clean_workers d →
   queued_assignments o = 0 ∧ idle_elapsed p o now = true ∧
   drain_clean_workers d + warm_headroom p ≤ clean_workers o ∧
   leased_or_active_workers o + warm_headroom p ≤ desired_workers d ∧
   Z.min (minimum_workers p) (quota_workers o) ≤ desired_workers d) ∧
  backpressured_assignments d = Z.max 0 (required p o - Z.min (maximum_workers p) (quota_workers o)).
Proof.
  intros [Hmin Hhead Hup Hdown] [Hcur Hclean Hleased Hqueued Hquota] Hrun.
  apply reconcile_Ok in Hrun as (Hp%pool_policy_Ok & Ho%validate_observation_Ok & Hcases). cbv zeta in Hcases.
  unfold effective_maximum in *. assert (minimum_workers p ≤ required p o) by (unfold required; lia).
  destruct Hcases as [(Hlt & ->)|[(Hlt & Hq & Hi & ->)|(Hge & ->)]]; simpl;
    unfold saturating_add, saturating_sub; split_and!; try lia.
Qed.

(** C33: A decision is safe.  When the autoscaler decides on an observed pool,
    it either creates or drains or does neither, at most as many workers as
    one reconciliation may; the desired number is the observed one with that
    change, without wrap-around.  It creates only up to the pool's maximum and
    the quota.  It drains only clean workers, only when the pool has been idle
    long enough and nothing is queued, and keeps every leased worker, the warm
    headroom and the target; the assignments it reports as held back are those
    that the maximum and the quota do not admit. *)
Theorem decision_is_safe p o now d :
  policy_u32 p → observation_u32 o → reconcile p o now = Ok d →
  desired_workers d = current_workers o + create_workers d - drain_clean_workers d ∧
  (create_workers d = 0 ∨ drain_clean_workers d = 0) ∧
  0 ≤ create_workers d ≤ maximum_scale_up_per_reconcile p ∧
  0 ≤ drain_clean_workers d ≤ maximum_scale_down_per_reconcile p ∧
  (0 < create_workers d → desired_workers d ≤ Z.min (maximum_workers p) (quota_workers o)) ∧
  (0 < drain_clean_workers d →
   queued_assignments o = 0 ∧ idle_elapsed p o now = true ∧
   drain_clean_workers d + warm_headroom p ≤ clean_workers o ∧
   leased_or_active_workers o + warm_headroom p ≤ desired_workers d ∧
   Z.min (minimum_workers p) (quota_workers o) ≤ desired_workers d) ∧
  backpressured_assignments d = Z.max 0 (required p o - Z.min (maximum_workers p) (quota_workers o)).
Proof. apply reconcile_safe. Qed.

(** ** The control loop *)

(** The pool after a decision is carried out: what is created becomes clean,
    what is drained is gone. *)
Definition enact (o : PoolObservation) (d : AutoscaleDecision) : PoolObservation :=
  MkObservation (desired_workers d) (clean_workers o + create_workers d - drain_clean_workers d)
    (leased_or_active_workers o) (draining_workers o) (queued_assignments o) (quota_workers o) (idle_since_unix_ms o).

Fixpoint reconcile_times (n : nat) (p : PoolPolicy) (o : PoolObservation) (now : Z) : result CoreError PoolObservation :=
  match n with
  | O => mret o
  | S n => d ← reconcile p o now; reconcile_times n p (enact o d) now
  end.

(** A pool at rest: nothing is queued, it has been idle long enough, all
    workers are clean or leased, and the maximum and quota admit what it needs. *)
Record at_rest (p : PoolPolicy) (o : PoolObservation) (now : Z) : Prop := AtRest {
  rest_policy : validate_policy p = Ok tt;
  rest_policy_u32 : policy_u32 p;
  rest_u32 : observation_u32 o;
  rest_queue : queued_assignments o = 0;
  rest_idle : idle_elapsed p o now = true;
  rest_all : clean_workers o + leased_or_active_workers o = current_workers o;
  rest_room : required p o ≤ effective_maximum p o
}.

Lemma required_rest p o :
  queued_assignments o = 0 → 0 ≤ leased_or_active_workers o → 0 ≤ warm_headroom p →
  required p o ≤ effective_maximum p o → validate_policy p = Ok tt →
  required p o = Z.max (leased_or_active_workers o + warm_headroom p) (minimum_workers p).
Proof.
  unfold required, effective_maximum, saturating_add, u32_max. intros Hq Hl Hh Hr Hp%pool_policy_Ok. lia.
Qed.

Lemma reconcile_at_rest p o now :
  at_rest p o now →
  ∃ d, reconcile p o now = Ok d ∧ at_rest p (enact o d) now ∧ required p (enact o d) = required p o ∧
    Z.abs (required p o - desired_workers d) ≤ Z.max 0 (Z.abs (required p o - current_workers o) - 1).
Proof.
  intros [Hvp Hp Hu Hq Hi Hall Hroom]. pose proof Hp as [Hmin Hhead Hup Hdown].
  pose proof Hu as [Hcur Hclean Hleased Hqueued Hquota].
  pose proof (required_rest p o Hq Hleased Hhead Hroom Hvp) as Hreq. pose proof (pool_policy_Ok p Hvp).
  assert (validate_observation o = Ok tt) as Hvo.
  { unfold validate_observation. rewrite (proj2 (checked_add_Some u32_max (clean_workers o)
      (leased_or_active_workers o) (current_workers o))) by lia. simpl. apply reject_if_Ok. lia. }
  unfold reconcile. rewrite Hvp, Hvo. cbn [mbind result_bind]. cbv zeta. rewrite (Z.min_l _ _ Hroom), Hq, Hi.
  destruct (Z.ltb_spec (current_workers o) (required p o)); [|destruct (Z.ltb_spec (required p o) (current_workers o))];
    simpl; eexists; (split; [reflexivity|]); (split; [|split; [done|simpl]]);
    unfold effective_maximum, saturating_add, saturating_sub in *; try lia.
  all: split; try done; try (split; simpl; lia); simpl; unfold effective_maximum; simpl; try lia.
Qed.

(** C34: The control loop converges.  For a pool at rest whose needs the
    maximum and the quota admit, every reconciliation succeeds, and after as
    many as the pool is away from what it needs (leased workers plus the warm
    headroom, but at least the minimum), carrying out each decision, it has
    exactly that many workers and keeps them. *)
Theorem reconcile_converges p o now n :
  at_rest p o now → Z.abs (required p o - current_workers o) ≤ Z.of_nat n →
  ∃ o', reconcile_times n p o now = Ok o' ∧
    current_workers o' = Z.max (leased_or_active_workers o + warm_headroom p) (minimum_workers p) ∧
    leased_or_active_workers o' = leased_or_active_workers o.
Proof.
  revert o. induction n as [|n IH]; intros o Hrest Hn.
  - exists o. split; [done|]. split; [|done]. destruct Hrest as [Hvp [] [] Hq _ _ Hroom].
    rewrite <-required_rest by done. lia.
  - destruct (reconcile_at_rest p o now Hrest) as (d & Hd & Hrest' & Hreq & Hdist).
    destruct (IH (enact o d) Hrest') as (o' & Ho' & Hcur & Hl).
    { rewrite Hreq. simpl. lia. }
    exists o'. cbn [reconcile_times]. rewrite Hd. by split_and!.
Qed.

(** A service level yields an accepted policy with the promised headroom. *)
Lemma apply_level_Ok level p p' :
  apply_level level p = Ok p' →
  validate_policy p' = Ok tt ∧ maximum_workers p' = maximum_workers p ∧
  match level with
  | ScaleToZero => minimum_workers p' = 0 ∧ warm_headroom p' = 0
  | RetainedWarm n => warm_headroom p' = n ∧ n ≤ minimum_workers p' ∧ n ≠ 0
  end.
Proof.
  unfold apply_level. intros Hrun. apply bind_Ok_inv in Hrun as ([] & _ & Hrun).
  apply bind_Ok_inv in Hrun as (q & Hq & Hrun). apply bind_Ok_inv in Hrun as ([] & Hv & [= <-]).
  split; [done|]. destruct level as [|n]; [by injection Hq as <-|].
  apply bind_Ok_inv in Hq as ([] & Hg%reject_if_Ok & [= <-]). simpl. apply orb_false_iff in Hg. lia.
Qed.

(** ** A pool of concrete numbers *)

Definition w_policy : PoolPolicy := MkPolicy 1 100 2 10 5 60000.
Definition w_busy : PoolObservation := MkObservation 4 1 3 0 20 50 None.
Definition w_idle : PoolObservation := MkObservation 20 19 1 0 0 50 (Some 0).

Lemma w_policy_u32 : policy_u32 w_policy.
Proof. by split. Qed.
Lemma w_busy_u32 : observation_u32 w_busy.
Proof. by split. Qed.
Lemma w_idle_u32 : observation_u32 w_idle.
Proof. by split. Qed.

Lemma decision_is_safe_witness :
  reconcile w_policy w_busy 100 = Ok (MkDecision 14 10 0 0) ∧ 14 ≤ Z.min 100 50.
Proof.
  split; [reflexivity|].
  destruct (decision_is_safe w_policy w_busy 100 (MkDecision 14 10 0 0) w_policy_u32 w_busy_u32 eq_refl)
    as (_ & _ & _ & _ & Hmax & _).
  apply Hmax. reflexivity.
Defined.

Lemma reconcile_converges_witness :
  ∃ o', reconcile_times 17 w_policy w_idle 100000 = Ok o' ∧ current_workers o' = 3.
Proof.
  destruct (reconcile_converges w_policy w_idle 100000 17) as (o' & Hrun & Hcur & _).
  - split; try reflexivity; [exact w_policy_u32|exact w_idle_u32|discriminate].
  - vm_compute. discriminate.
  - exists o'. split; [exact Hrun|exact Hcur].
Defined.
