(* ===== verification/Protocol.v ===== *)
(** * The workload protocol

    Models [crates/sandbox-protocol/src/lib.rs] and
    [bins/sandboxd/src/protocol/message.rs]: the operations of the control
    protocol, what a work order must say of them, and the checks that the
    broker applies to requests and responses.  The JSON encoding and SHA-256
    are parameters. *)
From S2P Require Import Prelude Identity GuestProfile Volume Topology Snapshot WorkOrder.
Import Topology.Topology WorkOrder.WorkOrder.

Module Protocol.

Definition PROTOCOL_VERSION : Z := 2.
Definition LEGACY_OPERATOR_PROTOCOL_VERSION : Z := 1.

Inductive Operation : Type :=
| OpPing
| OpReady
| OpStats
| OpAdmit (topology : TopologyLock)
| OpRun (topology : TopologyLock) (project wait_for : string) (timeout_ms : Z)
| OpCreate (topology : TopologyLock) (sandbox : string) (timeout_ms : Z)
| OpRestore (topology : TopologyLock) (sandbox snapshot : string) (timeout_ms : Z)
    (fenced_source_epoch : option Z)
| OpInspect (sandbox : string)
| OpPause (sandbox : string)
| OpResume (sandbox : string)
| OpStop (sandbox : string)
| OpLogs (sandbox container : string)
| OpSnapshot (sandbox snapshot : string) (mode : Snapshot.SnapshotMode)
| OpPublishArtifact (source digest : string)
| OpGarbageCollectArtifacts (minimum_age_seconds : Z)
| OpShutdown.

Definition work_order_operation (o : Operation) : option WorkOrderOperation :=
  match o with
  | OpPing => Some Ping
  | OpReady => None
  | OpStats => Some Stats
  | OpAdmit _ => Some Admit
  | OpRun _ _ _ _ => Some Run
  | OpCreate _ _ _ => Some Create
  | OpRestore _ _ _ _ _ => Some Restore
  | OpInspect _ => Some Inspect
  | OpPause _ => Some Pause
  | OpResume _ => Some Resume
  | OpStop _ => Some Stop
  | OpLogs _ _ => Some Logs
  | OpSnapshot _ _ _ => Some Snapshot
  | OpPublishArtifact _ _ | OpGarbageCollectArtifacts _ | OpShutdown => None
  end.

Definition operation_sandbox (o : Operation) : option string :=
  match o with
  | OpRun _ project _ _ => Some project
  | OpCreate _ sandbox _ | OpRestore _ sandbox _ _ _ | OpInspect sandbox | OpPause sandbox
  | OpResume sandbox | OpStop sandbox | OpLogs sandbox _ | OpSnapshot sandbox _ _ => Some sandbox
  | OpPing | OpReady | OpStats | OpAdmit _ | OpPublishArtifact _ _ | OpGarbageCollectArtifacts _
  | OpShutdown => None
  end.

Definition operation_timeout_ms (o : Operation) : option Z :=
  match o with
  | OpRun _ _ _ timeout | OpCreate _ _ timeout | OpRestore _ _ _ timeout _ => Some timeout
  | _ => None
  end.

Definition operation_topology (o : Operation) : option TopologyLock :=
  match o with
  | OpAdmit topology | OpRun topology _ _ _ | OpCreate topology _ _ | OpRestore topology _ _ _ _ =>
      Some topology
  | _ => None
  end.

(** [serde_json] on operations, and SHA-256 in hexadecimal. *)
Class OperationCodec : Type := {
  encode_operation : Operation → result string (list ascii);
  operation_sha256_hex : list ascii → string
}.

Definition operation_digest_of `{OperationCodec} (o : Operation) : result string string :=
  match encode_operation o with
  | Ok b => Ok ("sha256:" +:+ operation_sha256_hex b)
  | Err error => Err ("encode operation digest: " +:+ error)
  end.

Definition request_id_byte (c : ascii) : bool := is_ascii_alphanumeric c || is_byte "-" c || is_byte "_" c.

Definition valid_request_id (value : string) : bool :=
  negb (bool_decide (value = EmptyString)) && (len value <=? 64) && all_bytes request_id_byte value.

Definition lowercase_hex (value : string) : bool := all_bytes is_lowercase_hex value.

(** A request as the broker reads it: the authorization is always a work order. *)
Record WorkloadRequest : Type := MkWorkloadRequest {
  wr_schema_version : Z;
  wr_request_id : string;
  wr_work_order : SignedWorkOrder;
  wr_operation : Operation
}.

Definition validate_request (r : WorkloadRequest) : result string () :=
  reject_if (negb (wr_schema_version r =? PROTOCOL_VERSION) || negb (valid_request_id (wr_request_id r)))
    "invalid protocol version or request ID"%string;;
  let c := claims (wr_work_order r) in
  map_err (λ _, "invalid work-order claims"%string) (validate_claims c);;
  reject_if (negb (WorkOrder.schema_version c =? WORK_ORDER_VERSION)
             || negb (bool_decide (request_id c = wr_request_id r))
             || negb (len (signature (wr_work_order r)) =? 64)
             || negb (lowercase_hex (signature (wr_work_order r))))
    "work order does not match the request"%string;;
  o ← ok_or "operator operation is not brokerable"%string (work_order_operation (wr_operation r));
  reject_if (negb (bool_decide (operation c = o))) "operation does not match the work order"%string;;
  reject_if (negb (bool_decide (as_str <$> WorkOrder.sandbox_id c = operation_sandbox (wr_operation r))))
    "sandbox identity does not match the work order"%string.

(** Responses; [Value] is the JSON value of a result. *)
Record WorkloadResponse (Value : Type) : Type := MkResponse {
  rs_schema_version : Z;
  rs_request_id : string;
  rs_ok : bool;
  rs_result : option Value;
  rs_error : option string
}.
#[global] Arguments MkResponse {Value}.
#[global] Arguments rs_schema_version {Value}.
#[global] Arguments rs_request_id {Value}.
#[global] Arguments rs_ok {Value}.
#[global] Arguments rs_result {Value}.
#[global] Arguments rs_error {Value}.

Definition validate_for {Value} (r : WorkloadResponse Value) (id : string) : result string () :=
  reject_if (negb (rs_schema_version r =? PROTOCOL_VERSION) || negb (bool_decide (rs_request_id r = id))
             || negb (valid_request_id (rs_request_id r)))
    "response identity does not match the request"%string;;
  reject_if ((rs_ok r && bool_decide (is_Some (rs_error r)))
             || (negb (rs_ok r)
                 && (bool_decide (is_Some (rs_result r))
                     || match rs_error r with None => true | Some e => bool_decide (e = EmptyString) end))
             || match rs_error r with Some e => 4 * 1024 <? len e | None => false end)
    "response result and error fields are inconsistent"%string.

(** A request as the daemon reads it. *)
Inductive RequestAuthorization : Type :=
| AuthOperator (tenant_id : TenantId) (workspace_id : WorkspaceId) (subject_id : SubjectId)
| AuthWorkOrder (work_order : SignedWorkOrder).

Record Request : Type := MkRequest {
  rq_schema_version : Z;
  rq_request_id : string;
  rq_authorization : option RequestAuthorization;
  rq_operation : Operation
}.

End Protocol.
Import Protocol.

(** ** Operations and work orders *)

Lemma requires_sandbox_operation o w :
  work_order_operation o = Some w → requires_sandbox w = bool_decide (is_Some (operation_sandbox o)).
Proof. by destruct o; intros [= <-]. Qed.

Lemma validate_request_Ok r :
  validate_request r = Ok tt →
  let c := claims (wr_work_order r) in
  validate_claims c = Ok tt ∧ request_id c = wr_request_id r ∧
  work_order_operation (wr_operation r) = Some (operation c) ∧
  as_str <$> WorkOrder.sandbox_id c = operation_sandbox (wr_operation r).
Proof.
  unfold validate_request. intros Hr. cbn zeta in Hr. apply seq_Ok in Hr as [_ Hr].
  apply seq_Ok in Hr as [Hc%map_err_Ok Hr]. apply seq_Ok in Hr as [Hm Hr].
  apply bind_Ok_inv in Hr as (o & Ho%ok_or_Ok & Hr). apply seq_Ok in Hr as [Hop Hsb].
  apply reject_if_Ok, negb_false_iff, bool_decide_eq_true in Hop.
  apply reject_if_Ok, negb_false_iff, bool_decide_eq_true in Hsb.
  apply reject_if_Ok in Hm. rewrite !orb_false_iff, !negb_false_iff in Hm.
  destruct Hm as [[[_ Hid%bool_decide_eq_true] _] _].
  split_and!; [done|done|congruence|done].
Qed.
