(* ===== verification/Placement.v ===== *)
(** * The placement store

    Models [crates/sandbox-placement/src/postgres.rs]: the tables of the
    placement database and every transaction on them.  A transaction is a
    function on the tables that keeps its effect only when it returns [Ok]; it
    runs alone, which the source arranges with advisory and row locks.  A row
    of the table [requests] groups its columns: those that never change after
    the insertion, the outcome, and the recovery of a sandbox.  The [CHECK],
    [UNIQUE] and [REFERENCES] constraints are checked on every row that is
    written.  The JSON and address texts and SHA-256 are parameters; losing
    the connection is not modelled. *)
From S2P Require Import Prelude Identity Lease FairQueue GuestProfile Volume Network Topology Snapshot WorkOrder.
From S2P Require Import Autoscale Protocol.
Import WorkOrder.WorkOrder Protocol.Protocol.

Module Placement.

Definition MAXIMUM_OPERATION_BYTES : Z := 512 * 1024.
Definition MAXIMUM_RESPONSE_BYTES : Z := 4 * 1024 * 1024.

Abbreviation SocketAddr := (Network.IpAddr * Z)%type.

Inductive PlacementStoreError : Type :=
| Database (message : string)
| Tls (message : string)
| Invalid (message : string)
| GlobalQueueFull
| TenantQueueFull
| SandboxConflict
| WorkerUnavailable
| StaleAssignment
| CompletionConflict.

#[global] Instance PlacementStoreError_eq_dec : EqDecision PlacementStoreError.
Proof. solve_decision. Defined.

Definition store_error_text (e : PlacementStoreError) : string :=
  match e with
  | Database message => "placement database: " +:+ message
  | Tls message => "placement database TLS: " +:+ message
  | Invalid message => message
  | GlobalQueueFull => "global placement queue is full"
  | TenantQueueFull => "tenant placement queue is full"
  | SandboxConflict => "sandbox identity is already in use"
  | WorkerUnavailable => "worker is unavailable or incompatible"
  | StaleAssignment => "assignment is stale, expired, or fenced"
  | CompletionConflict => "completion conflicts with the winning result"
  end.

Inductive PlacementState : Type :=
| Queued | Assigned | Serving | Recovering | Completed | RecoveryFailed | Cancelled | Expired.

#[global] Instance PlacementState_eq_dec : EqDecision PlacementState.
Proof. solve_decision. Defined.

Inductive PlacementWorkerState : Type := PwClean | PwLeased | PwDraining | PwQuarantined | PwConsumed.

#[global] Instance PlacementWorkerState_eq_dec : EqDecision PlacementWorkerState.
Proof. solve_decision. Defined.

(** A [Duration] is its number of nanoseconds. *)
Definition from_secs (n : Z) : Z := n * 1000000000.
Definition as_millis (duration : Z) : Z := duration / 1000000.

Record PlacementStoreConfig : Type := MkStoreConfig {
  global_queue_limit : Z;
  global_concurrency_limit : Z;
  default_tenant_queue_limit : Z;
  default_tenant_concurrency_limit : Z;
  worker_heartbeat_timeout : Z;
  lease_lifetime : Z;
  broker_port : Z
}.

Definition validate_config (c : PlacementStoreConfig) : result PlacementStoreError PlacementStoreConfig :=
  reject_if ((global_queue_limit c <=? 0) || (1000000 <? global_queue_limit c)
             || (global_concurrency_limit c <=? 0) || (1000000 <? global_concurrency_limit c)
             || (default_tenant_queue_limit c <=? 0) || (global_queue_limit c <? default_tenant_queue_limit c)
             || (default_tenant_concurrency_limit c <=? 0)
             || (worker_heartbeat_timeout c =? 0) || (from_secs 300 <? worker_heartbeat_timeout c)
             || (lease_lifetime c =? 0) || (from_secs 300 <? lease_lifetime c)
             || (broker_port c =? 0))
    (Invalid "placement store configuration is invalid");;
  mret c.

Definition default_config : PlacementStoreConfig :=
  MkStoreConfig 10000 1000 100 10 (from_secs 30) (from_secs 30) 8081.

Record RecoveryPolicy : Type := MkRecoveryPolicy {
  snapshot_interval_ms : Z;
  maximum_staleness_ms : Z;
  maximum_attempts : Z
}.

Definition validate_recovery (p : RecoveryPolicy) : result PlacementStoreError RecoveryPolicy :=
  reject_if (negb ((1000 <=? snapshot_interval_ms p) && (snapshot_interval_ms p <=? 24 * 60 * 60 * 1000))
             || (maximum_staleness_ms p <? snapshot_interval_ms p)
             || (7 * 24 * 60 * 60 * 1000 <? maximum_staleness_ms p)
             || negb ((1 <=? maximum_attempts p) && (maximum_attempts p <=? 10)))
    (Invalid "recovery policy is invalid");;
  mret p.

Record PlacementSubmission : Type := MkSubmission {
  work : FairQueue.QueuedWork;
  submission_subject_id : SubjectId;
  submission_pool : string;
  submission_topology : string;
  submission_shape : string;
  submission_cohort : string;
  submission_operation : Operation;
  recovery_policy : option RecoveryPolicy
}.

Record WorkerRegistration : Type := MkRegistration {
  registered_worker : WorkerId;
  registered_pool : string;
  registered_topology : string;
  registered_shape : string;
  compatibility_cohort : string;
  broker_address : SocketAddr;
  registered_ceilings : ResourceCeilings
}.

Record RecoveryStatus : Type := MkRecoveryStatus {
  status_policy : RecoveryPolicy;
  status_latest_snapshot : option SnapshotId;
  status_latest_at : option Z;
  status_source_epoch : option AssignmentEpoch;
  status_fence_worker : option WorkerId;
  status_fence_confirmed : bool;
  status_started : option Z;
  status_recovered : option Z;
  status_attempts : Z;
  status_error : option string
}.

Record DurablePoolDecision : Type := MkDurable {
  observation : Autoscale.PoolObservation;
  decision : Autoscale.AutoscaleDecision
}.

Record Assignment : Type := MkAssignment {
  assignment_request_id : string;
  assignment_idempotency_key : string;
  assignment_identity : Lease.PlacementIdentity;
  assignment_subject : SubjectId;
  assignment_worker : WorkerId;
  assignment_epoch : AssignmentEpoch;
  assignment_expires : Z;
  assignment_broker : SocketAddr;
  assignment_ceilings : ResourceCeilings;
  assignment_operation : Operation
}.

Record CheckpointAssignment : Type := MkCheckpoint { checkpoint_assignment : Assignment; checkpoint_snapshot : SnapshotId }.

Inductive CompletionOutcome : Type := Published | AlreadyPublished.

(** ** The tables *)

Record PolicyRow : Type := MkPolicyRow {
  weight : Z;
  concurrency_limit : Z;
  queue_limit : Z;
  virtual_finish : Z
}.

Record WorkerRow : Type := MkWorkerRow {
  worker_topology : string;
  worker_shape : string;
  worker_cohort : string;
  worker_state : PlacementWorkerState;
  heartbeat : Z;
  registered : Z;
  worker_address : option string;
  worker_ceilings : option string;
  worker_pool : string
}.

Inductive CapacityClass : Type := Warm | Cold | UnknownCapacity.

(** The columns of a request that the insertion sets. *)
Record Submitted : Type := MkSubmitted {
  s_request_id : string;
  s_idempotency_key : string;
  s_tenant : string;
  s_workspace : string;
  s_sandbox : string;
  s_subject : string;
  s_pool : string;
  s_topology : string;
  s_shape : string;
  s_cohort : string;
  s_deadline : Z;
  s_created : Z;
  s_fair_finish : Z;
  s_capacity : CapacityClass;
  s_snapshot_interval : option Z;
  s_max_staleness : option Z;
  s_max_attempts : option Z
}.

Record Outcome : Type := MkOutcome {
  result_digest : option string;
  terminal_response : option string;
  terminal_at : option Z;
  first_output : option Z
}.

Record RecoveryColumns : Type := MkRecovery {
  latest_snapshot : option string;
  latest_at : option Z;
  checkpoint_due : option Z;
  pending_snapshot : option string;
  source_epoch : option Z;
  fence_worker : option string;
  fence_confirmed : bool;
  recovery_started : option Z;
  recovered_at : option Z;
  recovery_attempts : Z;
  recovery_error : option string
}.

Record RequestRow : Type := MkRow {
  submitted : Submitted;
  row_operation : string;
  state : PlacementState;
  row_worker : option string;
  row_epoch : option Z;
  lease_expires : option Z;
  assigned_at : option Z;
  outcome : Outcome;
  recovery : RecoveryColumns
}.

Record AuditRow : Type := MkAudit {
  audit_at : Z;
  audit_request : string;
  audit_tenant : string;
  audit_workspace : string;
  audit_sandbox : string;
  audit_subject : string;
  audit_worker : option string;
  audit_epoch : option Z;
  audit_event : string;
  audit_digest : option string;
  audit_snapshot : option string
}.

Record ScaleRow : Type := MkScaleRow { idle_since : option Z; desired : Z; updated : Z }.

Record ActivationRow : Type := MkActivation {
  activation_sequence : Z;
  activation_pool : string;
  requested_at : Z;
  target_workers : Z;
  ready_at : option Z;
  cancelled_at : option Z
}.

Record Db : Type := MkDb {
  tenant_policy : gmap string PolicyRow;
  virtual_time : Z;
  workers : gmap string WorkerRow;
  requests : gmap string RequestRow;
  assignment_epochs : gmap (string * string * string) Z;
  audit : list AuditRow;
  autoscale_state : gmap string ScaleRow;
  activations : list ActivationRow;
  next_sequence : Z
}.

(** The database after the migrations. *)
Definition empty_db : Db := MkDb ∅ 0 ∅ ∅ ∅ [] ∅ [] 1.

Definition set_policy (t : gmap string PolicyRow) (db : Db) : Db :=
  MkDb t (virtual_time db) (workers db) (requests db) (assignment_epochs db) (audit db) (autoscale_state db)
    (activations db) (next_sequence db).
Definition set_virtual_time (t : Z) (db : Db) : Db :=
  MkDb (tenant_policy db) t (workers db) (requests db) (assignment_epochs db) (audit db) (autoscale_state db)
    (activations db) (next_sequence db).
Definition set_workers (t : gmap string WorkerRow) (db : Db) : Db :=
  MkDb (tenant_policy db) (virtual_time db) t (requests db) (assignment_epochs db) (audit db) (autoscale_state db)
    (activations db) (next_sequence db).
Definition set_requests (t : gmap string RequestRow) (db : Db) : Db :=
  MkDb (tenant_policy db) (virtual_time db) (workers db) t (assignment_epochs db) (audit db) (autoscale_state db)
    (activations db) (next_sequence db).
Definition set_epochs (t : gmap (string * string * string) Z) (db : Db) : Db :=
  MkDb (tenant_policy db) (virtual_time db) (workers db) (requests db) t (audit db) (autoscale_state db)
    (activations db) (next_sequence db).
Definition set_audit (t : list AuditRow) (db : Db) : Db :=
  MkDb (tenant_policy db) (virtual_time db) (workers db) (requests db) (assignment_epochs db) t (autoscale_state db)
    (activations db) (next_sequence db).
Definition set_autoscale (t : gmap string ScaleRow) (db : Db) : Db :=
  MkDb (tenant_policy db) (virtual_time db) (workers db) (requests db) (assignment_epochs db) (audit db) t
    (activations db) (next_sequence db).
Definition set_activations (t : list ActivationRow) (next : Z) (db : Db) : Db :=
  MkDb (tenant_policy db) (virtual_time db) (workers db) (requests db) (assignment_epochs db) (audit db)
    (autoscale_state db) t next.

Abbreviation Tx := (M Db (failure PlacementStoreError)).

Definition invalid {A} (message : string) : Tx A := M_fail (Rejected (Invalid message)).
Definition lift {A} (r : result PlacementStoreError A) : Tx A := M_lift (map_err Rejected r).

(** [client.transaction] ... [commit]: an error or a panic rolls back. *)
Definition transaction {A} (c : Tx A) : Tx A :=
  λ db, match c db with
        | (db', Ok a) => (db', Ok a)
        | (_, Err e) => (db, Err e)
        end.

(** ** Statements *)

Definition reads {A} (f : Db → A) : Tx A := λ db, (db, Ok (f db)).

Definition is_live (s : PlacementState) : bool :=
  match s with Queued | Assigned | Serving | Recovering | Completed => true | RecoveryFailed | Cancelled | Expired => false end.
Definition is_active (s : PlacementState) : bool :=
  match s with Assigned | Serving => true | _ => false end.
Definition is_waiting (s : PlacementState) : bool :=
  match s with Queued | Recovering => true | _ => false end.
Definition has_state (s : PlacementState) (r : RequestRow) : bool := bool_decide (state r = s).

Definition row_id (r : RequestRow) : string := s_request_id (submitted r).
Definition row_tenant (r : RequestRow) : string := s_tenant (submitted r).
Definition row_sandbox (r : RequestRow) : string * string * string :=
  (s_tenant (submitted r), s_workspace (submitted r), s_sandbox (submitted r)).
Definition row_key (r : RequestRow) : string * string := (s_tenant (submitted r), s_idempotency_key (submitted r)).

(** The constraints of the table [requests] on a row, next to the other rows. *)
Definition compatible (r other : RequestRow) : bool :=
  negb (bool_decide (row_key r = row_key other))
  && negb (is_live (state r) && is_live (state other) && bool_decide (row_sandbox r = row_sandbox other)).
Definition request_fits (db : Db) (r : RequestRow) : bool :=
  (0 <? s_fair_finish (submitted r))
  && bool_decide (is_Some (tenant_policy db !! row_tenant r))
  && match row_worker r with Some w => bool_decide (is_Some (workers db !! w)) | None => true end
  && forallb (λ '(id, other), bool_decide (id = row_id r) || compatible r other) (map_to_list (requests db)).

Definition violation {A} : Tx A := M_fail (Rejected (Database "constraint violation")).

Definition write_request (r : RequestRow) : Tx () :=
  λ db, if request_fits db r then (set_requests (<[row_id r := r]> (requests db)) db, Ok tt) else violation db.
Definition insert_request (r : RequestRow) : Tx () :=
  λ db, if bool_decide (is_Some (requests db !! row_id r)) then violation db else write_request r db.

(** [UPDATE .. WHERE request_id = $1 AND p]. *)
Definition update_request (id : string) (p : RequestRow → bool) (f : RequestRow → RequestRow) : Tx () :=
  λ db, match requests db !! id with
        | Some r => if p r then write_request (f r) db else (db, Ok tt)
        | None => (db, Ok tt)
        end.
Definition update_by_id (id : string) (f : RequestRow → RequestRow) : Tx () := update_request id (λ _, true) f.

(** The order of rows is not specified; they are visited in the order of their keys. *)
Definition rows_where (p : RequestRow → bool) (db : Db) : list RequestRow :=
  filter (λ r, p r = true) (btree_values (requests db)).
Definition count_where (p : RequestRow → bool) (db : Db) : Z := length_z (rows_where p db).

Fixpoint write_all (rows : list RequestRow) : Tx () :=
  match rows with
  | [] => mret tt
  | r :: rows' => write_request r;; write_all rows'
  end.

(** [UPDATE .. WHERE p RETURNING *]. *)
Definition update_where (p : RequestRow → bool) (f : RequestRow → RequestRow) : Tx (list RequestRow) :=
  rows ← reads (rows_where p);
  write_all (f <$> rows);;
  mret (f <$> rows).

(** [query_opt]: more than one row is an error. *)
Definition at_most_one {A} (rows : list A) : Tx (option A) :=
  match rows with
  | [] => mret None
  | [r] => mret (Some r)
  | _ => M_fail (Rejected (Database "query returned an unexpected number of rows"))
  end.
Definition query_opt (p : RequestRow → bool) : Tx (option RequestRow) := rows ← reads (rows_where p); at_most_one rows.
(** [query_one] by the primary key of a table. *)
Definition query_one {A} (f : Db → option A) : Tx A :=
  row ← reads f;
  M_lift (ok_or (Rejected (Database "query returned an unexpected number of rows")) row).

Definition worker_fits (w : WorkerRow) : bool := (0 <? heartbeat w) && (0 <? registered w).
Definition write_worker (id : string) (w : WorkerRow) : Tx () :=
  λ db, if worker_fits w then (set_workers (<[id := w]> (workers db)) db, Ok tt) else violation db.

(** [UPDATE .. WHERE worker_id = $1 AND p]: the number of rows that were updated. *)
Definition update_worker (id : string) (p : WorkerRow → bool) (f : WorkerRow → WorkerRow) : Tx Z :=
  λ db, match workers db !! id with
        | Some w => if p w then (write_worker id (f w);; mret 1) db else (db, Ok 0)
        | None => (db, Ok 0)
        end.

Definition with_state (s : PlacementWorkerState) (w : WorkerRow) : WorkerRow :=
  MkWorkerRow (worker_topology w) (worker_shape w) (worker_cohort w) s (heartbeat w) (registered w)
    (worker_address w) (worker_ceilings w) (worker_pool w).
Definition with_heartbeat (now : Z) (w : WorkerRow) : WorkerRow :=
  MkWorkerRow (worker_topology w) (worker_shape w) (worker_cohort w) (worker_state w) now (registered w)
    (worker_address w) (worker_ceilings w) (worker_pool w).
Definition worker_in (l : list PlacementWorkerState) (w : WorkerRow) : bool := bool_decide (worker_state w ∈ l).
(** [UPDATE workers SET state = s WHERE worker_id = $1 AND p]. *)
Definition set_worker_state (id : string) (p : WorkerRow → bool) (s : PlacementWorkerState) : Tx Z :=
  update_worker id p (with_state s).

(** *** The [SET] clauses on requests *)

Definition with_request_state (s : PlacementState) (r : RequestRow) : RequestRow :=
  MkRow (submitted r) (row_operation r) s (row_worker r) (row_epoch r) (lease_expires r) (assigned_at r) (outcome r)
    (recovery r).
Definition with_lease (expires : option Z) (r : RequestRow) : RequestRow :=
  MkRow (submitted r) (row_operation r) (state r) (row_worker r) (row_epoch r) expires (assigned_at r) (outcome r)
    (recovery r).
Definition with_outcome (o : Outcome) (r : RequestRow) : RequestRow :=
  MkRow (submitted r) (row_operation r) (state r) (row_worker r) (row_epoch r) (lease_expires r) (assigned_at r) o
    (recovery r).
Definition with_recovery (c : RecoveryColumns) (r : RequestRow) : RequestRow :=
  MkRow (submitted r) (row_operation r) (state r) (row_worker r) (row_epoch r) (lease_expires r) (assigned_at r)
    (outcome r) c.
Definition with_terminal (now : Z) (r : RequestRow) : RequestRow :=
  let o := outcome r in
  with_outcome (MkOutcome (result_digest o) (terminal_response o) (Some now) (first_output o)) r.
Definition with_error (e : option string) (c : RecoveryColumns) : RecoveryColumns :=
  MkRecovery (latest_snapshot c) (latest_at c) (checkpoint_due c) (pending_snapshot c) (source_epoch c)
    (fence_worker c) (fence_confirmed c) (recovery_started c) (recovered_at c) (recovery_attempts c) e.
Definition with_pending (pending : option string) (c : RecoveryColumns) : RecoveryColumns :=
  MkRecovery (latest_snapshot c) (latest_at c) (checkpoint_due c) pending (source_epoch c)
    (fence_worker c) (fence_confirmed c) (recovery_started c) (recovered_at c) (recovery_attempts c) (recovery_error c).
Definition with_due (due : option Z) (c : RecoveryColumns) : RecoveryColumns :=
  MkRecovery (latest_snapshot c) (latest_at c) due (pending_snapshot c) (source_epoch c)
    (fence_worker c) (fence_confirmed c) (recovery_started c) (recovered_at c) (recovery_attempts c) (recovery_error c).
Definition with_latest (id : string) (now : Z) (c : RecoveryColumns) : RecoveryColumns :=
  MkRecovery (Some id) (Some now) (checkpoint_due c) (pending_snapshot c) (source_epoch c)
    (fence_worker c) (fence_confirmed c) (recovery_started c) (recovered_at c) (recovery_attempts c) (recovery_error c).
Definition with_confirmed (c : RecoveryColumns) : RecoveryColumns :=
  MkRecovery (latest_snapshot c) (latest_at c) (checkpoint_due c) (pending_snapshot c) (source_epoch c)
    (fence_worker c) true (recovery_started c) (recovered_at c) (recovery_attempts c) (recovery_error c).
Definition with_recovered (recovered : option Z) (c : RecoveryColumns) : RecoveryColumns :=
  MkRecovery (latest_snapshot c) (latest_at c) (checkpoint_due c) (pending_snapshot c) (source_epoch c)
    (fence_worker c) (fence_confirmed c) (recovery_started c) recovered (recovery_attempts c) (recovery_error c).

(** [UPDATE .. SET state = 'expired', terminal_unix_ms = $1]. *)
Definition expired_row (now : Z) (r : RequestRow) : RequestRow := with_request_state Expired (with_terminal now r).

Definition assigned_row (worker : string) (epoch expires now : Z) (r : RequestRow) : RequestRow :=
  let o := outcome r in
  MkRow (submitted r) (row_operation r) Assigned (Some worker) (Some epoch) (Some expires) (Some now)
    (MkOutcome (result_digest o) (terminal_response o) (terminal_at o) None) (recovery r).

Definition requeued_row (r : RequestRow) : RequestRow :=
  MkRow (submitted r) (row_operation r) Queued None None None None (MkOutcome None None None None) (recovery r).

Definition recovering_row (restore : string) (source now attempt : Z) (worker : option string) (r : RequestRow) :
    RequestRow :=
  let c := recovery r in
  MkRow (submitted r) restore Recovering None None None None (MkOutcome None None None (first_output (outcome r)))
    (MkRecovery (latest_snapshot c) (latest_at c) (checkpoint_due c) None (Some source) worker false
       (Some (default now (recovery_started c))) None attempt None).

Definition failed_row (now : Z) (reason : string) (r : RequestRow) : RequestRow :=
  with_recovery (with_pending None (with_error (Some reason) (recovery r)))
    (with_request_state RecoveryFailed (with_terminal now r)).

(** ** Conversions and checks *)

Definition to_i64 (value : Z) : Tx Z :=
  if value <=? i64_max then mret value else invalid "timestamp is too large".
Definition duration_millis (duration : Z) : Tx Z :=
  if as_millis duration <=? i64_max then mret (as_millis duration) else invalid "duration is too large".
Definition add_i64 (message : string) (a b : Z) : Tx Z :=
  if a + b <=? i64_max then mret (a + b) else invalid message.
(** [checked_sub] of a smaller non-negative number never overflows below. *)
Definition sub_i64 (message : string) (a b : Z) : Tx Z :=
  if - i64_max - 1 <=? a - b then mret (a - b) else invalid message.
Definition count_u32 (value : Z) : Tx Z :=
  if value <=? u32_max then mret value else invalid "database count exceeds u32".
Definition to_i32 (message : string) (value : Z) : Tx Z :=
  if value <=? i32_max then mret value else invalid message.
Definition nonnegative_u64 (value : Z) (name : string) : result PlacementStoreError Z :=
  reject_if (value <? 0) (Invalid (name +:+ " is negative"));;
  mret value.
Definition optional {A B E} (f : A → result E B) (o : option A) : result E (option B) :=
  match o with Some a => b ← f a; mret (Some b) | None => mret None end.
Definition optional_nonnegative_u64 (value : option Z) (name : string) : result PlacementStoreError (option Z) :=
  optional (λ v, nonnegative_u64 v name) value.
Definition core_invalid (e : CoreError) : PlacementStoreError := Invalid (core_error_to_string e).
Definition positive_epoch (value : Z) : result PlacementStoreError AssignmentEpoch :=
  value ← nonnegative_u64 value "assignment epoch";
  map_err core_invalid (epoch_new value).
Definition parse_id {kind maximum} (value : string) : result PlacementStoreError (identifier kind maximum) :=
  map_err core_invalid (parse value).

Definition valid_pool_name (value : string) : bool :=
  negb (bool_decide (value = EmptyString)) && (len value <=? 63)
  && all_bytes (λ b, is_ascii_lowercase b || is_ascii_digit b || is_byte "-" b) value
  && match first_byte value with Some b => is_ascii_alphanumeric b | None => false end
  && match last_byte value with Some b => is_ascii_alphanumeric b | None => false end.

Definition label_byte (b : ascii) : bool :=
  is_ascii_alphanumeric b || is_byte "-" b || is_byte "_" b || is_byte "." b || is_byte ":" b || is_byte "/" b.
Definition bounded_label (value : string) : bool :=
  negb (bool_decide (value = EmptyString)) && (len value <=? 128) && all_bytes label_byte value.

Definition ip_unspecified (ip : Network.IpAddr) : bool := match ip with Network.V4 v | Network.V6 v => v =? 0 end.
(** [ff00::/8] for the addresses of 128 bits. *)
Definition ip_multicast (ip : Network.IpAddr) : bool :=
  match ip with Network.V4 v => Network.v4_multicast v | Network.V6 v => Z.shiftr v 120 =? 255 end.

Definition validate_worker (r : WorkerRegistration) (broker_port : Z) : result PlacementStoreError () :=
  reject_if (negb (valid_pool_name (registered_pool r)) || negb (bounded_label (registered_topology r))
             || negb (bounded_label (registered_shape r)) || negb (bounded_label (compatibility_cohort r))
             || negb ((broker_address r).2 =? broker_port)
             || ip_unspecified (broker_address r).1 || ip_multicast (broker_address r).1
             || negb (is_ok (validate_ceilings (registered_ceilings r))))
    (Invalid "worker registration is invalid").

(** JSON, the text of addresses, and SHA-256 in hexadecimal. *)
Class StoreCodec (Value : Type) : Type := {
  operation_text : Operation → result string string;
  operation_parse : string → result string Operation;
  response_text : WorkloadResponse Value → result string string;
  response_parse : string → result string (WorkloadResponse Value);
  ceilings_text : ResourceCeilings → result string string;
  ceilings_parse : string → result string ResourceCeilings;
  address_text : SocketAddr → string;
  address_parse : string → option SocketAddr;
  sha256_hex : list ascii → string
}.

Section code.
Context {Value : Type} `{StoreCodec Value}.
Context (config : PlacementStoreConfig).

Record PlacementRecord : Type := MkRecord {
  record_request_id : string;
  record_idempotency_key : string;
  record_identity : Lease.PlacementIdentity;
  record_subject : SubjectId;
  record_pool : string;
  record_state : PlacementState;
  record_worker : option WorkerId;
  record_epoch : option AssignmentEpoch;
  record_expires : option Z;
  record_digest : option string;
  record_response : option (WorkloadResponse Value);
  record_recovery : option RecoveryStatus
}.

Inductive EnqueueOutcome : Type := EnqueueQueued (record : PlacementRecord) | EnqueueExisting (record : PlacementRecord).

(** Reading a column that is [NULL] as a value that is not an [Option] panics. *)
Definition column {A} (o : option A) : result (failure PlacementStoreError) A := expect "error retrieving column" o.
Definition or_reject {A} (r : result PlacementStoreError A) : result (failure PlacementStoreError) A := map_err Rejected r.
Definition to_u8 (message : string) (value : Z) : result PlacementStoreError Z :=
  reject_if ((value <? 0) || (255 <? value)) (Invalid message);;
  mret value.

Definition recovery_from_row (r : RequestRow) (interval : Z) : result (failure PlacementStoreError) RecoveryStatus :=
  let c := recovery r in
  staleness ← column (s_max_staleness (submitted r));
  attempts_limit ← column (s_max_attempts (submitted r));
  latest ← or_reject (optional parse_id (latest_snapshot c));
  source ← or_reject (optional positive_epoch (source_epoch c));
  interval ← or_reject (nonnegative_u64 interval "snapshot interval");
  staleness ← or_reject (nonnegative_u64 staleness "maximum staleness");
  attempts_limit ← or_reject (to_u8 "recovery attempt limit is invalid" attempts_limit);
  policy ← or_reject (validate_recovery (MkRecoveryPolicy interval staleness attempts_limit));
  latest_unix_ms ← or_reject (optional_nonnegative_u64 (latest_at c) "latest snapshot time");
  fence ← or_reject (optional parse_id (fence_worker c));
  started ← or_reject (optional_nonnegative_u64 (recovery_started c) "recovery start time");
  recovered ← or_reject (optional_nonnegative_u64 (recovered_at c) "recovery completion time");
  attempts ← or_reject (to_u8 "recovery attempt count is invalid" (recovery_attempts c));
  mret (MkRecoveryStatus policy latest latest_unix_ms source fence (fence_confirmed c) started recovered attempts
          (recovery_error c)).

Definition epoch_column (value : Z) : result PlacementStoreError AssignmentEpoch :=
  reject_if (value <? 0) (Invalid "negative assignment epoch");;
  map_err core_invalid (epoch_new value).

Definition record_from_row (r : RequestRow) : result (failure PlacementStoreError) PlacementRecord :=
  let s := submitted r in
  worker ← or_reject (optional parse_id (row_worker r));
  epoch ← or_reject (optional epoch_column (row_epoch r));
  expiry ← or_reject (optional (λ v, reject_if (v <? 0) (Invalid "negative lease expiration");; mret v) (lease_expires r));
  recovery ← match s_snapshot_interval s with
             | Some interval => status ← recovery_from_row r interval; mret (Some status)
             | None => mret None
             end;
  tenant ← or_reject (parse_id (s_tenant s));
  workspace ← or_reject (parse_id (s_workspace s));
  sandbox ← or_reject (parse_id (s_sandbox s));
  subject ← or_reject (parse_id (s_subject s));
  response ← or_reject (map_err Invalid (optional response_parse (terminal_response (outcome r))));
  mret (MkRecord (s_request_id s) (s_idempotency_key s) (Lease.MkIdentity tenant workspace sandbox) subject (s_pool s)
          (state r) worker epoch expiry (result_digest (outcome r)) response recovery).

Definition read_record (r : RequestRow) : Tx PlacementRecord := M_lift (record_from_row r).

Definition latest_of (record : PlacementRecord) : option SnapshotId :=
  r ← record_recovery record; status_latest_snapshot r.

Definition append_audit (record : PlacementRecord) (now : Z) (event : string) : Tx () :=
  epoch ← match record_epoch record with
          | Some e => v ← to_i64 (epoch_get e); mret (Some v)
          | None => mret None
          end;
  M_modify (λ db, set_audit
    (audit db ++ [MkAudit now (record_request_id record) (as_str (Lease.pi_tenant_id (record_identity record)))
       (as_str (Lease.pi_workspace_id (record_identity record))) (as_str (Lease.pi_sandbox_id (record_identity record)))
       (as_str (record_subject record)) (as_str <$> record_worker record) epoch event (record_digest record)
       (as_str <$> latest_of record)]) db).

(** A loop over rows. *)
Fixpoint each {A} (f : A → Tx ()) (l : list A) : Tx () :=
  match l with
  | [] => mret tt
  | x :: l' => f x;; each f l'
  end.

Definition expire_queued (now : Z) : Tx () :=
  rows ← update_where (λ r, is_waiting (state r) && (s_deadline (submitted r) <=? now)) (expired_row now);
  each (λ r, record ← read_record r; append_audit record now "deadline_expired") rows.

Definition ensure_tenant (tenant : TenantId) : Tx () :=
  M_modify (λ db,
    if bool_decide (is_Some (tenant_policy db !! as_str tenant)) then db
    else set_policy (<[as_str tenant := MkPolicyRow 1 (default_tenant_concurrency_limit config)
                         (default_tenant_queue_limit config) 0]> (tenant_policy db)) db).

Definition set_tenant_policy (tenant : TenantId) (weight concurrency_limit queue_limit : Z) : Tx () :=
  M_reject_if (negb ((1 <=? weight) && (weight <=? 100)) || (concurrency_limit <=? 0) || (queue_limit <=? 0)
               || (global_queue_limit config <? queue_limit))
    (Rejected (Invalid "tenant placement policy is invalid"));;
  M_modify (λ db, set_policy (<[as_str tenant := MkPolicyRow weight concurrency_limit queue_limit
    (match tenant_policy db !! as_str tenant with Some p => virtual_finish p | None => 0 end)]> (tenant_policy db)) db).

(** ** Submission *)

Definition validate_submission (s : PlacementSubmission) (now_unix_ms : Z) : result PlacementStoreError () :=
  operation ← map_err Invalid (operation_text (submission_operation s));
  let key := FairQueue.idempotency_key (work s) in
  let client_supplied_recovery_fence :=
    match submission_operation s with OpRestore _ _ _ _ (Some _) => true | _ => false end in
  let recovery_operation_supported :=
    match recovery_policy s with
    | None => true
    | Some _ => match submission_operation s with OpCreate _ _ _ | OpRestore _ _ _ _ _ => true | _ => false end
    end in
  reject_if (bool_decide (key = EmptyString) || (128 <? len key) || negb (all_bytes token_byte key)
             || (FairQueue.deadline_unix_ms (work s) <=? now_unix_ms)
             || negb (valid_pool_name (submission_pool s)) || negb (bounded_label (submission_topology s))
             || negb (bounded_label (submission_shape s)) || negb (bounded_label (submission_cohort s))
             || (MAXIMUM_OPERATION_BYTES <? len operation)
             || match work_order_operation (submission_operation s) with
                | Some o => negb (requires_sandbox o)
                | None => true
                end
             || negb (bool_decide (operation_sandbox (submission_operation s)
                                   = Some (as_str (FairQueue.work_sandbox_id (work s)))))
             || client_supplied_recovery_fence || negb recovery_operation_supported)
    (Invalid "placement submission is invalid").

Definition request_id (w : FairQueue.QueuedWork) : string :=
  sha256_hex (bytes (as_str (FairQueue.work_tenant_id w)) ++ [NUL] ++ bytes (FairQueue.idempotency_key w)).

(** [SELECT EXISTS (..)]: a clean worker that fits and has a recent heartbeat. *)
Definition warm_capacity (s : PlacementSubmission) (cutoff : Z) (db : Db) : bool :=
  existsb (λ '(_, w), bool_decide (worker_pool w = submission_pool s)
                      && bool_decide (worker_topology w = submission_topology s)
                      && bool_decide (worker_shape w = submission_shape s)
                      && bool_decide (worker_cohort w = submission_cohort s)
                      && bool_decide (worker_state w = PwClean) && (cutoff <? heartbeat w))
    (map_to_list (workers db)).

Definition next_finish (p : PolicyRow) (virtual_time : Z) : Tx Z :=
  M_lift (if weight p =? 0 then Err (Panicked "attempt to divide by zero") else Ok tt);;
  add_i64 "fair queue score overflow" (Z.max (virtual_finish p) virtual_time) (10000 / weight p).

Definition submitted_row (s : PlacementSubmission) (operation : string) (now deadline fair_finish : Z)
    (capacity : CapacityClass) : RequestRow :=
  let w := work s in
  MkRow (MkSubmitted (request_id w) (FairQueue.idempotency_key w) (as_str (FairQueue.work_tenant_id w))
           (as_str (FairQueue.work_workspace_id w)) (as_str (FairQueue.work_sandbox_id w))
           (as_str (submission_subject_id s)) (submission_pool s) (submission_topology s) (submission_shape s)
           (submission_cohort s) deadline now fair_finish capacity
           (snapshot_interval_ms <$> recovery_policy s) (maximum_staleness_ms <$> recovery_policy s)
           (maximum_attempts <$> recovery_policy s))
    operation Queued None None None None (MkOutcome None None None None)
    (MkRecovery None None None None None None false None None 0 None).

Definition admit_submission (s : PlacementSubmission) (operation : string) (now deadline : Z) : Tx EnqueueOutcome :=
  let tenant := as_str (FairQueue.work_tenant_id (work s)) in
  let sandbox := (tenant, as_str (FairQueue.work_workspace_id (work s)), as_str (FairQueue.work_sandbox_id (work s))) in
  expire_queued now;;
  global ← reads (count_where (has_state Queued));
  M_reject_if (global_queue_limit config <=? global) (Rejected GlobalQueueFull);;
  tenant_count ← reads (count_where (λ r, bool_decide (row_tenant r = tenant) && has_state Queued r));
  p ← query_one (λ db, tenant_policy db !! tenant);
  M_reject_if (queue_limit p <=? tenant_count) (Rejected TenantQueueFull);;
  conflict ← query_opt (λ r, bool_decide (row_sandbox r = sandbox) && is_live (state r));
  M_reject_if (bool_decide (is_Some conflict)) (Rejected SandboxConflict);;
  time ← reads virtual_time;
  fair_finish ← next_finish p time;
  M_modify (λ db, set_policy (<[tenant := MkPolicyRow (weight p) (concurrency_limit p) (queue_limit p) fair_finish]>
                                (tenant_policy db)) db);;
  timeout ← duration_millis (worker_heartbeat_timeout config);
  cutoff ← sub_i64 "invalid heartbeat time" now timeout;
  warm ← reads (warm_capacity s cutoff);
  insert_request (submitted_row s operation now deadline fair_finish (if warm : bool then Warm else Cold));;
  row ← query_one (λ db, requests db !! request_id (work s));
  record ← read_record row;
  append_audit record now "queued";;
  mret (EnqueueQueued record).

Definition enqueue (s : PlacementSubmission) (now_unix_ms : Z) : Tx EnqueueOutcome :=
  lift (validate_submission s now_unix_ms);;
  operation ← lift (map_err Invalid (operation_text (submission_operation s)));
  lift (optional validate_recovery (recovery_policy s));;
  match recovery_policy s with
  | Some p => to_i64 (snapshot_interval_ms p);; to_i64 (maximum_staleness_ms p);; mret tt
  | None => mret tt
  end;;
  now ← to_i64 now_unix_ms;
  deadline ← to_i64 (FairQueue.deadline_unix_ms (work s));
  transaction (
    ensure_tenant (FairQueue.work_tenant_id (work s));;
    existing ← query_opt (λ r, bool_decide (row_key r = (as_str (FairQueue.work_tenant_id (work s)),
                                                         FairQueue.idempotency_key (work s))));
    match existing with
    | Some row => record ← read_record row; mret (EnqueueExisting record)
    | None => admit_submission s operation now deadline
    end).

(** ** Workers *)

Definition registers (r : WorkerRegistration) (w : WorkerRow) : bool :=
  bool_decide (worker_state w = PwClean) && bool_decide (worker_pool w = registered_pool r)
  && bool_decide (worker_topology w = registered_topology r) && bool_decide (worker_shape w = registered_shape r)
  && bool_decide (worker_cohort w = compatibility_cohort r).

(** [INSERT .. ON CONFLICT .. DO UPDATE .. WHERE]: the number of rows that were written. *)
Definition upsert_worker (r : WorkerRegistration) (now : Z) (address ceilings : string) : Tx Z :=
  λ db,
    let id := as_str (registered_worker r) in
    match workers db !! id with
    | None =>
        (write_worker id (MkWorkerRow (registered_topology r) (registered_shape r) (compatibility_cohort r) PwClean now now
                            (Some address) (Some ceilings) (registered_pool r));; mret 1) db
    | Some w =>
        if registers r w then
          (write_worker id (MkWorkerRow (worker_topology w) (worker_shape w) (worker_cohort w) (worker_state w) now
                              (registered w) (Some address) (Some ceilings) (worker_pool w));; mret 1) db
        else (db, Ok 0)
    end.

Definition register_worker (r : WorkerRegistration) (now_unix_ms : Z) : Tx () :=
  lift (validate_worker r (broker_port config));;
  now ← to_i64 now_unix_ms;
  ceilings ← lift (map_err Invalid (ceilings_text (registered_ceilings r)));
  transaction (
    updated ← upsert_worker r now (address_text (broker_address r)) ceilings;
    M_reject_if (negb (updated =? 1)) (Rejected WorkerUnavailable)).

Definition leased_to (worker : string) (r : RequestRow) : bool := bool_decide (row_worker r = Some worker).
(** [lease_expires_unix_ms > now]; false when it is [NULL]. *)
Definition lease_after (now : Z) (r : RequestRow) : bool :=
  match lease_expires r with Some e => now <? e | None => false end.

Definition heartbeat_worker (worker : WorkerId) (now_unix_ms : Z) : Tx () :=
  now ← to_i64 now_unix_ms;
  lifetime ← duration_millis (lease_lifetime config);
  expires ← add_i64 "lease expiration overflow" now lifetime;
  transaction (
    updated ← update_worker (as_str worker) (worker_in [PwClean; PwLeased; PwDraining]) (with_heartbeat now);
    M_reject_if (negb (updated =? 1)) (Rejected WorkerUnavailable);;
    update_where (λ r, leased_to (as_str worker) r && has_state Serving r && lease_after now r)
      (with_lease (Some expires));;
    mret tt).

Definition drain_worker (worker : WorkerId) : Tx () :=
  transaction (
    updated ← set_worker_state (as_str worker) (worker_in [PwClean; PwLeased; PwDraining]) PwDraining;
    M_reject_if (negb (updated =? 1)) (Rejected WorkerUnavailable)).

Fixpoint drain_all (ids : list string) : Tx Z :=
  match ids with
  | [] => mret 0
  | id :: ids' =>
      n ← set_worker_state id (worker_in [PwClean]) PwDraining;
      m ← drain_all ids';
      mret (n + m)
  end.

Definition drain_workers_if_clean (ids : list WorkerId) : Tx bool :=
  let identities := remove_dups (as_str <$> ids) in
  M_reject_if (bool_decide (ids = []) || (1024 <? length_z ids)) (Rejected (Invalid "worker drain set is invalid"));;
  M_reject_if (negb (length_z identities =? length_z ids)) (Rejected (Invalid "worker drain set contains duplicates"));;
  transaction (
    rows ← reads (λ db, omap (λ id, workers db !! id) identities);
    if negb (length_z rows =? length_z identities) || existsb (λ w, negb (bool_decide (worker_state w = PwClean))) rows
    then mret false
    else
      updated ← drain_all identities;
      M_reject_if (negb (updated =? length_z identities))
        (Rejected (Invalid "worker drain set changed concurrently"));;
      mret true).

Fixpoint parse_workers (l : list (string * WorkerRow)) : result PlacementStoreError (list (WorkerId * PlacementWorkerState)) :=
  match l with
  | [] => mret []
  | (id, w) :: l' =>
      worker ← parse_id id;
      rest ← parse_workers l';
      mret ((worker, worker_state w) :: rest)
  end.

Definition worker_states (ids : list WorkerId) : Tx (list (WorkerId * PlacementWorkerState)) :=
  M_reject_if (bool_decide (ids = []) || (1024 <? length_z ids)) (Rejected (Invalid "worker state query is invalid"));;
  rows ← reads (λ db, filter (λ p, p.1 ∈ as_str <$> ids) (btree_iter (workers db)));
  lift (parse_workers rows).

(** [ORDER BY .. LIMIT]. *)
Definition order_by {A} (leb : A → A → bool) (l : list A) : list A := merge_sort (λ a b, Is_true (leb a b)) l.

Fixpoint parse_ids (l : list string) : result PlacementStoreError (list WorkerId) :=
  match l with
  | [] => mret []
  | id :: l' => worker ← parse_id id; rest ← parse_ids l'; mret (worker :: rest)
  end.

Definition registered_leb (p q : string * WorkerRow) : bool :=
  (registered p.2 <? registered q.2) || ((registered p.2 =? registered q.2) && string_leb p.1 q.1).

Definition clean_workers (now_unix_ms limit : Z) : Tx (list WorkerId) :=
  M_reject_if ((limit =? 0) || (1024 <? limit)) (Rejected (Invalid "worker scan limit is invalid"));;
  now ← to_i64 now_unix_ms;
  timeout ← duration_millis (worker_heartbeat_timeout config);
  cutoff ← sub_i64 "invalid heartbeat time" now timeout;
  rows ← reads (λ db, filter (λ p, worker_state p.2 = PwClean ∧ cutoff < heartbeat p.2
                                    ∧ is_Some (worker_address p.2) ∧ is_Some (worker_ceilings p.2))
                        (map_to_list (workers db)));
  lift (parse_ids (take (Z.to_nat limit) (order_by registered_leb rows)).*1).

(** A request that waits for its source to be fenced. *)
Definition unfenced (r : RequestRow) : bool := has_state Recovering r && negb (fence_confirmed (recovery r)).

Definition recovery_fences (pool : string) (limit : Z) : Tx (list WorkerId) :=
  M_reject_if (negb (valid_pool_name pool) || (limit =? 0) || (1024 <? limit))
    (Rejected (Invalid "recovery fence query is invalid"));;
  rows ← reads (rows_where (λ r, bool_decide (s_pool (submitted r) = pool) && unfenced r));
  lift (parse_ids (take (Z.to_nat limit) (order_by string_leb (remove_dups (omap (λ r, fence_worker (recovery r)) rows))))).

Definition with_record_worker (worker : option WorkerId) (epoch : option AssignmentEpoch) (expires : option Z)
    (r : PlacementRecord) : PlacementRecord :=
  MkRecord (record_request_id r) (record_idempotency_key r) (record_identity r) (record_subject r) (record_pool r)
    (record_state r) worker epoch expires (record_digest r) (record_response r) (record_recovery r).
Definition with_record_state (s : PlacementState) (r : PlacementRecord) : PlacementRecord :=
  MkRecord (record_request_id r) (record_idempotency_key r) (record_identity r) (record_subject r) (record_pool r)
    s (record_worker r) (record_epoch r) (record_expires r) (record_digest r) (record_response r) (record_recovery r).

Definition confirm_recovery_fence (worker : WorkerId) (now_unix_ms : Z) : Tx Z :=
  now ← to_i64 now_unix_ms;
  let p := λ r, unfenced r && bool_decide (fence_worker (recovery r) = Some (as_str worker)) in
  transaction (
    rows ← reads (rows_where p);
    each (λ row,
      record ← read_record row;
      let source := status ← record_recovery record; status_source_epoch status in
      append_audit (with_record_worker (Some worker) source (record_expires record) record) now "source_fence_confirmed")
      rows;;
    update_where p (λ r, with_recovery (with_confirmed (recovery r)) r);;
    mret (length_z rows)).

(** ** Autoscaling *)

Definition count_workers (pool : string) (cutoff : Z) (s : PlacementWorkerState) (db : Db) : Z :=
  length_z (filter (λ p, worker_pool p.2 = pool ∧ cutoff < heartbeat p.2 ∧ worker_state p.2 = s) (map_to_list (workers db))).
Definition count_requests (pool : string) (p : PlacementState → bool) (db : Db) : Z :=
  count_where (λ r, bool_decide (s_pool (submitted r) = pool) && p (state r)) db.

Definition reconcile_pool (pool : string) (current quota : Z) (policy : Autoscale.PoolPolicy) (now_unix_ms : Z) :
    Tx DurablePoolDecision :=
  M_reject_if (negb (valid_pool_name pool) || (now_unix_ms =? 0))
    (Rejected (Invalid "autoscale pool identity or time is invalid"));;
  lift (map_err core_invalid (Autoscale.validate_policy policy));;
  now ← to_i64 now_unix_ms;
  timeout ← duration_millis (worker_heartbeat_timeout config);
  cutoff ← sub_i64 "invalid heartbeat time" now timeout;
  transaction (
    expire_queued now;;
    clean ← (n ← reads (count_workers pool cutoff PwClean); count_u32 n);
    leased ← (n ← reads (count_workers pool cutoff PwLeased); count_u32 n);
    draining ← (n ← reads (count_workers pool cutoff PwDraining); count_u32 n);
    assigned ← (n ← reads (count_requests pool is_active); count_u32 n);
    M_reject_if (leased <? assigned) (Rejected (Invalid "assigned demand exceeds live leased workers"));;
    queued ← (n ← reads (count_requests pool is_waiting); count_u32 n);
    previous ← reads (λ db, row ← autoscale_state db !! pool; idle_since row);
    lift (optional (λ v, reject_if (v <? 0) (Invalid "timestamp is negative")) previous);;
    let idle := if (queued =? 0) && (assigned =? 0) then Some (default now_unix_ms previous) else None in
    let o := Autoscale.MkObservation current clean leased draining queued quota idle in
    d ← lift (map_err core_invalid (Autoscale.reconcile policy o now_unix_ms));
    desired ← to_i32 "desired worker count exceeds PostgreSQL integer" (Autoscale.desired_workers d);
    match idle with Some v => to_i64 v;; mret tt | None => mret tt end;;
    M_modify (λ db, set_autoscale (<[pool := MkScaleRow idle desired now]> (autoscale_state db)) db);;
    mret (MkDurable o d)).

Definition pending (a : ActivationRow) : bool :=
  negb (bool_decide (is_Some (ready_at a))) && negb (bool_decide (is_Some (cancelled_at a))).
Definition pending_of (pool : string) (a : ActivationRow) : bool := bool_decide (activation_pool a = pool) && pending a.
Definition with_target (target : Z) (a : ActivationRow) : ActivationRow :=
  MkActivation (activation_sequence a) (activation_pool a) (requested_at a) (Z.max (target_workers a) target) (ready_at a)
    (cancelled_at a).

(** The finished activations of a pool beyond the ten thousand newest ones. *)
Definition outdated (pool : string) (l : list ActivationRow) : list Z :=
  drop (Z.to_nat 10000) (reverse (activation_sequence <$>
    filter (λ a, activation_pool a = pool ∧ pending a = false) l)).

Definition record_scale_up (pool : string) (target_workers now_unix_ms : Z) : Tx () :=
  M_reject_if (negb (valid_pool_name pool) || (target_workers =? 0) || (now_unix_ms =? 0))
    (Rejected (Invalid "scale-up activation is invalid"));;
  target ← to_i32 "activation target exceeds PostgreSQL integer" target_workers;
  now ← to_i64 now_unix_ms;
  transaction (M_modify (λ db,
    let l := if existsb (pending_of pool) (activations db)
             then ((λ a, if pending_of pool a then with_target target a else a) <$> activations db, next_sequence db)
             else (activations db ++ [MkActivation (next_sequence db) pool now target None None], next_sequence db + 1) in
    set_activations (filter (λ a, activation_sequence a ∉ outdated pool l.1) l.1) l.2 db)).

Definition observed (desired ready now : Z) (a : ActivationRow) : ActivationRow :=
  MkActivation (activation_sequence a) (activation_pool a) (requested_at a) (target_workers a)
    (if target_workers a <=? ready then Some now else None)
    (if (desired <? target_workers a) && (ready <? target_workers a) then Some now else None).

Definition observe_pool_activation (pool : string) (desired_workers ready_workers now_unix_ms : Z) : Tx () :=
  M_reject_if (negb (valid_pool_name pool) || (now_unix_ms =? 0)) (Rejected (Invalid "activation observation is invalid"));;
  desired ← to_i32 "desired workers exceed PostgreSQL integer" desired_workers;
  ready ← to_i32 "ready workers exceed PostgreSQL integer" ready_workers;
  now ← to_i64 now_unix_ms;
  M_modify (λ db, set_activations
    ((λ a, if pending_of pool a && ((target_workers a <=? ready)
                                    || ((desired <? target_workers a) && (ready <? target_workers a)))
           then observed desired ready now a else a) <$> activations db) (next_sequence db) db).

(** ** Assignments *)

(** [ORDER BY fair_finish, created_unix_ms, request_id]. *)
Definition before (a b : RequestRow) : bool :=
  let x := submitted a in
  let y := submitted b in
  (s_fair_finish x <? s_fair_finish y)
  || ((s_fair_finish x =? s_fair_finish y)
      && ((s_created x <? s_created y)
          || ((s_created x =? s_created y) && string_leb (s_request_id x) (s_request_id y)))).

Definition assignable (r : RequestRow) : bool :=
  has_state Queued r || (has_state Recovering r && fence_confirmed (recovery r)).

(** The [WHERE] clause for a worker. *)
Definition candidate (w : WorkerRow) (now : Z) (db : Db) (r : RequestRow) : bool :=
  let s := submitted r in
  assignable r && (now <? s_deadline s)
  && bool_decide (s_pool s = worker_pool w) && bool_decide (s_topology s = worker_topology w)
  && bool_decide (s_shape s = worker_shape w) && bool_decide (s_cohort s = worker_cohort w)
  && match tenant_policy db !! s_tenant s with
     | Some p => count_where (λ a, bool_decide (row_tenant a = s_tenant s) && is_active (state a)) db
                 <? concurrency_limit p
     | None => false
     end.

Definition next_candidate (w : WorkerRow) (now : Z) (db : Db) : option RequestRow :=
  head (order_by before (rows_where (candidate w now db) db)).

Definition available (cutoff : Z) (w : WorkerRow) : bool :=
  bool_decide (worker_state w = PwClean) && (cutoff <? heartbeat w).

(** The next epoch of a sandbox. *)
Definition next_epoch (sandbox : string * string * string) : Tx Z :=
  λ db, let epoch := match assignment_epochs db !! sandbox with Some e => e + 1 | None => 1 end in
        if epoch <=? i64_max then (set_epochs (<[sandbox := epoch]> (assignment_epochs db)) db, Ok epoch)
        else M_fail (Rejected (Database "bigint out of range")) db.

Definition assignment_from_record (r : PlacementRecord) (broker : SocketAddr) (ceilings : ResourceCeilings)
    (operation : Operation) : result PlacementStoreError Assignment :=
  worker ← ok_or (Invalid "assignment has no worker") (record_worker r);
  epoch ← ok_or (Invalid "assignment has no epoch") (record_epoch r);
  expires ← ok_or (Invalid "assignment has no lease expiration") (record_expires r);
  mret (MkAssignment (record_request_id r) (record_idempotency_key r) (record_identity r) (record_subject r) worker epoch
          expires broker ceilings operation).

(** The address and the ceilings that a worker registered. *)
Definition worker_contact (address ceilings : string) : result PlacementStoreError (SocketAddr * ResourceCeilings) :=
  broker ← ok_or (Invalid "invalid broker address") (address_parse address);
  limits ← map_err Invalid (ceilings_parse ceilings);
  map_err core_invalid (validate_ceilings limits);;
  mret (broker, limits).

Definition is_recovery (record : PlacementRecord) : bool :=
  match record_recovery record with Some status => 0 <? status_attempts status | None => false end.

(** The writes of [assign_next] for the chosen request. *)
Definition grant (worker : WorkerId) (r : RequestRow) (now expires : Z) (contact : SocketAddr * ResourceCeilings) :
    Tx Assignment :=
  operation ← lift (map_err Invalid (operation_parse (row_operation r)));
  epoch ← next_epoch (row_sandbox r);
  update_request (row_id r) assignable (assigned_row (as_str worker) epoch expires now);;
  M_modify (λ db, set_virtual_time (Z.max (virtual_time db) (s_fair_finish (submitted r))) db);;
  set_worker_state (as_str worker) (λ _, true) PwLeased;;
  row ← query_one (λ db, requests db !! row_id r);
  record ← read_record row;
  append_audit record now (if is_recovery record then "recovery_assigned" else "assigned");;
  lift (assignment_from_record record contact.1 contact.2 operation).

Definition assign_next (worker : WorkerId) (now_unix_ms : Z) : Tx (option Assignment) :=
  now ← to_i64 now_unix_ms;
  timeout ← duration_millis (worker_heartbeat_timeout config);
  cutoff ← sub_i64 "invalid heartbeat time" now timeout;
  lifetime ← duration_millis (lease_lifetime config);
  expires ← add_i64 "lease expiration overflow" now lifetime;
  transaction (
    row ← reads (λ db, workers db !! as_str worker);
    '(w, (address, ceilings)) ← M_lift (ok_or (Rejected WorkerUnavailable)
      (w ← row; address ← worker_address w; ceilings ← worker_ceilings w;
       if available cutoff w then Some (w, (address, ceilings)) else None));
    contact ← lift (worker_contact address ceilings);
    expire_queued now;;
    active ← reads (count_where (λ r, is_active (state r)));
    if global_concurrency_limit config <=? active then mret None
    else
      next ← reads (next_candidate w now);
      match next with
      | None => mret None
      | Some r => a ← grant worker r now expires contact; mret (Some a)
      end).

(** The row that an assignment names, while its lease lasts. *)
Definition holds (a : Assignment) (now : Z) (r : RequestRow) : bool :=
  leased_to (as_str (assignment_worker a)) r && bool_decide (row_epoch r = Some (epoch_get (assignment_epoch a)))
  && lease_after now r.

Definition renew (a : Assignment) (now_unix_ms : Z) : Tx Z :=
  now ← to_i64 now_unix_ms;
  lifetime ← duration_millis (lease_lifetime config);
  expires ← add_i64 "lease expiration overflow" now lifetime;
  to_i64 (epoch_get (assignment_epoch a));;
  transaction (
    rows ← update_where (λ r, bool_decide (row_id r = assignment_request_id a) && holds a now r && has_state Assigned r)
             (with_lease (Some expires));
    M_reject_if (negb (length_z rows =? 1)) (Rejected StaleAssignment));;
  mret expires.

(** The columns that a completion sets. *)
Definition completed_row (s : PlacementState) (digest : string) (encoded : option string)
    (terminal first_output expiry due recovered : option Z) (error : option string) (r : RequestRow) : RequestRow :=
  MkRow (submitted r) (row_operation r) s (row_worker r) (row_epoch r)
    (match expiry with Some e => Some e | None => lease_expires r end) (assigned_at r)
    (MkOutcome (Some digest) encoded terminal first_output)
    (with_error error (with_recovered recovered (with_due due (recovery r)))).

Definition starts_sandbox (o : Operation) : bool :=
  match o with OpCreate _ _ _ | OpRestore _ _ _ _ _ => true | _ => false end.

Definition is_recovering (record : PlacementRecord) : bool :=
  match record_recovery record with Some status => bool_decide (is_Some (status_started status)) | None => false end.

(** The [UPDATE]s and the audit of a completion that wins. *)
Definition publish (a : Assignment) (record : PlacementRecord) (digest : string)
    (response : option (string * WorkloadResponse Value)) (now : Z) : Tx () :=
  let serving := match response with Some (_, r) => rs_ok r | None => false end
                 && starts_sandbox (assignment_operation a) in
  let recovering := is_recovering record in
  let s := if serving then Serving else if recovering then RecoveryFailed else Completed in
  serving_expiry ← (if serving then
                      lifetime ← duration_millis (lease_lifetime config);
                      e ← add_i64 "lease expiration overflow" now lifetime; mret (Some e)
                    else mret None);
  due ← match record_recovery record with
        | Some status =>
            if serving then
              interval ← to_i64 (snapshot_interval_ms (status_policy status));
              d ← add_i64 "checkpoint deadline overflow" now interval; mret (Some d)
            else mret None
        | None => mret None
        end;
  let error := if negb serving && recovering
               then Some (default "restore failed"%string ('(_, r) ← response; rs_error r)) else None in
  update_by_id (assignment_request_id a)
    (completed_row s digest (fst <$> response) (if serving then None else Some now)
       (if response is Some _ then Some now else None) serving_expiry due
       (if serving && recovering then Some now else None) error);;
  (if serving then mret tt else set_worker_state (as_str (assignment_worker a)) (λ _, true) PwConsumed;; mret tt);;
  append_audit
    (MkRecord (record_request_id record) (record_idempotency_key record) (record_identity record)
       (record_subject record) (record_pool record) s (record_worker record) (record_epoch record)
       (record_expires record) (Some digest) (snd <$> response) (record_recovery record))
    now
    (if serving && recovering then "recovery_completed" else if serving then "serving"
     else if recovering then "recovery_failed" else "completed").

Definition stale_completion (a : Assignment) (now_unix_ms : Z) (record : PlacementRecord) : bool :=
  negb (bool_decide (record_state record = Assigned))
  || negb (bool_decide (record_worker record = Some (assignment_worker a)))
  || negb (bool_decide (record_epoch record = Some (assignment_epoch a)))
  || match record_expires record with Some e => e <=? now_unix_ms | None => true end.

Definition complete_inner (a : Assignment) (digest : string) (response : option (string * WorkloadResponse Value))
    (now_unix_ms : Z) : Tx CompletionOutcome :=
  M_reject_if (negb (valid_digest digest)) (Rejected (Invalid "result digest is invalid"));;
  now ← to_i64 now_unix_ms;
  transaction (
    found ← reads (λ db, requests db !! assignment_request_id a);
    row ← M_lift (ok_or (Rejected StaleAssignment) found);
    record ← read_record row;
    if bool_decide (record_state record = Serving) || bool_decide (record_state record = Completed) then
      if bool_decide (record_digest record = Some digest) then mret AlreadyPublished
      else M_fail (Rejected CompletionConflict)
    else
      M_reject_if (stale_completion a now_unix_ms record) (Rejected StaleAssignment);;
      publish a record digest response now;;
      mret Published).

Definition complete (a : Assignment) (digest : string) (now_unix_ms : Z) : Tx CompletionOutcome :=
  complete_inner a digest None now_unix_ms.

Definition complete_response (a : Assignment) (response : WorkloadResponse Value) (now_unix_ms : Z) :
    Tx CompletionOutcome :=
  lift (map_err Invalid (validate_for response (assignment_request_id a)));;
  encoded ← lift (map_err Invalid (response_text response));
  M_reject_if (MAXIMUM_RESPONSE_BYTES <? len encoded)
    (Rejected (Invalid "worker response exceeds its size limit"));;
  complete_inner a ("sha256:" +:+ sha256_hex (bytes encoded)) (Some (encoded, response)) now_unix_ms.

Definition owned_by (tenant : TenantId) (subject : SubjectId) (key : string) (r : RequestRow) : bool :=
  let s := submitted r in
  bool_decide (s_tenant s = as_str tenant) && bool_decide (s_subject s = as_str subject)
  && bool_decide (s_idempotency_key s = key).

Definition is_finished (s : PlacementState) : bool :=
  match s with Completed | RecoveryFailed | Cancelled | Expired => true | Queued | Assigned | Serving | Recovering => false end.

Definition cancel (tenant : TenantId) (subject : SubjectId) (key : string) (now_unix_ms : Z) : Tx (option PlacementRecord) :=
  now ← to_i64 now_unix_ms;
  transaction (
    found ← query_opt (owned_by tenant subject key);
    match found with
    | None => mret None
    | Some row =>
        record ← read_record row;
        if is_finished (record_state record) then mret (Some record)
        else
          update_by_id (record_request_id record) (λ r, with_request_state Cancelled (with_terminal now r));;
          match record_worker record with
          | Some worker => set_worker_state (as_str worker) (worker_in [PwLeased]) PwQuarantined;; mret tt
          | None => mret tt
          end;;
          let record := with_record_state Cancelled record in
          append_audit record now "cancelled";;
          mret (Some record)
    end).

(** ** Checkpoints *)

Definition due_leb (p q : RequestRow * (string * string)) : bool :=
  let due := λ r : RequestRow, default 0 (checkpoint_due (recovery r)) in
  (due p.1 <? due q.1) || ((due p.1 =? due q.1) && string_leb (row_id p.1) (row_id q.1)).

(** [JOIN workers]: the row with the texts of its leased worker. *)
Definition with_contact (db : Db) (r : RequestRow) : option (RequestRow * (string * string)) :=
  id ← row_worker r;
  w ← workers db !! id;
  address ← worker_address w;
  ceilings ← worker_ceilings w;
  if bool_decide (worker_state w = PwLeased) then Some (r, (address, ceilings)) else None.

Definition due_at (now : Z) (r : RequestRow) : bool :=
  has_state Serving r && match checkpoint_due (recovery r) with Some d => d <=? now | None => false end
  && lease_after now r.

Definition claim_checkpoint (now_unix_ms now : Z) (row : RequestRow * (string * string)) : Tx CheckpointAssignment :=
  let '(r, (address, ceilings)) := row in
  record ← read_record r;
  epoch ← lift (ok_or (Invalid "checkpoint has no epoch") (record_epoch record));
  snapshot_id ← lift (parse_id ("recovery-" +:+ to_string (epoch_get epoch) +:+ "-" +:+ to_string now_unix_ms));
  interval ← M_lift (column (s_snapshot_interval (submitted r)));
  lifetime ← duration_millis (lease_lifetime config);
  next_due ← add_i64 "checkpoint deadline overflow" now (Z.max interval lifetime);
  update_request (record_request_id record) (has_state Serving)
    (λ r, with_recovery (with_due (Some next_due) (with_pending (Some (as_str snapshot_id)) (recovery r))) r);;
  contact ← lift (worker_contact address ceilings);
  operation ← lift (map_err Invalid (operation_parse (row_operation r)));
  a ← lift (assignment_from_record record contact.1 contact.2 operation);
  mret (MkCheckpoint a snapshot_id).

Fixpoint claim_all (now_unix_ms now : Z) (rows : list (RequestRow * (string * string))) : Tx (list CheckpointAssignment) :=
  match rows with
  | [] => mret []
  | row :: rows' =>
      c ← claim_checkpoint now_unix_ms now row;
      rest ← claim_all now_unix_ms now rows';
      mret (c :: rest)
  end.

Definition claim_due_checkpoints (now_unix_ms limit : Z) : Tx (list CheckpointAssignment) :=
  M_reject_if ((limit =? 0) || (1024 <? limit)) (Rejected (Invalid "checkpoint claim limit is invalid"));;
  now ← to_i64 now_unix_ms;
  transaction (
    rows ← reads (λ db, order_by due_leb (omap (with_contact db) (rows_where (due_at now) db)));
    claim_all now_unix_ms now (take (Z.to_nat limit) rows)).

Definition with_record_recovery (status : option RecoveryStatus) (r : PlacementRecord) : PlacementRecord :=
  MkRecord (record_request_id r) (record_idempotency_key r) (record_identity r) (record_subject r) (record_pool r)
    (record_state r) (record_worker r) (record_epoch r) (record_expires r) (record_digest r) (record_response r) status.
Definition with_status_latest (id : SnapshotId) (now : Z) (s : RecoveryStatus) : RecoveryStatus :=
  MkRecoveryStatus (status_policy s) (Some id) (Some now) (status_source_epoch s) (status_fence_worker s)
    (status_fence_confirmed s) (status_started s) (status_recovered s) (status_attempts s) (status_error s).

Definition stale_checkpoint (c : CheckpointAssignment) (now_unix_ms : Z) (r : RequestRow) (record : PlacementRecord) : bool :=
  let a := checkpoint_assignment c in
  negb (bool_decide (record_state record = Serving))
  || negb (bool_decide (record_worker record = Some (assignment_worker a)))
  || negb (bool_decide (record_epoch record = Some (assignment_epoch a)))
  || negb (bool_decide (pending_snapshot (recovery r) = Some (as_str (checkpoint_snapshot c))))
  || match record_expires record with Some e => e <=? now_unix_ms | None => true end.

Definition publish_checkpoint (c : CheckpointAssignment) (now_unix_ms : Z) : Tx () :=
  let id := as_str (checkpoint_snapshot c) in
  now ← to_i64 now_unix_ms;
  transaction (
    found ← reads (λ db, requests db !! assignment_request_id (checkpoint_assignment c));
    r ← M_lift (ok_or (Rejected StaleAssignment) found);
    record ← read_record r;
    M_reject_if (stale_checkpoint c now_unix_ms r record) (Rejected StaleAssignment);;
    status ← M_lift (expect "checkpoint has recovery policy" (record_recovery record));
    interval ← to_i64 (snapshot_interval_ms (status_policy status));
    next_due ← add_i64 "checkpoint deadline overflow" now interval;
    update_by_id (record_request_id record)
      (λ r, with_recovery (with_due (Some next_due) (with_pending None (with_latest id now (recovery r)))) r);;
    append_audit (with_record_recovery (with_status_latest (checkpoint_snapshot c) now_unix_ms <$> record_recovery record) record)
      now "checkpoint_published").

(** ** Fencing *)

Definition snapshot_fresh (p : RecoveryPolicy) (now_unix_ms : Z) (status : RecoveryStatus) : bool :=
  match status_latest_at status with
  | Some created =>
      match u64_checked_add created (maximum_staleness_ms p) with Some expiry => now_unix_ms <=? expiry | None => false end
  | None => false
  end.

(** The stored operation becomes a restore of the snapshot. *)
Definition restore_of (operation : string) (snapshot : SnapshotId) (source : AssignmentEpoch) : result PlacementStoreError string :=
  o ← map_err Invalid (operation_parse operation);
  match o with
  | OpCreate topology sandbox timeout_ms | OpRestore topology sandbox _ timeout_ms _ =>
      map_err Invalid
        (operation_text (OpRestore topology sandbox (as_str snapshot) timeout_ms (Some (epoch_get source))))
  | _ => Err (Invalid "recoverable assignment is not create or restore")
  end.

Definition queue_recovery (r : RequestRow) (previous : PlacementRecord) (status : RecoveryStatus) (snapshot : SnapshotId)
    (now : Z) : Tx PlacementRecord :=
  source ← M_lift match status_source_epoch status with
                  | Some e => Ok e
                  | None => expect "expired assignment has an epoch" (record_epoch previous)
                  end;
  restore ← lift (restore_of (row_operation r) snapshot source);
  source_i64 ← to_i64 (epoch_get source);
  update_by_id (record_request_id previous)
    (recovering_row restore source_i64 now (status_attempts status + 1) (as_str <$> record_worker previous));;
  append_audit previous now "recovery_queued";;
  mret (with_record_worker None None None (with_record_state Recovering previous)).

Definition recover (r : RequestRow) (previous : PlacementRecord) (status : RecoveryStatus) (now_unix_ms now : Z) :
    Tx PlacementRecord :=
  let p := status_policy status in
  let fresh := snapshot_fresh p now_unix_ms status in
  match status_latest_snapshot status, fresh, status_attempts status <? maximum_attempts p with
  | Some snapshot, true, true => queue_recovery r previous status snapshot now
  | latest, _, _ =>
      let reason := (match latest with
                     | None => "no durable checkpoint"
                     | Some _ => if negb fresh then "latest checkpoint exceeds maximum staleness"
                                 else "recovery attempts exhausted"
                     end)%string in
      update_by_id (record_request_id previous) (failed_row now reason);;
      append_audit previous now "recovery_failed";;
      mret (with_record_state RecoveryFailed previous)
  end.

Definition fence_row (now_unix_ms now : Z) (r : RequestRow) : Tx PlacementRecord :=
  previous ← read_record r;
  match record_worker previous with
  | Some worker => set_worker_state (as_str worker) (λ _, true) PwQuarantined;; mret tt
  | None => mret tt
  end;;
  append_audit previous now "source_fenced";;
  if s_deadline (submitted r) <=? now then
    update_by_id (record_request_id previous)
      (λ r, with_recovery (with_error (Some "deadline expired"%string) (recovery r)) (expired_row now r));;
    append_audit previous now "deadline_expired";;
    mret (with_record_state Expired previous)
  else
    match record_recovery previous with
    | Some status => recover r previous status now_unix_ms now
    | None =>
        update_by_id (record_request_id previous) requeued_row;;
        append_audit previous now "lease_expired";;
        mret (with_record_worker None None None (with_record_state Queued previous))
    end.

Fixpoint fence_all (now_unix_ms now : Z) (rows : list RequestRow) : Tx (list PlacementRecord) :=
  match rows with
  | [] => mret []
  | r :: rows' =>
      record ← fence_row now_unix_ms now r;
      rest ← fence_all now_unix_ms now rows';
      mret (record :: rest)
  end.

Definition lease_over (now : Z) (r : RequestRow) : bool :=
  is_active (state r) && match lease_expires r with Some e => e <=? now | None => false end.

Definition fence_expired (now_unix_ms : Z) : Tx (list PlacementRecord) :=
  now ← to_i64 now_unix_ms;
  transaction (
    expire_queued now;;
    rows ← reads (rows_where (lease_over now));
    fence_all now_unix_ms now rows).

Definition quarantine_worker (worker : WorkerId) (now_unix_ms : Z) : Tx () :=
  now ← to_i64 now_unix_ms;
  let p := λ r, leased_to (as_str worker) r && is_active (state r) in
  transaction (
    updated ← set_worker_state (as_str worker) (worker_in [PwClean; PwLeased; PwDraining; PwQuarantined]) PwQuarantined;
    M_reject_if (negb (updated =? 1)) (Rejected WorkerUnavailable);;
    rows ← reads (rows_where p);
    each (λ row, record ← read_record row; append_audit record now "worker_quarantined") rows;;
    update_where p (λ r, with_lease (Some (Z.min now (default now (lease_expires r)))) r));;
  fence_expired now_unix_ms;;
  mret tt.

(** ** Queries *)

Definition get_by_idempotency (tenant : TenantId) (subject : SubjectId) (key : string) : Tx (option PlacementRecord) :=
  found ← query_opt (owned_by tenant subject key);
  M_lift (optional record_from_row found).

Definition active_assignment_by_idempotency (tenant : TenantId) (subject : SubjectId) (key : string) (now_unix_ms : Z) :
    Tx (option Assignment) :=
  now ← to_i64 now_unix_ms;
  rows ← reads (λ db, omap (with_contact db)
    (rows_where (λ r, owned_by tenant subject key r && is_active (state r) && lease_after now r) db));
  found ← at_most_one rows;
  match found with
  | None => mret None
  | Some (r, (address, ceilings)) =>
      record ← read_record r;
      contact ← lift (worker_contact address ceilings);
      operation ← lift (map_err Invalid (operation_parse (row_operation r)));
      a ← lift (assignment_from_record record contact.1 contact.2 operation);
      mret (Some a)
  end.
End code.
#[global] Arguments PlacementRecord Value : clear implicits.
#[global] Arguments EnqueueOutcome Value : clear implicits.

End Placement.
