(* ===== verification/PlacementProofs.v ===== *)
(** * Proofs about the placement store

    Histories of transactions on the database of [Placement]: what only ever
    moves forward, the invariant of the tables, and the guarantees on epochs,
    workers, results and recoveries. *)
From S2P Require Import Prelude Identity Lease FairQueue GuestProfile Volume Network Topology Snapshot WorkOrder.
From S2P Require Import Autoscale Protocol Placement.
Import WorkOrder.WorkOrder Protocol.Protocol Placement.Placement.

(** ** What only moves forward

    Rows are never deleted and keep the columns of their submission; a worker
    keeps its pool and shape and is never clean again once it was not; epochs
    grow; the audit is only appended to. *)

Record row_later (r r' : RequestRow) : Prop := RowLater { later_submitted : submitted r' = submitted r }.
Record worker_later (w w' : WorkerRow) : Prop := WorkerLater {
  later_used : worker_state w ≠ PwClean → worker_state w' ≠ PwClean;
  later_pool : worker_pool w' = worker_pool w;
  later_topology : worker_topology w' = worker_topology w;
  later_shape : worker_shape w' = worker_shape w;
  later_cohort : worker_cohort w' = worker_cohort w;
  later_registered : registered w' = registered w
}.

#[global] Instance row_later_preorder : PreOrder row_later.
Proof. split; [by intros r|]. intros a b c [H1] [H2]. split. congruence. Qed.
#[global] Instance worker_later_preorder : PreOrder worker_later.
Proof. split; [by intros r|]. intros a b c [? ? ? ? ? ?] [? ? ? ? ? ?]. split; [tauto|congruence..]. Qed.

(** A table whose rows stay and move along [R]. *)
Definition grows {K A} `{Countable K} (R : relation A) (m m' : gmap K A) : Prop :=
  ∀ k a, m !! k = Some a → ∃ a', m' !! k = Some a' ∧ R a a'.

#[global] Instance grows_preorder {K A} `{Countable K} (R : relation A) `{!PreOrder R} :
  PreOrder (grows (K := K) R).
Proof.
  split; [intros m k a Ha; by exists a|]. intros m1 m2 m3 H12 H23 k a Ha.
  destruct (H12 _ _ Ha) as (b & Hb & Hab). destruct (H23 _ _ Hb) as (c & Hc & Hbc). exists c. split; [done|]. by trans b.
Qed.

Lemma grows_insert {K A} `{Countable K} (R : relation A) `{!PreOrder R} (m : gmap K A) k a :
  (∀ b, m !! k = Some b → R b a) → grows R m (<[k := a]> m).
Proof.
  intros Hk k' b Hb. destruct (decide (k' = k)) as [->|Hne].
  - exists a. rewrite lookup_insert_eq. auto.
  - exists b. by rewrite lookup_insert_ne.
Qed.

(** Rows that may change in any way. *)
Definition any {A} : relation A := λ _ _, True.
#[global] Instance any_preorder {A} : PreOrder (@any A).
Proof. by split. Qed.

Record later (db db' : Db) : Prop := Later {
  later_requests : grows row_later (requests db) (requests db');
  later_workers : grows worker_later (workers db) (workers db');
  later_policies : grows any (tenant_policy db) (tenant_policy db');
  later_epochs : grows Z.le (assignment_epochs db) (assignment_epochs db');
  later_audit : audit db `prefix_of` audit db'
}.

#[global] Instance later_preorder : PreOrder later.
Proof.
  split.
  - intros db. split; reflexivity.
  - intros a b c [? ? ? ? ?] [? ? ? ? ?]. split; by etrans.
Qed.

(** The rows are stored under their identifiers. *)
Definition ids_ok (db : Db) : Prop := map_Forall (λ id r, row_id r = id) (requests db).
Definition moves (db db' : Db) : Prop := ids_ok db → later db db' ∧ ids_ok db'.

#[global] Instance moves_preorder : PreOrder moves.
Proof.
  split; [by intros db|]. intros a b c Hab Hbc Ha. destruct (Hab Ha) as [Hab' Hb]. destruct (Hbc Hb) as [Hbc' Hc].
  split; [by etrans|done].
Qed.

(** *** Statements *)

Section statements.
Implicit Types db : Db.

Lemma transaction_keeps {A} (R : relation Db) `{!PreOrder R} (c : Tx A) : advances R c → keeps R (transaction c).
Proof.
  intros Hc db. unfold transaction. destruct (c db) as [db' [a|e]] eqn:Hrun; simpl; [by eapply Hc|reflexivity].
Qed.

Lemma transaction_Ok {A} (c : Tx A) db db' a : transaction c db = (db', Ok a) → c db = (db', Ok a).
Proof. unfold transaction. destruct (c db) as [db1 [b|e]]; [done|discriminate]. Qed.

Lemma write_request_Ok r db db' u :
  write_request r db = (db', Ok u) → db' = set_requests (<[row_id r := r]> (requests db)) db ∧ request_fits db r = true.
Proof. unfold write_request. destruct (request_fits db r); [by intros [= <- _]|discriminate]. Qed.

Lemma insert_request_Ok r db db' u :
  insert_request r db = (db', Ok u) →
  requests db !! row_id r = None ∧ db' = set_requests (<[row_id r := r]> (requests db)) db ∧ request_fits db r = true.
Proof.
  unfold insert_request. case_bool_decide as Hs; [discriminate|]. intros Hw%write_request_Ok.
  split; [by apply eq_None_not_Some|done].
Qed.

Lemma update_request_Ok id p f db db' u :
  ids_ok db → (∀ r, submitted (f r) = submitted r) → update_request id p f db = (db', Ok u) →
  db' = set_requests (alter (λ r, if p r then f r else r) id (requests db)) db ∧
  ∀ r, requests db !! id = Some r → p r = true → request_fits db (f r) = true.
Proof.
  intros Hid Hf. unfold update_request. destruct (requests db !! id) as [r|] eqn:Hr.
  - pose proof (Hid _ _ Hr) as Hrid. destruct (p r) eqn:Hp.
    + intros [-> Hfit]%write_request_Ok. split; [|by intros ? [= <-]]. f_equal. replace (row_id (f r)) with id; [|unfold row_id; by rewrite Hf].
      apply map_eq. intros k. destruct (decide (k = id)) as [->|Hne].
      * rewrite lookup_insert_eq, lookup_alter_eq, Hr. simpl. by rewrite Hp.
      * by rewrite lookup_insert_ne, lookup_alter_ne.
    + intros [= <- _]. split; [|intros r' [= <-]; congruence]. destruct db; unfold set_requests; simpl in *. f_equal.
      apply map_eq. intros k. destruct (decide (k = id)) as [->|Hne].
      * rewrite lookup_alter_eq, Hr. simpl. by rewrite Hp.
      * by rewrite lookup_alter_ne.
  - intros [= <- _]. split; [|done]. destruct db; unfold set_requests; simpl in *. f_equal.
    apply map_eq. intros k. destruct (decide (k = id)) as [->|Hne]; [by rewrite lookup_alter_eq, Hr|].
    by rewrite lookup_alter_ne.
Qed.

Lemma elem_of_rows_where p db r : ids_ok db → r ∈ rows_where p db ↔ requests db !! row_id r = Some r ∧ p r = true.
Proof.
  intros Hid. unfold rows_where. rewrite list_elem_of_filter, elem_of_btree_values. split.
  - intros [Hp (k & Hk)]. pose proof (Hid _ _ Hk) as <-. done.
  - intros [Hr Hp]. eauto.
Qed.

Lemma row_ids db : ids_ok db → row_id <$> btree_values (requests db) = btree_keys (requests db).
Proof.
  intros Hid. unfold btree_values, btree_keys. rewrite <-list_fmap_compose. apply list_fmap_ext.
  intros i [k r] Hi. apply Hid. apply elem_of_btree_iter. by eapply list_elem_of_lookup_2.
Qed.

Lemma NoDup_rows_where p db : ids_ok db → NoDup (row_id <$> rows_where p db).
Proof.
  intros Hid. eapply sublist_NoDup; [apply (NoDup_btree_keys (requests db))|]. rewrite <-row_ids by done.
  apply fmap_sublist, sublist_filter.
Qed.

(** Rows written one after the other. *)
Lemma write_all_Ok rows : ∀ db db' u,
  NoDup (row_id <$> rows) → write_all rows db = (db', Ok u) →
  ∃ m, db' = set_requests m db ∧ (∀ r, r ∈ rows → m !! row_id r = Some r) ∧
    ∀ k, k ∉ row_id <$> rows → m !! k = requests db !! k.
Proof.
  induction rows as [|r rows IH]; intros db db' u Hnd; cbn [write_all].
  - intros [= <- _]. exists (requests db). split; [by destruct db|]. split; [set_solver|done].
  - intros Hrun. apply M_bind_Ok_inv in Hrun as ([] & db1 & [-> _]%write_request_Ok & Hrun).
    rewrite fmap_cons in Hnd. apply NoDup_cons in Hnd as [Hnotin Hnd].
    destruct (IH _ _ _ Hnd Hrun) as (m & -> & Hin & Hout). exists m. split; [done|]. split.
    + intros r' [->|Hr']%elem_of_cons; [|by apply Hin]. rewrite Hout by done. simpl. by rewrite lookup_insert_eq.
    + intros k Hk. rewrite Hout by set_solver. simpl. rewrite lookup_insert_ne by set_solver. done.
Qed.

Lemma update_where_Ok p f db db' rows :
  ids_ok db → (∀ r, submitted (f r) = submitted r) → update_where p f db = (db', Ok rows) →
  db' = set_requests ((λ r, if p r then f r else r) <$> requests db) db ∧ rows = f <$> rows_where p db.
Proof.
  intros Hid Hf Hrun. unfold update_where in Hrun. apply M_bind_Ok_inv in Hrun as (l & db1 & [= <- <-] & Hrun).
  apply M_bind_Ok_inv in Hrun as ([] & db1 & Hw & [= <- <-]). split; [|done].
  assert (row_id <$> (f <$> rows_where p db) = row_id <$> rows_where p db) as Hids.
  { rewrite <-list_fmap_compose. apply list_fmap_ext. intros i r _. unfold row_id, compose. by rewrite Hf. }
  apply write_all_Ok in Hw as (m & -> & Hin & Hout); [|by rewrite Hids; apply NoDup_rows_where].
  f_equal. apply map_eq. intros k. rewrite lookup_fmap. destruct (requests db !! k) as [r|] eqn:Hk; simpl.
  - pose proof (Hid _ _ Hk) as Hrk. destruct (p r) eqn:Hp.
    + rewrite <-Hrk. replace (row_id r) with (row_id (f r)) by (unfold row_id; by rewrite Hf).
      apply Hin, list_elem_of_fmap_2, elem_of_rows_where; [done|]. by rewrite Hrk.
    + rewrite Hout; [done|]. rewrite Hids. intros (r' & -> & Hr')%list_elem_of_fmap.
      apply elem_of_rows_where in Hr' as [Hr' Hp']; [|done]. congruence.
  - rewrite Hout; [done|]. rewrite Hids. intros (r' & -> & Hr')%list_elem_of_fmap.
    apply elem_of_rows_where in Hr' as [Hr' Hp']; [|done]. congruence.
Qed.

Lemma update_worker_Ok id p f db db' n :
  update_worker id p f db = (db', Ok n) →
  (n = 1 ∧ ∃ w, workers db !! id = Some w ∧ p w = true ∧ worker_fits (f w) = true ∧
     db' = set_workers (<[id := f w]> (workers db)) db) ∨
  (n = 0 ∧ db' = db ∧ ∀ w, workers db !! id = Some w → p w = false).
Proof.
  unfold update_worker. destruct (workers db !! id) as [w|] eqn:Hw; [|intros [= <- <-]; by right].
  destruct (p w) eqn:Hp; [|intros [= <- <-]; right; split_and!; [done|done|by intros ? [= <-]]].
  unfold_M. unfold write_worker. destruct (worker_fits (f w)) eqn:Hfit; [|discriminate].
  intros [= <- <-]. left. split; [done|]. eauto.
Qed.
End statements.

(** *** Code that only reads *)

Definition pure {A} (c : Tx A) : Prop := ∀ db, (c db).1 = db.

Create HintDb pure.

Section reading.
Context `{StoreCodec Value}.

Lemma pure_ret {A} (a : A) : pure (mret a).
Proof. done. Qed.
Lemma pure_fail {A} e : pure (A := A) (M_fail e).
Proof. done. Qed.
Lemma pure_lift {A} (r : result _ A) : pure (M_lift r).
Proof. done. Qed.
Lemma pure_reject b e : pure (M_reject_if b e).
Proof. done. Qed.
Lemma pure_bind {A B} (c : Tx A) (f : A → Tx B) : pure c → (∀ a, pure (f a)) → pure (c ≫= f).
Proof.
  intros Hc Hf db. unfold mbind, M_bind. specialize (Hc db). destruct (c db) as [db' [a|e]]; simpl in *; subst; [apply Hf|done].
Qed.
Lemma reads_pure {A} (f : Db → A) : pure (reads f).
Proof. done. Qed.
Lemma to_i64_pure v : pure (to_i64 v).
Proof. intros db. unfold to_i64. by case_match. Qed.
Lemma duration_millis_pure v : pure (duration_millis v).
Proof. intros db. unfold duration_millis. by case_match. Qed.
Lemma add_i64_pure message a b : pure (add_i64 message a b).
Proof. intros db. unfold add_i64. by case_match. Qed.
Lemma sub_i64_pure message a b : pure (sub_i64 message a b).
Proof. intros db. unfold sub_i64. by case_match. Qed.
Lemma count_u32_pure v : pure (count_u32 v).
Proof. intros db. unfold count_u32. by case_match. Qed.
Lemma to_i32_pure message v : pure (to_i32 message v).
Proof. intros db. unfold to_i32. by case_match. Qed.
Lemma at_most_one_pure {A} (l : list A) : pure (at_most_one l).
Proof. intros db. unfold at_most_one. by repeat case_match. Qed.
Lemma query_opt_pure p : pure (query_opt p).
Proof. apply pure_bind; [done|intros; apply at_most_one_pure]. Qed.
Lemma query_one_pure {A} (f : Db → option A) : pure (query_one f).
Proof. done. Qed.
Lemma read_record_pure r : pure (read_record r).
Proof. done. Qed.
Lemma store_lift_pure {A} (r : result PlacementStoreError A) : pure (lift r).
Proof. done. Qed.
Lemma invalid_pure {A} message : pure (invalid (A := A) message).
Proof. done. Qed.

Lemma advances_pure (R : relation Db) `{!PreOrder R} {A} (c : Tx A) : pure c → advances R c.
Proof. intros Hc db db' a Hrun. specialize (Hc db). rewrite Hrun in Hc. simpl in Hc. subst. reflexivity. Qed.
Lemma keeps_pure (R : relation Db) `{!PreOrder R} {A} (c : Tx A) : pure c → keeps R c.
Proof. intros Hc db. rewrite Hc. reflexivity. Qed.
End reading.

#[global] Hint Resolve pure_ret pure_fail pure_lift pure_reject pure_bind reads_pure to_i64_pure duration_millis_pure
  add_i64_pure sub_i64_pure count_u32_pure to_i32_pure at_most_one_pure query_opt_pure query_one_pure read_record_pure
  store_lift_pure invalid_pure : pure.

(** *** Every transaction moves the database forward *)

Lemma moves_same db db' :
  requests db' = requests db → workers db' = workers db → grows any (tenant_policy db) (tenant_policy db') →
  grows Z.le (assignment_epochs db) (assignment_epochs db') → audit db `prefix_of` audit db' → moves db db'.
Proof.
  intros Hr Hw Hp He Ha Hid. split; [|unfold ids_ok; by rewrite Hr].
  split; [..|done]; rewrite ?Hr, ?Hw; try reflexivity; done.
Qed.

Lemma moves_requests db m :
  grows row_later (requests db) m → map_Forall (λ id r, row_id r = id) m → moves db (set_requests m db).
Proof.
  intros Hm Hids _. split; [|done]. split; simpl; try reflexivity; done.
Qed.

Lemma moves_workers db m : grows worker_later (workers db) m → moves db (set_workers m db).
Proof. intros Hm Hid. split; [|done]. by split; simpl; try reflexivity. Qed.

Section moving.
Context {Value : Type} `{StoreCodec Value}.
Context (config : PlacementStoreConfig).

Lemma alter_moves f id db : (∀ r, submitted (f r) = submitted r) → moves db (set_requests (alter f id (requests db)) db).
Proof.
  intros Hf Hid. apply moves_requests; [| |done].
  - intros k r Hr. destruct (decide (k = id)) as [->|Hne].
    + exists (f r). rewrite lookup_alter_eq, Hr. by split.
    + exists r. by rewrite lookup_alter_ne.
  - intros k r Hr. destruct (decide (k = id)) as [->|Hne].
    + rewrite lookup_alter_eq in Hr. apply fmap_Some in Hr as (r0 & Hr0 & ->).
      unfold row_id. rewrite Hf. by apply (Hid _ _ Hr0).
    + rewrite lookup_alter_ne in Hr by done. by apply Hid.
Qed.

Lemma fmap_moves f db : (∀ r, submitted (f r) = submitted r) → moves db (set_requests (f <$> requests db) db).
Proof.
  intros Hf Hid. apply moves_requests; [| |done].
  - intros k r Hr. exists (f r). rewrite lookup_fmap, Hr. by split.
  - intros k r Hr. rewrite lookup_fmap in Hr. apply fmap_Some in Hr as (r0 & Hr0 & ->).
    unfold row_id. rewrite Hf. by apply (Hid _ _ Hr0).
Qed.

Lemma update_request_moves id p f : (∀ r, submitted (f r) = submitted r) → advances moves (update_request id p f).
Proof.
  intros Hf db db' u Hrun Hid. apply update_request_Ok in Hrun as [-> _]; [|done..].
  apply alter_moves; [|done]. intros r. by destruct (p r).
Qed.

Lemma update_by_id_moves id f : (∀ r, submitted (f r) = submitted r) → advances moves (update_by_id id f).
Proof. apply update_request_moves. Qed.

Lemma update_where_moves p f : (∀ r, submitted (f r) = submitted r) → advances moves (update_where p f).
Proof.
  intros Hf db db' rows Hrun Hid. apply update_where_Ok in Hrun as [-> _]; [|done..].
  apply fmap_moves; [|done]. intros r. by destruct (p r).
Qed.

Lemma insert_request_moves r : advances moves (insert_request r).
Proof.
  intros db db' u (Hnone & -> & _)%insert_request_Ok Hid. apply moves_requests; [| |done].
  - apply grows_insert; [apply _|]. intros b Hb. congruence.
  - intros k r' Hr'. apply lookup_insert_Some in Hr' as [[<- <-]|[_ Hr']]; [done|]. by apply Hid.
Qed.

Lemma update_worker_moves id p f : (∀ w, worker_later w (f w)) → advances moves (update_worker id p f).
Proof.
  intros Hf db db' n [(_ & w & Hw & _ & _ & ->)|(_ & -> & _)]%update_worker_Ok; [|by intros ?].
  apply moves_workers, grows_insert; [apply _|]. intros b Hb. simplify_eq. apply Hf.
Qed.

Lemma set_worker_state_moves id p s : s ≠ PwClean → advances moves (set_worker_state id p s).
Proof. intros Hs. apply update_worker_moves. intros w. by split. Qed.

Lemma upsert_worker_moves r now address ceilings : advances moves (upsert_worker r now address ceilings).
Proof.
  intros db db' n. unfold upsert_worker. destruct (workers db !! _) as [w|] eqn:Hw; [destruct (registers r w); [|by intros [= <- _]]|];
    unfold_M; unfold write_worker; (destruct (worker_fits _); [|discriminate]); intros [= <- _];
    apply moves_workers, grows_insert; [apply _| |apply _|]; intros b Hb; simplify_eq; by split.
Qed.

Lemma next_epoch_moves s : advances moves (next_epoch s).
Proof.
  intros db db' e. unfold next_epoch. destruct (_ <=? i64_max); [|discriminate]. intros [= <- _].
  apply moves_same; simpl; try reflexivity.
  apply grows_insert; [apply _|]. intros b Hb. rewrite Hb. lia.
Qed.

Lemma append_audit_moves (r : PlacementRecord Value) now event : advances moves (append_audit r now event).
Proof.
  unfold append_audit. apply advances_bind; [apply _| |intros e].
  - apply advances_pure; [apply _|]. destruct (record_epoch r); auto with pure.
  - apply advances_modify. intros db. apply moves_same; simpl; try reflexivity. by eexists.
Qed.

Lemma modify_moves (f : Db → Db) : (∀ db, moves db (f db)) → advances (E := failure PlacementStoreError) moves (M_modify f).
Proof. apply advances_modify. Qed.
End moving.

(** Takes an operation apart; statements are closed by the lemmas above, and
    code that only reads by computation. *)
Ltac moving :=
  repeat match goal with
  | |- advances moves _ => solve [apply advances_pure; [apply _|auto 3 with pure]]
  | |- advances moves (_ ≫= _) => apply advances_bind; [apply _| |intros ?]
  | |- advances moves (let _ := _ in _) => progress cbv zeta
  | |- advances moves (match ?x with _ => _ end) => destruct x
  | |- advances moves (append_audit _ _ _) => apply append_audit_moves
  | |- advances moves (next_epoch _) => apply next_epoch_moves
  | |- advances moves (upsert_worker _ _ _ _) => apply upsert_worker_moves
  | |- advances moves (insert_request _) => apply insert_request_moves
  | |- advances moves (set_worker_state _ _ _) => apply set_worker_state_moves; discriminate
  | |- advances moves (update_worker _ _ _) => apply update_worker_moves; intros ?; split; done
  | |- advances moves (update_where _ _) => apply update_where_moves; intros ?; reflexivity
  | |- advances moves (update_by_id _ _) => apply update_by_id_moves; intros ?; reflexivity
  | |- advances moves (update_request _ _ _) => apply update_request_moves; intros ?; reflexivity
  | |- advances moves (M_modify _) => apply modify_moves; intros ?; apply moves_same; simpl; try reflexivity
  end.

(** *** A failed call changes nothing *)

Definition atomic {A} (c : Tx A) : Prop := ∀ db db' e, c db = (db', Err e) → db' = db.

Lemma atomic_pure {A} (c : Tx A) : pure c → atomic c.
Proof. intros Hc db db' e Hrun. specialize (Hc db). by rewrite Hrun in Hc. Qed.
Lemma atomic_bind {A B} (c : Tx A) (f : A → Tx B) : pure c → (∀ a, atomic (f a)) → atomic (c ≫= f).
Proof.
  intros Hc Hf db db' e. unfold mbind, M_bind. specialize (Hc db). destruct (c db) as [db1 [a|x]]; simpl in Hc; subst.
  - apply Hf.
  - by intros [= <- _].
Qed.
Lemma atomic_transaction {A} (c : Tx A) : atomic (transaction c).
Proof. intros db db' e. unfold transaction. destruct (c db) as [db1 [a|x]]; [done|by intros [= <- _]]. Qed.
Lemma atomic_then {A B} (c : Tx A) (f : A → Tx B) : atomic c → (∀ a db, is_ok (f a db).2 = true) → atomic (c ≫= f).
Proof.
  intros Hc Hf db db' e. unfold mbind, M_bind. destruct (c db) as [db1 [a|x]] eqn:Hrun.
  - intros Hf'. specialize (Hf a db1). by rewrite Hf' in Hf.
  - intros [= <- _]. by eapply Hc.
Qed.
Lemma atomic_modify f : atomic (M_modify f).
Proof. by intros db db' e. Qed.

(** Takes an operation apart: code that reads, then a transaction. *)
Ltac atomically :=
  repeat match goal with
  | |- atomic _ => solve [apply atomic_pure; auto 3 with pure]
  | |- atomic (transaction _) => apply atomic_transaction
  | |- atomic (M_modify _) => apply atomic_modify
  | |- atomic (let _ := _ in _) => progress cbv zeta
  | |- atomic (_ ≫= _) => apply atomic_bind; [solve [auto 3 with pure|case_match; auto 4 with pure]|intros ?]
  | |- atomic (match ?x with _ => _ end) => destruct x
  end.

Section operations.
Context {Value : Type} `{StoreCodec Value}.
Context (config : PlacementStoreConfig).

Lemma each_moves {A} (f : A → Tx ()) l : (∀ x, advances moves (f x)) → advances moves (each f l).
Proof. intros Hf. induction l as [|x l IH]; cbn [each]; moving; auto. Qed.

Lemma expire_queued_moves now : advances moves (expire_queued now).
Proof. unfold expire_queued. moving. apply each_moves. intros r. cbv beta. moving. Qed.

Lemma ensure_tenant_moves t : advances moves (ensure_tenant config t).
Proof.
  unfold ensure_tenant. apply modify_moves. intros db. case_bool_decide; [reflexivity|].
  apply moves_same; simpl; try reflexivity. by apply grows_insert; [apply _|].
Qed.

Lemma admit_submission_moves sub operation now deadline : advances moves (admit_submission config sub operation now deadline).
Proof.
  unfold admit_submission, next_finish. moving; [apply expire_queued_moves|].
  by apply grows_insert; [apply _|].
Qed.

Lemma grant_moves worker r now expires contact : advances moves (grant worker r now expires contact).
Proof. unfold grant. moving. Qed.

Lemma publish_moves a (record : PlacementRecord Value) digest response now :
  advances moves (publish config a record digest response now).
Proof. unfold publish. moving. Qed.

Lemma claim_checkpoint_moves now_unix_ms now row : advances moves (claim_checkpoint config now_unix_ms now row).
Proof. unfold claim_checkpoint. moving. Qed.

Lemma claim_all_moves now_unix_ms now rows : advances moves (claim_all config now_unix_ms now rows).
Proof. induction rows as [|row rows IH]; cbn [claim_all]; moving; auto using claim_checkpoint_moves. Qed.

Lemma recover_moves r (previous : PlacementRecord Value) status now_unix_ms now : advances moves (recover r previous status now_unix_ms now).
Proof. unfold recover, queue_recovery. moving. Qed.

Lemma fence_row_moves now_unix_ms now r : advances moves (fence_row now_unix_ms now r).
Proof. unfold fence_row. moving; apply recover_moves. Qed.

Lemma fence_all_moves now_unix_ms now rows : advances moves (fence_all now_unix_ms now rows).
Proof. induction rows as [|row rows IH]; cbn [fence_all]; moving; auto using fence_row_moves. Qed.

Lemma drain_all_moves ids : advances moves (drain_all ids).
Proof. induction ids as [|id ids IH]; cbn [drain_all]; moving; auto. Qed.
End operations.

(** ** Histories *)

Section histories.
Context {Value : Type} `{StoreCodec Value}.

(** The calls of the store that write. *)
Inductive StoreOp : Type :=
| DoSetPolicy (tenant : TenantId) (weight concurrency queue : Z)
| DoEnqueue (s : PlacementSubmission) (now : Z)
| DoRegister (r : WorkerRegistration) (now : Z)
| DoHeartbeat (worker : WorkerId) (now : Z)
| DoDrain (worker : WorkerId)
| DoDrainClean (workers : list WorkerId)
| DoQuarantine (worker : WorkerId) (now : Z)
| DoConfirmFence (worker : WorkerId) (now : Z)
| DoReconcile (pool : string) (current quota : Z) (policy : Autoscale.PoolPolicy) (now : Z)
| DoRecordScaleUp (pool : string) (target now : Z)
| DoObserve (pool : string) (desired ready now : Z)
| DoAssign (worker : WorkerId) (now : Z)
| DoRenew (a : Assignment) (now : Z)
| DoComplete (a : Assignment) (digest : string) (now : Z)
| DoCompleteResponse (a : Assignment) (response : WorkloadResponse Value) (now : Z)
| DoCancel (tenant : TenantId) (subject : SubjectId) (key : string) (now : Z)
| DoClaim (now limit : Z)
| DoPublishCheckpoint (c : CheckpointAssignment) (now : Z)
| DoFence (now : Z).

(** The tables after a call, whatever it returns. *)
Definition run_op (config : PlacementStoreConfig) (db : Db) (o : StoreOp) : Db :=
  match o with
  | DoSetPolicy tenant w c q => (set_tenant_policy config tenant w c q db).1
  | DoEnqueue s now => (enqueue config s now db).1
  | DoRegister r now => (register_worker config r now db).1
  | DoHeartbeat worker now => (heartbeat_worker config worker now db).1
  | DoDrain worker => (drain_worker worker db).1
  | DoDrainClean workers => (drain_workers_if_clean workers db).1
  | DoQuarantine worker now => (quarantine_worker worker now db).1
  | DoConfirmFence worker now => (confirm_recovery_fence worker now db).1
  | DoReconcile pool current quota policy now => (reconcile_pool config pool current quota policy now db).1
  | DoRecordScaleUp pool target now => (record_scale_up pool target now db).1
  | DoObserve pool desired ready now => (observe_pool_activation pool desired ready now db).1
  | DoAssign worker now => (assign_next config worker now db).1
  | DoRenew a now => (renew config a now db).1
  | DoComplete a digest now => (complete config a digest now db).1
  | DoCompleteResponse a response now => (complete_response config a response now db).1
  | DoCancel tenant subject key now => (cancel tenant subject key now db).1
  | DoClaim now limit => (claim_due_checkpoints config now limit db).1
  | DoPublishCheckpoint c now => (publish_checkpoint c now db).1
  | DoFence now => (fence_expired now db).1
  end.

Definition run_ops (config : PlacementStoreConfig) (ops : list StoreOp) (db : Db) : Db := foldl (run_op config) db ops.

Context (config : PlacementStoreConfig).

(** An operation is code that reads, then a transaction. *)
Ltac operating :=
  repeat match goal with
  | |- keeps moves _ => solve [apply keeps_pure; [apply _|auto 3 with pure]]
  | |- keeps moves (_ ≫= _) => apply keeps_bind; [apply _| |intros ?]
  | |- keeps moves (let _ := _ in _) => progress cbv zeta
  | |- keeps moves (transaction _) => apply transaction_keeps; [apply _|moving]
  | |- keeps moves (match ?x with _ => _ end) => destruct x
  | |- keeps moves (M_modify _) => apply keeps_modify; intros ?; apply moves_same; simpl; try reflexivity
  end; auto using expire_queued_moves, ensure_tenant_moves, admit_submission_moves, grant_moves, publish_moves,
    claim_all_moves, fence_all_moves, drain_all_moves.

Lemma fence_expired_moves now : keeps moves (fence_expired now).
Proof. unfold fence_expired. operating. Qed.

Lemma complete_inner_moves a digest response now : keeps moves (complete_inner config a digest response now).
Proof. unfold complete_inner. operating. Qed.

Lemma run_op_moves db o : moves db (run_op config db o).
Proof.
  destruct o; cbn [run_op];
    match goal with |- moves db (?f db).1 => enough (keeps moves f) as Hk by apply Hk end.
  - unfold set_tenant_policy. operating. by apply grows_insert; [apply _|].
  - unfold enqueue. operating.
  - unfold register_worker. operating.
  - unfold heartbeat_worker. operating.
  - unfold drain_worker. operating.
  - unfold drain_workers_if_clean. operating.
  - unfold quarantine_worker. operating; auto using fence_expired_moves. apply each_moves. intros r. cbv beta. moving.
  - unfold confirm_recovery_fence. operating. apply each_moves. intros r. cbv beta. moving.
  - unfold reconcile_pool. operating.
  - unfold record_scale_up. operating.
  - unfold observe_pool_activation. operating.
  - unfold assign_next. operating.
  - unfold renew. operating.
  - unfold complete. auto using complete_inner_moves.
  - unfold complete_response. operating; auto using complete_inner_moves.
  - unfold cancel. operating.
  - unfold claim_due_checkpoints. operating.
  - unfold publish_checkpoint. operating.
  - apply fence_expired_moves.
Qed.

Lemma run_ops_moves ops : ∀ db, moves db (run_ops config ops db).
Proof. induction ops as [|o ops IH]; intros db; [by intros ?|]. simpl. etrans; [apply run_op_moves|apply IH]. Qed.

Lemma empty_ids_ok : ids_ok empty_db.
Proof. apply map_Forall_empty. Qed.
End histories.

(** ** Records and the rows they were read from *)

Section records.
Context {Value : Type} `{StoreCodec Value}.

Lemma optional_Ok {A B E} (f : A → result E B) o b :
  optional f o = Ok b → match o with Some a => ∃ x, f a = Ok x ∧ b = Some x | None => b = None end.
Proof. destruct o as [a|]; cbn [optional]; [|by intros [= <-]]. intros Hf. apply bind_Ok_inv in Hf as (x & Hx & [= <-]). eauto. Qed.

Lemma parse_id_Ok {kind maximum} s (i : identifier kind maximum) : parse_id s = Ok i → as_str i = s.
Proof. unfold parse_id. intros Hi%map_err_Ok. by apply parse_Ok. Qed.

Lemma optional_parse_Ok {kind maximum} o (i : option (identifier kind maximum)) : optional parse_id o = Ok i → as_str <$> i = o.
Proof. intros Ho%optional_Ok. destruct o as [s|]; [|by subst]. destruct Ho as (x & Hx%parse_id_Ok & ->). by subst. Qed.

Lemma nonnegative_Ok v name u : nonnegative_u64 v name = Ok u → u = v ∧ 0 ≤ v.
Proof. unfold nonnegative_u64. intros Hv. apply bind_Ok_inv in Hv as ([] & Hg%reject_if_Ok & [= <-]). lia. Qed.

Lemma optional_nonnegative_Ok o name u : optional_nonnegative_u64 o name = Ok u → u = o.
Proof. intros Ho%optional_Ok. destruct o; [|done]. destruct Ho as (x & [-> _]%nonnegative_Ok & ->). done. Qed.

Lemma epoch_column_Ok v e : epoch_column v = Ok e → epoch_get e = v.
Proof. unfold epoch_column. intros Hv. apply bind_Ok_inv in Hv as ([] & _ & He%map_err_Ok). by apply epoch_new_Ok. Qed.

Lemma positive_epoch_Ok v e : positive_epoch v = Ok e → epoch_get e = v.
Proof.
  unfold positive_epoch. intros Hv. apply bind_Ok_inv in Hv as (u & [-> _]%nonnegative_Ok & He%map_err_Ok).
  by apply epoch_new_Ok.
Qed.

Lemma to_u8_Ok message v u : to_u8 message v = Ok u → u = v ∧ 0 ≤ v ≤ 255.
Proof. unfold to_u8. intros Hv. apply bind_Ok_inv in Hv as ([] & Hg%reject_if_Ok & [= <-]). lia. Qed.

(** The recovery columns as the record shows them. *)
Record describes_recovery (r : RequestRow) (status : RecoveryStatus) : Prop := DescribesRecovery {
  ds_interval : s_snapshot_interval (submitted r) = Some (snapshot_interval_ms (status_policy status));
  ds_staleness : s_max_staleness (submitted r) = Some (maximum_staleness_ms (status_policy status));
  ds_limit : s_max_attempts (submitted r) = Some (maximum_attempts (status_policy status));
  ds_valid : validate_recovery (status_policy status) = Ok (status_policy status);
  ds_latest : as_str <$> status_latest_snapshot status = latest_snapshot (recovery r);
  ds_latest_at : status_latest_at status = latest_at (recovery r);
  ds_source : epoch_get <$> status_source_epoch status = source_epoch (recovery r);
  ds_fence : as_str <$> status_fence_worker status = fence_worker (recovery r);
  ds_confirmed : status_fence_confirmed status = fence_confirmed (recovery r);
  ds_started : status_started status = recovery_started (recovery r);
  ds_attempts : status_attempts status = recovery_attempts (recovery r)
}.

Definition identity_texts (i : Lease.PlacementIdentity) : string * string * string :=
  (as_str (Lease.pi_tenant_id i), as_str (Lease.pi_workspace_id i), as_str (Lease.pi_sandbox_id i)).

Record describes (r : RequestRow) (record : PlacementRecord Value) : Prop := Describes {
  de_id : record_request_id record = row_id r;
  de_key : record_idempotency_key record = s_idempotency_key (submitted r);
  de_identity : identity_texts (record_identity record) = row_sandbox r;
  de_subject : as_str (record_subject record) = s_subject (submitted r);
  de_state : record_state record = state r;
  de_worker : as_str <$> record_worker record = row_worker r;
  de_epoch : epoch_get <$> record_epoch record = row_epoch r;
  de_expires : record_expires record = lease_expires r;
  de_digest : record_digest record = result_digest (outcome r);
  de_recovery : match record_recovery record with
                | Some status => describes_recovery r status
                | None => s_snapshot_interval (submitted r) = None
                end
}.

Lemma validate_recovery_Ok p q : validate_recovery p = Ok q → q = p.
Proof. unfold validate_recovery. intros Hp. by apply bind_Ok_inv in Hp as ([] & _ & [= <-]). Qed.

Lemma recovery_from_row_Ok r interval status :
  s_snapshot_interval (submitted r) = Some interval → recovery_from_row r interval = Ok status → describes_recovery r status.
Proof.
  intros Hi Hrun. unfold recovery_from_row, or_reject, column, expect in Hrun.
  apply bind_Ok_inv in Hrun as (staleness & Hst%ok_or_Ok & Hrun).
  apply bind_Ok_inv in Hrun as (limit & Hli%ok_or_Ok & Hrun).
  apply bind_Ok_inv in Hrun as (latest & Hla%map_err_Ok%optional_parse_Ok & Hrun).
  apply bind_Ok_inv in Hrun as (source & Hso%map_err_Ok%optional_Ok & Hrun).
  apply bind_Ok_inv in Hrun as (i & [-> _]%map_err_Ok%nonnegative_Ok & Hrun).
  apply bind_Ok_inv in Hrun as (s & [-> _]%map_err_Ok%nonnegative_Ok & Hrun).
  apply bind_Ok_inv in Hrun as (n & [-> _]%map_err_Ok%to_u8_Ok & Hrun).
  apply bind_Ok_inv in Hrun as (p & Hp%map_err_Ok & Hrun). pose proof (validate_recovery_Ok _ _ Hp) as ->.
  apply bind_Ok_inv in Hrun as (at_ & ->%map_err_Ok%optional_nonnegative_Ok & Hrun).
  apply bind_Ok_inv in Hrun as (fence & Hfe%map_err_Ok%optional_parse_Ok & Hrun).
  apply bind_Ok_inv in Hrun as (started & ->%map_err_Ok%optional_nonnegative_Ok & Hrun).
  apply bind_Ok_inv in Hrun as (recovered & ->%map_err_Ok%optional_nonnegative_Ok & Hrun).
  apply bind_Ok_inv in Hrun as (attempts & [-> _]%map_err_Ok%to_u8_Ok & [= <-]).
  split; simpl; try done. destruct (source_epoch (recovery r)) as [e|]; [|by subst].
  destruct Hso as (x & Hx%positive_epoch_Ok & ->). by subst.
Qed.

Lemma record_from_row_Ok r record : record_from_row r = Ok record → describes r record.
Proof.
  intros Hrun. unfold record_from_row, or_reject in Hrun.
  apply bind_Ok_inv in Hrun as (worker & Hw%map_err_Ok%optional_parse_Ok & Hrun).
  apply bind_Ok_inv in Hrun as (epoch & He%map_err_Ok%optional_Ok & Hrun).
  apply bind_Ok_inv in Hrun as (expiry & Hx%map_err_Ok%optional_Ok & Hrun).
  apply bind_Ok_inv in Hrun as (rec & Hrec & Hrun).
  apply bind_Ok_inv in Hrun as (tenant & Ht%map_err_Ok%parse_id_Ok & Hrun).
  apply bind_Ok_inv in Hrun as (workspace & Hws%map_err_Ok%parse_id_Ok & Hrun).
  apply bind_Ok_inv in Hrun as (sandbox & Hs%map_err_Ok%parse_id_Ok & Hrun).
  apply bind_Ok_inv in Hrun as (subject & Hsu%map_err_Ok%parse_id_Ok & Hrun).
  apply bind_Ok_inv in Hrun as (response & _ & [= <-]).
  split; simpl; try done.
  - unfold identity_texts, row_sandbox. simpl. congruence.
  - destruct (row_epoch r) as [e|]; [|by subst]. destruct He as (x & Hx'%epoch_column_Ok & ->). by subst.
  - destruct (lease_expires r) as [e|]; [|by subst]. destruct Hx as (x & Hx' & ->).
    by apply bind_Ok_inv in Hx' as ([] & _ & [= <-]).
  - destruct (s_snapshot_interval (submitted r)) as [i|] eqn:Hi; [|by injection Hrec as <-].
    apply bind_Ok_inv in Hrec as (status & Hst & [= <-]). by eapply recovery_from_row_Ok.
Qed.

Lemma read_record_Ok r db db' record : read_record r db = (db', Ok record) → db' = db ∧ describes r record.
Proof. intros [= <- Hr]. split; [done|]. by apply record_from_row_Ok. Qed.

(** Writing an audit record leaves everything else. *)
Lemma append_audit_Ok (record : PlacementRecord Value) now event db db' u :
  append_audit record now event db = (db', Ok u) → ∃ row, db' = set_audit (audit db ++ [row]) db.
Proof.
  unfold append_audit. intros Hrun. apply M_bind_Ok_inv in Hrun as (e & db1 & He & [= <- _]).
  assert (db1 = db) as ->; [|by eexists].
  assert (pure match record_epoch record with
    | Some e => v ← to_i64 (epoch_get e); mret (Some v) | None => mret None end) as Hp
    by (destruct (record_epoch record); auto with pure). specialize (Hp db). by rewrite He in Hp.
Qed.
End records.

(** ** Assignments that are granted *)

Section granting.
Context {Value : Type} `{StoreCodec Value}.
Context (config : PlacementStoreConfig).

Lemma pure_Ok {A} (c : Tx A) db db' a : pure c → c db = (db', Ok a) → db' = db.
Proof. intros Hc Hrun. specialize (Hc db). by rewrite Hrun in Hc. Qed.

(** A loop of audit records over rows. *)
Lemma audit_rows_Ok (f : PlacementRecord Value → PlacementRecord Value) now event rows : ∀ db db' u,
  each (λ r, record ← read_record r; append_audit (f record) now event) rows db = (db', Ok u) →
  ∃ l, db' = set_audit l db.
Proof.
  induction rows as [|r rows IH]; intros db db' u; cbn [each].
  - intros [= <- _]. exists (audit db). by destruct db.
  - intros Hrun. apply M_bind_Ok_inv in Hrun as ([] & db1 & Hr & Hrun).
    apply M_bind_Ok_inv in Hr as (record & db2 & [-> _]%read_record_Ok & [row ->]%append_audit_Ok).
    apply IH in Hrun as [l ->]. exists l. done.
Qed.

Definition expiring (now : Z) (r : RequestRow) : bool := is_waiting (state r) && (s_deadline (submitted r) <=? now).
Definition expire_row (now : Z) (r : RequestRow) : RequestRow := if expiring now r then expired_row now r else r.

Lemma expire_queued_Ok now db db' u :
  ids_ok db → expire_queued now db = (db', Ok u) →
  ∃ l, db' = set_audit l (set_requests (expire_row now <$> requests db) db).
Proof.
  intros Hid Hrun. unfold expire_queued in Hrun. apply M_bind_Ok_inv in Hrun as (rows & db1 & Hup & Hrun).
  apply update_where_Ok in Hup as [-> ->]; [|done|done]. apply (audit_rows_Ok id) in Hrun as [l ->]. by exists l.
Qed.

Lemma expired_ids_ok now db l : ids_ok db → ids_ok (set_audit l (set_requests (expire_row now <$> requests db) db)).
Proof.
  intros Hid k r Hr. simpl in Hr. rewrite lookup_fmap in Hr. apply fmap_Some in Hr as (r0 & Hr0 & ->).
  unfold expire_row. destruct (expiring now r0); apply (Hid _ _ Hr0).
Qed.

Lemma next_epoch_Ok sandbox db db' e :
  next_epoch sandbox db = (db', Ok e) →
  e = default 0 (assignment_epochs db !! sandbox) + 1 ∧ e ≤ i64_max ∧
  db' = set_epochs (<[sandbox := e]> (assignment_epochs db)) db.
Proof.
  unfold next_epoch. destruct (Z.leb_spec (match assignment_epochs db !! sandbox with Some e => e + 1 | None => 1 end) i64_max);
    [|discriminate]. intros [= <- <-]. by destruct (assignment_epochs db !! sandbox).
Qed.

(** What a granted assignment says, and what the grant wrote. *)
Record granted (worker : WorkerId) (r : RequestRow) (now expires : Z) (db db' : Db) (a : Assignment) : Prop := Granted {
  gr_worker : assignment_worker a = worker;
  gr_request : assignment_request_id a = row_id r;
  gr_identity : identity_texts (assignment_identity a) = row_sandbox r;
  gr_subject : as_str (assignment_subject a) = s_subject (submitted r);
  gr_ceilings : validate_ceilings (assignment_ceilings a) = Ok tt;
  gr_expires : assignment_expires a = expires;
  gr_epoch : epoch_get (assignment_epoch a) = default 0 (assignment_epochs db !! row_sandbox r) + 1;
  gr_epoch_max : epoch_get (assignment_epoch a) ≤ i64_max;
  gr_operation : operation_parse (row_operation r) = Ok (assignment_operation a);
  gr_requests : requests db' = <[row_id r := assigned_row (as_str worker) (epoch_get (assignment_epoch a)) expires now r]> (requests db);
  gr_workers : ∃ w, workers db !! as_str worker = Some w ∧ worker_fits w = true ∧
    workers db' = <[as_str worker := with_state PwLeased w]> (workers db);
  gr_epochs : assignment_epochs db' = <[row_sandbox r := epoch_get (assignment_epoch a)]> (assignment_epochs db);
  gr_policies : tenant_policy db' = tenant_policy db
}.

Lemma worker_contact_Ok address ceilings contact :
  worker_contact address ceilings = Ok contact → validate_ceilings contact.2 = Ok tt.
Proof.
  unfold worker_contact. intros Hc. apply bind_Ok_inv in Hc as (broker & _ & Hc).
  apply bind_Ok_inv in Hc as (limits & _ & Hc). apply bind_Ok_inv in Hc as ([] & Hv%map_err_Ok & [= <-]). done.
Qed.

(** Where the worker of an assignment is reached, and its ceilings, are what it registered. *)
Definition registered_contact (w : WorkerRow) (a : Assignment) : Prop :=
  ∃ address ceilings, worker_address w = Some address ∧ worker_ceilings w = Some ceilings ∧
    worker_contact address ceilings = Ok (assignment_broker a, assignment_ceilings a).

Lemma grant_contact worker r now expires contact db db' a :
  grant worker r now expires contact db = (db', Ok a) → (assignment_broker a, assignment_ceilings a) = contact.
Proof.
  intros Hrun. unfold grant in Hrun. do 8 (apply M_bind_Ok_inv in Hrun as (? & ? & _ & Hrun)).
  injection Hrun as _ Ha. apply map_err_Ok in Ha. do 3 (apply bind_Ok_inv in Ha as (? & _ & Ha)). by injection Ha as <-; destruct contact.
Qed.

Lemma grant_Ok worker r now expires contact db db' a :
  ids_ok db → requests db !! row_id r = Some r → assignable r = true → validate_ceilings contact.2 = Ok tt →
  grant worker r now expires contact db = (db', Ok a) → granted worker r now expires db db' a.
Proof.
  intros Hid Hr Has Hceil Hrun. unfold grant in Hrun.
  apply M_bind_Ok_inv in Hrun as (operation & db0 & [= <- Hop] & Hrun). do 2 apply map_err_Ok in Hop.
  apply M_bind_Ok_inv in Hrun as (e & db1 & (He & Hmax & ->)%next_epoch_Ok & Hrun).
  apply M_bind_Ok_inv in Hrun as ([] & db2 & Hup & Hrun).
  apply update_request_Ok in Hup as [-> Hfit]; [|done|done]. specialize (Hfit r Hr Has).
  apply M_bind_Ok_inv in Hrun as ([] & db3 & [= <-] & Hrun).
  apply M_bind_Ok_inv in Hrun as (n & db4 & Hst & Hrun).
  apply M_bind_Ok_inv in Hrun as (row & db5 & Hrow & Hrun).
  pose proof (pure_Ok _ _ _ _ (query_one_pure _) Hrow) as ->.
  apply M_bind_Ok_inv in Hrow as (o & db6 & [= <- <-] & [= Hrow]). apply ok_or_Ok in Hrow.
  apply M_bind_Ok_inv in Hrun as (record & db6 & [-> Hde]%read_record_Ok & Hrun).
  apply M_bind_Ok_inv in Hrun as ([] & db7 & [x ->]%append_audit_Ok & [= <- Ha]). apply map_err_Ok in Ha.
  apply bind_Ok_inv in Ha as (w & Hw%ok_or_Ok & Ha). apply bind_Ok_inv in Ha as (ep & Hep%ok_or_Ok & Ha).
  apply bind_Ok_inv in Ha as (ex & Hex%ok_or_Ok & [= <-]). 
  set (db2 := set_virtual_time _ _) in *.
  assert (requests db4 = requests db2 ∧ assignment_epochs db4 = assignment_epochs db2 ∧ tenant_policy db4 = tenant_policy db2)
    as (H1 & H2 & H3) by (apply update_worker_Ok in Hst as [(_ & ? & _ & _ & _ & ->)|(_ & -> & _)]; done).
  rewrite H1 in Hrow. simpl in Hrow. rewrite lookup_alter_eq, Hr in Hrow. simpl in Hrow. rewrite Has in Hrow.
  injection Hrow as <-. destruct Hde as [Hd1 _ Hd3 Hd4 _ Hd6 Hd7 Hd8 _ _].
  rewrite Hw in Hd6. rewrite Hep in Hd7. rewrite Hex in Hd8. injection Hd6 as Hd6%(inj as_str). injection Hd7 as Hd7.
  injection Hd8 as Hd8. subst w ex. apply andb_true_iff in Hfit as [Hfit _]. apply andb_true_iff in Hfit as [_ Hfit].
  apply bool_decide_eq_true in Hfit as [wr Hwr]. simpl in Hwr.
  split; simpl; try done; [congruence|congruence| | |by rewrite H2, Hd7].
  - rewrite H1, Hd7. simpl. apply map_eq. intros k. destruct (decide (k = row_id r)) as [->|Hne].
    + rewrite lookup_alter_eq, lookup_insert_eq, Hr. simpl. by rewrite Has.
    + by rewrite lookup_alter_ne, lookup_insert_ne.
  - exists wr. split; [done|]. apply update_worker_Ok in Hst as [(_ & w' & Hw' & _ & Hfits & ->)|(_ & _ & Hst)].
    + simpl in Hw'. by simplify_eq.
    + by specialize (Hst wr Hwr).
Qed.

Lemma before_total a b : before a b = true ∨ before b a = true.
Proof. unfold before. pose proof (string_leb_total (row_id a) (row_id b)) as Hs. unfold row_id in Hs. lia. Qed.

Lemma before_trans a b c : before a b = true → before b c = true → before a c = true.
Proof.
  unfold before. pose proof (string_leb_trans (row_id a) (row_id b) (row_id c)) as Hs. unfold row_id in Hs. lia.
Qed.

Lemma next_candidate_Some w now db r :
  ids_ok db → next_candidate w now db = Some r →
  requests db !! row_id r = Some r ∧ candidate w now db r = true ∧
  ∀ r', requests db !! row_id r' = Some r' → candidate w now db r' = true → before r r' = true.
Proof.
  intros Hid Hr. apply head_sorted in Hr as [Hin Hmin]; [|apply before_total|apply before_trans].
  apply elem_of_rows_where in Hin as [Hin Hc]; [|done]. split_and!; [done|done|].
  intros r' Hr' Hc'. apply Hmin. by apply elem_of_rows_where.
Qed.

Lemma next_candidate_None w now db :
  ids_ok db → next_candidate w now db = None → ∀ r, requests db !! row_id r = Some r → candidate w now db r = false.
Proof.
  intros Hid Hnone r Hr. destruct (candidate w now db r) eqn:Hc; [|done]. exfalso.
  assert (r ∈ order_by before (rows_where (candidate w now db) db)) as Hin.
  { unfold order_by. rewrite merge_sort_Permutation. by apply elem_of_rows_where. }
  unfold next_candidate in Hnone. destruct (order_by _ _); [by apply elem_of_nil in Hin|done].
Qed.

Lemma candidate_assignable w now db r : candidate w now db r = true → assignable r = true.
Proof. unfold candidate. rewrite !andb_true_iff. tauto. Qed.

Definition after_expiry (now : Z) (l : list AuditRow) (db : Db) : Db :=
  set_audit l (set_requests (expire_row now <$> requests db) db).

Lemma atomic_assign_next worker now : atomic (assign_next config worker now).
Proof. unfold assign_next. atomically. Qed.

(** A call of [assign_next] that granted an assignment. *)
Record assigns (worker : WorkerId) (now : Z) (db db' : Db) (a : Assignment) (w : WorkerRow) (r : RequestRow) (l : list AuditRow) :
    Prop := Assigns {
  as_found : workers db !! as_str worker = Some w;
  as_available : available (now - as_millis (worker_heartbeat_timeout config)) w = true;
  as_room : count_where (λ r, is_active (state r)) (after_expiry now l db) < global_concurrency_limit config;
  as_next : next_candidate w now (after_expiry now l db) = Some r;
  as_granted : granted worker r now (now + as_millis (lease_lifetime config)) (after_expiry now l db) db' a;
  as_contact : registered_contact w a
}.

Lemma to_i64_Ok v db db' u : to_i64 v db = (db', Ok u) → db' = db ∧ u = v ∧ v ≤ i64_max.
Proof. unfold to_i64. destruct (Z.leb_spec v i64_max); [|discriminate]. by intros [= <- <-]. Qed.
Lemma duration_millis_Ok v db db' u : duration_millis v db = (db', Ok u) → db' = db ∧ u = as_millis v.
Proof. unfold duration_millis. case_match; [|discriminate]. by intros [= <- <-]. Qed.
Lemma add_i64_Ok message x y db db' u : add_i64 message x y db = (db', Ok u) → db' = db ∧ u = x + y ∧ x + y ≤ i64_max.
Proof. unfold add_i64. destruct (Z.leb_spec (x + y) i64_max); [|discriminate]. by intros [= <- <-]. Qed.
Lemma sub_i64_Ok message x y db db' u : sub_i64 message x y db = (db', Ok u) → db' = db ∧ u = x - y.
Proof. unfold sub_i64. case_match; [|discriminate]. by intros [= <- <-]. Qed.

Lemma assign_next_run worker now db db' o :
  ids_ok db → assign_next config worker now db = (db', Ok o) →
  match o with
  | Some a => ∃ w r l, assigns worker now db db' a w r l
  | None => ∃ w l, db' = after_expiry now l db ∧ workers db !! as_str worker = Some w ∧
      (global_concurrency_limit config ≤ count_where (λ r, is_active (state r)) db' ∨ next_candidate w now db' = None)
  end.
Proof.
  intros Hid Hrun. unfold assign_next in Hrun.
  apply M_bind_Ok_inv in Hrun as (n & db0 & (-> & -> & _)%to_i64_Ok & Hrun).
  apply M_bind_Ok_inv in Hrun as (timeout & db0 & (-> & ->)%duration_millis_Ok & Hrun).
  apply M_bind_Ok_inv in Hrun as (cutoff & db0 & (-> & ->)%sub_i64_Ok & Hrun).
  apply M_bind_Ok_inv in Hrun as (lifetime & db0 & (-> & ->)%duration_millis_Ok & Hrun).
  apply M_bind_Ok_inv in Hrun as (expires & db0 & (-> & -> & _)%add_i64_Ok & Hrun).
  apply transaction_Ok in Hrun.
  apply M_bind_Ok_inv in Hrun as (row & db0 & [= <- <-] & Hrun).
  apply M_bind_Ok_inv in Hrun as ([w [address ceilings]] & db0 & [= <- Hw] & Hrun). apply ok_or_Ok in Hw.
  apply bind_Some in Hw as (w' & Hw & Hw'). apply bind_Some in Hw' as (? & Haddr & Hw').
  apply bind_Some in Hw' as (? & Hceils & Hw'). case_match eqn:Hav; [|done]. injection Hw' as -> -> ->.
  apply M_bind_Ok_inv in Hrun as (contact & db0 & [= <- Hcon] & Hrun). apply map_err_Ok in Hcon.
  pose proof (worker_contact_Ok _ _ _ Hcon) as Hceil.
  apply M_bind_Ok_inv in Hrun as ([] & db0 & Hex & Hrun). apply expire_queued_Ok in Hex as [l ->]; [|done].
  apply M_bind_Ok_inv in Hrun as (n & db0 & [= <- <-] & Hrun).
  case_match eqn:Hroom; [injection Hrun as <- <-; exists w, l; split_and!; [done|done|left; unfold after_expiry; lia]|].
  apply M_bind_Ok_inv in Hrun as (next & db0 & [= <- <-] & Hrun).
  destruct (next_candidate _ _ _) as [r|] eqn:Hnext; [|injection Hrun as <- <-; exists w, l; by auto].
  apply M_bind_Ok_inv in Hrun as (a' & db0 & Hg & [= <- <-]). exists w, r, l.
  pose proof (expired_ids_ok now db l Hid) as Hid0.
  destruct (next_candidate_Some _ _ _ _ Hid0 Hnext) as (Hr & Hc & _).
  split; [done|done|unfold after_expiry; lia|done| |].
  - eapply grant_Ok; [done|done|by eapply candidate_assignable|done|done].
  - exists address, ceilings. split_and!; [done|done|]. by rewrite (grant_contact _ _ _ _ _ _ _ _ Hg).
Qed.

Lemma assign_next_Ok worker now db db' a :
  ids_ok db → assign_next config worker now db = (db', Ok (Some a)) →
  ∃ w r l, assigns worker now db db' a w r l.
Proof. intros Hid Hrun. exact (assign_next_run _ _ _ _ _ Hid Hrun). Qed.

(** A worker that is not clean gets nothing. *)
Lemma assign_next_used worker now db w :
  workers db !! as_str worker = Some w → worker_state w ≠ PwClean →
  ∃ e, assign_next config worker now db = (db, Err e).
Proof.
  intros Hw Hs. destruct (assign_next config worker now db) as [db' [o|e]] eqn:Hrun; [exfalso|].
  2: { exists e. f_equal. eapply (atomic_assign_next worker now); exact Hrun. }
  unfold assign_next in Hrun.
  apply M_bind_Ok_inv in Hrun as (n & db0 & (-> & -> & _)%to_i64_Ok & Hrun).
  apply M_bind_Ok_inv in Hrun as (timeout & db0 & (-> & ->)%duration_millis_Ok & Hrun).
  apply M_bind_Ok_inv in Hrun as (cutoff & db0 & (-> & ->)%sub_i64_Ok & Hrun).
  apply M_bind_Ok_inv in Hrun as (lifetime & db0 & (-> & ->)%duration_millis_Ok & Hrun).
  apply M_bind_Ok_inv in Hrun as (expires & db0 & (-> & -> & _)%add_i64_Ok & Hrun).
  apply transaction_Ok in Hrun. apply M_bind_Ok_inv in Hrun as (row & db0 & [= <- <-] & Hrun).
  apply M_bind_Ok_inv in Hrun as ([w' x] & db0 & [= <- Hav] & _). apply ok_or_Ok in Hav. rewrite Hw in Hav.
  apply bind_Some in Hav as (w1 & [= <-] & Hav). apply bind_Some in Hav as (? & _ & Hav).
  apply bind_Some in Hav as (? & _ & Hav). unfold available in Hav. by rewrite (bool_decide_eq_false_2 _ Hs) in Hav.
Qed.
End granting.

(** ** Decisions on pools *)

Section pools.
Context {Value : Type} `{StoreCodec Value}.

Lemma count_u32_Ok v db db' n : count_u32 v db = (db', Ok n) → db' = db ∧ n = v ∧ v ≤ u32_max.
Proof. unfold count_u32. destruct (Z.leb_spec v u32_max); [|discriminate]. by intros [= <- <-]. Qed.

Lemma count_read_Ok (f : Db → Z) db db' n : (v ← reads f; count_u32 v) db = (db', Ok n) → db' = db ∧ n = f db.
Proof. intros Hrun. apply M_bind_Ok_inv in Hrun as (v & db0 & [= <- <-] & (-> & -> & _)%count_u32_Ok). done. Qed.

(** A decision of the store is that of the autoscaler on what the tables say about the pool. *)
Record pool_decided (config : PlacementStoreConfig) (pool : string) (current quota : Z) (policy : Autoscale.PoolPolicy) (now : Z)
    (db1 db' : Db) (d : DurablePoolDecision) : Prop := PoolDecided {
  pd_decision : Autoscale.reconcile policy (observation d) now = Ok (decision d);
  pd_current : Autoscale.current_workers (observation d) = current;
  pd_quota : Autoscale.quota_workers (observation d) = quota;
  pd_clean : Autoscale.clean_workers (observation d) =
    count_workers pool (now - as_millis (worker_heartbeat_timeout config)) PwClean db1;
  pd_leased : Autoscale.leased_or_active_workers (observation d) =
    count_workers pool (now - as_millis (worker_heartbeat_timeout config)) PwLeased db1;
  pd_queued : Autoscale.queued_assignments (observation d) = count_requests pool is_waiting db1;
  pd_assigned : count_requests pool is_active db1 ≤ Autoscale.leased_or_active_workers (observation d);
  pd_db : ∃ row, db' = set_autoscale (<[pool := row]> (autoscale_state db1)) db1
}.

Lemma reconcile_pool_Ok config pool current quota policy now db db' d :
  reconcile_pool config pool current quota policy now db = (db', Ok d) →
  ∃ db1, expire_queued now db = (db1, Ok tt) ∧ pool_decided config pool current quota policy now db1 db' d.
Proof.
  intros Hrun. unfold reconcile_pool in Hrun. apply M_bind_Ok_inv in Hrun as ([] & db0 & [= <- _] & Hrun).
  apply M_bind_Ok_inv in Hrun as ([] & db0 & [= <- _] & Hrun).
  apply M_bind_Ok_inv in Hrun as (n & db0 & (-> & -> & _)%to_i64_Ok & Hrun).
  apply M_bind_Ok_inv in Hrun as (timeout & db0 & (-> & ->)%duration_millis_Ok & Hrun).
  apply M_bind_Ok_inv in Hrun as (cutoff & db0 & (-> & ->)%sub_i64_Ok & Hrun). apply transaction_Ok in Hrun.
  apply M_bind_Ok_inv in Hrun as ([] & db1 & Hex & Hrun). exists db1. split; [done|].
  apply M_bind_Ok_inv in Hrun as (clean & db0 & [-> ->]%count_read_Ok & Hrun).
  apply M_bind_Ok_inv in Hrun as (leased & db0 & [-> ->]%count_read_Ok & Hrun).
  apply M_bind_Ok_inv in Hrun as (draining & db0 & [-> ->]%count_read_Ok & Hrun).
  apply M_bind_Ok_inv in Hrun as (assigned & db0 & [-> ->]%count_read_Ok & Hrun).
  apply M_bind_Ok_inv in Hrun as ([] & db0 & [= <- Hle] & Hrun).
  apply M_bind_Ok_inv in Hrun as (queued & db0 & [-> ->]%count_read_Ok & Hrun).
  apply M_bind_Ok_inv in Hrun as (previous & db0 & [= <- <-] & Hrun).
  apply M_bind_Ok_inv in Hrun as (x & db0 & [= <- _] & Hrun). cbv zeta in Hrun.
  apply M_bind_Ok_inv in Hrun as (dec & db0 & [= <- Hd] & Hrun). apply map_err_Ok, map_err_Ok in Hd.
  apply M_bind_Ok_inv in Hrun as (desired & db0 & Hdes & Hrun). pose proof (pure_Ok _ _ _ _ (to_i32_pure _ _) Hdes) as ->.
  apply M_bind_Ok_inv in Hrun as ([] & db0 & Hidle & Hrun).
  assert (db0 = db1) as -> by (eapply pure_Ok; [|exact Hidle]; case_match; auto with pure).
  apply M_bind_Ok_inv in Hrun as ([] & db0 & [= <-] & [= <- <-]).
  split; simpl; try done; [|by eexists].
  destruct (Z.ltb_spec (count_workers pool (now - as_millis (worker_heartbeat_timeout config)) PwLeased db1)
    (count_requests pool is_active db1)); [done|lia].
Qed.
End pools.
