(* ===== verification/PlacementInvariant.v ===== *)
(** * The invariant of the placement store

    What holds in every state that the calls of the store reach: rows that
    decode, one live request per sandbox, one request per worker, epochs that
    bound those of the rows, and recoveries that name their fenced source. *)
From S2P Require Import Prelude Identity Lease FairQueue GuestProfile Volume Network Topology Snapshot WorkOrder.
From S2P Require Import Autoscale Protocol Placement PlacementProofs.
Import WorkOrder.WorkOrder Protocol.Protocol Placement.Placement.

(** ** The invariant of the tables *)

(** What the encodings promise. *)
Class StoreCodecLaws (Value : Type) `{StoreCodec Value} : Prop := {
  operation_round_trip o text : operation_text o = Ok text → operation_parse text = Ok o;
  response_round_trip r text : response_text r = Ok text → response_parse text = Ok r;
  sha256_hex_form l : len (sha256_hex l) = 64 ∧ lowercase_hex (sha256_hex l) = true
}.

Definition named (kind : string) (maximum : Z) (s : string) : Prop := ∃ i : identifier kind maximum, as_str i = s.
Definition on_some {A} (P : A → Prop) (o : option A) : Prop := ∀ a, o = Some a → P a.
Definition stored_epoch (e : Z) : Prop := 1 ≤ e ≤ i64_max.
Definition stored_time (t : Z) : Prop := 0 ≤ t.

Definition policy_ok (s : Submitted) : Prop :=
  match s_snapshot_interval s with
  | None => True
  | Some interval =>
      ∃ p, validate_recovery p = Ok p ∧ interval = snapshot_interval_ms p ∧
        s_max_staleness s = Some (maximum_staleness_ms p) ∧ s_max_attempts s = Some (maximum_attempts p)
  end.

Record submitted_ok (s : Submitted) : Prop := SubmittedOk {
  so_tenant : named "tenant" 64 (s_tenant s);
  so_workspace : named "workspace" 64 (s_workspace s);
  so_sandbox : named "sandbox" 64 (s_sandbox s);
  so_subject : named "subject" 128 (s_subject s);
  so_request : valid_request_id (s_request_id s) = true;
  so_finish : 0 < s_fair_finish s;
  so_policy : policy_ok s
}.

Record recovery_ok (c : RecoveryColumns) : Prop := RecoveryOk {
  rc_latest : on_some (named "snapshot" 64) (latest_snapshot c);
  rc_latest_at : on_some stored_time (latest_at c);
  rc_source : on_some stored_epoch (source_epoch c);
  rc_fence : on_some (named "worker" 64) (fence_worker c);
  rc_started : on_some stored_time (recovery_started c);
  rc_recovered : on_some stored_time (recovered_at c);
  rc_attempts : 0 ≤ recovery_attempts c ≤ 255
}.

(** The invariant also records how the tables differ from an earlier state [base]: [confirms] are the workers whose
    fences were confirmed since, and [quiet] says that nothing was assigned since. *)
Section invariant.
Context {Value : Type} `{StoreCodec Value}.
Context (base : Db) (quiet : Prop) (confirms : string → Prop).

Record shape_ok (r : RequestRow) : Prop := ShapeOk {
  sh_submitted : submitted_ok (submitted r);
  sh_worker : on_some (named "worker" 64) (row_worker r);
  sh_epoch : on_some stored_epoch (row_epoch r);
  sh_lease : on_some stored_time (lease_expires r);
  sh_response : on_some (λ t, is_ok (response_parse t) = true) (terminal_response (outcome r));
  sh_recovery : recovery_ok (recovery r);
  sh_attempts : on_some (λ n, recovery_attempts (recovery r) ≤ n) (s_max_attempts (submitted r));
  sh_operation : ∃ o, operation_parse (row_operation r) = Ok o ∧
    (is_Some (s_snapshot_interval (submitted r)) → starts_sandbox o = true) ∧
    operation_sandbox o = Some (s_sandbox (submitted r));
  sh_due : is_Some (checkpoint_due (recovery r)) ∨ is_Some (pending_snapshot (recovery r)) →
    is_Some (s_snapshot_interval (submitted r))
}.

(** A recovering row names a restore of its snapshot, fenced at its source, whose worker is quarantined. *)
Definition recovering_ok (db : Db) (r : RequestRow) : Prop :=
  ∃ worker w snapshot source topology sandbox timeout,
    fence_worker (recovery r) = Some worker ∧ workers db !! worker = Some w ∧ worker_state w = PwQuarantined ∧
    latest_snapshot (recovery r) = Some snapshot ∧ source_epoch (recovery r) = Some source ∧
    operation_parse (row_operation r) = Ok (OpRestore topology sandbox snapshot timeout (Some source)).

(** The workers that a row has used. *)
Definition uses (r : RequestRow) (w : string) : Prop := row_worker r = Some w ∨ fence_worker (recovery r) = Some w.

Record row_ok (db : Db) (r : RequestRow) : Prop := RowOk {
  ro_shape : shape_ok r;
  ro_policy : is_Some (tenant_policy db !! row_tenant r);
  ro_uses : ∀ id, uses r id → ∃ w, workers db !! id = Some w ∧ worker_state w ≠ PwClean;
  ro_epoch : ∀ e, row_epoch r = Some e ∨ source_epoch (recovery r) = Some e →
    ∃ e', assignment_epochs db !! row_sandbox r = Some e' ∧ e ≤ e';
  ro_active : is_active (state r) = true →
    ∃ w e x, row_worker r = Some w ∧ row_epoch r = Some e ∧ lease_expires r = Some x ∧
      assignment_epochs db !! row_sandbox r = Some e;
  ro_recovering : state r = Recovering → recovering_ok db r
}.

(** A recovery whose source is fenced. *)
Definition fence_done (r : RequestRow) (w : string) : Prop :=
  state r = Recovering ∧ fence_confirmed (recovery r) = true ∧ fence_worker (recovery r) = Some w.

(** What happened to the requests of the earlier state, and where the active ones and the confirmed fences come from. *)
Record since (m : gmap string RequestRow) : Prop := Since {
  si_rows id r : requests base !! id = Some r →
    ∃ r', m !! id = Some r' ∧ submitted r' = submitted r ∧ (is_finished (state r) = true → r' = r);
  si_active id r' : quiet → m !! id = Some r' → is_active (state r') = true →
    ∃ r, requests base !! id = Some r ∧ is_active (state r) = true;
  si_fences id r' w : m !! id = Some r' → fence_done r' w →
    confirms w ∨ ∃ r, requests base !! id = Some r ∧ fence_done r w
}.

Record db_ok (db : Db) : Prop := DbOk {
  ok_ids : ids_ok db;
  ok_rows : map_Forall (λ _, row_ok db) (requests db);
  ok_compatible : ∀ id1 id2 r1 r2, requests db !! id1 = Some r1 → requests db !! id2 = Some r2 → id1 ≠ id2 →
    compatible r1 r2 = true;
  ok_once : ∀ id1 id2 r1 r2 w, requests db !! id1 = Some r1 → requests db !! id2 = Some r2 →
    uses r1 w → uses r2 w → id1 = id2;
  ok_policies : map_Forall (λ _ p, 1 ≤ weight p ≤ 100) (tenant_policy db);
  ok_workers : map_Forall (λ id w, worker_fits w = true ∧ named "worker" 64 id) (workers db);
  ok_epochs : map_Forall (λ _, stored_epoch) (assignment_epochs db);
  ok_since : since (requests db)
}.

(** What a change of a row may do. *)
Record step_ok (db : Db) (r r' : RequestRow) : Prop := StepOk {
  st_submitted : submitted r' = submitted r;
  st_open : is_finished (state r) = false;
  st_live : is_live (state r') = true → is_live (state r) = true;
  st_uses : ∀ w, uses r' w → uses r w;
  st_epoch : ∀ e, row_epoch r' = Some e ∨ source_epoch (recovery r') = Some e →
    row_epoch r = Some e ∨ source_epoch (recovery r) = Some e;
  st_active : is_active (state r') = true →
    is_active (state r) = true ∧ row_worker r' = row_worker r ∧ row_epoch r' = row_epoch r ∧ is_Some (lease_expires r');
  st_shape : shape_ok r';
  st_recovering : state r' = Recovering → recovering_ok db r';
  st_fence : ∀ w, fence_done r' w → confirms w ∨ fence_done r w
}.

Lemma step_row_ok db r r' : row_ok db r → step_ok db r r' → row_ok db r'.
Proof.
  intros [? ? ? ? Hact ?] [Hsub _ ? ? ? Hact' ? ? _]. split; [done|..|done].
  - unfold row_tenant. by rewrite Hsub.
  - eauto.
  - unfold row_sandbox. rewrite Hsub. eauto.
  - intros Ha. destruct (Hact' Ha) as (Ha0 & Hw & He & [x Hx]). destruct (Hact Ha0) as (w & e & y & ? & ? & ? & ?).
    exists w, e, x. unfold row_sandbox. rewrite Hsub. split_and!; congruence || done.
Qed.

Lemma step_compatible db r r' q : step_ok db r r' → compatible r q = true → compatible r' q = true.
Proof.
  intros [Hsub _ Hl _ _ _ _ _ _]. unfold compatible, row_key, row_sandbox. rewrite Hsub.
  rewrite !andb_true_iff, !negb_true_iff. intros [-> Hc]. split; [done|].
  destruct (is_live (state r')); [|done]. by rewrite Hl in Hc.
Qed.

Lemma compatible_sym r q : compatible r q = compatible q r.
Proof.
  unfold compatible. rewrite (bool_decide_ext (row_key r = row_key q) (row_key q = row_key r)) by (split; congruence).
  rewrite (bool_decide_ext (row_sandbox r = row_sandbox q) (row_sandbox q = row_sandbox r)) by (split; congruence).
  by rewrite (andb_comm (is_live (state r))).
Qed.

(** The rows of [m] are those of the table, some of them changed. *)
Definition rows_step (db : Db) (m : gmap string RequestRow) : Prop :=
  ∀ id, match requests db !! id, m !! id with
        | Some r, Some r' => r' = r ∨ step_ok db r r'
        | None, None => True
        | _, _ => False
        end.

Lemma rows_step_lookup db m id r' : rows_step db m → m !! id = Some r' → ∃ r, requests db !! id = Some r ∧ (r' = r ∨ step_ok db r r').
Proof. intros Hm Hr. specialize (Hm id). rewrite Hr in Hm. destruct (requests db !! id); [eauto|done]. Qed.

Lemma rows_since db m : since (requests db) → rows_step db m → since m.
Proof.
  intros [Hrows Hact Hfen] Hm. split.
  - intros id r Hr. destruct (Hrows id r Hr) as (r1 & Hr1 & Hsub & Hfin). specialize (Hm id). rewrite Hr1 in Hm.
    destruct (m !! id) as [r'|]; [|done]. exists r'. split; [done|].
    destruct Hm as [->|[Hsub' Hopen _ _ _ _ _ _ _]]; [done|]. split; [congruence|]. intros Hf. rewrite (Hfin Hf) in *. congruence.
  - intros id r' Hq Hr' Ha. destruct (rows_step_lookup _ _ _ _ Hm Hr') as (r & Hr & [->|[_ _ _ _ _ Hst _ _ _]]); [by eapply Hact|].
    eapply Hact; [done|done|]. by apply Hst.
  - intros id r' w Hr' Hd. destruct (rows_step_lookup _ _ _ _ Hm Hr') as (r & Hr & [->|[_ _ _ _ _ _ _ _ Hst]]); [by eapply Hfen|].
    destruct (Hst w Hd) as [Hc|Hd']; [by left|]. by eapply Hfen.
Qed.

Lemma rows_ok db m : db_ok db → rows_step db m → db_ok (set_requests m db).
Proof.
  intros [Hids Hrows Hcomp Honce Hpol Hwork Hep Hsince] Hm.
  split; simpl; [| | | |done|done|done|by apply (rows_since db)].
  - intros id r' Hr'. destruct (rows_step_lookup _ _ _ _ Hm Hr') as (r & Hr & [->|[Hsub _ _ _ _ _ _ _ _]]); [by apply Hids|].
    unfold row_id. rewrite Hsub. by apply (Hids _ _ Hr).
  - intros id r' Hr'. destruct (rows_step_lookup _ _ _ _ Hm Hr') as (r & Hr & [->|Hst]).
    + destruct (Hrows _ _ Hr) as [? ? ? ? ? ?]. by split.
    + destruct (step_row_ok _ _ _ (Hrows _ _ Hr) Hst) as [? ? ? ? ? ?]. by split.
  - intros id1 id2 r1' r2' H1 H2 Hne.
    destruct (rows_step_lookup _ _ _ _ Hm H1) as (r1 & Hr1 & Hs1). destruct (rows_step_lookup _ _ _ _ Hm H2) as (r2 & Hr2 & Hs2).
    pose proof (Hcomp _ _ _ _ Hr1 Hr2 Hne) as Hc.
    assert (compatible r1' r2 = true) as Hc1 by (destruct Hs1 as [->|Hs1]; [done|by eapply step_compatible]).
    destruct Hs2 as [->|Hs2]; [done|]. rewrite compatible_sym. rewrite compatible_sym in Hc1. by eapply step_compatible.
  - intros id1 id2 r1' r2' w H1 H2 Hu1 Hu2.
    destruct (rows_step_lookup _ _ _ _ Hm H1) as (r1 & Hr1 & Hs1). destruct (rows_step_lookup _ _ _ _ Hm H2) as (r2 & Hr2 & Hs2).
    eapply Honce; [done|done| |].
    + destruct Hs1 as [->|[_ _ _ Hu _ _ _ _ _]]; eauto.
    + destruct Hs2 as [->|[_ _ _ Hu _ _ _ _ _]]; eauto.
Qed.

Lemma fmap_rows_ok db f :
  db_ok db → (∀ id r, requests db !! id = Some r → f r = r ∨ step_ok db r (f r)) →
  db_ok (set_requests (f <$> requests db) db).
Proof.
  intros Hok Hf. apply rows_ok; [done|]. intros id. rewrite lookup_fmap.
  destruct (requests db !! id) as [r|] eqn:Hr; simpl; [by eapply Hf|done].
Qed.

Lemma insert_row_ok db id r r' :
  db_ok db → requests db !! id = Some r → step_ok db r r' → db_ok (set_requests (<[id := r']> (requests db)) db).
Proof.
  intros Hok Hr Hst. apply rows_ok; [done|]. intros id'. destruct (decide (id' = id)) as [->|Hne].
  - rewrite lookup_insert_eq, Hr. by right.
  - rewrite lookup_insert_ne by done. destruct (requests db !! id'); [by left|done].
Qed.

(** A change of the other tables that keeps what the rows need. *)
Lemma db_ok_tables db db' :
  db_ok db → requests db' = requests db →
  grows any (tenant_policy db) (tenant_policy db') →
  (∀ id w, workers db !! id = Some w → ∃ w', workers db' !! id = Some w' ∧
     (worker_state w ≠ PwClean → worker_state w' ≠ PwClean) ∧
     (worker_state w = PwQuarantined →
      worker_state w' = PwQuarantined ∨
      ∀ k r, requests db !! k = Some r → state r = Recovering → fence_worker (recovery r) ≠ Some id)) →
  assignment_epochs db' = assignment_epochs db →
  map_Forall (λ _ p, 1 ≤ weight p ≤ 100) (tenant_policy db') →
  map_Forall (λ id w, worker_fits w = true ∧ named "worker" 64 id) (workers db') →
  db_ok db'.
Proof.
  intros [Hids Hrows Hcomp Honce Hpol Hwork Hep Hsince] Hr Hp Hw He Hpol' Hwork'.
  split; try rewrite Hr; try done; [unfold ids_ok; by rewrite Hr| |by rewrite He].
  intros id r Hlk. destruct (Hrows _ _ Hlk) as [Hsh Hpo Hus Hepo Hact Hrec]. split; [done|..].
  - destruct Hpo as [p Hpo]. destruct (Hp _ _ Hpo) as (p' & -> & _). by eexists.
  - intros w Hu. destruct (Hus w Hu) as (wr & Hwr & Hs). destruct (Hw _ _ Hwr) as (wr' & Hwr' & Hs' & _). eauto.
  - by rewrite He.
  - by rewrite He.
  - intros Hst. destruct (Hrec Hst) as (worker & wr & sn & so & t & sb & ti & Hf & Hwr & Hq & Hrest).
    destruct (Hw _ _ Hwr) as (wr' & Hwr' & _ & Hq'). exists worker, wr', sn, so, t, sb, ti.
    split; [done|]. split; [done|]. split; [|done]. destruct (Hq' Hq) as [|Hno]; [done|]. by destruct (Hno _ _ Hlk Hst).
Qed.

Lemma audit_ok db l : db_ok db → db_ok (set_audit l db).
Proof.
  intros Hok. eapply db_ok_tables; try done; try apply Hok; try reflexivity.
  intros id w Hw. exists w. by auto.
Qed.

Lemma virtual_time_ok db t : db_ok db → db_ok (set_virtual_time t db).
Proof.
  intros Hok. eapply db_ok_tables; try done; try apply Hok; try reflexivity.
  intros id w Hw. exists w. by auto.
Qed.

Lemma policies_ok db t p : db_ok db → 1 ≤ weight p ≤ 100 → db_ok (set_policy (<[t := p]> (tenant_policy db)) db).
Proof.
  intros Hok Hw. eapply db_ok_tables; try done; try apply Hok; try reflexivity; simpl.
  - by apply grows_insert; [apply _|].
  - intros id w Hlk. exists w. by auto.
  - apply map_Forall_insert_2; [done|apply Hok].
Qed.

Lemma workers_ok db id w w' :
  db_ok db → workers db !! id = Some w → worker_fits w' = true →
  (worker_state w ≠ PwClean → worker_state w' ≠ PwClean) →
  (worker_state w = PwQuarantined → worker_state w' = PwQuarantined ∨
   ∀ k r, requests db !! k = Some r → state r = Recovering → fence_worker (recovery r) ≠ Some id) →
  db_ok (set_workers (<[id := w']> (workers db)) db).
Proof.
  intros Hok Hw Hfit Hc Hq. eapply db_ok_tables; try done; try apply Hok; try reflexivity; simpl.
  - intros id' w0 Hw0. destruct (decide (id' = id)) as [->|Hne].
    + simplify_eq. exists w'. rewrite lookup_insert_eq. auto.
    + exists w0. rewrite lookup_insert_ne by done. auto.
  - apply map_Forall_insert_2; [|apply Hok]. split; [done|]. by apply (ok_workers _ Hok _ _ Hw).
Qed.

Lemma new_worker_ok db id w :
  db_ok db → workers db !! id = None → worker_fits w = true → named "worker" 64 id →
  db_ok (set_workers (<[id := w]> (workers db)) db).
Proof.
  intros Hok Hw Hfit Hn. eapply db_ok_tables; try done; try apply Hok; try reflexivity; simpl.
  - intros id' w0 Hw0. exists w0. rewrite lookup_insert_ne by congruence. auto.
  - apply map_Forall_insert_2; [done|apply Hok].
Qed.

(** A change that keeps the fence, the source and, while it recovers, the restore. *)
Lemma step_same db r r' :
  row_ok db r → submitted r' = submitted r → is_finished (state r) = false →
  (is_live (state r') = true → is_live (state r) = true) →
  (row_worker r' = row_worker r ∨ row_worker r' = None) → (row_epoch r' = row_epoch r ∨ row_epoch r' = None) →
  fence_worker (recovery r') = fence_worker (recovery r) → source_epoch (recovery r') = source_epoch (recovery r) →
  (is_active (state r') = true →
   is_active (state r) = true ∧ row_worker r' = row_worker r ∧ row_epoch r' = row_epoch r ∧ is_Some (lease_expires r')) →
  shape_ok r' →
  (state r' = Recovering → state r = Recovering ∧ row_operation r' = row_operation r ∧
     latest_snapshot (recovery r') = latest_snapshot (recovery r) ∧
     (fence_confirmed (recovery r') = true → fence_confirmed (recovery r) = true ∨ on_some confirms (fence_worker (recovery r)))) →
  step_ok db r r'.
Proof.
  intros [_ _ _ _ _ Hrec] Hsub Hopen Hlive Hw He Hf Hso Hact Hsh Hre. split; try done.
  - unfold uses. rewrite Hf. intros w [Hu|Hu]; [|by right]. left. destruct Hw as [<-|Hw]; [done|congruence].
  - rewrite Hso. intros e [Hu|Hu]; [|by right]. left. destruct He as [<-|He]; [done|congruence].
  - intros Hst. destruct (Hre Hst) as (Hs & Ho & Hl & _). destruct (Hrec Hs) as (w & wr & sn & so & t & sb & ti & Hall).
    exists w, wr, sn, so, t, sb, ti. by rewrite Hf, Hso, Ho, Hl.
  - intros w (Hst & Hc & Hfw). destruct (Hre Hst) as (Hs & _ & _ & Hcon). rewrite Hf in Hfw.
    destruct (Hcon Hc) as [Hc'|Hc']; [by right|left; by apply Hc'].
Qed.

Lemma on_some_Some {A} (P : A → Prop) a : P a → on_some P (Some a).
Proof. by intros HP b [= <-]. Qed.
Lemma on_some_None {A} (P : A → Prop) : on_some P None.
Proof. by intros b. Qed.

Definition keeps_ok (db db' : Db) : Prop := db_ok db → db_ok db'.
#[global] Instance keeps_ok_preorder : PreOrder keeps_ok.
Proof. unfold keeps_ok. split; [by intros db|]. intros a b c. tauto. Qed.

Lemma waiting_open s : is_waiting s = true → is_finished s = false.
Proof. by destruct s. Qed.
Lemma active_open s : is_active s = true → is_finished s = false.
Proof. by destruct s. Qed.
#[local] Hint Resolve waiting_open active_open : core.

(** *** Waiting requests, policies, workers *)

Lemma expired_row_step db now r : row_ok db r → is_waiting (state r) = true → step_ok db r (expired_row now r).
Proof.
  intros Hr Hw. apply step_same; simpl; auto; try done. destruct Hr as [[] _ _ _ _ _]. by split.
Qed.

Lemma after_expiry_ok now l db : db_ok db → db_ok (after_expiry now l db).
Proof.
  intros Hok. apply audit_ok, fmap_rows_ok; [done|]. intros id r Hr. unfold expire_row.
  destruct (expiring now r) eqn:He; [right|by left]. apply andb_true_iff in He as [He _].
  apply expired_row_step; [|done]. by apply (ok_rows _ Hok id).
Qed.

Lemma expire_queued_ok now : advances keeps_ok (expire_queued now).
Proof.
  intros db db' u Hrun Hok. apply expire_queued_Ok in Hrun as [l ->]; [|apply Hok]. by apply after_expiry_ok.
Qed.

Lemma append_audit_ok (record : PlacementRecord Value) now event : advances keeps_ok (append_audit record now event).
Proof. intros db db' u [row ->]%append_audit_Ok. intros Hok. by apply audit_ok. Qed.

Lemma update_worker_ok id p f :
  (∀ w, p w = true → worker_state (f w) = worker_state w ∨
     worker_state (f w) ≠ PwClean ∧ (worker_state w = PwQuarantined → worker_state (f w) = PwQuarantined)) →
  advances keeps_ok (update_worker id p f).
Proof.
  intros Hf db db' n [(_ & w & Hw & Hp & Hfit & ->)|(_ & -> & _)]%update_worker_Ok Hok; [|done].
  eapply workers_ok; [done|done|done|..]; destruct (Hf w Hp) as [->|[Hc Hq]]; auto.
Qed.

Lemma set_worker_state_ok id p s :
  s ≠ PwClean → (∀ w, p w = true → worker_state w = PwQuarantined → s = PwQuarantined) →
  advances keeps_ok (set_worker_state id p s).
Proof. intros Hs Hp. apply update_worker_ok. intros w Hw. right. split; [done|]. by apply Hp. Qed.

Lemma upsert_worker_ok r now address ceilings : advances keeps_ok (upsert_worker r now address ceilings).
Proof.
  intros db db' n. unfold upsert_worker. destruct (workers db !! _) as [w|] eqn:Hw.
  - destruct (registers r w); [|by intros [= <- _]]. unfold_M. unfold write_worker. destruct (worker_fits _) eqn:Hfit; [|discriminate].
    intros [= <- _] Hok. eapply workers_ok; eauto.
  - unfold_M. unfold write_worker. destruct (worker_fits _) eqn:Hfit; [|discriminate].
    intros [= <- _] Hok. apply new_worker_ok; [done|done|done|]. by eexists.
Qed.

Lemma with_lease_step db r x : row_ok db r → is_active (state r) = true → 0 ≤ x → step_ok db r (with_lease (Some x) r).
Proof.
  intros Hr Ha Hx. apply step_same; simpl; auto; try done.
  destruct Hr as [[] _ _ _ _ _]. split; try done. by apply on_some_Some.
Qed.

Lemma update_where_ok p f :
  (∀ r, submitted (f r) = submitted r) → (∀ db r, row_ok db r → p r = true → step_ok db r (f r)) →
  advances keeps_ok (update_where p f).
Proof.
  intros Hsub Hf db db' rows Hrun Hok. apply update_where_Ok in Hrun as [-> _]; [|apply Hok|done].
  apply fmap_rows_ok; [done|]. intros id r Hr. destruct (p r) eqn:Hp; [right|by left].
  apply Hf; [|done]. by apply (ok_rows _ Hok id).
Qed.

(** *** Submission and assignment *)

Lemma new_since m id r : since m → m !! id = None → state r = Queued → since (<[id := r]> m).
Proof.
  intros [Hrows Hact Hfen] Hnone Hst. split.
  - intros k q Hq. destruct (Hrows k q Hq) as (q' & Hq' & Hrest). exists q'. by rewrite lookup_insert_ne by congruence.
  - intros k q Hquiet [[<- <-]|[_ Hq]]%lookup_insert_Some Ha; [by rewrite Hst in Ha|by eapply Hact].
  - intros k q w [[<- <-]|[_ Hq]]%lookup_insert_Some Hd; [|by eapply Hfen]. destruct Hd. congruence.
Qed.

(** A request that was open is assigned. *)
Lemma assigned_since m id r r' :
  ¬ quiet → since m → m !! id = Some r → is_finished (state r) = false → submitted r' = submitted r → state r' = Assigned →
  since (<[id := r']> m).
Proof.
  intros Hloud [Hrows Hact Hfen] Hr Hopen Hsub Hst. split.
  - intros k q Hq. destruct (Hrows k q Hq) as (q' & Hq' & Hsub' & Hfin). destruct (decide (k = id)) as [->|Hne].
    + rewrite lookup_insert_eq. simplify_eq. exists r'. split_and!; [done|congruence|]. intros Hf. rewrite (Hfin Hf) in *. congruence.
    + exists q'. by rewrite lookup_insert_ne by congruence.
  - done.
  - intros k q w [[<- <-]|[_ Hq]]%lookup_insert_Some Hd; [|by eapply Hfen]. destruct Hd. congruence.
Qed.

Lemma new_row_ok db r :
  db_ok db → requests db !! row_id r = None → request_fits db r = true → shape_ok r →
  state r = Queued → row_worker r = None → row_epoch r = None →
  fence_worker (recovery r) = None → source_epoch (recovery r) = None →
  db_ok (set_requests (<[row_id r := r]> (requests db)) db).
Proof.
  intros [Hids Hrows Hcomp Honce Hpol Hwork Hep Hsince] Hnone Hfit Hsh Hst Hw He Hf Hso.
  unfold request_fits in Hfit. rewrite !andb_true_iff, forallb_forall in Hfit. destruct Hfit as [[[_ Hten] _] Hall].
  apply bool_decide_eq_true in Hten.
  assert (∀ id q, requests db !! id = Some q → compatible r q = true) as Hc.
  { intros id q Hq. specialize (Hall (id, q)). rewrite <-list_elem_of_In, elem_of_map_to_list in Hall.
    specialize (Hall Hq). apply orb_true_iff in Hall as [Hid|]; [|done]. apply bool_decide_eq_true in Hid. congruence. }
  split; simpl; [| | | |done|done|done|by apply new_since].
  - intros id q Hq. simpl in Hq. apply lookup_insert_Some in Hq as [[<- <-]|[_ Hq]]; [done|by apply Hids].
  - intros id q Hq. apply lookup_insert_Some in Hq as [[<- <-]|[_ Hq]].
    + split; simpl; [done|done|..]; try (by rewrite Hst).
      * intros w [Hu|Hu]; congruence.
      * intros e [Hu|Hu]; congruence.
    + destruct (Hrows _ _ Hq) as [? ? ? ? ? ?]. by split.
  - intros id1 id2 r1 r2 H1 H2 Hne.
    apply lookup_insert_Some in H1 as [[<- <-]|[_ H1]]; apply lookup_insert_Some in H2 as [[<- <-]|[_ H2]]; try done; eauto.
    rewrite compatible_sym. eauto.
  - intros id1 id2 r1 r2 w H1 H2 Hu1 Hu2.
    apply lookup_insert_Some in H1 as [[<- <-]|[_ H1]]; apply lookup_insert_Some in H2 as [[<- <-]|[_ H2]]; try done; eauto.
    + destruct Hu1; congruence.
    + destruct Hu2; congruence.
Qed.

(** The chosen request becomes assigned, with a new epoch, to a clean worker. *)
Section granted_ok.
Context (worker : WorkerId) (w : WorkerRow) (r : RequestRow) (now expires : Z) (db db' : Db) (a : Assignment).
Context (Hok : db_ok db) (Hr : requests db !! row_id r = Some r) (Has : assignable r = true).
Context (Hw : workers db !! as_str worker = Some w) (Hclean : worker_state w = PwClean) (Hx : 0 ≤ expires).
Context (Hg : granted worker r now expires db db' a) (Hloud : ¬ quiet).

Let e := epoch_get (assignment_epoch a).
Let r1 := assigned_row (as_str worker) e expires now r.

Lemma assignable_live : is_live (state r) = true ∧ is_active (state r) = false.
Proof.
  unfold assignable, has_state in Has. apply orb_true_iff in Has as [Hs|[Hs _]%andb_true_iff];
    apply bool_decide_eq_true in Hs; by rewrite Hs.
Qed.

Lemma assignable_open : is_finished (state r) = false.
Proof.
  unfold assignable, has_state in Has. apply orb_true_iff in Has as [Hs|[Hs _]%andb_true_iff];
    apply bool_decide_eq_true in Hs; by rewrite Hs.
Qed.

Lemma worker_unused id q u : requests db !! id = Some q → uses q u → u ≠ as_str worker.
Proof. intros Hq Hu ->. destruct (ro_uses _ _ (ok_rows _ Hok _ _ Hq) _ Hu) as (w1 & Hw1 & Hs). congruence. Qed.

Lemma granted_epoch : stored_epoch e ∧ ∀ e0, assignment_epochs db !! row_sandbox r = Some e0 → e0 < e.
Proof.
  destruct Hg as [_ _ _ _ _ _ He Hmax _ _ _ _ _]. fold e in He, Hmax. unfold stored_epoch.
  destruct (assignment_epochs db !! row_sandbox r) as [e0|] eqn:He0; simpl in He.
  - pose proof (ok_epochs _ Hok _ _ He0) as [? ?]. split; [lia|]. intros ? [= <-]. lia.
  - split; [lia|done].
Qed.

Lemma granted_worker_later id v :
  workers db !! id = Some v → ∃ v', workers db' !! id = Some v' ∧
    (worker_state v ≠ PwClean → v' = v) ∧ (id = as_str worker → worker_state v' = PwLeased).
Proof.
  destruct Hg as [_ _ _ _ _ _ _ _ _ _ (w' & Hw' & _ & Hwk) _ _]. simplify_eq. intros Hv. rewrite Hwk.
  destruct (decide (id = as_str worker)) as [->|Hne].
  - rewrite lookup_insert_eq. simplify_eq. by eexists.
  - rewrite lookup_insert_ne by done. by exists v.
Qed.

Lemma granted_row_ok : row_ok db' r1.
Proof.
  pose proof (ok_rows _ Hok _ _ Hr) as [Hsh Hpo Hus Hep _ _]. destruct granted_epoch as [Hse Hlt]. split.
  - destruct Hsh as [? ? ? ? ? ? ? ? ?]. split; simpl; try done; apply on_some_Some; [by exists worker|done|done].
  - by rewrite (gr_policies _ _ _ _ _ _ _ Hg).
  - intros id [[= <-]|Hf]; simpl in *.
    + destruct (granted_worker_later _ _ Hw) as (v' & Hv' & _ & Hl). exists v'. split; [done|]. by rewrite Hl.
    + destruct (Hus id) as (v & Hv & Hs); [by right|]. destruct (granted_worker_later _ _ Hv) as (v' & Hv' & Hsame & _).
      exists v'. rewrite (Hsame Hs) in *. done.
  - intros e' He'. exists e. rewrite (gr_epochs _ _ _ _ _ _ _ Hg). change (row_sandbox r1) with (row_sandbox r).
    rewrite lookup_insert_eq. split; [done|]. destruct He' as [[= <-]|Hs]; [done|].
    destruct (Hep e') as (e0 & He0 & Hle); [by right|]. specialize (Hlt _ He0). lia.
  - intros _. exists (as_str worker), e, expires. split_and!; try done.
    rewrite (gr_epochs _ _ _ _ _ _ _ Hg). apply lookup_insert_eq.
  - done.
Qed.

Lemma other_row_ok id q : requests db !! id = Some q → id ≠ row_id r → row_ok db' q.
Proof.
  intros Hq Hne. pose proof (ok_rows _ Hok _ _ Hq) as [Hsh Hpo Hus Hep Hact Hrec].
  destruct granted_epoch as [Hse Hlt]. split; [done|..].
  - by rewrite (gr_policies _ _ _ _ _ _ _ Hg).
  - intros u Hu. destruct (Hus u Hu) as (v & Hv & Hs). destruct (granted_worker_later _ _ Hv) as (v' & Hv' & Hsame & _).
    exists v'. by rewrite (Hsame Hs) in *.
  - intros e' He'. destruct (Hep e' He') as (e0 & He0 & Hle). rewrite (gr_epochs _ _ _ _ _ _ _ Hg).
    destruct (decide (row_sandbox r = row_sandbox q)) as [Heq|Hns].
    + rewrite Heq, lookup_insert_eq. exists e. split; [done|]. rewrite Heq in Hlt. specialize (Hlt _ He0). lia.
    + rewrite lookup_insert_ne by done. eauto.
  - intros Ha. destruct (Hact Ha) as (u & e' & x & ? & ? & ? & Ht). exists u, e', x. split_and!; try done.
    rewrite (gr_epochs _ _ _ _ _ _ _ Hg), lookup_insert_ne; [done|]. intros Heq.
    pose proof (ok_compatible _ Hok _ _ _ _ Hr Hq (not_eq_sym Hne)) as Hc. unfold compatible in Hc.
    rewrite (proj1 assignable_live), (bool_decide_eq_true_2 _ Heq) in Hc.
    assert (is_live (state q) = true) as Hl by (by destruct (state q)). rewrite Hl in Hc. by rewrite andb_false_r in Hc.
  - intros Hst. destruct (Hrec Hst) as (u & v & sn & so & t & sb & ti & Hf & Hv & Hqu & Hrest).
    destruct (granted_worker_later _ _ Hv) as (v' & Hv' & Hsame & _). rewrite Hsame in * by congruence.
    exists u, v, sn, so, t, sb, ti. done.
Qed.

Lemma granted_ok : db_ok db'.
Proof.
  pose proof Hg as [_ _ _ _ _ _ _ _ _ Hreq (w' & Hw' & Hfit & Hwk) Heps Hpo]. fold e in Hreq. fold r1 in Hreq.
  assert (∀ u, uses r1 u → u = as_str worker ∨ uses r u) as Huse by (intros u [[= <-]|Hf]; [by left|right; by right]).
  assert (∀ q, compatible r q = true → compatible r1 q = true) as Hcomp.
  { intros q. unfold compatible. by rewrite (proj1 assignable_live). }
  split; rewrite ?Hreq; [| | | |by rewrite Hpo; apply Hok| | |].
  7: { eapply assigned_since; [done|apply Hok|done| |done|done]. apply assignable_open. }
  - unfold ids_ok. rewrite Hreq. apply map_Forall_insert_2; [done|apply Hok].
  - intros id q Hq. apply lookup_insert_Some in Hq as [[<- <-]|[Hne Hq]]; [apply granted_row_ok|by eapply other_row_ok].
  - intros id1 id2 r1' r2' H1 H2 Hne.
    apply lookup_insert_Some in H1 as [[<- <-]|[_ H1]]; apply lookup_insert_Some in H2 as [[<- <-]|[_ H2]]; try done.
    + eapply Hcomp, ok_compatible; eauto.
    + rewrite compatible_sym. eapply Hcomp. rewrite compatible_sym. eapply ok_compatible; eauto.
    + eapply ok_compatible; eauto.
  - intros id1 id2 r1' r2' u H1 H2 Hu1 Hu2.
    apply lookup_insert_Some in H1 as [[<- <-]|[_ H1]]; apply lookup_insert_Some in H2 as [[<- <-]|[_ H2]]; try done.
    + destruct (Huse _ Hu1) as [->|Hu]; [by destruct (worker_unused _ _ _ H2 Hu2)|]. eapply (ok_once _ Hok); eauto.
    + destruct (Huse _ Hu2) as [->|Hu]; [by destruct (worker_unused _ _ _ H1 Hu1)|]. eapply (ok_once _ Hok); eauto.
    + eapply (ok_once _ Hok); eauto.
  - rewrite Hwk. apply map_Forall_insert_2; [|apply Hok]. split; [done|by exists worker].
  - rewrite Heps. apply map_Forall_insert_2; [apply granted_epoch|apply Hok].
Qed.
End granted_ok.

Lemma reject_advances (R : relation Db) `{!PreOrder R} b e : advances (E := failure PlacementStoreError) R (M_reject_if b e).
Proof. apply advances_reject, _. Qed.

Context `{!StoreCodecLaws Value}.

Lemma hashed_request_id l : valid_request_id (sha256_hex l) = true.
Proof.
  destruct (sha256_hex_form l) as [Hlen Hhex]. unfold valid_request_id. rewrite Hlen.
  rewrite bool_decide_eq_false_2 by (by intros Hs; rewrite Hs in Hlen). simpl. revert Hhex. apply all_bytes_mono.
  intros c. unfold is_lowercase_hex, request_id_byte, is_ascii_alphanumeric, is_ascii_lowercase, in_range. lia.
Qed.

Lemma submitted_row_shape sub operation now deadline fair_finish capacity x m :
  validate_submission sub m = Ok tt → operation_text (submission_operation sub) = Ok operation →
  optional validate_recovery (recovery_policy sub) = Ok x → 0 < fair_finish →
  shape_ok (submitted_row sub operation now deadline fair_finish capacity).
Proof.
  intros Hval Hop Hrec Hf. split; simpl; try (by apply on_some_None); try done.
  - split; simpl; try (by eexists); [apply hashed_request_id|done|]. unfold policy_ok. simpl.
    apply optional_Ok in Hrec. destruct (recovery_policy sub) as [p|]; simpl; [|done].
    destruct Hrec as (q & Hq & _). pose proof (validate_recovery_Ok _ _ Hq) as ->. exists p. done.
  - intros n Hn. apply optional_Ok in Hrec. destruct (recovery_policy sub) as [p|]; [|done]. injection Hn as <-.
    destruct Hrec as (q & Hq & _). unfold validate_recovery in Hq.
    apply bind_Ok_inv in Hq as ([] & Hg%reject_if_Ok & _). lia.
  - exists (submission_operation sub). split; [by apply operation_round_trip|].
    unfold validate_submission in Hval. rewrite Hop in Hval. simpl in Hval. apply reject_if_Ok in Hval.
    rewrite !orb_false_iff in Hval. destruct Hval as [[[_ Hsb] _] Hval]. split.
    + intros [i Hi]. destruct (recovery_policy sub); [|done]. by destruct (submission_operation sub).
    + by apply negb_false_iff, bool_decide_eq_true in Hsb.
  - intros [[? ?]|[? ?]]; done.
Qed.

(** What a new submission wrote: its row, and the finish time of its tenant. *)
Lemma admit_submission_Ok config sub operation now deadline db db' o :
  admit_submission config sub operation now deadline db = (db', Ok o) →
  let tenant := as_str (FairQueue.work_tenant_id (work sub)) in
  ∃ db1 p fair_finish warm l (record : PlacementRecord Value),
    let r := submitted_row sub operation now deadline fair_finish warm in
    let db2 := set_policy (<[tenant := MkPolicyRow (weight p) (concurrency_limit p) (queue_limit p) fair_finish]> (tenant_policy db1)) db1 in
    expire_queued now db = (db1, Ok tt) ∧ tenant_policy db1 !! tenant = Some p ∧
    requests db1 !! row_id r = None ∧ request_fits db2 r = true ∧
    db' = set_audit l (set_requests (<[row_id r := r]> (requests db2)) db2) ∧ describes r record ∧ o = EnqueueQueued record.
Proof.
  intros Hrun. unfold admit_submission in Hrun. cbv zeta in Hrun |- *.
  apply M_bind_Ok_inv in Hrun as ([] & db1 & Hex & Hrun).
  apply M_bind_Ok_inv in Hrun as (global & db2 & [= <- _] & Hrun).
  apply M_bind_Ok_inv in Hrun as ([] & db2 & [= <- _] & Hrun).
  apply M_bind_Ok_inv in Hrun as (count & db2 & [= <- _] & Hrun).
  apply M_bind_Ok_inv in Hrun as (p & db2 & Hp & Hrun). pose proof (pure_Ok _ _ _ _ (query_one_pure _) Hp) as ->.
  apply M_bind_Ok_inv in Hp as (? & ? & [= <- <-] & [= Hp]). apply ok_or_Ok in Hp.
  apply M_bind_Ok_inv in Hrun as ([] & db2 & [= <- _] & Hrun).
  apply M_bind_Ok_inv in Hrun as (conflict & db2 & Hc & Hrun). pose proof (pure_Ok _ _ _ _ (query_opt_pure _) Hc) as ->.
  apply M_bind_Ok_inv in Hrun as ([] & db2 & [= <- _] & Hrun).
  apply M_bind_Ok_inv in Hrun as (time & db2 & [= <- _] & Hrun).
  apply M_bind_Ok_inv in Hrun as (fair_finish & db2 & Hff & Hrun).
  assert (db2 = db1) as -> by (eapply pure_Ok; [|exact Hff]; unfold next_finish; auto with pure).
  apply M_bind_Ok_inv in Hrun as ([] & db2 & [= <-] & Hrun).
  apply M_bind_Ok_inv in Hrun as (timeout & db2 & (-> & _)%duration_millis_Ok & Hrun).
  apply M_bind_Ok_inv in Hrun as (cutoff & db2 & (-> & _)%sub_i64_Ok & Hrun).
  apply M_bind_Ok_inv in Hrun as (warm & db2 & [= <- _] & Hrun).
  apply M_bind_Ok_inv in Hrun as ([] & db2 & (Hnone & -> & Hfit)%insert_request_Ok & Hrun).
  apply M_bind_Ok_inv in Hrun as (row & db2 & Hrow & Hrun). pose proof (pure_Ok _ _ _ _ (query_one_pure _) Hrow) as ->.
  apply M_bind_Ok_inv in Hrow as (found & ? & [= <- <-] & [= Hrow]). apply ok_or_Ok in Hrow. simpl in Hrow.
  rewrite lookup_insert_eq in Hrow. injection Hrow as <-.
  apply M_bind_Ok_inv in Hrun as (record & db2 & [-> Hde]%read_record_Ok & Hrun).
  apply M_bind_Ok_inv in Hrun as ([] & db2 & [row ->]%append_audit_Ok & [= <- <-]).
  exists db1, p, fair_finish. eexists _, _, record. split_and!; done.
Qed.

Lemma admit_submission_ok config sub operation now deadline x n :
  validate_submission sub n = Ok tt → operation_text (submission_operation sub) = Ok operation →
  optional validate_recovery (recovery_policy sub) = Ok x →
  advances keeps_ok (admit_submission config sub operation now deadline).
Proof.
  intros Hval Hop Hrec db db' o Hrun Hok.
  apply admit_submission_Ok in Hrun as (db1 & p & fair_finish & warm & l & record & Hex & Hp & Hnone & Hfit & -> & _ & _).
  pose proof (expire_queued_ok _ _ _ _ Hex Hok) as Hok1. apply audit_ok.
  apply new_row_ok; try done.
  - apply policies_ok; [done|]. simpl. by apply (ok_policies _ Hok1 _ _ Hp).
  - eapply submitted_row_shape; [done..|]. unfold request_fits in Hfit. simpl in Hfit. lia.
Qed.

(** *** Completion *)

Definition serves (a : Assignment) (response : option (string * WorkloadResponse Value)) : bool :=
  match response with Some (_, r) => rs_ok r | None => false end && starts_sandbox (assignment_operation a).
Definition completion_state (a : Assignment) (record : PlacementRecord Value) (response : option (string * WorkloadResponse Value)) :
    PlacementState :=
  if serves a response then Serving else if is_recovering record then RecoveryFailed else Completed.

Definition winning_row (config : PlacementStoreConfig) (a : Assignment) (record : PlacementRecord Value) (digest : string)
    (response : option (string * WorkloadResponse Value)) (now : Z) (due : option Z) : RequestRow → RequestRow :=
  completed_row (completion_state a record response) digest (fst <$> response)
    (if serves a response then None else Some now) (if response is Some _ then Some now else None)
    (if serves a response then Some (now + as_millis (lease_lifetime config)) else None) due
    (if serves a response && is_recovering record then Some now else None)
    (if negb (serves a response) && is_recovering record
     then Some (default "restore failed"%string ('(_, r) ← response; rs_error r)) else None).

Lemma alter_insert (f : RequestRow → RequestRow) id (m : gmap string RequestRow) r : m !! id = Some r → alter f id m = <[id := f r]> m.
Proof.
  intros Hr. apply map_eq. intros k. destruct (decide (k = id)) as [->|Hne].
  - by rewrite lookup_alter_eq, lookup_insert_eq, Hr.
  - by rewrite lookup_alter_ne, lookup_insert_ne.
Qed.

(** What a winning completion writes. *)
Lemma publish_Ok config a r (record : PlacementRecord Value) digest response now db db' u :
  ids_ok db → requests db !! assignment_request_id a = Some r →
  publish config a record digest response now db = (db', Ok u) →
  ∃ due l n db1,
    (is_Some due → is_Some (record_recovery record)) ∧
    (if serves a response then mret 0 else set_worker_state (as_str (assignment_worker a)) (λ _, true) PwConsumed)
      (set_requests (<[assignment_request_id a := winning_row config a record digest response now due r]> (requests db)) db)
      = (db1, Ok n) ∧ db' = set_audit l db1.
Proof.
  intros Hid Hr Hrun. unfold publish in Hrun. cbv zeta in Hrun. fold (serves a response) in Hrun.
  fold (completion_state a record response) in Hrun.
  apply M_bind_Ok_inv in Hrun as (expiry & db1 & Hexp & Hrun).
  assert (db1 = db ∧ expiry = if serves a response then Some (now + as_millis (lease_lifetime config)) else None) as [-> ->].
  { destruct (serves a response); [|by injection Hexp as <- <-].
    apply M_bind_Ok_inv in Hexp as (? & ? & (-> & ->)%duration_millis_Ok & Hexp).
    by apply M_bind_Ok_inv in Hexp as (? & ? & (-> & -> & _)%add_i64_Ok & [= <- <-]). }
  apply M_bind_Ok_inv in Hrun as (due & db1 & Hdue & Hrun).
  assert (db1 = db ∧ (is_Some due → is_Some (record_recovery record))) as [-> Hd].
  { destruct (record_recovery record); [|injection Hdue as <- <-; by split; [|intros []]].
    split; [|by intros _; eexists]. destruct (serves a response); [|by injection Hdue as <- <-].
    apply M_bind_Ok_inv in Hdue as (? & ? & (-> & _)%to_i64_Ok & Hdue).
    by apply M_bind_Ok_inv in Hdue as (? & ? & (-> & -> & _)%add_i64_Ok & [= <- <-]). }
  apply M_bind_Ok_inv in Hrun as ([] & db1 & Hup & Hrun).
  apply update_request_Ok in Hup as [-> _]; [|done|done]. rewrite (alter_insert _ _ _ r) in Hrun by done.
  apply M_bind_Ok_inv in Hrun as ([] & db2 & Hset & [row ->]%append_audit_Ok).
  destruct (serves a response) eqn:Hs.
  - injection Hset as <-. eexists due, _, 0, _. split; [done|]. split; [|reflexivity]. unfold winning_row. by rewrite Hs.
  - apply M_bind_Ok_inv in Hset as (n & db3 & Hset & [= <-]). eexists due, _, n, _. split; [done|]. split; [|reflexivity].
    unfold winning_row. rewrite Hs. exact Hset.
Qed.

Lemma completion_active a record response :
  is_active (completion_state a record response) = true → serves a response = true.
Proof. unfold completion_state. by repeat case_match. Qed.

Lemma winning_row_step config a r (record : PlacementRecord Value) digest response now due db :
  row_ok db r → 0 ≤ now → 0 ≤ lease_lifetime config → describes r record → state r = Assigned →
  (∀ text rs, response = Some (text, rs) → response_text rs = Ok text) →
  (is_Some due → is_Some (record_recovery record)) →
  step_ok db r (winning_row config a record digest response now due r).
Proof.
  intros Hrow Hnow Hlife Hde Hst Hresp Hdue. apply step_same; simpl; auto; [by rewrite Hst|by rewrite Hst| | |].
  - intros Ha%completion_active. rewrite Hst, Ha. by split_and!.
  - destruct Hrow as [[? ? ? ? ? [] ? ? Hshd] _ _ _ _ _]. split; simpl; try done.
    + destruct (serves a response); [|done]. apply on_some_Some. unfold stored_time, as_millis.
      pose proof (Z.div_pos (lease_lifetime config) 1000000 Hlife). lia.
    + intros t Ht. destruct response as [[text rs]|]; [|done]. injection Ht as <-.
      by rewrite (response_round_trip _ _ (Hresp _ _ eq_refl)).
    + split; simpl; try done. destruct (serves a response && is_recovering record); [by apply on_some_Some|apply on_some_None].
    + intros [Hd|Hp]; [|by apply Hshd; right]. destruct (Hdue Hd) as [status Hs]. pose proof (de_recovery _ _ Hde) as Hrec.
      rewrite Hs in Hrec. by rewrite (ds_interval _ _ Hrec).
  - unfold completion_state. by repeat case_match.
Qed.

Lemma publish_ok config a r (record : PlacementRecord Value) digest response now db db' u :
  db_ok db → 0 ≤ now → 0 ≤ lease_lifetime config → requests db !! assignment_request_id a = Some r →
  describes r record → state r = Assigned → row_worker r = Some (as_str (assignment_worker a)) →
  (∀ text rs, response = Some (text, rs) → response_text rs = Ok text) →
  publish config a record digest response now db = (db', Ok u) → db_ok db'.
Proof.
  intros Hok Hnow Hlife Hr Hde Hst Hw Hresp Hrun.
  apply (publish_Ok _ _ r) in Hrun as (due & l & n & db1 & Hdue & Hset & ->); [|apply Hok|done]. apply audit_ok.
  set (r' := winning_row _ _ _ _ _ _ _ _) in Hset.
  assert (db_ok (set_requests (<[assignment_request_id a := r']> (requests db)) db)) as Hok1.
  { eapply insert_row_ok; [done|done|]. apply winning_row_step; try done. by apply (ok_rows _ Hok _ _ Hr). }
  destruct (serves a response) eqn:Hs; [by injection Hset as <- _|].
  apply update_worker_Ok in Hset as [(_ & w & Hwk & _ & Hfit & ->)|(_ & -> & _)]; [|done].
  eapply workers_ok; [done|done|done|done|]. intros _. right. intros k q Hq Hrec Hf. simpl in Hq.
  apply lookup_insert_Some in Hq as [[<- <-]|[Hne Hq]].
  - unfold r', winning_row, completion_state in Hrec. rewrite Hs in Hrec. simpl in Hrec. by case_match.
  - apply Hne. eapply (ok_once _ Hok); [done|done|by left|by right].
Qed.

(** *** Cancellation, checkpoints and fences *)

Lemma update_request_ok id p f db db' u :
  db_ok db → (∀ r, submitted (f r) = submitted r) →
  (∀ r, requests db !! id = Some r → p r = true → step_ok db r (f r)) →
  update_request id p f db = (db', Ok u) → db_ok db'.
Proof.
  intros Hok Hsub Hf Hrun. apply update_request_Ok in Hrun as [-> _]; [|apply Hok|done].
  destruct (requests db !! id) as [r|] eqn:Hr.
  - rewrite (alter_insert _ _ _ r) by done. destruct (p r) eqn:Hp.
    + eapply insert_row_ok; eauto.
    + rewrite insert_id by done. by destruct db.
  - replace (alter _ id (requests db)) with (requests db); [by destruct db|].
    apply map_eq. intros k. destruct (decide (k = id)) as [->|Hne]; [by rewrite lookup_alter_eq, Hr|].
    by rewrite lookup_alter_ne.
Qed.

Lemma cancelled_row_step db now r :
  row_ok db r → is_finished (state r) = false → step_ok db r (with_request_state Cancelled (with_terminal now r)).
Proof. intros Hr Hf. apply step_same; simpl; auto; try done. destruct Hr as [[] _ _ _ _ _]. by split. Qed.

Lemma query_opt_Ok p db db' o : ids_ok db → query_opt p db = (db', Ok o) →
  db' = db ∧ on_some (λ r, requests db !! row_id r = Some r ∧ p r = true) o.
Proof.
  intros Hid Hrun. pose proof (pure_Ok _ _ _ _ (query_opt_pure p) Hrun) as ->. split; [done|].
  apply M_bind_Ok_inv in Hrun as (rows & db1 & [= <- <-] & Hrun).
  intros r ->. apply elem_of_rows_where; [done|]. unfold at_most_one in Hrun.
  destruct (rows_where p db) as [|r' [|]]; try done. injection Hrun as <-. set_solver.
Qed.

Lemma query_opt_None p db db' : ids_ok db → query_opt p db = (db', Ok None) →
  ∀ id r, requests db !! id = Some r → p r ≠ true.
Proof.
  intros Hid Hrun id r Hr Hp. apply M_bind_Ok_inv in Hrun as (rows & db1 & [= <- <-] & Hrun). unfold at_most_one in Hrun.
  assert (r ∈ rows_where p db) as Hin by (apply elem_of_rows_where; [done|]; by rewrite (Hid _ _ Hr)).
  destruct (rows_where p db) as [|r' [|]]; [set_solver|done|done].
Qed.

Lemma cancel_ok tenant subject key now db db' o : db_ok db → cancel tenant subject key now db = (db', Ok o) → db_ok db'.
Proof.
  intros Hok Hrun. unfold cancel in Hrun.
  apply M_bind_Ok_inv in Hrun as (n & db0 & (-> & -> & _)%to_i64_Ok & Hrun). apply transaction_Ok in Hrun.
  apply M_bind_Ok_inv in Hrun as (found & db0 & Hq & Hrun). apply query_opt_Ok in Hq as [-> Hq]; [|apply Hok].
  destruct found as [r|]; [|by injection Hrun as <- _]. destruct (Hq r eq_refl) as [Hr _].
  apply M_bind_Ok_inv in Hrun as (record & db0 & [-> Hde]%read_record_Ok & Hrun).
  rewrite (de_state _ _ Hde) in Hrun. destruct (is_finished (state r)) eqn:Hfin; [by injection Hrun as <- _|].
  apply M_bind_Ok_inv in Hrun as ([] & db1 & Hup & Hrun). rewrite (de_id _ _ Hde) in Hup.
  apply update_request_ok in Hup; [|done|done|].
  2: { intros r' Hr' _. simplify_eq. apply cancelled_row_step; [|done]. by apply (ok_rows _ Hok _ _ Hr). }
  apply M_bind_Ok_inv in Hrun as ([] & db2 & Hset & Hrun).
  assert (db_ok db2) as Hok2.
  { destruct (record_worker record) as [w|]; [|by injection Hset as <-].
    apply M_bind_Ok_inv in Hset as (n & db3 & Hset & [= <-]). eapply set_worker_state_ok; [| |exact Hset|done]; [done|].
    intros w' Hp Hs. unfold worker_in in Hp. apply bool_decide_eq_true in Hp. set_solver. }
  apply M_bind_Ok_inv in Hrun as ([] & db3 & Haud & [= <- _]). by eapply append_audit_ok.
Qed.

Lemma claimed_row_step db r due id :
  row_ok db r → is_Some (s_snapshot_interval (submitted r)) → state r = Serving →
  step_ok db r (with_recovery (with_due (Some due) (with_pending (Some id) (recovery r))) r).
Proof.
  intros Hr Hi Hst. apply step_same; simpl; auto; [by rewrite Hst|..].
  - intros Ha. destruct Hr as [_ _ _ _ Hact _]. destruct (Hact Ha) as (w & e & x & -> & -> & -> & _). by split_and!.
  - destruct Hr as [[? ? ? ? ? [] ? ? ?] _ _ _ _ _]. by split.
Qed.

Lemma claim_checkpoint_ok config now_unix_ms now row db db' c :
  db_ok db → (∃ r', requests db !! row_id row.1 = Some r' ∧ row_later row.1 r') →
  claim_checkpoint config now_unix_ms now row db = (db', Ok c) → db_ok db'.
Proof.
  destruct row as [r [address ceilings]]. intros Hok (r' & Hr & [Hsub]) Hrun. simpl in Hr, Hsub. unfold claim_checkpoint in Hrun.
  apply M_bind_Ok_inv in Hrun as (record & db0 & [-> Hde]%read_record_Ok & Hrun).
  apply M_bind_Ok_inv in Hrun as (epoch & db0 & [= <- _] & Hrun).
  apply M_bind_Ok_inv in Hrun as (snapshot & db0 & [= <- _] & Hrun).
  apply M_bind_Ok_inv in Hrun as (interval & db0 & [= <- Hi] & Hrun). apply ok_or_Ok in Hi.
  apply M_bind_Ok_inv in Hrun as (lifetime & db0 & (-> & _)%duration_millis_Ok & Hrun).
  apply M_bind_Ok_inv in Hrun as (due & db0 & (-> & _)%add_i64_Ok & Hrun).
  apply M_bind_Ok_inv in Hrun as ([] & db1 & Hup & Hrun). rewrite (de_id _ _ Hde) in Hup.
  apply update_request_ok in Hup; [|done|done|].
  2: { intros q Hq Hst%bool_decide_eq_true. simplify_eq.
       apply claimed_row_step; [by apply (ok_rows _ Hok _ _ Hr)|rewrite Hsub; by eexists|done]. }
  apply M_bind_Ok_inv in Hrun as (contact & db2 & [= <- _] & Hrun).
  apply M_bind_Ok_inv in Hrun as (operation & db2 & [= <- _] & Hrun).
  by apply M_bind_Ok_inv in Hrun as (a & db2 & [= <- _] & [= <- _]).
Qed.

Lemma claim_all_ok config now_unix_ms now rows : ∀ db db' l,
  db_ok db → Forall (λ row, ∃ r', requests db !! row_id row.1 = Some r' ∧ row_later row.1 r') rows →
  claim_all config now_unix_ms now rows db = (db', Ok l) → db_ok db'.
Proof.
  induction rows as [|row rows IH]; intros db db' l Hok Hrows; cbn [claim_all]; [by intros [= <- _]|].
  intros Hrun. apply M_bind_Ok_inv in Hrun as (c & db1 & Hc & Hrun).
  apply M_bind_Ok_inv in Hrun as (rest & db2 & Hrest & [= <- _]).
  apply Forall_cons in Hrows as [Hrow Hrows]. eapply IH; [| |exact Hrest].
  - by eapply claim_checkpoint_ok.
  - destruct (claim_checkpoint_moves _ _ _ _ _ _ _ Hc (ok_ids _ Hok)) as [[Hl _ _ _ _] _].
    eapply Forall_impl; [exact Hrows|]. intros q (r' & Hr' & Hq). destruct (Hl _ _ Hr') as (r2 & Hr2 & Hlat).
    exists r2. split; [done|]. by trans r'.
Qed.

Lemma claim_due_checkpoints_ok config now limit db db' l :
  db_ok db → claim_due_checkpoints config now limit db = (db', Ok l) → db_ok db'.
Proof.
  intros Hok Hrun. unfold claim_due_checkpoints in Hrun.
  apply M_bind_Ok_inv in Hrun as ([] & db0 & [= <- _] & Hrun).
  apply M_bind_Ok_inv in Hrun as (n & db0 & (-> & -> & _)%to_i64_Ok & Hrun). apply transaction_Ok in Hrun.
  apply M_bind_Ok_inv in Hrun as (rows & db0 & [= <- <-] & Hrun). eapply claim_all_ok; [done| |exact Hrun].
  apply Forall_forall. intros row Hrow.
  apply (sublist_subseteq _ _ (sublist_take _ _)) in Hrow. unfold order_by in Hrow. rewrite merge_sort_Permutation in Hrow.
  apply list_elem_of_omap in Hrow as (r & Hin & Hc). apply elem_of_rows_where in Hin as [Hin _]; [|apply Hok].
  assert (row.1 = r) as ->; [|by exists r].
  unfold with_contact in Hc. repeat (apply bind_Some in Hc as (? & _ & Hc)). case_match; [by injection Hc as <-|done].
Qed.

Lemma published_row_step db r id now due :
  row_ok db r → named "snapshot" 64 id → 0 ≤ now → is_Some (s_snapshot_interval (submitted r)) → state r = Serving →
  step_ok db r (with_recovery (with_due (Some due) (with_pending None (with_latest id now (recovery r)))) r).
Proof.
  intros Hr Hn Hnow Hi Hst. apply step_same; simpl; auto; [by rewrite Hst| | |by rewrite Hst].
  - intros Ha. destruct Hr as [_ _ _ _ Hact _]. destruct (Hact Ha) as (w & e & x & -> & -> & -> & _). by split_and!.
  - destruct Hr as [[? ? ? ? ? [] ? ? ?] _ _ _ _ _]. split; try done. by split; simpl; try apply on_some_Some.
Qed.

Lemma publish_checkpoint_ok c now db db' u : db_ok db → 0 ≤ now → publish_checkpoint c now db = (db', Ok u) → db_ok db'.
Proof.
  intros Hok Hnow Hrun. unfold publish_checkpoint in Hrun.
  apply M_bind_Ok_inv in Hrun as (n & db0 & (-> & -> & _)%to_i64_Ok & Hrun). apply transaction_Ok in Hrun.
  apply M_bind_Ok_inv in Hrun as (found & db0 & [= <- <-] & Hrun).
  apply M_bind_Ok_inv in Hrun as (r & db0 & [= <- Hr] & Hrun). apply ok_or_Ok in Hr.
  apply M_bind_Ok_inv in Hrun as (record & db0 & [-> Hde]%read_record_Ok & Hrun).
  apply M_bind_Ok_inv in Hrun as ([] & db0 & [= <- Hst] & Hrun).
  destruct (stale_checkpoint c now r record) eqn:Hstale; [done|]. unfold stale_checkpoint in Hstale.
  rewrite !orb_false_iff, !negb_false_iff, (de_state _ _ Hde), bool_decide_eq_true in Hstale.
  apply M_bind_Ok_inv in Hrun as (status & db0 & [= <- Hs] & Hrun). apply ok_or_Ok in Hs.
  apply M_bind_Ok_inv in Hrun as (interval & db0 & (-> & _)%to_i64_Ok & Hrun).
  apply M_bind_Ok_inv in Hrun as (due & db0 & (-> & _)%add_i64_Ok & Hrun).
  apply M_bind_Ok_inv in Hrun as ([] & db1 & Hup & Haud). eapply append_audit_ok; [exact Haud|].
  pose proof (ok_ids _ Hok _ _ Hr) as Hid. rewrite (de_id _ _ Hde), Hid in Hup.
  eapply update_request_ok; [done| | |exact Hup]; [done|]. intros r' Hr' _. simplify_eq.
  apply published_row_step; [by eapply (ok_rows _ Hok)|by eexists|done| |apply Hstale].
  pose proof (de_recovery _ _ Hde) as Hrec. rewrite Hs in Hrec. by rewrite (ds_interval _ _ Hrec).
Qed.

Lemma confirmed_row_step db r :
  row_ok db r → state r = Recovering → on_some confirms (fence_worker (recovery r)) →
  step_ok db r (with_recovery (with_confirmed (recovery r)) r).
Proof.
  intros Hr Hst Hc. apply step_same; simpl; auto 7; [by rewrite Hst|..].
  - intros Ha. destruct Hr as [_ _ _ _ Hact _]. destruct (Hact Ha) as (w & e & x & -> & -> & -> & _). by split_and!.
  - destruct Hr as [[? ? ? ? ? [] ? ? ?] _ _ _ _ _]. by split.
Qed.

Lemma each_ok {A} (f : A → Tx ()) l : (∀ x, advances keeps_ok (f x)) → advances keeps_ok (each f l).
Proof.
  intros Hf. induction l as [|x l IH]; cbn [each]; [apply advances_ret, _|]. apply advances_bind; [apply _|done|done].
Qed.

Lemma audit_loop_ok (f : PlacementRecord Value → PlacementRecord Value) now event rows :
  advances keeps_ok (each (λ r, record ← read_record r; append_audit (f record) now event) rows).
Proof.
  apply each_ok. intros r. apply advances_bind; [apply _|apply advances_pure; [apply _|done]|].
  intros record. apply append_audit_ok.
Qed.

Lemma confirm_recovery_fence_ok worker now db db' n :
  confirms (as_str worker) → db_ok db → confirm_recovery_fence worker now db = (db', Ok n) → db_ok db'.
Proof.
  intros Hconf Hok Hrun. unfold confirm_recovery_fence in Hrun. cbv zeta in Hrun.
  apply M_bind_Ok_inv in Hrun as (m & db0 & (-> & -> & _)%to_i64_Ok & Hrun). apply transaction_Ok in Hrun.
  apply M_bind_Ok_inv in Hrun as (rows & db0 & [= <- _] & Hrun).
  apply M_bind_Ok_inv in Hrun as ([] & db1 & Haud & Hrun).
  assert (db_ok db1) as Hok1.
  { eapply (audit_loop_ok (λ record, with_record_worker (Some worker)
      (status ← record_recovery record; status_source_epoch status) (record_expires record) record)); [exact Haud|done]. }
  apply M_bind_Ok_inv in Hrun as (l & db2 & Hup & [= <- _]).
  eapply update_where_ok; [| |exact Hup|done]; [done|]. intros db3 r Hr Hp.
  unfold unfenced, has_state in Hp. rewrite !andb_true_iff, !bool_decide_eq_true in Hp. destruct Hp as [[Hst _] Hfw].
  apply confirmed_row_step; [done|done|]. by rewrite Hfw; apply on_some_Some.
Qed.

(** *** Fencing *)

Lemma fenced_expired_step db now r :
  row_ok db r → is_active (state r) = true →
  step_ok db r (with_recovery (with_error (Some "deadline expired"%string) (recovery r)) (expired_row now r)).
Proof.
  intros Hr Ha. apply step_same; simpl; auto; try done. destruct Hr as [[? ? ? ? ? [] ? ? ?] _ _ _ _ _]. split; simpl; try done.
Qed.

Lemma requeued_row_step db r : row_ok db r → is_active (state r) = true → step_ok db r (requeued_row r).
Proof.
  intros Hr Ha. apply step_same; simpl; auto; try done; [by destruct (state r)|].
  destruct Hr as [[? ? ? ? ? ? ? ? ?] _ _ _ _ _]. split; simpl; try done.
Qed.

Lemma failed_row_step db now reason r : row_ok db r → is_active (state r) = true → step_ok db r (failed_row now reason r).
Proof.
  intros Hr Ha. apply step_same; simpl; auto; try done.
  destruct Hr as [[? ? ? ? ? [] ? ? Hdue] _ _ _ _ _]. split; simpl; try done. intros [Hd|[? ?]]; [|done]. apply Hdue. by left.
Qed.

(** The restore that is stored for a recovery. *)
Lemma restore_of_Ok operation snapshot source text :
  restore_of operation snapshot source = Ok text →
  ∃ o topology sandbox timeout, operation_parse operation = Ok o ∧ operation_sandbox o = Some sandbox ∧
    operation_parse text = Ok (OpRestore topology sandbox (as_str snapshot) timeout (Some (epoch_get source))).
Proof.
  unfold restore_of. intros Hrun. apply bind_Ok_inv in Hrun as (o & Ho%map_err_Ok & Hrun).
  destruct o; try done; apply map_err_Ok, operation_round_trip in Hrun; eauto 10.
Qed.

(** The operation of a row is about its sandbox. *)
Lemma row_operation_sandbox db r o sandbox :
  row_ok db r → operation_parse (row_operation r) = Ok o → operation_sandbox o = Some sandbox →
  sandbox = s_sandbox (submitted r).
Proof. intros [[] _ _ _ _ _] Ho Hs. destruct sh_operation0 as (o' & Ho' & _ & Hs'). congruence. Qed.

Lemma recovering_row_step db r restore topology sandbox snapshot timeout source now attempt worker w :
  row_ok db r → is_active (state r) = true → 0 ≤ now →
  operation_parse restore = Ok (OpRestore topology sandbox snapshot timeout (Some source)) →
  sandbox = s_sandbox (submitted r) → latest_snapshot (recovery r) = Some snapshot →
  (source_epoch (recovery r) = Some source ∨ row_epoch r = Some source) → stored_epoch source →
  attempt = recovery_attempts (recovery r) + 1 →
  on_some (λ n, recovery_attempts (recovery r) < n ≤ 10) (s_max_attempts (submitted r)) →
  is_Some (s_max_attempts (submitted r)) →
  row_worker r = Some worker → workers db !! worker = Some w → worker_state w = PwQuarantined →
  step_ok db r (recovering_row restore source now attempt (Some worker) r).
Proof.
  intros Hr Ha Hnow Hres -> Hlat Hsrc Hse -> Hlim [n Hn] Hw Hwk Hq. specialize (Hlim n Hn). cbv beta in Hlim.
  destruct Hr as [Hsh _ _ _ _ _]. split; simpl; try done.
  - by apply active_open.
  - by destruct (state r).
  - intros u [[=]|[= <-]]. by left.
  - intros e [[=]|[= <-]]. tauto.
  - destruct Hsh as [? Hworker ? ? ? [] Hatt ? Hdue]. split; simpl; try done; try (by apply on_some_None).
    + split; simpl; try done; try (by apply on_some_Some); try (by apply on_some_None).
      * apply on_some_Some. by apply Hworker.
      * apply on_some_Some. destruct (recovery_started (recovery r)) as [t|] eqn:Ht; [|done]. by apply (rc_started0).
      * lia.
    + rewrite Hn. apply on_some_Some. lia.
    + eexists. split; [exact Hres|]. done.
    + intros [Hd|[? ?]]; [|done]. apply Hdue. by left.
  - intros _. exists worker, w, snapshot, source, topology, (s_sandbox (submitted r)), timeout. by split_and!.
  - by intros v (_ & [=] & _).
Qed.

Lemma validate_recovery_bounds p : 
  validate_recovery p = Ok p → 1 ≤ maximum_attempts p ≤ 10 ∧ 1000 ≤ snapshot_interval_ms p ∧ 1000 ≤ maximum_staleness_ms p.
Proof. unfold validate_recovery. intros Hp. apply bind_Ok_inv in Hp as ([] & Hg%reject_if_Ok & _). lia. Qed.

(** How fencing resolves an active request. *)
Definition resolution (now : Z) (r r' : RequestRow) : Prop :=
  match state r' with
  | Expired => s_deadline (submitted r) ≤ now
  | Queued => now < s_deadline (submitted r) ∧ s_snapshot_interval (submitted r) = None
  | Recovering | RecoveryFailed => now < s_deadline (submitted r) ∧ is_Some (s_snapshot_interval (submitted r))
  | _ => False
  end.

(** What fencing an overdue row did. *)
Record fenced (now : Z) (r : RequestRow) (db db' : Db) (r' : RequestRow) : Prop := Fenced {
  fe_ok : db_ok db';
  fe_requests : requests db' = <[row_id r := r']> (requests db);
  fe_inactive : is_active (state r') = false;
  fe_submitted : submitted r' = submitted r;
  fe_worker : ∃ id w, row_worker r = Some id ∧ workers db !! id = Some w ∧
    workers db' = <[id := with_state PwQuarantined w]> (workers db);
  fe_state : resolution now r r'
}.

(** The end of a branch: the row is updated, and the audit is written. *)
Lemma fence_branch_Ok {A} id f (record : PlacementRecord Value) now event (x : A) db db' y r :
  db_ok db → (∀ r, submitted (f r) = submitted r) → requests db !! id = Some r → step_ok db r (f r) →
  (update_by_id id f;; append_audit record now event;; mret x) db = (db', Ok y) →
  db_ok db' ∧ requests db' = <[id := f r]> (requests db) ∧ workers db' = workers db.
Proof.
  intros Hok Hsub Hr Hst Hrun. apply M_bind_Ok_inv in Hrun as ([] & db1 & Hup & Hrun).
  apply M_bind_Ok_inv in Hrun as ([] & db2 & [row ->]%append_audit_Ok & [= <- _]).
  apply update_request_Ok in Hup as [-> _]; [|apply Hok|done]. rewrite (alter_insert _ _ _ r) by done.
  split; [|done]. apply audit_ok. by eapply insert_row_ok.
Qed.

Lemma queue_recovery_Ok r (previous : PlacementRecord Value) status snapshot now db db' rec id w :
  db_ok db → requests db !! row_id r = Some r → is_active (state r) = true → 0 ≤ now → describes r previous →
  describes_recovery r status → status_latest_snapshot status = Some snapshot →
  status_attempts status < maximum_attempts (status_policy status) →
  row_worker r = Some id → workers db !! id = Some w → worker_state w = PwQuarantined →
  queue_recovery r previous status snapshot now db = (db', Ok rec) →
  ∃ r', db_ok db' ∧ requests db' = <[row_id r := r']> (requests db) ∧ workers db' = workers db ∧
    state r' = Recovering ∧ submitted r' = submitted r.
Proof.
  intros Hok Hr Ha Hnow Hde Hds Hsn Hatt Hw Hwk Hq Hrun. unfold queue_recovery in Hrun.
  pose proof (ok_rows _ Hok _ _ Hr) as Hrow.
  apply M_bind_Ok_inv in Hrun as (source & db0 & [= <- Hsrc] & Hrun).
  assert (source_epoch (recovery r) = Some (epoch_get source) ∨ row_epoch r = Some (epoch_get source)) as Hsrc'.
  { rewrite <-(ds_source _ _ Hds), <-(de_epoch _ _ Hde). destruct (status_source_epoch status); [injection Hsrc as ->; by left|].
    apply ok_or_Ok in Hsrc. rewrite Hsrc. by right. }
  apply M_bind_Ok_inv in Hrun as (restore & db0 & [= <- Hres] & Hrun).
  apply map_err_Ok, restore_of_Ok in Hres as (o & topology & sandbox & timeout & Ho & Hsb & Hres).
  apply M_bind_Ok_inv in Hrun as (v & db0 & (-> & -> & Hmax)%to_i64_Ok & Hrun).
  rewrite (de_id _ _ Hde), (de_worker _ _ Hde), Hw, (ds_attempts _ _ Hds) in Hrun.
  pose proof (validate_recovery_bounds _ (ds_valid _ _ Hds)) as [Hlim _].
  eapply fence_branch_Ok in Hrun as (Hok' & Hreq & Hwks); [|done|done|done|].
  - eexists. split; [exact Hok'|]. split; [exact Hreq|]. split; [done|]. by split.
  - eapply recovering_row_step; try done.
    + exact (row_operation_sandbox _ _ _ _ Hrow Ho Hsb).
    + rewrite <-(ds_latest _ _ Hds), Hsn. done.
    + pose proof (epoch_range source). unfold stored_epoch. lia.
    + rewrite (ds_limit _ _ Hds). apply on_some_Some. rewrite <-(ds_attempts _ _ Hds). lia.
    + rewrite (ds_limit _ _ Hds). by eexists.
Qed.

Lemma recover_Ok r (previous : PlacementRecord Value) status now_unix_ms now db db' rec id w :
  db_ok db → requests db !! row_id r = Some r → is_active (state r) = true → 0 ≤ now → describes r previous →
  describes_recovery r status → row_worker r = Some id → workers db !! id = Some w → worker_state w = PwQuarantined →
  recover r previous status now_unix_ms now db = (db', Ok rec) →
  ∃ r', db_ok db' ∧ requests db' = <[row_id r := r']> (requests db) ∧ workers db' = workers db ∧
    (state r' = Recovering ∨ state r' = RecoveryFailed) ∧ submitted r' = submitted r.
Proof.
  intros Hok Hr Ha Hnow Hde Hds Hw Hwk Hq Hrun. unfold recover in Hrun. cbv zeta in Hrun.
  pose proof (ok_rows _ Hok _ _ Hr) as Hrow. rewrite (de_id _ _ Hde) in Hrun.
  destruct (status_latest_snapshot status) as [snapshot|] eqn:Hsn;
    [destruct (snapshot_fresh _ _ _); [destruct (Z.ltb_spec (status_attempts status) (maximum_attempts (status_policy status)))|]|].
  1: { eapply queue_recovery_Ok in Hrun as (r' & ? & ? & ? & ? & ?); try done. exists r'. split_and!; auto. }
  all: eapply fence_branch_Ok in Hrun as (Hok' & Hreq & Hwks); [|done|done|done|by apply failed_row_step];
    eexists; split; [exact Hok'|]; split; [exact Hreq|]; split; [done|]; split; [by right|done].
Qed.

(** The first step of fencing: the worker of the row is quarantined. *)
Lemma fence_worker_Ok r (previous : PlacementRecord Value) db db' u id w :
  db_ok db → describes r previous → row_worker r = Some id → workers db !! id = Some w →
  match record_worker previous with
  | Some worker => set_worker_state (as_str worker) (λ _, true) PwQuarantined;; mret tt
  | None => mret tt
  end db = (db', Ok u) →
  db_ok db' ∧ requests db' = requests db ∧ workers db' = <[id := with_state PwQuarantined w]> (workers db).
Proof.
  intros Hok Hde Hw Hwk Hset. pose proof (de_worker _ _ Hde) as Hrw. rewrite Hw in Hrw.
  destruct (record_worker previous) as [wid|]; [|done].
  injection Hrw as Hrw. rewrite Hrw in Hset. apply M_bind_Ok_inv in Hset as (n & db2 & Hset & [= <-]).
  split; [by eapply set_worker_state_ok in Hset; [apply Hset|done|done]|].
  apply update_worker_Ok in Hset as [(_ & w' & Hw' & _ & _ & ->)|(_ & _ & Hno)]; [by simplify_eq|by specialize (Hno w Hwk)].
Qed.

Lemma fence_row_Ok now_unix_ms now r db db' rec :
  db_ok db → requests db !! row_id r = Some r → is_active (state r) = true → 0 ≤ now →
  fence_row now_unix_ms now r db = (db', Ok rec) → ∃ r', fenced now r db db' r'.
Proof.
  intros Hok Hr Ha Hnow Hrun. unfold fence_row in Hrun.
  apply M_bind_Ok_inv in Hrun as (previous & db0 & [-> Hde]%read_record_Ok & Hrun).
  destruct (ro_active _ _ (ok_rows _ Hok _ _ Hr) Ha) as (id & e & x & Hw & He & Hx & Hep).
  destruct (ro_uses _ _ (ok_rows _ Hok _ _ Hr) id) as (w & Hwk & Hcl); [by left|].
  apply M_bind_Ok_inv in Hrun as ([] & db1 & Hset & Hrun).
  destruct (fence_worker_Ok _ _ _ _ _ _ _ Hok Hde Hw Hwk Hset) as (Hok1 & Hreq1 & Hwk1).
  apply M_bind_Ok_inv in Hrun as ([] & db2 & [row ->]%append_audit_Ok & Hrun).
  assert (db_ok (set_audit (audit db1 ++ [row]) db1)) as Hok2 by by apply audit_ok.
  set (db2 := set_audit _ _) in *. assert (requests db2 !! row_id r = Some r) as Hr2 by (simpl; by rewrite Hreq1).
  pose proof (ok_rows _ Hok2 _ _ Hr2) as Hrow2. rewrite (de_id _ _ Hde) in Hrun.
  assert (workers db2 !! id = Some (with_state PwQuarantined w)) as Hq by (simpl; rewrite Hwk1; apply lookup_insert_eq).
  destruct (Z.leb_spec (s_deadline (submitted r)) now) as [Hd|Hd].
  - eapply fence_branch_Ok in Hrun as (Hok' & Hreq & Hwks); [|done|done|done|by apply fenced_expired_step].
    eexists. split; [done|by rewrite Hreq; simpl; rewrite Hreq1|done|done| |done]. exists id, w. by rewrite Hwks.
  - pose proof (de_recovery _ _ Hde) as Hrec. destruct (record_recovery previous) as [status|].
    + eapply recover_Ok in Hrun as (r' & Hok' & Hreq & Hwks & Hst & Hsub); try done.
      exists r'. split; [done|by rewrite Hreq; simpl; rewrite Hreq1|by destruct Hst as [-> | ->]|done| |].
      * exists id, w. by rewrite Hwks.
      * unfold resolution. rewrite (ds_interval _ _ Hrec). destruct Hst as [-> | ->]; split; try done; by eexists.
    + eapply fence_branch_Ok in Hrun as (Hok' & Hreq & Hwks); [|done|done|done|by apply requeued_row_step].
      eexists. split; [done|by rewrite Hreq; simpl; rewrite Hreq1|done|done| |done]. exists id, w. by rewrite Hwks.
Qed.

(** Rows that do not share their identity are fenced one after the other. *)
Lemma fence_all_Ok now_unix_ms now rows : ∀ db db' l,
  db_ok db → 0 ≤ now → NoDup (row_id <$> rows) →
  (∀ r, r ∈ rows → requests db !! row_id r = Some r ∧ is_active (state r) = true) →
  fence_all now_unix_ms now rows db = (db', Ok l) →
  db_ok db' ∧ (∀ id, id ∉ row_id <$> rows → requests db' !! id = requests db !! id) ∧
  (∀ id w, workers db !! id = Some w → worker_state w = PwQuarantined →
     ∃ w', workers db' !! id = Some w' ∧ worker_state w' = PwQuarantined) ∧
  (∀ r, r ∈ rows → ∃ r' id w, requests db' !! row_id r = Some r' ∧ is_active (state r') = false ∧ resolution now r r' ∧
     row_worker r = Some id ∧ workers db' !! id = Some w ∧ worker_state w = PwQuarantined).
Proof.
  induction rows as [|r rows IH]; intros db db' l Hok Hnow Hnd Hin Hrun; cbn [fence_all] in Hrun.
  - injection Hrun as <- _. split; [done|]. split; [done|]. split; [by eauto|]. set_solver.
  - rewrite fmap_cons in Hnd. apply NoDup_cons in Hnd as [Hnotin Hnd].
    apply M_bind_Ok_inv in Hrun as (rec & db1 & Hrow & Hrun). apply M_bind_Ok_inv in Hrun as (rest & db2 & Hrun & [= <- _]).
    destruct (Hin r) as [Hr Ha]; [set_solver|].
    destruct (fence_row_Ok _ _ _ _ _ _ Hok Hr Ha Hnow Hrow) 
      as (r' & [Hok1 Hreq1 Hina _ (wid & w & Hrw & Hw & Hwk1) Hres]).
    edestruct IH as (Hok2 & Hout & Hstay & Hgone); [exact Hok1|done|exact Hnd| |exact Hrun|].
    { intros q Hq. rewrite Hreq1, lookup_insert_ne; [apply Hin; set_solver|].
      intros Heq. apply Hnotin. rewrite Heq. by apply list_elem_of_fmap_2. }
    split; [done|]. split_and!.
    + intros id Hid. rewrite Hout by set_solver. rewrite Hreq1, lookup_insert_ne by set_solver. done.
    + intros id v Hv Hq. destruct (decide (id = wid)) as [->|Hne].
      * eapply (Hstay wid); [rewrite Hwk1; apply lookup_insert_eq|done].
      * eapply Hstay; [|exact Hq]. by rewrite Hwk1, lookup_insert_ne.
    + intros q [->|Hq]%elem_of_cons; [|by apply Hgone].
      destruct (Hstay wid (with_state PwQuarantined w)) as (w' & Hw' & Hq'); [rewrite Hwk1; apply lookup_insert_eq|done|].
      exists r', wid, w'. rewrite Hout, Hreq1, lookup_insert_eq by done. done.
Qed.

(** The transaction of [fence_expired]: no row is left with a lease that is over. *)
Lemma fence_expired_Ok now db db' l :
  db_ok db → 0 ≤ now → fence_expired now db = (db', Ok l) →
  db_ok db' ∧ (∀ id r, requests db' !! id = Some r → lease_over now r = false) ∧
  (∀ id r, requests db !! id = Some r → lease_over now r = true →
     ∃ r' worker w, requests db' !! id = Some r' ∧ resolution now r r' ∧
       row_worker r = Some worker ∧ workers db' !! worker = Some w ∧ worker_state w = PwQuarantined).
Proof.
  intros Hok Hnow Hrun. unfold fence_expired in Hrun.
  apply M_bind_Ok_inv in Hrun as (now' & db0 & (-> & -> & _)%to_i64_Ok & Hrun). apply transaction_Ok in Hrun.
  apply M_bind_Ok_inv in Hrun as ([] & db1 & Hex & Hrun). pose proof (expire_queued_ok _ _ _ _ Hex Hok) as Hok1.
  apply M_bind_Ok_inv in Hrun as (rows & db2 & [= <- <-] & Hrun).
  edestruct fence_all_Ok as (Hok' & Hout & _ & Hgone); [exact Hok1|exact Hnow| | |exact Hrun|].
  - apply NoDup_rows_where, Hok1.
  - intros r [Hr Hov]%elem_of_rows_where; [|apply Hok1]. by apply andb_true_iff in Hov as [].
  - split; [done|]. split.
    2: { intros id r Hr Hov. assert (requests db1 !! id = Some r) as Hr1.
         { apply expire_queued_Ok in Hex as [l' ->]; [|apply Hok]. simpl. rewrite lookup_fmap, Hr. simpl. f_equal.
           unfold expire_row, expiring. apply andb_true_iff in Hov as [Ha _]. by destruct (state r). }
         pose proof (ok_ids _ Hok1 _ _ Hr1) as Hid. rewrite <-Hid in Hr1.
         destruct (Hgone r) as (r' & worker & w & Hr' & _ & Hrest); [by apply elem_of_rows_where; [apply Hok1|]|].
         rewrite Hid in Hr'. exists r', worker, w. done. }
    intros id r Hr. destruct (decide (id ∈ row_id <$> rows_where (lease_over now) db1)) as [Hid|Hid].
    + apply list_elem_of_fmap in Hid as (q & -> & Hq). destruct (Hgone _ Hq) as (r' & ? & ? & Hr' & Hina & _). simplify_eq.
      unfold lease_over. by rewrite Hina.
    + rewrite Hout in Hr by done. destruct (lease_over now r) eqn:Hov; [|done]. destruct Hid.
      pose proof (ok_ids _ Hok1 _ _ Hr) as <-. apply list_elem_of_fmap_2, elem_of_rows_where; [apply Hok1|done].
Qed.

(** *** Every call keeps the invariant *)

(** A completion that is accepted, of an assignment that still holds its request or of one that was completed the same way. *)
Lemma complete_inner_Ok config a digest response now db db' o :
  complete_inner config a digest response now db = (db', Ok o) →
  ∃ r (record : PlacementRecord Value), requests db !! assignment_request_id a = Some r ∧ describes r record ∧
    match o with
    | AlreadyPublished => db' = db ∧ (state r = Serving ∨ state r = Completed) ∧ result_digest (outcome r) = Some digest
    | Published => state r = Assigned ∧ row_worker r = Some (as_str (assignment_worker a)) ∧
        row_epoch r = Some (epoch_get (assignment_epoch a)) ∧ on_some (λ e, now < e) (lease_expires r) ∧
        publish config a record digest response now db = (db', Ok tt)
    end.
Proof.
  intros Hrun. unfold complete_inner in Hrun. apply M_bind_Ok_inv in Hrun as ([] & db0 & [= <- _] & Hrun).
  apply M_bind_Ok_inv in Hrun as (n & db0 & (-> & -> & _)%to_i64_Ok & Hrun). apply transaction_Ok in Hrun.
  apply M_bind_Ok_inv in Hrun as (found & db0 & [= <- <-] & Hrun).
  apply M_bind_Ok_inv in Hrun as (r & db0 & [= <- Hr] & Hrun). apply ok_or_Ok in Hr.
  apply M_bind_Ok_inv in Hrun as (record & db0 & [-> Hde]%read_record_Ok & Hrun). exists r, record. split; [done|]. split; [done|].
  rewrite (de_state _ _ Hde), (de_digest _ _ Hde) in Hrun. destruct (_ || _) eqn:Hp.
  - destruct (bool_decide_reflect (result_digest (outcome r) = Some digest)) as [Hd|]; [|discriminate].
    injection Hrun as <- <-. rewrite orb_true_iff, !bool_decide_eq_true in Hp. done.
  - apply M_bind_Ok_inv in Hrun as ([] & db0 & [= <- Hst] & Hrun).
    apply M_bind_Ok_inv in Hrun as ([] & db1 & Hpub & [= <- <-]).
    destruct (stale_completion a now record) eqn:Hstale; [done|]. unfold stale_completion in Hstale.
    rewrite !orb_false_iff, !negb_false_iff, !bool_decide_eq_true in Hstale. destruct Hstale as [[[Hs Hw] He] Hx].
    rewrite <-(de_state _ _ Hde), <-(de_worker _ _ Hde), <-(de_epoch _ _ Hde), <-(de_expires _ _ Hde), Hw, He.
    split_and!; try done. intros x Hx'. rewrite Hx' in Hx. lia.
Qed.

Lemma complete_inner_ok config a digest response now db db' o :
  db_ok db → 0 ≤ now → 0 ≤ lease_lifetime config →
  (∀ text (rs : WorkloadResponse Value), response = Some (text, rs) → response_text rs = Ok text) →
  complete_inner config a digest response now db = (db', Ok o) → db_ok db'.
Proof.
  intros Hok Hnow Hlife Hresp (r & record & Hr & Hde & Ho)%complete_inner_Ok.
  destruct o; [|by destruct Ho as [-> _]]. destruct Ho as (Hs & Hw & _ & _ & Hpub).
  exact (publish_ok _ _ _ _ _ _ _ _ _ _ Hok Hnow Hlife Hr Hde Hs Hw Hresp Hpub).
Qed.

Lemma millis_nonneg d : 0 ≤ d → 0 ≤ as_millis d.
Proof. intros Hd. unfold as_millis. apply Z.div_pos; lia. Qed.

Lemma assign_next_ok config worker now db db' o :
  ¬ quiet → db_ok db → 0 ≤ now → 0 ≤ lease_lifetime config → assign_next config worker now db = (db', Ok o) → db_ok db'.
Proof.
  intros Hloud Hok Hnow Hlife%millis_nonneg Hrun. pose proof (assign_next_run _ _ _ _ _ _ (ok_ids _ Hok) Hrun) as Hcase.
  destruct o as [a|].
  - destruct Hcase as (w & r & l & [Hw Hav _ Hnext Hg]).
    assert (db_ok (after_expiry now l db)) as Hok1 by by apply after_expiry_ok.
    destruct (next_candidate_Some _ _ _ _ (ok_ids _ Hok1) Hnext) as (Hr & Hc & _).
    unfold available in Hav. apply andb_true_iff in Hav as [Hcl%bool_decide_eq_true _].
    eapply (granted_ok worker w r now (now + as_millis (lease_lifetime config))); try done; [by eapply candidate_assignable|lia].
  - destruct Hcase as (w & l & -> & _). by apply after_expiry_ok.
Qed.

Lemma set_tenant_policy_ok config tenant w c q : advances keeps_ok (set_tenant_policy config tenant w c q).
Proof.
  intros db db' u Hrun Hok. unfold set_tenant_policy in Hrun.
  apply M_bind_Ok_inv in Hrun as ([] & db0 & [= <- Hg] & [= <- _]). apply policies_ok; [done|]. simpl.
  destruct (_ || _) eqn:Hb in Hg; [done|]. rewrite !orb_false_iff, negb_false_iff in Hb. lia.
Qed.

Lemma ensure_tenant_ok config tenant : 
  advances keeps_ok (ensure_tenant config tenant).
Proof.
  intros db db' u [= <- _] Hok. case_bool_decide; [done|]. apply policies_ok; [done|]. simpl. lia.
Qed.

Lemma enqueue_ok config sub now : advances keeps_ok (enqueue config sub now).
Proof.
  intros db db' o Hrun Hok. unfold enqueue in Hrun.
  apply M_bind_Ok_inv in Hrun as ([] & db0 & [= <- Hval] & Hrun). apply map_err_Ok in Hval.
  apply M_bind_Ok_inv in Hrun as (text & db0 & [= <- Htext] & Hrun). apply map_err_Ok, map_err_Ok in Htext.
  apply M_bind_Ok_inv in Hrun as (x & db0 & [= <- Hx] & Hrun). apply map_err_Ok in Hx.
  apply M_bind_Ok_inv in Hrun as ([] & db0 & Hp & Hrun).
  assert (db0 = db) as -> by (eapply pure_Ok; [|exact Hp]; case_match; auto with pure).
  apply M_bind_Ok_inv in Hrun as (n & db0 & (-> & -> & _)%to_i64_Ok & Hrun).
  apply M_bind_Ok_inv in Hrun as (deadline & db0 & (-> & -> & _)%to_i64_Ok & Hrun). apply transaction_Ok in Hrun.
  apply M_bind_Ok_inv in Hrun as ([] & db1 & Hten & Hrun). pose proof (ensure_tenant_ok _ _ _ _ _ Hten Hok) as Hok1.
  apply M_bind_Ok_inv in Hrun as (existing & db2 & Hq & Hrun). pose proof (pure_Ok _ _ _ _ (query_opt_pure _) Hq) as ->.
  destruct existing as [row|].
  - apply M_bind_Ok_inv in Hrun as (record & db3 & [-> _]%read_record_Ok & [= <- _]). done.
  - exact (admit_submission_ok _ _ _ _ _ _ _ Hval Htext Hx _ _ _ Hrun Hok1).
Qed.

Lemma activations_ok db l n : db_ok db → db_ok (set_activations l n db).
Proof. intros Hok. eapply db_ok_tables; try done; try apply Hok; try reflexivity. intros id w Hw. exists w. by auto. Qed.
Lemma autoscale_ok db m : db_ok db → db_ok (set_autoscale m db).
Proof. intros Hok. eapply db_ok_tables; try done; try apply Hok; try reflexivity. intros id w Hw. exists w. by auto. Qed.

Lemma transaction_advances {A} (c : Tx A) : advances keeps_ok c → advances keeps_ok (transaction c).
Proof. intros Hc db db' a Hrun%transaction_Ok. by eapply Hc. Qed.

(** Calls that read, and write the workers and the tables that no row refers to. *)
Ltac advancing :=
  repeat match goal with
  | |- advances keeps_ok _ => solve [apply advances_pure; [apply _|auto 3 with pure]]
  | |- advances keeps_ok (_ ≫= _) => apply advances_bind; [apply _| |intros ?]
  | |- advances keeps_ok (let _ := _ in _) => progress cbv zeta
  | |- advances keeps_ok (transaction _) => apply transaction_advances
  | |- advances keeps_ok (match ?x with _ => _ end) => destruct x
  | |- advances keeps_ok (M_modify _) => apply advances_modify; intros ? ?; by auto using activations_ok, autoscale_ok
  | |- advances keeps_ok (update_worker _ _ (with_heartbeat _)) => apply update_worker_ok; by left
  | |- advances keeps_ok (set_worker_state _ (worker_in _) PwDraining) =>
      apply set_worker_state_ok; [done|unfold worker_in; intros ? Hp%bool_decide_eq_true Hq; rewrite Hq in Hp; set_solver]
  end; auto using expire_queued_ok.

Lemma drain_all_ok ids : advances keeps_ok (drain_all ids).
Proof. induction ids as [|id ids IH]; cbn [drain_all]; advancing. Qed.

Lemma simple_calls_ok config :
  (∀ r now, advances keeps_ok (register_worker config r now)) ∧
  (∀ worker, advances keeps_ok (drain_worker worker)) ∧
  (∀ workers, advances keeps_ok (drain_workers_if_clean workers)) ∧
  (∀ pool current quota policy now, advances keeps_ok (reconcile_pool config pool current quota policy now)) ∧
  (∀ pool target now, advances keeps_ok (record_scale_up pool target now)) ∧
  (∀ pool desired ready now, advances keeps_ok (observe_pool_activation pool desired ready now)).
Proof.
  split_and!; intros.
  - unfold register_worker. advancing. apply upsert_worker_ok.
  - unfold drain_worker. advancing.
  - unfold drain_workers_if_clean. advancing. apply drain_all_ok.
  - unfold reconcile_pool. advancing.
  - unfold record_scale_up. advancing.
  - unfold observe_pool_activation. advancing.
Qed.

Lemma renewed_ok p expires :
  (∀ r, p r = true → is_active (state r) = true) → 0 ≤ expires → advances keeps_ok (update_where p (with_lease (Some expires))).
Proof. intros Hp Hx. apply update_where_ok; [done|]. intros db r Hr Hpr. apply with_lease_step; auto. Qed.

Lemma heartbeat_worker_ok config worker now :
  0 ≤ now → 0 ≤ lease_lifetime config → advances keeps_ok (heartbeat_worker config worker now).
Proof.
  intros Hnow Hlife%millis_nonneg db db' u Hrun. unfold heartbeat_worker in Hrun.
  apply M_bind_Ok_inv in Hrun as (n & db0 & (-> & -> & _)%to_i64_Ok & Hrun).
  apply M_bind_Ok_inv in Hrun as (lifetime & db0 & (-> & ->)%duration_millis_Ok & Hrun).
  apply M_bind_Ok_inv in Hrun as (expires & db0 & (-> & -> & _)%add_i64_Ok & Hrun).
  revert Hrun. match goal with |- ?c db = _ → _ => enough (advances keeps_ok c) as Hc by apply Hc end.
  advancing. apply renewed_ok; [|lia]. intros r [[_ Hs%bool_decide_eq_true]%andb_true_iff _]%andb_true_iff. by rewrite Hs.
Qed.

Lemma renew_ok config a now : 0 ≤ now → 0 ≤ lease_lifetime config → advances keeps_ok (renew config a now).
Proof.
  intros Hnow Hlife%millis_nonneg db db' u Hrun. unfold renew in Hrun.
  apply M_bind_Ok_inv in Hrun as (n & db0 & (-> & -> & _)%to_i64_Ok & Hrun).
  apply M_bind_Ok_inv in Hrun as (lifetime & db0 & (-> & ->)%duration_millis_Ok & Hrun).
  apply M_bind_Ok_inv in Hrun as (expires & db0 & (-> & -> & _)%add_i64_Ok & Hrun).
  revert Hrun. match goal with |- ?c db = _ → _ => enough (advances keeps_ok c) as Hc by apply Hc end.
  advancing. apply renewed_ok; [|lia]. intros r [_ Hs%bool_decide_eq_true]%andb_true_iff. by rewrite Hs.
Qed.

Lemma complete_response_Ok config a response now db db' o :
  complete_response config a response now db = (db', Ok o) →
  ∃ text, response_text response = Ok text ∧
    complete_inner config a ("sha256:" +:+ sha256_hex (bytes text)) (Some (text, response)) now db = (db', Ok o).
Proof.
  intros Hrun. unfold complete_response in Hrun. apply M_bind_Ok_inv in Hrun as ([] & db0 & [= <- _] & Hrun).
  apply M_bind_Ok_inv in Hrun as (text & db0 & [= <- Htext] & Hrun). apply map_err_Ok, map_err_Ok in Htext.
  apply M_bind_Ok_inv in Hrun as ([] & db0 & [= <- _] & Hrun). by exists text.
Qed.

Lemma complete_response_ok config a response now :
  0 ≤ now → 0 ≤ lease_lifetime config → advances keeps_ok (complete_response config a response now).
Proof.
  intros Hnow Hlife db db' o (text & Htext & Hrun)%complete_response_Ok Hok.
  eapply complete_inner_ok; [done|exact Hnow|done| |exact Hrun]. by intros ? ? [= <- <-].
Qed.

(** The calls at times and with settings that unsigned integers hold. *)
Definition op_time (o : StoreOp (Value := Value)) : Z :=
  match o with
  | DoSetPolicy _ _ _ _ | DoDrain _ | DoDrainClean _ => 0
  | DoEnqueue _ now | DoRegister _ now | DoHeartbeat _ now | DoQuarantine _ now | DoConfirmFence _ now
  | DoReconcile _ _ _ _ now | DoRecordScaleUp _ _ now | DoObserve _ _ _ now | DoAssign _ now | DoRenew _ now
  | DoComplete _ _ now | DoCompleteResponse _ _ now | DoCancel _ _ _ now | DoClaim now _ | DoPublishCheckpoint _ now
  | DoFence now => now
  end.

Lemma atomic_keeps {A} (c : Tx A) : atomic c → advances keeps_ok c → keeps keeps_ok c.
Proof.
  intros Ha Hc db. destruct (c db) as [db' [a|e]] eqn:Hrun; simpl; [by eapply Hc|]. rewrite (Ha _ _ _ Hrun). by intros ?.
Qed.

Lemma complete_inner_atomic config a digest response now : atomic (complete_inner config a digest response now).
Proof. unfold complete_inner. atomically. Qed.

Lemma fence_expired_atomic now : atomic (fence_expired now).
Proof. unfold fence_expired. atomically. Qed.

Lemma fence_expired_keeps now : 0 ≤ now → keeps keeps_ok (fence_expired now).
Proof. intros Hnow. apply atomic_keeps; [apply fence_expired_atomic|]. intros db db' l Hrun Hok. by eapply fence_expired_Ok. Qed.

Lemma quarantine_worker_keeps worker now : 0 ≤ now → keeps keeps_ok (quarantine_worker worker now).
Proof.
  intros Hnow db. unfold quarantine_worker. cbv zeta. unfold mbind at 1, M_bind at 1.
  destruct (to_i64 now db) as [db0 [n|e]] eqn:Hto.
  2: { pose proof (to_i64_pure now db) as Hp. rewrite Hto in Hp. simpl in *. subst. by intros ?. }
  apply to_i64_Ok in Hto as (-> & -> & _).
  match goal with |- keeps_ok _ (?c db).1 => enough (keeps keeps_ok c) as Hc by apply Hc end.
  apply keeps_bind; [apply _| |intros _; apply keeps_bind; [apply _|by apply fence_expired_keeps|intros _; apply keeps_ret, _]].
  apply transaction_keeps; [apply _|]. apply advances_bind; [apply _|by apply set_worker_state_ok|intros updated].
  apply advances_bind; [apply _|apply reject_advances, _|intros _]. apply advances_bind; [apply _|by intros ? ? ? [= <- _]|intros rows].
  apply advances_bind; [apply _|apply (audit_loop_ok id)|intros _].
  apply update_where_ok; [done|]. intros d r Hr [_ Ha]%andb_true_iff. apply with_lease_step; [done|done|].
  pose proof (sh_lease _ (ro_shape _ _ Hr)) as Hl. destruct (lease_expires r) as [x|]; simpl; [|lia].
  specialize (Hl x eq_refl). unfold stored_time in Hl. lia.
Qed.

(** Every call either runs to its end or leaves the tables as they were. *)
Ltac atomic_call := lazymatch goal with
  | |- atomic (set_tenant_policy _ _ _ _ _) => unfold set_tenant_policy
  | |- atomic (enqueue _ _ _) => unfold enqueue
  | |- atomic (register_worker _ _ _) => unfold register_worker
  | |- atomic (heartbeat_worker _ _ _) => unfold heartbeat_worker
  | |- atomic (drain_worker _) => unfold drain_worker
  | |- atomic (drain_workers_if_clean _) => unfold drain_workers_if_clean
  | |- atomic (confirm_recovery_fence _ _) => unfold confirm_recovery_fence
  | |- atomic (reconcile_pool _ _ _ _ _ _) => unfold reconcile_pool
  | |- atomic (record_scale_up _ _ _) => unfold record_scale_up
  | |- atomic (observe_pool_activation _ _ _ _) => unfold observe_pool_activation
  | |- atomic (assign_next _ _ _) => unfold assign_next
  | |- atomic (cancel _ _ _ _) => unfold cancel
  | |- atomic (claim_due_checkpoints _ _ _) => unfold claim_due_checkpoints
  | |- atomic (publish_checkpoint _ _) => unfold publish_checkpoint
  | |- atomic (complete _ _ _ _) => unfold complete, complete_inner
  | |- atomic (complete_response _ _ _ _) => unfold complete_response, complete_inner
  end; atomically.

Lemma publish_checkpoint_atomic c now : atomic (publish_checkpoint c now).
Proof. atomic_call. Qed.

Lemma complete_response_atomic config a response now : atomic (complete_response config a response now).
Proof. atomic_call. Qed.

Lemma renew_atomic config a now : atomic (renew config a now).
Proof.
  unfold renew. do 4 (apply atomic_bind; [auto with pure|intros ?]). apply atomic_then; [apply atomic_transaction|done].
Qed.

Definition assigns_op (o : StoreOp (Value := Value)) : bool := match o with DoAssign _ _ => true | _ => false end.
Definition confirms_op (o : StoreOp (Value := Value)) (w : string) : Prop :=
  match o with DoConfirmFence worker _ => as_str worker = w | _ => False end.

(** The calls that the history so far allows. *)
Record allowed (o : StoreOp (Value := Value)) : Prop := Allowed {
  al_time : 0 ≤ op_time o;
  al_assign : quiet → assigns_op o = false;
  al_confirm w : confirms_op o w → confirms w
}.

Lemma run_op_ok config db o : 0 ≤ lease_lifetime config → allowed o → db_ok db → db_ok (run_op config db o).
Proof.
  intros Hlife [Hnow Has Hco]. pose proof (simple_calls_ok config) as (Hreg & Hdr & Hdc & Hrec & Hsc & Hob).
  destruct o; cbn [run_op op_time] in *;
    match goal with |- _ → db_ok (?f db).1 => enough (keeps keeps_ok f) as Hk by apply Hk end;
    try (by apply quarantine_worker_keeps); try (by apply fence_expired_keeps);
    (apply atomic_keeps; [try atomic_call; auto using renew_atomic|]);
    auto using set_tenant_policy_ok, enqueue_ok, heartbeat_worker_ok, renew_ok, complete_response_ok;
    intros db1 db2 x Hrun Hok.
  - refine (confirm_recovery_fence_ok _ _ _ _ _ _ Hok Hrun). by apply Hco.
  - refine (assign_next_ok _ _ _ _ _ _ _ Hok Hnow Hlife Hrun). by intros ?%Has.
  - refine (complete_inner_ok _ _ _ _ _ _ _ _ Hok Hnow Hlife _ Hrun). discriminate.
  - by eapply cancel_ok.
  - by eapply claim_due_checkpoints_ok.
  - exact (publish_checkpoint_ok _ _ _ _ _ Hok Hnow Hrun).
Qed.

Lemma run_ops_ok config ops : ∀ db,
  0 ≤ lease_lifetime config → Forall allowed ops → db_ok db → db_ok (run_ops config ops db).
Proof.
  induction ops as [|o ops IH]; intros db Hlife Hops Hok; [done|]. apply Forall_cons in Hops as [Ho Hops]. simpl.
  apply IH; [done|done|]. by apply run_op_ok.
Qed.
End invariant.

(** ** The invariant of a state *)

Section store.
Context {Value : Type} `{!StoreCodec Value, !StoreCodecLaws Value}.

Definition nobody : string → Prop := λ _, False.
Definition store_ok (db : Db) : Prop := db_ok db False nobody db.

Lemma since_refl quiet confirms db : since db quiet confirms (requests db).
Proof. split; eauto. Qed.

Lemma db_ok_rebase base quiet confirms db base' quiet' confirms' :
  db_ok base quiet confirms db → since base' quiet' confirms' (requests db) → db_ok base' quiet' confirms' db.
Proof. intros [? ? ? ? ? ? ? _] Hs. by split. Qed.

Lemma store_ok_from quiet confirms db : store_ok db → db_ok db quiet confirms db.
Proof. intros Hok. eapply db_ok_rebase; [exact Hok|apply since_refl]. Qed.
Lemma db_ok_store base quiet confirms db : db_ok base quiet confirms db → store_ok db.
Proof. intros Hok. eapply db_ok_rebase; [exact Hok|apply since_refl]. Qed.

Lemma empty_store_ok : store_ok empty_db.
Proof.
  split; try apply map_Forall_empty; try apply since_refl; intros *; simpl; rewrite lookup_empty; discriminate.
Qed.

(** What the calls of a history did, seen from the state before it. *)
Lemma history_ok config ops db quiet confirms :
  0 ≤ lease_lifetime config → store_ok db → Forall (allowed quiet confirms) ops →
  db_ok db quiet confirms (run_ops config ops db).
Proof. intros Hlife Hok Hops. apply run_ops_ok; [apply _|done|done|]. by apply store_ok_from. Qed.

Definition timely (o : StoreOp (Value := Value)) : Prop := 0 ≤ op_time o.
Definition confirmed_in (ops : list (StoreOp (Value := Value))) (w : string) : Prop := ∃ o, o ∈ ops ∧ confirms_op o w.

Lemma timely_allowed ops : Forall timely ops → Forall (allowed False (confirmed_in ops)) ops.
Proof.
  intros Hops. apply Forall_forall. intros o Ho. split; [|by intros []|by exists o].
  by apply (proj1 (Forall_forall _ _) Hops).
Qed.

Lemma assign_store_ok config worker now db db' o :
  0 ≤ lease_lifetime config → 0 ≤ now → store_ok db → assign_next config worker now db = (db', Ok o) → store_ok db'.
Proof.
  intros Hlife Hnow Hok Hrun. eapply (db_ok_store db False nobody), (assign_next_ok _ False); [by intros []|exact Hok|exact Hnow|exact Hlife|exact Hrun].
Qed.

Lemma history_store_ok config ops db :
  0 ≤ lease_lifetime config → store_ok db → Forall timely ops → store_ok (run_ops config ops db).
Proof. intros Hlife Hok Hops. eapply db_ok_store, history_ok; [done|done|]. by apply timely_allowed. Qed.
End store.
