(* ===== verification/PlacementProgress.v ===== *)
(** * Calls of the placement store that cannot fail

    In the states that the store reaches every row decodes, and fencing the
    requests whose leases are over always succeeds. *)
From S2P Require Import Prelude Identity Lease FairQueue GuestProfile Volume Network Topology Snapshot WorkOrder.
From S2P Require Import Autoscale Protocol Placement PlacementProofs PlacementInvariant.
Import WorkOrder.WorkOrder Protocol.Protocol Placement.Placement.

(** A stored operation that starts a sandbox encodes as a restore too. *)
Class RestoreEncodes (Value : Type) `{StoreCodec Value} : Prop :=
  restore_encodes text o (snapshot : SnapshotId) (source : AssignmentEpoch) :
    operation_parse text = Ok o → starts_sandbox o = true → is_ok (restore_of text snapshot source) = true.

(** *** Results that are not errors *)

Lemma is_ok_bind {E A B} (r : result E A) (f : A → result E B) :
  is_ok r = true → (∀ a, r = Ok a → is_ok (f a) = true) → is_ok (r ≫= f) = true.
Proof. destruct r as [a|e]; [|done]. intros _ Hf. by apply Hf. Qed.
Lemma is_ok_map_err {E F A} (g : E → F) (r : result E A) : is_ok (map_err g r) = is_ok r.
Proof. by destruct r. Qed.
Lemma is_ok_reject {E} (b : bool) (e : E) : b = false → is_ok (reject_if b e) = true.
Proof. by intros ->. Qed.
Lemma is_ok_optional {E A B} (f : A → result E B) o : on_some (λ a, is_ok (f a) = true) o → is_ok (optional f o) = true.
Proof. destruct o as [a|]; [|done]. intros Ho. cbn [optional]. apply is_ok_bind; [by apply Ho|done]. Qed.

Lemma parse_named {kind maximum} s : named kind maximum s → is_ok (parse_id (kind := kind) (maximum := maximum) s) = true.
Proof. intros [i <-]. unfold parse_id. by rewrite parse_as_str. Qed.

Lemma nonnegative_total v name : 0 ≤ v → is_ok (nonnegative_u64 v name) = true.
Proof. intros Hv. unfold nonnegative_u64. apply is_ok_bind; [apply is_ok_reject; lia|done]. Qed.

Lemma to_u8_total message v : 0 ≤ v ≤ 255 → is_ok (to_u8 message v) = true.
Proof. intros Hv. unfold to_u8. apply is_ok_bind; [apply is_ok_reject; lia|done]. Qed.

Lemma epoch_new_total v : stored_epoch v → is_ok (epoch_new v) = true.
Proof.
  intros Hv. unfold epoch_new. destruct (decide _) as [|Hno]; [done|]. destruct Hno.
  unfold epoch_accepted, stored_epoch, i64_max, u64_max in *. lia.
Qed.

Lemma positive_epoch_total v : stored_epoch v → is_ok (positive_epoch v) = true.
Proof.
  intros Hv. apply is_ok_bind; [apply nonnegative_total; unfold stored_epoch in Hv; lia|].
  intros u [-> _]%nonnegative_Ok. rewrite is_ok_map_err. by apply epoch_new_total.
Qed.

Lemma optional_named {kind maximum} o :
  on_some (named kind maximum) o → is_ok (optional (parse_id (kind := kind) (maximum := maximum)) o) = true.
Proof. intros Ho. apply is_ok_optional. intros s ->. by apply parse_named, Ho. Qed.

Lemma optional_time o name : on_some stored_time o → is_ok (optional_nonnegative_u64 o name) = true.
Proof. intros Ho. apply is_ok_optional. intros v ->. by apply nonnegative_total, Ho. Qed.

Section records.
Context {Value : Type} `{!StoreCodec Value}.

Lemma recovery_from_row_total r interval :
  shape_ok r → s_snapshot_interval (submitted r) = Some interval → is_ok (recovery_from_row r interval) = true.
Proof.
  intros [Hsub _ _ _ _ [Hla Hat Hso Hfe Hst Hre Hatt] _ _ _] Hi. pose proof (so_policy _ Hsub) as Hpol. unfold policy_ok in Hpol.
  rewrite Hi in Hpol. destruct Hpol as (p & Hp & -> & Hs & Hn). pose proof (validate_recovery_bounds _ Hp) as (Hn' & Hi' & Hst').
  unfold recovery_from_row, or_reject, column, expect. rewrite Hs, Hn. cbn [ok_or mbind result_bind].
  apply is_ok_bind; [by rewrite is_ok_map_err; apply optional_named|intros latest _].
  apply is_ok_bind; [rewrite is_ok_map_err; apply is_ok_optional; intros v Hv; by apply positive_epoch_total, Hso|intros source _].
  apply is_ok_bind; [rewrite is_ok_map_err; apply nonnegative_total; lia|intros i [-> _]%map_err_Ok%nonnegative_Ok].
  apply is_ok_bind; [rewrite is_ok_map_err; apply nonnegative_total; lia|intros t [-> _]%map_err_Ok%nonnegative_Ok].
  apply is_ok_bind; [rewrite is_ok_map_err; apply to_u8_total; lia|intros n [-> _]%map_err_Ok%to_u8_Ok].
  destruct p as [pi ps pn]. simpl in *. rewrite Hp. cbn [map_err mbind result_bind].
  apply is_ok_bind; [by rewrite is_ok_map_err; apply optional_time|intros latest_at _].
  apply is_ok_bind; [by rewrite is_ok_map_err; apply optional_named|intros fence _].
  apply is_ok_bind; [by rewrite is_ok_map_err; apply optional_time|intros started _].
  apply is_ok_bind; [by rewrite is_ok_map_err; apply optional_time|intros recovered _].
  by apply is_ok_bind; [rewrite is_ok_map_err; apply to_u8_total|].
Qed.

(** Rows of the invariant's shape decode. *)
Lemma record_from_row_total r : shape_ok r → is_ok (record_from_row r) = true.
Proof.
  intros Hsh. pose proof Hsh as [[Hten Hws Hsb Hsubj _ _] Hwo Hep Hle Hre _ _ _ _]. unfold record_from_row, or_reject.
  apply is_ok_bind; [by rewrite is_ok_map_err; apply optional_named|intros worker _].
  apply is_ok_bind.
  { rewrite is_ok_map_err. apply is_ok_optional. intros e He. specialize (Hep e He). unfold epoch_column.
    apply is_ok_bind; [apply is_ok_reject; unfold stored_epoch in Hep; lia|intros _ _]. rewrite is_ok_map_err. by apply epoch_new_total. }
  intros epoch _. apply is_ok_bind.
  { rewrite is_ok_map_err. apply is_ok_optional. intros e He. specialize (Hle e He). unfold stored_time in Hle.
    apply is_ok_bind; [apply is_ok_reject; lia|done]. }
  intros expiry _. apply is_ok_bind.
  { destruct (s_snapshot_interval (submitted r)) as [i|] eqn:Hi; [|done].
    apply is_ok_bind; [by apply recovery_from_row_total|done]. }
  intros recovery _. apply is_ok_bind; [by rewrite is_ok_map_err; apply parse_named|intros tenant _].
  apply is_ok_bind; [by rewrite is_ok_map_err; apply parse_named|intros workspace _].
  apply is_ok_bind; [by rewrite is_ok_map_err; apply parse_named|intros sandbox _].
  apply is_ok_bind; [by rewrite is_ok_map_err; apply parse_named|intros subject _].
  apply is_ok_bind; [|done]. rewrite !is_ok_map_err. by apply is_ok_optional.
Qed.
End records.

(** *** Calls that succeed *)

Definition succeeds {A} (c : Tx A) (db : Db) : Prop := ∃ db' a, c db = (db', Ok a).

Lemma succeeds_bind {A B} (c : Tx A) (f : A → Tx B) db :
  succeeds c db → (∀ db' a, c db = (db', Ok a) → succeeds (f a) db') → succeeds (c ≫= f) db.
Proof. intros (db' & a & Hc) Hf. destruct (Hf _ _ Hc) as (db2 & b & Hb). exists db2, b. unfold mbind, M_bind. by rewrite Hc. Qed.
Lemma succeeds_ret {A} (a : A) db : succeeds (mret a) db.
Proof. by exists db, a. Qed.
Lemma succeeds_modify f db : succeeds (M_modify f) db.
Proof. by exists (f db), tt. Qed.
Lemma succeeds_lift {A} (r : result _ A) db : is_ok r = true → succeeds (M_lift r) db.
Proof. destruct r as [a|]; [|done]. intros _. by exists db, a. Qed.
Lemma succeeds_store_lift {A} (r : result PlacementStoreError A) db : is_ok r = true → succeeds (lift r) db.
Proof. intros Hr. apply succeeds_lift. by rewrite is_ok_map_err. Qed.
Lemma succeeds_reads {A} (f : Db → A) db : succeeds (reads f) db.
Proof. by exists db, (f db). Qed.
Lemma succeeds_to_i64 v db : v ≤ i64_max → succeeds (to_i64 v) db.
Proof. intros Hv. unfold to_i64. rewrite (proj2 (Z.leb_le _ _) Hv). apply succeeds_ret. Qed.
Lemma succeeds_transaction {A} (c : Tx A) db : succeeds c db → succeeds (transaction c) db.
Proof. intros (db' & a & Hc). exists db', a. unfold transaction. by rewrite Hc. Qed.

Section progress.
Context {Value : Type} `{!StoreCodec Value, !StoreCodecLaws Value, !RestoreEncodes Value}.
Context (base : Db) (quiet : Prop) (confirms : string → Prop).
#[local] Abbreviation db_ok := (db_ok base quiet confirms).
#[local] Abbreviation step_ok := (step_ok confirms).

Lemma step_fits db id r r' : db_ok db → requests db !! id = Some r → step_ok db r r' → request_fits db r' = true.
Proof.
  intros Hok Hr Hst. pose proof (step_row_ok _ _ _ _ (ok_rows _ _ _ _ Hok _ _ Hr) Hst) as [Hsh Hpol Hus _ _ _].
  pose proof (ok_ids _ _ _ _ Hok _ _ Hr) as Hid. assert (row_id r' = id) as Hid' by (unfold row_id; by rewrite (st_submitted _ _ _ _ Hst)).
  unfold request_fits. rewrite !andb_true_iff, forallb_forall. split_and!.
  - pose proof (so_finish _ (sh_submitted _ Hsh)). lia.
  - by apply bool_decide_eq_true.
  - destruct (row_worker r') as [w|] eqn:Hw; [|done]. destruct (Hus w) as (wr & Hwr & _); [by left|].
    apply bool_decide_eq_true. by eexists.
  - intros [k q] Hq. rewrite <-list_elem_of_In, elem_of_map_to_list in Hq. apply orb_true_iff.
    destruct (decide (k = id)) as [->|Hne]; [left; by apply bool_decide_eq_true|right].
    eapply step_compatible; [exact Hst|]. eapply (ok_compatible _ _ _ _ Hok); [exact Hr|exact Hq|done].
Qed.

Lemma update_succeeds db r f :
  db_ok db → requests db !! row_id r = Some r → step_ok db r (f r) → succeeds (update_by_id (row_id r) f) db.
Proof.
  intros Hok Hr Hst. unfold update_by_id, update_request, succeeds, write_request. rewrite Hr.
  rewrite (step_fits _ _ _ _ Hok Hr Hst). by eexists _, _.
Qed.

Lemma set_state_succeeds db id p s : db_ok db → succeeds (set_worker_state id p s) db.
Proof.
  intros Hok. unfold set_worker_state, update_worker, succeeds. destruct (workers db !! id) as [w|] eqn:Hw; [|by eexists _, _].
  destruct (p w); [|by eexists _, _]. destruct (ok_workers _ _ _ _ Hok _ _ Hw) as [Hfit _].
  unfold mbind, M_bind, write_worker. change (worker_fits (with_state s w)) with (worker_fits w). rewrite Hfit. by eexists _, _.
Qed.

Lemma audit_succeeds r (record : PlacementRecord Value) now event db :
  shape_ok r → describes r record → succeeds (append_audit record now event) db.
Proof.
  intros Hsh Hde. unfold append_audit. apply succeeds_bind; [|intros; apply succeeds_modify].
  pose proof (de_epoch _ _ Hde) as He. destruct (record_epoch record) as [e|]; [|apply succeeds_ret].
  apply succeeds_bind; [|intros; apply succeeds_ret]. apply succeeds_to_i64.
  apply (sh_epoch _ Hsh (epoch_get e)). by rewrite <-He.
Qed.

Lemma read_succeeds r db : shape_ok r → succeeds (read_record r) db.
Proof. intros Hsh. by apply succeeds_lift, record_from_row_total. Qed.

(** The end of a branch of fencing. *)
Lemma branch_succeeds {A} db r f (record : PlacementRecord Value) now event (x : A) :
  db_ok db → requests db !! row_id r = Some r → step_ok db r (f r) → describes r record →
  succeeds (update_by_id (record_request_id record) f;; append_audit record now event;; mret x) db.
Proof.
  intros Hok Hr Hst Hde. rewrite (de_id _ _ Hde). apply succeeds_bind; [by apply update_succeeds|intros db1 [] _].
  apply succeeds_bind; [|intros; apply succeeds_ret]. eapply audit_succeeds; [|exact Hde].
  apply (ro_shape _ _ (ok_rows _ _ _ _ Hok _ _ Hr)).
Qed.

Lemma queue_recovery_succeeds r (previous : PlacementRecord Value) status snapshot now db id w :
  db_ok db → requests db !! row_id r = Some r → is_active (state r) = true → 0 ≤ now → describes r previous →
  describes_recovery r status → status_latest_snapshot status = Some snapshot →
  status_attempts status < maximum_attempts (status_policy status) →
  row_worker r = Some id → workers db !! id = Some w → worker_state w = PwQuarantined →
  succeeds (queue_recovery r previous status snapshot now) db.
Proof.
  intros Hok Hr Ha Hnow Hde Hds Hsn Hatt Hw Hwk Hq. pose proof (ok_rows _ _ _ _ Hok _ _ Hr) as Hrow.
  destruct (ro_active _ _ Hrow Ha) as (w0 & e & x & _ & He & _ & _). unfold queue_recovery.
  apply succeeds_bind.
  { apply succeeds_lift. destruct (status_source_epoch status); [done|]. pose proof (de_epoch _ _ Hde) as Hep.
    rewrite He in Hep. by destruct (record_epoch previous). }
  intros db0 source [= <- Hsrc].
  assert (source_epoch (recovery r) = Some (epoch_get source) ∨ row_epoch r = Some (epoch_get source)) as Hsrc'.
  { rewrite <-(ds_source _ _ Hds), <-(de_epoch _ _ Hde). destruct (status_source_epoch status); [injection Hsrc as ->; by left|].
    apply ok_or_Ok in Hsrc. rewrite Hsrc. by right. }
  destruct (sh_operation _ (ro_shape _ _ Hrow)) as (o & Ho & Hstart & _).
  apply succeeds_bind.
  { apply succeeds_store_lift. eapply restore_encodes; [exact Ho|]. apply Hstart. by rewrite (ds_interval _ _ Hds). }
  intros db0 restore [= <- Hres]. apply map_err_Ok, restore_of_Ok in Hres as (o' & topology & sandbox & timeout & Ho' & Hsb & Hres).
  assert (epoch_get source ≤ i64_max) as Hmax.
  { destruct Hsrc' as [Hs|Hs]; [by apply (rc_source _ (sh_recovery _ (ro_shape _ _ Hrow)) _ Hs)|by apply (sh_epoch _ (ro_shape _ _ Hrow) _ Hs)]. }
  apply succeeds_bind; [by apply succeeds_to_i64|]. intros db0 v (-> & -> & _)%to_i64_Ok.
  rewrite (de_worker _ _ Hde), Hw, (ds_attempts _ _ Hds). pose proof (validate_recovery_bounds _ (ds_valid _ _ Hds)) as [Hlim _].
  apply branch_succeeds with (r := r); [done|done| |done].
  eapply recovering_row_step; try done.
  - exact (row_operation_sandbox _ _ _ _ Hrow Ho' Hsb).
  - rewrite <-(ds_latest _ _ Hds), Hsn. done.
  - pose proof (epoch_range source). unfold stored_epoch. lia.
  - rewrite (ds_limit _ _ Hds). apply on_some_Some. rewrite <-(ds_attempts _ _ Hds). lia.
  - rewrite (ds_limit _ _ Hds). by eexists.
Qed.

Lemma fence_row_succeeds now_unix_ms now r db :
  db_ok db → requests db !! row_id r = Some r → is_active (state r) = true → 0 ≤ now →
  succeeds (fence_row now_unix_ms now r) db.
Proof.
  intros Hok Hr Ha Hnow. pose proof (ok_rows _ _ _ _ Hok _ _ Hr) as Hrow.
  destruct (ro_active _ _ Hrow Ha) as (id & e & x & Hw & He & Hx & Hep).
  destruct (ro_uses _ _ Hrow id) as (w & Hwk & Hcl); [by left|].
  unfold fence_row. apply succeeds_bind; [apply read_succeeds, Hrow|]. intros db0 previous [-> Hde]%read_record_Ok.
  apply succeeds_bind.
  { destruct (record_worker previous); [|apply succeeds_ret]. apply succeeds_bind; [by apply set_state_succeeds|intros; apply succeeds_ret]. }
  intros db1 [] Hset.
  destruct (fence_worker_Ok _ _ _ _ _ _ _ _ _ _ Hok Hde Hw Hwk Hset) as (Hok1 & Hreq1 & Hwk1).
  apply succeeds_bind; [eapply audit_succeeds; [apply Hrow|exact Hde]|]. intros db2 [] [row ->]%append_audit_Ok.
  assert (db_ok (set_audit (audit db1 ++ [row]) db1)) as Hok2 by by apply audit_ok.
  set (db2 := set_audit _ _) in *. assert (requests db2 !! row_id r = Some r) as Hr2 by (simpl; by rewrite Hreq1).
  pose proof (ok_rows _ _ _ _ Hok2 _ _ Hr2) as Hrow2.
  assert (workers db2 !! id = Some (with_state PwQuarantined w)) as Hq by (simpl; rewrite Hwk1; apply lookup_insert_eq).
  destruct (Z.leb_spec (s_deadline (submitted r)) now) as [Hd|Hd].
  - apply branch_succeeds with (r := r); [done|done|by apply fenced_expired_step|done].
  - pose proof (de_recovery _ _ Hde) as Hrec. destruct (record_recovery previous) as [status|].
    + unfold recover. cbv zeta. destruct (status_latest_snapshot status) as [snapshot|] eqn:Hsn;
        [destruct (snapshot_fresh _ _ _); [destruct (Z.ltb_spec (status_attempts status) (maximum_attempts (status_policy status)))|]|].
      1: { eapply queue_recovery_succeeds; try done. }
      all: apply branch_succeeds with (r := r); [done|done|by apply failed_row_step|done].
    + apply branch_succeeds with (r := r); [done|done|by apply requeued_row_step|done].
Qed.

Lemma fence_all_succeeds now_unix_ms now rows : ∀ db,
  db_ok db → 0 ≤ now → NoDup (row_id <$> rows) →
  (∀ r, r ∈ rows → requests db !! row_id r = Some r ∧ is_active (state r) = true) →
  succeeds (fence_all now_unix_ms now rows) db.
Proof.
  induction rows as [|r rows IH]; intros db Hok Hnow Hnd Hin; cbn [fence_all]; [apply succeeds_ret|].
  rewrite fmap_cons in Hnd. apply NoDup_cons in Hnd as [Hnotin Hnd]. destruct (Hin r) as [Hr Ha]; [set_solver|].
  apply succeeds_bind; [by apply fence_row_succeeds|]. intros db1 rec Hrow.
  destruct (fence_row_Ok _ _ _ _ _ _ _ _ _ Hok Hr Ha Hnow Hrow) as (r' & [Hok1 Hreq1 _ _ _ _]).
  apply succeeds_bind; [|intros; apply succeeds_ret]. apply IH; [done|done|done|].
  intros q Hq. rewrite Hreq1, lookup_insert_ne; [apply Hin; set_solver|].
  intros Heq. apply Hnotin. rewrite Heq. by apply list_elem_of_fmap_2.
Qed.

(** Rows that are changed one after the other. *)
Lemma write_all_succeeds f rows : ∀ db,
  db_ok db → (∀ r, submitted (f r) = submitted r) → NoDup (row_id <$> rows) →
  (∀ r, r ∈ rows → requests db !! row_id r = Some r) → (∀ r db, r ∈ rows → row_ok db r → step_ok db r (f r)) →
  succeeds (write_all (f <$> rows)) db.
Proof.
  induction rows as [|r rows IH]; intros db Hok Hf Hnd Hin Hst; [apply succeeds_ret|].
  rewrite fmap_cons in Hnd. apply NoDup_cons in Hnd as [Hnotin Hnd]. rewrite fmap_cons. cbn [write_all].
  assert (requests db !! row_id r = Some r) as Hr by (apply Hin; set_solver).
  assert (step_ok db r (f r)) as Hstep by (apply Hst; [set_solver|]; by apply (ok_rows _ _ _ _ Hok _ _ Hr)).
  apply succeeds_bind.
  { unfold write_request, succeeds. rewrite (step_fits _ _ _ _ Hok Hr Hstep). by eexists _, _. }
  intros db1 [] [-> _]%write_request_Ok. assert (row_id (f r) = row_id r) as Hid by (unfold row_id; by rewrite Hf). rewrite Hid.
  apply IH; [by eapply insert_row_ok|done|done| |].
  - intros q Hq. simpl. rewrite lookup_insert_ne; [apply Hin; set_solver|]. intros Heq. apply Hnotin. rewrite Heq.
    by apply list_elem_of_fmap_2.
  - intros q d Hq. apply Hst. set_solver.
Qed.

Lemma audit_loop_succeeds now event rows : ∀ db,
  (∀ r, r ∈ rows → shape_ok r) → succeeds (each (λ r, record ← read_record r; append_audit record now event) rows) db.
Proof.
  induction rows as [|r rows IH]; intros db Hin; cbn [each]; [apply succeeds_ret|].
  apply succeeds_bind; [|intros db1 [] _; apply IH; set_solver].
  apply succeeds_bind; [apply read_succeeds; set_solver|]. intros db1 record [-> Hde]%read_record_Ok.
  eapply audit_succeeds; [|exact Hde]. set_solver.
Qed.

Lemma expire_queued_succeeds now db : db_ok db → succeeds (expire_queued now) db.
Proof.
  intros Hok. unfold expire_queued, update_where.
  change (λ r, is_waiting (state r) && (s_deadline (submitted r) <=? now)) with (expiring now).
  assert (∀ r, r ∈ rows_where (expiring now) db → requests db !! row_id r = Some r ∧ is_waiting (state r) = true) as Hin.
  { intros r [Hr Hp]%elem_of_rows_where; [|apply Hok]. by apply andb_true_iff in Hp as []. }
  apply succeeds_bind.
  - apply succeeds_bind; [apply succeeds_reads|]. intros db0 rows [= <- <-].
    apply succeeds_bind; [|intros; apply succeeds_ret]. apply write_all_succeeds; [done|done|apply NoDup_rows_where, Hok|by apply Hin|].
    intros r d Hr Hrow. apply expired_row_step; [done|]. by apply Hin.
  - intros db1 rows Hup. apply M_bind_Ok_inv in Hup as (rs & db2 & [= <- <-] & Hup).
    apply M_bind_Ok_inv in Hup as ([] & db2 & _ & [= _ <-]). apply audit_loop_succeeds.
    intros r' (r & -> & Hr)%list_elem_of_fmap. destruct (Hin _ Hr) as [Hlk Hw].
    eapply st_shape, (expired_row_step confirms db); [|done]. by apply (ok_rows _ _ _ _ Hok _ _ Hlk).
Qed.

Lemma fence_expired_succeeds now db : db_ok db → 0 ≤ now ≤ i64_max → succeeds (fence_expired now) db.
Proof.
  intros Hok Hnow. unfold fence_expired. apply succeeds_bind; [apply succeeds_to_i64; lia|]. intros db0 n (-> & -> & _)%to_i64_Ok.
  apply succeeds_transaction. apply succeeds_bind; [by apply expire_queued_succeeds|]. intros db1 [] Hex.
  pose proof (expire_queued_ok _ _ _ _ _ _ _ Hex Hok) as Hok1. apply succeeds_bind; [apply succeeds_reads|].
  intros db2 rows [= <- <-]. apply fence_all_succeeds; [done|lia|apply NoDup_rows_where, Hok1|].
  intros r [Hr Hov]%elem_of_rows_where; [|apply Hok1]. by apply andb_true_iff in Hov as [].
Qed.
End progress.
