(* ===== verification/PlacementExample.v ===== *)
(** * A concrete placement store

    An encoding of operations that evaluates, with the laws that the theorems
    assume of JSON, and histories of one sandbox on it. *)
From S2P Require Import Prelude Identity Lease FairQueue GuestProfile Volume Network Topology Snapshot WorkOrder.
From S2P Require Import Autoscale Protocol Placement PlacementProofs PlacementInvariant PlacementProgress.
Import WorkOrder.WorkOrder Protocol.Protocol Placement.Placement.

(** ** The encoding *)

(** Countable values as the binary digits of their codes. *)
Fixpoint digits (p : positive) : string :=
  match p with
  | xH => EmptyString
  | xO p' => String "0" (digits p')
  | xI p' => String "1" (digits p')
  end.
Fixpoint undigits (s : string) : option positive :=
  match s with
  | EmptyString => Some xH
  | String c s' =>
      p ← undigits s';
      if bool_decide (c = "0"%char) then Some (xO p) else if bool_decide (c = "1"%char) then Some (xI p) else None
  end.

Lemma undigits_digits p : undigits (digits p) = Some p.
Proof. induction p as [p IH|p IH|]; simpl; rewrite ?IH; done. Qed.

Definition as_text {A} `{Countable A} (a : A) : string := digits (encode a).
Definition of_text {A} `{Countable A} (s : string) : option A := undigits s ≫= decode.

Lemma of_as_text {A} `{Countable A} (a : A) : of_text (as_text a) = Some a.
Proof. unfold of_text, as_text. rewrite undigits_digits. simpl. apply decode_encode. Qed.

Definition ex_hash : string := "0000000000000000000000000000000000000000000000000000000000000000".
Definition ex_topology : Topology.TopologyLock :=
  Topology.MkLock Topology.LOCK_SCHEMA_VERSION ("sha256:" +:+ ex_hash) EmptyString ∅ ∅ ∅ []
    (Topology.default_policy (GuestProfile.MkProfileId "standard" 1) Network.default_network).
#[local] Opaque ex_topology.
(** The parts of the operations on one topology: a restore has a snapshot and a source. *)
Abbreviation ex_code := (string * Z * option (string * option Z))%type.

Definition ex_operation (c : ex_code) : Operation :=
  match c with
  | (sandbox, timeout, None) => OpCreate ex_topology sandbox timeout
  | (sandbox, timeout, Some (snapshot, source)) => OpRestore ex_topology sandbox snapshot timeout source
  end.
Definition ex_operation_code (o : Operation) : option ex_code :=
  match o with
  | OpCreate topology sandbox timeout =>
      if bool_decide (topology = ex_topology) then Some (sandbox, timeout, None) else None
  | OpRestore topology sandbox snapshot timeout source =>
      if bool_decide (topology = ex_topology) then Some (sandbox, timeout, Some (snapshot, source)) else None
  | _ => None
  end.

Lemma ex_operation_code_Some o c : ex_operation_code o = Some c ↔ o = ex_operation c.
Proof.
  split.
  - destruct o; simpl; try done; case_bool_decide; try done; intros [= <-]; by subst.
  - intros ->. destruct c as [[sandbox timeout] [[snapshot source]|]]; simpl; by rewrite bool_decide_eq_true_2.
Qed.

Definition ex_bytes : Z := 1099511627776.
Definition ex_ceilings : ResourceCeilings :=
  MkCeilings [GuestProfile.MkProfileId "standard" 1] 4 60000 ex_bytes ex_bytes ex_bytes ex_bytes ex_bytes 4 ex_bytes ex_bytes.

#[export] Instance ex_codec : StoreCodec () := {
  operation_text o := ok_or "unsupported operation"%string (as_text <$> ex_operation_code o);
  operation_parse s := ok_or "malformed operation"%string (ex_operation <$> of_text s);
  response_text r := Ok (as_text (rs_schema_version r, rs_request_id r, rs_ok r, rs_result r, rs_error r));
  response_parse s := ok_or "malformed response"%string
    ('(v, i, o, r, e) ← of_text s; Some (MkResponse v i o r e));
  ceilings_text _ := Ok EmptyString;
  ceilings_parse _ := Ok ex_ceilings;
  address_text _ := EmptyString;
  address_parse _ := Some (Network.V4 1, 8081);
  sha256_hex _ := ex_hash
}.

#[export] Instance ex_codec_laws : StoreCodecLaws ().
Proof.
  split.
  - intros o text Ho. cbn in *. apply ok_or_Ok, fmap_Some in Ho as (c & Hc & ->). rewrite of_as_text. simpl.
    apply ex_operation_code_Some in Hc as ->. done.
  - intros [v i o r e] text [= <-]. cbn. by rewrite of_as_text.
  - done.
Qed.

#[export] Instance ex_restore_encodes : RestoreEncodes ().
Proof.
  intros text o snapshot source Ho Hs. unfold restore_of. rewrite Ho. cbn in Ho.
  apply ok_or_Ok, fmap_Some in Ho as ([[sandbox timeout] rest] & _ & ->). cbn.
  destruct rest as [[sn src]|]; cbn; by rewrite bool_decide_eq_true_2.
Qed.

#[local] Transparent ex_topology.

(** ** Calls *)

Definition ex_config : PlacementStoreConfig := default_config.
Definition ex_tenant : TenantId := id_lit "tenant-a".
Definition worker_1 : WorkerId := id_lit "worker-1".
Definition worker_2 : WorkerId := id_lit "worker-2".
Definition worker_3 : WorkerId := id_lit "worker-3".

Definition ex_submission (recovery : option RecoveryPolicy) : PlacementSubmission :=
  MkSubmission (FairQueue.MkWork "key-1" ex_tenant (id_lit "team-a") (id_lit "sandbox-1") 10000000) (id_lit "subject-1")
    "pool-1" "topology-1" "standard" "cohort-1" (OpCreate ex_topology "sandbox-1" 60000) recovery.
Definition ex_registration (worker : WorkerId) : WorkerRegistration :=
  MkRegistration worker "pool-1" "topology-1" "standard" "cohort-1" (Network.V4 1, 8081) ex_ceilings.
Definition ex_response : WorkloadResponse () := MkResponse PROTOCOL_VERSION ex_hash true (Some tt) None.

(** An assignment as a history returns it. *)
Definition assigned (worker : WorkerId) (now : Z) (db : Db) : option Assignment :=
  match (assign_next ex_config worker now db).2 with Ok o => o | Err _ => None end.

Definition ex_nothing : Assignment :=
  MkAssignment EmptyString EmptyString (Lease.MkIdentity ex_tenant (id_lit "team-a") (id_lit "sandbox-1")) (id_lit "subject-1")
    worker_1 (epoch_lit 1) 0 (Network.V4 1, 8081) ex_ceilings OpPing.
Definition grant_of (worker : WorkerId) (now : Z) (db : Db) : Assignment := default ex_nothing (assigned worker now db).
Definition checkpoint_of (now : Z) (db : Db) : CheckpointAssignment :=
  match (claim_due_checkpoints ex_config now 16 db).2 with
  | Ok (c :: _) => c
  | _ => MkCheckpoint ex_nothing (id_lit "none")
  end.

(** ** Histories of one sandbox *)

Abbreviation ex_ops := (list (StoreOp (Value := ()))).
Definition ex_run (ops : ex_ops) : Db := run_ops ex_config ops empty_db.

(** A request is granted, its lease runs out, and it waits again. *)
Definition submitted_ops (recovery : option RecoveryPolicy) : ex_ops :=
  [DoEnqueue (ex_submission recovery) 1000; DoRegister (ex_registration worker_1) 1000].
Definition requeued_ops : ex_ops := [DoFence 40000; DoRegister (ex_registration worker_2) 40000].

(** A request that recovers twice: the sandbox runs on a worker, a checkpoint is published, the lease runs out, and
    the fence of the worker is confirmed. *)
Definition ex_policy : RecoveryPolicy := MkRecoveryPolicy 1000 600000 2.
Definition serve_ops (worker : WorkerId) (start : Z) (before : ex_ops) : ex_ops :=
  let db := ex_run before in
  let a := grant_of worker start db in
  let serving := [DoAssign worker start; DoCompleteResponse a ex_response (start + 1)] in
  let c := checkpoint_of (start + 2000) (run_ops ex_config serving db) in
  serving ++ [DoClaim (start + 2000) 16; DoPublishCheckpoint c (start + 2001); DoFence (start + 100000);
              DoConfirmFence worker (start + 100001)].
Definition first_life : ex_ops := submitted_ops (Some ex_policy) ++ serve_ops worker_1 2000 (submitted_ops (Some ex_policy)).
Definition second_start : ex_ops := first_life ++ [DoRegister (ex_registration worker_2) 110000].
Definition second_life : ex_ops := second_start ++ serve_ops worker_2 110000 second_start.
Definition third_start : ex_ops := second_life ++ [DoRegister (ex_registration worker_3) 300000].
