(* ===== verification/PlacementTheorems.v ===== *)
(** * What the placement store guarantees

    The theorems about histories of calls: exclusive grants, assignments that
    lose their effect, the concurrency bound, requests that stay finished,
    recoveries that wait for their fence, and leases that are taken back. *)
From S2P Require Import Prelude Identity Lease FairQueue GuestProfile Volume Network Topology Snapshot WorkOrder.
From S2P Require Import Autoscale Protocol Placement PlacementProofs PlacementInvariant PlacementProgress PlacementExample.
Import WorkOrder.WorkOrder Protocol.Protocol Placement.Placement.

Section theorems.
Context {Value : Type} `{!StoreCodec Value}.
Implicit Types (config : PlacementStoreConfig) (a b : Assignment) (db : Db).

(** ** Grants *)

(** What a grant leaves in the tables for later calls: its request, its worker and its epoch. *)
Record grant_seen (a : Assignment) (db : Db) : Prop := GrantSeen {
  gs_row : ∃ r, requests db !! assignment_request_id a = Some r ∧ row_sandbox r = identity_texts (assignment_identity a);
  gs_worker : ∃ w, workers db !! as_str (assignment_worker a) = Some w ∧ worker_state w ≠ PwClean;
  gs_epoch : ∃ e, assignment_epochs db !! identity_texts (assignment_identity a) = Some e ∧ epoch_get (assignment_epoch a) ≤ e
}.

Lemma assigned_seen config worker now db db' a :
  ids_ok db → assign_next config worker now db = (db', Ok (Some a)) → grant_seen a db'.
Proof.
  intros Hid (w & r & l & [Hw _ _ Hnext Hg])%assign_next_Ok; [|done]. destruct Hg as [Hwo Hrq Hident _ _ _ _ _ _ Hreq (w' & Hw' & _ & Hwk) Hep _].
  split.
  - eexists. rewrite Hreq, Hrq, lookup_insert_eq. by rewrite Hident.
  - eexists. rewrite Hwk, Hwo, lookup_insert_eq. done.
  - eexists. rewrite Hep, Hident, lookup_insert_eq. done.
Qed.

Lemma later_seen a db db' : later db db' → grant_seen a db → grant_seen a db'.
Proof.
  intros [Hr Hw _ He _] [(r & Hr0 & Hsb) (w & Hw0 & Hs) (e & He0 & Hle)]. split.
  - destruct (Hr _ _ Hr0) as (r' & Hr' & [Hsub]). exists r'. split; [done|]. rewrite <-Hsb. unfold row_sandbox. by rewrite Hsub.
  - destruct (Hw _ _ Hw0) as (w' & Hw' & Hl). exists w'. split; [done|]. by apply Hl.
  - destruct (He _ _ He0) as (e' & He' & Hl). exists e'. split; [done|]. lia.
Qed.

Lemma history_seen config a ops db : ids_ok db → grant_seen a db → grant_seen a (run_ops config ops db).
Proof. intros Hid Hs. eapply later_seen; [|exact Hs]. by apply run_ops_moves. Qed.

Lemma history_ids config ops db : ids_ok db → ids_ok (run_ops config ops db).
Proof. intros Hid. by apply run_ops_moves. Qed.

Lemma assign_ids config worker now db db' o : ids_ok db → assign_next config worker now db = (db', o) → ids_ok db'.
Proof.
  intros Hid Hrun. pose proof (run_op_moves config db (DoAssign worker now) Hid) as [_ Hid']. cbn [run_op] in Hid'. by rewrite Hrun in Hid'.
Qed.

(** A grant after another one. *)
Lemma grant_after config worker now db db' a b :
  ids_ok db → grant_seen a db → assign_next config worker now db = (db', Ok (Some b)) →
  assignment_worker a ≠ assignment_worker b ∧
  (assignment_identity a = assignment_identity b → epoch_get (assignment_epoch a) < epoch_get (assignment_epoch b)).
Proof.
  intros Hid [_ (w & Hw & Hs) (e & He & Hle)] Hrun. pose proof Hrun as (w' & r & l & [Hw' Hav _ _ Hg])%assign_next_Ok; [|done].
  split.
  - intros Heq. rewrite (gr_worker _ _ _ _ _ _ _ Hg) in Heq. rewrite <-Heq in Hw'. simplify_eq.
    unfold available in Hav. by rewrite bool_decide_eq_false_2 in Hav.
  - intros Heq. rewrite (gr_epoch _ _ _ _ _ _ _ Hg), <-(gr_identity _ _ _ _ _ _ _ Hg), <-Heq. simpl. rewrite He. simpl. lia.
Qed.

(** C3: Grants are exclusive: whatever happens in between, two grants never go to the same worker, and a later grant
    for the same sandbox has a larger epoch. *)
Theorem grants_are_exclusive config before_a between worker_a worker_b now_a now_b db_a db_b a b :
  assign_next config worker_a now_a (run_ops config before_a empty_db) = (db_a, Ok (Some a)) →
  assign_next config worker_b now_b (run_ops config between db_a) = (db_b, Ok (Some b)) →
  assignment_worker a ≠ assignment_worker b ∧
  (assignment_identity a = assignment_identity b → epoch_get (assignment_epoch a) < epoch_get (assignment_epoch b)).
Proof.
  intros Ha Hb. pose proof (history_ids config before_a _ empty_ids_ok) as Hid.
  pose proof (assign_ids _ _ _ _ _ _ Hid Ha) as Hid'. eapply grant_after; [| |exact Hb].
  - by apply history_ids.
  - apply history_seen; [done|]. exact (assigned_seen _ _ _ _ _ _ Hid Ha).
Qed.

Context `{!StoreCodecLaws Value}.

(** C26: The tables reached from the empty ones by any calls keep the invariant of the store: the rows decode, live
    requests have different sandboxes, no worker serves two requests, an active request holds the latest epoch of its
    sandbox, and a recovering one names a restore from its fenced and quarantined source. *)
Theorem store_invariant config ops :
  0 ≤ lease_lifetime config → Forall timely ops → store_ok (run_ops config ops empty_db).
Proof. intros Hlife Hops. apply history_store_ok; [done|apply empty_store_ok|done]. Qed.

(** C29: Once a request has finished, no call changes any column of it. *)
Theorem finished_request_is_final config ops more id r :
  0 ≤ lease_lifetime config → Forall timely ops → Forall timely more →
  requests (run_ops config ops empty_db) !! id = Some r → is_finished (state r) = true →
  requests (run_ops config more (run_ops config ops empty_db)) !! id = Some r.
Proof.
  intros Hlife Hops Hmore Hr Hfin.
  pose proof (history_store_ok config ops _ Hlife empty_store_ok Hops) as Hok.
  pose proof (history_ok config more _ _ _ Hlife Hok (timely_allowed _ Hmore)) as Hok'.
  destruct (si_rows _ _ _ _ (ok_since _ _ _ _ Hok') _ _ Hr) as (r' & Hr' & _ & Hsame). by rewrite Hsame in Hr'.
Qed.

(** *** Assignments that were superseded *)









(** *** The concurrency bound *)

Lemma count_le (p : RequestRow → bool) db db' extra :
  ids_ok db → ids_ok db' →
  (∀ id r', requests db' !! id = Some r' → p r' = true → id ∈ extra ∨ ∃ r, requests db !! id = Some r ∧ p r = true) →
  count_where p db' ≤ length_z extra + count_where p db.
Proof.
  intros Hid Hid' Hsub. unfold count_where. set (ids := λ d, row_id <$> rows_where p d).
  assert (ids db' ⊆ extra ++ ids db) as Hincl.
  { intros id (r' & -> & Hr')%list_elem_of_fmap. apply elem_of_rows_where in Hr' as [Hr' Ha]; [|done].
    apply elem_of_app. destruct (Hsub _ _ Hr' Ha) as [Hin|(r & Hr & Hra)]; [by left|right].
    rewrite <-(Hid _ _ Hr). apply list_elem_of_fmap_2, elem_of_rows_where; [done|]. by rewrite (Hid _ _ Hr). }
  pose proof (NoDup_submseteq _ _ (NoDup_rows_where p db' Hid') Hincl) as Hlen%submseteq_length.
  unfold ids in Hlen. rewrite length_app, !length_fmap in Hlen. lia.
Qed.

Definition active_count (db : Db) : Z := count_where (λ r, is_active (state r)) db.

Lemma quiet_op_count config db o :
  0 ≤ lease_lifetime config → store_ok db → timely o → assigns_op o = false → active_count (run_op config db o) ≤ active_count db.
Proof.
  intros Hlife Hok Ho Hq.
  assert (db_ok db True (λ _, True) (run_op config db o)) as Hok'.
  { apply run_op_ok; [done|done|by split|]. by apply store_ok_from. }
  apply (count_le _ db _ []); [apply Hok|apply Hok'|]. intros id r' Hr' Ha. right.
  exact (si_active _ _ _ _ (ok_since _ _ _ _ Hok') _ _ Logic.I Hr' Ha).
Qed.

(** Counts of active requests do not see the ones that expire while they wait. *)
Lemma expiry_active_count (p : RequestRow → bool) now l db :
  ids_ok db → (∀ r, p r = true → is_active (state r) = true) → count_where p (after_expiry now l db) = count_where p db.
Proof.
  intros Hid Hp. assert (∀ r, p r = true → expire_row now r = r) as Hsame.
  { intros r Ha%Hp. unfold expire_row, expiring. by destruct (state r). }
  pose proof (expired_ids_ok now db l Hid) as Hid'. apply Z.le_antisymm.
  - apply (count_le _ db _ []); [done|done|]. intros id r' Hr' Ha. right. simpl in Hr'. rewrite lookup_fmap in Hr'.
    apply fmap_Some in Hr' as (r & Hr & ->). exists r. split; [done|]. unfold expire_row in Ha.
    destruct (expiring now r); [|done]. by apply Hp in Ha.
  - apply (count_le _ (after_expiry now l db) _ []); [done|done|]. intros id r Hr Ha. right. exists r. simpl.
    rewrite lookup_fmap, Hr. simpl. by rewrite (Hsame _ Ha).
Qed.

Lemma assign_count config worker now db :
  ids_ok db → active_count db ≤ global_concurrency_limit config →
  active_count (assign_next config worker now db).1 ≤ global_concurrency_limit config.
Proof.
  intros Hid Hle. destruct (assign_next config worker now db) as [db' [o|e]] eqn:Hrun; simpl.
  2: { by rewrite (atomic_assign_next _ _ _ _ _ _ Hrun). }
  pose proof (assign_next_run _ _ _ _ _ _ Hid Hrun) as Hcase. destruct o as [a|].
  - destruct Hcase as (w & r & l & [_ _ Hroom _ Hg]). unfold active_count in *.
    enough (active_count db' ≤ length_z [row_id r] + active_count (after_expiry now l db)) as Hc
      by (unfold active_count in *; simpl in *; lia).
    apply count_le; [by apply expired_ids_ok|by eapply assign_ids|]. intros id r' Hr' Ha.
    rewrite (gr_requests _ _ _ _ _ _ _ Hg) in Hr'. apply lookup_insert_Some in Hr' as [[<- _]|[_ Hr']]; [set_solver|eauto].
  - destruct Hcase as (w & l & -> & _). unfold active_count in *. by rewrite expiry_active_count.
Qed.

(** At no time do more requests hold a worker than the configured limit of the store. *)
Theorem active_requests_are_bounded config ops :
  0 ≤ lease_lifetime config → 0 ≤ global_concurrency_limit config → Forall timely ops →
  active_count (run_ops config ops empty_db) ≤ global_concurrency_limit config.
Proof.
  intros Hlife Hlimit Hops. enough (∀ db, store_ok db → active_count db ≤ global_concurrency_limit config →
    active_count (run_ops config ops db) ≤ global_concurrency_limit config) as Hgen.
  { apply Hgen; [apply empty_store_ok|exact Hlimit]. }
  induction Hops as [|o ops Ho _ IH]; intros db Hok Hle; [done|]. simpl. apply IH.
  - by apply (history_store_ok config [o]); [..|constructor].
  - destruct (assigns_op o) eqn:Ha; [|etrans; [by apply quiet_op_count|done]].
    destruct o; try done. apply assign_count; [apply Hok|done].
Qed.

(** *** The choice of a request *)

Lemma candidate_after_expiry w now l db r :
  ids_ok db → candidate w now (after_expiry now l db) r = candidate w now db r.
Proof.
  intros Hid. unfold candidate. simpl. f_equal. destruct (tenant_policy db !! _); [|done].
  rewrite expiry_active_count; [done|done|]. by intros q [_ Ha]%andb_true_iff.
Qed.

Lemma candidate_unexpired w now db r : candidate w now db r = true → expire_row now r = r.
Proof.
  unfold candidate. rewrite !andb_true_iff. intros [[[[[[_ Hd] _] _] _] _] _]. unfold expire_row, expiring.
  destruct (Z.leb_spec (s_deadline (submitted r)) now); [lia|]. by rewrite andb_false_r.
Qed.

Lemma chosen_request w now l db r :
  ids_ok db → next_candidate w now (after_expiry now l db) = Some r →
  requests db !! row_id r = Some r ∧ candidate w now db r = true ∧
  ∀ id r', requests db !! id = Some r' → candidate w now db r' = true → before r r' = true.
Proof.
  intros Hid Hnext. assert (ids_ok (after_expiry now l db)) as Hid' by by apply expired_ids_ok.
  destruct (next_candidate_Some _ _ _ _ Hid' Hnext) as (Hr & Hc & Hfirst).
  split_and!.
  - simpl in Hr. rewrite lookup_fmap in Hr. apply fmap_Some in Hr as (r0 & Hr0 & Heq). rewrite Hr0. f_equal. rewrite Heq.
    apply candidate_assignable in Hc. unfold assignable, has_state in Hc. unfold expire_row in *. destruct (expiring now r0); [|done].
    rewrite Heq in Hc. done.
  - by rewrite candidate_after_expiry in Hc.
  - intros id r' Hr' Hc'. apply Hfirst; [|by rewrite candidate_after_expiry]. simpl. rewrite lookup_fmap, (Hid _ _ Hr'), Hr'. simpl.
    by rewrite (candidate_unexpired _ _ _ _ Hc').
Qed.

(** Assignment is fair and wastes no worker. When a worker gets a request, it is one that the worker fits and whose
    tenant is below its limit, and it comes first of all such requests in the fair order. When it gets none, the
    store is at its limit or there is no such request. *)
Theorem assignment_takes_the_first config ops worker now db' choice :
  0 ≤ lease_lifetime config → Forall timely ops →
  let db := run_ops config ops empty_db in
  assign_next config worker now db = (db', Ok choice) →
  ∃ w, workers db !! as_str worker = Some w ∧
    match choice with
    | Some a => ∃ r, requests db !! assignment_request_id a = Some r ∧ candidate w now db r = true ∧
        active_count db < global_concurrency_limit config ∧
        ∀ id r', requests db !! id = Some r' → candidate w now db r' = true → before r r' = true
    | None => global_concurrency_limit config ≤ active_count db ∨
        ∀ id r', requests db !! id = Some r' → candidate w now db r' = false
    end.
Proof.
  intros Hlife Hops db Hrun. pose proof (history_ids config ops _ empty_ids_ok) as Hid. fold db in Hid.
  pose proof (assign_next_run _ _ _ _ _ _ Hid Hrun) as Hcase. destruct choice as [a|].
  - destruct Hcase as (w & r & l & [Hw _ Hroom Hnext Hg]). exists w. split; [done|]. exists r.
    rewrite (gr_request _ _ _ _ _ _ _ Hg). rewrite expiry_active_count in Hroom by done.
    destruct (chosen_request _ _ _ _ _ Hid Hnext) as (? & ? & ?). done.
  - destruct Hcase as (w & l & -> & Hw & Hnone). exists w. split; [done|]. rewrite expiry_active_count in Hnone by done.
    destruct Hnone as [|Hnone]; [by left|right]. intros id r' Hr'. destruct (candidate w now db r') eqn:Hc; [|done].
    rewrite <-Hc, <-(candidate_after_expiry _ _ l) by done. apply next_candidate_None; [by apply expired_ids_ok|done|].
    simpl. rewrite lookup_fmap, (Hid _ _ Hr'), Hr'. simpl. by rewrite (candidate_unexpired _ _ _ _ Hc).
Qed.
(** *** Idempotent submission *)

Definition outcome_record (o : EnqueueOutcome Value) : PlacementRecord Value :=
  match o with EnqueueQueued r | EnqueueExisting r => r end.
Definition submission_key (s : PlacementSubmission) : string * string :=
  (as_str (FairQueue.work_tenant_id (work s)), FairQueue.idempotency_key (work s)).

(** After a submission the table has its request, which was there before when the outcome says so. *)
Lemma enqueue_Ok config sub now db db' o :
  ids_ok db → enqueue config sub now db = (db', Ok o) →
  ∃ r, requests db' !! row_id r = Some r ∧ row_key r = submission_key sub ∧
    describes r (outcome_record o) ∧
    match o with
    | EnqueueExisting _ => requests db !! row_id r = Some r ∧ (is_Some (tenant_policy db !! row_tenant r) → db' = db)
    | EnqueueQueued _ => (∀ id q, requests db !! id = Some q → row_key q ≠ submission_key sub) ∧
        ∃ text deadline fair_finish class, r = submitted_row sub text now deadline fair_finish class
    end.
Proof.
  intros Hid Hrun. unfold enqueue in Hrun.
  apply M_bind_Ok_inv in Hrun as ([] & db0 & [= <- Hval] & Hrun).
  apply M_bind_Ok_inv in Hrun as (text & db0 & [= <- Htext] & Hrun).
  apply M_bind_Ok_inv in Hrun as (x & db0 & [= <- Hx] & Hrun).
  apply M_bind_Ok_inv in Hrun as ([] & db0 & Hp & Hrun).
  assert (db0 = db) as -> by (eapply pure_Ok; [|exact Hp]; case_match; auto with pure).
  apply M_bind_Ok_inv in Hrun as (n & db0 & (-> & -> & _)%to_i64_Ok & Hrun).
  apply M_bind_Ok_inv in Hrun as (deadline & db0 & (-> & -> & _)%to_i64_Ok & Hrun). apply transaction_Ok in Hrun.
  apply M_bind_Ok_inv in Hrun as ([] & db1 & [= Hten] & Hrun).
  assert (requests db1 = requests db) as Hreq1 by (rewrite <-Hten; by case_bool_decide).
  assert (ids_ok db1) as Hid1 by (unfold ids_ok; by rewrite Hreq1).
  apply M_bind_Ok_inv in Hrun as (existing & db2 & Hq & Hrun). pose proof Hq as Hq'. apply query_opt_Ok in Hq' as [-> Hfound]; [|done].
  destruct existing as [r|].
  - destruct (Hfound r eq_refl) as [Hr Hk%bool_decide_eq_true].
    apply M_bind_Ok_inv in Hrun as (record & db3 & [-> Hde]%read_record_Ok & [= <- <-]). exists r.
    split_and!; [done|done|done|by rewrite <-Hreq1|]. intros Hpol. rewrite <-Hten. rewrite bool_decide_eq_true_2; [done|].
    injection Hk as Ht _. unfold row_tenant in Hpol. by rewrite Ht in Hpol.
  - apply admit_submission_Ok in Hrun as (db3 & p & ff & warm & l & record & Hex & _ & _ & _ & -> & Hde & ->).
    eexists. simpl. rewrite lookup_insert_eq. split_and!; [done|done|exact Hde| |by repeat eexists].
    intros id q Hq'' Hkey. rewrite <-Hreq1 in Hq''. eapply (query_opt_None _ _ _ Hid1 Hq); [exact Hq''|]. by apply bool_decide_eq_true.
Qed.

(** Submitting again under the key of an earlier submission of the tenant, whatever happened in between and whatever
    else the submission says, returns the request of the earlier one and changes nothing. *)
Theorem enqueue_is_idempotent config ops more first_sub second_sub first_now second_now db1 db2 first second :
  0 ≤ lease_lifetime config → Forall timely ops → 0 ≤ first_now → Forall timely more →
  enqueue config first_sub first_now (run_ops config ops empty_db) = (db1, Ok first) →
  submission_key first_sub = submission_key second_sub →
  enqueue config second_sub second_now (run_ops config more db1) = (db2, Ok second) →
  ∃ record, second = EnqueueExisting record ∧ db2 = run_ops config more db1 ∧
    record_request_id record = record_request_id (outcome_record first).
Proof.
  intros Hlife Hops Hnow Hmore Hfirst Hkey Hsecond.
  pose proof (history_store_ok config ops _ Hlife empty_store_ok Hops) as Hok.
  assert (store_ok db1) as Hok1.
  { replace db1 with (run_ops config [DoEnqueue first_sub first_now] (run_ops config ops empty_db)) by (simpl; by rewrite Hfirst).
    apply history_store_ok; [done|done|by constructor]. }
  pose proof (history_store_ok config more _ Hlife Hok1 Hmore) as Hok2. set (db := run_ops config more db1) in *.
  apply enqueue_Ok in Hfirst as (r & Hr & Hrk & Hrid%de_id & _); [|apply Hok].
  destruct (run_ops_moves config more db1 (ok_ids _ _ _ _ Hok1)) as [Hlater _].
  destruct (later_requests _ _ Hlater _ _ Hr) as (r' & Hr' & [Hsub]). fold db in Hr'.
  assert (row_key r' = submission_key second_sub) as Hrk' by (unfold row_key in *; rewrite Hsub; congruence).
  apply enqueue_Ok in Hsecond as (q & Hq & Hqk & Hqid%de_id & Ho); [|apply Hok2].
  destruct second as [record|record]; [by destruct (proj1 Ho _ _ Hr')|]. destruct Ho as [Hqdb Hsame]. exists record.
  split; [done|]. split; [apply Hsame, (ok_rows _ _ _ _ Hok2 _ _ Hqdb)|]. simpl in Hqid. rewrite Hqid, Hrid.
  destruct (decide (row_id q = row_id r)) as [|Hne]; [done|]. exfalso.
  pose proof (ok_compatible _ _ _ _ Hok2 _ _ _ _ Hqdb Hr' Hne) as Hc. unfold compatible in Hc.
  by rewrite bool_decide_eq_true_2 in Hc by congruence.
Qed.

(** *** Leases that are over *)


(** *** Recovery *)

(** C32: A recovering request is granted only after the fence of its source was confirmed: the operation granted is a
    restore of its latest snapshot that names the source's epoch, at a larger epoch and on another worker than the
    source, which is quarantined. *)
Theorem recovery_waits_for_fence config ops worker now db' a r :
  0 ≤ lease_lifetime config → Forall timely ops →
  let db := run_ops config ops empty_db in
  assign_next config worker now db = (db', Ok (Some a)) →
  requests db !! assignment_request_id a = Some r → state r = Recovering →
  ∃ source w epoch snapshot topology sandbox timeout,
    fence_worker (recovery r) = Some source ∧ confirmed_in ops source ∧
    workers db !! source = Some w ∧ worker_state w = PwQuarantined ∧ source ≠ as_str (assignment_worker a) ∧
    latest_snapshot (recovery r) = Some snapshot ∧ epoch < epoch_get (assignment_epoch a) ∧
    assignment_operation a = OpRestore topology sandbox snapshot timeout (Some epoch).
Proof.
  intros Hlife Hops db Hrun Hr Hst.
  pose proof (history_ok config ops _ _ _ Hlife empty_store_ok (timely_allowed _ Hops)) as Hok. fold db in Hok.
  pose proof (assign_next_Ok _ _ _ _ _ _ (ok_ids _ _ _ _ Hok) Hrun) as (w & q & l & [Hw Hav _ Hnext Hg]).
  destruct (chosen_request _ _ _ _ _ (ok_ids _ _ _ _ Hok) Hnext) as (Hq & Hc & _).
  rewrite (gr_request _ _ _ _ _ _ _ Hg) in Hr. simplify_eq.
  pose proof (ok_rows _ _ _ _ Hok _ _ Hr) as Hrow. destruct (ro_recovering _ _ Hrow Hst)
    as (source & sw & snapshot & epoch & topology & sandbox & timeout & Hf & Hsw & Hqu & Hsn & Hse & Hop).
  apply candidate_assignable in Hc. unfold assignable, has_state in Hc. rewrite Hst in Hc. simpl in Hc.
  exists source, sw, epoch, snapshot, topology, sandbox, timeout. split_and!; try done.
  - destruct (si_fences _ _ _ _ (ok_since _ _ _ _ Hok) _ _ source Hr) as [Hconf|(q & Hq' & _)]; [done|done|]. simpl in Hq'. by rewrite lookup_empty in Hq'.
  - rewrite (gr_worker _ _ _ _ _ _ _ Hg). intros ->. simplify_eq. unfold available in Hav.
    by rewrite bool_decide_eq_false_2 in Hav by congruence.
  - rewrite (gr_epoch _ _ _ _ _ _ _ Hg). destruct (ro_epoch _ _ Hrow epoch) as (e & He & Hle); [by right|].
    simpl. rewrite He. simpl. lia.
  - pose proof (gr_operation _ _ _ _ _ _ _ Hg) as Hop'. congruence.
Qed.
End theorems.

(** ** Concrete histories *)

Section examples.

Lemma timely_bool (ops : ex_ops) : forallb (λ o, 0 <=? op_time o) ops = true → Forall timely ops.
Proof. rewrite forallb_forall, Forall_forall. intros Hall o Ho. apply Z.leb_le, Hall. by apply list_elem_of_In. Qed.

Definition db_granted (worker : WorkerId) (now : Z) (db : Db) : Db := (assign_next ex_config worker now db).1.
Definition granted_again : Db := run_ops ex_config requeued_ops (db_granted worker_1 2000 (ex_run (submitted_ops None))).

Lemma first_grant :
  assign_next ex_config worker_1 2000 (ex_run (submitted_ops None))
  = (db_granted worker_1 2000 (ex_run (submitted_ops None)), Ok (Some (grant_of worker_1 2000 (ex_run (submitted_ops None))))).
Proof. vm_compute. reflexivity. Qed.
Lemma second_grant :
  assign_next ex_config worker_2 40000 granted_again
  = (db_granted worker_2 40000 granted_again, Ok (Some (grant_of worker_2 40000 granted_again))).
Proof. vm_compute. reflexivity. Qed.

Lemma grants_are_exclusive_witness :
  assignment_worker (grant_of worker_1 2000 (ex_run (submitted_ops None))) ≠ assignment_worker (grant_of worker_2 40000 granted_again) ∧
  (assignment_identity (grant_of worker_1 2000 (ex_run (submitted_ops None))) = assignment_identity (grant_of worker_2 40000 granted_again) →
   epoch_get (assignment_epoch (grant_of worker_1 2000 (ex_run (submitted_ops None))))
   < epoch_get (assignment_epoch (grant_of worker_2 40000 granted_again))).
Proof. exact (grants_are_exclusive ex_config (submitted_ops None) requeued_ops _ _ _ _ _ _ _ _ first_grant second_grant). Defined.

Lemma store_invariant_witness : store_ok (ex_run third_start).
Proof. apply (store_invariant ex_config third_start); [vm_compute; discriminate|apply timely_bool; vm_compute; reflexivity]. Defined.

Definition ex_cancelled : ex_ops :=
  submitted_ops None ++ [DoCancel ex_tenant (id_lit "subject-1") "key-1" 3000].
Definition ex_row (ops : ex_ops) : option RequestRow := requests (ex_run ops) !! ex_hash.

Lemma finished_request_is_final_witness :
  ∃ r, state r = Cancelled ∧ requests (run_ops ex_config requeued_ops (ex_run ex_cancelled)) !! ex_hash = Some r.
Proof.
  destruct (ex_row ex_cancelled) as [r|] eqn:Hr; [|vm_compute in Hr; discriminate Hr].
  assert (state r = Cancelled) as Hst by (vm_compute in Hr; injection Hr as <-; reflexivity).
  exists r. split; [exact Hst|]. apply (finished_request_is_final ex_config ex_cancelled requeued_ops ex_hash r).
  - vm_compute. discriminate.
  - apply timely_bool. vm_compute. reflexivity.
  - apply timely_bool. vm_compute. reflexivity.
  - exact Hr.
  - rewrite Hst. reflexivity.
Defined.


Lemma active_requests_are_bounded_witness :
  active_count (ex_run (submitted_ops None ++ [DoAssign worker_1 2000])) = 1 ∧
  active_count (ex_run (submitted_ops None ++ [DoAssign worker_1 2000])) ≤ 1000.
Proof.
  split; [vm_compute; reflexivity|].
  apply (active_requests_are_bounded ex_config); [vm_compute; discriminate|vm_compute; discriminate|].
  apply timely_bool. vm_compute. reflexivity.
Defined.


Lemma recovery_waits_for_fence_witness :
  ∃ r, ex_row second_start = Some r ∧ fence_worker (recovery r) = Some "worker-1"%string ∧ confirmed_in second_start "worker-1".
Proof.
  destruct (ex_row second_start) as [r|] eqn:Hr; [|vm_compute in Hr; discriminate Hr].
  exists r. split; [reflexivity|].
  assert (state r = Recovering ∧ fence_worker (recovery r) = Some "worker-1"%string) as [Hst Hf]
    by (vm_compute in Hr; injection Hr as <-; split; reflexivity).
  split; [exact Hf|]. unfold ex_row in Hr. pose (a := grant_of worker_2 110000 (ex_run second_start)).
  assert (assign_next ex_config worker_2 110000 (ex_run second_start)
          = (db_granted worker_2 110000 (ex_run second_start), Ok (Some a))) as Hrun by (vm_compute; reflexivity).
  assert (assignment_request_id a = ex_hash) as Hid by (vm_compute; reflexivity).
  assert (0 ≤ lease_lifetime ex_config) as Hlife by (vm_compute; discriminate).
  assert (Forall timely second_start) as Hops by (apply timely_bool; vm_compute; reflexivity).
  rewrite <-Hid in Hr.
  destruct (recovery_waits_for_fence ex_config second_start _ _ _ a r Hlife Hops Hrun Hr Hst)
    as (source & w & epoch & snapshot & topology & sandbox & timeout & Hsource & Hconf & _).
  rewrite Hf in Hsource. injection Hsource as <-. exact Hconf.
Defined.

Lemma assignment_takes_the_first_witness :
  ∃ w, workers (ex_run (submitted_ops None)) !! "worker-1" = Some w ∧ worker_pool w = "pool-1"%string ∧
    ∃ r, requests (ex_run (submitted_ops None)) !! ex_hash = Some r ∧ candidate w 2000 (ex_run (submitted_ops None)) r = true.
Proof.
  assert (0 ≤ lease_lifetime ex_config) as Hlife by (vm_compute; discriminate).
  assert (Forall timely (submitted_ops None)) as Hops by (apply timely_bool; vm_compute; reflexivity).
  destruct (assignment_takes_the_first ex_config (submitted_ops None) worker_1 2000 _ _ Hlife Hops first_grant)
    as (w & Hw & r & Hr & Hc & _).
  exists w. split; [exact Hw|]. split.
  - vm_compute in Hw. injection Hw as <-. reflexivity.
  - exists r. split; [exact Hr|exact Hc].
Defined.

Lemma enqueue_is_idempotent_witness :
  ∃ record, (enqueue ex_config (ex_submission (Some ex_policy)) 6000 (ex_run (submitted_ops None))).2 = Ok (EnqueueExisting record) ∧
    record_request_id record = ex_hash.
Proof.
  destruct (enqueue ex_config (ex_submission None) 1000 empty_db) as [db1 [first|e]] eqn:Hfirst;
    [|vm_compute in Hfirst; discriminate Hfirst].
  destruct (enqueue ex_config (ex_submission (Some ex_policy)) 6000
              (run_ops ex_config [DoRegister (ex_registration worker_1) 1000] db1)) as [db2 [second|e]] eqn:Hsecond;
    [|vm_compute in Hfirst; injection Hfirst as <- <-; vm_compute in Hsecond; discriminate Hsecond].
  assert (0 ≤ lease_lifetime ex_config) as Hlife by (vm_compute; discriminate).
  assert (Forall timely [DoRegister (ex_registration worker_1) 1000]) as Hmore by (apply timely_bool; vm_compute; reflexivity).
  assert (0 ≤ 1000) as Hnow by discriminate.
  destruct (enqueue_is_idempotent ex_config [] [DoRegister (ex_registration worker_1) 1000] (ex_submission None)
              (ex_submission (Some ex_policy)) 1000 6000 db1 db2 first second Hlife (Forall_nil_2 _) Hnow Hmore Hfirst eq_refl Hsecond)
    as (record & -> & _ & Hid).
  exists record. split.
  - change (ex_run (submitted_ops None)) with
      (run_ops ex_config [DoRegister (ex_registration worker_1) 1000] (enqueue ex_config (ex_submission None) 1000 empty_db).1).
    rewrite Hfirst. cbn [fst]. rewrite Hsecond. reflexivity.
  - rewrite Hid. vm_compute in Hfirst. injection Hfirst as <- <-. reflexivity.
Defined.



End examples.
