(* ===== verification/Controller.v ===== *)
(** * The autoscaler's controller

    Models [bins/sandbox-autoscaler/src/controller.rs]: one reconciliation of
    all worker pools against the Kubernetes API and the placement store.  The
    store is that of [Placement]; the Kubernetes API, the brokers and the clock
    are used through the interface [Kubernetes], with its laws in
    [KubernetesLaws]. *)
From S2P Require Import Prelude Identity GuestProfile Volume Network Topology WorkOrder Autoscale Protocol Placement PlacementProofs.
From S2P Require Import PlacementExample.
Import WorkOrder.WorkOrder Protocol.Protocol Placement.Placement Autoscale.Autoscale.

Module Controller.

Definition POOL_LABEL : string := "runtrue.io/worker-pool".
Definition MAXIMUM_BROKER_PROBE_BYTES : Z := 1024.

(** ** Kubernetes objects: the fields that are read *)

Record StatefulSet : Type := MkSet {
  set_name : option string;
  set_uid : option string;
  set_resource_version : option string;
  set_labels : gmap string string;
  set_replicas : option Z
}.

Record OwnerReference : Type := MkOwner { owner_controller : option bool; owner_uid : string }.
Record ContainerStatus : Type := MkContainer { container_name : string; container_running : bool }.

Record Pod : Type := MkPod {
  pod_name : option string;
  pod_uid : option string;
  pod_resource_version : option string;
  deleted : bool;
  owner_references : list OwnerReference;
  conditions : list (string * string);
  containers : list ContainerStatus;
  pod_ip : option string
}.

Inductive KubeError : Type := KubeApi (code : Z) (message : string) | KubeOther (message : string).
Definition kube_error_text (e : KubeError) : string :=
  match e with KubeApi _ message | KubeOther message => message end.

(** The Kubernetes API, the brokers of the workers and the clock, on the state [K] of the cluster. *)
Class Kubernetes (K : Type) : Type := {
  get_stateful_set : string → M K string StatefulSet;
  list_pods : string → M K string (list Pod);
  delete_pod : string → string → option string → M K KubeError ();
  patch_stateful_set : string → string → Z → M K string ();
  probe_broker : Network.IpAddr → Z → M K string (list ascii);
  system_clock : M K string Z
}.

(** The configuration of a controller. *)
Record Controller : Type := MkController {
  catalog : WorkerPoolCatalog;
  maximum_total_workers : Z;
  interval_millis : Z;
  broker_port : Z
}.

Definition new (catalog : WorkerPoolCatalog) (maximum_total_workers interval_millis broker_port : Z) :
    result string Controller :=
  map_err core_error_to_string (validate_catalog catalog);;
  reject_if ((maximum_total_workers =? 0) || (interval_millis =? 0) || (60000 <? interval_millis) || (broker_port =? 0))
    "autoscaler controller configuration is invalid"%string;;
  mret (MkController catalog maximum_total_workers interval_millis broker_port).

Definition require_pool_identity (pool : WorkerPool) (s : StatefulSet) : result string () :=
  reject_if (negb (bool_decide (set_labels s !! POOL_LABEL = Some (Autoscale.pool_name pool))))
    ("StatefulSet `" +:+ kubernetes_stateful_set pool +:+ "` is not labeled for reviewed pool `"
     +:+ Autoscale.pool_name pool +:+ "`").

(** The replicas are an [i32], one when absent. *)
Definition replicas (s : StatefulSet) : result string Z :=
  let value := default 1 (set_replicas s) in
  reject_if (value <? 0) "StatefulSet has negative replicas"%string;;
  mret value.

Definition pod_ready (pod : Pod) : bool :=
  negb (deleted pod) && existsb (λ c, bool_decide (c = ("Ready"%string, "True"%string))) (conditions pod).

Definition workload_running (pod : Pod) : bool :=
  negb (deleted pod)
  && existsb (λ c, bool_decide (container_name c = "sandboxd"%string) && container_running c) (containers pod).

Definition worker_requires_deletion (s : PlacementWorkerState) : bool :=
  match s with PwQuarantined | PwConsumed => true | PwClean | PwLeased | PwDraining => false end.

(** [str::parse::<u16>] on three bytes: digits, with an optional plus sign. *)
Definition parse_status (l : list ascii) : option Z :=
  let digits := match l with c :: l' => if is_byte "+" c then l' else l | [] => l end in
  if bool_decide (digits = []) || negb (forallb is_ascii_digit digits) then None
  else Some (foldl (λ acc c, acc * 10 + (code c - 48)) 0 digits).

Definition broker_response_is_ready (response : list ascii) : bool :=
  if (MAXIMUM_BROKER_PROBE_BYTES <? length_z response)
     || negb (bool_decide (bytes "HTTP/1.1 " `prefix_of` response) || bool_decide (bytes "HTTP/1.0 " `prefix_of` response))
     || negb (bool_decide (response !! 12%nat = Some " "%char))
  then false
  else match parse_status (take 3 (drop 9 response)) with
       | Some status => (200 <=? status) && (status <? 300)
       | None => false
       end.

Definition worker_id_from_uid (uid : string) : result string WorkerId :=
  reject_if (bool_decide (uid = EmptyString) || (48 <? len uid)
             || negb (all_bytes (λ b, is_ascii_lowercase b || is_ascii_digit b || is_byte "-" b) uid))
    "worker Pod UID is invalid"%string;;
  map_err core_error_to_string (parse ("worker-" +:+ uid)).

Definition pod_worker_id (pod : Pod) : result string WorkerId :=
  uid ← ok_or "worker Pod has no UID"%string (pod_uid pod);
  worker_id_from_uid uid.

Section code.
Context {K : Type} `{Kubernetes K} {Value : Type} `{StoreCodec Value}.
Context (store_config : PlacementStoreConfig).

(** The controller runs on the cluster and on the tables of the store. *)
Abbreviation C := (M (K * Db) (failure string)).

Definition lift {A} (r : result string A) : C A := M_lift (map_err Rejected r).

(** A call of the cluster. *)
Definition kube {E A} (text : E → string) (c : M K E A) : C A :=
  λ '(k, db), let '(k', r) := c k in ((k', db), map_err (λ e, Rejected (text e)) r).
(** A call of the store. *)
Definition store {A} (text : PlacementStoreError → string) (c : Tx A) : C A :=
  λ '(k, db), let '(db', r) := c db in
    ((k, db'), map_err (λ e, match e with Rejected e => Rejected (text e) | Panicked m => Panicked m end) r).

(** [now_unix_ms]: the clock as a [u64], which the time does not exceed. *)
Definition now_unix_ms : C Z := kube id system_clock.

Definition broker_ready (ip : Network.IpAddr) (port : Z) : C bool :=
  λ '(k, db), let '(k', r) := probe_broker ip port k in
    ((k', db), Ok (match r with Ok response => broker_response_is_ready response | Err _ => false end)).

(** A pod that is already gone counts as deleted. *)
Definition delete_or_gone (name uid : string) (version : option string) : C () :=
  λ '(k, db), let '(k', r) := delete_pod name uid version k in
    ((k', db), match r with
               | Ok _ => Ok tt
               | Err e => if match e with KubeApi code _ => code =? 404 | KubeOther _ => false end then Ok tt
                          else Err (Rejected ("delete fenced worker Pod `" +:+ name +:+ "`: " +:+ kube_error_text e))
               end).

Definition delete_fenced_pod (pod : Pod) (worker : WorkerId) : C () :=
  name ← lift (ok_or ("fenced worker `" +:+ as_str worker +:+ "` has no Pod name") (pod_name pod));
  uid ← lift (ok_or ("fenced worker `" +:+ as_str worker +:+ "` has no Pod UID") (pod_uid pod));
  delete_or_gone name uid (pod_resource_version pod).

(** The first pod of the worker; an invalid identifier before it is an error. *)
Fixpoint matching_pod (worker : WorkerId) (pods : list Pod) : result string (option Pod) :=
  match pods with
  | [] => mret None
  | pod :: pods' =>
      id ← pod_worker_id pod;
      if bool_decide (id = worker) then mret (Some pod) else matching_pod worker pods'
  end.

Fixpoint each {A} (f : A → C ()) (l : list A) : C () :=
  match l with
  | [] => mret tt
  | x :: l' => f x;; each f l'
  end.

Definition fence_worker (pods : list Pod) (worker : WorkerId) : C () :=
  found ← lift (matching_pod worker pods);
  match found with Some pod => delete_fenced_pod pod worker | None => mret tt end;;
  now ← now_unix_ms;
  store (λ e, "confirm recovery fence `" +:+ as_str worker +:+ "`: " +:+ store_error_text e)
    (confirm_recovery_fence worker now);;
  mret tt.

Definition reconcile_recovery_fences (pool : WorkerPool) (pods : list Pod) : C () :=
  fences ← store (λ e, "list recovery fences for pool `" +:+ Autoscale.pool_name pool +:+ "`: " +:+ store_error_text e)
    (recovery_fences (Autoscale.pool_name pool) 1024);
  each (fence_worker pods) fences.

Fixpoint check_owned (pool : WorkerPool) (owner : string) (pods : list Pod) : result string () :=
  match pods with
  | [] => mret tt
  | pod :: pods' =>
      reject_if (negb (existsb (λ o, bool_decide (owner_controller o = Some true) && bool_decide (owner_uid o = owner))
                         (owner_references pod)))
        ("pool label is present on Pod `" +:+ default "<unknown>"%string (pod_name pod)
         +:+ "` not owned by StatefulSet `" +:+ kubernetes_stateful_set pool +:+ "`");;
      check_owned pool owner pods'
  end.

Definition ready_pool_pods (pool : WorkerPool) (s : StatefulSet) : C (list Pod) :=
  listed ← kube (λ e, "list Pods for pool `" +:+ Autoscale.pool_name pool +:+ "`: " +:+ e)
    (list_pods (POOL_LABEL +:+ "=" +:+ Autoscale.pool_name pool));
  owner ← lift (ok_or "StatefulSet has no UID"%string (set_uid s));
  lift (check_owned pool owner listed);;
  mret listed.

(** The heartbeat of a worker: whether it is known to the store. *)
Definition heartbeat (worker : WorkerId) (now : Z) : C bool :=
  λ '(k, db), let '(db', r) := heartbeat_worker store_config worker now db in
    ((k, db'), match r with
               | Ok _ => Ok true
               | Err (Rejected WorkerUnavailable) => Ok false
               | Err (Rejected e) => Err (Rejected ("heartbeat worker `" +:+ as_str worker +:+ "`: " +:+ store_error_text e))
               | Err (Panicked m) => Err (Panicked m)
               end).

Definition register (self : Controller) (pool : WorkerPool) (worker : WorkerId) (ip : Network.IpAddr) : C () :=
  now ← now_unix_ms;
  store (λ e, "register worker `" +:+ as_str worker +:+ "`: " +:+ store_error_text e)
    (register_worker store_config
       (MkRegistration worker (Autoscale.pool_name pool) (placement_topology pool) (key_resource_shape (pool_key pool))
          (runtime_compatibility_cohort (pool_key pool)) (ip, broker_port self) (pool_ceilings pool)) now).

(** What follows an unanswered heartbeat. *)
Definition refresh_unknown (self : Controller) (pool : WorkerPool) (pod : Pod) (worker : WorkerId)
    (ip : Network.IpAddr) : C () :=
  states ← store (λ e, "inspect worker `" +:+ as_str worker +:+ "`: " +:+ store_error_text e) (Placement.worker_states [worker]);
  if existsb (λ s, worker_requires_deletion s.2) states then delete_fenced_pod pod worker
  else if negb (pod_ready pod) then mret tt
  else if negb (bool_decide (states = [])) then mret tt
  else register self pool worker ip.

Definition refresh_worker (self : Controller) (pool : WorkerPool) (pod : Pod) : C () :=
  worker ← lift (pod_worker_id pod);
  match pod_ip pod ≫= Network.parse_ip with
  | None => mret tt
  | Some ip =>
      ready ← broker_ready ip (broker_port self);
      if negb ready then mret tt
      else
        now ← now_unix_ms;
        known ← heartbeat worker now;
        if (known : bool) then mret tt else refresh_unknown self pool pod worker ip
  end.

Definition refresh_workers (self : Controller) (pool : WorkerPool) (pods : list Pod) : C () :=
  each (refresh_worker self pool) (filter (λ pod, workload_running pod = true) pods).

(** The workers of the last [n] ordinals; [None] when one of the pods is
    missing. *)
Fixpoint trailing_workers (pool : WorkerPool) (pods : list Pod) (current : Z) (n : nat) :
    result string (option (list WorkerId)) :=
  match n with
  | O => mret (Some [])
  | S n' =>
      let name := kubernetes_stateful_set pool +:+ "-" +:+ to_string (current - 1) in
      match find (λ pod, bool_decide (pod_name pod = Some name)) pods with
      | None => mret None
      | Some pod =>
          id ← pod_worker_id pod;
          rest ← trailing_workers pool pods (current - 1) n';
          mret (option_map (cons id) rest)
      end
  end.

(** The last entry of a worker, as in the collected map. *)
Definition state_of (states : list (WorkerId * PlacementWorkerState)) (worker : WorkerId) :
    option PlacementWorkerState :=
  (foldl (λ m s, <[s.1 := s.2]> m) (∅ : gmap WorkerId PlacementWorkerState) states) !! worker.
Definition state_count (states : list (WorkerId * PlacementWorkerState)) : Z :=
  Z.of_nat (size (foldl (λ m s, <[s.1 := s.2]> m) (∅ : gmap WorkerId PlacementWorkerState) states)).

Definition drain_listed (workers : list WorkerId) : C Z :=
  states ← store (λ e, "read trailing worker state: " +:+ store_error_text e) (Placement.worker_states workers);
  if negb (state_count states =? length_z workers)
     || existsb (λ worker, match state_of states worker with
                           | Some PwClean | Some PwDraining => false
                           | _ => true
                           end) workers
  then mret 0
  else
    let clean := filter (λ worker, state_of states worker = Some PwClean) workers in
    drained ← (if bool_decide (clean = []) then mret true
               else store (λ e, "drain trailing workers: " +:+ store_error_text e) (drain_workers_if_clean clean));
    mret (if (drained : bool) then length_z workers else 0).

Definition drain_trailing_workers (pool : WorkerPool) (s : StatefulSet) (pods : list Pod) (maximum : Z) : C Z :=
  current ← lift (replicas s);
  workers ← lift (trailing_workers pool pods current (Z.to_nat (Z.min maximum current)));
  match workers with
  | None | Some [] => mret 0
  | Some workers => drain_listed workers
  end.

Definition patch_replicas (s : StatefulSet) (desired : Z) : C () :=
  name ← lift (ok_or "StatefulSet has no name"%string (set_name s));
  version ← lift (ok_or ("StatefulSet `" +:+ name +:+ "` has no resource version") (set_resource_version s));
  M_reject_if (i32_max <? desired) (Rejected ("desired replicas for `" +:+ name +:+ "` exceed i32"));;
  kube (λ e, "scale StatefulSet `" +:+ name +:+ "`: " +:+ e) (patch_stateful_set name version desired).

(** The first loop of [reconcile_once]: the sets by pool, and all replicas. *)
Fixpoint fetch_sets (l : list WorkerPool) (sets : gmap string StatefulSet) (total : Z) :
    C (gmap string StatefulSet * Z) :=
  match l with
  | [] => mret (sets, total)
  | pool :: l' =>
      s ← kube (λ e, "get StatefulSet `" +:+ kubernetes_stateful_set pool +:+ "`: " +:+ e)
        (get_stateful_set (kubernetes_stateful_set pool));
      lift (require_pool_identity pool s);;
      n ← lift (replicas s);
      total ← lift (ok_or "total worker replicas overflow"%string (u32_checked_add total n));
      fetch_sets l' (<[Autoscale.pool_name pool := s]> sets) total
  end.

(** The body of the second loop for a pool, up to the decision. *)
Definition decide_pool (self : Controller) (pool : WorkerPool) (s : StatefulSet) (current total : Z) :
    C (list Pod * Z * DurablePoolDecision) :=
  let quota := Z.min (u32_saturating_add current (saturating_sub (maximum_total_workers self) total))
                 (maximum_workers (policy pool)) in
  pods ← ready_pool_pods pool s;
  reconcile_recovery_fences pool pods;;
  refresh_workers self pool pods;;
  now ← now_unix_ms;
  let ready := length_z (filter (λ pod, pod_ready pod = true) pods) in
  M_reject_if (u32_max <? ready)
    (Rejected ("Ready Pod count exceeds u32 for pool `" +:+ Autoscale.pool_name pool +:+ "`"));;
  store (λ e, "observe activation for pool `" +:+ Autoscale.pool_name pool +:+ "`: " +:+ store_error_text e)
    (observe_pool_activation (Autoscale.pool_name pool) current ready now);;
  durable ← store (λ e, "reconcile durable pool `" +:+ Autoscale.pool_name pool +:+ "`: " +:+ store_error_text e)
    (reconcile_pool store_config (Autoscale.pool_name pool) current quota (policy pool) now);
  mret (pods, now, durable).

(** The rest of the body: scale; returns the new total. *)
Definition scale_pool (pool : WorkerPool) (s : StatefulSet) (current total : Z) (pods : list Pod) (now : Z)
    (d : AutoscaleDecision) : C Z :=
  if 0 <? create_workers d then
    let desired := u32_saturating_add current (create_workers d) in
    store (λ e, "record scale-up for pool `" +:+ Autoscale.pool_name pool +:+ "`: " +:+ store_error_text e)
      (record_scale_up (Autoscale.pool_name pool) desired now);;
    patch_replicas s desired;;
    mret (u32_saturating_add total (create_workers d))
  else if 0 <? drain_clean_workers d then
    drained ← drain_trailing_workers pool s pods (drain_clean_workers d);
    if 0 <? drained then
      patch_replicas s (saturating_sub current drained);;
      mret (saturating_sub total drained)
    else mret total
  else mret total.

Fixpoint reconcile_pools (self : Controller) (sets : gmap string StatefulSet) (l : list WorkerPool) (total : Z) : C () :=
  match l with
  | [] => mret tt
  | pool :: l' =>
      s ← M_lift (expect "catalog pool was fetched" (sets !! Autoscale.pool_name pool));
      current ← lift (replicas s);
      '(pods, now, durable) ← decide_pool self pool s current total;
      total ← scale_pool pool s current total pods now (decision durable);
      reconcile_pools self sets l' total
  end.

Definition reconcile_once (self : Controller) : C () :=
  '(sets, total) ← fetch_sets (pools (catalog self)) ∅ 0;
  reconcile_pools self sets (pools (catalog self)) total.
End code.

End Controller.
Import Controller.

(** ** The laws of the cluster *)

(** What the controller relies on: it is the only one that sets replicas, and a
    read returns the replicas that are set. *)
Class KubernetesLaws (K : Type) `{Kubernetes K} : Type := {
  replica_count : K → string → Z;
  same_replicas : relation K := λ k k', ∀ name, replica_count k' name = replica_count k name;
  get_keeps name : keeps same_replicas (get_stateful_set name);
  list_pods_keeps selector : keeps same_replicas (list_pods selector);
  delete_pod_keeps name uid version : keeps same_replicas (delete_pod name uid version);
  probe_keeps ip port : keeps same_replicas (probe_broker ip port);
  clock_keeps : keeps same_replicas system_clock;
  get_reads name k k' s : get_stateful_set name k = (k', Ok s) →
    set_name s = Some name ∧ default 1 (set_replicas s) = replica_count k name;
  patch_sets name version n k k' r : patch_stateful_set name version n k = (k', r) →
    (∀ other, other ≠ name → replica_count k' other = replica_count k other) ∧
    (replica_count k' name = n ∨ replica_count k' name = replica_count k name ∧ r ≠ Ok tt)
}.

#[global] Instance same_replicas_preorder `{KubernetesLaws K} : PreOrder same_replicas.
Proof. split; [by intros k name|]. intros k1 k2 k3 H12 H23 name. by rewrite H23, H12. Qed.

Section proofs.
Context {K : Type} `{KubernetesLaws K} {Value : Type} `{StoreCodec Value}.
Context (store_config : PlacementStoreConfig).

Abbreviation W := (K * Db)%type.
Abbreviation C := (M W (failure string)).
Implicit Types w : W.

(** The replicas of a set, and calls that leave all of them. *)
Definition replicas_in w (name : string) : Z := replica_count w.1 name.
Definition unscaled (w w' : W) : Prop := ∀ name, replicas_in w' name = replicas_in w name.

#[global] Instance unscaled_preorder : PreOrder unscaled.
Proof. split; [by intros w name|]. intros w1 w2 w3 H12 H23 name. by rewrite H23, H12. Qed.

(** ** Calls that set no replicas *)

Lemma kube_keeps {E A} (text : E → string) (c : M K E A) : keeps same_replicas c → keeps unscaled (kube text c).
Proof. intros Hc [k db]. specialize (Hc k). unfold kube. by destruct (c k). Qed.

Lemma store_keeps {A} text (c : Tx A) : keeps unscaled (store (K := K) text c).
Proof. intros [k db]. unfold store. by destruct (c db). Qed.

Lemma each_keeps {A} (f : A → C ()) l : (∀ x, keeps unscaled (f x)) → keeps unscaled (each f l).
Proof.
  intros Hf. induction l as [|x l IH]; simpl; [auto with keeps typeclass_instances|].
  apply keeps_bind; [apply _|done|done].
Qed.

Lemma delete_or_gone_keeps name uid version : keeps unscaled (delete_or_gone name uid version).
Proof.
  intros [k db]. pose proof (delete_pod_keeps name uid version k) as Hk. unfold delete_or_gone.
  by destruct (delete_pod name uid version k).
Qed.
Lemma broker_ready_keeps ip port : keeps unscaled (broker_ready ip port).
Proof.
  intros [k db]. pose proof (probe_keeps ip port k) as Hk. unfold broker_ready. by destruct (probe_broker ip port k).
Qed.
Lemma heartbeat_quiet worker now : keeps unscaled (heartbeat store_config worker now).
Proof. intros [k db]. unfold heartbeat. by destruct (heartbeat_worker store_config worker now db). Qed.

Create HintDb quiet.
#[local] Hint Resolve kube_keeps store_keeps each_keeps delete_or_gone_keeps broker_ready_keeps heartbeat_quiet
  list_pods_keeps clock_keeps get_keeps : quiet.

Ltac quiet :=
  repeat match goal with
  | |- keeps unscaled (_ ≫= _) => apply keeps_bind; [apply _|..|intros ?]
  | |- keeps unscaled (let _ := _ in _) => cbv zeta
  | |- keeps unscaled (match ?x with _ => _ end) => destruct x
  | |- keeps unscaled (lift _) => unfold lift
  | |- keeps unscaled (each _ _) => apply each_keeps; intros ?
  | |- keeps unscaled _ => solve [eauto 4 with quiet keeps typeclass_instances]
  end.

Lemma fence_worker_keeps pods worker : keeps unscaled (fence_worker pods worker).
Proof. unfold fence_worker, delete_fenced_pod, now_unix_ms. quiet. Qed.
Lemma refresh_worker_keeps self pool pod : keeps unscaled (refresh_worker store_config self pool pod).
Proof. unfold refresh_worker, refresh_unknown, delete_fenced_pod, register, now_unix_ms. quiet. Qed.
#[local] Hint Resolve fence_worker_keeps refresh_worker_keeps : quiet.

Lemma decide_pool_keeps self pool s current total : keeps unscaled (decide_pool store_config self pool s current total).
Proof.
  unfold decide_pool, ready_pool_pods, reconcile_recovery_fences, refresh_workers, now_unix_ms. quiet.
Qed.
Lemma drain_trailing_workers_keeps pool s pods n : keeps unscaled (drain_trailing_workers pool s pods n).
Proof. unfold drain_trailing_workers, drain_listed. quiet. Qed.

(** ** Scaling one pool *)

Lemma trailing_workers_length pool pods current n ids :
  trailing_workers pool pods current n = Ok (Some ids) → length ids = n.
Proof.
  revert current ids. induction n as [|n IH]; intros current ids; cbn [trailing_workers]; [by intros [= <-]|].
  destruct (find _ pods) as [pod|]; [|done]. intros Hrun.
  apply bind_Ok_inv in Hrun as (id & _ & Hrun). apply bind_Ok_inv in Hrun as ([rest|] & Hrest & Hrun); [|done].
  injection Hrun as <-. simpl. f_equal. by eapply IH.
Qed.

Lemma drain_trailing_workers_bound pool s pods n w w' k current :
  replicas s = Ok current → 0 ≤ current → 0 ≤ n →
  drain_trailing_workers pool s pods n w = (w', Ok k) → 0 ≤ k ≤ Z.min n current.
Proof.
  intros Hr Hc Hn Hrun. unfold drain_trailing_workers, lift in Hrun. rewrite Hr in Hrun.
  apply M_bind_Ok_inv in Hrun as (c & w1 & [= <- <-] & Hrun).
  apply M_bind_Ok_inv in Hrun as (ids & w1 & [= <- Hids] & Hrun). apply map_err_Ok in Hids.
  destruct ids as [[|id ids]|]; [injection Hrun as _ <-; lia| |injection Hrun as _ <-; lia].
  apply trailing_workers_length in Hids. unfold drain_listed in Hrun.
  apply M_bind_Ok_inv in Hrun as (states & w1 & _ & Hrun). destruct (_ || _); [injection Hrun as _ <-; lia|].
  apply M_bind_Ok_inv in Hrun as ([] & w2 & _ & [= _ <-]); simpl in *; lia.
Qed.

Lemma patch_replicas_spec s n w w' r name :
  set_name s = Some name → patch_replicas s n w = (w', r) →
  (∀ other, other ≠ name → replicas_in w' other = replicas_in w other) ∧
  (replicas_in w' name = n ∨ replicas_in w' name = replicas_in w name ∧ r ≠ Ok tt).
Proof.
  intros Hname. unfold patch_replicas, lift. rewrite Hname. unfold_M.
  destruct (set_resource_version s) as [version|]; simpl; [|intros [= <- <-]; by split; [|right]].
  destruct (i32_max <? n); simpl; [intros [= <- <-]; by split; [|right]|].
  unfold kube. destruct w as [k db]. destruct (patch_stateful_set name version n k) as [k1 r1] eqn:Hp. intros [= <- <-].
  apply patch_sets in Hp as [Hother Hn]. split; [done|]. destruct Hn as [|[? Hr]]; [by left|right].
  split; [done|]. by destruct r1 as [[]|].
Qed.

(** The quota of a pool of [current] workers in a cluster of [total]. *)
Definition pool_quota (self : Controller) (pool : WorkerPool) (current total : Z) : Z :=
  Z.min (u32_saturating_add current (saturating_sub (maximum_total_workers self) total)) (maximum_workers (policy pool)).

Lemma store_Ok {A} text (c : Tx A) w w' a :
  store text c w = (w', Ok a) → ∃ k db db', w = (k, db) ∧ w' = (k, db') ∧ c db = (db', Ok a).
Proof.
  destruct w as [k db]. unfold store. destruct (c db) as [db' [b|e]] eqn:Hc; simpl; [|discriminate].
  intros [= <- <-]. by exists k, db, db'.
Qed.

(** The store decides with [Autoscale.reconcile] on an observation with the given replicas and quota. *)
Lemma store_decides pool current quota p now db db' d :
  reconcile_pool store_config pool current quota p now db = (db', Ok d) →
  current_workers (observation d) = current ∧ quota_workers (observation d) = quota ∧
  (0 ≤ current ≤ u32_max → 0 ≤ quota ≤ u32_max → observation_u32 (observation d)) ∧
  reconcile p (observation d) now = Ok (decision d).
Proof.
  intros (db1 & _ & [Hd Hc Hq Hcl Hl Hqu Ha _])%reconcile_pool_Ok. split_and!; [done|done| |done].
  intros Hcur Hquo. split; [congruence|rewrite Hcl|rewrite Hl|rewrite Hqu|congruence]; apply Nat2Z.is_nonneg.
Qed.

Lemma decide_pool_Ok self pool s current total w w' pods now durable :
  decide_pool store_config self pool s current total w = (w', Ok (pods, now, durable)) →
  current_workers (observation durable) = current ∧ quota_workers (observation durable) = pool_quota self pool current total ∧
  (0 ≤ current ≤ u32_max → 0 ≤ pool_quota self pool current total ≤ u32_max → observation_u32 (observation durable)) ∧
  reconcile (policy pool) (observation durable) now = Ok (decision durable).
Proof.
  unfold decide_pool. cbv zeta. intros Hrun.
  do 4 (apply M_bind_Ok_inv in Hrun as (? & ? & _ & Hrun)).
  do 2 (apply M_bind_Ok_inv in Hrun as (? & ? & _ & Hrun)).
  apply M_bind_Ok_inv in Hrun as (d & w1 & Hd & Hrun). injection Hrun as -> -> -> ->.
  apply store_Ok in Hd as (k & db & db1 & _ & _ & Hd). by apply store_decides in Hd.
Qed.

Lemma scale_pool_spec self pool s current total pods now durable w w' r name :
  policy_u32 (policy pool) → 0 ≤ maximum_workers (policy pool) →
  set_name s = Some name → replicas s = Ok current → replicas_in w name = current →
  0 ≤ current ≤ total → total ≤ maximum_total_workers self ≤ u32_max →
  current_workers (observation durable) = current → quota_workers (observation durable) = pool_quota self pool current total →
  observation_u32 (observation durable) →
  reconcile (policy pool) (observation durable) now = Ok (decision durable) →
  scale_pool pool s current total pods now (decision durable) w = (w', r) →
  (∀ other, other ≠ name → replicas_in w' other = replicas_in w other) ∧
  0 ≤ replicas_in w' name ∧ total - current + replicas_in w' name ≤ maximum_total_workers self ∧
  ∀ total', r = Ok total' → total' = total - current + replicas_in w' name.
Proof.
  intros Hpu Hmw Hname Hrep Hcount Hcur Htot Hoc Hoq Hou Hrec Hrun.
  pose proof (reconcile_safe _ _ _ _ Hpu Hou Hrec) as (_ & Hone & Hcreate & Hdrain & Hmax & _ & _).
  rewrite Hoq in Hmax. unfold pool_quota, saturating_add, saturating_sub in Hmax.
  assert (0 < create_workers (decision durable) → create_workers (decision durable) + total ≤ maximum_total_workers self) as Hroom.
  { intros Hc. specialize (Hmax Hc).
    pose proof (reconcile_safe _ _ _ _ Hpu Hou Hrec) as (Hdes & _). lia. }
  unfold scale_pool in Hrun. destruct (Z.ltb_spec 0 (create_workers (decision durable))) as [Hc|Hc].
  - specialize (Hroom Hc). cbv zeta in Hrun.
    assert (u32_saturating_add current (create_workers (decision durable)) = current + create_workers (decision durable)) as Hsat
      by (unfold saturating_add; lia).
    rewrite Hsat in Hrun. unfold mbind, M_bind in Hrun.
    match type of Hrun with context [store ?t ?c ?x] => pose proof (store_keeps t c x) as Hk;
      destruct (store t c x) as [w1 [[]|e]] end; simpl in Hk.
    2: { injection Hrun as <- <-. rewrite Hk. split_and!; [done|lia|lia|done]. }
    destruct (patch_replicas s (current + create_workers (decision durable)) w1) as [w2 r2] eqn:Hp.
    destruct (patch_replicas_spec _ _ _ _ _ _ Hname Hp) as [Hother Hn].
    assert (w' = w2) as -> by (destruct r2; by injection Hrun as <- <-).
    split; [intros other Hne; by rewrite Hother, Hk|].
    assert (replicas_in w2 name = current + create_workers (decision durable) ∨ replicas_in w2 name = current ∧ r2 ≠ Ok tt)
      as [Hw2|[Hw2 Hr2]] by (destruct Hn as [|[Hn ?]]; [by left|right; rewrite Hn, Hk; done]); rewrite Hw2;
      (split; [lia|]); (split; [lia|]); intros total' ->; destruct r2 as [[]|]; simplify_eq/=.
    injection Hrun as <-. unfold saturating_add. lia.
  - destruct (Z.ltb_spec 0 (drain_clean_workers (decision durable))) as [Hd|Hd].
    2: { injection Hrun as <- <-. split_and!; [done|lia|lia|]. intros t [= <-]. lia. }
    unfold mbind, M_bind in Hrun.
    pose proof (drain_trailing_workers_keeps pool s pods (drain_clean_workers (decision durable)) w) as Hk.
    destruct (drain_trailing_workers pool s pods _ w) as [w1 [k|e]] eqn:Hdr; simpl in Hk.
    2: { injection Hrun as <- <-. rewrite Hk. split_and!; [done|lia|lia|done]. }
    apply (drain_trailing_workers_bound _ _ _ _ _ _ _ _ Hrep) in Hdr; [|lia|lia].
    destruct (Z.ltb_spec 0 k) as [Hk0|Hk0].
    2: { injection Hrun as <- <-. rewrite Hk. split_and!; [done|lia|lia|]. intros t [= <-]. lia. }
    destruct (patch_replicas s (saturating_sub current k) w1) as [w2 r2] eqn:Hp.
    destruct (patch_replicas_spec _ _ _ _ _ _ Hname Hp) as [Hother Hn].
    assert (w' = w2) as -> by (destruct r2; by injection Hrun as <- <-).
    split; [intros other Hne; by rewrite Hother, Hk|]. unfold saturating_sub in Hn.
    assert (replicas_in w2 name = current - k ∨ replicas_in w2 name = current ∧ r2 ≠ Ok tt)
      as [Hw2|[Hw2 Hr2]] by (destruct Hn as [|[Hn ?]]; [left; lia|right; rewrite Hn, Hk; done]); rewrite Hw2;
      (split; [lia|]); (split; [lia|]); intros total' ->; destruct r2 as [[]|]; simplify_eq/=.
    injection Hrun as <-. unfold saturating_sub. lia.
Qed.

(** ** All pools *)

(** The set that was fetched for a pool says what the cluster has. *)
Definition fetched (sets : gmap string StatefulSet) w (pool : WorkerPool) : Prop :=
  ∃ s, sets !! Autoscale.pool_name pool = Some s ∧ set_name s = Some (kubernetes_stateful_set pool) ∧
    replicas s = Ok (replicas_in w (kubernetes_stateful_set pool)).

(** The fields of a pool's policy are [u32]. *)
Definition pool_u32 (pool : WorkerPool) : Prop :=
  policy_u32 (policy pool) ∧ 0 ≤ maximum_workers (policy pool) ≤ u32_max.

Definition cluster_workers (l : list WorkerPool) w : Z := sum_Z (replicas_in w <$> (kubernetes_stateful_set <$> l)).

Lemma replicas_Ok s n : replicas s = Ok n → n = default 1 (set_replicas s) ∧ 0 ≤ n.
Proof. unfold replicas. intros Hr. apply bind_Ok_inv in Hr as ([] & Hg%reject_if_Ok & [= <-]). lia. Qed.

Lemma unscaled_workers l w w' : unscaled w w' → cluster_workers l w' = cluster_workers l w.
Proof. intros Hw. unfold cluster_workers. apply sum_Z_same. intros x _. apply Hw. Qed.

Lemma cluster_workers_cons pool l w :
  cluster_workers (pool :: l) w = replicas_in w (kubernetes_stateful_set pool) + cluster_workers l w.
Proof. done. Qed.

Lemma fetch_sets_keeps l sets total : keeps unscaled (fetch_sets l sets total).
Proof. revert sets total. induction l as [|pool l IH]; intros sets total; cbn [fetch_sets]; quiet. Qed.

Lemma fetch_sets_Ok l : ∀ sets total w w' sets' total',
  0 ≤ total ≤ u32_max → NoDup (Autoscale.pool_name <$> l) →
  fetch_sets l sets total w = (w', Ok (sets', total')) →
  total' = total + cluster_workers l w ∧ 0 ≤ total' ≤ u32_max ∧ Forall (fetched sets' w) l ∧
  (∀ name, name ∉ Autoscale.pool_name <$> l → sets' !! name = sets !! name).
Proof.
  induction l as [|pool l IH]; intros sets total w w' sets' total' Ht Hnd; cbn [fetch_sets].
  { intros [= <- <- <-]. split; [unfold cluster_workers; simpl; lia|]. split; [done|]. by split. }
  intros Hrun. apply M_bind_Ok_inv in Hrun as (s & w1 & Hget & Hrun).
  pose proof (kube_keeps (λ e, ("get StatefulSet `" +:+ kubernetes_stateful_set pool +:+ "`: " +:+ e)%string)
    _ (get_keeps (kubernetes_stateful_set pool)) w) as Hk. rewrite Hget in Hk. simpl in Hk.
  apply M_bind_Ok_inv in Hrun as ([] & w2 & [= <- _] & Hrun).
  apply M_bind_Ok_inv in Hrun as (n & w2 & [= <- Hn] & Hrun). apply map_err_Ok, replicas_Ok in Hn as Hn'.
  apply M_bind_Ok_inv in Hrun as (t & w2 & [= <- Hadd] & Hrun). apply map_err_Ok, ok_or_Ok, checked_add_Some in Hadd as [-> Hmax].
  destruct w as [k db]. unfold kube in Hget.
  destruct (get_stateful_set (kubernetes_stateful_set pool) k) as [k2 [s'|]] eqn:Hg; simplify_eq/=.
  apply get_reads in Hg as [Hname Hcount]. destruct Hn' as [-> Hpos].
  apply NoDup_cons in Hnd as [Hnotin Hnd].
  assert (0 ≤ total + default 1 (set_replicas s) ≤ u32_max) as Hnew by lia.
  destruct (IH _ _ _ _ _ _ Hnew Hnd Hrun) as (-> & Ht' & Hall & Hother).
  assert (cluster_workers l (k2, db) = cluster_workers l (k, db)) as Heq by (by apply unscaled_workers). rewrite Heq in *.
  split; [by rewrite cluster_workers_cons, Hcount, Z.add_assoc|]. split; [done|]. split.
  - constructor.
    + exists s. rewrite Hother by done. rewrite lookup_insert_eq. split_and!; [done|done|].
      by rewrite Hn, Hcount.
    + eapply Forall_impl; [exact Hall|]. intros p (s' & Hs' & Hn' & Hr'). exists s'. by rewrite <-Hk.
  - intros name Hnm. rewrite Hother by set_solver. rewrite lookup_insert_ne; [done|]. intros <-. set_solver.
Qed.

Lemma quota_bounds self pool current total :
  0 ≤ current → 0 ≤ maximum_workers (policy pool) ≤ u32_max →
  0 ≤ pool_quota self pool current total ≤ u32_max.
Proof. unfold pool_quota, saturating_add, saturating_sub. lia. Qed.

(** Every pool leaves the cluster within its quota, whatever fails. *)
Lemma reconcile_pools_bound self sets all : ∀ l total w w' r,
  NoDup (kubernetes_stateful_set <$> all) → l ⊆ all → NoDup (kubernetes_stateful_set <$> l) →
  Forall pool_u32 l → Forall (λ pool, 0 ≤ replicas_in w (kubernetes_stateful_set pool)) all →
  Forall (fetched sets w) l → total = cluster_workers all w → total ≤ maximum_total_workers self ≤ u32_max →
  reconcile_pools store_config self sets l total w = (w', r) →
  cluster_workers all w' ≤ maximum_total_workers self.
Proof.
  induction l as [|pool l IH]; intros total w w' r Hnd Hsub Hndl Hpol Hpos Hfetch Htot Hmax; cbn [reconcile_pools].
  { intros [= <- <-]. lia. }
  inversion Hfetch as [|? ? (s & Hs & Hname & Hrep) Hfetch']; inversion Hpol as [|? ? [Hp Hpm] Hpol']; subst.
  set (set := kubernetes_stateful_set pool) in *. set (current := replicas_in w set) in *.
  assert (set ∈ kubernetes_stateful_set <$> all) as Hin by (apply list_elem_of_fmap_2; set_solver).
  assert (0 ≤ current) as Hcur by (rewrite Forall_forall in Hpos; apply Hpos; set_solver).
  unfold lift. rewrite Hs. unfold mbind at 1, M_bind at 1. cbn -[replicas decide_pool reconcile_pools scale_pool].
  unfold mbind at 1, M_bind at 1. rewrite Hrep. cbn -[replicas decide_pool reconcile_pools scale_pool].
  unfold mbind at 1, M_bind at 1.
  pose proof (decide_pool_keeps self pool s current (cluster_workers all w) w) as Hk.
  destruct (decide_pool _ _ _ _ _ _ w) as [w1 [[[pods now] durable]|e]] eqn:Hd; simpl in Hk.
  2: { intros [= <- <-]. rewrite (unscaled_workers _ _ _ Hk). lia. }
  apply decide_pool_Ok in Hd as (Hoc & Hoq & Hou & Hrec).
  unfold mbind, M_bind. destruct (scale_pool _ _ _ _ _ _ _ w1) as [w2 r2] eqn:Hscale.
  assert (current ≤ cluster_workers all w) as Hle.
  { apply sum_Z_elem; [|by apply list_elem_of_fmap_2]. rewrite !Forall_fmap. exact Hpos. }
  destruct (scale_pool_spec self pool s current (cluster_workers all w) pods now durable w1 w2 r2 set)
    as (Hother & Hnew & Hbound & Hexact); [done|apply Hpm|done|done|apply Hk|lia|lia|done|done| |done|done|].
  { apply Hou; [lia|apply quota_bounds; [done|done]]. }
  assert (cluster_workers all w2 = cluster_workers all w - current + replicas_in w2 set) as Hsum.
  { unfold cluster_workers. rewrite (sum_Z_update (replicas_in w) (replicas_in w2) _ set); [done|done|done|].
    intros y Hy. by rewrite Hother, Hk. }
  destruct r2 as [total'|e]; [|intros [= <- <-]; lia]. specialize (Hexact _ eq_refl).
  apply NoDup_cons in Hndl as [Hnotin Hndl].
  apply IH; [done|set_solver|done|done| | |lia|lia].
  - apply Forall_forall. intros p Hpin. destruct (decide (kubernetes_stateful_set p = set)) as [->|Hne]; [done|].
    rewrite Hother, Hk by done. rewrite Forall_forall in Hpos. auto.
  - apply Forall_forall. intros p Hpin. rewrite Forall_forall in Hfetch'. destruct (Hfetch' p Hpin) as (s' & ? & ? & Hr').
    exists s'. rewrite Hother, Hk; [done|]. intros Heq. apply Hnotin. fold set. rewrite <-Heq. by apply list_elem_of_fmap_2.
Qed.

(** C25: a reconciliation of a controller built from a reviewed catalogue never
    takes the cluster above its quota of workers, whether it succeeds or stops
    at an error: from at most [maximum_total_workers] replicas in all pools
    together it leads to at most as many. *)
Theorem cluster_quota_respected c maximum interval port self w w' r :
  new c maximum interval port = Ok self → maximum ≤ u32_max → Forall pool_u32 (pools c) →
  cluster_workers (pools c) w ≤ maximum →
  reconcile_once store_config self w = (w', r) →
  cluster_workers (pools c) w' ≤ maximum.
Proof.
  intros Hnew Hmax Hpools Hstart Hrun. apply bind_Ok_inv in Hnew as ([] & Hc%map_err_Ok & Hnew).
  apply bind_Ok_inv in Hnew as ([] & _ & [= <-]). apply validate_catalog_Ok in Hc as [_ Hnames Hsets _ _].
  unfold reconcile_once in Hrun. cbn [catalog] in Hrun. unfold mbind, M_bind in Hrun.
  pose proof (fetch_sets_keeps (pools c) ∅ 0 w) as Hk.
  destruct (fetch_sets (pools c) ∅ 0 w) as [w1 [[sets total]|e]] eqn:Hf; simpl in Hk.
  2: { injection Hrun as <- <-. by rewrite (unscaled_workers _ _ _ Hk). }
  apply fetch_sets_Ok in Hf as (-> & Ht & Hfetch & _); [|done|done].
  assert (Forall (fetched sets w1) (pools c)) as Hfetch1.
  { eapply Forall_impl; [exact Hfetch|]. intros p (s & Hs & Hn & Hr). exists s. by rewrite Hk. }
  eapply (reconcile_pools_bound (MkController c maximum interval port)) in Hrun; try done.
  - eapply Forall_impl; [exact Hfetch1|]. intros p (s & _ & _ & Hr). by apply replicas_Ok in Hr as [_ ?].
  - by rewrite (unscaled_workers _ _ _ Hk).
Qed.
End proofs.

(** ** A concrete cluster *)

(** Its state is the number of replicas of each set. *)
Definition w_set (name : string) (replicas : Z) : StatefulSet :=
  MkSet (Some name) (Some "uid"%string) (Some "1"%string) {[POOL_LABEL := name]} (Some replicas).

#[local] Instance w_kubernetes : Kubernetes (gmap string Z) := {|
  get_stateful_set name := λ k, (k, Ok (w_set name (default 1 (k !! name))));
  list_pods _ := λ k, (k, Ok []);
  delete_pod _ _ _ := λ k, (k, Ok tt);
  patch_stateful_set name _ n := λ k, (<[name := n]> k, Ok tt);
  probe_broker _ _ := λ k, (k, Ok []);
  system_clock := λ k, (k, Ok 100)
|}.

#[local] Instance w_kubernetes_laws : KubernetesLaws (gmap string Z).
Proof.
  refine {| replica_count k name := default 1 (k !! name) |}; try (intros; intros ? ?; done).
  - intros name k k' s [= <- <-]. done.
  - intros name version n k k' r [= <- <-]. rewrite lookup_insert_eq. split; [|by left].
    intros other Hne. by rewrite lookup_insert_ne.
Defined.

Definition w_pool (name cohort : string) (fallback : bool) : WorkerPool :=
  MkPool name name "zone-a"
    (MkCeilings [GuestProfile.MkProfileId "linux" 1] 2 1000 134217728 500 96 16777216 67108864 1 8388608 1048576)
    (MkPoolKey cohort "small" (GuestProfile.MkProfileId "linux" 1) "runsc" TierLoopback TierEphemeral)
    w_policy fallback.
Definition w_catalog : WorkerPoolCatalog := MkCatalog 1 [w_pool "cold" "root-a" true; w_pool "warm" "root-b" false].

(** Both pools want more workers to stay warm; the second one gets what is left of the quota. *)
Lemma cluster_quota_respected_witness :
  ∃ w', reconcile_once ex_config (MkController w_catalog 3 1000 8080) (∅, empty_db) = (w', Ok tt) ∧
    cluster_workers (pools w_catalog) w' = 3 ∧ cluster_workers (pools w_catalog) w' ≤ 3.
Proof.
  eexists. split; [vm_compute; reflexivity|]. split; [vm_compute; reflexivity|].
  eapply (cluster_quota_respected ex_config w_catalog 3 1000 8080 (MkController w_catalog 3 1000 8080) (∅, empty_db)).
  - vm_compute; reflexivity.
  - vm_compute; discriminate.
  - repeat constructor; vm_compute; discriminate.
  - vm_compute; discriminate.
  - vm_compute; reflexivity.
Defined.
