(* ===== verification/Verifier.v ===== *)
(** * Authorization of requests

    Models [bins/sandboxd/src/authorization/verifier.rs], [peer.rs], the access
    contexts of [context.rs] and the authorization functions of
    [bins/sandboxd/src/server/connection.rs].  The JSON encoding of claims,
    HMAC-SHA-256 and the [hex] crate are parameters.  The replay cache is used
    through [Replay]: a verification runs up to the end of the locked section
    of [consume], and completes with [consume_finish]. *)
From S2P Require Import Prelude Identity GuestProfile Volume Network Topology WorkOrder Protocol Journal LineCodec Replay Compiler.
Import Topology.Topology WorkOrder.WorkOrder Protocol.Protocol.

Module Verifier.

Definition CLOCK_SKEW_MILLIS : Z := 30000.
Definition KEY_BYTES : Z := 32.

(** The [serde_json] encoding of claims, [Hmac::<Sha256>] verification of a
    payload and a tag under a key, and [hex::decode]. *)
Class SignatureCodec : Type := {
  encode_claims : WorkOrderClaims → result string (list ascii);
  mac_verifies : list ascii → list ascii → list ascii → bool;
  hex_decode : string → option (list ascii)
}.

(** [unix_millis] on the clock's distance from the Unix epoch. *)
Definition unix_millis (clock : Z) : result SandboxError Z :=
  reject_if (clock <? 0) (Runtime "system clock predates the Unix epoch");;
  reject_if (u64_max <? clock) (Runtime "system time overflow");;
  mret clock.

Section code.
Context `{SignatureCodec, OperationCodec, TopologyCodec}.

Definition verify_signature (key : list ascii) (work_order : SignedWorkOrder) : result SandboxError () :=
  reject_if (negb (len (signature work_order) =? 64)
             || negb (all_bytes is_ascii_hexdigit (signature work_order)))
    (Runtime "work-order signature is invalid");;
  tag ← ok_or (Runtime "work-order signature is invalid") (hex_decode (signature work_order));
  payload ← map_err (λ error, Runtime ("encode work-order claims: " +:+ error))
    (encode_claims (claims work_order));
  reject_if (negb (mac_verifies key payload tag)) (Runtime "work-order signature is invalid").

(** The comparison of a topology with the ceilings. *)
Definition topology_exceeds (topology : TopologyLock) (usage : VolumeResourceUsage) (c : ResourceCeilings) : bool :=
  let p := policy topology in
  (maximum_services c <? Z.of_nat (size (services topology)))
  || (maximum_volumes c <? usage_count usage)
  || (maximum_volume_bytes c <? usage_quota_bytes usage)
  || negb (bool_decide (guest_profile p ∈ allowed_guest_profiles c))
  || (WorkOrder.memory_bytes_per_service c <? Topology.memory_bytes_per_service p)
  || (WorkOrder.cpu_per_service_millis c <? Topology.cpu_per_service_millis p)
  || (WorkOrder.pids_per_service c <? Topology.pids_per_service p)
  || (WorkOrder.tmpfs_bytes c <? Topology.tmpfs_bytes p)
  || (WorkOrder.writable_root_bytes_per_service c <? Topology.writable_root_bytes_per_service p)
  || (WorkOrder.maximum_output_bytes c <? Topology.maximum_output_bytes p).

(** [usize] has 64 bits, so the conversion of the output limit succeeds. *)
Definition enforce_resource_ceilings (o : Operation) (c : WorkOrderClaims) : result (failure SandboxError) () :=
  let ceilings := resource_ceilings c in
  reject_if (match operation_timeout_ms o with
             | Some timeout => maximum_timeout_ms ceilings <? timeout
             | None => false
             end) (Rejected (Runtime "request exceeds the authorized timeout"));;
  match operation_topology o with
  | None => Ok tt
  | Some topology =>
      usage ← volume_resource_usage topology;
      reject_if (topology_exceeds topology usage ceilings)
        (Rejected (Runtime "topology exceeds authorized resource ceilings"))
  end.

(** The third guard of [verify_at]; the digest is computed only when the
    other three comparisons agree. *)
Definition verify_binding (request : Request) (c : WorkOrderClaims) : result SandboxError () :=
  let unauthorized := Runtime "work order does not authorize this request" in
  reject_if (negb (bool_decide (request_id c = rq_request_id request))
             || negb (bool_decide (Some (operation c) = work_order_operation (rq_operation request)))
             || negb (bool_decide (as_str <$> WorkOrder.sandbox_id c = operation_sandbox (rq_operation request))))
    unauthorized;;
  digest ← map_err Runtime (operation_digest_of (rq_operation request));
  reject_if (negb (bool_decide (operation_digest c = digest))) unauthorized.

Definition claims_scope (c : WorkOrderClaims) : TenantScope :=
  Scope (WorkOrder.tenant_id c) (WorkOrder.workspace_id c).

(** [verify_at] up to the replay cache. *)
Definition verify_checks (key : list ascii) (request : Request) (work_order : SignedWorkOrder) (now : Z) :
    result (failure SandboxError) () :=
  let c := claims work_order in
  map_err (λ error, Rejected (Runtime (core_error_to_string error))) (validate_claims c);;
  map_err Rejected (verify_signature key work_order);;
  reject_if ((u64_saturating_add now CLOCK_SKEW_MILLIS <? issued_unix_millis c)
             || (WorkOrder.expires_unix_millis c <=? now))
    (Rejected (Runtime "work order is expired or not yet valid"));;
  map_err Rejected (verify_binding request c);;
  enforce_resource_ceilings (rq_operation request) c.

End code.

(** ** The key file *)

(** The metadata of the key file that is inspected. *)
Record Metadata : Type := MkMetadata { is_file : bool; uid : Z; mode : Z }.

Definition utf8 (codes : list Z) : string := string_of_list_ascii ((λ n, ascii_of_N (Z.to_N n)) <$> codes).

(** The characters with the Unicode property [White_Space], in UTF-8. *)
Definition WHITE_SPACE : list string :=
  utf8 <$> ([[9]; [10]; [11]; [12]; [13]; [32]; [194; 133]; [194; 160]; [225; 154; 128];
             [226; 128; 168]; [226; 128; 169]; [226; 128; 175]; [226; 129; 159]; [227; 128; 128]]
            ++ ((λ n, [226; 128; 128 + Z.of_nat n]) <$> seq 0 11)).

(** [s.trim() != s] on UTF-8. *)
Definition trim_changes (s : string) : bool :=
  existsb (λ w, starts_with w s || ends_with w s) WHITE_SPACE.

(** The key read by [from_key_file] from the metadata and the text of the file. *)
Definition read_key `{SignatureCodec} (metadata : result string Metadata) (content : result string string) :
    result SandboxError (list ascii) :=
  m ← map_err (λ source, Runtime ("read work-order key metadata: " +:+ source)) metadata;
  reject_if (negb (is_file m) || negb (uid m =? 0) || negb (Z.land (mode m) 18 =? 0)
             || negb (Z.land (mode m) 7 =? 0))
    (Runtime "work-order key must be a root-owned regular file without group write or world access");;
  encoded ← map_err (λ source, Runtime ("read work-order key: " +:+ source)) content;
  let encoded := match strip_suffix (utf8 [13; 10]) encoded with
                 | Some t => t
                 | None => default encoded (strip_suffix (utf8 [10]) encoded)
                 end in
  reject_if (trim_changes encoded) (Runtime "work-order key contains surrounding whitespace");;
  decoded ← ok_or (Runtime "work-order key is not hexadecimal") (hex_decode encoded);
  reject_if (negb (length_z decoded =? KEY_BYTES)) (Runtime "work-order key must contain exactly 32 bytes");;
  mret decoded.

(** ** Contexts and endpoints *)

Record VerifiedTenant : Type := MkTenant {
  vt_scope : TenantScope;
  vt_subject_id : SubjectId;
  vt_assignment_epoch : AssignmentEpoch
}.

Inductive AccessContext : Type :=
| Operator (scope : TenantScope) (subject_id : SubjectId)
| Tenant (tenant : VerifiedTenant).

Definition context_scope (c : AccessContext) : TenantScope :=
  match c with Operator scope _ => scope | Tenant t => vt_scope t end.
Definition context_subject_id (c : AccessContext) : SubjectId :=
  match c with Operator _ subject => subject | Tenant t => vt_subject_id t end.
Definition context_assignment_epoch (c : AccessContext) : option AssignmentEpoch :=
  match c with Operator _ _ => None | Tenant t => Some (vt_assignment_epoch t) end.
Definition is_operator (c : AccessContext) : bool :=
  match c with Operator _ _ => true | Tenant _ => false end.
Definition context_sandbox_key (c : AccessContext) (id : SandboxId) : SandboxKey := Key (context_scope c) id.

Inductive ConnectionEndpoint : Type :=
| OperatorEndpoint
| WorkloadEndpoint (broker_uid : Z).

Definition authorize_peer (peer_uid : Z) (endpoint : ConnectionEndpoint) : result SandboxError () :=
  let expected_uid := match endpoint with OperatorEndpoint => 0 | WorkloadEndpoint uid => uid end in
  reject_if (negb (peer_uid =? expected_uid)) (Runtime "control peer is not authorized for this endpoint").

Definition local_tenant : TenantId := id_lit "local".
Definition local_workspace : WorkspaceId := id_lit "local".
Definition legacy_subject : SubjectId := id_lit "legacy-root".

Definition authorize_operator (request : Request) : result SandboxError AccessContext :=
  let invalid := Err (Runtime "operator request authorization is invalid") in
  match rq_authorization request with
  | None =>
      if rq_schema_version request =? LEGACY_OPERATOR_PROTOCOL_VERSION
      then Ok (Operator (Scope local_tenant local_workspace) legacy_subject) else invalid
  | Some (AuthOperator tenant workspace subject) =>
      if rq_schema_version request =? PROTOCOL_VERSION
      then Ok (Operator (Scope tenant workspace) subject) else invalid
  | Some (AuthWorkOrder _) => invalid
  end.

Section endpoint.
Context `{SignatureCodec, OperationCodec, TopologyCodec, Replay.ReplayCodec} {J : Type} `{DurableLog J}.

Record WorkOrderVerifier : Type := MkVerifier { key : list ascii; replay : Replay.ReplayCache (J := J) }.

(** The receipts of [consume] that a verified request still waits for. *)
Abbreviation receipts := (option nat * option nat)%type.

Definition verify_at (v : WorkOrderVerifier) (request : Request) (work_order : SignedWorkOrder) (now : Z) :
    WorkOrderVerifier * result (failure SandboxError) (VerifiedTenant * receipts) :=
  let c := claims work_order in
  match verify_checks (key v) request work_order now with
  | Err e => (v, Err e)
  | Ok _ =>
      let '(cache, r) := Replay.consume_locked (claims_scope c) (nonce c)
                           (WorkOrder.expires_unix_millis c) now (replay v) in
      (MkVerifier (key v) cache,
       waits ← map_err Rejected r;
       mret (MkTenant (claims_scope c) (subject_id c) (assignment_epoch c), waits))
  end.

Definition verify (v : WorkOrderVerifier) (request : Request) (work_order : SignedWorkOrder) (clock : Z) :
    WorkOrderVerifier * result (failure SandboxError) (VerifiedTenant * receipts) :=
  match unix_millis clock with
  | Err e => (v, Err (Rejected e))
  | Ok now => verify_at v request work_order now
  end.

(** [verifier.verify(..).map(AccessContext::Tenant)] on the optional verifier. *)
Definition verify_configured (request : Request) (work_order : SignedWorkOrder) (clock : Z) :
    M (option WorkOrderVerifier) (failure SandboxError) (AccessContext * receipts) :=
  λ s, match s with
       | None => (None, Err (Rejected (Runtime "workload endpoint is not configured")))
       | Some v =>
           match verify v request work_order clock with
           | (v', Ok (tenant, waits)) => (Some v', Ok (Tenant tenant, waits))
           | (v', Err e) => (Some v', Err e)
           end
       end.

Definition authorize_workload (request : Request) (clock : Z) :
    M (option WorkOrderVerifier) (failure SandboxError) (AccessContext * receipts) :=
  M_reject_if (negb (rq_schema_version request =? PROTOCOL_VERSION))
    (Rejected (Runtime "workload endpoint requires protocol version 2"));;
  work_order ← M_lift match rq_authorization request with
    | Some (AuthWorkOrder work_order) => Ok work_order
    | _ => Err (Rejected (Runtime "workload endpoint requires a signed work order"))
    end;
  verify_configured request work_order clock.

Definition authorize_request (request : Request) (endpoint : ConnectionEndpoint) (clock : Z) :
    M (option WorkOrderVerifier) (failure SandboxError) (AccessContext * receipts) :=
  M_reject_if (negb (valid_request_id (rq_request_id request))) (Rejected (Runtime "invalid request identifier"));;
  match endpoint with
  | OperatorEndpoint =>
      context ← M_lift (map_err Rejected (authorize_operator request));
      mret (context, (None, None))
  | WorkloadEndpoint _ => authorize_workload request clock
  end.
End endpoint.

End Verifier.
Import Verifier.

(** ** What an accepted request is *)

Section authorized.
Context `{SignatureCodec, OperationCodec, TopologyCodec}.

(** The signature is the tag of the claims' encoding under the key. *)
Definition signed (key : list ascii) (w : SignedWorkOrder) : Prop :=
  len (signature w) = 64 ∧ all_bytes is_ascii_hexdigit (signature w) = true ∧
  ∃ tag payload, hex_decode (signature w) = Some tag ∧ encode_claims (claims w) = Ok payload ∧
    mac_verifies key payload tag = true.

(** A topology within the ceilings: the volumes that its services mount are
    counted once, and their quotas are summed. *)
Definition within (lock : TopologyLock) (c : ResourceCeilings) : Prop :=
  Z.of_nat (size (services lock)) ≤ maximum_services c ∧
  Z.of_nat (size (mounted_volume_ids lock)) ≤ maximum_volumes c ∧
  sum_Z (quota_of lock <$> elements (mounted_volume_ids lock)) ≤ maximum_volume_bytes c ∧
  guest_profile (policy lock) ∈ allowed_guest_profiles c ∧
  Topology.memory_bytes_per_service (policy lock) ≤ WorkOrder.memory_bytes_per_service c ∧
  Topology.cpu_per_service_millis (policy lock) ≤ WorkOrder.cpu_per_service_millis c ∧
  Topology.pids_per_service (policy lock) ≤ WorkOrder.pids_per_service c ∧
  Topology.tmpfs_bytes (policy lock) ≤ WorkOrder.tmpfs_bytes c ∧
  Topology.writable_root_bytes_per_service (policy lock) ≤ WorkOrder.writable_root_bytes_per_service c ∧
  Topology.maximum_output_bytes (policy lock) ≤ WorkOrder.maximum_output_bytes c.

Record authorizes (key : list ascii) (request : Request) (w : SignedWorkOrder) (now : Z) : Prop := Authorizes {
  auth_claims : validate_claims (claims w) = Ok tt;
  auth_signed : signed key w;
  auth_issued : issued_unix_millis (claims w) ≤ Z.min u64_max (now + CLOCK_SKEW_MILLIS);
  auth_live : now < WorkOrder.expires_unix_millis (claims w);
  auth_request : request_id (claims w) = rq_request_id request;
  auth_operation : work_order_operation (rq_operation request) = Some (operation (claims w));
  auth_sandbox : operation_sandbox (rq_operation request) = as_str <$> WorkOrder.sandbox_id (claims w);
  auth_digest : operation_digest_of (rq_operation request) = Ok (operation_digest (claims w));
  auth_timeout : ∀ t, operation_timeout_ms (rq_operation request) = Some t →
    t ≤ maximum_timeout_ms (resource_ceilings (claims w));
  auth_topology : ∀ lock, operation_topology (rq_operation request) = Some lock →
    (∃ u, volume_resource_usage lock = Ok u) ∧ within lock (resource_ceilings (claims w))
}.

Lemma verify_signature_Ok key w : verify_signature key w = Ok tt ↔ signed key w.
Proof.
  unfold verify_signature, signed. rewrite seq_Ok, reject_if_Ok, orb_false_iff, !negb_false_iff, Z.eqb_eq.
  destruct (hex_decode (signature w)) as [tag|]; simpl; [|naive_solver].
  destruct (encode_claims (claims w)) as [payload|]; simpl; [|naive_solver].
  rewrite reject_if_Ok, negb_false_iff. naive_solver.
Qed.

Lemma topology_exceeds_false lock u c :
  volume_resource_usage lock = Ok u → topology_exceeds lock u c = false ↔ within lock c.
Proof.
  intros (_ & Hcount & Hsum & _)%(proj2 (volume_resource_usage_spec lock)).
  unfold topology_exceeds, within. cbv zeta. rewrite <- Hcount, <- Hsum.
  rewrite !orb_false_iff, negb_false_iff, bool_decide_eq_true, !Z.ltb_ge. tauto.
Qed.

Lemma verify_binding_Ok request c :
  verify_binding request c = Ok tt ↔
  request_id c = rq_request_id request ∧
  work_order_operation (rq_operation request) = Some (operation c) ∧
  operation_sandbox (rq_operation request) = as_str <$> WorkOrder.sandbox_id c ∧
  operation_digest_of (rq_operation request) = Ok (operation_digest c).
Proof.
  unfold verify_binding. cbv zeta. rewrite seq_Ok, reject_if_Ok, !orb_false_iff, !negb_false_iff, !bool_decide_eq_true.
  destruct (operation_digest_of (rq_operation request)) as [d|]; simpl map_err; simpl mbind; [|naive_solver].
  rewrite reject_if_Ok, negb_false_iff, bool_decide_eq_true.
  split; [intros [[[? ?] ?] ?]|intros (? & ? & ? & [=])]; split_and!; congruence.
Qed.

Lemma enforce_Ok o c :
  enforce_resource_ceilings o c = Ok tt ↔
  (∀ t, operation_timeout_ms o = Some t → t ≤ maximum_timeout_ms (resource_ceilings c)) ∧
  (∀ lock, operation_topology o = Some lock →
     (∃ u, volume_resource_usage lock = Ok u) ∧ within lock (resource_ceilings c)).
Proof.
  unfold enforce_resource_ceilings. cbv zeta. rewrite seq_Ok, reject_if_Ok. f_equiv.
  { destruct (operation_timeout_ms o) as [t|]; [rewrite Z.ltb_ge|]; naive_solver. }
  destruct (operation_topology o) as [lock|]; [|naive_solver].
  destruct (volume_resource_usage lock) as [u|e] eqn:Hu; simpl mbind.
  - rewrite reject_if_Ok, (topology_exceeds_false _ _ _ Hu). split; [|naive_solver].
    intros Hw l [= <-]. eauto.
  - split; [done|]. intros Hl. destruct (Hl lock eq_refl) as [[u Habs] _]. congruence.
Qed.

Lemma verify_checks_Ok key request w now :
  verify_checks key request w now = Ok tt ↔ authorizes key request w now.
Proof.
  unfold verify_checks. cbv zeta.
  rewrite !seq_Ok, !map_err_Ok, reject_if_Ok, orb_false_iff, Z.ltb_ge, Z.leb_gt, verify_signature_Ok,
    verify_binding_Ok, enforce_Ok.
  unfold saturating_add. split.
  - intros (? & ? & [? ?] & (? & ? & ? & ?) & ? & ?). by constructor.
  - intros []. by split_and!.
Qed.

Lemma verify_checks_total key request w now : total (verify_checks key request w now).
Proof.
  unfold verify_checks, enforce_resource_ceilings. cbv zeta.
  repeat (apply total_bind; [auto with total|intros ? _]).
  destruct (operation_topology (rq_operation request)) as [lock|]; [|done].
  apply total_bind; [apply volume_resource_usage_spec|auto with total].
Qed.

(** The verifier accepts exactly the requests that their work order
    authorizes.  The checks of [verify_at] before the replay cache never hit
    one of the panics of the volume accounting, and they succeed if and only
    if [authorizes] holds: valid claims, a signature under the key, a live
    validity window (with the clock skew, without overflow), the same request,
    operation, sandbox and digest, and a timeout and topology within the
    ceilings, where each mounted volume counts once. *)
Theorem verify_checks_exact key request w now :
  total (verify_checks key request w now) ∧
  (verify_checks key request w now = Ok tt ↔ authorizes key request w now).
Proof. split; [apply verify_checks_total|apply verify_checks_Ok]. Qed.
End authorized.

Section endpoints.
Context `{SignatureCodec, OperationCodec, TopologyCodec, Replay.ReplayCodec} {J : Type} `{DurableLog J}.
Implicit Types v : WorkOrderVerifier (J := J).

Lemma unix_millis_Ok clock now : unix_millis clock = Ok now → now = clock ∧ in_u64 clock.
Proof.
  unfold unix_millis, in_u64. destruct (Z.ltb_spec clock 0); [done|].
  destruct (Z.ltb_spec u64_max clock); [done|]. intros [= <-]. lia.
Qed.

Lemma verify_at_Ok v request w now v' tenant waits :
  verify_at v request w now = (v', Ok (tenant, waits)) →
  authorizes (key v) request w now ∧
  tenant = MkTenant (claims_scope (claims w)) (subject_id (claims w)) (assignment_epoch (claims w)) ∧
  key v' = key v ∧
  Replay.consume_locked (claims_scope (claims w)) (nonce (claims w))
    (WorkOrder.expires_unix_millis (claims w)) now (replay v) = (replay v', Ok waits).
Proof.
  unfold verify_at. cbv zeta. destruct (verify_checks _ _ _ _) as [[]|] eqn:Hc; [|done].
  destruct (Replay.consume_locked _ _ _ _ _) as [cache [waits'|]] eqn:Hr; intros [=]; simplify_eq/=.
  split; [by apply verify_checks_Ok|done].
Qed.

(** What the workload endpoint accepts. *)
Lemma authorize_workload_spec request uid clock (s s' : option (WorkOrderVerifier (J := J))) context waits :
  authorize_request request (WorkloadEndpoint uid) clock s = (s', Ok (context, waits)) →
  ∃ v v' w, s = Some v ∧ s' = Some v' ∧ rq_authorization request = Some (AuthWorkOrder w) ∧
    authorizes (key v) request w clock ∧
    context = Tenant (MkTenant (claims_scope (claims w)) (subject_id (claims w)) (assignment_epoch (claims w))) ∧
    Replay.consume_locked (claims_scope (claims w)) (nonce (claims w))
      (WorkOrder.expires_unix_millis (claims w)) clock (replay v) = (replay v', Ok waits) ∧
    ¬ (∃ source digest age, rq_operation request ∈
         [OpReady; OpPublishArtifact source digest; OpGarbageCollectArtifacts age; OpShutdown]).
Proof.
  unfold authorize_request, authorize_workload. intros Hrun.
  apply M_bind_Ok_inv in Hrun as ([] & s1 & [= <- _] & Hrun).
  apply M_bind_Ok_inv in Hrun as ([] & s2 & [= <- _] & Hrun).
  apply M_bind_Ok_inv in Hrun as (w & s3 & [= <- Hw] & Hrun).
  destruct (rq_authorization request) as [[|w']|] eqn:Hauth; simplify_eq/=.
  unfold verify_configured in Hrun. destruct s as [v|]; [|done].
  destruct (verify v request w clock) as [v' [[tenant waits']|]] eqn:Hv; [|done]. simplify_eq/=.
  unfold verify in Hv. destruct (unix_millis clock) as [now|] eqn:Hnow; [|done].
  apply unix_millis_Ok in Hnow as [-> _].
  apply verify_at_Ok in Hv as (Ha & -> & _ & Hc).
  exists v, v', w. split_and!; try done.
  intros (source & digest & age & Hin). pose proof (auth_operation _ _ _ _ Ha) as Hop.
  repeat (apply elem_of_cons in Hin as [Hin|Hin]; [by rewrite Hin in Hop|]). by apply not_elem_of_nil in Hin.
Qed.

(** On the workload endpoint a request is accepted only as a tenant, and
    only as its signed work order says.  Whatever the request and the state of
    the verifier, an accepted request gets a tenant context (never an operator
    one) whose scope, subject and epoch are those of a work order that the
    request carries; the work order is valid, signed with the daemon's key,
    live at the time of the clock, names this request, its operation, its
    sandbox and its digest, and the timeout, topology and volumes of the
    operation are within its ceilings; its nonce was consumed in the same step.
    The operator's operations (ready, publish, collect, shutdown) are never accepted. *)
Theorem workload_request_is_authorized request uid clock (s s' : option (WorkOrderVerifier (J := J))) context waits :
  authorize_request request (WorkloadEndpoint uid) clock s = (s', Ok (context, waits)) →
  ∃ v v' w, s = Some v ∧ s' = Some v' ∧ rq_authorization request = Some (AuthWorkOrder w) ∧
    authorizes (key v) request w clock ∧
    context = Tenant (MkTenant (claims_scope (claims w)) (subject_id (claims w)) (assignment_epoch (claims w))) ∧
    Replay.consume_locked (claims_scope (claims w)) (nonce (claims w))
      (WorkOrder.expires_unix_millis (claims w)) clock (replay v) = (replay v', Ok waits) ∧
    ¬ (∃ source digest age, rq_operation request ∈
         [OpReady; OpPublishArtifact source digest; OpGarbageCollectArtifacts age; OpShutdown]).
Proof. apply authorize_workload_spec. Qed.
End endpoints.

(** ** A daemon that verifies requests

    The steps of a daemon around the replay cache: a thread verifies a request
    up to the end of the locked section, or one of the steps of [Replay] that
    are not a call of [consume] happens (the writer thread writes, a call
    completes, the daemon crashes and restarts). *)

Inductive vlabel : Type :=
| Verified (request : Request) (w : SignedWorkOrder) (now : Z) (r : result (failure SandboxError) ())
| Background (l : Replay.label).

Definition vlabel_before (t : Z) (l : vlabel) : Prop :=
  match l with Verified _ _ now _ => now < t | Background l => Replay.label_before t l end.

Section daemon.
Context `{SignatureCodec, OperationCodec, TopologyCodec, ReplayCodecLaws} {J : Type} `{!DurableLog J}.
Context (path : string) (secret : list ascii).
Implicit Types s : Replay.system (J := J).

Definition begun (w : SignedWorkOrder) (r : result (failure SandboxError) (VerifiedTenant * (option nat * option nat))) :
    list Replay.call :=
  match r with
  | Ok (_, (append, replacement)) =>
      [Replay.MkCall (claims_scope (claims w)) (nonce (claims w)) (WorkOrder.expires_unix_millis (claims w))
         append replacement]
  | Err _ => []
  end.

Definition outcome {E A} (r : result E A) : result E () := _ ← r; mret tt.

Inductive vstep : Replay.system (J := J) → vlabel → Replay.system (J := J) → Prop :=
| v_verify s request w now v' r :
    in_u64 now → in_u64 (WorkOrder.expires_unix_millis (claims w)) →
    verify_at (MkVerifier secret (Replay.sys_cache s)) request w now = (v', r) →
    vstep s (Verified request w now (outcome r)) (Replay.MkSystem (replay v') (Replay.sys_calls s ++ begun w r))
| v_background s l s' :
    match l with Replay.Began _ _ _ _ _ => False | _ => True end →
    Replay.step path s l s' → vstep s (Background l) s'.

Inductive vsteps : Replay.system (J := J) → list vlabel → Replay.system (J := J) → Prop :=
| vsteps_nil s : vsteps s [] s
| vsteps_cons s1 s2 s3 l tr : vstep s1 l s2 → vsteps s2 tr s3 → vsteps s1 (l :: tr) s3.

(** A step of the daemon is a step of the replay cache, or a refusal that
    leaves it unchanged. *)
Lemma vstep_replay s l s' :
  vstep s l s' →
  (s' = s ∧ ∃ request w now e, l = Verified request w now (Err e)) ∨
  (∃ l', Replay.step path s l' s' ∧ (∀ t, vlabel_before t l → Replay.label_before t l') ∧
     match l with
     | Background l1 => l' = l1
     | Verified _ w now r =>
         ∃ r', l' = Replay.Began (claims_scope (claims w)) (nonce (claims w))
                 (WorkOrder.expires_unix_millis (claims w)) now r' ∧ r = map_err Rejected r'
     end).
Proof.
  destruct 1 as [s request w now v' r Hnow Hexp Hv|s l s' _ Hstep]; [|right; eauto].
  unfold verify_at in Hv. cbv zeta in Hv. cbn [key replay] in Hv.
  destruct (verify_checks secret request w now) as [[]|e] eqn:Hc; simplify_eq.
  2: { left. cbn. rewrite app_nil_r. split; [by destruct s|eauto]. }
  right. apply verify_checks_Ok in Hc. pose proof (auth_live _ _ _ _ Hc) as Hlive. unfold in_u64 in *.
  destruct (Replay.consume_locked _ _ _ _ _) as [cache [[append replacement]|e]] eqn:Hr; simplify_eq; cbn.
  - eexists. split; [refine (Replay.step_begin path s _ _ _ _ _ _ _ _ _ Hr); lia|]. split; [done|by eexists].
  - eexists. rewrite app_nil_r. split; [refine (Replay.step_reject path s _ _ _ _ _ _ _ _ Hr); lia|]. split; [done|by eexists].
Qed.

Section spent.
Context (scope : TenantScope) (n0 : string) (e : Z).

Definition refuses (l : vlabel) : Prop :=
  ∀ request w now r, l = Verified request w now r →
    claims_scope (claims w) = scope → nonce (claims w) = n0 → is_ok r = false.

Lemma vconsumed_step s l s' :
  consumed scope n0 e s → vlabel_before e l → vstep s l s' → consumed scope n0 e s' ∧ refuses l.
Proof.
  intros Hs Hl [[-> (rq & w & now & err & ->)]|(l' & Hstep & Hb & Hm)]%vstep_replay.
  { split; [done|]. by intros ? ? ? ? [= <- <- <- <-]. }
  destruct (consumed_step path scope n0 e s l' s' Hs (Hb _ Hl) Hstep) as [Hs' Hrej].
  split; [done|]. intros rq w now r -> Hsc Hno. destruct Hm as (r' & -> & ->).
  rewrite Hsc, Hno in Hrej. by rewrite (Hrej _ _ _ eq_refl).
Qed.

Lemma vundecided_step s l s' :
  undecided scope n0 e s → vlabel_before e l → vstep s l s' →
  undecided scope n0 e s' ∧ (l = Background (Replay.Finished scope n0 e (Ok tt)) → consumed scope n0 e s').
Proof.
  intros Hs Hl [[-> (rq & w & now & err & ->)]|(l' & Hstep & Hb & Hm)]%vstep_replay; [done|].
  destruct (undecided_step path scope n0 e s l' s' Hs (Hb _ Hl) Hstep) as [Hs' Hdone].
  split; [done|]. intros ->. by apply Hdone.
Qed.

Lemma vconsumed_trace s tr s' :
  consumed scope n0 e s → vsteps s tr s' → Forall (vlabel_before e) tr → Forall refuses tr.
Proof.
  intros Hs Hsteps. revert Hs. induction Hsteps as [|s1 s2 s3 l tr Hstep _ IH]; intros Hs Htr; [constructor|].
  apply Forall_cons in Htr as [Hl Htr]. destruct (vconsumed_step _ _ _ Hs Hl Hstep) as [Hs2 Hr].
  constructor; auto.
Qed.

Lemma vundecided_trace s tr1 tr2 s' :
  undecided scope n0 e s →
  vsteps s (tr1 ++ Background (Replay.Finished scope n0 e (Ok tt)) :: tr2) s' →
  Forall (vlabel_before e) (tr1 ++ Background (Replay.Finished scope n0 e (Ok tt)) :: tr2) →
  Forall refuses tr2.
Proof.
  revert s. induction tr1 as [|l tr1 IH]; intros s Hs Hsteps Htr; inversion Hsteps as [|? s2 ? ? ? Hstep Hrest]; subst;
    apply Forall_cons in Htr as [Hl Htr]; destruct (vundecided_step _ _ _ Hs Hl Hstep) as [Hs2 Hdone].
  - eapply vconsumed_trace; eauto.
  - eapply IH; eauto.
Qed.
End spent.

(** C5: A work order that was accepted once is never accepted again.  In any
    run of the daemon (requests verified by several threads, journal writes
    that may fail, crashes and restarts), after a verification completed with
    success for a scope and nonce, every later verification of a work order
    with that scope and nonce is refused, as long as the clock reads before the
    expiry of the accepted one. *)
Theorem work_order_is_spent s0 tr1 tr2 s scope n0 e request w now r :
  Replay.started s0 →
  vsteps s0 (tr1 ++ Background (Replay.Finished scope n0 e (Ok tt)) :: tr2) s →
  Forall (vlabel_before e) (tr1 ++ Background (Replay.Finished scope n0 e (Ok tt)) :: tr2) →
  Verified request w now r ∈ tr2 →
  claims_scope (claims w) = scope → nonce (claims w) = n0 →
  is_ok r = false.
Proof.
  intros Hs0 Hsteps Htr Hin Hsc Hno.
  pose proof (vundecided_trace _ _ _ _ _ _ _ (started_undecided scope n0 e s0 Hs0) Hsteps Htr) as Hall.
  rewrite Forall_forall in Hall. by eapply Hall.
Qed.
End daemon.

(** ** A request on concrete encoders *)

#[local] Existing Instances Replay.w_codec Replay.w_codec_laws Compiler.w_topology_codec.

Fixpoint w_hex_pairs (l : list ascii) : option (list ascii) :=
  match l with
  | [] => Some []
  | a :: b :: l' =>
      match w_hex_pairs l' with
      | Some t => Some (ascii_of_N (Z.to_N (16 * hex_value a + hex_value b)) :: t)
      | None => None
      end
  | [_] => None
  end.

#[local] Instance w_signature_codec : SignatureCodec := {
  encode_claims c := Ok (bytes (nonce c) ++ bytes (operation_digest c));
  mac_verifies key payload tag :=
    bool_decide (tag = to_hex 32 (foldl (λ acc c, acc * 256 + code c) 0 (key ++ payload)));
  hex_decode s := w_hex_pairs (bytes s)
}.

#[local] Instance w_operation_codec : OperationCodec := {
  encode_operation o := Ok (bytes (default EmptyString (operation_sandbox o)));
  operation_sha256_hex m := string_of_list_ascii (to_hex 64 (foldl (λ acc c, acc * 256 + code c) 0 m))
}.

Definition w_key : list ascii := bytes "0123456789abcdef0123456789abcdef".
Definition w_operation : Operation := OpCreate w_lock "sandbox-a" 1000.
Definition w_sandbox : SandboxId := id_lit "sandbox-a".
Definition w_subject : SubjectId := id_lit "alice".
Definition w_ceilings : ResourceCeilings :=
  MkCeilings [guest_profile (policy w_lock)] 2 1000 134217728 500 96 16777216 67108864 1 8388608 1048576.
Definition w_claims : WorkOrderClaims :=
  MkClaims 4 (Identity.tenant_id w_scope) (Identity.workspace_id w_scope) w_subject "request-1" Create (Some w_sandbox)
    (epoch_lit 1) 5 100 "nonce"
    (match operation_digest_of w_operation with Ok d => d | Err _ => EmptyString end) w_ceilings.
Definition w_order : SignedWorkOrder :=
  MkSigned w_claims
    (string_of_list_ascii (concat ((λ c, [hex_char (code c / 16); hex_char (code c mod 16)]) <$>
      to_hex 32 (foldl (λ acc c, acc * 256 + code c) 0
        (w_key ++ bytes (nonce w_claims) ++ bytes (operation_digest w_claims)))))).
Definition w_request : Request := MkRequest 2 "request-1" (Some (AuthWorkOrder w_order)) w_operation.
Definition w_verifier : option WorkOrderVerifier := Some (MkVerifier w_key (Replay.sys_cache w_s0)).

Lemma workload_request_is_authorized_witness :
  let run := authorize_request w_request (WorkloadEndpoint 7) 10 w_verifier in
  run.2 = Ok (Tenant (MkTenant w_scope w_subject (epoch_lit 1)), (Some 1%nat, None)) ∧
  authorizes w_key w_request w_order 10.
Proof.
  cbv zeta.
  assert ((authorize_request w_request (WorkloadEndpoint 7) 10 w_verifier).2
          = Ok (Tenant (MkTenant w_scope w_subject (epoch_lit 1)), (Some 1%nat, None))) as Hrun.
  { vm_compute. reflexivity. }
  split; [exact Hrun|].
  destruct (workload_request_is_authorized w_request 7 10 w_verifier _ _ _ (M_run _ _ _ Hrun))
    as (v & v' & w & Hv & _ & Hw & Ha & _).
  injection Hv as <-. injection Hw as <-. exact Ha.
Defined.

(** The daemon accepts the order, writes its nonce, completes, and sees the
    same request again. *)
Definition w_again : WorkOrderVerifier * result (failure SandboxError) (VerifiedTenant * (option nat * option nat)) :=
  verify_at (MkVerifier w_key (Replay.sys_cache w_s4)) w_request w_order 20.
Definition w_refused : result (failure SandboxError) () := Err (Rejected w_error).
Definition w_before : list vlabel :=
  [Verified w_request w_order 10 (Ok tt); Background Replay.Wrote; Background Replay.Wrote].
Definition w_final : Replay.system := Replay.MkSystem (replay w_again.1) [].

Lemma w_finish_step :
  Replay.step "/wal" w_s3 (Replay.Finished w_scope "nonce" 100 (Ok tt)) w_s4.
Proof.
  apply (Replay.step_finish "/wal" w_s3 [] (Replay.MkCall w_scope "nonce" 100 (Some 1%nat) None) []); [done|].
  unfold Replay.consume_finish, Replay.answer. simpl Replay.call_append. simpl Replay.call_replacement.
  assert (∃ j, Replay.journal (Replay.sys_cache w_s3) = Some j ∧ log_wait 1 j = Some (Ok tt)) as (j & -> & ->).
  { eexists. split; vm_compute; reflexivity. }
  reflexivity.
Qed.

Lemma w_order_terms :
  claims_scope (claims w_order) = w_scope ∧ nonce (claims w_order) = "nonce"%string ∧
  WorkOrder.expires_unix_millis (claims w_order) = 100.
Proof. split_and!; reflexivity. Qed.

(** A verification of the order, whose result has been evaluated. *)
Lemma w_verify_step s now r :
  0 ≤ now ≤ 100 →
  (verify_at (MkVerifier w_key (Replay.sys_cache s)) w_request w_order now).2 = r →
  vstep "/wal" w_key s (Verified w_request w_order now (outcome r))
    (Replay.MkSystem (replay (verify_at (MkVerifier w_key (Replay.sys_cache s)) w_request w_order now).1)
       (Replay.sys_calls s ++ begun w_order r)).
Proof.
  intros Hnow Hr. destruct w_order_terms as (_ & _ & He). apply v_verify.
  - unfold in_u64, u64_max. lia.
  - rewrite He. unfold in_u64, u64_max. lia.
  - rewrite <- Hr. apply surjective_pairing.
Qed.

Lemma w_verify_first :
  vstep "/wal" w_key w_s0 (Verified w_request w_order 10 (Ok tt)) w_s1.
Proof.
  assert ((verify_at (MkVerifier w_key (Replay.sys_cache w_s0)) w_request w_order 10).2
          = Ok (MkTenant w_scope w_subject (epoch_lit 1), (Some 1%nat, None))) as Hr by (vm_compute; reflexivity).
  pose proof (w_verify_step w_s0 10 _ ltac:(lia) Hr) as Hstep.
  destruct (verify_at (MkVerifier w_key (Replay.sys_cache w_s0)) w_request w_order 10) as [v' r] eqn:Hv.
  cbn [snd fst] in Hr, Hstep. subst r. pose proof (verify_at_Ok _ _ _ _ _ _ _ Hv) as (_ & _ & _ & Hc).
  destruct w_order_terms as (Hsc & Hno & He). unfold begun, outcome in Hstep.
  rewrite Hsc, Hno, He in Hc, Hstep. cbn [replay] in Hc. unfold w_s1. rewrite Hc. exact Hstep.
Qed.

Lemma w_verify_again :
  vstep "/wal" w_key w_s4 (Verified w_request w_order 20 w_refused) w_final.
Proof.
  assert (w_again.2 = Err (Rejected w_error)) as Hr by (vm_compute; reflexivity).
  exact (w_verify_step w_s4 20 _ ltac:(lia) Hr).
Qed.

Lemma w_spent_steps :
  vsteps "/wal" w_key w_s0
    (w_before ++ Background (Replay.Finished w_scope "nonce" 100 (Ok tt)) ::
     [Verified w_request w_order 20 w_refused]) w_final.
Proof.
  eapply vsteps_cons; [apply w_verify_first|].
  eapply vsteps_cons; [apply v_background; [done|eapply w_write_step; vm_compute; reflexivity]|].
  eapply vsteps_cons; [apply v_background; [done|eapply w_write_step; vm_compute; reflexivity]|].
  eapply vsteps_cons; [apply v_background; [done|apply w_finish_step]|].
  eapply vsteps_cons; [apply w_verify_again|constructor].
Qed.

Lemma work_order_is_spent_witness :
  Verified w_request w_order 10 (Ok tt) ∈ w_before ∧ is_ok w_refused = false.
Proof.
  split; [apply elem_of_cons; by left|].
  refine (work_order_is_spent "/wal" w_key w_s0 w_before [Verified w_request w_order 20 w_refused] w_final
            w_scope "nonce" 100 w_request w_order 20 w_refused _ w_spent_steps _ _ _ _).
  - apply w_steps.
  - repeat constructor.
  - apply elem_of_cons. by left.
  - reflexivity.
  - reflexivity.
Defined.
