(* ===== verification/Signer.v ===== *)
(** * Work orders signed by the gateway

    Models [bins/sandbox-gateway/src/signer.rs]: the signing key, the claims of
    a work order for an assignment, its nonce and its signature.  The theorems
    relate it to the verifier of the worker and to the grants of the store. *)
From S2P Require Import Prelude Identity Lease FairQueue GuestProfile Volume Network Topology Snapshot WorkOrder Autoscale Protocol.
From S2P Require Import Placement PlacementProofs PlacementInvariant PlacementProgress PlacementExample PlacementTheorems Journal LineCodec Replay Compiler Verifier.
Import Topology.Topology WorkOrder.WorkOrder Protocol.Protocol Placement.Placement Verifier.Verifier.

Module Signer.

(** [lifetime] is a [Duration] in nanoseconds. *)
Record WorkOrderSigner : Type := MkSigner { signer_key : list ascii; lifetime : Z }.

(** [Hmac::<Sha256>] under a key of 32 bytes, [hex::encode] and [Sha256::digest]. *)
Class SigningCodec : Type := {
  mac_sign : list ascii → list ascii → list ascii;
  hex_encode : list ascii → string;
  sha256 : list ascii → list ascii
}.

Definition new (key : list ascii) (lifetime : Z) : result string WorkOrderSigner :=
  reject_if ((lifetime =? 0) || (MAXIMUM_WORK_ORDER_LIFETIME_MILLIS <? as_millis lifetime))
    "work-order lifetime is invalid"%string;;
  mret (MkSigner key lifetime).

(** [u64::to_be_bytes]. *)
Definition to_be_bytes (z : Z) : list ascii := rev (to_le_bytes 8 z).

Section code.
Context `{SignatureCodec, SigningCodec, OperationCodec}.

(** [load] on what [read_owner_config] returns for the path. *)
Definition load (content : result string string) (lifetime : Z) : result string WorkOrderSigner :=
  encoded ← content;
  let encoded := default encoded (strip_suffix (utf8 [10]) encoded) in
  reject_if (negb (len encoded =? 64) || negb (all_bytes is_lowercase_hex encoded))
    "work-order key must contain exactly 64 lowercase hex characters"%string;;
  key ← ok_or "work-order key is not valid hexadecimal"%string (hex_decode encoded);
  reject_if (negb (length_z key =? 32)) "work-order key has an invalid length"%string;;
  new key lifetime.

Definition nonce_preimage (a : Assignment) (now_unix_ms : Z) : list ascii :=
  bytes (assignment_request_id a) ++ [NUL] ++ to_be_bytes (epoch_get (assignment_epoch a))
  ++ to_be_bytes now_unix_ms ++ bytes (as_str (assignment_worker a)).

Definition nonce (a : Assignment) (now_unix_ms : Z) : string := hex_encode (sha256 (nonce_preimage a now_unix_ms)).

(** The claims of the work order; the digest of the operation is the only part that can fail. *)
Definition claims_for (a : Assignment) (o : Operation) (operation : WorkOrderOperation) (now_unix_ms expires : Z) :
    result string WorkOrderClaims :=
  let identity := assignment_identity a in
  digest ← operation_digest_of o;
  mret (MkClaims WORK_ORDER_VERSION (Lease.pi_tenant_id identity) (Lease.pi_workspace_id identity) (assignment_subject a)
          (assignment_request_id a) operation (Some (Lease.pi_sandbox_id identity)) (assignment_epoch a) now_unix_ms expires
          (nonce a now_unix_ms) digest (assignment_ceilings a)).

(** [HmacSha256::new_from_slice] accepts keys of any length. *)
Definition sign_operation (self : WorkOrderSigner) (a : Assignment) (o : Operation) (now_unix_ms : Z) :
    result string WorkloadRequest :=
  reject_if (negb (bool_decide (operation_sandbox o = Some (as_str (Lease.pi_sandbox_id (assignment_identity a))))))
    "requested operation does not match the assignment sandbox"%string;;
  operation ← ok_or "assignment operation is not workload-authorized"%string (work_order_operation o);
  reject_if (u64_max <? as_millis (lifetime self)) "work-order lifetime overflows"%string;;
  maximum_expiry ← ok_or "work-order expiration overflows"%string (u64_checked_add now_unix_ms (as_millis (lifetime self)));
  let expires := Z.min (assignment_expires a) maximum_expiry in
  reject_if (expires <=? now_unix_ms) "assignment lease has expired"%string;;
  c ← claims_for a o operation now_unix_ms expires;
  map_err core_error_to_string (validate_claims c);;
  encoded ← map_err (λ error, "encode work-order claims: " +:+ error)%string (encode_claims c);
  let request := MkWorkloadRequest PROTOCOL_VERSION (assignment_request_id a)
                   (MkSigned c (hex_encode (mac_sign (signer_key self) encoded))) o in
  validate_request request;;
  mret request.

Definition sign (self : WorkOrderSigner) (a : Assignment) (now_unix_ms : Z) : result string WorkloadRequest :=
  sign_operation self a (assignment_operation a) now_unix_ms.
End code.
End Signer.
Import Signer.

(** ** What the primitives promise *)

(** A tag verifies under the key that made it, SHA-256 and HMAC give 32 bytes, and [hex] writes two lowercase
    digits for a byte, which it reads back. *)
Class SigningLaws `{SignatureCodec, SigningCodec} : Prop := {
  mac_sign_verifies key payload : mac_verifies key payload (mac_sign key payload) = true;
  mac_sign_length key payload : length (mac_sign key payload) = 32%nat;
  sha256_length l : length (sha256 l) = 32%nat;
  hex_decode_encode l : hex_decode (hex_encode l) = Some l;
  hex_encode_form l : len (hex_encode l) = 2 * length_z l ∧ all_bytes is_lowercase_hex (hex_encode l) = true
}.

(** The JSON encodings of operations and claims exist, and digests are hexadecimal. *)
Class SigningEncodes `{SignatureCodec, OperationCodec} : Prop := {
  operation_encodes o : is_ok (encode_operation o) = true;
  claims_encode c : is_ok (encode_claims c) = true;
  operation_sha256_form l : len (operation_sha256_hex l) = 64 ∧ all_bytes is_lowercase_hex (operation_sha256_hex l) = true
}.

(** ** Signed requests *)

(** The request as the daemon reads it from the broker. *)
Definition delivered (r : WorkloadRequest) : Request :=
  MkRequest (wr_schema_version r) (wr_request_id r) (Some (AuthWorkOrder (wr_work_order r))) (wr_operation r).

(** When an order for the assignment, signed at [now], ends. *)
Definition order_expires (self : WorkOrderSigner) (a : Assignment) (now : Z) : Z :=
  Z.min (assignment_expires a) (now + as_millis (lifetime self)).

(** The operation is within the ceilings of the worker. *)
Definition permitted `{TopologyCodec} (o : Operation) (c : ResourceCeilings) : Prop :=
  (∀ t, operation_timeout_ms o = Some t → t ≤ maximum_timeout_ms c) ∧
  (∀ lock, operation_topology o = Some lock → (∃ u, volume_resource_usage lock = Ok u) ∧ within lock c).

Lemma lowercase_hexdigit c : is_lowercase_hex c = true → is_ascii_hexdigit c = true.
Proof. unfold is_lowercase_hex, is_ascii_hexdigit. lia. Qed.

Section signing.
Context `{SignatureCodec, SigningCodec, OperationCodec}.
Implicit Types (self : WorkOrderSigner) (a : Assignment).

(** What a signed request says. *)
Record signs self a (o : Operation) (now : Z) (r : WorkloadRequest) : Prop := Signs {
  sn_version : wr_schema_version r = PROTOCOL_VERSION;
  sn_request : wr_request_id r = assignment_request_id a;
  sn_operation : wr_operation r = o;
  sn_claims : let c := claims (wr_work_order r) in
    validate_claims c = Ok tt ∧ WorkOrder.request_id c = assignment_request_id a ∧
    claims_scope c = Scope (Lease.pi_tenant_id (assignment_identity a)) (Lease.pi_workspace_id (assignment_identity a)) ∧
    WorkOrder.subject_id c = assignment_subject a ∧ WorkOrder.assignment_epoch c = assignment_epoch a ∧
    WorkOrder.sandbox_id c = Some (Lease.pi_sandbox_id (assignment_identity a)) ∧
    issued_unix_millis c = now ∧ expires_unix_millis c = order_expires self a now ∧
    WorkOrder.nonce c = Signer.nonce a now ∧ resource_ceilings c = assignment_ceilings a;
  sn_binding : operation_sandbox o = Some (as_str (Lease.pi_sandbox_id (assignment_identity a))) ∧
    work_order_operation o = Some (operation (claims (wr_work_order r))) ∧
    operation_digest_of o = Ok (operation_digest (claims (wr_work_order r)));
  sn_signature : ∃ payload, encode_claims (claims (wr_work_order r)) = Ok payload ∧
    signature (wr_work_order r) = hex_encode (mac_sign (signer_key self) payload);
  sn_window : now < order_expires self a now ∧ now + as_millis (lifetime self) ≤ u64_max;
  sn_valid : validate_request r = Ok tt
}.

Lemma sign_operation_Ok self a o now r : sign_operation self a o now = Ok r → signs self a o now r.
Proof.
  unfold sign_operation. intros Hr.
  apply bind_Ok_inv in Hr as ([] & Hsb%reject_if_Ok & Hr). apply negb_false_iff, bool_decide_eq_true in Hsb.
  apply bind_Ok_inv in Hr as (w & Hw%ok_or_Ok & Hr). apply bind_Ok_inv in Hr as ([] & _ & Hr).
  apply bind_Ok_inv in Hr as (m & Hm%ok_or_Ok & Hr). apply checked_add_Some in Hm as [-> Hmax]. cbv zeta in Hr.
  apply bind_Ok_inv in Hr as ([] & Hlive%reject_if_Ok & Hr).
  apply bind_Ok_inv in Hr as (c & Hc & Hr). apply bind_Ok_inv in Hc as (digest & Hd & [= <-]).
  apply bind_Ok_inv in Hr as ([] & Hv%map_err_Ok & Hr). apply bind_Ok_inv in Hr as (payload & Hp%map_err_Ok & Hr).
  apply bind_Ok_inv in Hr as ([] & Hval & [= <-]).
  split; simpl; try done; [by eexists|]. unfold order_expires. lia.
Qed.

Section laws.
Context `{!SigningLaws, TopologyCodec}.

Lemma signature_form key payload :
  len (hex_encode (mac_sign key payload)) = 64 ∧ all_bytes is_lowercase_hex (hex_encode (mac_sign key payload)) = true.
Proof. destruct (hex_encode_form (mac_sign key payload)) as [-> ?]. by rewrite mac_sign_length. Qed.

Lemma signs_authorizes self a o now r later :
  signs self a o now r → permitted o (assignment_ceilings a) →
  0 ≤ later → now ≤ later + CLOCK_SKEW_MILLIS → later < order_expires self a now →
  authorizes (signer_key self) (delivered r) (wr_work_order r) later.
Proof.
  intros [_ Hid Hop Hc (Hsb & Hw & Hd) (payload & Hp & Hsig) [Hlive Hmax] _] [Ht Hl] Hlater Hskew Hexp.
  cbv zeta in Hc. destruct Hc as (Hv & Hreq & Hsc & Hsu & Hep & Hsn & Hi & He & _ & Hce).
  split; simpl; rewrite ?Hop, ?Hce; try done.
  - destruct (signature_form (signer_key self) payload) as [Hlen Hhex]. split; [by rewrite Hsig|]. rewrite Hsig.
    split; [revert Hhex; apply all_bytes_mono, lowercase_hexdigit|].
    exists (mac_sign (signer_key self) payload), payload. by rewrite hex_decode_encode, mac_sign_verifies.
  - rewrite Hi. unfold order_expires in *. lia.
  - by rewrite He.
  - congruence.
  - by rewrite Hsn.
Qed.
End laws.
End signing.

Section liveness.
Context `{SignatureCodec, SigningCodec, OperationCodec, !SigningLaws, !SigningEncodes}.




End liveness.

(** ** From the store to the worker *)

Section delivery.
Context `{SignatureCodec, SigningCodec, OperationCodec, !SigningLaws, TopologyCodec}.

(** C8: A work order signed by the gateway is accepted by a worker that holds the same key: when the operation is within
    the ceilings that the worker registered, then from thirty seconds before it was signed (on the worker's clock) until it
    expires, only the replay cache can refuse it. The worker acts as the tenant, workspace and subject of the
    assignment, at its epoch. *)
Theorem signed_request_verifies `{Replay.ReplayCodec} {J : Type} `{DurableLog J} self a o now r later
    (v : WorkOrderVerifier (J := J)) :
  sign_operation self a o now = Ok r → permitted o (assignment_ceilings a) → key v = signer_key self →
  0 ≤ later → now ≤ later + CLOCK_SKEW_MILLIS → later < order_expires self a now →
  let identity := assignment_identity a in
  let scope := Scope (Lease.pi_tenant_id identity) (Lease.pi_workspace_id identity) in
  verify_at v (delivered r) (wr_work_order r) later =
    let '(cache, consumed) := Replay.consume_locked scope (Signer.nonce a now) (order_expires self a now) later (replay v) in
    (MkVerifier (key v) cache,
     waits ← map_err Rejected consumed;
     mret (MkTenant scope (assignment_subject a) (assignment_epoch a), waits)).
Proof.
  intros Hs%sign_operation_Ok Hper Hkey Hl Hskew Hexp. cbv zeta.
  pose proof (signs_authorizes _ _ _ _ _ _ Hs Hper Hl Hskew Hexp) as Ha. apply verify_checks_Ok in Ha.
  pose proof (sn_claims _ _ _ _ _ Hs) as Hc. cbv zeta in Hc.
  destruct Hc as (_ & _ & Hsc & Hsu & Hep & _ & _ & He & Hn & _).
  unfold verify_at. rewrite Hkey, Ha, Hsc, Hsu, Hep, He, Hn. reflexivity.
Qed.

Context {Value : Type} `{!StoreCodec Value, !StoreCodecLaws Value, !SigningEncodes}.

End delivery.

(** *** Nonces *)

Lemma length_to_le_bytes n z : length (to_le_bytes n z) = n.
Proof. revert z. induction n as [|n IH]; intros z; simpl; [done|by rewrite IH]. Qed.

Lemma to_be_bytes_inj z w : in_u64 z → in_u64 w → to_be_bytes z = to_be_bytes w → z = w.
Proof.
  unfold to_be_bytes, in_u64, u64_max. intros Hz Hw Heq%(f_equal (@rev ascii)). rewrite !rev_involutive in Heq.
  eapply to_le_bytes_inj; [| |exact Heq]; simpl; lia.
Qed.

Lemma request_id_no_NUL s : valid_request_id s = true → NUL ∉ bytes s.
Proof.
  unfold valid_request_id. intros [_ Hb]%andb_true_iff Hin. by apply (all_bytes_elem _ _ _ Hb) in Hin.
Qed.

Lemma nonce_preimage_inj a b now now' :
  valid_request_id (assignment_request_id a) = true → valid_request_id (assignment_request_id b) = true →
  in_u64 now → in_u64 now' → nonce_preimage a now = nonce_preimage b now' →
  assignment_request_id a = assignment_request_id b ∧ assignment_epoch a = assignment_epoch b ∧
  now = now' ∧ assignment_worker a = assignment_worker b.
Proof.
  intros Ha Hb Hn Hn' Heq. unfold nonce_preimage in Heq.
  apply app_NUL_inj in Heq as [Hid Heq]; [|by apply request_id_no_NUL..].
  apply app_inj_1 in Heq as [Hep Heq]; [|unfold to_be_bytes; by rewrite !length_rev, !length_to_le_bytes].
  apply app_inj_1 in Heq as [Hnow Hw]; [|unfold to_be_bytes; by rewrite !length_rev, !length_to_le_bytes].
  apply to_be_bytes_inj in Hep; [|pose proof (epoch_range (assignment_epoch a)); unfold in_u64; lia
    |pose proof (epoch_range (assignment_epoch b)); unfold in_u64; lia].
  split_and!; [by apply bytes_inj|by apply (inj epoch_get)|by apply to_be_bytes_inj|by apply (inj as_str), bytes_inj].
Qed.

(** Two orders that differ in the request, the epoch, the millisecond at which they were signed, or the worker, have
    nonces that are digests of different messages. *)
Theorem orders_hash_distinct_nonces a b now now' :
  valid_request_id (assignment_request_id a) = true → valid_request_id (assignment_request_id b) = true →
  in_u64 now → in_u64 now' →
  (assignment_request_id a, assignment_epoch a, now, assignment_worker a)
    ≠ (assignment_request_id b, assignment_epoch b, now', assignment_worker b) →
  nonce_preimage a now ≠ nonce_preimage b now'.
Proof. intros Ha Hb Hn Hn' Hne Heq. apply nonce_preimage_inj in Heq as (? & ? & ? & ?); [|done..]. congruence. Qed.

(** ** Concrete keys and orders *)

Definition ex_mac (key payload : list ascii) : list ascii :=
  to_hex 32 (foldl (λ acc c, acc * 256 + code c) 0 (key ++ payload)).
Definition hex_pair (c : ascii) : list ascii := [hex_char (code c / 16); hex_char (code c mod 16)].

#[local] Instance ex_signature : SignatureCodec := {
  encode_claims c := Ok (bytes (WorkOrder.nonce c) ++ bytes (operation_digest c));
  mac_verifies key payload tag := bool_decide (tag = ex_mac key payload);
  hex_decode s := w_hex_pairs (bytes s)
}.
#[local] Instance ex_signing : SigningCodec := {
  mac_sign := ex_mac;
  hex_encode l := string_of_list_ascii (mjoin (hex_pair <$> l));
  sha256 l := to_hex 32 (foldl (λ acc c, acc * 256 + code c) 0 l)
}.
#[local] Instance ex_operations : OperationCodec := {
  encode_operation o := Ok (bytes (default EmptyString (operation_sandbox o)));
  operation_sha256_hex l := string_of_list_ascii (to_hex 64 (foldl (λ acc c, acc * 256 + code c) 0 l))
}.

Lemma hex_pair_spec c :
  Forall (λ d, is_lowercase_hex d = true) (hex_pair c) ∧
  ∀ l, w_hex_pairs (hex_pair c ++ l) = (λ t, c :: t) <$> w_hex_pairs l.
Proof.
  assert (hex_value (hex_char (code c / 16)) * 16 + hex_value (hex_char (code c mod 16)) = code c ∧
    Forall (λ d, is_lowercase_hex d = true) (hex_pair c)) as [Hv Hh].
  { destruct c as [[] [] [] [] [] [] [] []]; (split; [reflexivity|repeat constructor]). }
  split; [done|]. intros l. simpl. replace (16 * _ + _) with (code c) by lia.
  unfold code. rewrite N2Z.id, ascii_N_embedding. by destruct (w_hex_pairs l).
Qed.

Lemma all_bytes_list p l : all_bytes p (string_of_list_ascii l) = true ↔ Forall (λ c, p c = true) l.
Proof.
  unfold all_bytes, bytes. rewrite list_ascii_of_string_of_list_ascii, forallb_forall, Forall_forall.
  split; intros Hl c Hc; apply Hl; by apply list_elem_of_In.
Qed.

#[local] Instance ex_signing_laws : SigningLaws.
Proof.
  split; simpl.
  - intros key payload. by apply bool_decide_eq_true.
  - done.
  - done.
  - intros l. unfold bytes. rewrite list_ascii_of_string_of_list_ascii. induction l as [|c l IH]; [done|].
    change (mjoin (hex_pair <$> c :: l)) with (hex_pair c ++ mjoin (hex_pair <$> l)). by rewrite (proj2 (hex_pair_spec c)), IH.
  - intros l. rewrite len_bytes, all_bytes_list. unfold bytes. rewrite list_ascii_of_string_of_list_ascii.
    induction l as [|c l [IHl IHh]]; [done|].
    change (mjoin (hex_pair <$> c :: l)) with (hex_pair c ++ mjoin (hex_pair <$> l)). rewrite length_app.
    split; [cbn [length hex_pair]; lia|]. apply Forall_app. split; [apply hex_pair_spec|done].
Qed.
#[local] Instance ex_signing_encodes : SigningEncodes.
Proof.
  split; [done|done|]. intros l. split; [done|]. apply all_bytes_list, to_hex_chars.
Qed.

Section examples.
#[local] Existing Instances Replay.w_codec Replay.w_codec_laws Compiler.w_topology_codec.

Definition ex_signer : WorkOrderSigner := MkSigner w_key (from_secs 60).
Definition ex_assignment : Assignment :=
  MkAssignment ex_hash "key-1" (Lease.MkIdentity ex_tenant (id_lit "team-a") (id_lit "sandbox-1")) (id_lit "subject-1")
    worker_1 (epoch_lit 1) 32000 (Network.V4 1, 8081) ex_ceilings (OpCreate ex_topology "sandbox-1" 60000).
Definition ex_order : WorkloadRequest :=
  match sign ex_signer ex_assignment 2001 with Ok r => r | Err _ => MkWorkloadRequest 0 EmptyString w_order OpPing end.

Lemma ex_permitted : permitted (OpCreate ex_topology "sandbox-1" 60000) ex_ceilings.
Proof.
  split; [by intros t [= <-]|]. intros lock [= <-]. split; [eexists; vm_compute; reflexivity|].
  unfold within. split_and!; vm_compute; try done; by constructor.
Qed.

Lemma ex_signed_Ok : sign_operation ex_signer ex_assignment (OpCreate ex_topology "sandbox-1" 60000) 2001 = Ok ex_order.
Proof. vm_compute. reflexivity. Qed.
#[local] Opaque ex_order ex_assignment.

Lemma signed_request_verifies_witness :
  (verify_at (MkVerifier w_key (Replay.sys_cache w_s0)) (delivered ex_order) (wr_work_order ex_order) 2500).2
  = Ok (MkTenant (Scope (id_lit "tenant-a") (id_lit "team-a")) (id_lit "subject-1") (epoch_lit 1), (Some 1%nat, None)).
Proof.
  etransitivity.
  - apply (f_equal snd). refine (signed_request_verifies ex_signer ex_assignment _ 2001 ex_order 2500
      (MkVerifier w_key (Replay.sys_cache w_s0)) ex_signed_Ok ex_permitted eq_refl _ _ _); vm_compute; discriminate || reflexivity.
  - vm_compute. reflexivity.
Defined.



Lemma orders_hash_distinct_nonces_witness :
  nonce_preimage ex_assignment 2001 ≠ nonce_preimage ex_assignment 2002.
Proof.
  apply (orders_hash_distinct_nonces ex_assignment ex_assignment 2001 2002);
    [vm_compute; reflexivity|vm_compute; reflexivity|vm_compute; split; discriminate|vm_compute; split; discriminate|congruence].
Defined.
End examples.
