(* ===== verification/Http.v ===== *)
(** * HTTP messages of the gateway and the broker

    Models the parsing of responses in
    [bins/sandbox-gateway/src/ingress.rs] ([parse_response],
    [decode_response_body], [append_forward_headers]); the broker has the same
    code in [bins/sandbox-broker/src/ingress.rs], with its own error type.
    The standard library's UTF-8 check, [trim], [split] and number parsing are
    written out.  Header names and values are those of the [http] crate. *)
From S2P Require Import Prelude Identity Journal LineCodec Verifier.
Import Verifier.Verifier.

Module Http.

(** ** Text *)

Definition CR : ascii := ascii_of_N 13.
Definition LF : ascii := ascii_of_N 10.
Definition CRLF : list ascii := [CR; LF].
Definition crlf : string := utf8 [13; 10].

(** [windows(n).position(|window| window == pattern)]. *)
Fixpoint position (pattern l : list ascii) : option nat :=
  if bool_decide (take (length pattern) l = pattern) then Some O
  else match l with [] => None | _ :: l' => S <$> position pattern l' end.

Definition continuation (b : Z) : bool := (128 <=? b) && (b <=? 191).
Definition three_bytes (b0 b1 b2 : Z) : bool :=
  ((b0 =? 224) && (160 <=? b1) && (b1 <=? 191)
   || (((225 <=? b0) && (b0 <=? 236)) || ((238 <=? b0) && (b0 <=? 239))) && continuation b1
   || (b0 =? 237) && (128 <=? b1) && (b1 <=? 159)) && continuation b2.
Definition four_bytes (b0 b1 b2 b3 : Z) : bool :=
  ((b0 =? 240) && (144 <=? b1) && (b1 <=? 191)
   || (241 <=? b0) && (b0 <=? 243) && continuation b1
   || (b0 =? 244) && (128 <=? b1) && (b1 <=? 143)) && continuation b2 && continuation b3.

Fixpoint utf8_valid (l : list Z) : bool :=
  match l with
  | [] => true
  | b0 :: l1 =>
      if b0 <? 128 then utf8_valid l1
      else match l1 with
           | [] => false
           | b1 :: l2 =>
               if (194 <=? b0) && (b0 <=? 223) && continuation b1 then utf8_valid l2
               else match l2 with
                    | [] => false
                    | b2 :: l3 =>
                        if three_bytes b0 b1 b2 then utf8_valid l3
                        else match l3 with
                             | [] => false
                             | b3 :: l4 => four_bytes b0 b1 b2 b3 && utf8_valid l4
                             end
                    end
           end
  end.

Definition from_utf8 (l : list ascii) : option string :=
  if utf8_valid (code <$> l) then Some (string_of_list_ascii l) else None.

(** [str::trim]. *)
Definition drop_first_space (s : string) : option string :=
  foldr (λ w rest, match strip_prefix w s with Some t => Some t | None => rest end) None WHITE_SPACE.
Definition drop_last_space (s : string) : option string :=
  foldr (λ w rest, match strip_suffix w s with Some t => Some t | None => rest end) None WHITE_SPACE.
Fixpoint repeat_drop (drop : string → option string) (fuel : nat) (s : string) : string :=
  match fuel with
  | O => s
  | S fuel' => match drop s with Some t => repeat_drop drop fuel' t | None => s end
  end.
Definition trim (s : string) : string :=
  let s := repeat_drop drop_first_space (String.length s) s in
  repeat_drop drop_last_space (String.length s) s.

(** [str::split] for the pattern of a carriage return and a line feed. *)
Definition cons_first (c : ascii) (parts : list (list ascii)) : list (list ascii) :=
  match parts with [] => [[c]] | part :: parts' => (c :: part) :: parts' end.
Fixpoint split_lines (l : list ascii) : list (list ascii) :=
  match l with
  | [] => [[]]
  | c :: l' =>
      match l' with
      | d :: l'' => if Ascii.eqb c CR && Ascii.eqb d LF then [] :: split_lines l'' else cons_first c (split_lines l')
      | [] => [[c]]
      end
  end.
Definition lines_of (s : string) : list string := string_of_list_ascii <$> split_lines (bytes s).

Definition to_ascii_lowercase (c : ascii) : ascii :=
  if is_ascii_uppercase c then ascii_of_N (N_of_ascii c + 32) else c.
Definition lowercase (s : string) : string := string_of_list_ascii (to_ascii_lowercase <$> bytes s).
Definition eq_ignore_ascii_case (s t : string) : bool := bool_decide (lowercase s = lowercase t).

(** [split_ascii_whitespace]. *)
Definition is_ascii_whitespace (c : ascii) : bool :=
  existsb (λ n, code c =? n) [9; 10; 12; 13; 32].
Fixpoint words (l : list ascii) (word : list ascii) : list (list ascii) :=
  let close := if bool_decide (word = []) then [] else [rev word] in
  match l with
  | [] => close
  | c :: l' => if is_ascii_whitespace c then close ++ words l' [] else words l' (c :: word)
  end.
Definition split_ascii_whitespace (s : string) : list string := string_of_list_ascii <$> words (bytes s) [].

(** [usize::from_str_radix(s, 16)]. *)
Definition hex_digit_value (c : ascii) : Z :=
  if is_ascii_digit c then code c - 48 else if in_range 97 102 c then code c - 87 else code c - 55.
Definition parse_hex (max : Z) (s : string) : option Z :=
  let digits := match strip_prefix "+" s with Some d => d | None => s end in
  if bool_decide (digits = EmptyString) || negb (all_bytes is_ascii_hexdigit digits) then None
  else let n := foldl (λ acc c, acc * 16 + hex_digit_value c) 0 (bytes digits) in
       if n <=? max then Some n else None.

(** ** Headers *)

(** A name is in lower case, and a value is its bytes. *)
Abbreviation HeaderMap := (list (string * string)).

(** [HeaderMap::get]: the first value of the name. *)
Fixpoint header_get (name : string) (headers : HeaderMap) : option string :=
  match headers with
  | [] => None
  | (n, v) :: headers' => if bool_decide (n = name) then Some v else header_get name headers'
  end.

(** The [http] crate: [HeaderName::try_from], [HeaderValue::try_from], [HeaderValue::to_str] and
    [StatusCode::from_u16]. *)
Class HttpCrate : Type := {
  header_name : string → option string;
  header_value : string → option string;
  header_text : string → option string;
  status_code : Z → bool
}.

Record Response : Type := MkHttpResponse { status : Z; headers : HeaderMap; body : list ascii }.

Section code.
Context `{HttpCrate}.

(** *** Forwarded requests *)

Definition hop_by_hop (name : string) : bool :=
  bool_decide (name ∈ ["connection"; "transfer-encoding"; "upgrade"; "keep-alive"; "proxy-connection"; "te"; "trailer"]).

(** The headers that are not forwarded. *)
Definition withheld (name : string) : bool :=
  bool_decide (name = "authorization"%string) || bool_decide (name = "host"%string)
  || bool_decide (name = "content-length"%string) || hop_by_hop name || starts_with "x-runtrue-" name.

Fixpoint append_forward_headers {E} (invalid : E) (encoded : string) (headers : HeaderMap) : result E string :=
  match headers with
  | [] => Ok encoded
  | (name, value) :: headers' =>
      if withheld name then append_forward_headers invalid encoded headers'
      else
        value ← ok_or invalid (header_text value);
        append_forward_headers invalid (encoded +:+ name +:+ ": " +:+ value +:+ crlf) headers'
  end.

(** *** Responses with their headers *)

Section response.
Context {E : Type} (unavailable : E).

(** The loop over the chunks, with the bytes that remain and those decoded so far. *)
Definition chunk_size (line : list ascii) : option Z :=
  text ← from_utf8 line;
  value ← head (split_byte ";" text);
  parse_hex u64_max (trim value).

Fixpoint decode_chunks (fuel : nat) (maximum : Z) (remaining decoded : list ascii) : option (result E (list ascii)) :=
  match fuel with
  | O => None
  | S fuel' =>
      match position CRLF remaining with
      | None => Some (Err unavailable)
      | Some line_end =>
          if bool_decide (line_end = 0%nat) || bool_decide (32 < line_end)%nat then Some (Err unavailable)
          else
            match chunk_size (take line_end remaining) with
            | None => Some (Err unavailable)
            | Some size =>
                let remaining := drop (line_end + 2) remaining in
                let n := Z.to_nat size in
                if size =? 0 then Some (if bool_decide (remaining = CRLF) then Ok decoded else Err unavailable)
                else if (saturating_sub (length_z remaining) 2 <? size)
                        || negb (bool_decide (take 2 (drop n remaining) = CRLF))
                        || (maximum <? u64_saturating_add (length_z decoded) size)
                then Some (Err unavailable)
                else decode_chunks fuel' maximum (drop (n + 2) remaining) (decoded ++ take n remaining)
            end
      end
  end.

Definition decode_response_body (encoded : list ascii) (content_length : option Z) (chunked : bool) (maximum : Z) :
    result E (list ascii) :=
  if negb chunked then
    reject_if ((maximum <? length_z encoded)
               || match content_length with Some l => negb (l =? length_z encoded) | None => false end) unavailable;;
    mret encoded
  else default (Err unavailable) (decode_chunks (S (length encoded)) maximum encoded []).

(** The header lines: the length, whether the body is chunked, and the headers that are passed on. *)
Fixpoint read_headers (lines : list string) (content_length : option Z) (chunked : bool) (headers : HeaderMap) :
    result E (option Z * bool * HeaderMap) :=
  match lines with
  | [] => Ok (content_length, chunked, headers)
  | line :: lines' =>
      if bool_decide (line = EmptyString) then read_headers lines' content_length chunked headers
      else
        '(name, value) ← ok_or unavailable (split_once ":" line);
        name ← ok_or unavailable (header_name name);
        if bool_decide (name = "transfer-encoding"%string) then
          reject_if (chunked || negb (eq_ignore_ascii_case (trim value) "chunked")) unavailable;;
          read_headers lines' content_length true headers
        else if bool_decide (name = "content-length"%string) then
          reject_if (bool_decide (is_Some content_length)) unavailable;;
          length ← ok_or unavailable (parse_unsigned u64_max (trim value));
          read_headers lines' (Some length) chunked headers
        else if bool_decide (name = "connection"%string) then read_headers lines' content_length chunked headers
        else
          value ← ok_or unavailable (header_value (trim value));
          read_headers lines' content_length chunked (headers ++ [(name, value)])
  end.

(** The status of the first line. *)
Definition read_status (line : string) : option Z :=
  word ← split_ascii_whitespace line !! 1%nat;
  value ← parse_unsigned u16_max word;
  if status_code value then Some value else None.

Definition parse_ingress_response (maximum_header maximum_body : Z) (encoded : list ascii) : result E Response :=
  position ← ok_or unavailable (position (CRLF ++ CRLF) encoded);
  let header_end := (position + 4)%nat in
  reject_if (maximum_header <? Z.of_nat header_end) unavailable;;
  text ← ok_or unavailable (from_utf8 (take header_end encoded));
  let lines := lines_of text in
  code ← ok_or unavailable (head lines ≫= read_status);
  '(content_length, chunked, headers) ← read_headers (tail lines) None false [];
  reject_if (chunked && bool_decide (is_Some content_length)) unavailable;;
  decoded ← decode_response_body (drop header_end encoded) content_length chunked maximum_body;
  mret (MkHttpResponse code (headers ++ [("content-length"%string, to_string (length_z decoded))]) decoded).
End response.
End code.
End Http.
Import Http.

(** ** Bodies in chunks *)

Section searching.
Implicit Types p l x r : list ascii.

Lemma position_here p l : take (length p) l = p → position p l = Some O.
Proof. intros Hp. destruct l; cbn [position]; by rewrite bool_decide_eq_true_2. Qed.

(** The first occurrence, seen from the text in front of it. *)
Lemma position_app p x r : position p (x ++ p) = Some (length x) → position p (x ++ p ++ r) = Some (length x).
Proof.
  induction x as [|c x IH]; intros Hx.
  - apply position_here. simpl. apply take_app_length.
  - cbn [app position] in *. case_bool_decide as Hp; [done|]. rewrite bool_decide_eq_false_2.
    + apply fmap_Some in Hx as (n & Hn & [= Hlen]). simpl. by rewrite IH by congruence.
    + intros Heq. apply Hp. etrans; [|exact Heq]. rewrite (app_assoc x), (app_comm_cons (x ++ p) r), take_app_le; [done|].
      simpl. rewrite length_app. lia.
Qed.

Lemma position_Some p l n :
  position p l = Some n → l = take n l ++ p ++ drop (n + length p) l ∧ length (take n l) = n ∧
  position p (take n l ++ p) = Some n.
Proof.
  revert n. induction l as [|c l IH]; intros n; cbn [position]; case_bool_decide as Hp.
  - intros [= <-]. rewrite take_nil in Hp. by subst p.
  - done.
  - intros [= <-]. simpl. split; [rewrite <-Hp at 1; symmetry; apply take_drop|]. split; [done|].
    apply position_here. by rewrite take_ge.
  - intros (m & Hm & ->)%fmap_Some. destruct (IH _ Hm) as (Hl & Hlen & Hpos). simpl. split_and!; [by f_equal|by f_equal|].
    rewrite bool_decide_eq_false_2; [by rewrite Hpos|]. intros Heq. apply Hp.
    etrans; [|exact Heq]. rewrite Hl at 1. rewrite (app_assoc _ p), (app_comm_cons (_ ++ p)), take_app_le; [done|].
    simpl. rewrite length_app. lia.
Qed.
End searching.

(** The line in front of a chunk of [n] bytes. *)
Record size_line (line : list ascii) (n : Z) : Prop := SizeLine {
  sl_end : position CRLF (line ++ CRLF) = Some (length line);
  sl_length : (1 ≤ length line ≤ 32)%nat;
  sl_size : chunk_size line = Some n
}.

(** The grammar of a body in chunks: chunks that are not empty, then an empty one and no trailers. *)
Inductive chunked_body : list ascii → list ascii → Prop :=
| chunked_end line : size_line line 0 → chunked_body (line ++ CRLF ++ CRLF) []
| chunked_more line data rest content :
    size_line line (length_z data) → data ≠ [] → chunked_body rest content →
    chunked_body (line ++ CRLF ++ data ++ CRLF ++ rest) (data ++ content).

Section chunks.
Context {E : Type} (unavailable : E).
Implicit Types remaining decoded content line data : list ascii.

Lemma hex_value_nonneg l acc :
  forallb is_ascii_hexdigit l = true → 0 ≤ acc → 0 ≤ foldl (λ acc c, acc * 16 + hex_digit_value c) acc l.
Proof.
  revert acc. induction l as [|c l IH]; intros acc Hl Hacc; [done|]. simpl in Hl. apply andb_true_iff in Hl as [Hc Hl]. simpl.
  apply IH; [done|]. unfold hex_digit_value. unfold is_ascii_hexdigit, is_ascii_digit, in_range in *.
  repeat case_match; lia.
Qed.

Lemma parse_hex_range max s n : parse_hex max s = Some n → 0 ≤ n ≤ max.
Proof.
  unfold parse_hex. generalize (match strip_prefix "+" s with Some d => d | None => s end). intros digits.
  destruct (_ || _) eqn:Hg; [done|]. apply orb_false_iff in Hg as [_ Hhex%negb_false_iff]. cbv zeta.
  destruct (Z.leb_spec (foldl (λ acc c, acc * 16 + hex_digit_value c) 0 (bytes digits)) max); [|done]. intros [= <-].
  split; [by apply hex_value_nonneg|done].
Qed.

Lemma chunk_size_range line n : chunk_size line = Some n → 0 ≤ n ≤ u64_max.
Proof.
  unfold chunk_size. intros (text & _ & Hn)%bind_Some. apply bind_Some in Hn as (value & _ & Hn). by eapply parse_hex_range.
Qed.

(** One round of the loop. *)
Lemma decode_chunks_line fuel maximum line n rest decoded :
  size_line line n →
  decode_chunks unavailable (S fuel) maximum (line ++ CRLF ++ rest) decoded =
    if n =? 0 then Some (if bool_decide (rest = CRLF) then Ok decoded else Err unavailable)
    else if (saturating_sub (length_z rest) 2 <? n)
            || negb (bool_decide (take 2 (drop (Z.to_nat n) rest) = CRLF))
            || (maximum <? u64_saturating_add (length_z decoded) n)
    then Some (Err unavailable)
    else decode_chunks unavailable fuel maximum (drop (Z.to_nat n + 2) rest) (decoded ++ take (Z.to_nat n) rest).
Proof.
  intros [He [Hlo Hhi] Hs]. cbn [decode_chunks]. rewrite (position_app _ _ rest He).
  rewrite !bool_decide_eq_false_2 by lia. cbn [orb]. rewrite take_app_length, Hs.
  assert (drop (length line + 2) (line ++ CRLF ++ rest) = rest) as ->; [|done].
  rewrite drop_app_add. done.
Qed.

Lemma chunk_taken data rest :
  take 2 (drop (length data) (data ++ CRLF ++ rest)) = CRLF ∧
  drop (length data + 2) (data ++ CRLF ++ rest) = rest ∧ take (length data) (data ++ CRLF ++ rest) = data.
Proof. rewrite drop_app_length, drop_app_add, take_app_length. done. Qed.

Lemma decode_chunks_complete enc content : chunked_body enc content → ∀ fuel maximum decoded,
  (length enc < fuel)%nat → maximum < u64_max → length_z decoded + length_z content ≤ maximum →
  decode_chunks unavailable fuel maximum enc decoded = Some (Ok (decoded ++ content)).
Proof.
  induction 1 as [line Hl|line data rest content Hl Hd Hc IH]; intros [|fuel] maximum decoded Hf Hmax Hsize; try lia.
  - rewrite (decode_chunks_line _ _ _ _ _ _ Hl). simpl. by rewrite app_nil_r.
  - rewrite (decode_chunks_line _ _ _ _ _ _ Hl). destruct data as [|c data]; [done|]. set (d := c :: data) in *.
    assert (length d ≠ 0%nat) as Hne by done.
    rewrite length_app in Hsize. rewrite !length_app in Hf. change (length CRLF) with 2%nat in Hf.
    destruct (chunk_taken d rest) as (H1 & H2 & H3). rewrite Nat2Z.id, H1, H2, H3.
    rewrite (proj2 (Z.eqb_neq _ _)) by lia.
    rewrite (proj2 (Z.ltb_ge _ _)); [|unfold saturating_sub; rewrite !length_app; change (length CRLF) with 2%nat; lia].
    rewrite (proj2 (Z.ltb_ge _ _)); [|unfold saturating_add; lia].
    simpl negb. cbn [orb]. rewrite IH; [by rewrite (app_assoc decoded)|lia|done|rewrite length_app; lia].
Qed.

Lemma decode_chunks_total fuel maximum : ∀ remaining decoded,
  (length remaining < fuel)%nat → is_Some (decode_chunks unavailable fuel maximum remaining decoded).
Proof.
  induction fuel as [|fuel IH]; intros remaining decoded Hf; [lia|]. cbn [decode_chunks].
  destruct (position CRLF remaining) as [n|] eqn:Hp; [|done]. destruct (_ || _); [done|].
  destruct (chunk_size _) as [size|]; [|done]. cbv zeta. destruct (size =? 0); [done|]. destruct (_ || _); [done|].
  apply IH. rewrite !length_drop. apply position_Some in Hp as (Hl & Hlen & _).
  apply (f_equal length) in Hl. rewrite !length_app in Hl. change (length CRLF) with 2%nat in Hl. lia.
Qed.

Lemma decode_chunks_sound fuel maximum : ∀ remaining decoded out,
  decode_chunks unavailable fuel maximum remaining decoded = Some (Ok out) →
  ∃ content, out = decoded ++ content ∧ chunked_body remaining content ∧
    (maximum < u64_max → length_z decoded ≤ maximum → length_z out ≤ maximum).
Proof.
  induction fuel as [|fuel IH]; intros remaining decoded out; [done|].
  destruct (position CRLF remaining) as [n|] eqn:Hp; [|cbn [decode_chunks]; by rewrite Hp].
  destruct (bool_decide (n = 0%nat) || bool_decide (32 < n)%nat) eqn:Hn; [cbn [decode_chunks]; by rewrite Hp, Hn|].
  destruct (chunk_size (take n remaining)) as [size|] eqn:Hs; [|cbn [decode_chunks]; by rewrite Hp, Hn, Hs].
  apply position_Some in Hp as (Hl & Hlen & Hpos). apply orb_false_iff in Hn as [H1%bool_decide_eq_false H2%bool_decide_eq_false].
  assert (size_line (take n remaining) size) as Hline by (split; [by rewrite Hlen|lia|done]).
  rewrite Hl. set (rest := drop (n + length CRLF) remaining) in *. set (line := take n remaining) in *.
  rewrite (decode_chunks_line _ _ _ _ _ _ Hline). pose proof (chunk_size_range _ _ Hs) as Hrange.
  destruct (Z.eqb_spec size 0) as [->|Hz].
  - case_bool_decide as Hr; [|done]. rewrite Hr. intros [= <-]. exists []. rewrite app_nil_r. split; [done|]. split; [by constructor|done].
  - destruct (_ || _) eqn:Hg; [done|]. rewrite !orb_false_iff in Hg.
    destruct Hg as [[Hfit%Z.ltb_ge Hcr%negb_false_iff%bool_decide_eq_true] Hmax%Z.ltb_ge].
    intros (content & -> & Hc & Hbound)%IH. exists (take (Z.to_nat size) rest ++ content).
    unfold saturating_sub in Hfit. assert (length (take (Z.to_nat size) rest) = Z.to_nat size) as Htl by (rewrite length_take; lia).
    split; [by rewrite app_assoc|]. split.
    + assert (rest = take (Z.to_nat size) rest ++ CRLF ++ drop (Z.to_nat size + 2) rest) as Hrest.
      { rewrite <-Hcr, <-drop_drop, take_drop, take_drop. done. }
      rewrite Hrest at 1. apply chunked_more; [|intros Hnil; rewrite Hnil in Htl; simpl in Htl; lia|done].
      rewrite Htl, Z2Nat.id by lia. done.
    + intros Hm Hd. apply Hbound; [done|]. rewrite length_app, Htl. unfold saturating_add in Hmax. lia.
Qed.

(** The decoder of a body in chunks accepts exactly the grammar, up to its limit, and returns the bytes of the chunks;
    the loop always ends. *)
Theorem chunked_body_exact enc content_length maximum content :
  0 ≤ maximum < u64_max →
  is_Some (decode_chunks unavailable (S (length enc)) maximum enc []) ∧
  (decode_response_body unavailable enc content_length true maximum = Ok content
   ↔ chunked_body enc content ∧ length_z content ≤ maximum).
Proof.
  intros [Hpos Hmax]. split; [apply decode_chunks_total; lia|]. unfold decode_response_body. cbn [negb]. split.
  - destruct (decode_chunks _ _ _ _ _) as [[out|]|] eqn:Hd; simpl; intros [= <-].
    apply decode_chunks_sound in Hd as (content' & -> & Hc & Hb). split; [done|]. by apply Hb.
  - intros [Hc Hlen]. rewrite (decode_chunks_complete _ _ Hc); [done|lia|done|simpl; lia].
Qed.
End chunks.

Definition w_chunked : list ascii :=
  bytes "5;part" ++ CRLF ++ bytes "hello" ++ CRLF ++ bytes "6" ++ CRLF ++ bytes " world" ++ CRLF ++ bytes "0" ++ CRLF ++ CRLF.

Lemma chunked_body_exact_witness :
  decode_response_body tt w_chunked None true 1048576 = Ok (bytes "hello world") ∧
  chunked_body w_chunked (bytes "hello world").
Proof.
  assert (decode_response_body tt w_chunked None true 1048576 = Ok (bytes "hello world")) as Hd by (vm_compute; reflexivity).
  split; [exact Hd|]. apply (chunked_body_exact tt w_chunked None 1048576); [split; vm_compute; [discriminate|reflexivity]|exact Hd].
Defined.

(** ** Forwarded headers *)

Definition no_newline (s : string) : Prop := LF ∉ bytes s.

(** A visible character of ASCII, the space included. *)
Definition visible (c : ascii) : bool := in_range 32 126 c.

(** [to_str] gives the value, which then has no line break, and succeeds on visible characters. *)
Class HttpCrateLaws `{HttpCrate} : Prop := {
  header_text_visible value text : header_text value = Some text → text = value ∧ no_newline text;
  header_text_ascii value : all_bytes visible value = true → header_text value = Some value
}.

(** The lines of a text that ends with a line break. *)
Definition as_lines (ls : list string) : string := foldr (λ line rest, line +:+ crlf +:+ rest)%string EmptyString ls.
Definition header_line (h : string * string) : string := (h.1 +:+ ": " +:+ h.2)%string.
Definition forwarded (headers : HeaderMap) : HeaderMap := filter (λ h, withheld h.1 = false) headers.

Lemma as_lines_app ls ls' : as_lines (ls ++ ls') = (as_lines ls +:+ as_lines ls')%string.
Proof.
  induction ls as [|l ls IH]; [done|]. cbn [app as_lines foldr]. fold (as_lines (ls ++ ls')) (as_lines ls).
  by rewrite IH, !app_assoc_string.
Qed.

Lemma split_lines_line x r : LF ∉ x → split_lines (x ++ CRLF ++ r) = x :: split_lines r.
Proof.
  induction x as [|c x IH]; intros Hx; [done|]. apply not_elem_of_cons in Hx as [Hc Hx]. specialize (IH Hx).
  assert (∃ d l, x ++ CRLF ++ r = d :: l ∧ d ≠ LF) as (d & l & Hl & Hd).
  { destruct x as [|d x]; [by exists CR, (LF :: r)|]. exists d, (x ++ CRLF ++ r). split; [done|]. intros ->. set_solver. }
  cbn [app split_lines]. rewrite Hl in *. rewrite (proj2 (Ascii.eqb_neq d LF) Hd), andb_false_r. by rewrite IH.
Qed.

Lemma lines_of_as_lines ls rest : Forall no_newline ls → lines_of (as_lines ls +:+ rest) = ls ++ lines_of rest.
Proof.
  induction 1 as [|l ls Hl _ IH]; [done|]. cbn [as_lines foldr app]. fold (as_lines ls).
  unfold lines_of in *. rewrite !app_assoc_string, bytes_app, bytes_app. change (bytes crlf) with CRLF.
  rewrite split_lines_line by done. rewrite fmap_cons, IH. f_equal. apply string_of_list_ascii_of_string.
Qed.

Section forwarding.
Context `{HttpCrate, !HttpCrateLaws} {E : Type} (invalid : E).

Lemma append_forward_headers_Ok headers : ∀ encoded out,
  append_forward_headers invalid encoded headers = Ok out →
  out = (encoded +:+ as_lines (header_line <$> forwarded headers))%string ∧
  Forall (λ h, no_newline h.2) (forwarded headers).
Proof.
  unfold forwarded. induction headers as [|[name value] headers IH]; intros encoded out; cbn [append_forward_headers].
  { intros [= <-]. by rewrite app_empty_r. }
  rewrite filter_cons. cbn [fst]. destruct (withheld name) eqn:Hw; [rewrite decide_False by done; apply IH|].
  rewrite decide_True by done. intros Hrun. apply bind_Ok_inv in Hrun as (text & Ht%ok_or_Ok & Hrun).
  apply header_text_visible in Ht as [-> Hnl]. apply IH in Hrun as [-> Hall]. split; [|by constructor].
  rewrite fmap_cons. cbn [as_lines foldr]. fold (as_lines (header_line <$> filter (λ h, withheld h.1 = false) headers)).
  change (header_line (name, value)) with (name +:+ ": " +:+ value)%string. by rewrite !app_assoc_string.
Qed.

Lemma no_newline_app s t : no_newline s → no_newline t → no_newline (s +:+ t).
Proof. unfold no_newline. rewrite bytes_app. set_solver. Qed.

(** The lines of a request head that is made of [lines], the forwarded headers and [last]. *)
Lemma forwarded_head_lines lines headers encoded rest :
  Forall no_newline lines → Forall (λ h, no_newline h.1) headers →
  append_forward_headers invalid (as_lines lines) headers = Ok encoded →
  lines_of (encoded +:+ rest) = lines ++ (header_line <$> forwarded headers) ++ lines_of rest.
Proof.
  intros Hl Hn [-> Hv]%append_forward_headers_Ok. rewrite <-as_lines_app, lines_of_as_lines; [by rewrite app_assoc|].
  apply Forall_app. split; [done|]. apply Forall_fmap, Forall_forall. intros [n v] Hin.
  pose proof Hin as Hh. apply list_elem_of_filter in Hh as [_ Hh]. rewrite Forall_forall in Hn, Hv.
  unfold compose, header_line. apply no_newline_app; [exact (Hn _ Hh)|]. apply no_newline_app; [|exact (Hv _ Hin)].
  unfold no_newline. vm_compute. intros Hin'. repeat (apply elem_of_cons in Hin' as [Hin'|Hin']; [done|]). by apply not_elem_of_nil in Hin'.
Qed.
End forwarding.

(** ** Concrete header values *)

#[local] Instance ex_http : HttpCrate := {
  header_name s := if all_bytes token_byte s && negb (bool_decide (s = EmptyString)) then Some (lowercase s) else None;
  header_value s := if all_bytes visible s then Some s else None;
  header_text s := if all_bytes visible s then Some s else None;
  status_code n := (100 <=? n) && (n <=? 999)
}.
#[local] Instance ex_http_laws : HttpCrateLaws.
Proof.
  split; simpl.
  - intros value text. destruct (all_bytes visible value) eqn:Hv; [|done]. intros [= <-]. split; [done|].
    intros Hin. by pose proof (all_bytes_elem _ _ _ Hv Hin).
  - by intros value ->.
Qed.
