(* ===== verification/GatewayAuth.v ===== *)
(** * Credentials of the gateway

    Models [bins/sandbox-gateway/src/auth.rs] and [worker_auth.rs]: the
    policies of client and worker credentials, their validation, the
    authentication of a request and the authorization of what it asks for.
    SHA-256, [hex] and the header values of the [http] crate are parameters. *)
From S2P Require Import Prelude Identity GuestProfile WorkOrder Autoscale Verifier Signer Http.
Import Autoscale.Autoscale Verifier.Verifier Signer.Signer Http.Http.

Module GatewayAuth.

Definition AUTH_POLICY_VERSION : Z := 2.
Definition WORKER_POLICY_VERSION : Z := 1.
(** The digests that the secret of an unknown key is compared with. *)
Definition DUMMY_DIGEST : list ascii := replicate 32 (ascii_of_N 90).
Definition WORKER_DUMMY_DIGEST : list ascii := replicate 32 (ascii_of_N 165).

Record CredentialPolicy : Type := MkCredential {
  token_sha256 : string;
  credential_tenant : TenantId;
  credential_subject : SubjectId;
  workspaces : gset WorkspaceId;
  maximum_deadline_ms : Z;
  allowed_pools : gset string;
  topologies : gset string;
  resource_shapes : gset string;
  compatibility_cohorts : gset string;
  service_levels : gmap string ServiceLevelPolicy
}.

Record AuthPolicy : Type := MkAuthPolicy { auth_schema_version : Z; credentials : gmap string CredentialPolicy }.

Record Principal : Type := MkPrincipal {
  principal_tenant : TenantId;
  principal_subject : SubjectId;
  principal_policy : CredentialPolicy
}.

Definition label_byte (b : ascii) : bool :=
  is_ascii_alphanumeric b || is_byte "-" b || is_byte "_" b || is_byte "." b || is_byte ":" b || is_byte "/" b.

Definition bounded_label (value : string) : bool :=
  negb (bool_decide (value = EmptyString)) && (len value <=? 128) && all_bytes label_byte value.

Definition valid_allowlist (values : gset string) : bool :=
  negb (bool_decide (values = ∅)) && (Z.of_nat (size values) <=? 1000) && forallb bounded_label (elements values).

Definition authorize_workspace (p : Principal) (workspace : WorkspaceId) : result () () :=
  reject_if (negb (bool_decide (workspace ∈ workspaces (principal_policy p)))) tt.

Definition authorize (p : Principal) (workspace : WorkspaceId) (deadline_from_now_ms : Z)
    (pool_name topology resource_shape compatibility_cohort : string) : result () () :=
  let policy := principal_policy p in
  reject_if (negb (bool_decide (workspace ∈ workspaces policy)) || (deadline_from_now_ms =? 0)
             || (maximum_deadline_ms policy <? deadline_from_now_ms)
             || negb (bool_decide (pool_name ∈ allowed_pools policy))
             || negb (bool_decide (topology ∈ topologies policy))
             || negb (bool_decide (resource_shape ∈ resource_shapes policy))
             || negb (bool_decide (compatibility_cohort ∈ compatibility_cohorts policy))) tt.

Definition authorize_service_level (p : Principal) (pool : WorkerPool) : result () () :=
  level ← ok_or tt (service_levels (principal_policy p) !! pool_name pool);
  match level with
  | ScaleToZero => reject_if (negb ((minimum_workers (policy pool) =? 0) && (warm_headroom (policy pool) =? 0))) tt
  | RetainedWarm clean_workers =>
      reject_if (negb ((0 <? clean_workers) && (clean_workers <=? warm_headroom (policy pool))
                       && (clean_workers <=? maximum_workers (policy pool)))) tt
  end.

(** A worker's credential names exactly one worker. *)
Record WorkerCredential : Type := MkWorkerCredential {
  worker_token_sha256 : string;
  credential_worker : WorkerId;
  credential_pool : string;
  credential_topology : string;
  credential_shape : string;
  credential_cohort : string
}.

Record WorkerAuthPolicy : Type := MkWorkerPolicy { worker_schema_version : Z; worker_credentials : gmap string WorkerCredential }.

Definition worker_authorize (c : WorkerCredential) (worker : WorkerId)
    (pool_name topology resource_shape compatibility_cohort : string) : result () () :=
  reject_if (negb (bool_decide (credential_worker c = worker)) || negb (bool_decide (credential_pool c = pool_name))
             || negb (bool_decide (credential_topology c = topology))
             || negb (bool_decide (credential_shape c = resource_shape))
             || negb (bool_decide (credential_cohort c = compatibility_cohort))) tt.

Definition authorize_worker (c : WorkerCredential) (worker : WorkerId) : result () () :=
  reject_if (negb (bool_decide (credential_worker c = worker))) tt.

Section code.
Context `{SignatureCodec, SigningCodec, HttpCrate}.

Definition decode_digest (value : string) : option (list ascii) :=
  if negb (len value =? 64) || negb (all_bytes is_lowercase_hex value) then None
  else digest ← hex_decode value; if length_z digest =? 32 then Some digest else None.

Definition invalid_credential (key_id : string) (c : CredentialPolicy) : bool :=
  negb (bounded_token key_id 64) || negb (bool_decide (is_Some (decode_digest (token_sha256 c))))
  || bool_decide (workspaces c = ∅) || (1000 <? Z.of_nat (size (workspaces c)))
  || (maximum_deadline_ms c =? 0) || (24 * 60 * 60 * 1000 <? maximum_deadline_ms c)
  || negb (valid_allowlist (allowed_pools c)) || negb (valid_allowlist (topologies c))
  || negb (valid_allowlist (resource_shapes c)) || negb (valid_allowlist (compatibility_cohorts c))
  || negb (bool_decide (dom (service_levels c) = allowed_pools c))
  || existsb (λ '(_, level), match level with
                             | RetainedWarm clean_workers => (clean_workers =? 0) || (100000 <? clean_workers)
                             | ScaleToZero => false
                             end) (map_to_list (service_levels c)).

Definition validate_auth (p : AuthPolicy) : result string () :=
  reject_if (negb (auth_schema_version p =? AUTH_POLICY_VERSION) || bool_decide (credentials p = ∅)
             || (10000 <? Z.of_nat (size (credentials p))))
    "auth policy version or credential count is invalid"%string;;
  for_each (λ '(key_id, c), reject_if (invalid_credential key_id c) "auth policy contains an invalid credential"%string)
    (btree_iter (credentials p)).

(** The key and the secret of an [authorization] header, after its scheme. *)
Definition presented (scheme : string) (headers : HeaderMap) : result () (string * string) :=
  value ← ok_or tt (v ← header_get "authorization" headers; text ← header_text v; strip_prefix scheme text);
  '(key_id, secret) ← ok_or tt (split_once "." value);
  reject_if (negb (bounded_token key_id 64) || negb (bounded_token secret 128) || (len secret <? 32) || (196 <? len value)) tt;;
  mret (key_id, secret).

Definition authenticate (p : AuthPolicy) (headers : HeaderMap) : result () Principal :=
  '(key_id, secret) ← presented "Bearer " headers;
  let observed := sha256 (bytes secret) in
  let credential := credentials p !! key_id in
  let expected := default DUMMY_DIGEST (c ← credential; decode_digest (token_sha256 c)) in
  reject_if (negb (bool_decide (observed = expected))) tt;;
  credential ← ok_or tt credential;
  mret (MkPrincipal (credential_tenant credential) (credential_subject credential) credential).

Definition invalid_worker_credential (key_id : string) (c : WorkerCredential) : bool :=
  negb (bounded_token key_id 64) || negb (bool_decide (is_Some (decode_digest (worker_token_sha256 c))))
  || negb (bounded_label (credential_pool c)) || negb (bounded_label (credential_topology c))
  || negb (bounded_label (credential_shape c)) || negb (bounded_label (credential_cohort c)).

Definition validate_worker_auth (p : WorkerAuthPolicy) : result string () :=
  reject_if (negb (worker_schema_version p =? WORKER_POLICY_VERSION) || bool_decide (worker_credentials p = ∅)
             || (10000 <? Z.of_nat (size (worker_credentials p))))
    "worker auth policy version or credential count is invalid"%string;;
  for_each (λ '(key_id, c), reject_if (invalid_worker_credential key_id c)
                              "worker auth policy contains an invalid credential"%string)
    (btree_iter (worker_credentials p)).

Definition authenticate_credential (p : WorkerAuthPolicy) (headers : HeaderMap) : result () WorkerCredential :=
  '(key_id, secret) ← presented "Worker " headers;
  let observed := sha256 (bytes secret) in
  let credential := worker_credentials p !! key_id in
  let expected := default WORKER_DUMMY_DIGEST (c ← credential; decode_digest (worker_token_sha256 c)) in
  reject_if (negb (bool_decide (observed = expected))) tt;;
  ok_or tt credential.
End code.
End GatewayAuth.
Import GatewayAuth.

(** ** Who is authenticated *)

(** A header presents a key and a secret. *)
Record presents `{HttpCrate} (scheme : string) (headers : HeaderMap) (key_id secret : string) : Prop := Presents {
  pr_header : ∃ value, header_get "authorization" headers = Some value ∧
    header_text value = Some (scheme +:+ key_id +:+ String "." secret);
  pr_key : bounded_token key_id 64 = true;
  pr_secret : bounded_token secret 128 = true ∧ 32 ≤ len secret
}.

Section exactness.
Context `{SignatureCodec, SigningCodec, HttpCrate}.

Lemma bounded_token_no_dot s n : bounded_token s n = true → "."%char ∉ bytes s.
Proof. unfold bounded_token. intros [_ Hb]%andb_true_iff Hin. by apply (all_bytes_elem _ _ _ Hb) in Hin. Qed.

Lemma presented_Ok scheme headers key_id secret :
  presented scheme headers = Ok (key_id, secret) ↔ presents scheme headers key_id secret.
Proof.
  unfold presented. split.
  - intros Hp. apply bind_Ok_inv in Hp as (value & Hv%ok_or_Ok & Hp).
    apply bind_Some in Hv as (v & Hget & Hv). apply bind_Some in Hv as (text & Htext & Hv%strip_prefix_Some).
    apply bind_Ok_inv in Hp as ([k s] & Hs%ok_or_Ok & Hp). apply split_once_Some in Hs as [-> _].
    apply bind_Ok_inv in Hp as ([] & Hg%reject_if_Ok & [= -> ->]). rewrite !orb_false_iff, !negb_false_iff in Hg.
    destruct Hg as [[[Hk Hsec] Hlen] _]. split; [exists v; by subst text|done|]. split; [done|lia].
  - intros [(v & Hget & Htext) Hk [Hs Hlen]]. rewrite Hget. simpl. rewrite Htext. simpl.
    rewrite strip_prefix_app. simpl.
    rewrite (proj2 (split_once_Some "." (key_id +:+ String "." secret) key_id secret)); [|split; [done|by eapply bounded_token_no_dot]].
    simpl. rewrite Hk, Hs. simpl. rewrite (proj2 (Z.ltb_ge _ _) Hlen).
    rewrite (proj2 (Z.ltb_ge _ _)); [done|]. rewrite len_app. change (String "." secret) with ("." +:+ secret)%string.
    rewrite len_app. change (len ".") with 1. unfold bounded_token in *. rewrite !andb_true_iff, !Z.leb_le in *. lia.
Qed.

Lemma validated_digest p key_id c :
  validate_auth p = Ok tt → credentials p !! key_id = Some c → is_Some (decode_digest (token_sha256 c)).
Proof.
  unfold validate_auth. intros [_ Hall%for_each_Ok]%seq_Ok Hc. rewrite Forall_forall in Hall.
  specialize (Hall (key_id, c)). rewrite elem_of_btree_iter in Hall. specialize (Hall Hc). simpl in Hall.
  apply reject_if_Ok in Hall. unfold invalid_credential in Hall. rewrite !orb_false_iff in Hall.
  destruct Hall as [[[[[[[[[[[_ Hd] _] _] _] _] _] _] _] _] _] _]. by apply negb_false_iff, bool_decide_eq_true in Hd.
Qed.

(** Under a validated policy a request is authenticated exactly by a bearer header with a key of the policy and a
    secret whose SHA-256 is the one configured for the key; the principal has the tenant, the subject and the
    permissions of that key. *)
Theorem authentication_exact p headers principal :
  validate_auth p = Ok tt →
  authenticate p headers = Ok principal ↔
  ∃ key_id secret c, presents "Bearer " headers key_id secret ∧ credentials p !! key_id = Some c ∧
    decode_digest (token_sha256 c) = Some (sha256 (bytes secret)) ∧
    principal = MkPrincipal (credential_tenant c) (credential_subject c) c.
Proof.
  intros Hval. unfold authenticate. split.
  - intros Ha. apply bind_Ok_inv in Ha as ([key_id secret] & Hp%presented_Ok & Ha). cbv zeta in Ha.
    apply bind_Ok_inv in Ha as ([] & Hd%reject_if_Ok & Ha). apply negb_false_iff, bool_decide_eq_true in Hd.
    apply bind_Ok_inv in Ha as (c & Hc%ok_or_Ok & [= <-]). exists key_id, secret, c. split_and!; try done.
    rewrite Hc in Hd. simpl in Hd. destruct (validated_digest _ _ _ Hval Hc) as [d Hdd]. rewrite Hdd in Hd |- *. by rewrite Hd.
  - intros (key_id & secret & c & Hp%presented_Ok & Hc & Hd & ->). rewrite Hp. simpl. rewrite Hc. simpl. rewrite Hd. simpl.
    by rewrite bool_decide_eq_true_2.
Qed.
End exactness.

(** ** A concrete policy *)

#[local] Existing Instances ex_signature ex_signing ex_http.

Definition ex_secret : string := "00112233445566778899aabbccddeeff".
Definition ex_credential : CredentialPolicy :=
  MkCredential (hex_encode (sha256 (bytes ex_secret))) (id_lit "tenant-a") (id_lit "subject-1") {[ (id_lit "team-a" : WorkspaceId) ]} 600000
    {[ "pool-1" ]} {[ "topology-1" ]} {[ "standard" ]} {[ "cohort-1" ]} {[ "pool-1" := ScaleToZero ]}%string.
Definition ex_auth : AuthPolicy := MkAuthPolicy AUTH_POLICY_VERSION {[ "client-1" := ex_credential ]}%string.
Definition ex_headers : HeaderMap :=
  [("authorization", "Bearer client-1." +:+ ex_secret); ("idempotency-key", "key-1"); ("host", "service.example")]%string.
Definition ex_principal : Principal := MkPrincipal (id_lit "tenant-a") (id_lit "subject-1") ex_credential.

Lemma authentication_exact_witness : authenticate ex_auth ex_headers = Ok ex_principal.
Proof.
  apply authentication_exact; [vm_compute; reflexivity|].
  exists "client-1"%string, ex_secret, ex_credential. split; [|split; [apply lookup_singleton_eq|split; [vm_compute; reflexivity|reflexivity]]].
  split; [eexists; split; vm_compute; reflexivity|vm_compute; reflexivity|]. split; [vm_compute; reflexivity|]. vm_compute. discriminate.
Defined.
