(* ===== verification/Gateway.v ===== *)
(** * The gateway

    Models [bins/sandbox-gateway/src/api.rs], [dispatcher.rs] and [ingress.rs]
    on top of the placement store, the signer and the credentials.  The state
    is the store's tables together with the network and the clock; between two
    calls of a handler the other clients of the store may run, so that a call
    is preceded by any calls of theirs.  JSON, base64, URIs and the HTTP server
    are parameters or arguments. *)
From S2P Require Import Prelude Identity Lease FairQueue GuestProfile Volume Network Topology Snapshot WorkOrder Autoscale Protocol.
From S2P Require Import Placement PlacementProofs Verifier Signer Http GatewayAuth.
Import Topology.Topology Autoscale.Autoscale Protocol.Protocol Placement.Placement Verifier.Verifier Signer.Signer Http.Http GatewayAuth.GatewayAuth.

Module Gateway.

Definition MAXIMUM_RESULT_STREAMS : Z := 64.
Definition IDEMPOTENCY_KEY : string := "idempotency-key".
Definition MAXIMUM_HEADER_BYTES : Z := 16 * 1024.
Definition MAXIMUM_INGRESS_BODY_BYTES : Z := 1024 * 1024.
Definition MAXIMUM_INGRESS_RESPONSE_BYTES : Z := 1024 * 1024.

Record WorkerAdvertisement : Type := MkAdvertisement {
  advertised_worker : WorkerId;
  advertised_pool : string;
  advertised_topology : string;
  advertised_shape : string;
  advertised_cohort : string;
  advertised_address : SocketAddr;
  advertised_ceilings : WorkOrder.ResourceCeilings
}.

Record SubmitRequest : Type := MkSubmit {
  submit_workspace : WorkspaceId;
  submit_sandbox : SandboxId;
  submit_deadline_ms : Z;
  submit_pool : string;
  submit_topology : string;
  submit_shape : string;
  submit_cohort : string;
  submit_operation : Operation;
  submit_recovery : option RecoveryPolicy
}.

Section response.
Context {Value : Type}.

Record PlacementResponse : Type := MkPlacementResponse {
  pr_request_id : string;
  pr_idempotency_key : string;
  pr_workspace : string;
  pr_sandbox : string;
  pr_pool : string;
  pr_state : PlacementState;
  pr_worker : option string;
  pr_epoch : option Z;
  pr_expires : option Z;
  pr_digest : option string;
  pr_response : option (WorkloadResponse Value);
  pr_recovery : option RecoveryStatus
}.
End response.
#[global] Arguments PlacementResponse Value : clear implicits.

Inductive ApiError : Type :=
| Unauthorized | Forbidden | InvalidRequest | NotFound | Conflict | Exhausted | TooLarge | Unavailable.

Definition of_store_error (e : PlacementStoreError) : ApiError :=
  match e with
  | GlobalQueueFull | TenantQueueFull => Exhausted
  | SandboxConflict | CompletionConflict | StaleAssignment => Conflict
  | Invalid _ => InvalidRequest
  | Database _ | Tls _ | WorkerUnavailable => Unavailable
  end.

(** [IntoResponse]: the status and the text of the body. *)
Definition error_response (e : ApiError) : Z * string :=
  match e with
  | Unauthorized => (401, "unauthorized")
  | Forbidden => (403, "forbidden")
  | InvalidRequest => (400, "invalid_request")
  | NotFound => (404, "not_found")
  | Conflict => (409, "conflict")
  | Exhausted => (429, "resource_exhausted")
  | TooLarge => (413, "payload_too_large")
  | Unavailable => (503, "unavailable")
  end%string.

(** JSON of the messages, and base64 without padding. *)
Class GatewayCodec (Value : Type) : Type := {
  request_json : WorkloadRequest → result string (list ascii);
  response_json : list ascii → result string (WorkloadResponse Value);
  placement_json : PlacementResponse Value → result string string;
  base64 : list ascii → string
}.

(** The clock, as its distance from the Unix epoch in milliseconds, and an exchange over TCP: what is read back, up to
    a number of bytes, or why it failed or took too long. *)
Class Transport (N : Type) : Type := {
  system_clock : N → N * Z;
  tcp_exchange : SocketAddr → list ascii → Z → N → N * result string (list ascii)
}.

Section code.
Context {N Value : Type} `{Transport N, !StoreCodec Value, !GatewayCodec Value}.
Context `{SignatureCodec, SigningCodec, OperationCodec, HttpCrate}.
Context (config : PlacementStoreConfig).

(** [others] are the calls that the other clients of the store make before each call of ours; [sent] are the
    requests that were sent to workers, in order. *)
Record World : Type := MkWorld {
  net : N;
  db : Db;
  others : list (list (StoreOp (Value := Value)));
  sent : list (SocketAddr * WorkloadRequest);
  streams : Z;
  route_sequence : Z
}.

Definition set_net (n : N) (w : World) : World := MkWorld n (db w) (others w) (sent w) (streams w) (route_sequence w).
Definition set_streams (n : Z) (w : World) : World := MkWorld (net w) (db w) (others w) (sent w) n (route_sequence w).

Abbreviation G E := (M World (failure E)).

(** A call of the store: what the others do, then ours. *)
Definition call {E A} (c : Tx A) : G E (result PlacementStoreError A) :=
  λ w, let db1 := run_ops config (default [] (head (others w))) (db w) in
       let '(db2, r) := c db1 in
       (MkWorld (net w) db2 (tail (others w)) (sent w) (streams w) (route_sequence w),
        match r with
        | Ok a => Ok (Ok a)
        | Err (Rejected e) => Ok (Err e)
        | Err (Panicked m) => Err (Panicked m)
        end).
Definition store {E A} (f : PlacementStoreError → E) (c : Tx A) : G E A :=
  r ← call c; M_lift (map_err (λ e, Rejected (f e)) r).

Definition lift {E F A} (e : E) (r : result F A) : G E A := M_lift (map_err (λ _, Rejected e) r).

Definition clock {E} (early late : E) : G E Z :=
  λ w, let '(n, now) := system_clock (net w) in
       (set_net n w, reject_if (now <? 0) (Rejected early);; reject_if (u64_max <? now) (Rejected late);; mret now).

(** The bytes that an exchange sends; [request] is what they carry. *)
Definition transmit {E} (address : SocketAddr) (request : WorkloadRequest) (message : list ascii) (limit : Z) :
    G E (result string (list ascii)) :=
  λ w, let '(n, r) := tcp_exchange address message limit (net w) in
       (MkWorld n (db w) (others w) (sent w ++ [(address, request)]) (streams w) (route_sequence w),
        Ok (answer ← r; mret (take (Z.to_nat limit) answer))).

(** ** The dispatcher *)

Definition MAXIMUM_RESPONSE_BYTES : Z := 4 * 1024 * 1024.

Record Dispatcher : Type := MkDispatcher {
  dispatcher_signer : WorkOrderSigner;
  interval : Z;
  request_timeout : Z;
  worker_scan_limit : Z
}.

Definition new_dispatcher (signer : WorkOrderSigner) (interval request_timeout worker_scan_limit : Z) : result string Dispatcher :=
  reject_if ((interval =? 0) || (from_secs 10 <? interval) || (request_timeout =? 0) || (from_secs 60 <? request_timeout)
             || (worker_scan_limit =? 0) || (1024 <? worker_scan_limit))
    "dispatcher timing or worker scan limit is invalid"%string;;
  mret (MkDispatcher signer interval request_timeout worker_scan_limit).

(** The header lines of a broker's response: the content length. *)
Fixpoint broker_headers (lines : list string) (content_length : option Z) : result string (option Z) :=
  match lines with
  | [] => Ok content_length
  | line :: lines' =>
      if bool_decide (line = EmptyString) then broker_headers lines' content_length
      else
        '(name, value) ← ok_or "broker response contains a malformed header"%string (split_once ":" line);
        reject_if (eq_ignore_ascii_case name "transfer-encoding") "chunked broker responses are not accepted"%string;;
        if eq_ignore_ascii_case name "content-length" then
          reject_if (bool_decide (is_Some content_length)) "broker response repeats content length"%string;;
          length ← ok_or "broker content length is invalid"%string (parse_unsigned u64_max (trim value));
          broker_headers lines' (Some length)
        else broker_headers lines' content_length
  end.

Definition parse_response (encoded : list ascii) (request_id : string) : result string (WorkloadResponse Value) :=
  position ← ok_or "broker response has no header terminator"%string (position (CRLF ++ CRLF) encoded);
  let header_end := (position + 4)%nat in
  reject_if (MAXIMUM_HEADER_BYTES <? Z.of_nat header_end) "broker response headers exceed their size limit"%string;;
  headers ← ok_or "broker response headers are not UTF-8"%string (from_utf8 (take header_end encoded));
  let lines := lines_of headers in
  status ← ok_or "broker response has no status"%string (head lines);
  reject_if (negb (starts_with "HTTP/1.1 200 " status || starts_with "HTTP/1.0 200 " status))
    "broker rejected the work order"%string;;
  content_length ← broker_headers (tail lines) None;
  let body := drop header_end encoded in
  reject_if (negb (bool_decide (content_length = Some (length_z body))) || (MAXIMUM_RESPONSE_BYTES <? length_z body))
    "broker response body length is invalid"%string;;
  response ← map_err (λ error, "decode broker response: " +:+ error)%string (response_json body);
  validate_for response request_id;;
  mret response.

Definition dispatch_head (address : SocketAddr) (body : list ascii) : string :=
  (as_lines ["POST /v1/dispatch HTTP/1.1"; "Host: " +:+ address_text address; "Content-Type: application/json";
             "Content-Length: " +:+ to_string (length_z body); "Connection: close"] +:+ crlf)%string.

(** [dispatch]: the outcome of an exchange with a broker, or why there is none. *)
Definition dispatch {E} (address : SocketAddr) (request : WorkloadRequest) : G E (result string (WorkloadResponse Value)) :=
  match request_json request with
  | Err error => mret (Err ("encode broker request: " +:+ error)%string)
  | Ok body =>
      if MAXIMUM_RESPONSE_BYTES <? length_z body then mret (Err "broker request exceeds its size limit"%string)
      else
        answer ← transmit address request (bytes (dispatch_head address body) ++ body)
                   (MAXIMUM_HEADER_BYTES + MAXIMUM_RESPONSE_BYTES + 1);
        mret (encoded ← answer; parse_response encoded (wr_request_id request))
  end.

Abbreviation D := (G string).

Definition dispatcher_now : D Z :=
  clock "system clock is before the Unix epoch"%string "system clock does not fit in milliseconds"%string.
Definition dispatcher_store {A} (c : Tx A) : D A := store store_error_text c.
Definition text_lift {A} (r : result string A) : D A := M_lift (map_err Rejected r).

Definition checkpoint_operation (c : CheckpointAssignment) : Operation :=
  OpSnapshot (as_str (Lease.pi_sandbox_id (assignment_identity (checkpoint_assignment c)))) (as_str (checkpoint_snapshot c))
    Snapshot.Live.

(** One checkpoint that is due; a refusal or a failed exchange is logged only. *)
Definition take_checkpoint (self : Dispatcher) (c : CheckpointAssignment) : D () :=
  let a := checkpoint_assignment c in
  now ← dispatcher_now;
  request ← text_lift (sign_operation (dispatcher_signer self) a (checkpoint_operation c) now);
  outcome ← dispatch (assignment_broker a) request;
  match outcome with
  | Ok response =>
      if rs_ok response then
        now ← dispatcher_now;
        published ← call (publish_checkpoint c now);
        match published with
        | Ok _ | Err StaleAssignment => mret tt
        | Err error => M_fail (Rejected (store_error_text error))
        end
      else mret tt
  | Err _ => mret tt
  end.

(** One clean worker. *)
Definition serve_worker (self : Dispatcher) (worker : WorkerId) : D () :=
  now ← dispatcher_now;
  granted ← call (assign_next config worker now);
  match granted with
  | Ok (Some a) =>
      now ← dispatcher_now;
      request ← text_lift (sign (dispatcher_signer self) a now);
      outcome ← dispatch (assignment_broker a) request;
      match outcome with
      | Ok response =>
          now ← dispatcher_now;
          completed ← call (complete_response config a response now);
          match completed with
          | Ok _ | Err StaleAssignment => mret tt
          | Err error => M_fail (Rejected (store_error_text error))
          end
      | Err _ => mret tt
      end
  | Ok None | Err WorkerUnavailable => mret tt
  | Err error => M_fail (Rejected (store_error_text error))
  end.

Fixpoint each {A} (f : A → D ()) (l : list A) : D () :=
  match l with
  | [] => mret tt
  | x :: l' => f x;; each f l'
  end.

Definition reconcile_once (self : Dispatcher) : D () :=
  now ← dispatcher_now;
  dispatcher_store (fence_expired now);;
  checkpoints ← dispatcher_store (claim_due_checkpoints config now (worker_scan_limit self));
  each (take_checkpoint self) checkpoints;;
  workers ← dispatcher_store (clean_workers config now (worker_scan_limit self));
  each (serve_worker self) workers.

(** ** The API *)

Record AppState : Type := MkApp {
  auth : AuthPolicy;
  worker_auth : WorkerAuthPolicy;
  worker_pools : WorkerPoolCatalog;
  route_signer : option WorkOrderSigner
}.

Abbreviation A := (G ApiError).

Definition api_now : A Z := clock Unavailable Unavailable.
Definition api_store {B} (c : Tx B) : A B := store of_store_error c.

Definition valid_token (value : string) (maximum : Z) : bool :=
  negb (bool_decide (value = EmptyString)) && (len value <=? maximum) && all_bytes token_byte value.

Definition header_token (headers : HeaderMap) (name : string) (maximum : Z) : result ApiError string :=
  value ← ok_or InvalidRequest (v ← header_get name headers; header_text v);
  reject_if (negb (valid_token value maximum)) InvalidRequest;;
  mret value.

Definition api_lift {B} (r : result ApiError B) : A B := M_lift (map_err Rejected r).

(** *** Workers *)

Definition register_worker (state : AppState) (headers : HeaderMap) (request : WorkerAdvertisement) : A Z :=
  principal ← lift Unauthorized (authenticate_credential (worker_auth state) headers);
  lift Forbidden (worker_authorize principal (advertised_worker request) (advertised_pool request)
                    (advertised_topology request) (advertised_shape request) (advertised_cohort request));;
  pool ← lift Forbidden (Autoscale.pool (worker_pools state) (advertised_pool request));
  M_reject_if (negb (bool_decide (key_resource_shape (pool_key pool) = advertised_shape request))
               || negb (bool_decide (runtime_compatibility_cohort (pool_key pool) = advertised_cohort request)))
    (Rejected Forbidden);;
  now ← api_now;
  api_store (Placement.register_worker config
    (MkRegistration (advertised_worker request) (advertised_pool request) (advertised_topology request)
       (advertised_shape request) (advertised_cohort request) (advertised_address request) (advertised_ceilings request)) now);;
  mret 204.

Definition authenticate_worker (state : AppState) (headers : HeaderMap) (worker : WorkerId) : A () :=
  lift Unauthorized (principal ← authenticate_credential (worker_auth state) headers; authorize_worker principal worker).

Definition heartbeat_worker (state : AppState) (worker : WorkerId) (headers : HeaderMap) : A Z :=
  lift Unauthorized (principal ← authenticate_credential (worker_auth state) headers; authorize_worker principal worker);;
  now ← api_now;
  api_store (Placement.heartbeat_worker config worker now);;
  mret 204.

Definition drain_worker (state : AppState) (worker : WorkerId) (headers : HeaderMap) : A Z :=
  authenticate_worker state headers worker;;
  api_store (Placement.drain_worker worker);;
  mret 204.

Definition quarantine_worker (state : AppState) (worker : WorkerId) (headers : HeaderMap) : A Z :=
  authenticate_worker state headers worker;;
  now ← api_now;
  api_store (Placement.quarantine_worker worker now);;
  mret 204.

(** *** Placements *)

Definition pool_accepts_request (pool : WorkerPool) (resource_shape compatibility_cohort : string) (o : Operation) : bool :=
  if negb (bool_decide (key_resource_shape (pool_key pool) = resource_shape))
     || negb (bool_decide (runtime_compatibility_cohort (pool_key pool) = compatibility_cohort)) then false
  else
    match operation_topology o with
    | None => true
    | Some topology =>
        let p := Topology.policy topology in
        let profile := Network.profile (network p) in
        let ingress := Network.ingress (network p) in
        if negb (bool_decide (guest_profile p = key_guest_profile (pool_key pool))) then false
        else match network_tier (pool_key pool) with
             | TierLoopback => bool_decide (profile = Network.ProfileNone) && bool_decide (ingress = [])
             | UserspaceEgress => negb (bool_decide (profile = Network.ProfileNone)) && bool_decide (ingress = [])
             | UserspaceIngress => negb (bool_decide (ingress = []))
             end
    end.

Definition of_record (r : PlacementRecord Value) : PlacementResponse Value :=
  MkPlacementResponse (record_request_id r) (record_idempotency_key r)
    (as_str (Lease.pi_workspace_id (record_identity r))) (as_str (Lease.pi_sandbox_id (record_identity r)))
    (record_pool r) (record_state r) (as_str <$> record_worker r) (epoch_get <$> record_epoch r) (record_expires r)
    (record_digest r) (record_response r) (record_recovery r).

Definition submit (state : AppState) (headers : HeaderMap) (request : SubmitRequest) : A (Z * PlacementResponse Value) :=
  principal ← lift Unauthorized (authenticate (auth state) headers);
  key ← api_lift (header_token headers IDEMPOTENCY_KEY 128);
  now ← api_now;
  lift Forbidden (authorize principal (submit_workspace request) (submit_deadline_ms request) (submit_pool request)
                    (submit_topology request) (submit_shape request) (submit_cohort request));;
  pool ← lift Forbidden (Autoscale.pool (worker_pools state) (submit_pool request));
  lift Forbidden (authorize_service_level principal pool);;
  M_reject_if (negb (pool_accepts_request pool (submit_shape request) (submit_cohort request) (submit_operation request)))
    (Rejected Forbidden);;
  deadline ← api_lift (ok_or InvalidRequest (u64_checked_add now (submit_deadline_ms request)));
  outcome ← api_store (enqueue config
    (MkSubmission (FairQueue.MkWork key (principal_tenant principal) (submit_workspace request) (submit_sandbox request) deadline)
       (principal_subject principal) (submit_pool request) (submit_topology request) (submit_shape request)
       (submit_cohort request) (submit_operation request) (submit_recovery request)) now);
  mret match outcome with
       | EnqueueQueued record => (202, of_record record)
       | EnqueueExisting record => (200, of_record record)
       end.

Definition authenticate_path (state : AppState) (headers : HeaderMap) (key : string) : A Principal :=
  M_reject_if (negb (valid_token key 128)) (Rejected InvalidRequest);;
  lift Unauthorized (authenticate (auth state) headers).

Definition inspect (state : AppState) (key : string) (headers : HeaderMap) : A (PlacementResponse Value) :=
  principal ← authenticate_path state headers key;
  found ← api_store (get_by_idempotency (principal_tenant principal) (principal_subject principal) key);
  record ← api_lift (ok_or NotFound found);
  mret (of_record record).

Definition cancel (state : AppState) (key : string) (headers : HeaderMap) : A (PlacementResponse Value) :=
  principal ← authenticate_path state headers key;
  now ← api_now;
  found ← api_store (Placement.cancel (principal_tenant principal) (principal_subject principal) key now);
  record ← api_lift (ok_or NotFound found);
  mret (of_record record).

(** *** Event streams *)

(** [{"error":"text"}]. *)
Definition quoted (s : string) : string := String (ascii_of_N 34) (s +:+ String (ascii_of_N 34) EmptyString).
Definition error_json (text : string) : string := ("{" +:+ quoted "error" +:+ ":" +:+ quoted text +:+ "}")%string.

Inductive Event : Type := PlacementEvent (data : string) | ErrorEvent (data : string).

Record PlacementStream : Type := MkStream {
  stream_tenant : TenantId;
  stream_subject : SubjectId;
  stream_key : string;
  initial : option (PlacementRecord Value);
  last_event : option string;
  terminal_sent : bool
}.

(** [try_acquire_owned] on the semaphore of the streams. *)
Definition take_permit : A () :=
  λ w, if MAXIMUM_RESULT_STREAMS <=? streams w then (w, Err (Rejected Exhausted)) else (set_streams (streams w + 1) w, Ok tt).
(** The permit is released when the stream is dropped, and when the request fails after it was taken. *)
Definition keep_permit {B} (c : A B) : A B :=
  λ w, match c w with
       | (w', Ok b) => (w', Ok b)
       | (w', Err e) => (set_streams (streams w' - 1) w', Err e)
       end.
Definition stream_placement (state : AppState) (key : string) (headers : HeaderMap) : A PlacementStream :=
  principal ← authenticate_path state headers key;
  take_permit;;
  keep_permit (
    found ← api_store (get_by_idempotency (principal_tenant principal) (principal_subject principal) key);
    record ← api_lift (ok_or NotFound found);
    mret (MkStream (principal_tenant principal) (principal_subject principal) key (Some record) None false)).
Definition drop_stream (s : PlacementStream) : A () := M_modify (λ w, set_streams (streams w - 1) w).

Definition is_terminal (s : PlacementState) : bool :=
  match s with Completed | RecoveryFailed | Cancelled | Expired => true | Queued | Assigned | Serving | Recovering => false end.

(** One round of the loop of [next_placement_event], on the record it polled: the next event, if there is one, and the
    stream afterwards. *)
Definition placement_event (s : PlacementStream) (polled : result PlacementStoreError (option (PlacementRecord Value))) :
    option Event * PlacementStream :=
  let ended := MkStream (stream_tenant s) (stream_subject s) (stream_key s) None (last_event s) true in
  match polled with
  | Ok (Some record) =>
      match placement_json (of_record record) with
      | Err _ => (Some (ErrorEvent (error_json "unavailable")), ended)
      | Ok encoded =>
          if bool_decide (last_event s = Some encoded)
          then (None, MkStream (stream_tenant s) (stream_subject s) (stream_key s) None (last_event s) (terminal_sent s))
          else (Some (PlacementEvent encoded),
                MkStream (stream_tenant s) (stream_subject s) (stream_key s) None (Some encoded)
                  (is_terminal (record_state record)))
      end
  | Ok None => (Some (ErrorEvent (error_json "not_found")), ended)
  | Err _ => (Some (ErrorEvent (error_json "unavailable")), ended)
  end.

(** A round: the initial record, or what the store says after the poll interval. *)
Definition next_placement_event (s : PlacementStream) : A (option (option Event * PlacementStream)) :=
  if terminal_sent s then mret None
  else
    polled ← match initial s with
             | Some record => mret (Ok (Some record))
             | None => call (get_by_idempotency (stream_tenant s) (stream_subject s) (stream_key s))
             end;
    mret (Some (placement_event s polled)).

(** ** Ingress *)

(** A request to a route of a placement; the path and query are those of its URI, when it has them. *)
Record IngressRequest : Type := MkIngress {
  ingress_method : string;
  path_and_query : option string;
  ingress_headers : HeaderMap;
  ingress_body : list ascii
}.

Definition route_request_id (request_id : string) (now sequence : Z) : string :=
  ("ingress-" +:+ string_of_list_ascii (take 48 (bytes (hex_encode (sha256 (bytes request_id ++ to_be_bytes now ++ to_be_bytes sequence))))))%string.

(** [fetch_add(1)], which wraps. *)
Definition next_sequence : A Z :=
  λ w, (MkWorld (net w) (db w) (others w) (sent w) (streams w) ((route_sequence w + 1) mod 2 ^ 64), Ok (route_sequence w)).

(** The assignment under which a route is used: a request of its own, that may only inspect the sandbox. *)
Definition route_assignment (a : Assignment) (now sequence : Z) : Assignment :=
  MkAssignment (route_request_id (assignment_request_id a) now sequence) (assignment_idempotency_key a) (assignment_identity a)
    (assignment_subject a) (assignment_worker a) (assignment_epoch a) (assignment_expires a) (assignment_broker a)
    (assignment_ceilings a) (OpInspect (as_str (Lease.pi_sandbox_id (assignment_identity a)))).

Definition route_prefix (key service : string) (port : Z) : string :=
  ("/v1/placements/" +:+ key +:+ "/ingress/" +:+ service +:+ "/" +:+ to_string port)%string.

(** What the sandbox is asked for: the part of the path after the route. *)
Definition route_target (prefix : string) (path_and_query : option string) : result ApiError string :=
  path ← ok_or InvalidRequest path_and_query;
  suffix ← ok_or InvalidRequest (strip_prefix prefix path);
  mret (if bool_decide (suffix = EmptyString) then "/"
        else if starts_with "?" suffix then "/" +:+ suffix else suffix)%string.

(** The lines that the gateway writes itself, before and after those it forwards. *)
Definition route_lines (address : SocketAddr) (method target : string) (headers : HeaderMap) (service : string) (port : Z)
    (work_order : string) : list string :=
  let original_host := default "sandbox"%string (v ← header_get "host" headers; header_text v) in
  ["POST /v1/ingress HTTP/1.1"; "Host: " +:+ address_text address;
   "X-Runtrue-Work-Order: " +:+ work_order;
   "X-Runtrue-Ingress-Service: " +:+ service;
   "X-Runtrue-Ingress-Port: " +:+ to_string port;
   "X-Runtrue-Ingress-Method: " +:+ method;
   "X-Runtrue-Ingress-Target: " +:+ base64 (bytes target);
   "X-Runtrue-Ingress-Host: " +:+ base64 (bytes original_host)]%string.
Definition last_lines (body : list ascii) : list string :=
  ["Content-Length: " +:+ to_string (length_z body); "Connection: close"]%string.

Definition ingress_head (address : SocketAddr) (method target : string) (headers : HeaderMap) (body : list ascii)
    (service : string) (port : Z) (work_order : string) : result ApiError string :=
  encoded ← append_forward_headers InvalidRequest
    (as_lines (route_lines address method target headers service port work_order)) headers;
  let encoded := (encoded +:+ as_lines (last_lines body) +:+ crlf)%string in
  reject_if (MAXIMUM_HEADER_BYTES <? len encoded) TooLarge;;
  mret encoded.

(** [forward_exchange] and [exchange]; [order] is what the work order on the wire encodes. *)
Definition exchange (address : SocketAddr) (order : WorkloadRequest) (method target : string) (headers : HeaderMap)
    (body : list ascii) (service : string) (port : Z) (work_order : string) : A Response :=
  M_reject_if (MAXIMUM_INGRESS_BODY_BYTES <? length_z body) (Rejected TooLarge);;
  encoded ← api_lift (ingress_head address method target headers body service port work_order);
  answer ← transmit address order (bytes encoded ++ body) (MAXIMUM_HEADER_BYTES + MAXIMUM_INGRESS_RESPONSE_BYTES + 1);
  answer ← lift Unavailable answer;
  api_lift (parse_ingress_response Unavailable MAXIMUM_HEADER_BYTES MAXIMUM_INGRESS_RESPONSE_BYTES answer).

Definition forward (state : AppState) (key service : string) (port : Z) (request : IngressRequest) : A Response :=
  M_reject_if (negb (valid_token key 128) || negb (valid_token service 63) || (port =? 0)) (Rejected InvalidRequest);;
  principal ← lift Unauthorized (authenticate (auth state) (ingress_headers request));
  now ← api_now;
  found ← api_store (active_assignment_by_idempotency (principal_tenant principal) (principal_subject principal) key now);
  a ← api_lift (ok_or Unavailable found);
  lift Forbidden (authorize_workspace principal (Lease.pi_workspace_id (assignment_identity a)));;
  signer ← api_lift (ok_or Unavailable (route_signer state));
  sequence ← next_sequence;
  order ← lift Unavailable (sign signer (route_assignment a now sequence) now);
  encoded ← lift Unavailable (request_json order);
  let work_order := base64 encoded in
  M_reject_if (MAXIMUM_HEADER_BYTES <? len work_order) (Rejected Unavailable);;
  target ← api_lift (route_target (route_prefix key service port) (path_and_query request));
  exchange (assignment_broker a) order (ingress_method request) target (ingress_headers request) (ingress_body request)
    service port work_order.
End code.
#[global] Arguments World N Value : clear implicits.
#[global] Arguments PlacementStream Value : clear implicits.
End Gateway.
