(* ===== verification/GatewayProofs.v ===== *)
(** * What the gateway sends and answers

    The invariant of the gateway: through any calls of the API and rounds of
    the dispatcher, interleaved with any calls of other clients of the store,
    the store keeps its invariant and every work order that was sent belongs to
    an assignment that the store held. *)
From S2P Require Import Prelude Identity Lease FairQueue GuestProfile Volume Network Topology Snapshot WorkOrder Autoscale Protocol.
From S2P Require Import Placement PlacementProofs PlacementInvariant Verifier Signer Http GatewayAuth Gateway.
Import Topology.Topology WorkOrder.WorkOrder Autoscale.Autoscale Protocol.Protocol Placement.Placement Verifier.Verifier.
Import Signer.Signer Http.Http GatewayAuth.GatewayAuth Gateway.Gateway.

(** ** Assignments that the store holds *)

Section holding.
Context {Value : Type} `{!StoreCodec Value}.
Context (config : PlacementStoreConfig).

(** At [db], the row [r] is leased under the assignment. *)
Record holds_row (db : Db) (a : Assignment) (r : RequestRow) : Prop := HoldsRow {
  hr_row : requests db !! assignment_request_id a = Some r;
  hr_identity : identity_texts (assignment_identity a) = row_sandbox r;
  hr_subject : as_str (assignment_subject a) = s_subject (submitted r);
  hr_active : is_active (state r) = true;
  hr_worker : row_worker r = Some (as_str (assignment_worker a));
  hr_epoch : row_epoch r = Some (epoch_get (assignment_epoch a));
  hr_expires : lease_expires r = Some (assignment_expires a);
  hr_contact : ∃ w, workers db !! as_str (assignment_worker a) = Some w ∧ registered_contact w a
}.

Lemma granted_holds worker now db db' a :
  ids_ok db → assign_next config worker now db = (db', Ok (Some a)) →
  ∃ r, holds_row db' a r ∧ state r = Assigned ∧ operation_parse (row_operation r) = Ok (assignment_operation a).
Proof.
  intros Hid Hrun. destruct (assign_next_Ok _ _ _ _ _ _ Hid Hrun) as (w & r & l & [Hw _ _ _ Hg Hc]).
  destruct Hg as [<- Hreq Hi Hs _ Hx _ _ Ho Hrs (w' & Hw' & _ & Hws) _ _]. simpl in Hw'. simplify_eq.
  eexists. split.
  - split; [rewrite Hreq, Hrs; apply lookup_insert_eq|exact Hi|exact Hs|done|done|done|by rewrite Hx|].
    eexists. split; [rewrite Hws; apply lookup_insert_eq|done].
  - split; [done|exact Ho].
Qed.

(** A row with the texts of its worker, read back as an assignment. *)
Lemma contact_holds db r address ceilings (record : PlacementRecord Value) contact o a :
  requests db !! row_id r = Some r → is_active (state r) = true → describes r record →
  with_contact db r = Some (r, (address, ceilings)) → worker_contact address ceilings = Ok contact →
  assignment_from_record record contact.1 contact.2 o = Ok a → holds_row db a r.
Proof.
  intros Hr Ha [Hd1 _ Hd3 Hd4 _ Hd6 Hd7 Hd8 _ _] Hw Hc Hrun. unfold assignment_from_record in Hrun.
  apply bind_Ok_inv in Hrun as (worker & Hwk%ok_or_Ok & Hrun). apply bind_Ok_inv in Hrun as (epoch & Hep%ok_or_Ok & Hrun).
  apply bind_Ok_inv in Hrun as (expires & Hex%ok_or_Ok & [= <-]). rewrite Hwk in Hd6. rewrite Hep in Hd7.
  unfold with_contact in Hw. apply bind_Some in Hw as (id & Hid & Hw). apply bind_Some in Hw as (w & Hww & Hw).
  apply bind_Some in Hw as (x & Hx & Hw). apply bind_Some in Hw as (y & Hy & Hw). case_match; [|done]. simplify_eq.
  simpl in Hd6, Hd7. rewrite Hid in Hd6. injection Hd6 as Hd6.
  split; simpl; [by rewrite Hd1|done|done|done|by rewrite Hid, Hd6|done|by rewrite <-Hd8|].
  exists w. split; [by rewrite Hd6|]. exists address, ceilings. by destruct contact.
Qed.

Definition read_from (db : Db) (row : RequestRow * (string * string)) : Prop :=
  requests db !! row_id row.1 = Some row.1 ∧ with_contact db row.1 = Some row.

Lemma contact_row db r row : with_contact db r = Some row → row.1 = r.
Proof.
  unfold with_contact. intros Hc. repeat (apply bind_Some in Hc as (? & _ & Hc)). by case_match; simplify_eq.
Qed.

Lemma read_from_rows db p row : ids_ok db → row ∈ omap (with_contact db) (rows_where p db) → read_from db row ∧ p row.1 = true.
Proof.
  intros Hid (r & [Hr Hp]%elem_of_rows_where & Hc)%list_elem_of_omap; [|done].
  pose proof (contact_row _ _ _ Hc) as <-. by split.
Qed.

Definition due_row (db : Db) (c : CheckpointAssignment) : Prop :=
  ∃ r, holds_row db (checkpoint_assignment c) r ∧ state r = Serving.

Lemma claim_checkpoint_holds now_unix_ms now row db db1 db2 c :
  read_from db row → state row.1 = Serving → claim_checkpoint config now_unix_ms now row db1 = (db2, Ok c) → due_row db c.
Proof.
  destruct row as [r [address ceilings]]. intros [Hr Hw] Hst Hrun. unfold claim_checkpoint in Hrun.
  apply M_bind_Ok_inv in Hrun as (record & db0 & [-> Hde]%read_record_Ok & Hrun).
  do 6 (apply M_bind_Ok_inv in Hrun as (? & ? & _ & Hrun)).
  apply M_bind_Ok_inv in Hrun as (contact & db0' & [= <- Hc%map_err_Ok] & Hrun).
  apply M_bind_Ok_inv in Hrun as (operation & db0' & _ & Hrun).
  apply M_bind_Ok_inv in Hrun as (a & db3 & [= <- Ha%map_err_Ok] & [= _ <-]).
  exists r. split; [|done]. eapply contact_holds; [done| |done|done|done|exact Ha]. simpl in Hst. by rewrite Hst.
Qed.

Lemma claim_all_holds now_unix_ms now rows db : ∀ db1 db2 l,
  Forall (λ row, read_from db row ∧ state row.1 = Serving) rows →
  claim_all config now_unix_ms now rows db1 = (db2, Ok l) → Forall (due_row db) l.
Proof.
  induction rows as [|row rows IH]; intros db1 db2 l Hrows; cbn [claim_all]; [by intros [= _ <-]|].
  intros Hrun. apply M_bind_Ok_inv in Hrun as (c & db3 & Hc & Hrun).
  apply M_bind_Ok_inv in Hrun as (rest & db4 & Hrest & [= _ <-]). apply Forall_cons in Hrows as [[Hrow Hst] Hrows].
  constructor; [by eapply claim_checkpoint_holds|by eapply IH].
Qed.

Lemma claimed_holds now limit db db' l :
  ids_ok db → claim_due_checkpoints config now limit db = (db', Ok l) → Forall (due_row db) l.
Proof.
  intros Hid Hrun. unfold claim_due_checkpoints in Hrun.
  apply M_bind_Ok_inv in Hrun as ([] & db0 & [= <- _] & Hrun).
  apply M_bind_Ok_inv in Hrun as (n & db0 & (-> & -> & _)%to_i64_Ok & Hrun). apply transaction_Ok in Hrun.
  apply M_bind_Ok_inv in Hrun as (rows & db0 & [= <- <-] & Hrun). eapply claim_all_holds; [|exact Hrun].
  apply Forall_forall. intros row Hrow.
  apply (sublist_subseteq _ _ (sublist_take _ _)) in Hrow. unfold order_by in Hrow. rewrite merge_sort_Permutation in Hrow.
  apply read_from_rows in Hrow as [Hrow Hdue]; [|done]. split; [done|].
  unfold due_at in Hdue. apply andb_true_iff in Hdue as [[Hdue _]%andb_true_iff _]. by apply bool_decide_eq_true in Hdue.
Qed.

Lemma at_most_one_Ok {A} (rows : list A) db db' a : at_most_one rows db = (db', Ok (Some a)) → rows = [a].
Proof. destruct rows as [|x [|]]; simpl; by intros [=]; subst. Qed.

Lemma active_holds tenant subject key now db db' a :
  ids_ok db → active_assignment_by_idempotency tenant subject key now db = (db', Ok (Some a)) →
  db' = db ∧ ∃ r, holds_row db a r ∧ owned_by tenant subject key r = true.
Proof.
  intros Hid Hrun. unfold active_assignment_by_idempotency in Hrun.
  apply M_bind_Ok_inv in Hrun as (n & db0 & (-> & -> & _)%to_i64_Ok & Hrun).
  apply M_bind_Ok_inv in Hrun as (rows & db0 & [= <- <-] & Hrun).
  apply M_bind_Ok_inv in Hrun as (found & db0 & Hone & Hrun).
  destruct found as [[r [address ceilings]]|]; [|done].
  pose proof (pure_Ok _ _ _ _ (at_most_one_pure _) Hone) as ->. apply at_most_one_Ok in Hone.
  apply M_bind_Ok_inv in Hrun as (record & db0 & [-> Hde]%read_record_Ok & Hrun).
  apply M_bind_Ok_inv in Hrun as (contact & db0' & [= <- Hc%map_err_Ok] & Hrun).
  apply M_bind_Ok_inv in Hrun as (operation & db0' & [= <- _] & Hrun).
  apply M_bind_Ok_inv in Hrun as (a' & db3 & [= <- Ha%map_err_Ok] & [= <- ->]). split; [done|].
  assert ((r, (address, ceilings)) ∈ omap (with_contact db)
    (rows_where (λ r, owned_by tenant subject key r && is_active (state r) && lease_after now r) db)) as Hin by (rewrite Hone; set_solver).
  apply read_from_rows in Hin as [[Hr Hw] Hp]; [|done]. simpl in *.
  apply andb_true_iff in Hp as [[Hown Hact]%andb_true_iff _].
  exists r. split; [|done]. by eapply contact_holds.
Qed.
End holding.

(** ** Orders that an assignment backs *)

Section orders.
Context {N Value : Type} `{Transport N, !StoreCodec Value, !GatewayCodec Value}.
Context `{SignatureCodec, SigningCodec, OperationCodec, HttpCrate, !StoreCodecLaws Value}.
Context (config : PlacementStoreConfig) (Hlife : 0 ≤ lease_lifetime config).

(** What the dispatcher may ask for the request of a row: the stored operation when it was just assigned, or a live
    snapshot of a sandbox that serves. *)
Inductive dispatched (r : RequestRow) : Operation → Prop :=
| for_work o : state r = Assigned → operation_parse (row_operation r) = Ok o → dispatched r o
| for_checkpoint snapshot : state r = Serving → dispatched r (OpSnapshot (row_sandbox r).2 snapshot Snapshot.Live).

(** What a principal may ask under the key of a request: to look at the sandbox, when the request is theirs. *)
Definition routed (p : Principal) (key : string) (r : RequestRow) (o : Operation) : Prop :=
  owned_by (principal_tenant p) (principal_subject p) key r = true ∧ o = OpInspect (row_sandbox r).2 ∧
  ∃ workspace, as_str workspace = s_workspace (submitted r) ∧ authorize_workspace p workspace = Ok tt.

(** Whether an order for a row and an operation may be signed by a signer. *)
Context (issuer : WorkOrderSigner → RequestRow → Operation → Prop).

(** The order for the broker at [address] is for the row [r] of [db] and its worker, and lasts no longer than its lease. *)
Record order_for (db : Db) (r : RequestRow) (address : SocketAddr) (request : WorkloadRequest) : Prop := OrderFor {
  of_row : requests db !! row_id r = Some r ∧ is_active (state r) = true;
  of_tenant : (as_str (tenant_id (claims (wr_work_order request))),
               as_str (workspace_id (claims (wr_work_order request)))) = (row_sandbox r).1;
  of_sandbox : as_str <$> WorkOrder.sandbox_id (claims (wr_work_order request)) = Some (row_sandbox r).2;
  of_subject : as_str (WorkOrder.subject_id (claims (wr_work_order request))) = s_subject (submitted r);
  of_epoch : row_epoch r = Some (epoch_get (WorkOrder.assignment_epoch (claims (wr_work_order request))));
  of_lease : ∃ x, lease_expires r = Some x ∧ expires_unix_millis (claims (wr_work_order request)) ≤ x;
  of_worker : ∃ id w text, row_worker r = Some id ∧ workers db !! id = Some w ∧ worker_address w = Some text ∧
    address_parse text = Some address;
  of_binding : operation_digest_of (wr_operation request) = Ok (operation_digest (claims (wr_work_order request)));
  of_signature : ∃ signer payload, issuer signer r (wr_operation request) ∧
    encode_claims (claims (wr_work_order request)) = Ok payload ∧
    signature (wr_work_order request) = hex_encode (mac_sign (signer_key signer) payload)
}.

(** The order belongs to a row as it was at some earlier time. *)
Definition backed (db : Db) (order : SocketAddr * WorkloadRequest) : Prop :=
  ∃ past r, later past db ∧ store_ok past ∧ order_for past r order.1 order.2.

(** *** Facts that stay true as the tables move on *)

Class Stable (K : Db → Prop) : Prop := stable db db' : later db db' → K db → K db'.

#[global] Instance stable_true : Stable (λ _, True).
Proof. by intros ???. Qed.
#[global] Instance stable_pure (φ : Prop) : Stable (λ _, φ).
Proof. by intros ???. Qed.
#[global] Instance stable_and K K' : Stable K → Stable K' → Stable (λ db, K db ∧ K' db).
Proof. intros HK HK' db db' Hl [? ?]. split; [by eapply HK|by eapply HK']. Qed.
#[global] Instance stable_backed order : Stable (λ db, backed db order).
Proof. intros db db' Hl (past & r & Hp & Hok & Ho). exists past, r. split_and!; [by trans db|done|done]. Qed.
#[global] Instance stable_Forall {B} (K : B → Db → Prop) l : (∀ b, Stable (K b)) → Stable (λ db, Forall (λ b, K b db) l).
Proof. intros HK db db' Hl Hall. eapply Forall_impl; [exact Hall|]. intros b. by apply HK. Qed.

(** The orders after the first [base] ones are the ones sent since some start. *)
Context (base : nat).

Record Inv (K : Db → Prop) (w : World N Value) : Prop := MkInv {
  inv_store : store_ok (db w);
  inv_others : Forall (Forall timely) (others w);
  inv_sent : Forall (backed (db w)) (drop base (sent w));
  inv_fact : K (db w)
}.

Lemma Inv_impl (K K' : Db → Prop) w : (∀ db, store_ok db → K db → K' db) → Inv K w → Inv K' w.
Proof. intros HK [? ? ? ?]. split; auto. Qed.

(** Code that keeps the invariant and the fact [K] and, when it succeeds, establishes [Q]. *)
Definition guards {E A} (K : Db → Prop) (c : M (World N Value) E A) (Q : A → Db → Prop) : Prop :=
  triple (Inv K) c (λ a, Inv (Q a)) (λ _, Inv (λ _, True)).

Lemma guards_bind {E A B} K (c : M (World N Value) E A) (f : A → M (World N Value) E B) Q R :
  guards K c Q → (∀ a, guards (Q a) (f a) R) → guards K (c ≫= f) R.
Proof. apply triple_bind. Qed.

Lemma guards_impl {E A} (K K' : Db → Prop) (c : M (World N Value) E A) (Q Q' : A → Db → Prop) :
  guards K' c Q' → (∀ db, store_ok db → K db → K' db) → (∀ a db, store_ok db → Q' a db → Q a db) → guards K c Q.
Proof.
  intros Hc HK HQ w Hw. specialize (Hc w (Inv_impl _ _ _ HK Hw)). destruct (c w) as [w' [a|e]]; [|done].
  eapply Inv_impl; [|exact Hc]. auto.
Qed.

Lemma guards_pure {E A} K (φ : Prop) (c : M (World N Value) E A) Q :
  (φ → guards K c Q) → guards (λ db, K db ∧ φ) c Q.
Proof. intros Hc w [? ? ? [HK Hφ]]. by apply (Hc Hφ). Qed.

Lemma guards_ret {E A} K (a : A) : guards (E := E) K (mret a) (λ _, K).
Proof. by intros w. Qed.
Lemma guards_fail {E A} K (e : E) Q : guards (A := A) K (M_fail e) Q.
Proof. intros w. by apply Inv_impl. Qed.
Lemma guards_lift {E A} K (r : result E A) : guards K (M_lift r) (λ a db, K db ∧ r = Ok a).
Proof. intros w Hw. unfold M_lift. destruct r; (eapply Inv_impl; [|exact Hw]); auto. Qed.
Lemma guards_reject {E} K (b : bool) (e : E) : guards K (M_reject_if b e) (λ _ db, K db ∧ b = false).
Proof. intros w Hw. unfold M_reject_if. destruct b; (eapply Inv_impl; [|exact Hw]); auto. Qed.

(** *** Calls of the store *)

(** A call that keeps the invariant of the store. *)
Definition sound {A} (c : Tx A) : Prop := ∀ db, store_ok db → store_ok (c db).1 ∧ later db (c db).1.

Lemma store_ids db : store_ok db → ids_ok db.
Proof. apply ok_ids. Qed.

Lemma run_ops_sound ops db : Forall timely ops → store_ok db → store_ok (run_ops config ops db) ∧ later db (run_ops config ops db).
Proof.
  intros Hops Hok. split; [by apply history_store_ok|]. destruct (run_ops_moves config ops db (store_ids _ Hok)) as [? _]. done.
Qed.

Lemma sound_op {A} (c : Tx A) (o : StoreOp) : (∀ db, (c db).1 = run_op config db o) → timely o → sound c.
Proof. intros Hc Ho db Hok. rewrite Hc. apply (run_ops_sound [o]); [by constructor|done]. Qed.

Lemma sound_pure {A} (c : Tx A) : pure c → sound c.
Proof. intros Hc db Hok. rewrite Hc. by split. Qed.

(** The call answered [r] at some earlier time, when [K] was true. *)
Definition answered {A} (K : Db → Prop) (c : Tx A) (r : result PlacementStoreError A) (db : Db) : Prop :=
  ∃ db1 db2, K db1 ∧ store_ok db1 ∧ store_ok db2 ∧ later db1 db2 ∧ later db2 db ∧
    match r with Ok a => c db1 = (db2, Ok a) | Err e => c db1 = (db2, Err (Rejected e)) end.

#[global] Instance stable_answered {A} K (c : Tx A) r : Stable (answered K c r).
Proof.
  intros db db' Hl (db1 & db2 & ? & ? & ? & ? & ? & ?). exists db1, db2. split_and!; try done. by trans db.
Qed.

Lemma guards_call {E A} K `{!Stable K} (c : Tx A) :
  sound c → guards (E := failure E) K (call config c) (λ r db, K db ∧ answered K c r db).
Proof.
  intros Hc w [Hok Hoth Hsent HK]. unfold call.
  assert (Forall timely (default [] (head (others w))) ∧ Forall (Forall timely) (tail (others w))) as [Hhead Htail].
  { destruct (others w); [by repeat constructor|]. by apply Forall_cons in Hoth. }
  destruct (run_ops_sound _ _ Hhead Hok) as [Hok1 Hl1]. set (db1 := run_ops _ _ _) in *.
  destruct (Hc _ Hok1) as [Hok2 Hl2]. destruct (c db1) as [db2 r] eqn:Hrun. simpl in Hok2, Hl2.
  assert (∀ K', K' db2 → Inv K' (MkWorld (net w) db2 (tail (others w)) (sent w) (streams w) (route_sequence w))) as Hinv.
  { intros K' HK'. split; simpl; try done. eapply Forall_impl; [exact Hsent|]. intros o. eapply stable_backed. by trans db1. }
  assert (K db1) as HK1 by by eapply (stable (K := K)).
  assert (K db2) as HK2 by by eapply (stable (K := K)).
  destruct r as [a|[e|m]]; apply Hinv; try done; (split; [done|]); exists db1, db2; done.
Qed.

Lemma guards_store {E A} K `{!Stable K} f (c : Tx A) :
  sound c → guards (E := failure E) K (store config f c) (λ a db, K db ∧ answered K c (Ok a) db).
Proof.
  intros Hc. eapply guards_bind; [by apply guards_call|]. intros r. simpl.
  eapply guards_impl; [apply guards_lift|intros ? _ HK; exact HK|]. intros a db _ [[HK Ha] Hr%map_err_Ok]. subst. by split.
Qed.

Lemma guards_clock {E} K (early late : E) : guards K (clock early late) (λ now db, K db ∧ 0 ≤ now).
Proof.
  intros w [? ? ? ?]. unfold clock. destruct (system_clock (net w)) as [n now].
  unfold reject_if. destruct (Z.ltb_spec now 0); [by split|]. simpl. destruct (Z.ltb_spec u64_max now); by split.
Qed.

Lemma guards_transmit {E} K address request message limit :
  guards (E := failure E) (λ db, K db ∧ backed db (address, request)) (transmit address request message limit) (λ _, K).
Proof.
  intros w [? ? Hs [HK Hb]]. unfold transmit. destruct (tcp_exchange _ _ _ _) as [n r]. split; simpl; try done.
  rewrite drop_app. apply Forall_app. split; [done|]. apply Forall_drop. by constructor.
Qed.

Lemma guards_dispatch {E} K address request :
  guards (E := failure E) (λ db, K db ∧ backed db (address, request)) (dispatch address request) (λ _, K).
Proof.
  unfold dispatch. destruct (request_json request) as [body|].
  - case_match.
    + eapply guards_impl; [apply guards_ret|by intros ? ? [? _]|done].
    + eapply guards_bind; [apply guards_transmit|]. intros r. apply guards_ret.
  - eapply guards_impl; [apply guards_ret|by intros ? ? [? _]|done].
Qed.

(** *** Signed requests *)

(** The assignment was held by a row for which the signer may order [o]. *)
Definition backing (self : WorkOrderSigner) (a : Assignment) (o : Operation) (db : Db) : Prop :=
  ∃ past r, later past db ∧ store_ok past ∧ holds_row past a r ∧ issuer self r o.

#[global] Instance stable_backing self a o : Stable (backing self a o).
Proof. intros db db' Hl (past & r & ? & ? & ? & ?). exists past, r. split_and!; try done. by trans db. Qed.

(** An assignment with the same holder. *)
Definition same_holder (a a' : Assignment) : Prop :=
  assignment_identity a' = assignment_identity a ∧ assignment_subject a' = assignment_subject a ∧
  assignment_epoch a' = assignment_epoch a ∧ assignment_expires a' = assignment_expires a.

Lemma signed_backed self a a' o now request db :
  backing self a o db → same_holder a a' → sign_operation self a' o now = Ok request →
  backed db (assignment_broker a, request).
Proof.
  intros (past & r & Hl & Hok & Hh & Hp) (Hid & Hsub & Hep & Hex) Hs%sign_operation_Ok. exists past, r. split_and!; [done|done|].
  destruct Hh as [Hr Hi Hsu Hact Hw He Hx (w & Hww & address & ceilings & Haddr & _ & Hc)].
  destruct Hs as [_ _ Hop Hcl (_ & _ & Hd) (payload & Hpay & Hsig) _ _]. cbv zeta in Hcl.
  destruct Hcl as (_ & _ & Hsc & Hs2 & He2 & Hsb & _ & Hx2 & _ & _). rewrite Hid in *. rewrite Hsub in *. rewrite Hep in *.
  pose proof (store_ids _ Hok _ _ Hr) as Hrid. injection Hsc as Ht Hwo. injection Hi as Hi1 Hi2 Hi3.
  unfold worker_contact in Hc. apply bind_Ok_inv in Hc as (broker & Hb%ok_or_Ok & Hc).
  apply bind_Ok_inv in Hc as (limits & _ & Hc). apply bind_Ok_inv in Hc as ([] & _ & [= Hbr _]). subst broker.
  split; simpl; rewrite ?Hop; try done.
  - by rewrite Hrid.
  - by rewrite Ht, Hwo, Hi1, Hi2.
  - rewrite Hsb. simpl. by rewrite Hi3.
  - by rewrite Hs2.
  - by rewrite He2.
  - exists (assignment_expires a). split; [done|]. rewrite Hx2. unfold order_expires. rewrite Hex. lia.
  - by exists (as_str (assignment_worker a)), w, address.
  - exists self, payload. done.
Qed.

(** *** The dispatcher *)

Lemma guards_ret_of {E A} (K : Db → Prop) (Q : A → Db → Prop) (a : A) :
  (∀ db, K db → Q a db) → guards (E := E) K (mret a) Q.
Proof. intros HK w. apply Inv_impl. auto. Qed.

Lemma guards_now K : guards K dispatcher_now (λ now db, K db ∧ 0 ≤ now).
Proof. apply guards_clock. Qed.

Section rounds.
Context (self : Dispatcher) (Hself : ∀ r o, dispatched r o → issuer (dispatcher_signer self) r o).

Lemma take_checkpoint_guards K `{!Stable K} c :
  guards (λ db, K db ∧ backing (dispatcher_signer self) (checkpoint_assignment c) (checkpoint_operation c) db) (take_checkpoint config self c) (λ _, K).
Proof.
  unfold take_checkpoint. cbv zeta. eapply guards_bind; [apply guards_now|intros now; cbv beta].
  eapply guards_bind; [apply guards_lift|intros request; cbv beta].
  eapply guards_bind; [eapply guards_impl; [apply (guards_dispatch K)| |intros ? ? _ HK; exact HK]|intros outcome].
  { intros db _ [[[HK Hb] _] Hs%map_err_Ok]. split; [done|]. by eapply (signed_backed _ (checkpoint_assignment c)). }
  destruct outcome as [response|]; [|by apply guards_ret_of]. destruct (rs_ok response); [|by apply guards_ret_of].
  eapply guards_bind; [apply guards_now|intros now'; cbv beta]. apply guards_pure. intros Hnow.
  eapply guards_bind; [apply guards_call; [done|]|intros published; cbv beta].
  { by eapply (sound_op _ (DoPublishCheckpoint c now')). }
  destruct published as [[]|[]]; try apply guards_fail; apply guards_ret_of; by intros ? [? _].
Qed.

Lemma serve_worker_guards K `{!Stable K} worker : guards K (serve_worker config self worker) (λ _, K).
Proof.
  unfold serve_worker. eapply guards_bind; [apply guards_now|intros now; cbv beta]. apply guards_pure. intros Hnow.
  eapply guards_bind; [apply guards_call; [done|]|intros granted; cbv beta].
  { by eapply (sound_op _ (DoAssign worker now)). }
  destruct granted as [[a|]|[]]; try apply guards_fail; try (apply guards_ret_of; by intros ? [? _]).
  eapply guards_bind; [apply guards_now|intros now'; cbv beta].
  eapply guards_bind; [apply guards_lift|intros request; cbv beta].
  eapply guards_bind; [eapply guards_impl; [apply (guards_dispatch K)| |intros ? ? _ HK; exact HK]|intros outcome].
  { intros db _ [[[HK (db1 & db2 & _ & Hok1 & Hok2 & _ & Hl & Hrun)] _] Hs%map_err_Ok]. split; [done|].
    destruct (granted_holds _ _ _ _ _ _ (store_ids _ Hok1) Hrun) as (r & Hh & Hst & Hop).
    eapply (signed_backed _ a); [|by split_and!|exact Hs]. exists db2, r. split_and!; try done. by apply Hself, for_work. }
  destruct outcome as [response|]; [|by apply guards_ret_of].
  eapply guards_bind; [apply guards_now|intros now2; cbv beta]. apply guards_pure. intros Hnow2.
  eapply guards_bind; [apply guards_call; [done|]|intros completed; cbv beta].
  { by eapply (sound_op _ (DoCompleteResponse a response now2)). }
  destruct completed as [[]|[]]; try apply guards_fail; apply guards_ret_of; by intros ? [? _].
Qed.

Lemma each_guards {B} K (P : B → Db → Prop) `{!Stable K, !∀ b, Stable (P b)} (f : B → M (World N Value) (failure string) ()) :
  (∀ K' b, Stable K' → guards (λ db, K' db ∧ P b db) (f b) (λ _, K')) →
  ∀ l, guards (λ db, K db ∧ Forall (λ b, P b db) l) (each f l) (λ _, K).
Proof.
  intros Hf l. induction l as [|b l IH]; cbn [each]; [apply guards_ret_of; by intros ? [? _]|].
  apply (guards_bind _ _ _ (λ _ db, K db ∧ Forall (λ b, P b db) l)); [|by intros []].
  eapply guards_impl; [apply (Hf (λ db, K db ∧ Forall (λ b, P b db) l) b); apply _| |done].
  by intros db _ [HK [Hb Hl]%Forall_cons].
Qed.

Lemma clean_workers_pure now limit : pure (clean_workers config now limit).
Proof. unfold clean_workers. auto 10 with pure. Qed.

Lemma reconcile_once_guards : guards (λ _, True) (reconcile_once config self) (λ _ _, True).
Proof.
  unfold reconcile_once. eapply guards_bind; [apply guards_now|intros now; cbv beta]. apply guards_pure. intros Hnow.
  eapply guards_bind; [apply guards_store; [apply _|]|intros expired; cbv beta].
  { by eapply (sound_op _ (DoFence now)). }
  eapply guards_bind; [apply guards_store; [apply _|]|intros checkpoints; cbv beta].
  { by eapply (sound_op _ (DoClaim now (worker_scan_limit self))). }
  apply (guards_bind _ _ _ (λ _ _, True)).
  { eapply guards_impl; [apply (each_guards (λ _, True) (λ c, backing (dispatcher_signer self) (checkpoint_assignment c) (checkpoint_operation c)))| |].
    - intros K' c HK'. by apply take_checkpoint_guards.
    - intros db _ [_ (db1 & db2 & _ & Hok1 & Hok2 & Hl1 & Hl2 & Hrun)]. split; [done|].
      apply claimed_holds in Hrun; [|by apply store_ids]. eapply Forall_impl; [exact Hrun|]. intros c (r & Hh & Hst).
      exists db1, r. split_and!; [by trans db2|done|done|]. unfold checkpoint_operation.
      pose proof (hr_identity _ _ _ Hh) as Hi. injection Hi as _ _ Hi3. rewrite Hi3.
      change (s_sandbox (submitted r)) with (row_sandbox r).2. by apply Hself, for_checkpoint.
    - done. }
  intros []. eapply guards_bind; [apply guards_store; [apply _|]|intros workers; cbv beta].
  { apply sound_pure, clean_workers_pure. }
  eapply guards_impl; [apply (each_guards (λ _, True) (λ _ _, True))| |done].
  - intros K' b HK'. eapply guards_impl; [by apply serve_worker_guards|by intros ? _ [? _]|done].
  - intros db _ _. split; [done|]. by apply Forall_true.
Qed.
End rounds.

(** *** The API *)

(** Code that keeps the invariant. *)
Definition kept {E A} (c : M (World N Value) E A) : Prop := guards (λ _, True) c (λ _ _, True).

Lemma kept_bind {E A B} (c : M (World N Value) E A) (f : A → M (World N Value) E B) :
  kept c → (∀ a, kept (f a)) → kept (c ≫= f).
Proof. intros Hc Hf. eapply guards_bind; [exact Hc|exact Hf]. Qed.
Lemma kept_now_bind {A} (f : Z → M (World N Value) (failure ApiError) A) :
  (∀ now, 0 ≤ now → kept (f now)) → kept (api_now ≫= f).
Proof.
  intros Hf. eapply guards_bind; [apply guards_clock|intros now; cbv beta]. apply guards_pure. intros Hnow. by apply Hf.
Qed.
Lemma kept_ret {E A} (a : A) : kept (E := E) (mret a).
Proof. by apply guards_ret_of. Qed.
Lemma kept_lift {E A} (r : result E A) : kept (M_lift r).
Proof. eapply guards_impl; [apply guards_lift|done|done]. Qed.
Lemma kept_reject {E} (b : bool) (e : E) : kept (M_reject_if b e).
Proof. eapply guards_impl; [apply guards_reject|done|done]. Qed.
Lemma kept_op {A} (o : StoreOp) (c : Tx A) : (∀ db, (c db).1 = run_op config db o) → timely o → kept (api_store config c).
Proof. intros Hc Ho. eapply guards_impl; [apply (guards_store (λ _, True)); by eapply sound_op|done|done]. Qed.
Lemma kept_read {A} (c : Tx A) : pure c → kept (api_store config c).
Proof. intros Hc. eapply guards_impl; [apply (guards_store (λ _, True)); by apply sound_pure|done|done]. Qed.
Lemma kept_streams {E A} (c : M (World N Value) E A) : keeps (λ w w', ∃ n, w' = set_streams n w) c → kept c.
Proof.
  intros Hc w [? ? ? ?]. destruct (Hc w) as [n Hn]. destruct (c w) as [w' [a|e]]; simpl in Hn; subst w'; by split.
Qed.
Lemma kept_permit {A} (c : M (World N Value) (failure ApiError) A) : kept c → kept (keep_permit c).
Proof.
  intros Hc w Hw. specialize (Hc w Hw). unfold keep_permit. destruct (c w) as [w' [a|e]]; [done|].
  destruct Hc as [? ? ? ?]. by split.
Qed.

Create HintDb kept.
#[local] Hint Resolve kept_bind kept_now_bind kept_ret kept_lift kept_reject kept_permit : kept.
#[local] Hint Extern 1 (kept (lift _ _)) => apply kept_lift : kept.
#[local] Hint Extern 1 (kept (api_lift _)) => apply kept_lift : kept.

Ltac keeping :=
  repeat match goal with
  | |- kept (let _ := _ in _) => cbv zeta
  | |- kept (api_now ≫= _) => apply kept_now_bind; intros ? ?
  | |- kept (_ ≫= _) => apply kept_bind; [|intros ?]
  | |- kept (keep_permit _) => apply kept_permit
  | |- kept (match ?x with _ => _ end) => destruct x
  end; auto with kept.

Lemma get_by_idempotency_pure tenant subject key : pure (get_by_idempotency tenant subject key).
Proof. unfold get_by_idempotency. auto with pure. Qed.
Lemma active_assignment_pure tenant subject key now : pure (active_assignment_by_idempotency tenant subject key now).
Proof.
  unfold active_assignment_by_idempotency. repeat (apply pure_bind; [auto with pure|intros ?]).
  case_match; [|auto with pure]. repeat case_match. auto 10 with pure.
Qed.

Lemma register_worker_kept state headers request : kept (register_worker config state headers request).
Proof.
  unfold register_worker. keeping.
  match goal with |- kept (api_store _ (Placement.register_worker _ ?r ?now)) => by apply (kept_op (DoRegister r now)) end.
Qed.
Lemma authenticate_worker_kept state headers worker : kept (authenticate_worker state headers worker).
Proof. apply kept_lift. Qed.
Lemma heartbeat_worker_kept state worker headers : kept (heartbeat_worker config state worker headers).
Proof. unfold heartbeat_worker. keeping. by apply (kept_op (DoHeartbeat worker now)). Qed.
Lemma drain_worker_kept state worker headers : kept (drain_worker config state worker headers).
Proof. unfold drain_worker. keeping; [apply authenticate_worker_kept|by apply (kept_op (DoDrain worker))]. Qed.
Lemma quarantine_worker_kept state worker headers : kept (quarantine_worker config state worker headers).
Proof. unfold quarantine_worker. keeping; [apply authenticate_worker_kept|by apply (kept_op (DoQuarantine worker now))]. Qed.
Lemma submit_kept state headers request : kept (submit config state headers request).
Proof.
  unfold submit. keeping.
  match goal with |- kept (api_store _ (enqueue _ ?s ?now)) => by apply (kept_op (DoEnqueue s now)) end.
Qed.
Lemma authenticate_path_kept state headers key : kept (authenticate_path state headers key).
Proof. unfold authenticate_path. keeping. Qed.
Lemma inspect_kept state key headers : kept (inspect config state key headers).
Proof. unfold inspect. keeping; [apply authenticate_path_kept|apply kept_read, get_by_idempotency_pure]. Qed.
Lemma cancel_kept state key headers : kept (cancel config state key headers).
Proof.
  unfold cancel. keeping; [apply authenticate_path_kept|].
  match goal with |- kept (api_store _ (Placement.cancel ?t ?s ?k ?now)) => by apply (kept_op (DoCancel t s k now)) end.
Qed.
Lemma stream_placement_kept state key headers : kept (stream_placement config state key headers).
Proof.
  unfold stream_placement. keeping; [apply authenticate_path_kept| |apply kept_read, get_by_idempotency_pure].
  apply kept_streams. intros w. unfold take_permit. case_match; [exists (streams w); by destruct w|by eexists].
Qed.
Lemma next_placement_event_kept s : kept (next_placement_event config s).
Proof.
  unfold next_placement_event. keeping.
  eapply guards_impl; [apply (guards_call (λ _, True)), sound_pure, get_by_idempotency_pure|done|done].
Qed.
Lemma drop_stream_kept s : kept (drop_stream s).
Proof. apply kept_streams. intros w. by eexists. Qed.

(** *** Ingress *)

Lemma guards_exchange K address order method target headers body service port work_order :
  guards (λ db, K db ∧ backed db (address, order)) (exchange address order method target headers body service port work_order)
    (λ _ _, True).
Proof.
  unfold exchange. eapply guards_bind; [apply guards_reject|intros []; cbv beta].
  eapply guards_bind; [apply guards_lift|intros encoded; cbv beta].
  eapply guards_bind; [eapply guards_impl; [apply (guards_transmit (λ _, True))| |intros ? ? _ HK; exact HK]|intros answer; cbv beta].
  { by intros db _ [[[_ Hb] _] _]. }
  eapply guards_bind; [apply guards_lift|intros bytes; cbv beta]. eapply guards_impl; [apply guards_lift|intros ? _ HK; exact HK|done].
Qed.

Lemma route_backing self p key now db a :
  (∀ r o, routed p key r o → issuer self r o) →
  answered (λ _, True) (active_assignment_by_idempotency (principal_tenant p) (principal_subject p) key now) (Ok (Some a)) db →
  authorize_workspace p (Lease.pi_workspace_id (assignment_identity a)) = Ok tt →
  backing self a (OpInspect (as_str (Lease.pi_sandbox_id (assignment_identity a)))) db.
Proof.
  intros Hself (db1 & db2 & _ & Hok1 & _ & Hl1 & Hl2 & Hrun) Hws.
  apply active_holds in Hrun as (-> & r & Hh & Hown); [|by apply store_ids].
  exists db1, r. split_and!; [done|done|done|]. pose proof (hr_identity _ _ _ Hh) as Hi. injection Hi as _ Hi2 Hi3. rewrite Hi3.
  apply Hself. split_and!; [done|done|]. eauto.
Qed.

Lemma route_same_holder a now n : same_holder a (route_assignment a now n).
Proof. repeat split. Qed.

Lemma guards_sequence K : guards K next_sequence (λ _, K).
Proof. intros w [? ? ? ?]. by split. Qed.

Lemma forward_kept state key service port request :
  (∀ s p r o, route_signer state = Some s → authenticate (auth state) (ingress_headers request) = Ok p → routed p key r o →
     issuer s r o) →
  kept (forward config state key service port request).
Proof.
  intros Htr. unfold forward. cbv zeta. apply kept_bind; [apply kept_reject|intros []].
  eapply guards_bind; [apply guards_lift|intros principal; cbv beta]. apply guards_pure. intros Hp%map_err_Ok.
  apply kept_now_bind. intros now Hnow.
  eapply guards_bind; [apply guards_store; [apply _|apply sound_pure, active_assignment_pure]|intros found; cbv beta].
  eapply guards_bind; [apply guards_lift|intros a; cbv beta]. eapply guards_bind; [apply guards_lift|intros []; cbv beta].
  eapply guards_bind; [apply guards_lift|intros signer; cbv beta]. eapply guards_bind; [apply guards_sequence|intros n; cbv beta].
  eapply guards_bind; [apply guards_lift|intros order; cbv beta]. eapply guards_bind; [apply guards_lift|intros encoded; cbv beta].
  eapply guards_bind; [apply guards_reject|intros []; cbv beta]. eapply guards_bind; [apply guards_lift|intros target; cbv beta].
  eapply guards_impl; [apply (guards_exchange (λ _, True))| |done].
  intros db _ [[[[[[[[_ Ha] Hfound] Hws] Hs] Hsign] _] _] _]. split; [done|].
  apply map_err_Ok, ok_or_Ok in Hfound as ->. apply map_err_Ok, ok_or_Ok in Hs. apply map_err_Ok in Hsign, Hws.
  eapply (signed_backed signer a (route_assignment a now n)); [|apply route_same_holder|exact Hsign].
  refine (route_backing signer principal key now db a _ Ha Hws). eauto.
Qed.

(** *** A start *)

(** The store keeps its invariant, and the other clients make calls at times that are not negative. *)
Definition ready (w : World N Value) : Prop := store_ok (db w) ∧ Forall (Forall timely) (others w).
End orders.

Section starting.
Context {N Value : Type} `{!StoreCodec Value, SignatureCodec, SigningCodec, OperationCodec}.

Lemma ready_Inv issuer (K : Db → Prop) (w : World N Value) : ready w → K (db w) → Inv issuer (length (sent w)) K w.
Proof. intros [Hok Ho] HK. split; [done|done|by rewrite drop_all|done]. Qed.

(** What follows for a run of code that is guarded. *)
Lemma guards_run {E A} issuer K (c : M (World N Value) E A) Q w w' a :
  guards issuer (length (sent w)) K c Q → ready w → K (db w) → c w = (w', Ok a) → Q a (db w').
Proof. intros Hc Hr HK Hrun. specialize (Hc w (ready_Inv _ _ _ Hr HK)). rewrite Hrun in Hc. apply Hc. Qed.

Lemma kept_run {E A} issuer (c : M (World N Value) E A) w base :
  kept issuer base c → Inv issuer base (λ _, True) w → Inv issuer base (λ _, True) (c w).1.
Proof. intros Hc Hi. specialize (Hc w Hi). by destruct (c w) as [w' [a|e]]. Qed.
End starting.
