(* ===== verification/GatewayExample.v ===== *)
(** * A concrete gateway

    Encodings that evaluate, a catalogue with one pool, and the worlds in which
    the theorems on the gateway are applied: a request that waits for a worker,
    and a sandbox that serves. *)
From S2P Require Import Prelude Identity Lease FairQueue GuestProfile Volume Network Topology Snapshot WorkOrder Autoscale Protocol.
From S2P Require Import Placement PlacementProofs PlacementInvariant PlacementExample PlacementTheorems Verifier Signer Http GatewayAuth Gateway GatewayProofs.
Import Autoscale.Autoscale Protocol.Protocol Placement.Placement Verifier.Verifier Signer.Signer Http.Http GatewayAuth.GatewayAuth Gateway.Gateway.

#[local] Existing Instances ex_signature ex_signing ex_operations ex_http.

(** A clock that advances by a millisecond whenever it is read, and no broker that answers. *)
#[local] Instance ex_transport : Transport Z := {
  system_clock t := (t + 1, t);
  tcp_exchange _ _ _ t := (t, Err "unreachable"%string)
}.
#[local] Instance ex_gateway : GatewayCodec () := {
  request_json r := Ok (bytes (wr_request_id r));
  response_json l := ok_or "malformed response"%string
    ('(v, i, o, r, e) ← of_text (string_of_list_ascii l); Some (MkResponse v i o r e));
  placement_json r := Ok (pr_request_id r);
  base64 := hex_encode
}.

Definition ex_pool : WorkerPool :=
  MkPool "pool-1" "set-1" "topology-1" ex_ceilings
    (MkPoolKey "root-1" "standard" (GuestProfile.MkProfileId "standard" 1) "cohort-1" TierLoopback TierEphemeral)
    (MkPolicy 0 10 0 1 1 60000) true.
Definition ex_catalog : WorkerPoolCatalog := MkCatalog WORKER_POOL_CATALOG_VERSION [ex_pool].
Definition ex_worker_auth : WorkerAuthPolicy :=
  MkWorkerPolicy WORKER_POLICY_VERSION
    {[ "worker-key" := MkWorkerCredential (hex_encode (sha256 (bytes ex_secret))) worker_1 "pool-1" "topology-1" "standard" "cohort-1" ]}%string.
Definition ex_state : AppState := MkApp ex_auth ex_worker_auth ex_catalog (Some ex_signer).
Definition ex_dispatcher : Dispatcher := MkDispatcher ex_signer 1000 1000 16.

Definition ex_world (now : Z) (ops : ex_ops) : World Z () := MkWorld now (ex_run ops) [] [] 0 0.

Lemma ex_world_ready now ops : forallb (λ o, 0 <=? op_time o) ops = true → ready (ex_world now ops).
Proof. intros Hops. split; [|constructor]. apply history_store_ok; [done|apply empty_store_ok|by apply timely_bool]. Qed.

(** The sandbox of the submission runs on the first worker. *)
Definition serving_ops : ex_ops :=
  let waiting := submitted_ops None in
  waiting ++ [DoAssign worker_1 2000; DoCompleteResponse (grant_of worker_1 2000 (ex_run waiting)) ex_response 2001].

Definition ex_submit : SubmitRequest :=
  MkSubmit (id_lit "team-a") (id_lit "sandbox-1") 500000 "pool-1" "topology-1" "standard" "cohort-1"
    (OpCreate ex_topology "sandbox-1" 60000) None.
Definition ex_ingress : IngressRequest := MkIngress "GET" (Some "/v1/placements/key-1/ingress/web/8080/a"%string) ex_headers [].
