(* ===== verification/GatewayTheorems.v ===== *)
(** * Theorems on the gateway

    Whose requests the gateway signs, records, shows, cancels and forwards,
    whatever the other clients of the store do meanwhile. *)
From S2P Require Import Prelude Identity Lease FairQueue GuestProfile Volume Network Topology Snapshot WorkOrder Autoscale Protocol.
From S2P Require Import Placement PlacementProofs PlacementInvariant PlacementTheorems Verifier Signer Http GatewayAuth Gateway GatewayProofs.
From S2P Require Import PlacementExample GatewayExample.
Import Topology.Topology WorkOrder.WorkOrder Autoscale.Autoscale Protocol.Protocol Placement.Placement Verifier.Verifier.
Import Signer.Signer Http.Http GatewayAuth.GatewayAuth Gateway.Gateway.

(** ** Runs of the gateway *)

Section runs.
Context {N Value : Type} `{Transport N, !StoreCodec Value, !GatewayCodec Value}.
Context `{SignatureCodec, SigningCodec, OperationCodec, HttpCrate}.
Context (config : PlacementStoreConfig) (state : AppState) (self : Dispatcher).




Context `{!StoreCodecLaws Value} (Hlife : 0 ≤ lease_lifetime config).


End runs.

Section orders.
Context {N Value : Type} `{Transport N, !StoreCodec Value, !GatewayCodec Value}.
Context `{SignatureCodec, SigningCodec, OperationCodec, HttpCrate, !StoreCodecLaws Value}.


(** C14: A request forwarded through the gateway reaches only a sandbox of the caller: the order that goes with it is signed
    by the signer of the routes, for a request that was submitted by the tenant and subject that the headers authenticate,
    under the key of the path and in a workspace they may use, and only allows to inspect the sandbox. *)
Theorem ingress_reaches_own_sandbox config state key service port request (w : World N Value) :
  0 ≤ lease_lifetime config → ready w →
  let w' := (forward config state key service port request w).1 in
  Forall (backed (λ s r o, route_signer state = Some s ∧
                   ∃ p, authenticate (auth state) (ingress_headers request) = Ok p ∧ routed p key r o) (db w'))
    (drop (length (sent w)) (sent w')).
Proof.
  intros Hlife Hr w'. refine (inv_sent _ _ _ _ (kept_run _ (forward config state key service port request) w _ _ _));
    [|by apply ready_Inv]. apply forward_kept; [done|]. intros s p r o Hs Hp Hro. eauto.
Qed.
End orders.

(** ** Answers about placements *)

Section answers.
Context {N Value : Type} `{Transport N, !StoreCodec Value, !GatewayCodec Value}.
Context `{SignatureCodec, SigningCodec, OperationCodec, HttpCrate, !StoreCodecLaws Value}.

(** The answer is about the row. *)
Record shows (r : RequestRow) (answer : PlacementResponse Value) : Prop := Shows {
  sw_id : pr_request_id answer = row_id r;
  sw_key : pr_idempotency_key answer = s_idempotency_key (submitted r);
  sw_workspace : pr_workspace answer = s_workspace (submitted r);
  sw_sandbox : pr_sandbox answer = s_sandbox (submitted r);
  sw_state : pr_state answer = state r;
  sw_worker : pr_worker answer = row_worker r;
  sw_epoch : pr_epoch answer = row_epoch r;
  sw_expires : pr_expires answer = lease_expires r;
  sw_digest : pr_digest answer = result_digest (outcome r)
}.

Lemma of_record_shows r record : describes r record → shows r (of_record record).
Proof. intros [? ? [= _ ? ?] ? ? ? ? ? ? _]. by split. Qed.

#[local] Instance stable_later start : Stable (later start).
Proof. intros db db' Hl Hs. by trans db. Qed.

Lemma get_by_idempotency_Ok tenant subject key db db' record :
  ids_ok db → get_by_idempotency tenant subject key db = (db', Ok (Some record)) →
  ∃ r, requests db !! row_id r = Some r ∧ owned_by tenant subject key r = true ∧ describes r record.
Proof.
  intros Hid Hrun. unfold get_by_idempotency in Hrun. apply M_bind_Ok_inv in Hrun as (found & db0 & Hq & [= _ Hrun]).
  apply query_opt_Ok in Hq as [-> Hq]; [|done]. destruct found as [r|]; [|done]. destruct (Hq r eq_refl) as [Hr Hown].
  simpl in Hrun. apply bind_Ok_inv in Hrun as (x & Hx%record_from_row_Ok & [= <-]). eauto.
Qed.

(** What [cancel] does to the tables. *)
Record cancels (now : Z) (r : RequestRow) (db db' : Db) : Prop := Cancels {
  cn_requests : requests db' = <[row_id r := with_request_state Cancelled (with_terminal now r)]> (requests db);
  cn_epochs : assignment_epochs db' = assignment_epochs db;
  cn_other_workers : ∀ id, row_worker r ≠ Some id → workers db' !! id = workers db !! id;
  cn_worker : ∀ id w, row_worker r = Some id → workers db !! id = Some w → worker_state w = PwLeased →
    workers db' !! id = Some (with_state PwQuarantined w)
}.

Lemma cancel_Ok tenant subject key now db db' record' :
  ids_ok db → Placement.cancel tenant subject key now db = (db', Ok (Some record')) →
  ∃ r record, requests db !! row_id r = Some r ∧ owned_by tenant subject key r = true ∧ describes r record ∧
    if is_finished (state r) then db' = db ∧ record' = record
    else cancels now r db db' ∧ record' = with_record_state Cancelled record.
Proof.
  intros Hid Hrun. unfold Placement.cancel in Hrun.
  apply M_bind_Ok_inv in Hrun as (n & db0 & (-> & -> & _)%to_i64_Ok & Hrun). apply transaction_Ok in Hrun.
  apply M_bind_Ok_inv in Hrun as (found & db0 & Hq & Hrun). apply query_opt_Ok in Hq as [-> Hq]; [|done].
  destruct found as [r|]; [|done]. destruct (Hq r eq_refl) as [Hr Hown].
  apply M_bind_Ok_inv in Hrun as (record & db0 & [-> Hde]%read_record_Ok & Hrun).
  exists r, record. split_and!; [done|done|done|]. rewrite (de_state _ _ Hde) in Hrun.
  destruct (is_finished (state r)) eqn:Hfin; [by injection Hrun as <- <-|].
  apply M_bind_Ok_inv in Hrun as ([] & db1 & Hup & Hrun). rewrite (de_id _ _ Hde) in Hup.
  apply update_request_Ok in Hup as [-> _]; [|done|done].
  apply M_bind_Ok_inv in Hrun as ([] & db2 & Hset & Hrun).
  apply M_bind_Ok_inv in Hrun as ([] & db3 & [x ->]%append_audit_Ok & [= <- <-]). split; [|done].
  set (db1 := set_requests _ db) in *. pose proof (de_worker _ _ Hde) as Hw.
  assert (requests db1 = <[row_id r := with_request_state Cancelled (with_terminal now r)]> (requests db)) as Hreq.
  { apply map_eq. intros k. simpl. destruct (decide (k = row_id r)) as [->|Hne].
    - by rewrite lookup_alter_eq, lookup_insert_eq, Hr.
    - by rewrite lookup_alter_ne, lookup_insert_ne. }
  destruct (record_worker record) as [wid|]; simpl in Hw.
  - apply M_bind_Ok_inv in Hset as (k & db3 & Hset & [= <-]).
    apply update_worker_Ok in Hset as [(_ & w & Hww & _ & _ & ->)|(_ & -> & Hno)]; split; simpl; try done.
    + intros id Hne. rewrite lookup_insert_ne; [done|]. congruence.
    + intros id w' Hid' Hw' Hl. simpl in Hww. simplify_eq. rewrite <-Hw in Hid'. simplify_eq. apply lookup_insert_eq.
    + intros id w' Hid' Hw' Hl. rewrite <-Hw in Hid'. injection Hid' as <-. specialize (Hno w' Hw').
      unfold worker_in in Hno. apply bool_decide_eq_false in Hno. rewrite Hl in Hno. set_solver.
  - injection Hset as <-. split; simpl; try done. intros id w' Hid'. by rewrite <-Hw in Hid'.
Qed.

Context (config : PlacementStoreConfig) (state : AppState).

Section guarded.
Context (Hlife : 0 ≤ lease_lifetime config) (issuer : WorkOrderSigner → RequestRow → Operation → Prop) (base : nat) (start : Db).

Lemma guards_authenticate_path headers key :
  guards (N := N) issuer base (later start) (authenticate_path state headers key)
    (λ p db, later start db ∧ authenticate (auth state) headers = Ok p).
Proof.
  unfold authenticate_path. eapply guards_bind; [apply guards_reject|intros []; cbv beta].
  eapply guards_impl; [apply guards_lift|intros ? _ HK; exact HK|]. by intros p db _ [[Hl _] Hp%map_err_Ok].
Qed.

(** The answer shows a row of the caller at some time since the start. *)
Definition shown (headers : HeaderMap) (key : string) (answer : PlacementResponse Value) (db : Db) : Prop :=
  ∃ p db1 r, authenticate (auth state) headers = Ok p ∧ later start db1 ∧ later db1 db ∧
    requests db1 !! row_id r = Some r ∧ owned_by (principal_tenant p) (principal_subject p) key r = true ∧ shows r answer.

Lemma guards_inspect key headers :
  guards (N := N) issuer base (later start) (inspect config state key headers) (shown headers key).
Proof.
  unfold inspect. eapply guards_bind; [apply guards_authenticate_path|intros p; cbv beta]. apply guards_pure. intros Hp.
  eapply guards_bind; [apply guards_store; [done|apply _|apply sound_pure, get_by_idempotency_pure]|intros found; cbv beta].
  eapply guards_bind; [apply guards_lift|intros record; cbv beta].
  apply guards_ret_of. intros db [[_ (db1 & db2 & Hs & Hok & _ & Hl & Hl' & Hrun)] Hrec%map_err_Ok%ok_or_Ok]. subst found.
  apply get_by_idempotency_Ok in Hrun as (r & Hr & Hown & Hde); [|by apply store_ids].
  exists p, db1, r. split_and!; try done; [by trans db2|by apply of_record_shows].
Qed.

(** The cancellation of a request of the caller, at some time since the start. *)
Definition cancelled (headers : HeaderMap) (key : string) (answer : PlacementResponse Value) (db : Db) : Prop :=
  ∃ p now db1 db2 r, authenticate (auth state) headers = Ok p ∧ later start db1 ∧ later db2 db ∧
    requests db1 !! row_id r = Some r ∧ owned_by (principal_tenant p) (principal_subject p) key r = true ∧
    pr_request_id answer = row_id r ∧
    if is_finished (Placement.state r) then db2 = db1 ∧ pr_state answer = Placement.state r
    else cancels now r db1 db2 ∧ pr_state answer = Cancelled.

Lemma guards_cancel key headers :
  guards (N := N) issuer base (later start) (cancel config state key headers) (cancelled headers key).
Proof.
  unfold cancel. eapply guards_bind; [apply guards_authenticate_path|intros p; cbv beta]. apply guards_pure. intros Hp.
  eapply guards_bind; [apply guards_clock|intros now; cbv beta]. apply guards_pure. intros Hnow.
  eapply guards_bind; [apply guards_store; [done|apply _|]|intros found; cbv beta].
  { by apply (sound_op config Hlife _ (DoCancel (principal_tenant p) (principal_subject p) key now)). }
  eapply guards_bind; [apply guards_lift|intros record; cbv beta].
  apply guards_ret_of. intros db [[_ (db1 & db2 & Hs & Hok & _ & _ & Hl & Hrun)] Hrec%map_err_Ok%ok_or_Ok]. subst found.
  apply cancel_Ok in Hrun as (r & rec & Hr & Hown & Hde & Hcase); [|by apply store_ids].
  exists p, now, db1, db2, r. split_and!; try done.
  - destruct (is_finished (Placement.state r)); destruct Hcase as [_ ->]; apply Hde.
  - destruct (is_finished (Placement.state r)) eqn:Hf; destruct Hcase as [Hc ->]; (split; [done|]); [apply Hde|done].
Qed.




End guarded.

(** What [inspect] answers is a request of the tenant and subject that the headers authenticate, under the key of the
    path, as it was at some time during the call. *)
Theorem inspect_shows_own key headers (w w' : World N Value) answer :
  0 ≤ lease_lifetime config → ready w → inspect config state key headers w = (w', Ok answer) →
  shown (db w) headers key answer (db w').
Proof.
  intros Hlife Hr. refine (guards_run (λ _ _ _, True) (later (db w)) _ _ _ _ _ _ Hr _); [by apply guards_inspect|reflexivity].
Qed.

(** [cancel] acts only on the request that the authenticated tenant and subject submitted under the key, at some time
    during the call: when it is not finished it becomes cancelled, its worker is quarantined when it was leased, and no
    other request, worker or epoch changes; when it is finished nothing changes. *)
Theorem cancel_affects_own_request key headers (w w' : World N Value) answer :
  0 ≤ lease_lifetime config → ready w → cancel config state key headers w = (w', Ok answer) →
  cancelled (db w) headers key answer (db w').
Proof.
  intros Hlife Hr. refine (guards_run (λ _ _ _, True) (later (db w)) _ _ _ _ _ _ Hr _); [by apply guards_cancel|reflexivity].
Qed.

End answers.

(** ** Concrete runs *)

#[local] Existing Instances ex_signature ex_signing ex_operations ex_http ex_transport ex_gateway.


Lemma ingress_reaches_own_sandbox_witness :
  let w := (forward ex_config ex_state "key-1" "web" 8080 ex_ingress (ex_world 3000 serving_ops)).1 in
  length (sent w) = 1%nat ∧
  Forall (backed (λ s r o, route_signer ex_state = Some s ∧
            ∃ p, authenticate (auth ex_state) ex_headers = Ok p ∧ routed p "key-1" r o) (db w)) (sent w).
Proof.
  split; [vm_compute; reflexivity|].
  refine (ingress_reaches_own_sandbox ex_config ex_state "key-1" "web" 8080 ex_ingress (ex_world 3000 serving_ops) _ _);
    [done|by apply ex_world_ready].
Defined.

(** A run whose answer is known. *)
Definition answer_of {E A} (r : result E A) (default : A) : A := match r with Ok a => a | Err _ => default end.
Definition no_answer : PlacementResponse () :=
  MkPlacementResponse EmptyString EmptyString EmptyString EmptyString EmptyString Queued None None None None None None.

Lemma inspect_shows_own_witness :
  let '(w, r) := inspect ex_config ex_state "key-1" ex_headers (ex_world 3000 serving_ops) in
  pr_state (answer_of r no_answer) = Serving ∧ shown ex_state (db (ex_world 3000 serving_ops)) ex_headers "key-1" (answer_of r no_answer) (db w).
Proof.
  destruct (inspect ex_config ex_state "key-1" ex_headers (ex_world 3000 serving_ops)) as [w r] eqn:Hrun.
  assert (is_ok r = true ∧ pr_state (answer_of r no_answer) = Serving) as [Hok Hs].
  { change r with (w, r).2. rewrite <-Hrun. split; vm_compute; reflexivity. }
  split; [exact Hs|]. destruct r as [answer|]; [|discriminate].
  refine (inspect_shows_own ex_config ex_state "key-1" ex_headers _ w answer _ _ Hrun); [done|by apply ex_world_ready].
Defined.

Lemma cancel_affects_own_request_witness :
  let '(w, r) := cancel ex_config ex_state "key-1" ex_headers (ex_world 3000 serving_ops) in
  pr_state (answer_of r no_answer) = Cancelled ∧
  cancelled ex_state (db (ex_world 3000 serving_ops)) ex_headers "key-1" (answer_of r no_answer) (db w).
Proof.
  destruct (cancel ex_config ex_state "key-1" ex_headers (ex_world 3000 serving_ops)) as [w r] eqn:Hrun.
  assert (is_ok r = true ∧ pr_state (answer_of r no_answer) = Cancelled) as [Hok Hs].
  { change r with (w, r).2. rewrite <-Hrun. split; vm_compute; reflexivity. }
  split; [exact Hs|]. destruct r as [answer|]; [|discriminate].
  refine (cancel_affects_own_request ex_config ex_state "key-1" ex_headers _ w answer _ _ Hrun); [done|by apply ex_world_ready].
Defined.

