(* ===== verification/Broker.v ===== *)
(** * The broker of a worker

    Models [bins/sandbox-broker/src/broker.rs], [ingress.rs] and
    [registration.rs]: the dispatch of a signed request over the workload
    socket, the route of an HTTP request to a guest, and the registration of
    the worker with the gateway.  The socket, the guest and the gateway are
    reached through an interface; JSON, base64, methods and URIs are
    parameters. *)
From S2P Require Import Prelude Identity Lease FairQueue GuestProfile Volume Network Topology Snapshot WorkOrder Autoscale Protocol.
From S2P Require Import Placement PlacementProofs Verifier Signer Http GatewayAuth Gateway.
Import Topology.Topology Autoscale.Autoscale Protocol.Protocol Placement.Placement Verifier.Verifier Signer.Signer Http.Http GatewayAuth.GatewayAuth.

Module Broker.

Definition MAXIMUM_MESSAGE_BYTES : Z := 4 * 1024 * 1024.
Definition MAXIMUM_BODY_BYTES : Z := 1024 * 1024.
Definition MAXIMUM_HEADER_BYTES : Z := 16 * 1024.

Inductive BrokerError : Type := BrokerInvalid | BrokerTooLarge | BrokerUnavailable | BrokerTimeout.

(** [IntoResponse]: the status and the text of the body. *)
Definition broker_error_response (e : BrokerError) : Z * string :=
  match e with
  | BrokerInvalid => (400, "invalid_work_order")
  | BrokerTooLarge => (413, "payload_too_large")
  | BrokerUnavailable => (503, "worker_unavailable")
  | BrokerTimeout => (504, "worker_timeout")
  end%string.

(** [registration_ready] is the flag of the registration client, when there is one. *)
Record BrokerState : Type := MkBroker { socket : string; io_timeout : Z; registration_ready : option bool }.

Definition new_broker (socket : string) (io_timeout : Z) : result string BrokerState :=
  reject_if (negb (starts_with "/" socket) || (io_timeout =? 0) || (from_secs 60 <? io_timeout))
    "broker socket or I/O timeout is invalid"%string;;
  mret (MkBroker socket io_timeout None).
Definition require_registration (ready : bool) (self : BrokerState) : BrokerState :=
  MkBroker (socket self) (io_timeout self) (Some ready).

(** [is_socket] says whether the path of the socket can be inspected and is a socket. *)
Definition broker_ready (is_socket : bool) (self : BrokerState) : result BrokerError Z :=
  reject_if (match registration_ready self with Some ready => negb ready | None => false end) BrokerUnavailable;;
  reject_if (negb is_socket) BrokerUnavailable;;
  mret 204.

Record IngressEndpoint : Type := MkEndpoint {
  endpoint_service : string;
  endpoint_port : Z;
  host_endpoint : SocketAddr;
  bearer_token : string
}.

Record Uri : Type := MkUri { uri_scheme : option string; uri_authority : option string; uri_path : string; uri_text : string }.

(** JSON of requests and of the status of a sandbox, base64 without padding, [Method] and [Uri] of the [http] crate. *)
Class BrokerCodec (Value : Type) : Type := {
  decode_request : list ascii → option WorkloadRequest;
  base64_decode : string → option (list ascii);
  status_endpoints : Value → option (list IngressEndpoint);
  method_parse : string → option string;
  uri_parse : string → option Uri
}.

(** An exchange that failed, or took longer than the timeout. *)
Inductive IoFailure : Type := IoFailed | IoTimeout.

(** What is sent and then read back, up to a number of bytes, over the workload socket and from a guest. *)
Class WorkerSide (N : Type) : Type := {
  unix_exchange : string → list ascii → Z → N → N * result IoFailure (list ascii);
  guest_exchange : SocketAddr → list ascii → Z → N → N * result IoFailure (list ascii)
}.

(** [IpAddr::is_loopback]. *)
Definition is_loopback (a : Network.IpAddr) : bool :=
  match a with Network.V4 v => Network.v4_loopback v | Network.V6 v => v =? 1 end.

Section code.
Context {N Value : Type} `{WorkerSide N, !Gateway.GatewayCodec Value, !BrokerCodec Value, HttpCrate}.

(** [asked] is what was written to the workload socket and [passed] what was sent to guests, in order. *)
Record BrokerWorld : Type := MkBrokerWorld {
  side : N;
  asked : list (list ascii);
  passed : list (SocketAddr * list ascii)
}.

Abbreviation B := (M BrokerWorld BrokerError).

Definition io_error (f : IoFailure) : BrokerError :=
  match f with IoFailed => BrokerUnavailable | IoTimeout => BrokerTimeout end.

Definition ask (path : string) (message : list ascii) (limit : Z) : B (list ascii) :=
  λ w, let '(n, r) := unix_exchange path message limit (side w) in
       (MkBrokerWorld n (asked w ++ [message]) (passed w), answer ← map_err io_error r; mret (take (Z.to_nat limit) answer)).
Definition pass (address : SocketAddr) (message : list ascii) (limit : Z) : B (list ascii) :=
  λ w, let '(n, r) := guest_exchange address message limit (side w) in
       (MkBrokerWorld n (asked w) (passed w ++ [(address, message)]), answer ← map_err io_error r; mret (take (Z.to_nat limit) answer)).

(** ** Dispatch *)

Definition exchange (path : string) (request : list ascii) : B (WorkloadResponse Value) :=
  response ← ask path (request ++ [LF]) (MAXIMUM_MESSAGE_BYTES + 1);
  M_reject_if (bool_decide (response = []) || (MAXIMUM_MESSAGE_BYTES <? length_z response)
               || negb (bool_decide (last response = Some LF))) BrokerUnavailable;;
  M_lift (map_err (λ _, BrokerUnavailable) (Gateway.response_json response)).

Definition dispatch (self : BrokerState) (request : WorkloadRequest) : B (WorkloadResponse Value) :=
  M_lift (map_err (λ _, BrokerInvalid) (validate_request request));;
  encoded ← M_lift (map_err (λ _, BrokerInvalid) (Gateway.request_json request));
  M_reject_if (MAXIMUM_MESSAGE_BYTES <=? length_z encoded) BrokerInvalid;;
  response ← exchange (socket self) encoded;
  M_lift (map_err (λ _, BrokerUnavailable) (validate_for response (wr_request_id request)));;
  mret response.

(** ** Routes to guests *)

Definition required_header (headers : HeaderMap) (name : string) : result BrokerError string :=
  ok_or BrokerInvalid (v ← header_get name headers; header_text v).

Definition decode_header (headers : HeaderMap) (name : string) : result BrokerError string :=
  encoded ← required_header headers name;
  reject_if (MAXIMUM_HEADER_BYTES <? len encoded) BrokerInvalid;;
  decoded ← ok_or BrokerInvalid (base64_decode encoded);
  ok_or BrokerInvalid (from_utf8 decoded).

(** What the headers of a routed request say. *)
Record Route : Type := MkRoute {
  route_order : WorkloadRequest;
  route_service : string;
  route_port : Z;
  route_method : string;
  route_uri : Uri;
  route_host : string
}.

Definition is_inspect (o : Operation) : bool := match o with OpInspect _ => true | _ => false end.

Definition read_order (headers : HeaderMap) : result BrokerError WorkloadRequest :=
  work_order ← required_header headers "x-runtrue-work-order";
  reject_if (MAXIMUM_HEADER_BYTES <? len work_order) BrokerInvalid;;
  decoded ← ok_or BrokerInvalid (base64_decode work_order);
  order ← ok_or BrokerInvalid (decode_request decoded);
  map_err (λ _, BrokerInvalid) (validate_request order);;
  reject_if (negb (is_inspect (wr_operation order))) BrokerInvalid;;
  mret order.

Definition read_target (headers : HeaderMap) : result BrokerError Uri :=
  text ← decode_header headers "x-runtrue-ingress-target";
  target ← ok_or BrokerInvalid (uri_parse text);
  reject_if (bool_decide (is_Some (uri_scheme target)) || bool_decide (is_Some (uri_authority target))
             || negb (starts_with "/" (uri_path target)) || (8 * 1024 <? len (uri_text target))) BrokerInvalid;;
  mret target.

Definition read_route (headers : HeaderMap) : result BrokerError Route :=
  order ← read_order headers;
  service ← required_header headers "x-runtrue-ingress-service";
  reject_if (negb (Gateway.valid_token service 63)) BrokerInvalid;;
  text ← required_header headers "x-runtrue-ingress-port";
  port ← ok_or BrokerInvalid (p ← parse_unsigned u16_max text; if p =? 0 then None else Some p);
  text ← required_header headers "x-runtrue-ingress-method";
  method ← ok_or BrokerInvalid (method_parse text);
  target ← read_target headers;
  text ← decode_header headers "x-runtrue-ingress-host";
  host ← ok_or BrokerInvalid (header_value text);
  mret (MkRoute order service port method target host).

(** The only endpoint of the service and port, when it is on the loopback interface and has a token. *)
Definition select_endpoint (service : string) (port : Z) (endpoints : list IngressEndpoint) : result BrokerError IngressEndpoint :=
  reject_if (16 <? length_z endpoints) BrokerUnavailable;;
  match filter (λ e, endpoint_service e = service ∧ endpoint_port e = port) endpoints with
  | [] => Err BrokerUnavailable
  | e :: more =>
      reject_if (negb (bool_decide (more = [])) || negb (is_loopback (host_endpoint e).1) || ((host_endpoint e).2 =? 0)
                 || negb (len (bearer_token e) =? 64) || negb (all_bytes is_lowercase_hex (bearer_token e))) BrokerUnavailable;;
      mret e
  end.

Definition guest_lines (e : IngressEndpoint) (method : string) (target : Uri) (host : string) : list string :=
  [method +:+ " " +:+ uri_text target +:+ " HTTP/1.1"; "Host: " +:+ host; "Authorization: Bearer " +:+ bearer_token e]%string.

Definition guest_head (e : IngressEndpoint) (method : string) (target : Uri) (host : string) (headers : HeaderMap)
    (body : list ascii) : result BrokerError string :=
  host ← ok_or BrokerInvalid (header_text host);
  encoded ← append_forward_headers BrokerInvalid (as_lines (guest_lines e method target host)) headers;
  let encoded := (encoded +:+ as_lines (Gateway.last_lines body) +:+ crlf)%string in
  reject_if (MAXIMUM_HEADER_BYTES <? len encoded) BrokerTooLarge;;
  mret encoded.

Definition exchange_ingress (e : IngressEndpoint) (method : string) (target : Uri) (host : string) (headers : HeaderMap)
    (body : list ascii) : B Response :=
  encoded ← M_lift (guest_head e method target host headers body);
  answer ← pass (host_endpoint e) (bytes encoded ++ body) (MAXIMUM_HEADER_BYTES + MAXIMUM_BODY_BYTES + 1);
  M_lift (parse_ingress_response BrokerUnavailable MAXIMUM_HEADER_BYTES MAXIMUM_BODY_BYTES answer).

Definition route (self : BrokerState) (headers : HeaderMap) (body : list ascii) : B Response :=
  r ← M_lift (read_route headers);
  M_reject_if (MAXIMUM_BODY_BYTES <? length_z body) BrokerTooLarge;;
  encoded ← M_lift (map_err (λ _, BrokerInvalid) (Gateway.request_json (route_order r)));
  response ← exchange (socket self) encoded;
  M_lift (map_err (λ _, BrokerUnavailable) (validate_for response (wr_request_id (route_order r))));;
  M_reject_if (negb (rs_ok response)) BrokerUnavailable;;
  endpoints ← M_lift (ok_or BrokerUnavailable (v ← rs_result response; status_endpoints v));
  e ← M_lift (select_endpoint (route_service r) (route_port r) endpoints);
  exchange_ingress e (route_method r) (route_uri r) (route_host r) headers body.
End code.
#[global] Arguments BrokerWorld N : clear implicits.

(** ** Registration *)

Definition CONFIG_VERSION : Z := 1.
Definition MAXIMUM_HTTP_RESPONSE_BYTES : Z := 64 * 1024.

Record RegistrationConfig : Type := MkRegistrationConfig {
  config_schema_version : Z;
  config_key_id : string;
  config_secret : string;
  config_worker : WorkerId;
  config_pool : string;
  config_topology : string;
  config_shape : string;
  config_cohort : string;
  config_ceilings : WorkOrder.ResourceCeilings
}.

(** [ready] is kept with the broker. *)
Record RegistrationClient : Type := MkClient {
  gateway_address : string;
  authorization : string;
  advertisement : Gateway.WorkerAdvertisement;
  heartbeat_interval : Z;
  registration_timeout : Z
}.

Definition validate_gateway_address (value : string) : result string () :=
  reject_if (bool_decide (value = EmptyString) || (255 <? len value)
             || existsb (λ b, existsb (Ascii.eqb b) ["/"; "@"; "#"; "?"; CR; LF; NUL]%char) (bytes value)
             || negb (existsb (Ascii.eqb ":") (bytes value)))
    "gateway address must be a bounded host:port pair"%string.

(** [IpAddr::is_unspecified] and [is_multicast]. *)
Definition is_unspecified (a : Network.IpAddr) : bool :=
  match a with Network.V4 v => Network.v4_unspecified v | Network.V6 v => v =? 0 end.
Definition is_multicast (a : Network.IpAddr) : bool :=
  match a with Network.V4 v => Network.v4_multicast v | Network.V6 v => Z.shiftr v 120 =? 255 end.

Definition invalid_config (c : RegistrationConfig) : bool :=
  negb (config_schema_version c =? CONFIG_VERSION) || negb (bounded_token (config_key_id c) 64)
  || negb (bounded_token (config_secret c) 128) || (len (config_secret c) <? 32)
  || negb (GatewayAuth.bounded_label (config_pool c)) || negb (GatewayAuth.bounded_label (config_topology c))
  || negb (GatewayAuth.bounded_label (config_shape c)) || negb (GatewayAuth.bounded_label (config_cohort c)).

(** [load] on what [read_owner_config] returns, decoded. *)
Definition load_registration (content : result string RegistrationConfig) (gateway_address : string) (advertise_ip : Network.IpAddr)
    (broker_port heartbeat_interval request_timeout : Z) : result string RegistrationClient :=
  validate_gateway_address gateway_address;;
  reject_if (is_unspecified advertise_ip || is_multicast advertise_ip || (broker_port =? 0) || (heartbeat_interval =? 0)
             || (from_secs 60 <? heartbeat_interval) || (request_timeout =? 0) || (heartbeat_interval <? request_timeout))
    "worker registration network configuration is invalid"%string;;
  config ← content;
  reject_if (invalid_config config) "worker registration config is invalid"%string;;
  map_err core_error_to_string (WorkOrder.validate_ceilings (config_ceilings config));;
  mret (MkClient gateway_address ("Worker " +:+ config_key_id config +:+ "." +:+ config_secret config)%string
          (Gateway.MkAdvertisement (config_worker config) (config_pool config) (config_topology config) (config_shape config)
             (config_cohort config) (advertise_ip, broker_port) (config_ceilings config))
          heartbeat_interval request_timeout).

(** A message to the gateway. *)
Inductive Attempt : Type := RegisterAttempt (body : list ascii) | HeartbeatAttempt.

Definition attempt_path (self : RegistrationClient) (a : Attempt) : string :=
  match a with
  | RegisterAttempt _ => "/internal/v1/workers/register"
  | HeartbeatAttempt => "/internal/v1/workers/" +:+ as_str (Gateway.advertised_worker (advertisement self)) +:+ "/heartbeat"
  end%string.
Definition attempt_body (a : Attempt) : list ascii := match a with RegisterAttempt body => body | HeartbeatAttempt => [] end.

Definition request_head (self : RegistrationClient) (path : string) (body : list ascii) : string :=
  (as_lines ["POST " +:+ path +:+ " HTTP/1.1"; "Host: " +:+ gateway_address self; "Authorization: " +:+ authorization self;
             "Content-Type: application/json"; "Content-Length: " +:+ to_string (length_z body); "Connection: close"]
   +:+ crlf)%string.

(** [exchange] on what was read: only the status 204 is a success. *)
Definition accepted (response : list ascii) : result string () :=
  reject_if (MAXIMUM_HTTP_RESPONSE_BYTES <? length_z response) "gateway response exceeds its size limit"%string;;
  status ← ok_or "gateway response has no status"%string
    (line ← head (split_byte LF (string_of_list_ascii response)); from_utf8 (bytes line));
  reject_if (negb (starts_with "HTTP/1.1 204 " status || starts_with "HTTP/1.0 204 " status))
    ("gateway rejected worker registration (" +:+ repeat_drop (strip_suffix (utf8 [13])) (String.length status) status +:+ ")")%string.

Section client.
Context {N : Type}.
(** JSON of the advertisement, and an exchange with the gateway: what was read, or why it failed or took too long. *)
Context (advertisement_json : Gateway.WorkerAdvertisement → result string (list ascii)).
Context (gateway_exchange : string → list ascii → Z → N → N * result string (list ascii)).

Definition next_attempt (self : RegistrationClient) (registered : bool) : result string Attempt :=
  if registered then Ok HeartbeatAttempt
  else body ← map_err (λ error, "encode worker advertisement: " +:+ error)%string (advertisement_json (advertisement self));
       mret (RegisterAttempt body).

Definition send (self : RegistrationClient) (a : Attempt) (n : N) : N * result string () :=
  let message := bytes (request_head self (attempt_path self a) (attempt_body a)) ++ attempt_body a in
  let '(n', r) := gateway_exchange (gateway_address self) message (MAXIMUM_HTTP_RESPONSE_BYTES + 1) n in
  (n', answer ← r; accepted answer).

(** A round of [run]: the new value of [registered], which is also stored in [ready]. *)
Definition registration_round (self : RegistrationClient) (registered : bool) (n : N) : N * bool :=
  match next_attempt self registered with
  | Ok a => let '(n', r) := send self a n in (n', is_ok r)
  | Err _ => (n, false)
  end.
End client.
End Broker.
