(* ===== verification/BrokerProofs.v ===== *)
(** * Requests on their way to a guest

    The head of a routed request as the gateway writes it, the broker reads it
    and the guest sees it, and what the broker passes on at all. *)
From S2P Require Import Prelude Identity Lease FairQueue GuestProfile Volume Network Topology Snapshot WorkOrder Autoscale Protocol.
From S2P Require Import Placement PlacementProofs PlacementInvariant Verifier Signer Http GatewayAuth Gateway GatewayProofs PlacementExample Broker.
Import Topology.Topology Autoscale.Autoscale Protocol.Protocol Placement.Placement Verifier.Verifier Signer.Signer Http.Http GatewayAuth.GatewayAuth.
Import Broker.Broker.

(** ** The head as a server receives it *)












Lemma visible_no_newline s : all_bytes visible s = true → no_newline s.
Proof. intros Hs Hin. by pose proof (all_bytes_elem _ _ _ Hs Hin). Qed.

(** A value made of the characters of tokens. *)
Record plain (s : string) : Prop := Plain { pl_bytes : all_bytes token_byte s = true }.

(** ** From the gateway to the broker *)

(** Methods and URIs have visible characters without spaces; base64 writes letters, digits, hyphens and underscores,
    which it reads back; JSON of requests is read back; and an address is written on one line. *)
Definition solid (c : ascii) : bool := in_range 33 126 c.
Class RouteLaws (Value : Type) `{!StoreCodec Value, !Gateway.GatewayCodec Value, !BrokerCodec Value} : Prop := {
  base64_alphabet l : plain (Gateway.base64 l);
  base64_reads l : base64_decode (Gateway.base64 l) = Some l;
  request_reads r json : Gateway.request_json r = Ok json → decode_request json = Some r;
  address_line a : no_newline (address_text a);
  method_solid t m : method_parse t = Some m → m = t ∧ all_bytes solid m = true;
  uri_solid t u : uri_parse t = Some u → all_bytes solid (uri_text u) = true
}.




Section routes.
Context {N Value : Type} `{!StoreCodec Value, !Gateway.GatewayCodec Value, !BrokerCodec Value, HttpCrate}.
Context `{!HttpCrateLaws, !RouteLaws Value}.

Definition original_host (headers : HeaderMap) : string := default "sandbox"%string (v ← header_get "host" headers; header_text v).






Lemma original_host_line headers : no_newline (original_host headers).
Proof.
  unfold original_host. destruct (header_get "host" headers) as [v|]; simpl; [|by apply visible_no_newline].
  destruct (header_text v) eqn:Ht; simpl; [by apply header_text_visible in Ht as [_ ?]|by apply visible_no_newline].
Qed.













(** ** From the broker to a guest *)

Context `{!WorkerSide N}.














End routes.

(** ** A concrete route *)

#[local] Existing Instances ex_signature ex_signing ex_operations ex_signing_laws ex_http ex_http_laws.

#[local] Instance Operation_eq_dec : EqDecision Operation.
Proof. solve_decision. Defined.
#[local] Instance Ceilings_eq_dec : EqDecision WorkOrder.ResourceCeilings.
Proof. solve_decision. Defined.
#[local] Instance Claims_eq_dec : EqDecision WorkOrder.WorkOrderClaims.
Proof. solve_decision. Defined.
#[local] Instance SignedWorkOrder_eq_dec : EqDecision WorkOrder.SignedWorkOrder.
Proof. solve_decision. Defined.
#[local] Instance WorkloadRequest_eq_dec : EqDecision WorkloadRequest.
Proof. solve_decision. Defined.

Definition ex_inspected : Assignment :=
  MkAssignment ex_hash "key-1" (Lease.MkIdentity ex_tenant (id_lit "team-a") (id_lit "sandbox-1")) (id_lit "subject-1")
    worker_1 (epoch_lit 1) 32000 (Network.V4 1, 8081) ex_ceilings (OpInspect "sandbox-1").
Definition ex_inspect : WorkloadRequest :=
  match sign ex_signer ex_inspected 2001 with Ok r => r | Err _ => MkWorkloadRequest 0 EmptyString w_order OpPing end.
Definition ex_endpoint : IngressEndpoint := MkEndpoint "web" 8080 (Network.V4 (127 * 2 ^ 24 + 1), 40000) ex_hash.

(** An encoding of one order and one response; hexadecimal digits in place of base64. *)
#[local] Instance ex_route_json : Gateway.GatewayCodec () := {
  request_json r := if decide (r = ex_inspect) then Ok (bytes "inspect") else Err "unsupported request"%string;
  response_json l := if decide (l = bytes "done" ++ [LF]) then Ok ex_response else Err "malformed response"%string;
  placement_json r := Ok (Gateway.pr_request_id r);
  base64 := hex_encode
}.
#[local] Instance ex_route_codec : BrokerCodec () := {
  decode_request l := if decide (l = bytes "inspect") then Some ex_inspect else None;
  base64_decode := hex_decode;
  status_endpoints _ := Some [ex_endpoint];
  method_parse t := if all_bytes solid t then Some t else None;
  uri_parse t := if all_bytes solid t then Some (MkUri None None t t) else None
}.
(** A worker that answers, and a guest that does. *)
#[local] Instance ex_worker_side : WorkerSide () := {
  unix_exchange _ _ _ n := (n, Ok (bytes "done" ++ [LF]));
  guest_exchange _ _ _ n := (n, Ok (bytes (as_lines ["HTTP/1.1 204 No Content"; EmptyString]%string)))
}.

#[local] Instance ex_route_laws : RouteLaws ().
Proof.
  split; simpl.
  - intros l. split. apply (all_bytes_mono is_lowercase_hex); [|exact (proj2 (hex_encode_form l))]. intros c Hc.
    unfold token_byte, is_ascii_alphanumeric, is_lowercase_hex, is_ascii_lowercase, is_ascii_digit, in_range in *. lia.
  - exact hex_decode_encode.
  - intros r json. destruct (decide (r = ex_inspect)) as [->|]; [|done]. by intros [= <-].
  - intros a. by apply visible_no_newline.
  - intros t m. destruct (all_bytes solid t) eqn:Ht; [|done]. by intros [= <-].
  - intros t u. destruct (all_bytes solid t) eqn:Ht; [|done]. by intros [= <-].
Qed.





