(* ===== verification/Registration.v ===== *)
(** * A worker that registers again

    The registration client of the broker against the handlers of the gateway
    and the store: what becomes of a worker in use whose heartbeat failed
    once. *)
From S2P Require Import Prelude Identity Lease FairQueue GuestProfile Volume Network Topology Snapshot WorkOrder Autoscale Protocol.
From S2P Require Import Placement PlacementProofs PlacementInvariant PlacementExample GatewayExample Verifier Signer Http GatewayAuth Gateway GatewayProofs Broker.
Import Topology.Topology Autoscale.Autoscale Protocol.Protocol Placement.Placement Verifier.Verifier Signer.Signer Http.Http GatewayAuth.GatewayAuth.
Import Gateway.Gateway.

(** A worker that is no longer clean. *)
Definition used (worker : WorkerId) (db : Db) : Prop :=
  ∃ row, workers db !! as_str worker = Some row ∧ worker_state row ≠ PwClean.

#[global] Instance stable_used worker : Stable (used worker).
Proof.
  intros db db' Hl (row & Hrow & Hs). destruct (later_workers _ _ Hl _ _ Hrow) as (row' & Hrow' & Hw).
  exists row'. split; [done|]. by apply (later_used _ _ Hw).
Qed.

Section registration.
Context {N Value : Type} `{Transport N, !StoreCodec Value, !GatewayCodec Value}.
Context `{SignatureCodec, SigningCodec, OperationCodec, HttpCrate, !StoreCodecLaws Value}.
Context (config : PlacementStoreConfig) (state : AppState).

Lemma register_used r now db db' : used (registered_worker r) db → Placement.register_worker config r now db ≠ (db', Ok tt).
Proof.
  intros (row & Hrow & Hs) Hrun. unfold Placement.register_worker in Hrun.
  apply M_bind_Ok_inv in Hrun as ([] & db0 & [= <- _] & Hrun). apply M_bind_Ok_inv in Hrun as (n & db0 & (-> & -> & _)%to_i64_Ok & Hrun).
  apply M_bind_Ok_inv in Hrun as (text & db0 & [= <- _] & Hrun). apply transaction_Ok in Hrun.
  apply M_bind_Ok_inv in Hrun as (k & db0 & Hup & Hrun). unfold upsert_worker in Hup. rewrite Hrow in Hup.
  unfold registers in Hup. rewrite (bool_decide_eq_false_2 _ Hs) in Hup. simpl in Hup. injection Hup as <- <-. discriminate.
Qed.

Context (Hlife : 0 ≤ lease_lifetime config).

(** What the handler of registrations does when it answers. *)
Lemma guards_register issuer base K `{!Stable K} headers request :
  guards (N := N) issuer base K (register_worker config state headers request)
    (λ _ db, K db ∧ ∃ r now, registered_worker r = advertised_worker request ∧ answered K (Placement.register_worker config r now) (Ok tt) db).
Proof.
  unfold register_worker. eapply guards_bind; [apply guards_lift|intros p; cbv beta]. apply guards_pure. intros _.
  eapply guards_bind; [apply guards_lift|intros []; cbv beta]. apply guards_pure. intros _.
  eapply guards_bind; [apply guards_lift|intros pool; cbv beta]. apply guards_pure. intros _.
  eapply guards_bind; [apply guards_reject|intros []; cbv beta]. apply guards_pure. intros _.
  eapply guards_bind; [apply guards_clock|intros now; cbv beta]. apply guards_pure. intros Hnow.
  eapply guards_bind; [apply guards_store; [done|apply _|]|intros []; cbv beta].
  { match goal with |- sound (Placement.register_worker _ ?r ?t) => by apply (sound_op config Hlife _ (DoRegister r t)) end. }
  apply guards_ret_of. intros db [HK Ha]. split; [done|]. eexists _, now. split; [|exact Ha]. done.
Qed.

Lemma register_worker_refused headers request (w w' : World N Value) status :
  ready w → used (advertised_worker request) (db w) → register_worker config state headers request w ≠ (w', Ok status).
Proof.
  intros Hr Hu Hrun.
  destruct (guards_run (λ _ _ _, True) (used (advertised_worker request)) _ _ _ _ _ (guards_register _ _ _ _ _) Hr Hu Hrun)
    as (_ & r & now & Hw & db1 & db2 & Hu1 & _ & _ & _ & _ & Hreg).
  rewrite <-Hw in Hu1. by apply (register_used _ _ _ _ Hu1) in Hreg.
Qed.

Lemma register_worker_later headers request (w w' : World N Value) status :
  ready w → register_worker config state headers request w = (w', Ok status) → later (db w) (db w') ∧ ready w'.
Proof.
  intros Hr Hrun. assert (Stable (later (db w))) as HK by (intros ? ? ? ?; by etrans).
  split; [apply (guards_run (λ _ _ _, True) (later (db w)) _ _ _ _ _ (guards_register _ _ _ _ _) Hr (reflexivity _) Hrun)|].
  destruct (kept_run (λ _ _ _, True) (register_worker config state headers request) w (length (sent w))) as [Hok Ho _ _].
  - by apply register_worker_kept.
  - by apply ready_Inv.
  - rewrite Hrun in Hok, Ho. by split.
Qed.

(** ** The rounds of the client *)

(** Other transactions and calls between two points of a run. *)
Definition evolves (w w' : World N Value) : Prop := later (db w) (db w') ∧ ready w'.

Context (client : Broker.RegistrationClient) (advertisement_json : WorkerAdvertisement → result string (list ascii)).
Context (gateway_exchange : string → list ascii → Z → World N Value → World N Value * result string (list ascii)).

Definition register_message (body : list ascii) : list ascii :=
  bytes (Broker.request_head client "/internal/v1/workers/register" body) ++ body.

(** An answer to a registration that the client accepts was given by the handler of the gateway, for its advertisement. *)
Definition carries : Prop := ∀ body limit w w' r,
  gateway_exchange (Broker.gateway_address client) (register_message body) limit w = (w', r) → ready w →
  evolves w w' ∧ ∀ answer, r = Ok answer → Broker.accepted answer = Ok tt →
    ∃ headers w1 w2 status, evolves w w1 ∧
      register_worker config state headers (Broker.advertisement client) w1 = (w2, Ok status).

(** Rounds of [run], each after a pause in which others change the world: what [registered] is after each. *)
Fixpoint registration_run (pauses : list (World N Value → World N Value)) (registered : bool) (w : World N Value) : list bool :=
  match pauses with
  | [] => []
  | pause :: pauses' =>
      let '(w', registered') := Broker.registration_round advertisement_json gateway_exchange client registered (pause w) in
      registered' :: registration_run pauses' registered' w'
  end.

(** What the broker answers to a check of its readiness then. *)
Definition readiness (self : Broker.BrokerState) (is_socket registered : bool) : result Broker.BrokerError Z :=
  Broker.broker_ready is_socket (Broker.require_registration registered self).

Lemma unregistered_round w : carries → ready w → used (advertised_worker (Broker.advertisement client)) (db w) →
  let '(w', registered) := Broker.registration_round advertisement_json gateway_exchange client false w in
  registered = false ∧ evolves w w'.
Proof.
  intros Hc Hr Hu. unfold Broker.registration_round, Broker.next_attempt.
  destruct (map_err _ (advertisement_json _)) as [body|e]; simpl; [|split; [done|split; [reflexivity|done]]].
  unfold Broker.send. cbn [Broker.attempt_path Broker.attempt_body].
  destruct (gateway_exchange _ _ _ w) as [w' r] eqn:Hx. destruct (Hc _ _ _ _ _ Hx Hr) as [He Ha]. split; [|done].
  destruct r as [answer|e]; [simpl|done]. destruct (Broker.accepted answer) as [[]|e] eqn:Hacc; [|done]. exfalso.
  destruct (Ha answer eq_refl Hacc) as (headers & w1 & w2 & status & [Hl Hr1] & Hreg).
  eapply register_worker_refused; [exact Hr1| |exact Hreg]. by apply (stable (K := used _) _ _ Hl).
Qed.

(** C38: A worker in use whose heartbeat failed once never heartbeats again: while its row is not clean, which it never
    becomes again, the client only tries to register, every attempt is refused, and the broker is not ready, whatever
    others do meanwhile. *)
Theorem failed_heartbeat_is_final self pauses w :
  carries → Forall (λ pause, ∀ v, ready v → evolves v (pause v)) pauses →
  ready w → used (advertised_worker (Broker.advertisement client)) (db w) →
  Forall (λ registered, registered = false ∧ ∀ is_socket, readiness self is_socket registered = Err Broker.BrokerUnavailable)
    (registration_run pauses false w).
Proof.
  intros Hc Hp. revert w. induction Hp as [|pause pauses Hpause _ IH]; intros w Hr Hu; [constructor|]. simpl.
  destruct (Hpause w Hr) as [Hl Hr']. pose proof (stable (K := used _) _ _ Hl Hu) as Hu'.
  pose proof (unregistered_round _ Hc Hr' Hu') as Hround. destruct (Broker.registration_round _ _ _ _ _) as [w' registered].
  destruct Hround as [-> [Hl' Hr'']]. constructor; [done|]. apply IH; [done|]. by apply (stable (K := used _) _ _ Hl').
Qed.
End registration.

(** ** A concrete client *)

#[local] Existing Instances ex_signature ex_signing ex_operations ex_http ex_transport ex_gateway.

Definition ex_advertisement : WorkerAdvertisement :=
  MkAdvertisement worker_1 "pool-1" "topology-1" "standard" "cohort-1" (Network.V4 1, 8081) ex_ceilings.
Definition ex_client : Broker.RegistrationClient :=
  Broker.MkClient "gateway:8080" ("Worker worker-key." +:+ ex_secret)%string ex_advertisement 5000 1000.
(** The handler answers what is sent to it, and a refusal leaves everything as it was. *)
Definition ex_registrar (address : string) (message : list ascii) (limit : Z) (w : World Z ()) : World Z () * result string (list ascii) :=
  match register_worker ex_config ex_state [("authorization", Broker.authorization ex_client)]%string ex_advertisement w with
  | (w', Ok _) => (w', Ok (bytes (as_lines ["HTTP/1.1 204 No Content"; EmptyString]%string)))
  | (_, Err _) => (w, Ok (bytes (as_lines ["HTTP/1.1 503 Service Unavailable"; EmptyString]%string)))
  end.

Lemma ex_registrar_carries : carries ex_config ex_state ex_client ex_registrar.
Proof.
  intros body limit w w' r Hx Hr. unfold ex_registrar in Hx. destruct (register_worker _ _ _ _ w) as [w1 [status|e]] eqn:Hrun.
  - injection Hx as <- <-. destruct (register_worker_later ex_config ex_state ltac:(done) _ _ _ _ _ Hr Hrun) as [Hl Hr'].
    split; [by split|]. intros _ _ _. do 4 eexists. split; [|exact Hrun]. split; [reflexivity|done].
  - injection Hx as <- <-. split; [by split|]. intros answer [= <-] Hacc. vm_compute in Hacc. discriminate.
Qed.

Lemma ex_serving_used : used worker_1 (db (ex_world 3000 serving_ops)).
Proof.
  destruct (workers (db (ex_world 3000 serving_ops)) !! as_str worker_1) as [row|] eqn:Hrow; [|vm_compute in Hrow; discriminate].
  exists row. split; [done|]. vm_compute in Hrow. injection Hrow as <-. discriminate.
Qed.

Lemma failed_heartbeat_is_final_witness :
  let run := registration_run ex_client (λ _, Ok []) ex_registrar (replicate 3 id) false (ex_world 3000 serving_ops) in
  length run = 3%nat ∧
  Forall (λ registered, registered = false ∧
            ∀ is_socket, readiness (Broker.MkBroker "/run/sandboxd.sock" 1000 None) is_socket registered = Err Broker.BrokerUnavailable) run.
Proof.
  split; [vm_compute; reflexivity|].
  refine (failed_heartbeat_is_final ex_config ex_state _ ex_client (λ _, Ok []) ex_registrar _ (replicate 3 id) (ex_world 3000 serving_ops)
    ex_registrar_carries _ _ ex_serving_used).
  - done.
  - apply Forall_replicate. intros v Hv. by split.
  - by apply ex_world_ready.
Defined.
