(* ===== verification/WorkerSlot.v ===== *)
(** * The worker slot

    Models [bins/sandboxd/src/worker.rs]: the single slot of a worker, its
    state machine, and the terminal marker on disk that retires the worker.
    Every method holds the slot's lock, so it is one atomic step.  [Instant]s
    are milliseconds of a monotonic clock; the calls of the file system that
    create the marker are modelled by their outcome. *)
From S2P Require Import Prelude Identity WorkOrder.
Import WorkOrder.WorkOrder.

Module WorkerSlot.

Record SlotState : Type := MkState {
  state : WorkerState;
  generation : Z;
  assignment : option SandboxKey;
  recycle_required : bool;
  clean_since : option Z
}.

(** The slot, with whether its marker file exists. *)
Record WorkerSlot : Type := MkSlot {
  marker : bool;
  shape : WorkerResourceShape;
  minimum_clean_age : Z;
  slot : SlotState
}.

Record WorkerStatus : Type := MkStatus {
  status_state : WorkerState;
  status_generation : Z;
  status_ready : bool;
  status_recycle_required : bool;
  resource_shape : WorkerResourceShape
}.

Abbreviation W := (M WorkerSlot SandboxError).

(** [{:?}]. *)
Definition state_debug (s : WorkerState) : string :=
  match s with
  | Starting => "Starting" | Clean => "Clean" | Leased => "Leased" | Running => "Running"
  | Draining => "Draining" | Cleaning => "Cleaning" | Quarantined => "Quarantined"
  end.

Definition invalid_transition (from to : WorkerState) : SandboxError :=
  Runtime ("invalid worker transition from " +:+ state_debug from +:+ " to " +:+ state_debug to).

Definition with_slot (x : SlotState) (s : WorkerSlot) : WorkerSlot :=
  MkSlot (marker s) (shape s) (minimum_clean_age s) x.
Definition with_marker (b : bool) (s : WorkerSlot) : WorkerSlot :=
  MkSlot b (shape s) (minimum_clean_age s) (slot s).

Definition set_assignment (a : option SandboxKey) (s : WorkerSlot) : WorkerSlot :=
  let x := slot s in
  with_slot (MkState (state x) (generation x) a (recycle_required x) (clean_since x)) s.
Definition set_recycle (b : bool) (s : WorkerSlot) : WorkerSlot :=
  let x := slot s in
  with_slot (MkState (state x) (generation x) (assignment x) b (clean_since x)) s.
Definition set_clean_since (t : option Z) (s : WorkerSlot) : WorkerSlot :=
  let x := slot s in
  with_slot (MkState (state x) (generation x) (assignment x) (recycle_required x) t) s.

(** [open]: [stat] is the outcome of [symlink_metadata] on the marker,
    [Ok true] when it exists and [Ok false] when it is not found. *)
Definition open (stat : result SandboxError bool) (worker_shape : WorkerResourceShape) (age : Z) :
    result SandboxError (option WorkerSlot) :=
  map_err (λ error, Runtime (core_error_to_string error)) (validate_shape worker_shape);;
  exists_ ← stat;
  if (exists_ : bool) then mret None
  else mret (Some (MkSlot false worker_shape age (MkState Starting 0 None false None))).

Definition set_state (next : WorkerState) : W () :=
  self ← M_get;
  let x := slot self in
  g ← M_lift (ok_or (Runtime "worker state generation overflow") (u64_checked_add (generation x) 1));
  M_put (with_slot (MkState next g (assignment x) (recycle_required x)
                      (match next with Clean => clean_since x | _ => None end)) self).

Definition require_assignment (key : SandboxKey) : W () :=
  self ← M_get;
  M_reject_if (negb (bool_decide (assignment (slot self) = Some key)))
    (Runtime "worker slot assignment does not match the request").

(** [WorkerSlot::is_ready] at the time [now]. *)
Definition slot_is_ready (now : Z) (s : WorkerSlot) : bool :=
  is_ready (state (slot s))
  && match clean_since (slot s) with
     | Some since => minimum_clean_age s <=? saturating_sub now since
     | None => false
     end.

Definition mark_clean (now : Z) : W () :=
  self ← M_get;
  M_reject_if (negb (bool_decide (state (slot self) = Starting)))
    (invalid_transition (state (slot self)) Clean);;
  set_state Clean;;
  M_modify (set_clean_since (Some now)).

Definition lease (now : Z) (key : SandboxKey) : W () :=
  self ← M_get;
  M_reject_if (negb (slot_is_ready now self) || bool_decide (is_Some (assignment (slot self))))
    (Runtime ("worker slot is not available: state is " +:+ state_debug (state (slot self))));;
  M_modify (set_assignment (Some key));;
  set_state Leased.

Definition transition (key : option SandboxKey) (expected next : WorkerState) : W () :=
  match key with Some key => require_assignment key | None => mret tt end;;
  self ← M_get;
  M_reject_if (negb (bool_decide (state (slot self) = expected)))
    (invalid_transition (state (slot self)) next);;
  set_state next.

Definition mark_running (key : SandboxKey) : W () := transition (Some key) Leased Running.
Definition begin_draining (key : SandboxKey) : W () := transition (Some key) Running Draining.
Definition begin_cleaning (key : SandboxKey) : W () := transition (Some key) Draining Cleaning.
Definition cancel_draining (key : SandboxKey) : W () := transition (Some key) Draining Running.

(** The outcome of the I/O of [persist_terminal]: all calls succeed; the
    metadata call fails; a call up to the rename fails, so that there is no
    marker; the rename succeeds and the directory sync fails. *)
Inductive marker_io : Type :=
| MarkerOk
| MetadataFailed (error : SandboxError)
| BeforeRename (error : SandboxError)
| AfterRename (error : SandboxError).

Definition persist_terminal (io : marker_io) : W () :=
  self ← M_get;
  match io with
  | MetadataFailed error => M_fail error
  | _ =>
      if marker self then mret tt
      else match io with
           | BeforeRename error => M_fail error
           | AfterRename error => M_modify (with_marker true);; M_fail error
           | _ => M_modify (with_marker true)
           end
  end.

Definition recycle_clean (io : marker_io) (key : SandboxKey) : W () :=
  require_assignment key;;
  self ← M_get;
  M_reject_if (negb (bool_decide (state (slot self) = Cleaning)))
    (invalid_transition (state (slot self)) Cleaning);;
  persist_terminal io;;
  M_modify (set_recycle true).

Definition quarantine (io : marker_io) (key : option SandboxKey) : W () :=
  match key with Some key => require_assignment key | None => mret tt end;;
  self ← M_get;
  if bool_decide (state (slot self) = Quarantined) then M_modify (set_recycle true)
  else
    set_state Quarantined;;
    persist_terminal io;;
    M_modify (set_recycle true).

Definition status (now : Z) (s : WorkerSlot) : WorkerStatus :=
  MkStatus (state (slot s)) (generation (slot s)) (slot_is_ready now s) (recycle_required (slot s)) (shape s).

End WorkerSlot.
Import WorkerSlot.

(** ** Runs of one process *)

Inductive slot_op : Type :=
| DoMarkClean (now : Z)
| DoLease (now : Z) (key : SandboxKey)
| DoMarkRunning (key : SandboxKey)
| DoBeginDraining (key : SandboxKey)
| DoBeginCleaning (key : SandboxKey)
| DoCancelDraining (key : SandboxKey)
| DoRecycle (io : marker_io) (key : SandboxKey)
| DoQuarantine (io : marker_io) (key : option SandboxKey).

Definition do_op (o : slot_op) : M WorkerSlot SandboxError () :=
  match o with
  | DoMarkClean now => mark_clean now
  | DoLease now key => lease now key
  | DoMarkRunning key => mark_running key
  | DoBeginDraining key => begin_draining key
  | DoBeginCleaning key => begin_cleaning key
  | DoCancelDraining key => cancel_draining key
  | DoRecycle io key => recycle_clean io key
  | DoQuarantine io key => quarantine io key
  end.

Definition op_key (o : slot_op) : option SandboxKey :=
  match o with
  | DoMarkClean _ => None
  | DoLease _ key | DoMarkRunning key | DoBeginDraining key | DoBeginCleaning key | DoCancelDraining key
  | DoRecycle _ key => Some key
  | DoQuarantine _ key => key
  end.

Fixpoint do_ops (os : list slot_op) (s : WorkerSlot) : WorkerSlot * list (result SandboxError ()) :=
  match os with
  | [] => (s, [])
  | o :: os' => let '(s1, r) := do_op o s in let '(s2, rs) := do_ops os' s1 in (s2, r :: rs)
  end.

(** ** What no operation undoes

    The assignment is set once, the marker is never removed, and the shape
    and clean age are fixed. *)
Definition advances (s t : WorkerSlot) : Prop :=
  (assignment (slot s) = None ∨ assignment (slot t) = assignment (slot s)) ∧
  (marker s = true → marker t = true) ∧
  shape t = shape s ∧ minimum_clean_age t = minimum_clean_age s.

#[global] Instance advances_preorder : PreOrder advances.
Proof.
  split; [intros s; unfold advances; tauto|]. intros s t u (Ha & Hm & Hs & Hc) (Ha' & Hm' & Hs' & Hc').
  unfold advances. split_and!; [|tauto|congruence|congruence].
  destruct Ha as [Ha|Ha]; [by left|]. destruct Ha' as [Ha'|Ha']; [left|right]; congruence.
Qed.

Lemma set_state_advances next : keeps advances (set_state next).
Proof.
  intros s. unfold set_state, advances. unfold_M.
  destruct (u64_checked_add (generation (slot s)) 1); simpl; tauto.
Qed.

Lemma persist_terminal_advances io : keeps advances (persist_terminal io).
Proof.
  intros s. unfold persist_terminal, advances. unfold_M.
  destruct io; simpl; try (destruct (marker s) eqn:Hm; simpl); intuition congruence.
Qed.

Lemma set_recycle_advances b s : advances s (set_recycle b s).
Proof. unfold advances. simpl. tauto. Qed.
Lemma set_clean_since_advances t s : advances s (set_clean_since t s).
Proof. unfold advances. simpl. tauto. Qed.

Lemma require_assignment_advances key : keeps advances (require_assignment key).
Proof. unfold require_assignment. auto with keeps typeclass_instances. Qed.

#[global] Hint Resolve set_state_advances persist_terminal_advances set_recycle_advances
  set_clean_since_advances require_assignment_advances : keeps.

Lemma transition_advances key expected next : keeps advances (transition key expected next).
Proof. unfold transition. destruct key; auto 8 with keeps typeclass_instances. Qed.

#[global] Hint Resolve transition_advances : keeps.

Lemma lease_advances now key : keeps advances (lease now key).
Proof.
  intros s. unfold lease. unfold_M.
  destruct (negb (slot_is_ready now s) || _) eqn:Hg; [reflexivity|].
  apply orb_false_iff in Hg as [_ Hg%bool_decide_eq_false].
  etrans; [|apply set_state_advances]. unfold advances. simpl. split_and!; try done.
  left. by apply eq_None_not_Some.
Qed.

Lemma do_op_advances o : keeps advances (do_op o).
Proof.
  destruct o as [| | | | | |io key|io [key|]]; cbn [do_op];
    unfold mark_clean, mark_running, begin_draining, begin_cleaning, cancel_draining, recycle_clean, quarantine;
    try apply lease_advances; eauto 12 with keeps typeclass_instances.
  all: repeat (apply keeps_bind; [apply _|eauto with keeps typeclass_instances|intros ?]).
  all: case_bool_decide; eauto 12 with keeps typeclass_instances.
Qed.

(** A slot that has left the pool of clean workers. *)
Definition taken (s : WorkerSlot) : Prop := state (slot s) ≠ Starting ∧ state (slot s) ≠ Clean.
Definition keeps_taken (s t : WorkerSlot) : Prop := taken s → taken t.

#[global] Instance keeps_taken_preorder : PreOrder keeps_taken.
Proof. split; unfold keeps_taken; [intros s|intros s t u]; tauto. Qed.

Lemma set_state_taken next : next ≠ Starting → next ≠ Clean → keeps keeps_taken (set_state next).
Proof.
  intros H1 H2 s. unfold set_state. unfold_M.
  destruct (u64_checked_add (generation (slot s)) 1); simpl; unfold keeps_taken, taken; simpl; tauto.
Qed.

Lemma persist_terminal_slot io s : slot (persist_terminal io s).1 = slot s.
Proof. unfold persist_terminal. unfold_M. by destruct io, (marker s). Qed.

Lemma transition_taken key expected next :
  next ≠ Starting → next ≠ Clean → keeps keeps_taken (transition key expected next).
Proof.
  intros H1 H2. unfold transition, require_assignment.
  destruct key; eauto 12 using set_state_taken with keeps typeclass_instances.
Qed.

Lemma persist_terminal_taken io : keeps keeps_taken (persist_terminal io).
Proof. intros s. unfold keeps_taken, taken. by rewrite persist_terminal_slot. Qed.

Lemma modify_taken f : (∀ s, state (slot (f s)) = state (slot s)) → keeps (E := SandboxError) keeps_taken (M_modify f).
Proof. intros Hf s. unfold keeps_taken, taken. simpl. by rewrite Hf. Qed.

Lemma do_op_taken o : keeps keeps_taken (do_op o).
Proof.
  destruct o as [now|now key| | | | |io key|io key]; cbn [do_op];
    unfold mark_running, begin_draining, begin_cleaning, cancel_draining;
    try by apply transition_taken.
  - intros s. unfold mark_clean. unfold_M. case_bool_decide as Hs; simpl; [|reflexivity].
    intros [Habs _]. by destruct Habs.
  - intros s. unfold lease. unfold_M. destruct (_ || _); [reflexivity|].
    etrans; [|by apply set_state_taken]. unfold keeps_taken, taken. simpl. tauto.
  - unfold recycle_clean, require_assignment.
    eauto 12 using persist_terminal_taken, modify_taken with keeps typeclass_instances.
  - unfold quarantine, require_assignment.
    apply keeps_bind; [apply _|destruct key; eauto with keeps typeclass_instances|intros _].
    apply keeps_bind; [apply _|eauto with keeps typeclass_instances|intros self].
    case_bool_decide; [by apply modify_taken|].
    eauto 12 using persist_terminal_taken, modify_taken, set_state_taken with keeps typeclass_instances.
Qed.

(** ** What a success says *)

Lemma set_state_Ok next s s' :
  set_state next s = (s', Ok tt) → state (slot s') = next ∧ assignment (slot s') = assignment (slot s).
Proof.
  unfold set_state. unfold_M. destruct (u64_checked_add (generation (slot s)) 1); [|done].
  by intros [= <-].
Qed.

Lemma lease_Ok now key s s' :
  lease now key s = (s', Ok tt) →
  assignment (slot s) = None ∧ assignment (slot s') = Some key ∧ state (slot s') = Leased ∧
  slot_is_ready now s = true.
Proof.
  unfold lease. intros Hrun. apply M_bind_Ok_inv in Hrun as (self & s1 & [= <- <-] & Hrun).
  apply M_bind_Ok_inv in Hrun as ([] & s1 & [= <- Hg] & Hrun).
  destruct (negb (slot_is_ready now s) || _) eqn:Htest; [done|].
  apply orb_false_iff in Htest as [Hready%negb_false_iff Hnone%bool_decide_eq_false].
  apply M_bind_Ok_inv in Hrun as ([] & s2 & [= <-] & Hrun). apply set_state_Ok in Hrun as [Hst Has].
  split_and!; [by apply eq_None_not_Some|done|done|done].
Qed.

(** A refused lease changes nothing while the generation can be counted. *)
Lemma lease_refused now key s s' e :
  generation (slot s) < u64_max → lease now key s = (s', Err e) → s' = s.
Proof.
  intros Hg. unfold lease. unfold_M. destruct (negb (slot_is_ready now s) || _); [by intros [= <- _]|].
  unfold set_state. unfold_M.
  rewrite (proj2 (checked_add_Some u64_max (generation (slot s)) 1 (generation (slot s) + 1))) by lia. done.
Qed.

Lemma require_assignment_Ok key s s' :
  require_assignment key s = (s', Ok tt) → s' = s ∧ assignment (slot s) = Some key.
Proof. unfold require_assignment. unfold_M. case_bool_decide; [|done]. by intros [= <-]. Qed.

(** An operation that names a sandbox succeeds only for the assigned one. *)
Lemma do_op_key o key s s' :
  do_op o s = (s', Ok tt) → op_key o = Some key → assignment (slot s') = Some key.
Proof.
  intros Hrun Hkey. pose proof (do_op_advances o s) as (Ha & _). rewrite Hrun in Ha. simpl in Ha.
  assert (assignment (slot s) = Some key → assignment (slot s') = Some key) as Hkeep by (destruct Ha; congruence).
  destruct o as [|now k| | | | |io k|io k]; simplify_eq/=; [by destruct (lease_Ok _ _ _ _ Hrun) as (_ & ? & _)|..]; apply Hkeep;
    unfold mark_running, begin_draining, begin_cleaning, cancel_draining, transition, recycle_clean, quarantine in Hrun;
    apply M_bind_Ok_inv in Hrun as ([] & s1 & Hr%require_assignment_Ok & _); apply Hr.
Qed.

(** A quarantine requested for the assigned sandbox takes effect, whatever
    the marker file does; only an exhausted generation counter prevents it. *)
Definition out_of_service (s : WorkerSlot) : Prop :=
  state (slot s) = Quarantined ∨ u64_max ≤ generation (slot s).

Lemma quarantine_out_of_service io key s :
  assignment (slot s) = Some key → out_of_service (quarantine io (Some key) s).1.
Proof.
  intros Ha. unfold quarantine, require_assignment, out_of_service. unfold_M.
  rewrite (bool_decide_true _ Ha). simpl.
  destruct (decide (state (slot s) = Quarantined)) as [Hq|Hq];
    [rewrite (bool_decide_true _ Hq) | rewrite (bool_decide_false _ Hq)]; [by left|].
  unfold set_state. unfold_M. destruct (u64_checked_add (generation (slot s)) 1) as [g|] eqn:Hg; simpl.
  - left. match goal with |- context [persist_terminal io ?t] =>
      pose proof (persist_terminal_slot io t) as Hs; destruct (persist_terminal io t) as [t' [[]|e]] end;
      simpl in *; by rewrite Hs.
  - right. destruct (Z_lt_le_dec (generation (slot s)) u64_max); [|done].
    rewrite (proj2 (checked_add_Some u64_max (generation (slot s)) 1 (generation (slot s) + 1))) in Hg; [done|lia].
Qed.

Lemma transition_Ok key expected next s s' :
  transition (Some key) expected next s = (s', Ok tt) →
  assignment (slot s) = Some key ∧ state (slot s) = expected ∧
  assignment (slot s') = Some key ∧ state (slot s') = next.
Proof.
  unfold transition. intros Hrun.
  apply M_bind_Ok_inv in Hrun as ([] & s1 & [-> Ha]%require_assignment_Ok & Hrun).
  apply M_bind_Ok_inv in Hrun as (self & s2 & [= <- <-] & Hrun).
  apply M_bind_Ok_inv in Hrun as ([] & s2 & [= <- Hst] & Hrun).
  case_bool_decide; [|done]. apply set_state_Ok in Hrun as [Hn Ha']. split_and!; congruence.
Qed.

Lemma persist_terminal_Ok io s s' : persist_terminal io s = (s', Ok tt) → marker s' = true.
Proof.
  unfold persist_terminal. unfold_M. destruct io, (marker s) eqn:Hm; intros [= <-]; done.
Qed.

Lemma recycle_clean_Ok io key s s' :
  recycle_clean io key s = (s', Ok tt) →
  assignment (slot s') = Some key ∧ state (slot s') = Cleaning ∧ marker s' = true ∧ recycle_required (slot s') = true.
Proof.
  unfold recycle_clean. intros Hrun.
  apply M_bind_Ok_inv in Hrun as ([] & s1 & [-> Ha]%require_assignment_Ok & Hrun).
  apply M_bind_Ok_inv in Hrun as (self & s2 & [= <- <-] & Hrun).
  apply M_bind_Ok_inv in Hrun as ([] & s2 & [= <- Hst] & Hrun). case_bool_decide; [|done].
  apply M_bind_Ok_inv in Hrun as ([] & s2 & Hp & [= <-]). simpl.
  pose proof (persist_terminal_slot io s) as Hs. rewrite Hp in Hs. simpl in Hs. rewrite Hs.
  by apply persist_terminal_Ok in Hp.
Qed.

(** ** Runs *)

Lemma do_ops_app os1 os2 s :
  do_ops (os1 ++ os2) s =
    let '(s1, rs1) := do_ops os1 s in let '(s2, rs2) := do_ops os2 s1 in (s2, rs1 ++ rs2).
Proof.
  revert s. induction os1 as [|o os1 IH]; intros s; simpl; [by destruct (do_ops os2 s)|].
  destruct (do_op o s) as [s1 r]. rewrite IH. destruct (do_ops os1 s1) as [s2 rs]. by destruct (do_ops os2 s2).
Qed.

Lemma do_ops_length os s s' rs : do_ops os s = (s', rs) → length rs = length os.
Proof.
  revert s rs. induction os as [|o os IH]; intros s rs; simpl; [by intros [= <- <-]|].
  destruct (do_op o s) as [s1 r]. destruct (do_ops os s1) as [s2 rs'] eqn:Hrun. intros [= <- <-].
  simpl. f_equal. by eapply IH.
Qed.

Lemma do_ops_keeps (R : relation WorkerSlot) `{!PreOrder R} os s s' rs :
  (∀ o, keeps R (do_op o)) → do_ops os s = (s', rs) → R s s'.
Proof.
  intros HR. revert s rs. induction os as [|o os IH]; intros s rs; simpl; [intros [= <- <-]; reflexivity|].
  specialize (HR o s). destruct (do_op o s) as [s1 r]. destruct (do_ops os s1) as [s2 rs'] eqn:Hrun.
  intros [= <- <-]. etrans; [exact HR|by eapply IH].
Qed.

(** The operation at a position of a run, and the states around it. *)
Lemma do_ops_at os s s' rs i o r :
  do_ops os s = (s', rs) → os !! i = Some o → rs !! i = Some r →
  ∃ t t', do_ops (take i os) s = (t, take i rs) ∧ do_op o t = (t', r) ∧
    do_ops (drop (S i) os) t' = (s', drop (S i) rs).
Proof.
  revert os s rs. induction i as [|i IH]; intros [|o' os] s rs Hrun Ho Hr; try done; simpl in Hrun;
    destruct (do_op o' s) as [s1 r1] eqn:Hop; destruct (do_ops os s1) as [s2 rs2] eqn:Hrest;
    injection Hrun as <- <-; simpl in Ho, Hr.
  - simplify_eq. exists s, s1. by rewrite ?skipn_O.
  - destruct (IH os s1 rs2 Hrest Ho Hr) as (t & t' & Ht & Hdo & Hd). exists t, t'.
    simpl. rewrite Hop, Ht. done.
Qed.

(** A worker process serves one assignment.  From any state of the
    slot, over any sequence of operations with any I/O outcomes, at most one lease
    is granted, every operation on behalf of a sandbox that succeeds is for
    one and the same sandbox, and from the granted lease on the slot is never
    ready again. *)
Theorem worker_serves_one_assignment s0 os s rs :
  do_ops os s0 = (s, rs) →
  (∃ a, ∀ (i : nat) o key, os !! i = Some o → rs !! i = Some (Ok tt) → op_key o = Some key → a = Some key) ∧
  (∀ (i j : nat) now now' key key', os !! i = Some (DoLease now key) → os !! j = Some (DoLease now' key') →
     rs !! i = Some (Ok tt) → rs !! j = Some (Ok tt) → i = j) ∧
  (∀ (i : nat) now key, os !! i = Some (DoLease now key) → rs !! i = Some (Ok tt) →
     ∀ later, slot_is_ready later s = false).
Proof.
  intros Hrun. split_and!.
  - exists (assignment (slot s)). intros i o key Ho Hr Hkey.
    destruct (do_ops_at _ _ _ _ _ _ _ Hrun Ho Hr) as (t & t' & _ & Hdo & Hrest).
    pose proof (do_op_key _ _ _ _ Hdo Hkey) as Ht'.
    destruct (do_ops_keeps advances _ _ _ _ do_op_advances Hrest) as [Ha _]. destruct Ha; congruence.
  - cut (∀ (i j : nat) now now' key key', os !! i = Some (DoLease now key) → os !! j = Some (DoLease now' key') →
      rs !! i = Some (Ok tt) → rs !! j = Some (Ok tt) → ¬ (i < j)%nat).
    { intros Hlt i j now now' key key' Hi Hj Hri Hrj.
      pose proof (Hlt i j now now' key key' Hi Hj Hri Hrj). pose proof (Hlt j i now' now key' key Hj Hi Hrj Hri). lia. }
    intros i j now now' key key' Hi Hj Hri Hrj Hlt.
    destruct (do_ops_at _ _ _ _ _ _ _ Hrun Hi Hri) as (t & t' & _ & Hdo%lease_Ok & Hrest).
    assert (drop (S i) os !! (j - S i)%nat = Some (DoLease now' key')) as Hj'.
    { rewrite lookup_drop. by replace (S i + (j - S i))%nat with j by lia. }
    assert (drop (S i) rs !! (j - S i)%nat = Some (Ok tt)) as Hrj'.
    { rewrite lookup_drop. by replace (S i + (j - S i))%nat with j by lia. }
    destruct (do_ops_at _ _ _ _ _ _ _ Hrest Hj' Hrj') as (u & u' & Hbefore & Hdo'%lease_Ok & _).
    destruct (do_ops_keeps advances _ _ _ _ do_op_advances Hbefore) as [Ha _]. destruct Hdo as (_ & Hk & _).
    destruct Hdo' as [Hn _]. destruct Ha; congruence.
  - intros i now key Hi Hr later.
    destruct (do_ops_at _ _ _ _ _ _ _ Hrun Hi Hr) as (t & t' & _ & Hdo%lease_Ok & Hrest).
    destruct Hdo as (_ & _ & Hst & _).
    destruct (do_ops_keeps keeps_taken _ _ _ _ do_op_taken Hrest) as [_ Hnc].
    { unfold taken. rewrite Hst. done. }
    unfold slot_is_ready, is_ready. by destruct (state (slot s)).
Qed.

Lemma quarantine_Ok io key s s' :
  quarantine io key s = (s', Ok tt) → state (slot s) ≠ Quarantined → marker s' = true.
Proof.
  unfold quarantine. intros Hrun Hst.
  apply M_bind_Ok_inv in Hrun as ([] & s1 & Hreq & Hrun).
  assert (s1 = s) as -> by (destruct key; [by apply require_assignment_Ok in Hreq as [-> _]|by injection Hreq as <-]).
  apply M_bind_Ok_inv in Hrun as (self & s1 & [= <- <-] & Hrun). case_bool_decide; [done|].
  inv_ok Hrun. match goal with H : persist_terminal _ _ = _ |- _ => destruct a0; apply persist_terminal_Ok in H as Hm end.
  by injection Hrun as <-.
Qed.

(** A worker that was retired never comes back.  Once a finished
    assignment has been recycled, or a slot that was not yet quarantined has
    been quarantined, and the operation reported success, the marker is on
    disk whatever happens later, and every later start of the worker finds it
    and declines to serve. *)
Theorem retired_worker_never_reopens o s1 s2 os s3 rs sh age :
  do_op o s1 = (s2, Ok tt) →
  ((∃ io key, o = DoRecycle io key) ∨ ((∃ io key, o = DoQuarantine io key) ∧ state (slot s1) ≠ Quarantined)) →
  do_ops os s2 = (s3, rs) →
  validate_shape sh = Ok tt →
  marker s3 = true ∧ open (Ok (marker s3)) sh age = Ok None.
Proof.
  intros Hop Ho Hrun Hsh.
  assert (marker s2 = true) as Hm.
  { destruct Ho as [(io & key & ->)|[(io & key & ->) Hst]]; simpl in Hop;
      [by apply recycle_clean_Ok in Hop as (_ & _ & ? & _)|by eapply quarantine_Ok]. }
  destruct (do_ops_keeps advances _ _ _ _ do_op_advances Hrun) as (_ & Hkeep & _).
  split; [auto|]. rewrite (Hkeep Hm). unfold open. by rewrite Hsh.
Qed.

(** ** A worker of concrete shape *)

Definition w_shape : WorkerResourceShape := MkShape 1 "standard" 2000 268435456 512 1073741824 8.
Definition w_slot : WorkerSlot := MkSlot false w_shape 10 (MkState Starting 0 None false None).
Definition w_tenant : TenantId := id_lit "tenant-a".
Definition w_workspace : WorkspaceId := id_lit "team-a".
Definition w_sandbox_id : SandboxId := id_lit "sandbox-a".
Definition w_slot_key : SandboxKey := Key (Scope w_tenant w_workspace) w_sandbox_id.
Definition w_life : list slot_op :=
  [DoMarkClean 0; DoLease 10 w_slot_key; DoMarkRunning w_slot_key; DoBeginDraining w_slot_key;
   DoBeginCleaning w_slot_key; DoRecycle MarkerOk w_slot_key; DoLease 50 w_slot_key].

Lemma worker_serves_one_assignment_witness :
  (do_ops w_life w_slot).2 !! 1%nat = Some (Ok tt) ∧
  slot_is_ready 1000 (do_ops w_life w_slot).1 = false.
Proof.
  split; [vm_compute; reflexivity|].
  refine (proj2 (proj2 (worker_serves_one_assignment w_slot w_life _ _ (surjective_pairing _))) 1%nat 10 w_slot_key _ _ 1000).
  - reflexivity.
  - vm_compute. reflexivity.
Defined.

Lemma retired_worker_never_reopens_witness :
  let s1 := (do_ops (take 5 w_life) w_slot).1 in
  let s2 := (do_op (DoRecycle MarkerOk w_slot_key) s1).1 in
  open (Ok (marker s2)) w_shape 10 = Ok None.
Proof.
  cbv zeta.
  refine (proj2 (retired_worker_never_reopens (DoRecycle MarkerOk w_slot_key) (do_ops (take 5 w_life) w_slot).1 _ []
            (do_op (DoRecycle MarkerOk w_slot_key) (do_ops (take 5 w_life) w_slot).1).1 [] w_shape 10 _ _ _ _)).
  - apply M_run. vm_compute. reflexivity.
  - left. eauto.
  - reflexivity.
  - vm_compute. reflexivity.
Defined.

(** A quarantine that is tried again hides that its marker was never
    written.  There is a run in which [quarantine] fails because the marker
    could not be written, a second [quarantine] reports success and asks for
    recycling, and still there is no marker: the next start of the worker
    opens a fresh slot. *)
Theorem quarantine_retry_loses_marker :
  ∃ e s, do_ops [DoMarkClean 0; DoLease 10 w_slot_key;
                 DoQuarantine (BeforeRename e) (Some w_slot_key); DoQuarantine MarkerOk (Some w_slot_key)] w_slot
         = (s, [Ok tt; Ok tt; Err e; Ok tt]) ∧
    recycle_required (slot s) = true ∧ marker s = false ∧
    open (Ok (marker s)) w_shape 10 = Ok (Some w_slot).
Proof. exists (Io "marker" "no space left"). eexists. split_and!; vm_compute; reflexivity. Qed.
