(* ===== verification/Admission.v ===== *)
(** * Admission of topologies

    Models [bins/sandboxd/src/service/admission.rs] and
    [ImageProvider::admit] of [crates/sandbox-oci/src/provider/mod.rs]: a
    worker accepts a topology when it fits the worker's shape, its images are
    admitted and its volume destinations are directories of the admitted
    roots.  The image provider's own operations, the volume provider's
    capabilities and the file system are parameters. *)
From S2P Require Import Prelude Identity GuestProfile Volume Network Topology WorkOrder Compiler.
Import GuestProfile.GuestProfile WorkOrder.WorkOrder Volume.Volume Topology.Topology.

Module Admission.

(** [crates/sandbox-oci/src/provider/handle.rs] *)
Record PreparedImageHandle : Type := MkPrepared {
  prepared_provider : string;
  prepared_activation_key : string;
  prepared_image : LockedImage
}.

Record ImmutableRootfs : Type := MkRootfs {
  rootfs_provider : string;
  activation_key : string;
  rootfs_image : LockedImage;
  rootfs : string;
  rootfs_digest : string;
  rootfs_entries : Z;
  rootfs_bytes : Z
}.

(** The operations that an image provider implements, on its state (the
    content store and the mounts); [clock_millis] reads the clock. *)
Class ImageProvider (P : Type) : Type := {
  verify : LockedImage → M P SandboxError ();
  unpack : LockedImage → M P SandboxError ();
  activate : LockedImage → M P SandboxError PreparedImageHandle;
  mount : PreparedImageHandle → M P SandboxError ImmutableRootfs;
  clock_millis : P → Z
}.

Definition image_admit `{ImageProvider P} (image : LockedImage) : M P SandboxError ImmutableRootfs :=
  verify image;;
  unpack image;;
  activated ← activate image;
  mount activated.

(** [VolumeProviderCapabilities]. *)
Record VolumeProviderCapabilities : Type := MkVolumeCapabilities {
  persistence_classes : list VolumePersistenceClass;
  snapshot : bool;
  clone : bool;
  capability_portability : SnapshotPortability
}.

(** [fs::canonicalize] and [Path::is_dir]. *)
Class FileSystem : Type := {
  canonicalize : string → result string string;
  is_dir : string → bool
}.

(** [Path::join] and [Path::starts_with], on components. *)
Definition path_join (base path : string) : string :=
  if starts_with "/" path then path
  else if bool_decide (base = EmptyString) || ends_with "/" base then base +:+ path
  else base +:+ "/" +:+ path.

Definition path_starts_with (path base : string) : bool :=
  bool_decide (path_components base `prefix_of` path_components path).

(** What admission reads and writes of the daemon's state; the counters are
    [u64] and [u128] numbers that do not overflow in practice. *)
Record AdmissionState (P : Type) : Type := MkAdmission {
  provider : P;
  cache : gmap string ImmutableRootfs;
  cache_hits : Z;
  cache_misses : Z;
  admission_ms : Z
}.
#[global] Arguments MkAdmission {P}.
#[global] Arguments provider {P}.
#[global] Arguments cache {P}.
#[global] Arguments cache_hits {P}.
#[global] Arguments cache_misses {P}.
#[global] Arguments admission_ms {P}.

(** What does not change while the daemon runs. *)
Record WorkerProfile : Type := MkWorkerProfile {
  worker_shape : WorkerResourceShape;
  installed_profiles : list GuestProfile;
  volume_capabilities : VolumeProviderCapabilities
}.

Definition writable_services (topology : TopologyLock) : Z :=
  length_z (filter (λ s, root_filesystem s = Writable) (btree_values (services topology))).

Fixpoint sum_demands (total : Z) (vs : list LockedVolume) : result SandboxError Z :=
  match vs with
  | [] => mret total
  | v :: vs' =>
      if bool_decide (locked_class v = Artifact) then sum_demands total vs'
      else
        total ← ok_or (Lock "volume demand overflow") (u64_checked_add total (locked_quota v));
        sum_demands total vs'
  end.

(** [usize] has 64 bits, so its conversions to [u64] succeed. *)
Definition resource_demand (topology : TopologyLock) : result SandboxError SandboxResourceDemand :=
  let services := Z.of_nat (size (services topology)) in
  let p := policy topology in
  reject_if (u16_max <? services) (Lock "service count exceeds worker policy");;
  cpu_millis ← ok_or (Lock "aggregate CPU demand overflow")
    (u64_checked_mul services (cpu_per_service_millis p));
  memory_per_service ← ok_or (Lock "aggregate memory demand overflow")
    (u64_checked_add (memory_bytes_per_service p) (tmpfs_bytes p));
  memory_bytes ← ok_or (Lock "aggregate memory demand overflow")
    (u64_checked_mul services memory_per_service);
  pids ← ok_or (Lock "aggregate PID demand overflow") (u64_checked_mul services (pids_per_service p));
  writable_roots ← ok_or (Lock "writable-root demand overflow")
    (u64_checked_mul (writable_services topology) (writable_root_bytes_per_service p));
  volume_bytes ← sum_demands 0 (btree_values (volumes topology));
  ephemeral_storage_bytes ← ok_or (Lock "ephemeral-storage demand overflow")
    (total ← u64_checked_add writable_roots volume_bytes;
     u64_checked_add total (maximum_output_bytes p));
  mret (MkDemand services cpu_millis memory_bytes pids ephemeral_storage_bytes).

(** [{:?}]. *)
Definition class_debug (c : VolumePersistenceClass) : string :=
  match c with
  | Ephemeral => "Ephemeral" | Persistent => "Persistent" | Artifact => "Artifact" | Secret => "Secret"
  end.

Definition validate_volume_capabilities (c : VolumeProviderCapabilities) (topology : TopologyLock) :
    result SandboxError () :=
  for_each (λ v,
      reject_if (negb (bool_decide (locked_class v ∈ persistence_classes c)))
        (Unsupported ("volume provider does not support " +:+ class_debug (locked_class v) +:+ " volumes"));;
      reject_if (match locked_class v with Ephemeral | Persistent => true | _ => false end
                 && negb (bool_decide (locked_policy v = Excluded)) && negb (snapshot c))
        (Unsupported "named-volume snapshots require CHOWN and DAC_OVERRIDE or idmapped storage"))
    (btree_values (volumes topology)).

Section code.
Context `{TopologyCodec, FileSystem}.

Definition validate_destination_in (root service_name : string) (v : VolumeSpec) : result SandboxError () :=
  relative ← ok_or (Lock ("volume destination `" +:+ destination v +:+ "` is not absolute"))
    (strip_prefix "/" (destination v));
  dest ← map_err (λ _ : string, Unsupported ("volume destination `" +:+ destination v
      +:+ "` does not exist in the admitted image for service `" +:+ service_name +:+ "`"))
    (canonicalize (path_join root relative));
  reject_if (negb (path_starts_with dest root) || negb (is_dir dest))
    (Unsupported ("volume destination `" +:+ destination v
      +:+ "` is not a safe directory in the admitted image for service `" +:+ service_name +:+ "`")).

Definition validate_service_destinations (images : gmap string ImmutableRootfs) (service_name : string)
    (service : LockedService) : result (failure SandboxError) () :=
  admitted ← expect "no entry found for key" (images !! image_id (Topology.image service));
  root ← map_err (λ error, Rejected (Runtime ("canonicalize admitted root for service `" +:+ service_name
      +:+ "`: " +:+ error))) (canonicalize (rootfs admitted));
  map_err Rejected (for_each (validate_destination_in root service_name) (service_volumes service)).

Definition validate_volume_destinations (topology : TopologyLock) (images : gmap string ImmutableRootfs) :
    result (failure SandboxError) () :=
  for_each (λ '(service_name, service), validate_service_destinations images service_name service)
    (btree_iter (services topology)).

Context {P : Type} `{ImageProvider P}.

Abbreviation A := (M (AdmissionState P) (failure SandboxError)).

(** [daemon.image_provider.admit], with the time it took. *)
Definition provider_admit (image : LockedImage) : A (ImmutableRootfs * Z) :=
  λ s,
    match image_admit image (provider s) with
    | (p, r) =>
        (MkAdmission p (cache s) (cache_hits s) (cache_misses s) (admission_ms s),
         match r with
         | Ok rootfs => Ok (rootfs, saturating_sub (clock_millis p) (clock_millis (provider s)))
         | Err e => Err (Rejected e)
         end)
    end.

(** The image of one service, from the cache or from the provider. *)
Definition admit_image (image : LockedImage) : A ImmutableRootfs :=
  self ← M_get;
  match cache self !! image_id image with
  | Some cached =>
      M_reject_if (negb (bool_decide (exact_reference (rootfs_image cached) = exact_reference image)))
        (Rejected (Lock "cached image identity conflicts with topology"));;
      M_modify (λ s, MkAdmission (provider s) (cache s) (cache_hits s + 1) (cache_misses s) (admission_ms s));;
      mret cached
  | None =>
      '(rootfs, elapsed) ← provider_admit image;
      M_modify (λ s, MkAdmission (provider s) (<[image_id image := rootfs]> (cache s)) (cache_hits s)
                       (cache_misses s + 1) (admission_ms s + elapsed));;
      mret rootfs
  end.

Fixpoint admit_services (l : list LockedService) (admitted : gmap string ImmutableRootfs) :
    A (gmap string ImmutableRootfs) :=
  match l with
  | [] => mret admitted
  | service :: l' =>
      let image := Topology.image service in
      if bool_decide (is_Some (admitted !! image_id image)) then admit_services l' admitted
      else
        rootfs ← admit_image image;
        admit_services l' (<[image_id image := rootfs]> admitted)
  end.

Definition admit_topology (w : WorkerProfile) (topology : TopologyLock) : A (gmap string ImmutableRootfs) :=
  M_lift (verify_lock topology);;
  demand ← M_lift (map_err Rejected (resource_demand topology));
  M_lift (map_err (λ error, Rejected (Unsupported (core_error_to_string error)))
    (require_capacity (worker_shape w) demand));;
  M_reject_if (negb (existsb (λ profile, bool_decide (identity profile = guest_profile (policy topology)))
                       (installed_profiles w)))
    (Rejected (Unsupported ("guest profile `" +:+ canonical (guest_profile (policy topology))
                            +:+ "` is not installed on this worker")));;
  M_lift (map_err Rejected (validate_volume_capabilities (volume_capabilities w) topology));;
  images ← admit_services (btree_values (services topology)) ∅;
  M_lift (validate_volume_destinations topology images);;
  mret images.
End code.

End Admission.
Import Admission.

(** ** The demand of a topology *)

Definition stored_quotas (topology : TopologyLock) : list Z :=
  locked_quota <$> filter (λ v, locked_class v ≠ Artifact) (btree_values (volumes topology)).

Lemma sum_demands_Ok total vs q :
  sum_demands total vs = Ok q → q = total + sum_Z (locked_quota <$> filter (λ v, locked_class v ≠ Artifact) vs).
Proof.
  revert total. induction vs as [|v vs IH]; intros total; cbn [sum_demands].
  { intros [= <-]. simpl. lia. }
  case_bool_decide as Hc.
  - rewrite filter_cons_False by tauto. apply IH.
  - rewrite filter_cons_True by done. intros Hrun. inv_ok Hrun.
    apply ok_or_Ok, checked_add_Some in Hstep as [-> _]. apply IH in Hrun. cbn. unfold sum_Z in *. lia.
Qed.

Definition demand_of (topology : TopologyLock) : SandboxResourceDemand :=
  let n := Z.of_nat (size (services topology)) in
  let p := policy topology in
  MkDemand n (n * cpu_per_service_millis p) (n * (memory_bytes_per_service p + tmpfs_bytes p))
    (n * pids_per_service p)
    (writable_services topology * writable_root_bytes_per_service p + sum_Z (stored_quotas topology)
     + maximum_output_bytes p).

Lemma resource_demand_Ok topology d : resource_demand topology = Ok d → d = demand_of topology.
Proof.
  unfold resource_demand. cbv zeta. intros Hrun. apply bind_Ok_inv in Hrun as (_ & _ & Hrun).
  apply bind_Ok_inv in Hrun as (cpu & Hcpu%ok_or_Ok%checked_mul_Some & Hrun).
  apply bind_Ok_inv in Hrun as (mem & Hmem%ok_or_Ok%checked_add_Some & Hrun).
  apply bind_Ok_inv in Hrun as (mems & Hmems%ok_or_Ok%checked_mul_Some & Hrun).
  apply bind_Ok_inv in Hrun as (pids & Hpids%ok_or_Ok%checked_mul_Some & Hrun).
  apply bind_Ok_inv in Hrun as (roots & Hroots%ok_or_Ok%checked_mul_Some & Hrun).
  apply bind_Ok_inv in Hrun as (vols & Hvols%sum_demands_Ok & Hrun).
  apply bind_Ok_inv in Hrun as (eph & Heph%ok_or_Ok & Hrun). injection Hrun as <-.
  apply bind_Some in Heph as (t & Ht%checked_add_Some & Heph%checked_add_Some).
  destruct_and!. subst. unfold demand_of, stored_quotas. cbv zeta. f_equal; lia.
Qed.

(** ** Images *)

Section admitted.
Context `{TopologyCodec, FileSystem} {P : Type} `{ImageProvider P}.

Definition caches (s t : AdmissionState P) : Prop := cache s ⊆ cache t.
#[global] Instance caches_preorder : PreOrder caches.
Proof. split; unfold caches; [intros s; reflexivity|intros s t u ? ?; by etrans]. Qed.

Lemma admit_image_cases image s :
  let '(s', r) := admit_image image s in
  caches s s' ∧ total r ∧ ∀ rootfs, r = Ok rootfs → cache s' !! image_id image = Some rootfs.
Proof.
  unfold admit_image. unfold_M. destruct (cache s !! image_id image) as [cached|] eqn:Hc.
  - case_bool_decide; simpl; (split; [unfold caches; done|]); split; try done. by intros ? [= <-].
  - unfold provider_admit. destruct (image_admit image (provider s)) as [p [rootfs|e]]; simpl;
      (split; [unfold caches; simpl|split; [done|]]); try done.
    + by apply insert_subseteq.
    + intros ? [= <-]. apply lookup_insert_eq.
Qed.

Lemma admit_services_cases l admitted s :
  admitted ⊆ cache s →
  let '(s', r) := admit_services l admitted s in
  caches s s' ∧ total r ∧ ∀ images, r = Ok images →
    images ⊆ cache s' ∧
    dom images = dom admitted ∪ list_to_set ((λ service, image_id (Topology.image service)) <$> l).
Proof.
  revert admitted s. induction l as [|service l IH]; intros admitted s Hsub; cbn [admit_services].
  { unfold_M. split; [reflexivity|]. split; [done|]. intros ? [= <-]. split; [done|]. set_solver. }
  cbv zeta. case_bool_decide as Hin.
  - specialize (IH admitted s Hsub). destruct (admit_services l admitted s) as [s' r].
    destruct IH as (Hc & Ht & Hok). split; [done|]. split; [done|]. intros images Hr.
    destruct (Hok images Hr) as [Hi Hd]. split; [done|]. rewrite Hd, fmap_cons, list_to_set_cons.
    apply elem_of_dom in Hin. set_solver.
  - pose proof (admit_image_cases (Topology.image service) s) as Himg. unfold mbind, M_bind.
    destruct (admit_image (Topology.image service) s) as [s1 [rootfs|e]]; destruct Himg as (Hc1 & Ht1 & Hok1).
    2: { split; [done|]. split; [|done]. intros m [= ->]. by apply (Ht1 m). }
    specialize (IH (<[image_id (Topology.image service) := rootfs]> admitted) s1).
    destruct (admit_services l _ s1) as [s' r]. destruct IH as (Hc & Ht & Hok).
    { apply insert_subseteq_l; [by apply Hok1|]. by etrans. }
    split; [by etrans|]. split; [done|]. intros images Hr. destruct (Hok images Hr) as [Hi Hd].
    split; [done|]. rewrite Hd, dom_insert_L, fmap_cons, list_to_set_cons. set_solver.
Qed.

Definition image_ids (topology : TopologyLock) : gset string :=
  list_to_set ((λ service, image_id (Topology.image service)) <$> btree_values (services topology)).

(** ** Destinations *)

(** The canonical form of a mount's destination below the root of its image is
    a directory inside that root. *)
Definition safe_mount (r : ImmutableRootfs) (v : VolumeSpec) : Prop :=
  ∃ root relative dest, canonicalize (rootfs r) = Ok root ∧ destination v = "/" +:+ relative ∧
    canonicalize (path_join root relative) = Ok dest ∧
    path_components root `prefix_of` path_components dest ∧ is_dir dest = true.

Lemma validate_destination_in_Ok r root name v :
  canonicalize (rootfs r) = Ok root → validate_destination_in root name v = Ok tt → safe_mount r v.
Proof.
  intros Hroot Hrun. unfold validate_destination_in in Hrun.
  apply bind_Ok_inv in Hrun as (relative & Hrel%ok_or_Ok%strip_prefix_Some & Hrun).
  apply bind_Ok_inv in Hrun as (dest & Hdest%map_err_Ok & Hrun).
  apply reject_if_Ok, orb_false_iff in Hrun as [Hp%negb_false_iff Hd%negb_false_iff].
  unfold path_starts_with in Hp. apply bool_decide_eq_true in Hp. by exists root, relative, dest.
Qed.

Lemma validate_volume_destinations_Ok topology images :
  validate_volume_destinations topology images = Ok tt →
  ∀ name service v, services topology !! name = Some service → v ∈ service_volumes service →
    ∃ r, images !! image_id (Topology.image service) = Some r ∧ safe_mount r v.
Proof.
  unfold validate_volume_destinations. rewrite for_each_Ok, Forall_forall. intros Hall name service v Hs Hv.
  specialize (Hall (name, service) (proj2 (elem_of_btree_iter _ _ _) Hs)). cbn in Hall.
  unfold validate_service_destinations in Hall.
  apply bind_Ok_inv in Hall as (r & Hr%ok_or_Ok & Hall). apply bind_Ok_inv in Hall as (root & Hroot%map_err_Ok & Hall).
  apply map_err_Ok, for_each_Ok in Hall. rewrite Forall_forall in Hall.
  exists r. split; [done|]. by eapply validate_destination_in_Ok, Hall.
Qed.

Lemma validate_volume_destinations_total topology images :
  image_ids topology ⊆ dom images → total (validate_volume_destinations topology images).
Proof.
  intros Hdom. apply total_for_each. intros [name service] Hin%elem_of_btree_iter.
  unfold validate_service_destinations. apply total_bind; [|intros; apply total_bind; auto with total].
  assert (is_Some (images !! image_id (Topology.image service))) as [r ->]; [|done].
  apply elem_of_dom, Hdom. unfold image_ids. apply elem_of_list_to_set, list_elem_of_fmap.
  exists service. split; [done|]. apply elem_of_btree_values. eauto.
Qed.

Definition capable (c : VolumeProviderCapabilities) (v : LockedVolume) : Prop :=
  locked_class v ∈ persistence_classes c ∧
  (locked_class v = Ephemeral ∨ locked_class v = Persistent → locked_policy v ≠ Excluded → snapshot c = true).

Lemma validate_volume_capabilities_Ok c topology :
  validate_volume_capabilities c topology = Ok tt →
  ∀ name v, volumes topology !! name = Some v → capable c v.
Proof.
  unfold validate_volume_capabilities. rewrite for_each_Ok, Forall_forall. intros Hall name v Hv.
  specialize (Hall v (proj2 (elem_of_btree_values _ _) (ex_intro _ name Hv))). cbn in Hall.
  apply seq_Ok in Hall as [Hc Hs]. apply reject_if_Ok, negb_false_iff, bool_decide_eq_true in Hc.
  apply reject_if_Ok in Hs. split; [done|]. intros Hclass Hpolicy.
  destruct (snapshot c); [done|]. rewrite bool_decide_eq_false_2 in Hs by done.
  destruct Hclass as [Heq|Heq]; rewrite Heq in Hs; discriminate.
Qed.

Lemma admit_topology_cases w topology s :
  let '(s', r) := admit_topology w topology s in
  caches s s' ∧ total r ∧ ∀ images, r = Ok images →
    verify_lock topology = Ok tt ∧
    require_capacity (worker_shape w) (demand_of topology) = Ok tt ∧
    (∃ profile, profile ∈ installed_profiles w ∧ identity profile = guest_profile (policy topology)) ∧
    (∀ name v, volumes topology !! name = Some v → capable (volume_capabilities w) v) ∧
    dom images = image_ids topology ∧ images ⊆ cache s' ∧
    (∀ name service v, services topology !! name = Some service → v ∈ service_volumes service →
       ∃ r, images !! image_id (Topology.image service) = Some r ∧ safe_mount r v).
Proof.
  unfold admit_topology. pose proof (verify_lock_total topology) as Hvt. unfold mbind, M_bind, M_lift, M_reject_if, mret, M_ret.
  destruct (verify_lock topology) as [[]|e] eqn:Hlock.
  2: { split; [reflexivity|]. split; [|done]. intros m [= ->]. by apply (Hvt m). }
  destruct (resource_demand topology) as [d|e] eqn:Hd; cbn [map_err]; [|by split; [reflexivity|]].
  apply resource_demand_Ok in Hd as ->.
  destruct (require_capacity (worker_shape w) (demand_of topology)) as [[]|e] eqn:Hcap; cbn [map_err];
    [|by split; [reflexivity|]].
  destruct (existsb _ (installed_profiles w)) eqn:Hprofile; cbn [negb]; [|by split; [reflexivity|]].
  destruct (validate_volume_capabilities (volume_capabilities w) topology) as [[]|e] eqn:Hvc; cbn [map_err];
    [|by split; [reflexivity|]].
  pose proof (admit_services_cases (btree_values (services topology)) ∅ s (map_empty_subseteq _)) as Hs.
  destruct (admit_services (btree_values (services topology)) ∅ s) as [s' [images|e]]; destruct Hs as (Hc & Ht & Hok).
  2: { split; [done|]. split; [|done]. intros m [= ->]. by apply (Ht m). }
  destruct (Hok images eq_refl) as [Hsub Hdom]. rewrite dom_empty_L, union_empty_l_L in Hdom.
  change (dom images = image_ids topology) in Hdom.
  pose proof (validate_volume_destinations_total topology images) as Hdt. rewrite Hdom in Hdt. specialize (Hdt (reflexivity _)).
  destruct (validate_volume_destinations topology images) as [[]|e] eqn:Hdest; (split; [done|]).
  2: { split; [|done]. intros m [= ->]. by apply (Hdt m). }
  split; [done|]. intros ? [= <-]. split_and!; try done.
  - apply existsb_exists in Hprofile as (profile & Hin%list_elem_of_In & Heq%bool_decide_eq_true). eauto.
  - by apply validate_volume_capabilities_Ok.
  - by apply validate_volume_destinations_Ok.
Qed.

(** An admitted topology fits the worker, in exact arithmetic.  If a
    topology is admitted, its lock is verified, and the services, the CPU,
    the memory with the tmpfs, the processes and the storage (writable roots,
    volumes other than artifacts, output) that all its services together may
    use are within the shape of the worker, none of these sums having
    overflowed; its guest profile is installed; and the volume provider
    supports each of its volumes. *)
Theorem admitted_topology_fits w topology s s' images :
  admit_topology w topology s = (s', Ok images) →
  let n := Z.of_nat (size (services topology)) in
  let p := policy topology in
  let shape := worker_shape w in
  verify_lock topology = Ok tt ∧
  n ≤ shape_maximum_services shape ∧
  n * cpu_per_service_millis p ≤ sandbox_cpu_millis shape ∧
  n * (memory_bytes_per_service p + tmpfs_bytes p) ≤ sandbox_memory_bytes shape ∧
  n * pids_per_service p ≤ sandbox_pids shape ∧
  writable_services topology * writable_root_bytes_per_service p + sum_Z (stored_quotas topology)
    + maximum_output_bytes p ≤ sandbox_ephemeral_storage_bytes shape ∧
  (∃ profile, profile ∈ installed_profiles w ∧ identity profile = guest_profile p) ∧
  (∀ name v, volumes topology !! name = Some v → capable (volume_capabilities w) v).
Proof.
  intros Hrun. pose proof (admit_topology_cases w topology s) as Hcases. rewrite Hrun in Hcases.
  destruct Hcases as (_ & _ & Hok). destruct (Hok images eq_refl) as (Hlock & Hcap & Hprofile & Hvols & _).
  apply require_capacity_Ok in Hcap. cbn in Hcap |- *. destruct_and!. by split_and!.
Qed.

(** Admission never panics, keeps what the cache holds on every path, and
    returns exactly the roots of the topology's images, all of them cached;
    below the root of its image, every volume destination resolves (through
    any symbolic links) to a directory that is still inside that root. *)
Theorem admission_roots_and_mounts w topology s :
  let '(s', r) := admit_topology w topology s in
  cache s ⊆ cache s' ∧ total r ∧
  ∀ images, r = Ok images →
    dom images = image_ids topology ∧ images ⊆ cache s' ∧
    ∀ name service v, services topology !! name = Some service → v ∈ service_volumes service →
      ∃ r, images !! image_id (Topology.image service) = Some r ∧ safe_mount r v.
Proof.
  pose proof (admit_topology_cases w topology s) as Hcases.
  destruct (admit_topology w topology s) as [s' r]. destruct Hcases as (Hc & Ht & Hok).
  split; [exact Hc|]. split; [done|]. intros images Hr.
  by destruct (Hok images Hr) as (_ & _ & _ & _ & Hdom & Hsub & Hmounts).
Qed.
End admitted.

(** ** A worker that admits a topology *)

#[local] Existing Instance Compiler.w_topology_codec.
#[local] Instance w_provider_ops : ImageProvider Z := {
  verify _ := mret tt;
  unpack _ := mret tt;
  activate image := mret (MkPrepared "containerd" "key" image);
  mount handle := λ clock, (clock + 5, Ok (MkRootfs "containerd" "key" (prepared_image handle) "/images/root" "sha256:0" 1 1));
  clock_millis clock := clock
}.
#[local] Instance w_file_system : FileSystem := {
  canonicalize path := Ok path;
  is_dir _ := true
}.
Definition w_admission_shape : WorkerResourceShape := MkShape 1 "standard" 2000 536870912 512 1073741824 8.
Definition w_worker : WorkerProfile :=
  MkWorkerProfile w_admission_shape (option_list strict) (MkVolumeCapabilities [Persistent] true false CrossWorkerSameBackend).

Definition w_admission : AdmissionState Z := MkAdmission 0 ∅ 0 0 0.

Lemma admitted_topology_fits_witness :
  is_ok (admit_topology w_worker Compiler.w_lock w_admission).2 = true ∧
  Z.of_nat (size (services Compiler.w_lock)) * cpu_per_service_millis (policy Compiler.w_lock)
    ≤ sandbox_cpu_millis (worker_shape w_worker).
Proof.
  assert (is_ok (admit_topology w_worker Compiler.w_lock w_admission).2 = true) as Hok by (vm_compute; reflexivity).
  split; [exact Hok|].
  destruct (admit_topology w_worker Compiler.w_lock w_admission) as [s' [images|e]] eqn:Hrun; [|discriminate Hok].
  pose proof (admitted_topology_fits w_worker Compiler.w_lock w_admission s' images Hrun) as Hfit.
  cbv zeta in Hfit. destruct Hfit as (_ & _ & Hcpu & _). exact Hcpu.
Defined.
