(* ===== verification/Service.v ===== *)
(** * The service handlers

    Models [bins/sandboxd/src/service/handler.rs], [reservation.rs],
    [metrics.rs] and the daemon state of [state.rs]: what each operation of
    the protocol does with the worker slot, the assignment ledger, admission,
    the sandboxes and the shutdown flag, on every path.  A handler is one
    sequence of calls on the daemon's state.

    The ledger is used through the interface [Assignments]; the sandbox
    executor through [Executor], whose calls may change its world in any way
    and fail with any error; [serde_json] and the artifact stores are
    parameters. *)
From S2P Require Import Prelude Identity GuestProfile Volume Network Topology Snapshot WorkOrder Protocol Verifier.
From S2P Require Import Journal Ledger WorkerSlot Admission.
Import Topology.Topology WorkOrder.WorkOrder Protocol.Protocol Verifier.Verifier.

Module Service.

(** ** JSON values *)

Inductive Json : Type :=
| JNull
| JBool (b : bool)
| JNumber (n : Z)
| JString (s : string)
| JArray (l : list Json)
| JObject (m : gmap string Json).

Definition json_get (k : string) (v : Json) : option Json :=
  match v with JObject m => m !! k | _ => None end.

(** [value[k] = x]: a panic on a value that is neither an object nor null. *)
Definition json_set {E} (k : string) (x v : Json) : result (failure E) Json :=
  match v with
  | JObject m => Ok (JObject (<[k := x]> m))
  | JNull => Ok (JObject {[k := x]})
  | _ => Err (Panicked "cannot access key in JSON value")
  end.

Definition as_json_str (v : Json) : option string := match v with JString s => Some s | _ => None end.

Definition json_object (l : list (string * Json)) : Json := JObject (list_to_map l).

(** ** The interfaces *)

(** What the assignment ledger promises to the handlers: its operations, each
    complete (the journal has answered) when it returns. *)
Class Assignments (As : Type) : Type := {
  begin : SandboxKey → option AssignmentEpoch → M As SandboxError AssignmentEpoch;
  begin_restore : SandboxKey → option AssignmentEpoch → SnapshotId → M As SandboxError AssignmentEpoch;
  begin_fencing : SandboxKey → AssignmentEpoch → SnapshotId → M As SandboxError ();
  mark_transferable : SandboxKey → AssignmentEpoch → SnapshotId → M As SandboxError ();
  mark : SandboxKey → AssignmentEpoch → Ledger.AssignmentState → M As SandboxError ();
  require_current : SandboxKey → option AssignmentEpoch → As → result SandboxError AssignmentEpoch
}.

(** [SnapshotProvenance]. *)
Record SnapshotProvenance : Type := MkProvenance {
  provenance_tenant : TenantId;
  provenance_workspace : WorkspaceId;
  provenance_sandbox : SandboxId;
  source_worker : WorkerId;
  source_assignment_epoch : AssignmentEpoch
}.

(** The executor of sandboxes: [X] is the world outside the daemon, [I] a
    running sandbox, [T] the serializable results. *)
Class Executor (X I T : Type) : Type := {
  run_admitted : TopologyLock → string → string → Z → gmap string Admission.ImmutableRootfs →
    TenantScope → M X SandboxError T;
  start_admitted : TopologyLock → string → Z → gmap string Admission.ImmutableRootfs →
    TenantScope → M X SandboxError I;
  restore_admitted : TopologyLock → string → Z → SnapshotId → Snapshot.RestoreTarget →
    gmap string Admission.ImmutableRootfs → TenantScope → M X SandboxError I;
  sandbox_status : M (I * X) SandboxError T;
  sandbox_pause : M (I * X) SandboxError T;
  sandbox_resume : M (I * X) SandboxError T;
  sandbox_stop : M (I * X) SandboxError T;
  completed_output : string → M (I * X) SandboxError T;
  activate_ingress : M (I * X) SandboxError ();
  fence_ingress : M (I * X) SandboxError ();
  take_snapshot : SnapshotId → Snapshot.SnapshotMode → SnapshotProvenance → M (I * X) SandboxError T;
  is_executable : I → bool;
  drop_instance : I → X → X;
  publish_transfer_grant : TenantScope → SnapshotId → M X string ();
  publish_artifact_volume : string → string → M X string T;
  collect_artifact_volumes : Z → M X string T;
  artifact_snapshot_portability : Volume.SnapshotPortability;
  monotonic_millis : X → Z;
  marker_outcome : X → X * WorkerSlot.marker_io
}.

(** ** The daemon's state *)

Record Counters : Type := MkCounters {
  requests : Z;
  completed_runs : Z;
  failed_runs : Z;
  recovered_projects : list string;
  rejected_connections : Z;
  rejected_requests : Z
}.

Record TenantCounters : Type := MkTenantCounters {
  tenant_requests : Z;
  tenant_completed_runs : Z;
  tenant_failed_runs : Z
}.

(** The cache and its counters are in [admission]. *)
Record DaemonState (As P X I : Type) : Type := MkDaemon {
  assignments : As;
  worker : WorkerSlot.WorkerSlot;
  admission : Admission.AdmissionState P;
  active : gset SandboxKey;
  sandboxes : gmap SandboxKey I;
  counters : Counters;
  tenant_counters : gmap TenantScope TenantCounters;
  shutdown : bool;
  world : X
}.
#[global] Arguments MkDaemon {As P X I}.
#[global] Arguments assignments {As P X I}.
#[global] Arguments worker {As P X I}.
#[global] Arguments admission {As P X I}.
#[global] Arguments active {As P X I}.
#[global] Arguments sandboxes {As P X I}.
#[global] Arguments counters {As P X I}.
#[global] Arguments tenant_counters {As P X I}.
#[global] Arguments shutdown {As P X I}.
#[global] Arguments world {As P X I}.

Inductive NetworkMode : Type := Loopback | Userspace | Private.

(** The configuration that the handlers read, and the encoding of results. *)
Record ServiceConfig (T : Type) : Type := MkServiceConfig {
  profile : Admission.WorkerProfile;
  worker_id : WorkerId;
  project_digest : list ascii → string;
  to_value : T → result string Json;
  status_value : WorkerSlot.WorkerStatus → Json;
  counters_value : Counters → Z → Z → Z → Json;
  tenant_counters_value : option TenantCounters → Json;
  backend_value : BackendCapabilities → Json;
  network_mode : NetworkMode
}.
#[global] Arguments profile {T}.
#[global] Arguments worker_id {T}.
#[global] Arguments project_digest {T}.
#[global] Arguments to_value {T}.
#[global] Arguments status_value {T}.
#[global] Arguments counters_value {T}.
#[global] Arguments tenant_counters_value {T}.
#[global] Arguments backend_value {T}.
#[global] Arguments network_mode {T}.

Section code.
Context {As P X I T : Type}.
Context `{TopologyCodec, Admission.FileSystem, Admission.ImageProvider P, Assignments As, Executor X I T}.
Context (config : ServiceConfig T).

Abbreviation State := (DaemonState As P X I).
Abbreviation D := (M State (failure SandboxError)).

Definition set_assignments (a : As) (d : State) : State :=
  MkDaemon a (worker d) (admission d) (active d) (sandboxes d) (counters d) (tenant_counters d) (shutdown d) (world d).
Definition set_worker (w : WorkerSlot.WorkerSlot) (d : State) : State :=
  MkDaemon (assignments d) w (admission d) (active d) (sandboxes d) (counters d) (tenant_counters d) (shutdown d) (world d).
Definition set_admission (a : Admission.AdmissionState P) (d : State) : State :=
  MkDaemon (assignments d) (worker d) a (active d) (sandboxes d) (counters d) (tenant_counters d) (shutdown d) (world d).
Definition set_active (a : gset SandboxKey) (d : State) : State :=
  MkDaemon (assignments d) (worker d) (admission d) a (sandboxes d) (counters d) (tenant_counters d) (shutdown d) (world d).
Definition set_sandboxes (m : gmap SandboxKey I) (d : State) : State :=
  MkDaemon (assignments d) (worker d) (admission d) (active d) m (counters d) (tenant_counters d) (shutdown d) (world d).
Definition set_counters (c : Counters) (d : State) : State :=
  MkDaemon (assignments d) (worker d) (admission d) (active d) (sandboxes d) c (tenant_counters d) (shutdown d) (world d).
Definition set_tenant_counters (m : gmap TenantScope TenantCounters) (d : State) : State :=
  MkDaemon (assignments d) (worker d) (admission d) (active d) (sandboxes d) (counters d) m (shutdown d) (world d).
Definition set_shutdown (b : bool) (d : State) : State :=
  MkDaemon (assignments d) (worker d) (admission d) (active d) (sandboxes d) (counters d) (tenant_counters d) b (world d).
Definition set_world (x : X) (d : State) : State :=
  MkDaemon (assignments d) (worker d) (admission d) (active d) (sandboxes d) (counters d) (tenant_counters d) (shutdown d) x.

(** Calls on the parts of the state. *)
Definition on_assignments {A} (c : M As SandboxError A) : D A :=
  λ d, let '(a, r) := c (assignments d) in (set_assignments a d, map_err Rejected r).
Definition on_worker {A} (c : M WorkerSlot.WorkerSlot SandboxError A) : D A :=
  λ d, let '(w, r) := c (worker d) in (set_worker w d, map_err Rejected r).
Definition on_admission {A} (c : M (Admission.AdmissionState P) (failure SandboxError) A) : D A :=
  λ d, let '(a, r) := c (admission d) in (set_admission a d, r).
Definition on_world {A} (c : M X SandboxError A) : D A :=
  λ d, let '(x, r) := c (world d) in (set_world x d, map_err Rejected r).

(** A call on an artifact store, with its own error. *)
Definition on_store {A} (c : M X string A) : D (result string A) :=
  λ d, let '(x, r) := c (world d) in (set_world x d, Ok r).

(** A call on a running sandbox that is not in the map yet. *)
Definition on_new_instance {A} (i : I) (c : M (I * X) SandboxError A) : D (I * result SandboxError A) :=
  λ d, let '((i', x), r) := c (i, world d) in (set_world x d, Ok (i', r)).

(** A call on the sandbox of [key] in the map, through its shared handle. *)
Definition on_instance {A} (key : SandboxKey) (c : M (I * X) SandboxError A) : D A :=
  λ d,
    match sandboxes d !! key with
    | Some i =>
        let '((i', x), r) := c (i, world d) in
        (set_world x (set_sandboxes (<[key := i']> (sandboxes d)) d), map_err Rejected r)
    | None => (d, Err (Panicked "sandbox handle"))
    end.

(** [match c { Ok(a) => .., Err(error) => .. }]; a panic is not caught. *)
Definition attempt {A} (c : D A) : D (result SandboxError A) :=
  λ d,
    match c d with
    | (d', Ok a) => (d', Ok (Ok a))
    | (d', Err (Rejected e)) => (d', Ok (Err e))
    | (d', Err (Panicked m)) => (d', Err (Panicked m))
    end.

Definition reject {A} (e : SandboxError) : D A := M_fail (Rejected e).
Definition lift {A} (r : result SandboxError A) : D A := M_lift (map_err Rejected r).

(** ** Failure paths *)

Definition worker_quarantine (key : SandboxKey) : D () :=
  λ d, let '(x, io) := marker_outcome (world d) in
       on_worker (WorkerSlot.quarantine io (Some key)) (set_world x d).
Definition worker_recycle_clean (key : SandboxKey) : D () :=
  λ d, let '(x, io) := marker_outcome (world d) in
       on_worker (WorkerSlot.recycle_clean io key) (set_world x d).
Definition worker_lease (key : SandboxKey) : D () :=
  λ d, on_worker (WorkerSlot.lease (monotonic_millis (world d)) key) d.

Definition quarantine_after_failure (key : SandboxKey) (error : SandboxError) : D SandboxError :=
  M_modify (set_shutdown true);;
  r ← attempt (worker_quarantine key);
  mret match r with
       | Ok _ => error
       | Err quarantine_error =>
           Runtime ("sandbox operation failed: " +:+ sandbox_error_to_string error
                    +:+ "; worker quarantine failed: " +:+ sandbox_error_to_string quarantine_error)
       end.

Definition mark_failed (key : SandboxKey) (epoch : AssignmentEpoch) (error : SandboxError) : D SandboxError :=
  r ← attempt (on_assignments (mark key epoch Ledger.Failed));
  quarantine_after_failure key
    match r with
    | Ok _ => error
    | Err journal_error =>
        Runtime ("sandbox operation failed: " +:+ sandbox_error_to_string error
                 +:+ "; assignment journal failed: " +:+ sandbox_error_to_string journal_error)
    end.

(** [return Err(quarantine_after_failure(..))] and [return Err(mark_failed(..))]. *)
Definition quarantined {A} (key : SandboxKey) (error : SandboxError) : D A :=
  e ← quarantine_after_failure key error; reject e.
Definition failed {A} (key : SandboxKey) (epoch : AssignmentEpoch) (error : SandboxError) : D A :=
  e ← mark_failed key epoch error; reject e.

(** [match c { Ok(a) => a, Err(error) => return Err(mark_failed(..)) }]. *)
Definition or_failed {A} (key : SandboxKey) (epoch : AssignmentEpoch) (c : D A) : D A :=
  r ← attempt c;
  match r with Ok a => mret a | Err error => failed key epoch error end.
Definition or_quarantined {A} (key : SandboxKey) (c : D A) : D A :=
  r ← attempt c;
  match r with Ok a => mret a | Err error => quarantined key error end.

(** Runs [f] when the handler leaves the scope of [c], on every path. *)
Definition finally {A} (f : State → State) (c : D A) : D A :=
  λ d, let '(d', r) := c d in (f d', r).

Definition drop_sandbox (i : I) (d : State) : State := set_world (drop_instance i (world d)) d.

(** [sandboxes.remove(&key)]; the handler's own handle keeps the instance
    until it returns. *)
Definition remove_sandbox (key : SandboxKey) : D (option I) :=
  M_state (λ d, (set_sandboxes (delete key (sandboxes d)) d, sandboxes d !! key)).
Definition drop_removed (removed : option I) (d : State) : State :=
  match removed with Some i => drop_sandbox i d | None => d end.

(** ** Reservations *)

Definition acquire (key : SandboxKey) : D () :=
  d ← M_get;
  M_reject_if (shutdown d) (Rejected (Runtime "sandboxd is shutting down"));;
  M_reject_if (bool_decide (key ∈ active d))
    (Rejected (Runtime ("sandbox `" +:+ as_str (Identity.sandbox_id key) +:+ "` already has an active operation")));;
  M_modify (λ d, set_active ({[key]} ∪ active d) d).
Definition release (key : SandboxKey) (d : State) : State := set_active (active d ∖ {[key]}) d.

(** [let _reservation = ProjectReservation::acquire(daemon, &key)?; ..]. *)
Definition reserved {A} (key : SandboxKey) (c : D A) : D A := acquire key;; finally (release key) c.

(** ** Helpers *)

Definition validate_timeout (timeout_ms : Z) : result SandboxError () :=
  reject_if ((timeout_ms =? 0) || (300000 <? timeout_ms))
    (Lock "timeout must be between 1 and 300000 milliseconds").

Definition sandbox_key (context : AccessContext) (sandbox : string) : result SandboxError SandboxKey :=
  id ← map_err (λ error, Runtime (core_error_to_string error)) (parse sandbox : result CoreError SandboxId);
  mret (context_sandbox_key context id).

Definition scoped_value (value : T) (key : SandboxKey) (operator : bool) : result (failure SandboxError) Json :=
  v ← map_err (λ error, Rejected (Runtime ("encode sandbox result: " +:+ error))) (to_value config value);
  match json_get "project" v ≫= as_json_str with
  | Some runtime_project =>
      v ← json_set "project" (JString (as_str (Identity.sandbox_id key))) v;
      if operator then json_set "runtime_project" (JString runtime_project) v else mret v
  | None => mret v
  end.

Definition complete_worker_cleanup (key : SandboxKey) : D () :=
  on_worker (WorkerSlot.begin_cleaning key);;
  worker_recycle_clean key;;
  M_modify (set_shutdown true).

Definition finish_terminal_assignment (key : SandboxKey) (epoch : AssignmentEpoch) : D () :=
  on_worker (WorkerSlot.begin_draining key);;
  on_assignments (mark key epoch Ledger.Stopped);;
  complete_worker_cleanup key.

Definition update_tenant (context : AccessContext) (f : TenantCounters → TenantCounters) (d : State) : State :=
  if is_operator context then d
  else
    set_tenant_counters
      (<[context_scope context := f (default (MkTenantCounters 0 0 0) (tenant_counters d !! context_scope context))]>
         (tenant_counters d)) d.

Definition record_run (context : AccessContext) (succeeded : bool) (d : State) : State :=
  let c := counters d in
  let d := set_counters
    (if succeeded
     then MkCounters (requests c) (completed_runs c + 1) (failed_runs c) (recovered_projects c)
            (rejected_connections c) (rejected_requests c)
     else MkCounters (requests c) (completed_runs c) (failed_runs c + 1) (recovered_projects c)
            (rejected_connections c) (rejected_requests c)) d in
  update_tenant context
    (λ t, if succeeded
          then MkTenantCounters (tenant_requests t) (tenant_completed_runs t + 1) (tenant_failed_runs t)
          else MkTenantCounters (tenant_requests t) (tenant_completed_runs t) (tenant_failed_runs t + 1)) d.

Definition count_request (context : AccessContext) (d : State) : State :=
  let c := counters d in
  let d := set_counters (MkCounters (requests c + 1) (completed_runs c) (failed_runs c) (recovered_projects c)
                           (rejected_connections c) (rejected_requests c)) d in
  update_tenant context
    (λ t, MkTenantCounters (tenant_requests t + 1) (tenant_completed_runs t) (tenant_failed_runs t)) d.

Definition project (key : SandboxKey) (epoch : AssignmentEpoch) : string :=
  runtime_project (project_digest config) key epoch.

Definition admit_topology (topology : TopologyLock) : D (gmap string Admission.ImmutableRootfs) :=
  on_admission (Admission.admit_topology (profile config) topology).

(** ** Operations that take the worker *)

Definition run_leased (context : AccessContext) (topology : TopologyLock) (key : SandboxKey) (wait_for : string)
    (timeout_ms : Z) : D Json :=
  worker_lease key;;
  epoch ← or_quarantined key (on_assignments (begin key (context_assignment_epoch context)));
  admitted ← or_failed key epoch (admit_topology topology);
  or_failed key epoch (on_worker (WorkerSlot.mark_running key));;
  result ← attempt (on_world (run_admitted topology (project key epoch) wait_for timeout_ms admitted (scope key)));
  match result with
  | Ok value =>
      or_quarantined key (finish_terminal_assignment key epoch);;
      M_modify (record_run context true);;
      M_lift (scoped_value value key (is_operator context))
  | Err error =>
      M_modify (record_run context false);;
      failed key epoch error
  end.

Definition run (context : AccessContext) (topology : TopologyLock) (sandbox wait_for : string) (timeout_ms : Z) :
    D Json :=
  lift (validate_timeout timeout_ms);;
  key ← lift (sandbox_key context sandbox);
  reserved key (run_leased context topology key wait_for timeout_ms).

(** A call on a fresh instance; on an error the instance is dropped before
    ([drop_first]) or after the failure is recorded. *)
Definition on_fresh {A} (key : SandboxKey) (epoch : AssignmentEpoch) (i : I) (drop_first : bool)
    (c : M (I * X) SandboxError A) : D (I * A) :=
  '(i', r) ← on_new_instance i c;
  match r with
  | Ok a => mret (i', a)
  | Err error =>
      if drop_first then M_modify (drop_sandbox i');; failed key epoch error
      else finally (drop_sandbox i') (failed key epoch error)
  end.

(** [if let Err(error) = c { drop(instance); return Err(mark_failed(..)) }]. *)
Definition or_dropped (key : SandboxKey) (epoch : AssignmentEpoch) (i : I) (c : D ()) : D () :=
  r ← attempt c;
  match r with
  | Ok _ => mret tt
  | Err error => M_modify (drop_sandbox i);; failed key epoch error
  end.

(** The common end of [create] and [restore]: the sandbox runs. *)
Definition publish_instance (context : AccessContext) (key : SandboxKey) (epoch : AssignmentEpoch) (i : I) : D Json :=
  '(i, status) ← on_fresh key epoch i false sandbox_status;
  or_dropped key epoch i (on_assignments (mark key epoch Ledger.Active));;
  '(i, _) ← on_fresh key epoch i true activate_ingress;
  or_dropped key epoch i (on_worker (WorkerSlot.mark_running key));;
  M_modify (λ d, set_sandboxes (<[key := i]> (sandboxes d)) d);;
  M_lift (scoped_value status key (is_operator context)).

Definition reject_existing (key : SandboxKey) (sandbox : string) : D () :=
  d ← M_get;
  M_reject_if (bool_decide (is_Some (sandboxes d !! key)))
    (Rejected (Runtime ("sandbox `" +:+ sandbox +:+ "` already exists"))).

Definition create_leased (context : AccessContext) (topology : TopologyLock) (key : SandboxKey) (timeout_ms : Z) :
    D Json :=
  worker_lease key;;
  epoch ← or_quarantined key (on_assignments (begin key (context_assignment_epoch context)));
  admitted ← or_failed key epoch (admit_topology topology);
  i ← or_failed key epoch
    (on_world (start_admitted topology (project key epoch) timeout_ms admitted (scope key)));
  publish_instance context key epoch i.

Definition create (context : AccessContext) (topology : TopologyLock) (sandbox : string) (timeout_ms : Z) : D Json :=
  lift (validate_timeout timeout_ms);;
  key ← lift (sandbox_key context sandbox);
  reject_existing key sandbox;;
  reserved key (create_leased context topology key timeout_ms).

Definition snapshot_id (snapshot : string) : result SandboxError SnapshotId :=
  map_err (λ error, Runtime (core_error_to_string error)) (parse snapshot).

(** [fenced_source_epoch.map(AssignmentEpoch::new).transpose()]. *)
Definition fenced_epoch (fenced : option Z) : result SandboxError (option AssignmentEpoch) :=
  match fenced with
  | None => mret None
  | Some value =>
      e ← map_err (λ error, Runtime (core_error_to_string error)) (epoch_new value);
      mret (Some e)
  end.

Definition restore_leased (context : AccessContext) (topology : TopologyLock) (key : SandboxKey) (id : SnapshotId)
    (timeout_ms : Z) (fenced_source_epoch : option Z) : D Json :=
  worker_lease key;;
  epoch ← or_quarantined key (on_assignments (begin_restore key (context_assignment_epoch context) id));
  admitted ← or_failed key epoch (admit_topology topology);
  fenced ← lift (fenced_epoch fenced_source_epoch);
  let target := Snapshot.MkTarget (Identity.tenant_id (scope key)) (Identity.workspace_id (scope key)) (Identity.sandbox_id key)
                  (worker_id config) epoch artifact_snapshot_portability (guest_profile (policy topology)) fenced in
  i ← or_failed key epoch
    (on_world (restore_admitted topology (project key epoch) timeout_ms id target admitted (scope key)));
  publish_instance context key epoch i.

Definition restore (context : AccessContext) (topology : TopologyLock) (sandbox snapshot : string) (timeout_ms : Z)
    (fenced_source_epoch : option Z) : D Json :=
  lift (validate_timeout timeout_ms);;
  id ← lift (snapshot_id snapshot);
  key ← lift (sandbox_key context sandbox);
  reject_existing key sandbox;;
  reserved key (restore_leased context topology key id timeout_ms fenced_source_epoch).

(** ** Operations on a running sandbox *)

Definition current (key : SandboxKey) (expected : option AssignmentEpoch) : D AssignmentEpoch :=
  d ← M_get;
  lift (require_current key expected (assignments d)).

(** [sandboxes.get(&key).cloned().ok_or_else(..)?]. *)
Definition require_sandbox (key : SandboxKey) (name : string) : D () :=
  d ← M_get;
  M_reject_if (negb (bool_decide (is_Some (sandboxes d !! key))))
    (Rejected (Runtime ("sandbox `" +:+ name +:+ "` does not exist"))).

Definition with_key (key : SandboxKey) (expected_epoch : AssignmentEpoch) (operator : bool)
    (operation : M (I * X) SandboxError T) : D Json :=
  require_sandbox key (as_str (Identity.sandbox_id key));;
  current key (Some expected_epoch);;
  result ← on_instance key operation;
  M_lift (scoped_value result key operator).

Definition with_sandbox (context : AccessContext) (sandbox : string) (operation : M (I * X) SandboxError T) : D Json :=
  key ← lift (sandbox_key context sandbox);
  epoch ← current key (context_assignment_epoch context);
  with_key key epoch (is_operator context) operation.

Definition inspect (context : AccessContext) (sandbox : string) : D Json := with_sandbox context sandbox sandbox_status.
Definition pause (context : AccessContext) (sandbox : string) : D Json := with_sandbox context sandbox sandbox_pause.
Definition resume (context : AccessContext) (sandbox : string) : D Json := with_sandbox context sandbox sandbox_resume.
Definition logs (context : AccessContext) (sandbox container : string) : D Json :=
  with_sandbox context sandbox (completed_output container).

Definition stop (context : AccessContext) (sandbox : string) : D Json :=
  key ← lift (sandbox_key context sandbox);
  epoch ← current key (context_assignment_epoch context);
  require_sandbox key sandbox;;
  current key (Some epoch);;
  on_worker (WorkerSlot.begin_draining key);;
  status ← or_failed key epoch (on_instance key sandbox_stop);
  or_failed key epoch (on_assignments (mark key epoch Ledger.Stopped));;
  removed ← remove_sandbox key;
  finally (drop_removed removed)
    (or_quarantined key (complete_worker_cleanup key);;
     M_lift (scoped_value status key (is_operator context))).

(** ** Snapshots *)

Definition clock : D Z := d ← M_get; mret (monotonic_millis (world d)).

(** The fence of a stop-and-move: drain the worker, fence the ingress, record
    it; returns the milliseconds it took. *)
Definition fence_source (key : SandboxKey) (epoch : AssignmentEpoch) (id : SnapshotId) : D Z :=
  fence_started ← clock;
  on_worker (WorkerSlot.begin_draining key);;
  fenced ← attempt (on_instance key fence_ingress);
  match fenced with
  | Err error =>
      on_worker (WorkerSlot.cancel_draining key);;
      reject error
  | Ok _ =>
      recorded ← attempt (on_assignments (begin_fencing key epoch id));
      match recorded with
      | Err error =>
          on_instance key activate_ingress;;
          on_worker (WorkerSlot.cancel_draining key);;
          reject error
      | Ok _ => now ← clock; mret (saturating_sub now fence_started)
      end
  end.

(** The arms of a failed snapshot. *)
Definition snapshot_failed {A} (key : SandboxKey) (epoch : AssignmentEpoch) (stop_and_move : bool)
    (error : SandboxError) : D A :=
  d ← M_get;
  if stop_and_move then
    if match sandboxes d !! key with Some i => is_executable i | None => false end then
      on_assignments (mark key epoch Ledger.Active);;
      on_instance key activate_ingress;;
      on_worker (WorkerSlot.cancel_draining key);;
      reject error
    else
      removed ← remove_sandbox key;
      finally (drop_removed removed) (failed key epoch error)
  else reject error.

Definition encode_millis (what : string) (n : Z) : result SandboxError Json :=
  reject_if (u64_max <? n) (Runtime ("encode " +:+ what +:+ " metrics: number out of range"));;
  mret (JNumber n).

Definition snapshot_value (key : SandboxKey) (stop_and_move : bool) (summary : T) (fence_millis grant_millis : Z) :
    result (failure SandboxError) Json :=
  value ← map_err (λ error, Rejected (Runtime ("encode snapshot result: " +:+ error))) (to_value config summary);
  value ← json_set "source_sandbox" (JString (as_str (Identity.sandbox_id key))) value;
  if stop_and_move then
    fence ← map_err Rejected (encode_millis "fence" fence_millis);
    value ← json_set "source_fence_millis" fence value;
    grant ← map_err Rejected (encode_millis "grant" grant_millis);
    json_set "transfer_grant_millis" grant value
  else mret value.

(** The hand-over of a stop-and-move: grant, record, remove, retire; returns
    the milliseconds of the grant. *)
Definition publish_move {A} (key : SandboxKey) (epoch : AssignmentEpoch) (id : SnapshotId) (k : Z → D A) : D A :=
  grant_started ← clock;
  granted ← on_store (publish_transfer_grant (scope key) id);
  match granted with
  | Err error =>
      removed ← remove_sandbox key;
      finally (drop_removed removed)
        (failed key epoch (Runtime ("publish snapshot transfer grant: " +:+ error)))
  | Ok _ =>
      now ← clock;
      assignment_result ← attempt (on_assignments (mark_transferable key epoch id));
      removed ← remove_sandbox key;
      finally (drop_removed removed)
        match assignment_result with
        | Err error => failed key epoch error
        | Ok _ =>
            or_quarantined key (complete_worker_cleanup key);;
            k (saturating_sub now grant_started)
        end
  end.

Definition provenance (key : SandboxKey) (epoch : AssignmentEpoch) : SnapshotProvenance :=
  MkProvenance (Identity.tenant_id (scope key)) (Identity.workspace_id (scope key)) (Identity.sandbox_id key)
    (worker_id config) epoch.

Definition snapshot (context : AccessContext) (sandbox snapshot : string) (mode : Snapshot.SnapshotMode) : D Json :=
  id ← lift (snapshot_id snapshot);
  key ← lift (sandbox_key context sandbox);
  epoch ← current key (context_assignment_epoch context);
  require_sandbox key sandbox;;
  let stop_and_move := bool_decide (mode = Snapshot.StopAndMove) in
  current key (Some epoch);;
  fence_millis ← (if stop_and_move then fence_source key epoch id else mret 0);
  result ← attempt (on_instance key (take_snapshot id mode (provenance key epoch)));
  summary ← match result with
            | Ok summary => mret summary
            | Err error => snapshot_failed key epoch stop_and_move error
            end;
  if stop_and_move then
    publish_move key epoch id (λ grant_millis, M_lift (snapshot_value key true summary fence_millis grant_millis))
  else M_lift (snapshot_value key false summary fence_millis 0).

(** ** The worker, its images and the artifact store *)

Definition worker_status : D WorkerSlot.WorkerStatus :=
  d ← M_get;
  mret (WorkerSlot.status (monotonic_millis (world d)) (worker d)).

Definition require_operator (context : AccessContext) (message : string) : D () :=
  M_reject_if (negb (is_operator context)) (Rejected (Runtime message)).

Definition readiness (context : AccessContext) : D Json :=
  require_operator context "worker readiness is restricted to the operator endpoint";;
  status ← worker_status;
  M_reject_if (negb (WorkerSlot.status_ready status))
    (Rejected (Runtime ("worker is not ready: state is "
                        +:+ WorkerSlot.state_debug (WorkerSlot.status_state status))));;
  mret (status_value config status).

Definition MAXIMUM_WRITABLE_ROOT_BYTES : Z := 16 * 1024 * 1024 * 1024.

Definition network_capabilities (mode : NetworkMode) : NetworkCapabilities :=
  match mode with Loopback => LOOPBACK | Userspace => USERSPACE | Private => PRIVATE end.

Definition backend_capabilities : BackendCapabilities :=
  with_network (network_capabilities (network_mode config))
    (gvisor_snapshot 64 MAXIMUM_WRITABLE_ROOT_BYTES artifact_snapshot_portability
       (Admission.installed_profiles (profile config))).

Definition capabilities : D Json :=
  status ← worker_status;
  mret (json_object
    [("status", JString "ready");
     ("worker", status_value config status);
     ("protocol_versions", JArray [JNumber 1; JNumber 2]);
     ("workload_protocol_version", JNumber 2);
     ("backends", JArray
        [json_object
           [("kind", JString "gvisor"); ("status", JString "available");
            ("capabilities", backend_value config backend_capabilities)]])]).

Definition admitted_value (image : Admission.ImmutableRootfs) : Json :=
  json_object
    [("image_id", JString (image_id (Admission.rootfs_image image)));
     ("exact_reference", JString (exact_reference (Admission.rootfs_image image)));
     ("rootfs_digest", JString (Admission.rootfs_digest image));
     ("rootfs_entries", JNumber (Admission.rootfs_entries image));
     ("rootfs_bytes", JNumber (Admission.rootfs_bytes image))].

Definition admit_request (topology : TopologyLock) : D Json :=
  images ← admit_topology topology;
  mret (json_object [("admitted_images", JArray (admitted_value <$> btree_values images))]).

Definition publish_artifact (context : AccessContext) (source digest : string) : D Json :=
  require_operator context "artifact publication is restricted to the operator endpoint";;
  published ← on_store (publish_artifact_volume source digest);
  publication ← lift (map_err (λ error, Runtime ("publish artifact volume: " +:+ error)) published);
  lift (map_err (λ error, Runtime ("encode artifact publication: " +:+ error)) (to_value config publication)).

Definition garbage_collect_artifacts (context : AccessContext) (minimum_age_seconds : Z) : D Json :=
  require_operator context "artifact garbage collection is restricted to the operator endpoint";;
  M_reject_if (31536000 <? minimum_age_seconds)
    (Rejected (Runtime "artifact garbage-collection grace cannot exceed one year"));;
  collected ← on_store (collect_artifact_volumes minimum_age_seconds);
  report ← lift (map_err (λ error, Runtime ("garbage collect artifact volumes: " +:+ error)) collected);
  lift (map_err (λ error, Runtime ("encode artifact garbage-collection report: " +:+ error))
          (to_value config report)).

(** The handler [shutdown]. *)
Definition graceful_shutdown (context : AccessContext) : D Json :=
  require_operator context "shutdown is restricted to the operator endpoint";;
  d ← M_get;
  M_reject_if (negb (bool_decide (active d = ∅)) || negb (bool_decide (sandboxes d = ∅)))
    (Rejected (Runtime "refusing graceful shutdown with active sandboxes"));;
  M_modify (set_shutdown true);;
  mret (json_object [("shutdown", JBool true)]).

(** ** Statistics *)

Definition cached_value (image : Admission.ImmutableRootfs) : Json :=
  json_object
    [("image_id", JString (image_id (Admission.rootfs_image image)));
     ("exact_reference", JString (exact_reference (Admission.rootfs_image image)));
     ("rootfs_digest", JString (Admission.rootfs_digest image))].

(** [sandboxes.iter().filter_map(..)]: a sandbox whose status or encoding
    fails is left out. *)
Fixpoint collect_sandboxes (describe : SandboxKey → Json → result (failure SandboxError) (option Json))
    (keys : list SandboxKey) : D (list Json) :=
  match keys with
  | [] => mret []
  | key :: keys' =>
      status ← attempt (on_instance key sandbox_status);
      described ←
        match status with
        | Ok status =>
            match to_value config status with
            | Ok value => M_lift (describe key value)
            | Err _ => mret None
            end
        | Err _ => mret None
        end;
      rest ← collect_sandboxes describe keys';
      mret (option_list described ++ rest)
  end.

Definition describe_operator (key : SandboxKey) (status : Json) : result (failure SandboxError) (option Json) :=
  match json_get "project" status with
  | None => mret None
  | Some project =>
      v ← json_set "runtime_project" project status;
      v ← json_set "project" (JString (as_str (Identity.sandbox_id key))) v;
      v ← json_set "tenant_id" (JString (as_str (Identity.tenant_id (scope key)))) v;
      v ← json_set "workspace_id" (JString (as_str (Identity.workspace_id (scope key)))) v;
      mret (Some v)
  end.

Definition describe_tenant (key : SandboxKey) (status : Json) : result (failure SandboxError) (option Json) :=
  v ← json_set "project" (JString (as_str (Identity.sandbox_id key))) status;
  mret (Some v).

Definition collect_operator : D Json :=
  d ← M_get;
  status ← worker_status;
  listed ← collect_sandboxes describe_operator (btree_keys (sandboxes d));
  mret (json_object
    [("worker", status_value config status);
     ("counters", counters_value config (counters d) (Admission.cache_hits (admission d))
                    (Admission.cache_misses (admission d)) (Admission.admission_ms (admission d)));
     ("active_operations", JNumber (Z.of_nat (size (active d))));
     ("cached_images", JArray (cached_value <$> btree_values (Admission.cache (admission d))));
     ("sandboxes", JArray listed)]).

Definition collect_tenant (context : AccessContext) : D Json :=
  d ← M_get;
  listed ← collect_sandboxes describe_tenant
             (filter (λ key, scope key = context_scope context) (btree_keys (sandboxes d)));
  mret (json_object
    [("counters", tenant_counters_value config (tenant_counters d !! context_scope context));
     ("sandboxes", JArray listed)]).

Definition collect (context : AccessContext) : D Json :=
  if is_operator context then collect_operator else collect_tenant context.

(** ** The dispatch *)

Definition dispatch (operation : Operation) (context : AccessContext) : D Json :=
  match operation with
  | OpPing => capabilities
  | OpReady => readiness context
  | OpStats => collect context
  | OpAdmit topology => admit_request topology
  | OpRun topology project wait_for timeout_ms => run context topology project wait_for timeout_ms
  | OpCreate topology sandbox timeout_ms => create context topology sandbox timeout_ms
  | OpRestore topology sandbox id timeout_ms fenced => restore context topology sandbox id timeout_ms fenced
  | OpInspect sandbox => inspect context sandbox
  | OpPause sandbox => pause context sandbox
  | OpResume sandbox => resume context sandbox
  | OpStop sandbox => stop context sandbox
  | OpLogs sandbox container => logs context sandbox container
  | OpSnapshot sandbox id mode => snapshot context sandbox id mode
  | OpPublishArtifact source digest => publish_artifact context source digest
  | OpGarbageCollectArtifacts minimum_age => garbage_collect_artifacts context minimum_age
  | OpShutdown => graceful_shutdown context
  end.

Definition handle (operation : Operation) (context : AccessContext) : D Json :=
  M_modify (count_request context);;
  dispatch operation context.
End code.

End Service.
