(* ===== verification/ServiceLedger.v ===== *)
(** * The assignment ledger as the handlers use it

    The laws of the interface [Assignments] of the handlers, and the ledger of
    [bins/sandboxd/src/assignment.rs] as an instance: a call of the ledger is
    its locked section followed by the wait for the journal, which the writer
    thread has served by then. *)
From S2P Require Import Prelude Identity GuestProfile Volume Network Topology Snapshot WorkOrder Protocol Verifier.
From S2P Require Import Journal LineCodec Ledger WorkerSlot Admission Service.
Import Journal.Journal Ledger.Ledger.

(** ** The laws *)

(** What the handlers rely on: a call for a sandbox writes no record but that
    sandbox's, and a call that succeeds leaves the record it names. *)
Class AssignmentsLaws (As : Type) `{Service.Assignments As} : Type := {
  recorded : As → SandboxKey → option AssignmentRecord;
  consistent : As → Prop;
  confined (key : SandboxKey) : relation As :=
    λ a a', consistent a → consistent a' ∧ ∀ k, k ≠ key → recorded a' k = recorded a k;
  begin_confined key requested : keeps (confined key) (Service.begin key requested);
  begin_restore_confined key requested id : keeps (confined key) (Service.begin_restore key requested id);
  begin_fencing_confined key e id : keeps (confined key) (Service.begin_fencing key e id);
  mark_transferable_confined key e id : keeps (confined key) (Service.mark_transferable key e id);
  mark_confined key e st : keeps (confined key) (Service.mark key e st);
  begin_recorded key requested a a' e :
    consistent a → Service.begin key requested a = (a', Ok e) →
    recorded a' key = Some (MkAssignment ASSIGNMENT_SCHEMA_VERSION key e Provisioning None) ∧
    ∀ e', requested = Some e' → e = e';
  begin_restore_recorded key requested id a a' e :
    consistent a → Service.begin_restore key requested id a = (a', Ok e) →
    recorded a' key = Some (MkAssignment ASSIGNMENT_SCHEMA_VERSION key e Restoring (Some id)) ∧
    ∀ e', requested = Some e' → e = e';
  mark_recorded key e st a a' :
    consistent a → Service.mark key e st a = (a', Ok tt) →
    ∃ r, recorded a' key = Some r ∧ epoch r = e ∧ state r = st;
  mark_transferable_recorded key e id a a' :
    consistent a → Service.mark_transferable key e id a = (a', Ok tt) →
    ∃ r, recorded a' key = Some r ∧ epoch r = e ∧ state r = Transferable ∧ snapshot_id r = Some id;
  require_current_recorded key requested a e :
    Service.require_current key requested a = Ok e →
    (∃ r, recorded a key = Some r ∧ epoch r = e ∧ state r = Active) ∧
    ∀ e', requested = Some e' → e = e'
}.

#[global] Instance confined_preorder `{AssignmentsLaws As} key : PreOrder (confined key).
Proof.
  split.
  - intros a Ha. done.
  - intros a b c Hab Hbc Ha. destruct (Hab Ha) as [Hb Hab']. destruct (Hbc Hb) as [Hc Hbc'].
    split; [done|]. intros k Hk. by rewrite Hbc', Hab'.
Qed.

(** ** The ledger *)

Section ledger.
Context `{LedgerCodec} {J : Type} `{DurableLog J} (settle : J → J).
Implicit Types (l : AssignmentLedger (J := J)).

(** [JournalReceipt::wait] once the writer has served, or is gone. *)
Definition receive (receipt : nat) l : result SandboxError () :=
  default (Err (Runtime "journal writer stopped")) (log_wait receipt (journal l)).

(** [begin_operation] and [transition]: the locked section, then the waits. *)
Definition complete (locked : M (AssignmentLedger (J := J)) SandboxError call) :
    M (AssignmentLedger (J := J)) SandboxError AssignmentRecord :=
  c ← locked;
  M_modify (λ l, with_journal (settle (journal l)) l);;
  λ l,
    match receive (call_append c) l with
    | Err error => (rollback (call_record c) (call_previous c) l, Err error)
    | Ok _ =>
        match call_replacement c with
        | None => (l, Ok (call_record c))
        | Some receipt => (l, receive receipt l ≫= λ _, Ok (call_record c))
        end
    end.

Definition ignore {S E A} (c : M S E A) : M S E () := c ≫= λ _, mret tt.
Definition epoch_of {S E} (c : M S E AssignmentRecord) : M S E AssignmentEpoch := c ≫= λ r, mret (epoch r).

#[global] Instance ledger_assignments : Service.Assignments (AssignmentLedger (J := J)) := {
  begin key requested := epoch_of (complete (begin key requested));
  begin_restore key requested id := epoch_of (complete (begin_restore key requested id));
  begin_fencing key e id := ignore (complete (begin_fencing key e id));
  mark_transferable key e id := ignore (complete (mark_transferable key e id));
  mark key e st := ignore (complete (mark key e st));
  require_current := require_current
}.

(** *** Which entries an operation writes *)

Lemma replace_all_entries l : entries (replace_all l).1 = entries l.
Proof.
  unfold replace_all. unfold_M. destruct (encode_entries (entries l)); [|done].
  unfold on_journal. by destruct (log_enqueue_replace _ _).
Qed.

Lemma maybe_enqueue_compaction_entries l : entries (maybe_enqueue_compaction l).1 = entries l.
Proof.
  unfold maybe_enqueue_compaction. unfold_M. destruct (_ <? _); [done|].
  pose proof (replace_all_entries (with_appends 0 l)) as He.
  destruct (replace_all (with_appends 0 l)) as [l' [n|e]]; exact He.
Qed.

Lemma commit_entries record previous l l' r :
  commit record previous l = (l', r) →
  entries l' = <[record_key record := record]> (entries l) ∧
  ∀ c, r = Ok c → call_record c = record ∧ call_previous c = previous.
Proof.
  unfold commit. unfold_M. destruct (encode_record record); [|intros [= <- <-]; done].
  unfold on_journal. destruct (log_enqueue_append _ _) as [j [n|e]]; [|intros [= <- <-]; done]. simpl.
  match goal with |- context [maybe_enqueue_compaction ?x] =>
    pose proof (maybe_enqueue_compaction_entries x) as He; destruct (maybe_enqueue_compaction x) as [l1 [m|e]] end;
    intros [= <- <-]; simpl in *; split; try done. by intros c [= <-].
Qed.

(** A locked section that writes a record of [key] with [Q], or changes
    nothing. *)
Definition grants (key : SandboxKey) (Q : AssignmentRecord → Prop)
    (locked : M (AssignmentLedger (J := J)) SandboxError call) : Prop :=
  ∀ l l' r, entries_ok (entries l) → locked l = (l', r) →
    (l' = l ∧ ∃ e, r = Err e) ∨
    ∃ record, record_key record = key ∧ record_valid record ∧ Q record ∧
      Z.of_nat (size (<[key := record]> (entries l))) ≤ MAXIMUM_ASSIGNMENTS ∧
      commit record (entries l !! key) l = (l', r).

Lemma begin_operation_grants key requested to snapshot :
  grants key (λ r, r = MkAssignment ASSIGNMENT_SCHEMA_VERSION key (epoch r) to snapshot ∧
                   ∀ e, requested = Some e → epoch r = e)
    (begin_operation key requested to snapshot).
Proof.
  intros l l' r Hok Hrun.
  destruct (begin_operation_cases _ _ _ _ _ _ _ Hok Hrun) as [(e & -> & ->)|(e & _ & He & Hs & Hc)]; [eauto|].
  right. eexists. by split_and!; [..|exact Hc].
Qed.

Lemma transition_grants key e to snapshot :
  grants key (λ r, epoch r = e ∧ state r = to ∧ (snapshot = None ∨ snapshot_id r = snapshot))
    (transition key e to snapshot).
Proof.
  intros l l' r Hok Hrun.
  destruct (transition_cases _ _ _ _ _ _ _ Hok Hrun)
    as [(e' & -> & ->)|(rec & Hv & Hk & He & Hst & _ & Hsn & Hs & Hc)]; [eauto|].
  right. exists rec. by split_and!.
Qed.

Definition ledger_confined (key : SandboxKey) : relation (AssignmentLedger (J := J)) :=
  λ l l', entries_ok (entries l) → entries_ok (entries l') ∧ ∀ k, k ≠ key → entries l' !! k = entries l !! k.

Lemma completion_spec key Q locked l l' r :
  grants key Q locked → complete locked l = (l', r) → entries_ok (entries l) →
  entries_ok (entries l') ∧ (∀ k, k ≠ key → entries l' !! k = entries l !! k) ∧
  ∀ record, r = Ok record → Q record ∧ entries l' !! key = Some record.
Proof.
  intros Hg Hrun Hok. unfold complete in Hrun. unfold_M.
  destruct (locked l) as [l1 r1] eqn:Hlocked.
  destruct (Hg _ _ _ Hok Hlocked) as [[-> [e ->]]|(rec & Hkey & Hv & HQ & Hsize & Hcommit)];
    [by injection Hrun as <- <-|].
  apply commit_entries in Hcommit as [He Hc]. rewrite Hkey in He.
  assert (entries_ok (entries l1)) as Hok1.
  { rewrite He. split; [|done]. apply map_Forall_insert_2; [done|apply Hok]. }
  assert (∀ k, k ≠ key → entries l1 !! k = entries l !! k) as Hothers.
  { intros k Hk. rewrite He. by rewrite lookup_insert_ne. }
  destruct r1 as [c|e]; [|injection Hrun as <- <-; split_and!; done].
  destruct (Hc c eq_refl) as [Hrec Hprev]. subst rec.
  set (l2 := with_journal _ l1) in Hrun. change (entries l1) with (entries l2) in *.
  assert (entries l2 !! key = Some (call_record c)) as Hlk by (rewrite He; apply lookup_insert_eq).
  destruct (receive (call_append c) l2) as [[]|e]; simpl in Hrun.
  - assert (l' = l2 ∧ ∀ record, r = Ok record → record = call_record c) as [-> Hr].
    { destruct (call_replacement c) as [n|]; [|injection Hrun as <- <-; by split; [|intros ? [= <-]]].
      destruct (receive n l2); simpl in Hrun; injection Hrun as <- <-; by split; [|intros ? [= <-]]. }
    split_and!; [done|done|]. intros record Hr'. by rewrite (Hr record Hr').
  - injection Hrun as <- <-. split_and!; [| |done].
    + apply entries_ok_rollback; [done|]. intros p Hp. rewrite Hkey, Hprev in *. apply (proj1 Hok key p Hp).
    + intros k Hk. unfold rollback. case_bool_decide; [|by apply Hothers]. simpl. rewrite Hkey.
      destruct (call_previous c); rewrite ?lookup_insert_ne, ?lookup_delete_ne by done; by apply Hothers.
Qed.

Lemma complete_confined {A} key Q locked (f : AssignmentRecord → A) :
  grants key Q locked → keeps (ledger_confined key) (complete locked ≫= λ r, mret (f r)).
Proof.
  intros Hg l Hok. unfold mbind, M_bind. destruct (complete locked l) as [l' r] eqn:Hrun.
  destruct (completion_spec _ _ _ _ _ _ Hg Hrun Hok) as (? & ? & _). by destruct r.
Qed.

Lemma complete_recorded {A} key Q locked (f : AssignmentRecord → A) l l' a :
  grants key Q locked → entries_ok (entries l) → (complete locked ≫= λ r, mret (f r)) l = (l', Ok a) →
  ∃ r, entries l' !! key = Some r ∧ Q r ∧ a = f r.
Proof.
  intros Hg Hok Hrun. apply M_bind_Ok_inv in Hrun as (r & s & Hrun & [= <- <-]).
  destruct (completion_spec _ _ _ _ _ _ Hg Hrun Hok) as (_ & _ & Hr). destruct (Hr r eq_refl) as [HQ Hlk]. eauto.
Qed.

#[global] Instance ledger_assignments_laws : AssignmentsLaws (AssignmentLedger (J := J)).
Proof.
  refine {| recorded l key := entries l !! key; consistent l := entries_ok (entries l) |}.
  - intros. eapply complete_confined, begin_operation_grants.
  - intros. eapply complete_confined, begin_operation_grants.
  - intros. eapply complete_confined, transition_grants.
  - intros. eapply complete_confined, transition_grants.
  - intros. eapply complete_confined, transition_grants.
  - intros key requested a a' e Hok Hrun.
    destruct (complete_recorded _ _ _ _ _ _ _ (begin_operation_grants _ _ _ _) Hok Hrun) as (r & Hlk & [Hr He] & ->).
    rewrite <-Hr. eauto.
  - intros key requested id a a' e Hok Hrun.
    destruct (complete_recorded _ _ _ _ _ _ _ (begin_operation_grants _ _ _ _) Hok Hrun) as (r & Hlk & [Hr He] & ->).
    rewrite <-Hr. eauto.
  - intros key e st a a' Hok Hrun.
    destruct (complete_recorded _ _ _ _ _ _ _ (transition_grants _ _ _ _) Hok Hrun) as (r & Hlk & (He & Hst & _) & _). eauto.
  - intros key e id a a' Hok Hrun.
    destruct (complete_recorded _ _ _ _ _ _ _ (transition_grants _ _ _ _) Hok Hrun) as (r & Hlk & (He & Hst & Hid) & _).
    destruct Hid; [done|]. eauto 10.
  - intros key requested a e Hrun. cbn in Hrun. unfold require_current in Hrun.
    destruct (entries a !! key) as [r|]; [|done]. simpl in Hrun.
    apply bind_Ok_inv in Hrun as ([] & Hreq%reject_if_Ok & Hrun).
    apply bind_Ok_inv in Hrun as ([] & Hact%reject_if_Ok & [= <-]). apply negb_false_iff, bool_decide_eq_true in Hact.
    split; [eauto|]. intros e' ->. by apply negb_false_iff, bool_decide_eq_true in Hreq.
Defined.
End ledger.
