(* ===== verification/ServiceProofs.v ===== *)
(** * What the handlers guarantee

    Theorems about the handlers of [bins/sandboxd/src/service/], for every
    ledger with the laws of [AssignmentsLaws], every image provider and every
    executor of sandboxes: what a request may change, how an operation that
    fails leaves the worker, and what a success has recorded. *)
From S2P Require Import Prelude Identity GuestProfile Volume Network Topology Snapshot WorkOrder Protocol Verifier.
From S2P Require Import Journal LineCodec Ledger WorkerSlot Admission Service ServiceLedger.
Import Topology.Topology WorkOrder.WorkOrder Protocol.Protocol Verifier.Verifier Service.Service.

Section proofs.
Context {As P X I T : Type}.
Context `{TopologyCodec, Admission.FileSystem, Admission.ImageProvider P, AssignmentsLaws As, Executor X I T}.
Context (config : ServiceConfig T).
Implicit Types (d : DaemonState As P X I) (key : SandboxKey) (context : AccessContext).

Abbreviation State := (DaemonState As P X I).
Abbreviation D := (M State (failure SandboxError)).
Abbreviation assigned d := (WorkerSlot.assignment (WorkerSlot.slot (worker d))).

(** ** What a request leaves alone

    [mine] are the scopes that a request may touch. *)
Section frames.
Context (mine : TenantScope → Prop).

Record frame d d' : Prop := Frame {
  frame_worker : advances (worker d) (worker d');
  frame_ledger : consistent (assignments d) →
    consistent (assignments d') ∧
    ∀ key, ¬ mine (scope key) → recorded (assignments d') key = recorded (assignments d) key;
  frame_sandboxes : ∀ key, ¬ mine (scope key) → sandboxes d' !! key = sandboxes d !! key;
  frame_new : ∀ key, is_Some (sandboxes d' !! key) → is_Some (sandboxes d !! key) ∨ assigned d' = Some key;
  frame_counters : ∀ s, ¬ mine s → tenant_counters d' !! s = tenant_counters d !! s;
  frame_active : active d' = active d;
  frame_shutdown : shutdown d = true → shutdown d' = true
}.

#[global] Instance frame_preorder : PreOrder frame.
Proof.
  split; [split; auto; reflexivity|].
  intros d1 d2 d3 [W1 L1 S1 N1 C1 A1 D1] [W2 L2 S2 N2 C2 A2 D2]. split; try congruence.
  - by etrans.
  - intros Hc. destruct (L1 Hc) as [Hc' HL1]. destruct (L2 Hc') as [Hc'' HL2]. split; [done|].
    intros key Hk. by rewrite HL2, HL1.
  - intros key Hk. by rewrite S2, S1.
  - intros key Hk. destruct (N2 key Hk) as [Hk'|]; [|by right]. destruct (N1 key Hk') as [|Ha]; [by left|].
    right. destruct W2 as [[Hn|He] _]; congruence.
  - intros s Hs. by rewrite C2, C1.
  - auto.
Qed.

(** An update of the parts that the frame does not speak of. *)
Lemma frame_update d d' :
  worker d' = worker d → assignments d' = assignments d → sandboxes d' = sandboxes d →
  tenant_counters d' = tenant_counters d → active d' = active d → (shutdown d = true → shutdown d' = true) →
  frame d d'.
Proof. intros Hw Ha Hs Ht Hac Hsh. split; rewrite ?Hw, ?Ha, ?Hs, ?Ht; auto; reflexivity. Qed.

Lemma frame_set_worker d w : advances (worker d) w → frame d (set_worker w d).
Proof. intros Hw. split; simpl; auto. Qed.

Lemma frame_set_sandboxes key d m :
  mine (scope key) → (∀ k, k ≠ key → m !! k = sandboxes d !! k) →
  (is_Some (m !! key) → is_Some (sandboxes d !! key) ∨ assigned d = Some key) →
  frame d (set_sandboxes m d).
Proof.
  intros Hmine Hm Hkey. split; simpl; auto; [reflexivity|..].
  - intros k Hk. apply Hm. by intros ->.
  - intros k. destruct (decide (k = key)) as [->|Hne]; [done|]. rewrite Hm by done. auto.
Qed.

Lemma on_assignments_frame {A} key (c : M As SandboxError A) :
  mine (scope key) → keeps (confined key) c → keeps frame (on_assignments c).
Proof.
  intros Hmine Hc d. unfold on_assignments. specialize (Hc (assignments d)).
  destruct (c (assignments d)) as [a r]. simpl in *. split; simpl; auto; [reflexivity|].
  intros Ha. destruct (Hc Ha) as [Ha' Hk]. split; [done|]. intros k Hk'. apply Hk. by intros ->.
Qed.

Lemma on_worker_frame {A} (c : M WorkerSlot.WorkerSlot SandboxError A) :
  keeps advances c → keeps frame (on_worker c).
Proof.
  intros Hc d. unfold on_worker. specialize (Hc (worker d)). destruct (c (worker d)).
  by apply frame_set_worker.
Qed.

Lemma on_instance_frame {A} key (c : M (I * X) SandboxError A) :
  mine (scope key) → keeps frame (on_instance key c).
Proof.
  intros Hmine d. unfold on_instance. destruct (sandboxes d !! key) as [i|] eqn:Hi; [|reflexivity].
  destruct (c (i, world d)) as [[i' x] r]. simpl. etrans; [apply (frame_set_sandboxes key)|by apply frame_update].
  - done.
  - intros k Hk. by rewrite lookup_insert_ne.
  - rewrite Hi. eauto.
Qed.

Lemma attempt_frame {A} (c : D A) : keeps frame c → keeps frame (attempt c).
Proof. intros Hc d. unfold attempt. specialize (Hc d). by destruct (c d) as [d' [a|[e|m]]]. Qed.

Lemma finally_frame {A} f (c : D A) : (∀ d, frame d (f d)) → keeps frame c → keeps frame (finally f c).
Proof. intros Hf Hc d. unfold finally. specialize (Hc d). destruct (c d). simpl in *. etrans; [done|apply Hf]. Qed.

Ltac frame_update := intros ?; cbv [on_admission on_world on_store on_new_instance]; simpl;
  repeat case_match; by apply frame_update.

Lemma on_admission_frame {A} (c : M (Admission.AdmissionState P) (failure SandboxError) A) :
  keeps frame (on_admission c).
Proof. frame_update. Qed.
Lemma on_world_frame {A} (c : M X SandboxError A) : keeps frame (on_world c).
Proof. frame_update. Qed.
Lemma on_store_frame {A} (c : M X string A) : keeps frame (on_store c).
Proof. frame_update. Qed.
Lemma on_new_instance_frame {A} i (c : M (I * X) SandboxError A) : keeps frame (on_new_instance i c).
Proof. frame_update. Qed.
Lemma drop_sandbox_frame i d : frame d (drop_sandbox i d).
Proof. by apply frame_update. Qed.
Lemma drop_removed_frame i d : frame d (drop_removed i d).
Proof. destruct i; by apply frame_update. Qed.
Lemma set_shutdown_frame d : frame d (set_shutdown true d).
Proof. by apply frame_update. Qed.

Lemma worker_quarantine_frame key : keeps frame (worker_quarantine key).
Proof.
  intros d. unfold worker_quarantine. destruct (marker_outcome (world d)) as [x io].
  etrans; [|apply (on_worker_frame _ (do_op_advances (DoQuarantine io (Some key))))]. by apply frame_update.
Qed.
Lemma worker_recycle_clean_frame key : keeps frame (worker_recycle_clean key).
Proof.
  intros d. unfold worker_recycle_clean. destruct (marker_outcome (world d)) as [x io].
  etrans; [|apply (on_worker_frame _ (do_op_advances (DoRecycle io key)))]. by apply frame_update.
Qed.
Lemma worker_lease_frame key : keeps frame (worker_lease key).
Proof. intros d. apply (on_worker_frame _ (do_op_advances (DoLease (monotonic_millis (world d)) key))). Qed.

Create HintDb frames.
#[local] Hint Resolve on_admission_frame on_world_frame on_store_frame on_new_instance_frame drop_sandbox_frame
  drop_removed_frame set_shutdown_frame worker_quarantine_frame worker_recycle_clean_frame worker_lease_frame
  on_instance_frame attempt_frame finally_frame : frames.
#[local] Hint Resolve begin_confined begin_restore_confined begin_fencing_confined mark_transferable_confined
  mark_confined on_assignments_frame : frames.
#[local] Hint Extern 1 (keeps frame (on_worker (WorkerSlot.mark_running ?key))) =>
  apply (on_worker_frame _ (do_op_advances (DoMarkRunning key))) : frames.
#[local] Hint Extern 1 (keeps frame (on_worker (WorkerSlot.begin_draining ?key))) =>
  apply (on_worker_frame _ (do_op_advances (DoBeginDraining key))) : frames.
#[local] Hint Extern 1 (keeps frame (on_worker (WorkerSlot.begin_cleaning ?key))) =>
  apply (on_worker_frame _ (do_op_advances (DoBeginCleaning key))) : frames.
#[local] Hint Extern 1 (keeps frame (on_worker (WorkerSlot.cancel_draining ?key))) =>
  apply (on_worker_frame _ (do_op_advances (DoCancelDraining key))) : frames.

(** Follows a handler call by call. *)
Ltac framed_step :=
  match goal with
  | |- keeps frame (_ ≫= _) => apply keeps_bind; [apply _|..|intros ?]
  | |- keeps frame (let _ := _ in _) => cbv zeta
  | |- keeps frame (match ?x with _ => _ end) => destruct x
  | |- keeps frame (M_modify _) => apply keeps_modify
  | |- keeps frame (finally _ _) => apply finally_frame
  | |- keeps frame (attempt _) => apply attempt_frame
  | |- keeps frame (lift _) => unfold lift
  | |- keeps frame _ => solve [eauto 4 with frames keeps typeclass_instances]
  | |- ∀ _, frame _ _ => intros ?
  | |- frame _ _ => solve [eauto 3 with frames | by apply frame_update]
  end.
Ltac framed := repeat framed_step.

Section scoped.
Context (key : SandboxKey) (Hmine : mine (scope key)).

Lemma quarantine_after_failure_frame error : keeps frame (quarantine_after_failure key error).
Proof. unfold quarantine_after_failure. framed. Qed.
#[local] Hint Resolve quarantine_after_failure_frame : frames.

Lemma mark_failed_frame epoch error : keeps frame (mark_failed key epoch error).
Proof. unfold mark_failed. framed. Qed.
#[local] Hint Resolve mark_failed_frame : frames.

Lemma quarantined_frame {A} error : keeps frame (quarantined (A := A) key error).
Proof. unfold quarantined. framed. Qed.
Lemma failed_frame {A} epoch error : keeps frame (failed (A := A) key epoch error).
Proof. unfold failed. framed. Qed.
#[local] Hint Resolve quarantined_frame failed_frame : frames.

Lemma or_failed_frame {A} epoch (c : D A) : keeps frame c → keeps frame (or_failed key epoch c).
Proof. intros Hc. unfold or_failed. framed. Qed.
Lemma or_quarantined_frame {A} (c : D A) : keeps frame c → keeps frame (or_quarantined key c).
Proof. intros Hc. unfold or_quarantined. framed. Qed.
Lemma or_dropped_frame epoch i (c : D ()) : keeps frame c → keeps frame (or_dropped key epoch i c).
Proof. intros Hc. unfold or_dropped. framed. Qed.
Lemma on_fresh_frame {A} epoch i b (c : M (I * X) SandboxError A) : keeps frame (on_fresh key epoch i b c).
Proof. unfold on_fresh. framed. Qed.

Lemma remove_sandbox_frame : keeps frame (remove_sandbox key).
Proof.
  intros d. apply (frame_set_sandboxes key); [done|intros k Hk; by rewrite lookup_delete_ne|].
  rewrite lookup_delete_eq. by intros [].
Qed.

Lemma require_sandbox_frame name : keeps frame (require_sandbox key name).
Proof. unfold require_sandbox. framed. Qed.
Lemma reject_existing_frame name : keeps frame (reject_existing key name).
Proof. unfold reject_existing. framed. Qed.
Lemma current_frame expected : keeps frame (current key expected).
Proof. unfold current, lift. framed. Qed.
Lemma clock_frame : keeps frame clock.
Proof. unfold clock. framed. Qed.
Lemma admit_topology_frame topology : keeps frame (admit_topology config topology).
Proof. unfold admit_topology. framed. Qed.

#[local] Hint Resolve or_failed_frame or_quarantined_frame or_dropped_frame on_fresh_frame remove_sandbox_frame
  require_sandbox_frame reject_existing_frame current_frame clock_frame admit_topology_frame : frames.

Lemma complete_worker_cleanup_frame : keeps frame (complete_worker_cleanup key).
Proof. unfold complete_worker_cleanup. framed. Qed.
#[local] Hint Resolve complete_worker_cleanup_frame : frames.

Lemma finish_terminal_assignment_frame epoch : keeps frame (finish_terminal_assignment key epoch).
Proof. unfold finish_terminal_assignment. framed. Qed.
#[local] Hint Resolve finish_terminal_assignment_frame : frames.

(** A reservation is given back on every path. *)
Lemma reserved_frame {A} (c : D A) : keeps frame c → keeps frame (reserved key c).
Proof.
  intros Hc d. unfold reserved, acquire. unfold_M.
  destruct (shutdown d); [reflexivity|]. case_bool_decide as Ha; [reflexivity|]. simpl.
  unfold finally. set (d1 := set_active _ d). specialize (Hc d1). destruct (c d1) as [d2 r]. simpl in *.
  destruct Hc as [W L S N C A' Sh]. split; auto. simpl. rewrite A'. simpl. set_solver.
Qed.
#[local] Hint Resolve reserved_frame : frames.

(** The worker runs [key] when its sandbox is published. *)
Lemma or_dropped_Ok epoch i (c : D ()) d d' : or_dropped key epoch i c d = (d', Ok tt) → c d = (d', Ok tt).
Proof.
  unfold or_dropped, attempt, failed, reject. intros Hrun.
  apply M_bind_Ok_inv in Hrun as (r & d1 & Hc & Hrun).
  destruct (c d) as [d2 [[]|[e|m]]]; simplify_eq; [by injection Hrun as <-|].
  apply M_bind_Ok_inv in Hrun as (? & ? & _ & Hrun). by apply M_bind_Ok_inv in Hrun as (? & ? & _ & ?).
Qed.

Lemma on_worker_Ok {A} (c : M WorkerSlot.WorkerSlot SandboxError A) d d' a :
  on_worker c d = (d', Ok a) → ∃ w, c (worker d) = (w, Ok a) ∧ d' = set_worker w d.
Proof. unfold on_worker. destruct (c (worker d)) as [w [b|e]]; intros; simplify_eq/=. eauto. Qed.

Lemma publish_frame epoch i (rest : D Json) :
  keeps frame rest →
  keeps frame (or_dropped key epoch i (on_worker (WorkerSlot.mark_running key));;
               M_modify (λ d, set_sandboxes (<[key := i]> (sandboxes d)) d);; rest).
Proof.
  intros Hrest d. unfold mbind at 1, M_bind at 1.
  assert (keeps frame (or_dropped key epoch i (on_worker (WorkerSlot.mark_running key)))) as Hor by framed.
  specialize (Hor d). destruct (or_dropped key epoch i _ d) as [d1 [[]|e]] eqn:Hrun; [|done]. simpl in Hor.
  apply or_dropped_Ok, on_worker_Ok in Hrun as (w & Hw & ->).
  apply (do_op_key (DoMarkRunning key) key) in Hw; [|done].
  etrans; [exact Hor|]. unfold mbind, M_bind, M_modify. etrans; [|apply Hrest].
  apply (frame_set_sandboxes key); [done|intros k Hk; by rewrite lookup_insert_ne|eauto].
Qed.
#[local] Hint Resolve publish_frame : frames.

Lemma publish_instance_frame context epoch i : keeps frame (publish_instance config context key epoch i).
Proof.
  unfold publish_instance.
  apply keeps_bind; [apply _|by framed|intros [i1 status]].
  apply keeps_bind; [apply _|by framed|intros _].
  apply keeps_bind; [apply _|by framed|intros [i2 _]]. apply publish_frame. framed.
Qed.
#[local] Hint Resolve publish_instance_frame : frames.

Lemma snapshot_failed_frame {A} epoch b error : keeps frame (snapshot_failed (A := A) key epoch b error).
Proof. unfold snapshot_failed, reject. framed. Qed.
Lemma fence_source_frame epoch id : keeps frame (fence_source key epoch id).
Proof. unfold fence_source, reject. framed. Qed.
Lemma publish_move_frame {A} epoch id (k : Z → D A) :
  (∀ z, keeps frame (k z)) → keeps frame (publish_move key epoch id k).
Proof. intros Hk. unfold publish_move. framed. Qed.
Lemma with_key_frame epoch operator c : keeps frame (with_key config key epoch operator c).
Proof. unfold with_key. framed. Qed.
End scoped.

#[local] Hint Resolve or_failed_frame or_quarantined_frame require_sandbox_frame reject_existing_frame current_frame
  admit_topology_frame complete_worker_cleanup_frame finish_terminal_assignment_frame remove_sandbox_frame
  publish_instance_frame snapshot_failed_frame fence_source_frame with_key_frame failed_frame reserved_frame : frames.

Lemma update_tenant_frame context f d : mine (context_scope context) → frame d (update_tenant context f d).
Proof.
  intros Hmine. unfold update_tenant. destruct (is_operator context); [reflexivity|].
  split; simpl; auto; [reflexivity|]. intros s Hs. rewrite lookup_insert_ne; [done|]. by intros <-.
Qed.

Lemma record_run_frame context b d : mine (context_scope context) → frame d (record_run context b d).
Proof.
  intros Hmine. unfold record_run. etrans; [|by apply update_tenant_frame]. by apply frame_update.
Qed.
Lemma count_request_frame context d : mine (context_scope context) → frame d (count_request context d).
Proof.
  intros Hmine. unfold count_request. etrans; [|by apply update_tenant_frame]. by apply frame_update.
Qed.
#[local] Hint Resolve record_run_frame count_request_frame : frames.

Section handlers.
Context (context : AccessContext) (Hcontext : mine (context_scope context)).

(** The key of a request is in the scope of its context. *)
Lemma sandbox_key_scope sandbox key : sandbox_key context sandbox = Ok key → scope key = context_scope context.
Proof. unfold sandbox_key. destruct (parse sandbox); [|done]. by intros [= <-]. Qed.

Lemma with_sandbox_key_frame {A} sandbox (k : SandboxKey → D A) :
  (∀ key, mine (scope key) → keeps frame (k key)) → keeps frame (lift (sandbox_key context sandbox) ≫= k).
Proof.
  intros Hk d. unfold lift. unfold_M. destruct (sandbox_key context sandbox) as [key|] eqn:Hkey; [|reflexivity].
  apply Hk. by rewrite (sandbox_key_scope _ _ Hkey).
Qed.

Ltac framed_request :=
  repeat first
    [ match goal with
      | |- keeps frame (lift (sandbox_key _ _) ≫= _) => apply with_sandbox_key_frame; intros ? ?
      | |- keeps frame (reserved _ _) => apply reserved_frame; [done|]
      | |- keeps frame (publish_move _ _ _ _) => apply publish_move_frame; [done|intros ?]
      end
    | framed_step ].

Lemma run_frame topology sandbox wait_for timeout : keeps frame (run config context topology sandbox wait_for timeout).
Proof. unfold run, run_leased. framed_request. Qed.
Lemma create_frame topology sandbox timeout : keeps frame (create config context topology sandbox timeout).
Proof. unfold create, create_leased. framed_request. Qed.
Lemma restore_frame topology sandbox id timeout fenced :
  keeps frame (restore config context topology sandbox id timeout fenced).
Proof. unfold restore, restore_leased. framed_request. Qed.
Lemma with_sandbox_frame sandbox c : keeps frame (with_sandbox config context sandbox c).
Proof. unfold with_sandbox. framed_request. Qed.
Lemma stop_frame sandbox : keeps frame (stop config context sandbox).
Proof. unfold stop. framed_request. Qed.
Lemma snapshot_frame sandbox id mode : keeps frame (snapshot config context sandbox id mode).
Proof. unfold snapshot. framed_request. Qed.

Lemma collect_sandboxes_frame describe keys :
  (∀ key, key ∈ keys → mine (scope key)) → keeps frame (collect_sandboxes config describe keys).
Proof.
  induction keys as [|key keys IH]; simpl; intros Hkeys; [framed|].
  assert (mine (scope key)) by (apply Hkeys; set_solver).
  assert (keeps frame (collect_sandboxes config describe keys)) by (apply IH; intros k Hk; apply Hkeys; set_solver).
  framed.
Qed.

Lemma collect_frame :
  (is_operator context = true → ∀ s, mine s) → keeps frame (collect config context).
Proof.
  intros Hop. unfold collect, collect_operator, collect_tenant, worker_status.
  destruct (is_operator context); framed; apply collect_sandboxes_frame; [auto|].
  intros key [Hscope _]%list_elem_of_filter. by rewrite Hscope.
Qed.

Lemma handle_frame operation :
  (is_operator context = true → operation = OpStats → ∀ s, mine s) → keeps frame (handle config operation context).
Proof.
  intros Hop. unfold handle. apply keeps_bind; [apply _|framed|intros _].
  destruct operation; cbn [dispatch];
    auto using run_frame, create_frame, restore_frame, stop_frame, snapshot_frame, collect_frame;
    try apply with_sandbox_frame;
    unfold capabilities, readiness, admit_request, publish_artifact, garbage_collect_artifacts, graceful_shutdown,
      worker_status, require_operator, lift; framed.
Qed.
End handlers.
End frames.

(** ** How an operation that took the worker ends *)




Definition calm d d' : Prop := advances (worker d) (worker d') ∧ sandboxes d' = sandboxes d.

#[global] Instance calm_preorder : PreOrder calm.
Proof.
  split; [by split|]. intros d1 d2 d3 [W1 S1] [W2 S2]. split; [by etrans|congruence].
Qed.


Ltac calm := intros ?; cbv [on_assignments on_admission on_world on_store on_new_instance]; simpl;
  repeat case_match; by split.

Lemma on_new_instance_calm {A} i (c : M (I * X) SandboxError A) : keeps calm (on_new_instance i c).
Proof. calm. Qed.


Section outcomes.
Context (key : SandboxKey) (m : gmap SandboxKey I).












End outcomes.


(** Everything before the lease. *)
Definition still d d' : Prop := worker d' = worker d ∧ sandboxes d' = sandboxes d.
#[global] Instance still_preorder : PreOrder still.
Proof. split; [by split|]. intros ??? [] []. split; congruence. Qed.





(** ** What a success has done *)

Lemma attempt_Ok {A} (c : D A) d d' r :
  attempt c d = (d', Ok r) → c d = (d', map_err Rejected r).
Proof. unfold attempt. destruct (c d) as [d1 [a|[e|m]]]; intros; by simplify_eq/=. Qed.

Lemma failed_not_Ok {A} key epoch error d d' a : failed (A := A) key epoch error d ≠ (d', Ok a).
Proof. unfold failed, reject. intros Hrun. by apply M_bind_Ok_inv in Hrun as (? & ? & _ & ?). Qed.
Lemma quarantined_not_Ok {A} key error d d' a : quarantined (A := A) key error d ≠ (d', Ok a).
Proof. unfold quarantined, reject. intros Hrun. by apply M_bind_Ok_inv in Hrun as (? & ? & _ & ?). Qed.

Lemma or_failed_Ok {A} key epoch (c : D A) d d' a : or_failed key epoch c d = (d', Ok a) → c d = (d', Ok a).
Proof.
  unfold or_failed. intros Hrun. apply M_bind_Ok_inv in Hrun as ([b|e] & d1 & Hc%attempt_Ok & Hrun).
  - by injection Hrun as <- <-.
  - by apply failed_not_Ok in Hrun.
Qed.
Lemma or_quarantined_Ok {A} key (c : D A) d d' a : or_quarantined key c d = (d', Ok a) → c d = (d', Ok a).
Proof.
  unfold or_quarantined. intros Hrun. apply M_bind_Ok_inv in Hrun as ([b|e] & d1 & Hc%attempt_Ok & Hrun).
  - by injection Hrun as <- <-.
  - by apply quarantined_not_Ok in Hrun.
Qed.

Lemma on_assignments_Ok {A} (c : M As SandboxError A) d d' a :
  on_assignments c d = (d', Ok a) → ∃ s, c (assignments d) = (s, Ok a) ∧ d' = set_assignments s d.
Proof. unfold on_assignments. destruct (c (assignments d)) as [s [b|e]]; intros; simplify_eq/=. eauto. Qed.

Lemma on_world_Ok {A} (c : M X SandboxError A) d d' a :
  on_world c d = (d', Ok a) → ∃ x, d' = set_world x d.
Proof. unfold on_world. destruct (c (world d)) as [x [b|e]]; intros; simplify_eq/=. eauto. Qed.

Lemma on_admission_Ok {A} (c : M (Admission.AdmissionState P) (failure SandboxError) A) d d' a :
  on_admission c d = (d', Ok a) → ∃ s, d' = set_admission s d.
Proof. unfold on_admission. destruct (c (admission d)) as [s r]; intros; simplify_eq/=. eauto. Qed.

(** A worker that has finished its assignment: the marker that keeps it from
    serving again is on disk and the daemon is about to stop. *)
Record recycled key d : Prop := Recycled {
  recycled_shutdown : shutdown d = true;
  recycled_assignment : assigned d = Some key;
  recycled_state : WorkerSlot.state (WorkerSlot.slot (worker d)) = Cleaning;
  recycled_marker : WorkerSlot.marker (worker d) = true;
  recycled_required : WorkerSlot.recycle_required (WorkerSlot.slot (worker d)) = true
}.

Lemma complete_worker_cleanup_Ok key d d' :
  complete_worker_cleanup key d = (d', Ok tt) →
  recycled key d' ∧ assignments d' = assignments d ∧ sandboxes d' = sandboxes d.
Proof.
  unfold complete_worker_cleanup. intros Hrun.
  apply M_bind_Ok_inv in Hrun as ([] & d1 & (w1 & _ & ->)%on_worker_Ok & Hrun).
  apply M_bind_Ok_inv in Hrun as ([] & d2 & Hr & [= <-]). unfold worker_recycle_clean in Hr.
  destruct (marker_outcome _) as [x io]. apply on_worker_Ok in Hr as (w & Hw%recycle_clean_Ok & ->).
  destruct Hw as (? & ? & ? & ?). by repeat split.
Qed.

(** The record of [key] in the ledger of [d]. *)
Definition on_record key d (Q : Ledger.AssignmentRecord → Prop) : Prop :=
  ∃ r, recorded (assignments d) key = Some r ∧ Q r.

Lemma finish_terminal_assignment_Ok key epoch d d' :
  consistent (assignments d) → finish_terminal_assignment key epoch d = (d', Ok tt) →
  recycled key d' ∧ sandboxes d' = sandboxes d ∧
  on_record key d' (λ r, Ledger.epoch r = epoch ∧ Ledger.state r = Ledger.Stopped).
Proof.
  unfold finish_terminal_assignment. intros Hc Hrun.
  apply M_bind_Ok_inv in Hrun as ([] & d1 & (w1 & _ & ->)%on_worker_Ok & Hrun).
  apply M_bind_Ok_inv in Hrun as ([] & d2 & (s & Hs & ->)%on_assignments_Ok & Hrun).
  apply complete_worker_cleanup_Ok in Hrun as (Hr & Ha & Hsb). split_and!; [done|done|].
  unfold on_record. rewrite Ha. simpl in Hs |- *. by eapply mark_recorded.
Qed.

Lemma run_leased_Ok context topology key wait_for timeout d d' v :
  consistent (assignments d) →
  run_leased config context topology key wait_for timeout d = (d', Ok v) →
  recycled key d' ∧ sandboxes d' = sandboxes d ∧
  on_record key d' (λ r, Ledger.state r = Ledger.Stopped ∧
    ∀ e, context_assignment_epoch context = Some e → Ledger.epoch r = e).
Proof.
  unfold run_leased. intros Hc Hrun.
  apply M_bind_Ok_inv in Hrun as ([] & d1 & (w & _ & ->)%on_worker_Ok & Hrun).
  apply M_bind_Ok_inv in Hrun as (e & d2 & Hb%or_quarantined_Ok & Hrun).
  apply on_assignments_Ok in Hb as (s & Hs & ->). simpl in Hs.
  apply M_bind_Ok_inv in Hrun as (adm & d3 & Ha%or_failed_Ok & Hrun).
  apply on_admission_Ok in Ha as (sa & ->).
  apply M_bind_Ok_inv in Hrun as ([] & d4 & Hm%or_failed_Ok & Hrun). apply on_worker_Ok in Hm as (w' & _ & ->).
  apply M_bind_Ok_inv in Hrun as ([value|error] & d5 & Hx%attempt_Ok & Hrun); [|].
  2: { apply M_bind_Ok_inv in Hrun as (? & ? & _ & Hrun). by apply failed_not_Ok in Hrun. }
  apply on_world_Ok in Hx as (x & ->).
  apply M_bind_Ok_inv in Hrun as ([] & d6 & Hf%or_quarantined_Ok & Hrun).
  destruct (begin_recorded _ _ _ _ _ Hc Hs) as [_ He].
  destruct (begin_confined key (context_assignment_epoch context) (assignments d)) as [Hc' _]; [done|].
  rewrite Hs in Hc'. apply finish_terminal_assignment_Ok in Hf as ([] & Hsb & (r & Hr & Hep & Hst)); [|done].
  apply M_bind_Ok_inv in Hrun as (? & d7 & [= <-] & [= <- _]). unfold on_record, record_run, update_tenant.
  destruct (is_operator context); simpl in *; (split; [by split|]); split; try done; exists r; split; try done; split;
    [done|intros e' He'; by rewrite Hep, (He e' He')|done|intros e' He'; by rewrite Hep, (He e' He')].
Qed.

Lemma finally_Ok {A} f (c : D A) d d' a : finally f c d = (d', Ok a) → ∃ d1, c d = (d1, Ok a) ∧ d' = f d1.
Proof. unfold finally. destruct (c d) as [d1 r]. intros [= <- ->]. eauto. Qed.

Lemma service_lift_Ok {A} (r : result SandboxError A) d d' a : lift (P := P) r d = (d', Ok a) → d' = d ∧ r = Ok a.
Proof. unfold lift, M_lift. destruct r; intros; by simplify_eq/=. Qed.

Lemma current_Ok key expected d d' e :
  current key expected d = (d', Ok e) →
  d' = d ∧ on_record key d (λ r, Ledger.epoch r = e ∧ Ledger.state r = Ledger.Active) ∧
  ∀ e', expected = Some e' → e = e'.
Proof.
  unfold current. intros Hrun. apply M_bind_Ok_inv in Hrun as (d0 & d1 & [= <- <-] & [-> Hrun]%service_lift_Ok).
  split; [done|]. by apply require_current_recorded.
Qed.

Lemma on_instance_Ok {A} key (c : M (I * X) SandboxError A) d d' a :
  on_instance key c d = (d', Ok a) →
  ∃ i x, is_Some (sandboxes d !! key) ∧ d' = set_world x (set_sandboxes (<[key := i]> (sandboxes d)) d).
Proof.
  unfold on_instance. destruct (sandboxes d !! key) as [i|]; [|done].
  destruct (c (i, world d)) as [[i' x] [b|e]]; intros; simplify_eq/=. eauto.
Qed.

Lemma require_sandbox_Ok key name d d' :
  require_sandbox key name d = (d', Ok tt) → d' = d ∧ is_Some (sandboxes d !! key).
Proof. unfold require_sandbox. unfold_M. case_bool_decide; [|done]. by intros [= <-]. Qed.

Lemma drop_removed_same i d :
  worker (drop_removed i d) = worker d ∧ assignments (drop_removed i d) = assignments d ∧
  sandboxes (drop_removed i d) = sandboxes d ∧ shutdown (drop_removed i d) = shutdown d.
Proof. by destruct i. Qed.

Lemma recycled_drop key i d : recycled key d → recycled key (drop_removed i d).
Proof. intros []. by destruct i; split. Qed.

(** The handlers that end an assignment, with the key [key]. *)
Definition ended key d' (Q : Ledger.AssignmentRecord → Prop) : Prop :=
  recycled key d' ∧ sandboxes d' !! key = None ∧ on_record key d' Q.

Lemma stop_Ok context sandbox d d' v :
  consistent (assignments d) → stop config context sandbox d = (d', Ok v) →
  ∃ key, sandbox_key context sandbox = Ok key ∧
    ended key d' (λ r, Ledger.state r = Ledger.Stopped ∧
      ∀ e, context_assignment_epoch context = Some e → Ledger.epoch r = e).
Proof.
  unfold stop. intros Hc Hrun.
  apply M_bind_Ok_inv in Hrun as (key & d1 & [-> Hkey]%service_lift_Ok & Hrun). exists key. split; [done|].
  apply M_bind_Ok_inv in Hrun as (e & d1 & (-> & _ & He)%current_Ok & Hrun).
  apply M_bind_Ok_inv in Hrun as ([] & d1 & [-> _]%require_sandbox_Ok & Hrun).
  apply M_bind_Ok_inv in Hrun as (e1 & d1 & (-> & _)%current_Ok & Hrun).
  apply M_bind_Ok_inv in Hrun as ([] & d1 & (w & _ & ->)%on_worker_Ok & Hrun).
  apply M_bind_Ok_inv in Hrun as (status & d2 & Hs%or_failed_Ok & Hrun).
  apply on_instance_Ok in Hs as (i & x & _ & ->).
  apply M_bind_Ok_inv in Hrun as ([] & d3 & Hm%or_failed_Ok & Hrun).
  apply on_assignments_Ok in Hm as (s & Hm & ->).
  apply M_bind_Ok_inv in Hrun as (removed & d4 & [= <- <-] & Hrun).
  apply finally_Ok in Hrun as (d5 & Hrun & ->).
  apply M_bind_Ok_inv in Hrun as ([] & d6 & Hq%or_quarantined_Ok & [= <- _]).
  apply complete_worker_cleanup_Ok in Hq as (Hr & Ha & Hsb). simpl in *.
  destruct (mark_recorded _ _ _ _ _ Hc Hm) as (r & Hrec & Hep & Hst).
  split_and!; [by apply recycled_drop|..].
  - rewrite (proj1 (proj2 (proj2 (drop_removed_same _ d6)))), Hsb. apply lookup_delete_eq.
  - exists r. rewrite (proj1 (proj2 (drop_removed_same _ d6))), Ha.
    split_and!; [done..|]. intros e' He'. by rewrite Hep, (He e' He').
Qed.

Lemma step_consistent {A} (c : D A) d d' r :
  keeps (frame (λ _, True)) c → c d = (d', r) → consistent (assignments d) → consistent (assignments d').
Proof. intros Hc Hrun Hd. specialize (Hc d). rewrite Hrun in Hc. by apply frame_ledger in Hc as [? _]. Qed.

Lemma publish_move_Ok {A} key epoch id (k : Z → D A) d d' a :
  consistent (assignments d) → (∀ z d1 d2 b, k z d1 = (d2, Ok b) → d2 = d1) →
  publish_move key epoch id k d = (d', Ok a) →
  ended key d' (λ r, Ledger.epoch r = epoch ∧ Ledger.state r = Ledger.Transferable ∧
                     Ledger.snapshot_id r = Some id).
Proof.
  unfold publish_move. intros Hc Hk Hrun.
  apply M_bind_Ok_inv in Hrun as (z & d1 & Hz & Hrun).
  assert (d1 = d) as -> by (unfold clock in Hz; by apply M_bind_Ok_inv in Hz as (? & ? & [= <- <-] & [= <-])).
  apply M_bind_Ok_inv in Hrun as ([[]|error] & d1 & Hg & Hrun).
  2: { apply M_bind_Ok_inv in Hrun as (? & ? & _ & Hrun). apply finally_Ok in Hrun as (? & Hrun & _).
       by apply failed_not_Ok in Hrun. }
  assert (assignments d1 = assignments d) as Ha1.
  { unfold on_store in Hg. destruct (publish_transfer_grant _ _ _). by injection Hg as <- _. }
  apply M_bind_Ok_inv in Hrun as (now & d2 & Hz' & Hrun).
  assert (d2 = d1) as -> by (unfold clock in Hz'; by apply M_bind_Ok_inv in Hz' as (? & ? & [= <- <-] & [= <-])).
  apply M_bind_Ok_inv in Hrun as (moved & d2 & Hm%attempt_Ok & Hrun).
  apply M_bind_Ok_inv in Hrun as (removed & d3 & [= <- <-] & Hrun).
  apply finally_Ok in Hrun as (d4 & Hrun & ->).
  destruct moved as [[]|error]; [|by apply failed_not_Ok in Hrun].
  apply on_assignments_Ok in Hm as (s & Hm & ->). rewrite Ha1 in Hm.
  apply M_bind_Ok_inv in Hrun as ([] & d5 & Hq%or_quarantined_Ok & ->%Hk).
  apply complete_worker_cleanup_Ok in Hq as (Hr & Ha & Hsb). simpl in *.
  destruct (mark_transferable_recorded _ _ _ _ _ Hc Hm) as (r & Hrec & Hep & Hst & Hid).
  split_and!; [by apply recycled_drop|..].
  - rewrite (proj1 (proj2 (proj2 (drop_removed_same _ d5)))), Hsb. apply lookup_delete_eq.
  - exists r. by rewrite (proj1 (proj2 (drop_removed_same _ d5))), Ha.
Qed.

Lemma snapshot_move_Ok context sandbox snapshot d d' v :
  consistent (assignments d) →
  Service.snapshot config context sandbox snapshot Snapshot.StopAndMove d = (d', Ok v) →
  ∃ key id, sandbox_key context sandbox = Ok key ∧ snapshot_id snapshot = Ok id ∧
    ended key d' (λ r, (Ledger.state r = Ledger.Transferable ∧ Ledger.snapshot_id r = Some id) ∧
      ∀ e, context_assignment_epoch context = Some e → Ledger.epoch r = e).
Proof.
  unfold Service.snapshot. intros Hc Hrun. rewrite bool_decide_true in Hrun by done.
  apply M_bind_Ok_inv in Hrun as (id & d1 & [-> Hid]%service_lift_Ok & Hrun).
  apply M_bind_Ok_inv in Hrun as (key & d1 & [-> Hkey]%service_lift_Ok & Hrun).
  apply M_bind_Ok_inv in Hrun as (e & d1 & (-> & _ & He)%current_Ok & Hrun).
  apply M_bind_Ok_inv in Hrun as ([] & d1 & [-> _]%require_sandbox_Ok & Hrun). cbv zeta in Hrun.
  apply M_bind_Ok_inv in Hrun as (e1 & d1 & (-> & _)%current_Ok & Hrun).
  apply M_bind_Ok_inv in Hrun as (z & d1 & Hf & Hrun).
  apply step_consistent in Hf as Hc1; [|by apply fence_source_frame|done].
  apply M_bind_Ok_inv in Hrun as (taken & d2 & Ht & Hrun).
  apply step_consistent in Ht as Hc2; [|apply attempt_frame; by apply on_instance_frame|done].
  destruct taken as [summary|error].
  2: { apply M_bind_Ok_inv in Hrun as (? & ? & Hrun & _). exfalso. revert Hrun. unfold snapshot_failed. intros Hrun.
       apply M_bind_Ok_inv in Hrun as (d3 & d4 & [= <- <-] & Hrun). case_match.
       - inv_ok Hrun. done.
       - apply M_bind_Ok_inv in Hrun as (? & ? & _ & Hrun). apply finally_Ok in Hrun as (? & Hrun & _).
         by apply failed_not_Ok in Hrun. }
  apply M_bind_Ok_inv in Hrun as (sum & d3 & [= <- <-] & Hrun).
  apply publish_move_Ok in Hrun as (Hr & Hs & (r & Hrec & Hep & Hst)); [|done|].
  - exists key, id. do 2 (split; [done|]). split; [done|]. split; [done|]. exists r. do 2 (split; [done|]).
    intros e' He'. by rewrite Hep, (He e' He').
  - intros z' d3 d4 b [= <- _]. done.
Qed.

Lemma on_fresh_Ok {A} key epoch i b (c : M (I * X) SandboxError A) d d' i' a :
  on_fresh key epoch i b c d = (d', Ok (i', a)) → ∃ x, d' = set_world x d.
Proof.
  unfold on_fresh, on_new_instance. unfold_M. destruct (c (i, world d)) as [[i1 x] [a1|e]]; simpl.
  - intros [= <- _ _]. eauto.
  - destruct b; intros Hrun; [by apply failed_not_Ok in Hrun|].
    apply finally_Ok in Hrun as (? & Hrun & _). by apply failed_not_Ok in Hrun.
Qed.

(** A published sandbox: it is the worker's, and its record is active. *)
Definition published key d d' (Q : Ledger.AssignmentRecord → Prop) : Prop :=
  assigned d' = Some key ∧ WorkerSlot.state (WorkerSlot.slot (worker d')) = Running ∧
  shutdown d' = shutdown d ∧ (∃ i, sandboxes d' = <[key := i]> (sandboxes d)) ∧ on_record key d' Q.

Lemma publish_instance_Ok context key epoch i d d' v :
  consistent (assignments d) → publish_instance config context key epoch i d = (d', Ok v) →
  published key d d' (λ r, Ledger.state r = Ledger.Active ∧ Ledger.epoch r = epoch).
Proof.
  unfold publish_instance. intros Hc Hrun.
  apply M_bind_Ok_inv in Hrun as ([i1 status] & d1 & (x1 & ->)%on_fresh_Ok & Hrun).
  apply M_bind_Ok_inv in Hrun as ([] & d2 & Hm%or_dropped_Ok & Hrun). apply on_assignments_Ok in Hm as (s & Hm & ->).
  apply M_bind_Ok_inv in Hrun as ([i2 []] & d3 & (x3 & ->)%on_fresh_Ok & Hrun).
  apply M_bind_Ok_inv in Hrun as ([] & d4 & Hw%or_dropped_Ok & Hrun). apply on_worker_Ok in Hw as (w & Hw & ->).
  apply M_bind_Ok_inv in Hrun as (? & d5 & [= <-] & [= <- _]). simpl in *.
  apply transition_Ok in Hw as (_ & _ & Ha & Hst).
  destruct (mark_recorded _ _ _ _ _ Hc Hm) as (r & Hrec & Hep & Hra).
  split; [done|]. split; [done|]. split; [done|]. split; [by exists i2|]. by exists r.
Qed.

Lemma create_leased_Ok context topology key timeout d d' v :
  consistent (assignments d) → create_leased config context topology key timeout d = (d', Ok v) →
  assigned d = None ∧
  published key d d' (λ r, Ledger.state r = Ledger.Active ∧
    ∀ e, context_assignment_epoch context = Some e → Ledger.epoch r = e).
Proof.
  unfold create_leased. intros Hc Hrun.
  apply M_bind_Ok_inv in Hrun as ([] & d1 & (w & Hl%lease_Ok & ->)%on_worker_Ok & Hrun). split; [apply Hl|].
  apply M_bind_Ok_inv in Hrun as (e & d2 & Hb%or_quarantined_Ok & Hrun).
  apply on_assignments_Ok in Hb as (s & Hs & ->). simpl in Hs.
  destruct (begin_recorded _ _ _ _ _ Hc Hs) as [_ He].
  destruct (begin_confined key (context_assignment_epoch context) (assignments d) Hc) as [Hc' _]. rewrite Hs in Hc'.
  apply M_bind_Ok_inv in Hrun as (adm & d3 & Ha%or_failed_Ok & Hrun). apply on_admission_Ok in Ha as (sa & ->).
  apply M_bind_Ok_inv in Hrun as (i & d4 & Hx%or_failed_Ok & Hrun). apply on_world_Ok in Hx as (x & ->).
  apply publish_instance_Ok in Hrun as (Hk & Hst & Hsh & Hsb & r & Hrec & Hact & Hep); [|done].
  do 4 (split; [done|]). exists r. do 2 (split; [done|]). intros e' He'. by rewrite Hep, (He e' He').
Qed.

Lemma restore_leased_Ok context topology key id timeout fenced d d' v :
  consistent (assignments d) → restore_leased config context topology key id timeout fenced d = (d', Ok v) →
  assigned d = None ∧
  published key d d' (λ r, Ledger.state r = Ledger.Active ∧
    ∀ e, context_assignment_epoch context = Some e → Ledger.epoch r = e).
Proof.
  unfold restore_leased. intros Hc Hrun.
  apply M_bind_Ok_inv in Hrun as ([] & d1 & (w & Hl%lease_Ok & ->)%on_worker_Ok & Hrun). split; [apply Hl|].
  apply M_bind_Ok_inv in Hrun as (e & d2 & Hb%or_quarantined_Ok & Hrun).
  apply on_assignments_Ok in Hb as (s & Hs & ->). simpl in Hs.
  destruct (begin_restore_recorded _ _ _ _ _ _ Hc Hs) as [_ He].
  destruct (begin_restore_confined key (context_assignment_epoch context) id (assignments d) Hc) as [Hc' _].
  rewrite Hs in Hc'.
  apply M_bind_Ok_inv in Hrun as (adm & d3 & Ha%or_failed_Ok & Hrun). apply on_admission_Ok in Ha as (sa & ->).
  apply M_bind_Ok_inv in Hrun as (f & d4 & [-> _]%service_lift_Ok & Hrun).
  apply M_bind_Ok_inv in Hrun as (i & d4 & Hx%or_failed_Ok & Hrun). apply on_world_Ok in Hx as (x & ->).
  apply publish_instance_Ok in Hrun as (Hk & Hst & Hsh & Hsb & r & Hrec & Hact & Hep); [|done].
  do 4 (split; [done|]). exists r. do 2 (split; [done|]). intros e' He'. by rewrite Hep, (He e' He').
Qed.

(** The parts of the state that matter to the theorems below. *)
Definition same d d' : Prop :=
  worker d' = worker d ∧ assignments d' = assignments d ∧ sandboxes d' = sandboxes d ∧ shutdown d' = shutdown d.

Lemma snapshot_id_as_str snapshot id : snapshot_id snapshot = Ok id → as_str id = snapshot.
Proof. unfold snapshot_id. intros Hid%map_err_Ok. by apply parse_Ok. Qed.

Lemma reserved_Ok {A} key (c : D A) d d' a :
  reserved key c d = (d', Ok a) → ∃ d1 d2, same d d1 ∧ same d2 d' ∧ c d1 = (d2, Ok a).
Proof.
  unfold reserved, acquire. intros Hrun. apply M_bind_Ok_inv in Hrun as ([] & d1 & Ha & Hrun). unfold_M.
  destruct (shutdown d); [done|]. case_bool_decide; [done|]. injection Ha as <-.
  apply finally_Ok in Hrun as (d2 & Hrun & ->).
  eexists _, d2. by split; [|split; [|exact Hrun]].
Qed.

Lemma count_request_same context d : same d (count_request context d).
Proof. unfold count_request, update_tenant. by destruct (is_operator context). Qed.

Lemma handle_Ok operation context d d' v :
  handle config operation context d = (d', Ok v) →
  ∃ d1, same d d1 ∧ dispatch config operation context d1 = (d', Ok v).
Proof.
  unfold handle. intros Hrun. apply M_bind_Ok_inv in Hrun as ([] & d1 & [= <-] & Hrun).
  eexists. split; [apply count_request_same|done].
Qed.

(** Every published sandbox is the one the worker is assigned to. *)
Definition single d : Prop := ∀ key, is_Some (sandboxes d !! key) → assigned d = Some key.

Lemma handle_single operation context d :
  single d → single (handle config operation context d).1.
Proof.
  intros Hd key Hk. pose proof (handle_frame (λ _, True) context Logic.I operation (λ _ _ _, Logic.I) d) as [[Ha _] _ _ Hn _ _ _].
  destruct (Hn key Hk) as [Hk'|]; [|done]. specialize (Hd key Hk'). destruct Ha; congruence.
Qed.

Lemma single_empty key d : single d → assigned d = Some key → sandboxes d !! key = None → sandboxes d = ∅.
Proof.
  intros Hd Ha Hn. apply map_empty. intros k. destruct (sandboxes d !! k) as [i|] eqn:Hk; [|done].
  pose proof (Hd k (ex_intro _ i Hk)). congruence.
Qed.

(** Operations that end an assignment, with what its record says then. *)
Definition ends_assignment (operation : Operation) : option (string * (Ledger.AssignmentRecord → Prop)) :=
  match operation with
  | OpRun _ sandbox _ _ | OpStop sandbox => Some (sandbox, λ r, Ledger.state r = Ledger.Stopped)
  | OpSnapshot sandbox snapshot Snapshot.StopAndMove =>
      Some (sandbox, λ r, Ledger.state r = Ledger.Transferable ∧ as_str <$> Ledger.snapshot_id r = Some snapshot)
  | _ => None
  end.

(** C18: A finished assignment retires the worker, durably and for good.  When
    a run, a stop or a stop-and-move snapshot is answered with success, the
    marker that keeps the worker from serving again is on disk, the daemon is
    shutting down, no sandbox is left, and the ledger's record of the sandbox
    says so: stopped, or transferable with the snapshot of the request, at
    the epoch that the work order named. *)
Theorem ended_assignment_recycles_worker operation context sandbox Q d d' v :
  single d → consistent (assignments d) →
  ends_assignment operation = Some (sandbox, Q) →
  handle config operation context d = (d', Ok v) →
  sandboxes d' = ∅ ∧ shutdown d' = true ∧
  WorkerSlot.marker (worker d') = true ∧ WorkerSlot.recycle_required (WorkerSlot.slot (worker d')) = true ∧
  ∃ key r, sandbox_key context sandbox = Ok key ∧ assigned d' = Some key ∧
    recorded (assignments d') key = Some r ∧ Q r ∧
    ∀ e, context_assignment_epoch context = Some e → Ledger.epoch r = e.
Proof.
  intros Hd Hc Hop Hrun. pose proof (handle_single operation context d Hd) as Hd'. rewrite Hrun in Hd'. simpl in Hd'.
  assert (∃ key, sandbox_key context sandbox = Ok key ∧
    ended key d' (λ r, Q r ∧ ∀ e, context_assignment_epoch context = Some e → Ledger.epoch r = e)) as
    (key & Hkey & [Hsh Ha _ Hm Hr] & Hn & r & Hrec & HQ & He).
  2: { split; [by eapply single_empty|]. do 3 (split; [done|]). by exists key, r. }
  destruct (handle_Ok _ _ _ _ _ Hrun) as (d1 & (Hw & Has & Hs & _) & Hdis). rewrite <-Has in Hc.
  destruct operation as [| | | |topology project wait_for timeout| | | | | |name| |name snap mode| | |];
    simplify_eq/=.
  - unfold run in Hdis. apply M_bind_Ok_inv in Hdis as ([] & d2 & [-> _]%service_lift_Ok & Hdis).
    apply M_bind_Ok_inv in Hdis as (key & d2 & [-> Hkey]%service_lift_Ok & Hdis). exists key. split; [done|].
    apply reserved_Ok in Hdis as (d2 & d3 & (Hw2 & Ha2 & Hs2 & _) & (Hw3 & Ha3 & Hs3 & Hsh3) & Hdis).
    pose proof Hdis as Hl. apply M_bind_Ok_inv in Hl as ([] & d4 & (w & Hl%lease_Ok & _)%on_worker_Ok & _).
    apply run_leased_Ok in Hdis as ([] & Hsb & Hrec); [|by rewrite Ha2].
    split; [split; congruence|]. split; [|by unfold on_record; rewrite Ha3].
    rewrite Hs3, Hsb, Hs2, Hs. apply eq_None_not_Some. intros Hk. specialize (Hd key Hk).
    rewrite Hw2, Hw in Hl. destruct Hl. congruence.
  - by apply stop_Ok in Hdis.
  - destruct mode; [done|]. simplify_eq/=. apply snapshot_move_Ok in Hdis as (key & id & Hkey & Hid & Hr & Hn & r & Hrec & [Hst Hsn] & He);
      [|done]. exists key. split; [done|]. split; [done|]. split; [done|]. exists r. split; [done|].
    split; [|done]. split; [done|]. rewrite Hsn. simpl. f_equal. by eapply snapshot_id_as_str.
Qed.

(** Operations that publish a sandbox. *)
Definition publishes (operation : Operation) : option string :=
  match operation with
  | OpCreate _ sandbox _ | OpRestore _ sandbox _ _ _ => Some sandbox
  | _ => None
  end.

(** A sandbox that was created or restored is the worker's only one: the
    slot was free and is now running for it, no other sandbox is published,
    and the ledger has its record as active at the epoch that the work order
    named. *)
Theorem published_sandbox_is_assigned operation context sandbox d d' v :
  single d → consistent (assignments d) →
  publishes operation = Some sandbox →
  handle config operation context d = (d', Ok v) →
  ∃ key i r, sandbox_key context sandbox = Ok key ∧ sandboxes d = ∅ ∧ sandboxes d' = {[key := i]} ∧
    assigned d = None ∧ assigned d' = Some key ∧ WorkerSlot.state (WorkerSlot.slot (worker d')) = Running ∧
    recorded (assignments d') key = Some r ∧ Ledger.state r = Ledger.Active ∧
    ∀ e, context_assignment_epoch context = Some e → Ledger.epoch r = e.
Proof.
  intros Hd Hc Hop Hrun.
  destruct (handle_Ok _ _ _ _ _ Hrun) as (d1 & (Hw & Has & Hs & _) & Hdis). rewrite <-Has in Hc.
  assert (∃ key d2, sandbox_key context sandbox = Ok key ∧ same d1 d2 ∧ assigned d2 = None ∧
    ∃ d3, same d3 d' ∧ published key d2 d3 (λ r, Ledger.state r = Ledger.Active ∧
      ∀ e, context_assignment_epoch context = Some e → Ledger.epoch r = e)) as
    (key & d2 & Hkey & (Hw2 & Ha2 & Hs2 & _) & Hnone & d3 & (Hw3 & Ha3 & Hs3 & _) &
     Hasg & Hst & _ & [i Hi] & r & Hrec & Hact & He).
  2: { exists key, i, r. assert (sandboxes d = ∅) as Hempty.
       { apply map_empty. intros k. destruct (sandboxes d !! k) as [j|] eqn:Hk; [|done].
         pose proof (Hd k (ex_intro _ j Hk)). congruence. }
       rewrite Hs3, Hi, Hs2, Hs, Hempty, Hw3, Ha3, <-Hw, <-Hw2, insert_empty. done. }
  destruct operation as [| | | | |topology name timeout|topology name snap timeout fenced| | | | | | | | |];
    simplify_eq/=.
  - unfold create in Hdis. apply M_bind_Ok_inv in Hdis as ([] & d2 & [-> _]%service_lift_Ok & Hdis).
    apply M_bind_Ok_inv in Hdis as (key & d2 & [-> Hkey]%service_lift_Ok & Hdis).
    apply M_bind_Ok_inv in Hdis as ([] & d2 & Hex & Hdis).
    assert (d2 = d1) as -> by (unfold reject_existing in Hex; unfold_M; case_bool_decide; by simplify_eq).
    apply reserved_Ok in Hdis as (d2 & d3 & Hd2 & Hd3 & Hdis).
    apply create_leased_Ok in Hdis as [Hn Hp]; [|by rewrite (proj1 (proj2 Hd2))]. exists key, d2. do 3 (split; [done|]). by exists d3.
  - unfold restore in Hdis. apply M_bind_Ok_inv in Hdis as ([] & d2 & [-> _]%service_lift_Ok & Hdis).
    apply M_bind_Ok_inv in Hdis as (id & d2 & [-> _]%service_lift_Ok & Hdis).
    apply M_bind_Ok_inv in Hdis as (key & d2 & [-> Hkey]%service_lift_Ok & Hdis).
    apply M_bind_Ok_inv in Hdis as ([] & d2 & Hex & Hdis).
    assert (d2 = d1) as -> by (unfold reject_existing in Hex; unfold_M; case_bool_decide; by simplify_eq).
    apply reserved_Ok in Hdis as (d2 & d3 & Hd2 & Hd3 & Hdis).
    apply restore_leased_Ok in Hdis as [Hn Hp]; [|by rewrite (proj1 (proj2 Hd2))]. exists key, d2. do 3 (split; [done|]). by exists d3.
Qed.

(** C1: Tenants are isolated.  Whatever a tenant requests, and however the
    request ends, it changes no sandbox, no ledger record and no counter of
    another tenant or workspace. *)
Theorem tenant_isolation operation tenant d :
  consistent (assignments d) →
  let d' := (handle config operation (Tenant tenant) d).1 in
  (∀ key, scope key ≠ vt_scope tenant → sandboxes d' !! key = sandboxes d !! key) ∧
  (∀ key, scope key ≠ vt_scope tenant → recorded (assignments d') key = recorded (assignments d) key) ∧
  (∀ s, s ≠ vt_scope tenant → tenant_counters d' !! s = tenant_counters d !! s).
Proof.
  intros Hc d'.
  assert (keeps (frame (λ s, s = vt_scope tenant)) (handle config operation (Tenant tenant))) as Hf
    by (by apply handle_frame).
  destruct (Hf d) as [_ Hl Hs _ Ht _ _]. destruct (Hl Hc) as [_ Hr]. split_and!; auto.
Qed.

(** A run of the daemon: requests, one after the other. *)
Definition handle_all (requests : list (Operation * AccessContext)) d : State :=
  foldl (λ d r, (handle config r.1 r.2 d).1) d requests.

(** A worker hosts at most one sandbox.  From a daemon without sandboxes,
    after any requests of the operator and of any tenants with any outcome,
    every published sandbox is the one that the slot is assigned to, so there
    are never two; every reservation has been given back; the ledger is
    consistent; and a daemon that began to shut down still is. *)
Theorem worker_hosts_one_sandbox requests d :
  sandboxes d = ∅ → active d = ∅ → consistent (assignments d) →
  let d' := handle_all requests d in
  (∀ key, is_Some (sandboxes d' !! key) → assigned d' = Some key) ∧
  (∀ key key', is_Some (sandboxes d' !! key) → is_Some (sandboxes d' !! key') → key = key') ∧
  active d' = ∅ ∧ consistent (assignments d') ∧ (shutdown d = true → shutdown d' = true).
Proof.
  intros Hs Ha Hc.
  assert (∀ d0, single d0 → active d0 = ∅ → consistent (assignments d0) →
    let d' := handle_all requests d0 in
    single d' ∧ active d' = ∅ ∧ consistent (assignments d') ∧ (shutdown d0 = true → shutdown d' = true)) as Hall.
  { induction requests as [|[operation context] requests IH]; [done|]. intros d0 Hd0 Ha0 Hc0. cbn zeta.
    pose proof (handle_single operation context d0 Hd0) as Hd1.
    pose proof (handle_frame (λ _, True) context Logic.I operation (λ _ _ _, Logic.I) d0) as [_ Hl _ _ _ Ha1 Hs1].
    destruct (IH (handle config operation context d0).1) as (? & ? & ? & ?); [done|congruence|by apply Hl|]. auto 10. }
  destruct (Hall d) as (Hd' & Ha' & Hc' & Hs'); [intros key; rewrite Hs; by intros []|done..|].
  cbn zeta. split_and!; try done. intros key key' Hk Hk'. pose proof (Hd' key Hk). pose proof (Hd' key' Hk'). congruence.
Qed.
(** A daemon that is shutting down takes no work: a request to run, create
    or restore a sandbox is answered with an error, and only the request
    counters change. *)
Theorem stopping_daemon_refuses_work operation context d :
  shutdown d = true →
  match operation with OpRun _ _ _ _ | OpCreate _ _ _ | OpRestore _ _ _ _ _ => True | _ => False end →
  ∃ error, handle config operation context d = (count_request context d, Err (Rejected error)).
Proof.
  intros Hsh Hop. destruct (count_request_same context d) as (_ & _ & _ & Hsh'). rewrite Hsh in Hsh'.
  unfold handle. set (d0 := count_request context d) in *.
  change ((M_modify (count_request context);; dispatch config operation context) d)
    with (dispatch config operation context d0).
  destruct operation; try done; cbn [dispatch];
    unfold run, create, restore, lift, reject_existing, reserved, acquire; unfold_M;
    repeat match goal with |- context [map_err Rejected ?r] => destruct r; simpl; [|by eexists] end.
  all: rewrite ?Hsh'; try case_bool_decide; by eexists.
Qed.

(** Operations on a running sandbox. *)
Definition addresses (operation : Operation) : option string :=
  match operation with
  | OpInspect sandbox | OpPause sandbox | OpResume sandbox | OpStop sandbox | OpLogs sandbox _
  | OpSnapshot sandbox _ _ => Some sandbox
  | _ => None
  end.

(** A request at an epoch that is not the current one has no effect: when
    the ledger does not accept the sandbox and the epoch of an operation on a
    running sandbox, the answer is an error, no call is made on any sandbox,
    and only the request counters change. *)
Theorem fenced_request_has_no_effect operation context sandbox key error d :
  addresses operation = Some sandbox → sandbox_key context sandbox = Ok key →
  require_current key (context_assignment_epoch context) (assignments d) = Err error →
  ∃ e, handle config operation context d = (count_request context d, Err (Rejected e)).
Proof.
  intros Hop Hkey Hcur. destruct (count_request_same context d) as (_ & Ha & _ & _).
  unfold handle. set (d0 := count_request context d) in *.
  change ((M_modify (count_request context);; dispatch config operation context) d)
    with (dispatch config operation context d0).
  destruct operation; simplify_eq/=;
    unfold inspect, pause, resume, stop, logs, Service.snapshot, with_sandbox, current, lift; unfold_M;
    try (match goal with |- context [snapshot_id ?s] => destruct (snapshot_id s); simpl; [|by eexists] end);
    rewrite Hkey; simpl; rewrite Ha, Hcur; by eexists.
Qed.

(** Tenants do not see runtime projects.  In the answer about a sandbox
    that a tenant receives, the project is the tenant's own name of the
    sandbox, and every other field is the one that the executor reported; the
    name of the runtime project is added for the operator only. *)
Theorem answers_hide_runtime_project value key operator o :
  to_value config value = Ok (JObject o) →
  ∃ o', scoped_value config value key operator = Ok (JObject o') ∧
    (∀ k, k ≠ "project"%string → k ≠ "runtime_project"%string → o' !! k = o !! k) ∧
    (∀ name, o !! "project"%string = Some (JString name) →
       o' !! "project"%string = Some (JString (as_str (Identity.sandbox_id key))) ∧
       o' !! "runtime_project"%string = if operator then Some (JString name) else o !! "runtime_project"%string).
Proof.
  intros Hv. unfold scoped_value. rewrite Hv. cbn [map_err mbind result_bind json_get].
  destruct (o !! "project"%string) as [[| | |name| |]|] eqn:Hp; try (exists o; split_and!; [done|done|congruence]).
  destruct operator; eexists; (split; [reflexivity|]); (split; [intros k Hk Hk'; by rewrite ?lookup_insert_ne by done|]);
    intros name' [= <-]; by simplify_map_eq.
Qed.
End proofs.

(** ** A daemon on the ledger and its journal *)

#[local] Existing Instance Compiler.w_topology_codec.
#[local] Existing Instance Admission.w_provider_ops.
#[local] Existing Instance Admission.w_file_system.
#[local] Existing Instance Ledger.w_codec.

(** The writer thread serves what is queued. *)
Definition w_settle (j : Journal.Journal.DurableJournal) : Journal.Journal.DurableJournal :=
  Nat.iter 3 (Journal.Journal.write "/wal" 8 Journal.Journal.IoOk) j.
#[local] Instance w_assignments : Assignments (Ledger.AssignmentLedger (J := Journal.Journal.DurableJournal)) :=
  ledger_assignments w_settle.
#[local] Instance w_assignments_laws : AssignmentsLaws (Ledger.AssignmentLedger (J := Journal.Journal.DurableJournal)) :=
  ledger_assignments_laws w_settle.

(** An executor whose world is a clock; a run that waits for the container
    [broken] fails. *)
Definition w_result : Json := json_object [("project", JString "rt-1")].
#[local] Instance w_executor : Executor Z () Json := {
  run_admitted _ _ wait_for _ _ _ := λ x,
    (x + 1, if bool_decide (wait_for = "broken"%string) then Err (Runtime "run failed") else Ok w_result);
  start_admitted _ _ _ _ _ := λ x, (x + 1, Ok tt);
  restore_admitted _ _ _ _ _ _ _ := λ x, (x + 1, Ok tt);
  sandbox_status := λ s, (s, Ok w_result);
  sandbox_pause := λ s, (s, Ok w_result);
  sandbox_resume := λ s, (s, Ok w_result);
  sandbox_stop := λ s, (s, Ok w_result);
  completed_output _ := λ s, (s, Ok w_result);
  activate_ingress := λ s, (s, Ok tt);
  fence_ingress := λ s, (s, Ok tt);
  take_snapshot _ _ _ := λ s, (s, Ok w_result);
  is_executable _ := true;
  drop_instance _ x := x;
  publish_transfer_grant _ _ := λ x, (x + 1, Ok tt);
  publish_artifact_volume _ _ := λ x, (x + 1, Ok w_result);
  collect_artifact_volumes _ := λ x, (x + 1, Ok w_result);
  artifact_snapshot_portability := Volume.CrossWorkerSameBackend;
  monotonic_millis x := x;
  marker_outcome x := (x, WorkerSlot.MarkerOk)
}.

Definition w_config : ServiceConfig Json :=
  MkServiceConfig Json Admission.w_worker (id_lit "worker-a") (λ _, "0123456789abcdef0123456789abcdef"%string)
    (λ v, match v with JObject m => Ok (JObject m) | _ => Ok (JObject ∅) end)
    (λ _, JNull) (λ _ _ _ _, JNull) (λ _, JNull) (λ _, JNull) Loopback.

Definition w_clean : WorkerSlot.WorkerSlot :=
  WorkerSlot.MkSlot false w_shape 10 (WorkerSlot.MkState Clean 1 None false (Some 0)).
Definition w_daemon : DaemonState Ledger.AssignmentLedger Z Z () :=
  MkDaemon (Ledger.sys_ledger Ledger.w_s0) w_clean Admission.w_admission ∅ ∅ (MkCounters 0 0 0 [] 0 0) ∅ false 100.
Definition w_context : AccessContext :=
  Tenant (MkTenant (Scope w_tenant w_workspace) (id_lit "alice") (epoch_lit 7)).
Definition w_create : Operation := OpCreate Compiler.w_lock "sandbox-a" 1000.
Definition w_run (wait_for : string) : Operation := OpRun Compiler.w_lock "sandbox-a" wait_for 1000.
Definition w_handle (operation : Operation) : DaemonState Ledger.AssignmentLedger Z Z () → _ :=
  handle w_config operation w_context.

(** A restore that names the fenced source epoch zero is answered with an
    error after the lease: the ledger's record stays restoring, the worker
    stays leased, and the daemon neither quarantines it nor shuts down, so
    that it neither serves nor retires. *)
Theorem restore_strands_worker :
  let '(d, r) := w_handle (OpRestore Compiler.w_lock "sandbox-a" "snapshot-1" 1000 (Some 0)) w_daemon in
  r = Err (Rejected (Runtime "invalid work order: assignment epoch must be greater than zero")) ∧
  WorkerSlot.state (WorkerSlot.slot (worker d)) = Leased ∧ shutdown d = false ∧
  WorkerSlot.marker (worker d) = false ∧
  (Ledger.state <$> recorded (assignments d) w_slot_key) = Some Ledger.Restoring.
Proof. vm_compute. by split_and!. Qed.

(** ** The theorems on this daemon *)


Lemma w_consistent : consistent (assignments w_daemon).
Proof. split; [apply map_Forall_empty|done]. Qed.

Lemma w_single : single w_daemon.
Proof. intros key [i Hi]. done. Qed.




Definition w_done := w_handle (w_run "app") w_daemon.

Lemma w_done_run : ∃ v, w_done = (w_done.1, Ok v).
Proof. eexists. apply M_run. vm_compute. reflexivity. Qed.

Lemma ended_assignment_recycles_worker_witness :
  sandboxes w_done.1 = ∅ ∧ shutdown w_done.1 = true.
Proof.
  destruct w_done_run as [v Hv].
  destruct (ended_assignment_recycles_worker w_config (w_run "app") w_context "sandbox-a" _ w_daemon w_done.1 v
              w_single w_consistent eq_refl Hv) as (Hs & Hsh & _).
  split; [exact Hs|exact Hsh].
Defined.

Definition w_created := w_handle w_create w_daemon.

Lemma w_created_run : ∃ v, w_created = (w_created.1, Ok v).
Proof. eexists. apply M_run. vm_compute. reflexivity. Qed.

Lemma published_sandbox_is_assigned_witness :
  ∃ key i, sandbox_key w_context "sandbox-a" = Ok key ∧ sandboxes w_created.1 = {[key := i]}.
Proof.
  destruct w_created_run as [v Hv].
  destruct (published_sandbox_is_assigned w_config w_create w_context "sandbox-a" w_daemon w_created.1 v
              w_single w_consistent eq_refl Hv) as (key & i & r & Hkey & _ & Hs & _).
  exists key, i. split; [exact Hkey|exact Hs].
Defined.

Definition w_other : SandboxKey := Key (Scope (id_lit "tenant-b") w_workspace) w_sandbox_id.

Lemma tenant_isolation_witness :
  sandboxes (w_handle w_create w_daemon).1 !! w_other = sandboxes w_daemon !! w_other.
Proof.
  destruct (tenant_isolation w_config w_create
              (MkTenant (Scope w_tenant w_workspace) (id_lit "alice") (epoch_lit 7)) w_daemon w_consistent)
    as (Hs & _ & _).
  apply Hs. by apply (bool_decide_unpack _).
Defined.

Definition w_requests : list (Operation * AccessContext) :=
  [(w_create, w_context); (OpInspect "sandbox-a", w_context); (OpStop "sandbox-a", w_context)].

Lemma worker_hosts_one_sandbox_witness :
  active (handle_all w_config w_requests w_daemon) = ∅ ∧
  WorkerSlot.assignment (WorkerSlot.slot (worker (handle_all w_config w_requests w_daemon))) = Some w_slot_key.
Proof.
  destruct (worker_hosts_one_sandbox w_config w_requests w_daemon eq_refl eq_refl w_consistent)
    as (_ & _ & Ha & _).
  split; [exact Ha|vm_compute; reflexivity].
Defined.

Definition w_stopping : DaemonState Ledger.AssignmentLedger Z Z () := set_shutdown true w_daemon.

Lemma stopping_daemon_refuses_work_witness :
  ∃ error, w_handle w_create w_stopping = (count_request w_context w_stopping, Err (Rejected error)).
Proof. exact (stopping_daemon_refuses_work w_config w_create w_context w_stopping eq_refl Logic.I). Defined.

Lemma fenced_request_has_no_effect_witness :
  ∃ e, w_handle (OpStop "sandbox-a") w_daemon = (count_request w_context w_daemon, Err (Rejected e)).
Proof.
  apply (fenced_request_has_no_effect w_config (OpStop "sandbox-a") w_context "sandbox-a" w_slot_key
           (Runtime "sandbox does not have an assignment") w_daemon).
  - reflexivity.
  - reflexivity.
  - reflexivity.
Defined.

Lemma answers_hide_runtime_project_witness :
  ∃ o', scoped_value w_config w_result w_slot_key false = Ok (JObject o') ∧
    o' !! "project"%string = Some (JString "sandbox-a").
Proof.
  destruct (answers_hide_runtime_project w_config w_result w_slot_key false {["project"%string := JString "rt-1"]} eq_refl)
    as (o' & Ho & _ & Hp).
  exists o'. split; [exact Ho|]. apply (Hp "rt-1"%string). reflexivity.
Defined.
