(* ===== verification/Connection.v ===== *)
(** * Control connections

    Models [bins/sandboxd/src/server/connection.rs], [limit.rs],
    [bins/sandboxd/src/protocol/transport.rs] and [bins/sandboxd/src/audit.rs]:
    a connection is read, its peer and request are authorized, the handler
    runs, the outcome is audited and answered.  It composes the verifier, the
    replay cache and the handlers.

    The socket is modelled by what the client sends and by the outcome of the
    calls on it; the JSON encodings are parameters, and [settle] is the writer
    thread of a journal serving what is queued. *)
From S2P Require Import Prelude Identity GuestProfile Volume Network Topology WorkOrder Protocol Journal Replay Verifier.
From S2P Require Import Snapshot Ledger WorkerSlot Admission Service ServiceLedger ServiceProofs.
Import Topology.Topology WorkOrder.WorkOrder Protocol.Protocol Verifier.Verifier Service.Service.

Module Connection.

(** ** Connection limits *)

Record ConnectionLimiter : Type := MkLimiter { limiter_active : Z; maximum : Z }.

Definition limiter_new (maximum : Z) : ConnectionLimiter := MkLimiter 0 maximum.

(** [try_acquire]: whether a permit was given. *)
Definition try_acquire (l : ConnectionLimiter) : ConnectionLimiter * bool :=
  if limiter_active l <? maximum l then (MkLimiter (limiter_active l + 1) (maximum l), true) else (l, false).

(** The [Drop] of a permit: [fetch_sub] wraps around. *)
Definition release_permit (l : ConnectionLimiter) : ConnectionLimiter :=
  MkLimiter ((limiter_active l - 1) mod (u64_max + 1)) (maximum l).

Definition is_idle (l : ConnectionLimiter) : bool := limiter_active l =? 0.

(** ** Messages *)

Definition MAX_MESSAGE_BYTES : Z := 4 * 1024 * 1024.

(** What arrives on a socket: bytes, then the end of the stream or an error. *)
Record Input : Type := MkInput { arriving : list ascii; broken : option string }.

(** [take(limit).read_until(b'\n')]; the flag says that it ended at a newline
    or at the limit. *)
Fixpoint read_until (limit : Z) (l : list ascii) : list ascii * bool :=
  if limit <=? 0 then ([], true)
  else match l with
       | [] => ([], false)
       | b :: l' =>
           if Journal.Journal.is_newline b then ([b], true)
           else let '(r, done) := read_until (limit - 1) l' in (b :: r, done)
       end.

(** The bytes of one message. *)
Definition read_line (input : Input) : result SandboxError (list ascii) :=
  let '(bytes, done) := read_until (MAX_MESSAGE_BYTES + 1) (arriving input) in
  match broken input with
  | Some source =>
      if done : bool then mret bytes else Err (Runtime ("read protocol message: " +:+ source))
  | None => mret bytes
  end ≫= λ bytes,
  reject_if (bool_decide (bytes = []) || (MAX_MESSAGE_BYTES <? length_z bytes)
             || negb (bool_decide (last bytes = Some Journal.Journal.NEWLINE)))
    (Runtime "protocol message is empty, oversized, or unterminated");;
  mret bytes.

Inductive AuditOutcome : Type := AuditRejected | AuditSucceeded | AuditFailed.

Record AuditRecord : Type := MkAuditRecord {
  timestamp_unix_millis : Z;
  audit_request_id : string;
  audit_endpoint : string;
  audit_peer_uid : Z;
  audit_tenant_id : option string;
  audit_workspace_id : option string;
  audit_subject_id : option string;
  audit_operation : option WorkOrderOperation;
  audit_outcome : AuditOutcome
}.

(** [serde_json] on the messages of a connection. *)
Class MessageCodec : Type := {
  decode_request : list ascii → result string Request;
  encode_response : WorkloadResponse Json → result string (list ascii);
  encode_audit : AuditRecord → result string (list ascii)
}.

Definition read_message `{MessageCodec} (input : Input) : result SandboxError Request :=
  bytes ← read_line input;
  map_err (λ error, Runtime ("decode protocol message: " +:+ error)) (decode_request bytes).

Definition failure_response (request_id : string) (error : SandboxError) : WorkloadResponse Json :=
  MkResponse PROTOCOL_VERSION request_id false None (Some (sandbox_error_to_string error)).
Definition invalid_message (error : SandboxError) : WorkloadResponse Json :=
  failure_response "invalid-message" error.
Definition success_response (request_id : string) (result : Json) : WorkloadResponse Json :=
  MkResponse PROTOCOL_VERSION request_id true (Some result) None.

(** ** Serving a connection *)

(** The socket of a connection: the outcome of its configuration, the
    credentials of the peer, what the peer sends, and the outcome of the
    write; and the two clocks that are read. *)
Record Stream : Type := MkStream {
  configured : result string ();
  credentials : result string Z;
  input : Input;
  write_outcome : result string ();
  verify_clock : Z;
  audit_clock : Z
}.

Section code.
Context {As P X I T J : Type}.
Context `{TopologyCodec, Admission.FileSystem, Admission.ImageProvider P, Assignments As, Executor X I T}.
Context `{SignatureCodec, OperationCodec, Replay.ReplayCodec, DurableLog J, MessageCodec}.
Context (config : ServiceConfig T) (settle : J → J).

(** The daemon with its verifier and audit log, and what the connection has
    been sent. *)
Record Server : Type := MkServer {
  daemon : DaemonState As P X I;
  work_orders : option (WorkOrderVerifier (J := J));
  audit : J;
  sent : list ascii
}.

Abbreviation C := (M Server (failure SandboxError)).

Definition set_daemon (d : DaemonState As P X I) (s : Server) : Server := MkServer d (work_orders s) (audit s) (sent s).
Definition set_work_orders (v : option (WorkOrderVerifier (J := J))) (s : Server) : Server :=
  MkServer (daemon s) v (audit s) (sent s).
Definition set_audit (j : J) (s : Server) : Server := MkServer (daemon s) (work_orders s) j (sent s).
Definition set_sent (b : list ascii) (s : Server) : Server := MkServer (daemon s) (work_orders s) (audit s) b.

(** *** The audit log *)

(** [JournalReceipt::wait] after the writer has served. *)
Definition journal_wait (receipt : nat) : M J SandboxError () :=
  λ j, (j, default (Err (Runtime "journal writer stopped")) (log_wait receipt j)).

Definition audit_record (clock : Z) (request_id : string) (endpoint : ConnectionEndpoint) (peer_uid : Z)
    (context : option AccessContext) (operation : option WorkOrderOperation) (outcome : AuditOutcome) :
    M J SandboxError () :=
  timestamp ← M_lift (unix_millis clock);
  bytes ← M_lift (map_err (λ error, Runtime ("encode audit record: " +:+ error))
    (encode_audit (MkAuditRecord timestamp request_id
       match endpoint with OperatorEndpoint => "operator" | WorkloadEndpoint _ => "workload" end peer_uid
       ((λ c, as_str (Identity.tenant_id (context_scope c))) <$> context)
       ((λ c, as_str (Identity.workspace_id (context_scope c))) <$> context)
       ((λ c, as_str (context_subject_id c)) <$> context) operation outcome)));
  receipt ← log_enqueue_append (bytes ++ [Journal.Journal.NEWLINE]);
  M_modify settle;;
  journal_wait receipt.

(** [record_audit]: an error is only printed. *)
Definition record_audit (stream : Stream) (request_id : string) (endpoint : ConnectionEndpoint) (peer_uid : Z)
    (context : option AccessContext) (operation : option WorkOrderOperation) (outcome : AuditOutcome) : C () :=
  M_modify (λ s,
    set_audit (audit_record (audit_clock stream) request_id endpoint peer_uid context operation outcome
                 (audit s)).1 s).

(** *** Authorization, completed *)

(** The waits of [consume]. *)
Definition replay_receive (c : Replay.ReplayCache (J := J)) (receipt : option nat) : result SandboxError () :=
  default (Err (Runtime "journal writer stopped")) (Replay.answer c receipt).

Definition consume_wait (scope : TenantScope) (nonce : string) (expires : Z) (waits : option nat * option nat)
    (c : Replay.ReplayCache (J := J)) : Replay.ReplayCache (J := J) * result SandboxError () :=
  let c := Replay.MkCache (settle <$> Replay.journal c) (Replay.entries c) (Replay.appends_since_compaction c) in
  match replay_receive c waits.1 with
  | Err error =>
      let key := Replay.replay_key scope nonce in
      (if bool_decide (Replay.entries c !! key = Some expires)
       then Replay.with_entries (delete key (Replay.entries c)) c else c, Err error)
  | Ok _ => (c, replay_receive c waits.2)
  end.

(** A verified work order is accepted when its nonce is durable. *)
Definition await (request : Request) (waits : option nat * option nat) (context : AccessContext) :
    M (option (WorkOrderVerifier (J := J))) (failure SandboxError) AccessContext :=
  λ s,
    match s, rq_authorization request with
    | Some v, Some (AuthWorkOrder w) =>
        let c := claims w in
        let '(cache, r) := consume_wait (claims_scope c) (nonce c) (WorkOrder.expires_unix_millis c) waits (replay v) in
        (Some (MkVerifier (key v) cache), map_err Rejected r ≫= λ _, mret context)
    | _, _ => (s, mret context)
    end.

Definition authorize (stream : Stream) (request : Request) (endpoint : ConnectionEndpoint) : C AccessContext :=
  λ s,
    let '(v, r) :=
      ('(context, waits) ← authorize_request request endpoint (verify_clock stream);
       match endpoint with
       | OperatorEndpoint => mret context
       | WorkloadEndpoint _ => await request waits context
       end) (work_orders s) in
    (set_work_orders v s, r).

(** *** [serve] *)

Definition write_message (stream : Stream) (response : WorkloadResponse Json) : C () :=
  bytes ← M_lift (map_err (λ error, Rejected (Runtime ("encode protocol message: " +:+ error)))
                    (encode_response response));
  M_reject_if (MAX_MESSAGE_BYTES <=? length_z bytes) (Rejected (Runtime "encoded protocol message exceeds limit"));;
  M_lift (map_err (λ source, Rejected (Runtime ("write protocol message: " +:+ source))) (write_outcome stream));;
  M_modify (λ s, set_sent (sent s ++ bytes ++ [Journal.Journal.NEWLINE]) s).

Definition count_rejected_connection (s : Server) : Server :=
  let c := counters (daemon s) in
  set_daemon (set_counters (MkCounters (requests c) (completed_runs c) (failed_runs c) (recovered_projects c)
    (rejected_connections c + 1) (rejected_requests c)) (daemon s)) s.
Definition count_rejected_request (s : Server) : Server :=
  let c := counters (daemon s) in
  set_daemon (set_counters (MkCounters (requests c) (completed_runs c) (failed_runs c) (recovered_projects c)
    (rejected_connections c) (rejected_requests c + 1)) (daemon s)) s.

(** The [Err] of a call as a value; a panic is not caught. *)
Definition caught {A} (c : C A) : C (result SandboxError A) :=
  λ s,
    match c s with
    | (s', Ok a) => (s', Ok (Ok a))
    | (s', Err (Rejected e)) => (s', Ok (Err e))
    | (s', Err (Panicked m)) => (s', Err (Panicked m))
    end.

Definition handle_request (operation : Operation) (context : AccessContext) : C Json :=
  λ s, let '(d, r) := handle config operation context (daemon s) in (set_daemon d s, r).

Definition answer_request (stream : Stream) (endpoint : ConnectionEndpoint) (peer_uid : Z) (request : Request)
    (context : AccessContext) : C () :=
  let request_id := rq_request_id request in
  let operation := work_order_operation (rq_operation request) in
  r ← caught (handle_request (rq_operation request) context);
  match r with
  | Ok result =>
      record_audit stream request_id endpoint peer_uid (Some context) operation AuditSucceeded;;
      write_message stream (success_response request_id result)
  | Err error =>
      record_audit stream request_id endpoint peer_uid (Some context) operation AuditFailed;;
      write_message stream (failure_response request_id error)
  end.

Definition serve_request (stream : Stream) (endpoint : ConnectionEndpoint) (peer_uid : Z) : C () :=
  match read_message (input stream) with
  | Err error =>
      M_modify count_rejected_request;;
      record_audit stream "invalid-message" endpoint peer_uid None None AuditRejected;;
      write_message stream (invalid_message error)
  | Ok request =>
      authorized ← caught (authorize stream request endpoint);
      match authorized with
      | Err error =>
          M_modify count_rejected_request;;
          record_audit stream (rq_request_id request) endpoint peer_uid None
            (work_order_operation (rq_operation request)) AuditRejected;;
          write_message stream (failure_response (rq_request_id request) error)
      | Ok context => answer_request stream endpoint peer_uid request context
      end
  end.

Definition serve (stream : Stream) (endpoint : ConnectionEndpoint) : C () :=
  M_lift (map_err (λ source, Rejected (Runtime ("configure control timeout: " +:+ source))) (configured stream));;
  peer_uid ← M_lift (map_err (λ error, Rejected (Runtime ("read peer credentials: " +:+ error))) (credentials stream));
  match authorize_peer peer_uid endpoint with
  | Err error =>
      M_modify count_rejected_connection;;
      record_audit stream "peer-rejected" endpoint peer_uid None None AuditRejected;;
      M_fail (Rejected error)
  | Ok _ => serve_request stream endpoint peer_uid
  end.
End code.

End Connection.
Import Connection.

(** ** What a connection may do *)

Section proofs.
Context {As P X I T J : Type}.
Context `{TopologyCodec, Admission.FileSystem, Admission.ImageProvider P, Assignments As, Executor X I T}.
Context `{SignatureCodec, OperationCodec, Replay.ReplayCodec, DurableLog J, MessageCodec}.
Context (config : ServiceConfig T) (settle : J → J).
Implicit Types (s : Server (As := As) (P := P) (X := X) (I := I) (J := J)) (stream : Stream).

(** Only the request and connection counters differ. *)
Definition only_counted s s' : Prop := ∃ c, daemon s' = set_counters c (daemon s).

#[global] Instance only_counted_preorder : PreOrder only_counted.
Proof.
  split; [intros s; exists (counters (daemon s)); by destruct (daemon s)|].
  intros s1 s2 s3 [c1 H1'] [c2 H2']. exists c2. by rewrite H2', H1'.
Qed.

Lemma record_audit_counted stream id endpoint uid context operation outcome :
  keeps only_counted (record_audit settle stream id endpoint uid context operation outcome).
Proof. intros s. exists (counters (daemon s)). unfold record_audit, set_audit. simpl. by destruct (daemon s). Qed.

Lemma record_audit_Ok stream id endpoint uid context operation outcome s :
  (record_audit settle stream id endpoint uid context operation outcome s).2 = Ok tt.
Proof. done. Qed.

Lemma write_message_daemon stream response s : daemon (write_message stream response s).1 = daemon s.
Proof.
  unfold write_message. unfold_M. destruct (encode_response response); simpl; [|done].
  destruct (_ <=? _); simpl; [done|]. by destruct (write_outcome stream).
Qed.

Lemma write_message_counted stream response : keeps only_counted (write_message stream response).
Proof. intros s. exists (counters (daemon s)). rewrite write_message_daemon. by destruct (daemon s). Qed.

Lemma count_rejected_request_counted : keeps (E := failure SandboxError) only_counted (M_modify count_rejected_request).
Proof. apply keeps_modify. intros s. by eexists. Qed.
Lemma count_rejected_connection_counted :
  keeps (E := failure SandboxError) only_counted (M_modify count_rejected_connection).
Proof. apply keeps_modify. intros s. by eexists. Qed.

Lemma caught_Ok {A} (c : M (Server (As := As) (P := P) (X := X) (I := I) (J := J)) (failure SandboxError) A) s s' a :
  caught c s = (s', Ok (Ok a)) → c s = (s', Ok a).
Proof. unfold caught. destruct (c s) as [t [b|[e|m]]]; intros; by simplify_eq. Qed.

Lemma caught_keeps {A} R (c : M (Server (As := As) (P := P) (X := X) (I := I) (J := J)) (failure SandboxError) A) :
  keeps R c → keeps R (caught c).
Proof. intros Hc s. specialize (Hc s). unfold caught. by destruct (c s) as [t [b|[e|m]]]. Qed.

Lemma authorize_counted stream request endpoint : keeps only_counted (authorize settle stream request endpoint).
Proof.
  intros s. exists (counters (daemon s)). unfold authorize. case_match. simpl. by destruct (daemon s).
Qed.

#[local] Hint Resolve record_audit_counted write_message_counted authorize_counted caught_keeps
  count_rejected_request_counted count_rejected_connection_counted : keeps.

Lemma rejected_counted stream id endpoint uid operation response :
  keeps only_counted (M_modify count_rejected_request;;
    record_audit settle stream id endpoint uid None operation AuditRejected;; write_message stream response).
Proof. do 2 (apply keeps_bind; [apply _|auto with keeps|intros ?]). auto with keeps. Qed.

(** The workload endpoint grants a context only to an authorized request. *)
Lemma authorize_granted stream request uid s s' context :
  authorize settle stream request (WorkloadEndpoint uid) s = (s', Ok context) →
  ∃ v w, work_orders s = Some v ∧ rq_authorization request = Some (AuthWorkOrder w) ∧
    authorizes (key v) request w (verify_clock stream) ∧ daemon s' = daemon s ∧
    context = Tenant (MkTenant (claims_scope (claims w)) (subject_id (claims w)) (assignment_epoch (claims w))).
Proof.
  unfold authorize. intros Hrun.
  destruct (authorize_request request (WorkloadEndpoint uid) (verify_clock stream) (work_orders s))
    as [v1 [[c waits]|e]] eqn:Hreq.
  2: { rewrite (M_bind_eq _ _ _ _ _ Hreq) in Hrun. by simplify_eq. }
  rewrite (M_bind_eq _ _ _ _ _ Hreq) in Hrun. cbn beta iota in Hrun.
  destruct (authorize_workload_spec request uid (verify_clock stream) (work_orders s) v1 c waits Hreq)
    as (v & v' & w & Hv & -> & Hw & Ha & -> & _). exists v, w.
  unfold await in Hrun. rewrite Hw in Hrun.
  destruct (consume_wait settle _ _ _ waits (replay v')) as [cache [[]|e]]; [|by simplify_eq/=].
  injection Hrun as <- <-. done.
Qed.

(** The effect of a workload request on the daemon. *)
Lemma serve_request_effect stream uid s s' r :
  serve_request config settle stream (WorkloadEndpoint uid) uid s = (s', r) →
  only_counted s s' ∨
  ∃ request v w, read_message (input stream) = Ok request ∧
    work_orders s = Some v ∧ rq_authorization request = Some (AuthWorkOrder w) ∧
    authorizes (key v) request w (verify_clock stream) ∧
    daemon s' = (handle config (rq_operation request)
      (Tenant (MkTenant (claims_scope (claims w)) (subject_id (claims w)) (assignment_epoch (claims w))))
      (daemon s)).1.
Proof.
  unfold serve_request. destruct (read_message (input stream)) as [request|e].
  2: { intros Hrun. left. pose proof (rejected_counted stream "invalid-message" (WorkloadEndpoint uid) uid None
         (invalid_message e) s) as Hk. by rewrite Hrun in Hk. }
  pose proof (caught_keeps only_counted _ (authorize_counted stream request (WorkloadEndpoint uid)) s) as Hk.
  destruct (caught (authorize settle stream request (WorkloadEndpoint uid)) s) as [s1 [[context|e]|e]] eqn:Hauth;
    rewrite (M_bind_eq _ _ _ _ _ Hauth); simpl in Hk.
  - apply caught_Ok, authorize_granted in Hauth as (v & w & Hv & Hw & Ha & Hd & ->). intros Hrun. right.
    exists request, v, w. split_and!; try done. rewrite <-Hd. cbn beta iota in Hrun.
    replace s' with (fst (s', r)) by done. rewrite <-Hrun.
    unfold answer_request, caught, handle_request. unfold_M.
    destruct (handle config _ _ (daemon s1)) as [d [j|[e|m]]]; simpl; rewrite ?write_message_daemon; done.
  - intros Hrun. left. etrans; [exact Hk|].
    pose proof (rejected_counted stream (rq_request_id request) (WorkloadEndpoint uid) uid
      (work_order_operation (rq_operation request)) (failure_response (rq_request_id request) e) s1) as Hk'.
    by rewrite Hrun in Hk'.
  - intros [= <- _]. by left.
Qed.

(** C2: The workload endpoint acts only for a signed work order.  Whatever
    arrives on a workload connection, either nothing of the daemon changes but
    its counters of requests and connections, or the peer is the broker, the
    message is a request with a work order that authorizes exactly this
    request at the time of the clock, and the effect on the daemon is that of
    the handler, run as the tenant, the subject and the epoch of the work
    order. *)
Theorem workload_effects_are_authorized stream uid s :
  let s' := (serve config settle stream (WorkloadEndpoint uid) s).1 in
  (∃ c, daemon s' = set_counters c (daemon s)) ∨
  ∃ request v w, credentials stream = Ok uid ∧ read_message (input stream) = Ok request ∧
    work_orders s = Some v ∧ rq_authorization request = Some (AuthWorkOrder w) ∧
    authorizes (key v) request w (verify_clock stream) ∧
    daemon s' = (handle config (rq_operation request)
      (Tenant (MkTenant (claims_scope (claims w)) (subject_id (claims w)) (assignment_epoch (claims w))))
      (daemon s)).1.
Proof.
  cbv zeta. unfold serve, mbind, M_bind, M_lift.
  destruct (configured stream); simpl; [|left; exact (reflexivity (R := only_counted) s)].
  destruct (credentials stream) as [peer|]; simpl; [|left; exact (reflexivity (R := only_counted) s)].
  destruct (authorize_peer peer (WorkloadEndpoint uid)) as [[]|e] eqn:Hpeer; [|left; by eexists].
  apply reject_if_Ok, negb_false_iff, Z.eqb_eq in Hpeer as ->.
  destruct (serve_request config settle stream (WorkloadEndpoint uid) uid s) as [s' r] eqn:Hrun.
  destruct (serve_request_effect stream uid s s' r Hrun) as [Hc|(request & v & w & Heff)]; [by left|right].
  by exists request, v, w.
Qed.

Lemma authorize_sent stream request endpoint s : sent (authorize settle stream request endpoint s).1 = sent s.
Proof. unfold authorize. by case_match. Qed.

Lemma write_message_Ok stream response s s' :
  write_message stream response s = (s', Ok tt) →
  ∃ b, encode_response response = Ok b ∧ length_z b < MAX_MESSAGE_BYTES ∧
    s' = set_sent (sent s ++ b ++ [Journal.Journal.NEWLINE]) s.
Proof.
  unfold write_message. unfold_M. destruct (encode_response response) as [b|]; [|done]. simpl.
  destruct (MAX_MESSAGE_BYTES <=? length_z b) eqn:Hl; simpl; [done|].
  destruct (write_outcome stream); [|done]. intros [= <-]. exists b. split_and!; [done|lia|done].
Qed.

(** A response to what arrived on the stream. *)
Record proper_response stream (response : WorkloadResponse Json) : Prop := ProperResponse {
  proper_version : rs_schema_version response = PROTOCOL_VERSION;
  proper_id : rs_request_id response =
    match read_message (input stream) with
    | Ok request => rq_request_id request
    | Err _ => "invalid-message"%string
    end;
  proper_contents :
    (rs_ok response = false ∧ rs_result response = None ∧ is_Some (rs_error response)) ∨
    (rs_ok response = true ∧ rs_error response = None ∧
     ∃ request context (d d' : DaemonState As P X I) j, read_message (input stream) = Ok request ∧
       handle config (rq_operation request) context d = (d', Ok j) ∧ rs_result response = Some j)
}.

Lemma failure_is_proper stream id e :
  id = match read_message (input stream) with Ok request => rq_request_id request | Err _ => "invalid-message"%string end →
  proper_response stream (failure_response id e).
Proof. intros ->. split; [done|done|]. left. simpl. eauto. Qed.

Definition answered stream s s' : Prop :=
  ∃ response bytes, encode_response response = Ok bytes ∧ length_z bytes < MAX_MESSAGE_BYTES ∧
    sent s' = sent s ++ bytes ++ [Journal.Journal.NEWLINE] ∧ proper_response stream response.

Lemma write_message_answered stream response s s1 s' :
  write_message stream response s1 = (s', Ok tt) → sent s1 = sent s → proper_response stream response →
  answered stream s s'.
Proof. intros (b & Hb & Hl & ->)%write_message_Ok Hs Hp. exists response, b. by rewrite <-Hs. Qed.

Lemma rejected_answered stream id endpoint uid operation e s s1 s' :
  (M_modify count_rejected_request;;
   record_audit settle stream id endpoint uid None operation AuditRejected;;
   write_message stream (failure_response id e)) s1 = (s', Ok tt) →
  sent s1 = sent s →
  id = match read_message (input stream) with Ok request => rq_request_id request | Err _ => "invalid-message"%string end →
  answered stream s s'.
Proof.
  intros Hrun Hs Hid. apply M_bind_Ok_inv in Hrun as ([] & s2 & [= <-] & Hrun).
  apply M_bind_Ok_inv in Hrun as ([] & s3 & [= <-] & Hrun).
  eapply write_message_answered; [exact Hrun|done|by apply failure_is_proper].
Qed.

Lemma answer_request_answered stream endpoint uid request context s s1 s' :
  answer_request config settle stream endpoint uid request context s1 = (s', Ok tt) →
  sent s1 = sent s → read_message (input stream) = Ok request → answered stream s s'.
Proof.
  unfold answer_request. intros Hrun Hs Hread.
  apply M_bind_Ok_inv in Hrun as (r & s2 & Hh & Hrun). unfold caught, handle_request in Hh.
  destruct (handle config (rq_operation request) context (daemon s1)) as [d [j|[e|m]]] eqn:Hhd; simplify_eq.
  - apply M_bind_Ok_inv in Hrun as ([] & s3 & [= <-] & Hrun).
    eapply write_message_answered; [exact Hrun|done|]. split; [done|by rewrite Hread|]. right. simpl.
    split_and!; [done|done|]. by exists request, context, (daemon s1), d, j.
  - apply M_bind_Ok_inv in Hrun as ([] & s3 & [= <-] & Hrun).
    eapply write_message_answered; [exact Hrun|done|apply failure_is_proper; by rewrite Hread].
Qed.

(** Every answer is well formed and names its request.  When serving a
    connection succeeds, exactly one message was sent, and it is a response of
    the protocol's version with either an error or a result; it carries the
    identifier of the request that was read, and it has a result only if the
    handler ran that request and returned it. *)
Theorem answers_are_well_formed stream endpoint s s' :
  serve config settle stream endpoint s = (s', Ok tt) → answered stream s s'.
Proof.
  intros Hrun. unfold serve in Hrun.
  apply M_bind_Ok_inv in Hrun as ([] & s1 & [= <- _] & Hrun).
  apply M_bind_Ok_inv in Hrun as (uid & s1 & [= <- _] & Hrun).
  destruct (authorize_peer uid endpoint) as [[]|e].
  2: { apply M_bind_Ok_inv in Hrun as (? & ? & _ & Hrun). by apply M_bind_Ok_inv in Hrun as (? & ? & _ & ?). }
  unfold serve_request in Hrun. destruct (read_message (input stream)) as [request|e] eqn:Hread.
  2: { eapply rejected_answered; [exact Hrun|done|by rewrite Hread]. }
  apply M_bind_Ok_inv in Hrun as (r & s1 & Hauth & Hrun).
  assert (sent s1 = sent s) as Hs.
  { pose proof (authorize_sent stream request endpoint s) as Hs. unfold caught in Hauth.
    destruct (authorize settle stream request endpoint s) as [s2 [c|[e|m]]]; by simplify_eq. }
  destruct r as [context|e].
  - by eapply answer_request_answered.
  - eapply rejected_answered; [exact Hrun|done|by rewrite Hread].
Qed.
End proofs.

(** ** The limiter *)

Inductive limiter_event : Type := Acquire | DropPermit.

(** A limiter with the permits that are held; only a held permit is dropped. *)
Definition limiter_step (s : ConnectionLimiter * Z) (e : limiter_event) : ConnectionLimiter * Z :=
  let '(l, held) := s in
  match e with
  | Acquire => let '(l', granted) := try_acquire l in (l', if granted : bool then held + 1 else held)
  | DropPermit => if 0 <? held then (release_permit l, held - 1) else s
  end.

(** The limiter counts the connections: after any sequence of permits
    taken and dropped its counter is the number of permits that are held,
    which never exceeds the maximum. *)
Theorem limiter_bounds_connections maximum events :
  0 ≤ maximum ≤ u64_max →
  let '(l, held) := foldl limiter_step (limiter_new maximum, 0) events in
  limiter_active l = held ∧ 0 ≤ held ≤ maximum ∧ is_idle l = (held =? 0).
Proof.
  intros Hmax.
  assert (∀ l held, Connection.maximum l = maximum → limiter_active l = held → 0 ≤ held ≤ maximum →
    let '(l', held') := foldl limiter_step (l, held) events in
    limiter_active l' = held' ∧ 0 ≤ held' ≤ maximum ∧ is_idle l' = (held' =? 0)) as Hall.
  { induction events as [|e events IH]; intros l held Hm Ha Hb.
    - simpl. unfold is_idle. by rewrite Ha.
    - destruct l as [a m]. simpl in Hm, Ha. subst a m. destruct e; simpl.
      + unfold try_acquire. simpl. destruct (Z.ltb_spec held maximum); apply IH; simpl; lia.
      + destruct (Z.ltb_spec 0 held); [|by apply IH]. unfold release_permit. simpl.
        rewrite Z.mod_small by lia. apply IH; simpl; lia. }
  apply Hall; simpl; lia.
Qed.

Lemma limiter_bounds_connections_witness :
  let '(l, held) := foldl limiter_step (limiter_new 1, 0) [Acquire; Acquire; DropPermit; Acquire] in
  limiter_active l = held ∧ 0 ≤ held ≤ 1 ∧ is_idle l = (held =? 0).
Proof. apply (limiter_bounds_connections 1 [Acquire; Acquire; DropPermit; Acquire]). unfold u64_max. lia. Defined.

(** ** A broker's request on a concrete server *)

#[local] Existing Instance Compiler.w_topology_codec.
#[local] Existing Instance Admission.w_provider_ops.
#[local] Existing Instance Admission.w_file_system.
#[local] Existing Instance Replay.w_codec.
#[local] Existing Instance Verifier.w_signature_codec.
#[local] Existing Instance Verifier.w_operation_codec.
#[local] Existing Instance ServiceProofs.w_assignments.
#[local] Existing Instance ServiceProofs.w_executor.
#[local] Instance w_message_codec : MessageCodec := {
  decode_request b := if bool_decide (b = bytes "create" ++ [Journal.Journal.NEWLINE]) then Ok Verifier.w_request
                      else Err "expected value"%string;
  encode_response r := Ok (bytes (rs_request_id r) ++ if rs_ok r then bytes " ok" else bytes " error");
  encode_audit r := Ok (bytes (audit_request_id r))
}.

Definition w_stream : Stream :=
  MkStream (Ok tt) (Ok 7) (MkInput (bytes "create" ++ [Journal.Journal.NEWLINE]) None) (Ok tt) 10 10.
Definition w_server : Server :=
  MkServer w_daemon Verifier.w_verifier (Ledger.w_journal []) [].

Definition w_served := serve w_config w_settle w_stream (WorkloadEndpoint 7) w_server.

Lemma w_served_Ok : w_served.2 = Ok tt ∧ sent w_served.1 = bytes "request-1 ok" ++ [Journal.Journal.NEWLINE].
Proof. vm_compute. done. Qed.

Lemma answers_are_well_formed_witness : answered w_config w_stream w_server w_served.1.
Proof.
  apply (answers_are_well_formed w_config w_settle w_stream (WorkloadEndpoint 7)).
  exact (M_run _ w_server _ (proj1 w_served_Ok)).
Defined.
